(* ===== verification/_CoqProject ===== *)
-Q . S2P
Prelude.v
Bytes.v
Decimal.v
Crc32c.v
WalEntry.v
Os.v
WalSegment.v
Md5.v
Json.v
JsonProps.v
Object.v
AesGcm.v
Cipher.v
CipherStore.v
S3.v
Instrumented.v
Wal.v
WalDurable.v
WalSync.v
WalRecovery.v
Pebble.v
StoreKeys.v
Store.v
StoreSpec.v
StoreInv.v
StoreApply.v
StoreRead.v
StoreRefine.v
StoreProps.v
Peer.v
Node.v
NodeSpec.v
NodeInv.v
NodeProps.v
NodeSteps.v
Server.v
Follower.v
Replication.v
ReplicationProps.v
NodeClaims.v
WalReplay.v
WalReplayProps.v
WalGc.v
Election.v
ElectionProps.v
Sha256.v
Checkpoint.v
CheckpointProps.v
CheckpointWrite.v
CheckpointRestore.v
CheckpointClaims.v
SstUploader.v
SstUploaderProps.v
Lifecycle.v
Startup.v
NodeReads.v
Cluster.v
Failover.v
NodeApi.v
EtcdKv.v
EtcdKvProps.v
EtcdLease.v
EtcdTxn.v
EtcdTxnProps.v
EtcdClaims.v
EtcdWatch.v
EtcdWatchProps.v
Rfc3339.v
AuthStore.v
AuthService.v
AuthGate.v
AuthLimiter.v
AuthAdmin.v
PeerCodec.v
CliStore.v
CliInspect.v
