(* ===== verification/Prelude.v ===== *)
(** * T4: a verification of the key-value store

    T4 is an embeddable, etcd-compatible key-value store written in Go.  A node
    appends writes to a write-ahead log, applies them to a local Pebble
    database, and archives log segments and checkpoints in object storage; one
    node of a cluster is the leader, elected over an object in that storage,
    and streams its log to followers, which forward writes to it.  An etcd v3
    surface with authentication runs on top.  This library translates the
    program function by function into Rocq and proves what its parts promise.

    ** Conventions

    Go strings and byte slices are lists of bytes, int64 and uint64 are
    integers in [Z] with their wrap-around written out ([i64], [u64]), structs
    are records, a pair of a value and an error is a [result].  A method that
    changes an object is a function in the monad [ST] of [Os], which keeps the
    state reached when an error is returned.  Calls that can fail, to the
    operating system, to object storage and to Pebble, fail in the model: the
    file system takes its failures from a list that every theorem quantifies
    over, and object storage and Pebble are type classes whose laws allow every
    call to fail, a failed write possibly with its effect.  Goroutines are cut
    where they take a lock or wait, and interleave in step relations.  Errors
    keep what callers compare; the texts around them are shortened.  Logging
    and metrics are left out, except in [Instrumented].

    ** Parts, files and sources

    Ground: [Bytes], [Decimal], [Crc32c], [Md5], [Sha256], [AesGcm], [Json],
    [JsonProps] and [Rfc3339] write out the Go standard library as far as the
    sources use it, with the round trips the codecs rely on; hashes and the
    cipher are evaluated on published vectors.  [Os] has the monad and the
    files.

    Object storage (pkg/object): [Object] has the interfaces as classes with
    laws and the in-memory store as an instance; [S3], [Cipher] and
    [CipherStore], and [Instrumented] are the stores of s3.go, cipher.go and
    instrumented.go, each proved to satisfy the same laws, so that every
    theorem on a client of the interface holds on them.

    Write-ahead log (internal/wal, wal_replay.go): [WalEntry] (entry.go),
    [WalSegment] (segment.go), [Wal] (wal.go), [WalRecovery] and [WalGc] (local
    recovery, gc.go), [WalReplay] (replay from object storage); [WalDurable],
    [WalSync] and [WalReplayProps] hold their theorems.

    Store (internal/store): [Pebble] is the interface of the database,
    [StoreKeys] (keys.go) and [Store] (store.go) the state machine, [StoreSpec]
    its specification as a history of records, [StoreInv], [StoreApply],
    [StoreRead], [StoreRefine] and [StoreProps] the refinement.  [SstUploader]
    is sstuploader.go.

    Replication and nodes: [Peer] and [PeerCodec] (peer.go and the connection
    of client.go), [Server] (server.go), [Follower] (client.go, follower.go),
    [Node] (writes.go and the commit loop of leader.go), [NodeReads] (reads of
    node.go), [Election] (election.go), [Checkpoint] (checkpoint.go, branch.go,
    fork.go), [Lifecycle] (roles: leader.go, follower.go, node.go,
    wal_replay.go) and [Startup] (Open of node.go, restore.go).  [NodeSpec],
    [NodeInv], [NodeSteps], [NodeProps] and [NodeClaims] show the write path to
    be a sequential store; [Replication], [ReplicationProps] and [Cluster] put
    leader and followers together; [ElectionProps], [CheckpointProps],
    [CheckpointWrite], [CheckpointRestore], [CheckpointClaims] and
    [SstUploaderProps] hold the theorems of these parts; [Failover] has runs of
    whole clusters.

    etcd surface (etcd): [NodeApi] states what a node promises its clients
    while others write, and the node of [Node] is an instance; [EtcdKv] and
    [EtcdTxn] (kv.go, server.go), [EtcdLease] (lease.go, lease_state.go) and
    [EtcdWatch] (watch.go) are programs over that interface, with their
    theorems in [EtcdKvProps], [EtcdTxnProps], [EtcdClaims] and
    [EtcdWatchProps].  [AuthStore] (types.go, ratelimit.go, store.go) and
    [AuthService] (tokens.go, interceptor.go, service.go) are the
    authentication of etcd/auth, with [AuthGate], [AuthLimiter], [AuthAdmin].

    Command line (internal/cli): [CliStore] (gc, status, branch, restore) and
    [CliInspect] (inspect).

    A function that is translated in several definitions is listed in the
    manifest with its main definition; the parts are in the same file.

    ** What the theorems show

    - Durability: an acknowledged entry can be read back in every reachable
      state of the log, whatever fails; every committed write is recoverable;
      segments cut by a crash replay what was written whole.
    - The store implements a history: batches extend it or leave it, reads at
      every revision are functions of it, reopening and recovering restore it.
    - The write path is a sequential store under every interleaving of clients
      with the commit loop; followers hold prefixes of the leader's history,
      quorum waits mean what they say, and linearizable reads of followers see
      all earlier writes of the leader.
    - Elections are won with increasing terms; checkpoints are published whole
      and restored as written; garbage collection, by a node or by the command,
      keeps what restores, branches and replays need.
    - Encrypted objects are read as they were written and never cut unnoticed;
      stores under different prefixes of a bucket are separate.
    - Forwarded writes reach the leader unchanged when their keys are UTF-8.
    - The etcd handlers answer and commit on one history at one revision;
      watches deliver events once and in order; with authentication on,
      requests reach the node only with a token and permissions; guessing
      passwords is slow; users and roles survive a restart.
    - Where the code departs from its comments, a run shows it; these runs are
      under Departures or Runs at the end of the files.

    ** Fuel and bounds

    Loops that are not structural take a fuel.  Loops over bytes (JSON, UTF-8,
    base64, frames, segments, transaction records) take the length of their
    input or a multiple of it; each iteration consumes at least one byte, and
    the round trips and [segment_read_terminates] show that the fuel is not
    exhausted.  The encrypting and decrypting streams take one more than the
    length of the input, which is more than it has frames.  Chunks of a range
    deletion take the number of keys.  The retry loops of [Startup] and
    [Lifecycle] have the bounds of the code (ten rounds of the gap loop, five
    attempts of a restore).  Revisions and sequences stay below 2^63, which
    the invariants carry as [valid_rev]; wire integers wrap as in Go.

    ** Parameters

    Pebble, the S3 client (minio-go), bcrypt, the key provider of the encrypted
    store, gRPC calls, unicode.IsPrint and strconv.Quote are not part of the
    repository; they are classes or section variables with what their
    documentation promises as hypotheses, and concrete instances evaluate the
    witnesses.  The clock, random bytes, the answers of select and of os.Stat
    on directories are inputs.

    ** Not modelled

    The engine of Pebble; gRPC, TLS and HTTP; reading flags, environment
    variables, key and certificate files, and the layout of printed output;
    the set-up of the etcd server and its maintenance calls, which answer with
    constants and the current revision; metrics, logging and version
    information; the benchmark, the documentation generator and the test
    servers.  They hold no state that an operation above depends on. *)

From stdpp Require Export base tactics numbers list gmap strings sorting.
From Stdlib Require Export Init.Byte Strings.Byte.
From Stdlib Require Strings.String.

Open Scope Z_scope.

(** ** Errors

    The sentinel errors of the Go packages ([errors.New] values compared with
    [==] or [errors.Is]) and of the etcd API, gRPC statuses with their code;
    every other error value is an [ErrText] carrying the constant part of its
    message. *)

Inductive code : Type :=
  | InvalidArgument | NotFound | AlreadyExists | PermissionDenied | FailedPrecondition
  | ResourceExhausted | Unimplemented | Internal | Unauthenticated.

#[global] Instance code_eq_dec : EqDecision code.
Proof. solve_decision. Defined.

Inductive err : Type :=
  | ErrEOF                    (* io.EOF *)
  | ErrUnexpectedEOF          (* io.ErrUnexpectedEOF *)
  | ErrClosed                 (* store.ErrClosed / t4.ErrClosed *)
  | ErrCompacted              (* store.ErrCompacted *)
  | ErrFutureRevision         (* store.ErrFutureRevision *)
  | ErrKeyExists              (* t4.ErrKeyExists *)
  | ErrNoLeader               (* t4.ErrNoLeader *)
  | ErrNotFound               (* object.ErrNotFound *)
  | ErrPreconditionFailed     (* object.ErrPreconditionFailed *)
  | ErrNotExist               (* os.ErrNotExist *)
  | ErrCanceled               (* context.Canceled *)
  | ErrDeadlineExceeded       (* context.DeadlineExceeded *)
  | ErrResyncRequired         (* peer.ErrResyncRequired *)
  | ErrLeaderUnreachable      (* peer.ErrLeaderUnreachable *)
  | ErrLeaderShutdown         (* peer.ErrLeaderShutdown *)
  | ErrGRPCNoLeader           (* rpctypes.ErrGRPCNoLeader *)
  | ErrGRPCCompacted          (* rpctypes.ErrGRPCCompacted *)
  | ErrGRPCFutureRev          (* rpctypes.ErrGRPCFutureRev *)
  | ErrStatus (c : code) (msg : string) (* status.Error(c, msg) *)
  | ErrText (msg : string).   (* fmt.Errorf(...) *)

#[global] Instance err_eq_dec : EqDecision err.
Proof. solve_decision. Defined.

(** ** The result monad: Go's [(T, error)] pairs. *)

Inductive result (A : Type) : Type :=
  | Ok (a : A)
  | Err (e : err).
Arguments Ok {A} a.
Arguments Err {A} e.

#[global] Instance result_ret : MRet result := λ A, Ok.
#[global] Instance result_bind : MBind result := λ A B f m,
  match m with Ok a => f a | Err e => Err e end.
#[global] Instance result_fmap : FMap result := λ A B f m,
  match m with Ok a => Ok (f a) | Err e => Err e end.

Definition map_err {A} (g : err → err) (r : result A) : result A :=
  match r with Ok a => Ok a | Err e => Err (g e) end.

Definition is_ok {A} (r : result A) : bool :=
  match r with Ok _ => true | Err _ => false end.

(** ** Machine integers

    A Go [int64] or [uint64] is a [Z] in its range.  [u64] and [i64] are the
    conversions [uint64(x)] and [int64(x)]; arithmetic that can overflow is
    written [i64 (x + y)]. *)

Definition u64 (z : Z) : Z := z mod 2 ^ 64.
Definition u32 (z : Z) : Z := z mod 2 ^ 32.
Definition u16 (z : Z) : Z := z mod 2 ^ 16.
Definition u8 (z : Z) : Z := z mod 2 ^ 8.
Definition i64 (z : Z) : Z :=
  let w := z mod 2 ^ 64 in if w <? 2 ^ 63 then w else w - 2 ^ 64.

Definition max_int64 : Z := 2 ^ 63 - 1.

Definition is_i64 (z : Z) : Prop := - 2 ^ 63 ≤ z < 2 ^ 63.
Definition is_u64 (z : Z) : Prop := 0 ≤ z < 2 ^ 64.
Definition is_u32 (z : Z) : Prop := 0 ≤ z < 2 ^ 32.
Definition is_u8 (z : Z) : Prop := 0 ≤ z < 2 ^ 8.

#[global] Instance is_i64_dec z : Decision (is_i64 z).
Proof. unfold is_i64; apply _. Defined.
#[global] Instance is_u64_dec z : Decision (is_u64 z).
Proof. unfold is_u64; apply _. Defined.
#[global] Instance is_u32_dec z : Decision (is_u32 z).
Proof. unfold is_u32; apply _. Defined.
#[global] Instance is_u8_dec z : Decision (is_u8 z).
Proof. unfold is_u8; apply _. Defined.

(** [zlen l] is Go's [len(l)]. *)
Definition zlen {A} (l : list A) : Z := Z.of_nat (length l).

(** ** Automation *)

Create HintDb t4 discriminated.

(** Reduce a bind whose head has become a constructor. *)
Ltac simp_res :=
  repeat match goal with
    | |- context [mbind ?f (Ok ?a)] => change (mbind f (Ok a)) with (f a); cbv beta iota
    | |- context [mbind ?f (Err ?e)] => change (mbind f (Err e)) with (@Err _ e)
    | H : context [mbind ?f (Ok ?a)] |- _ => change (mbind f (Ok a)) with (f a) in H; cbv beta iota in H
    | H : context [mbind ?f (Err ?e)] |- _ => change (mbind f (Err e)) with (@Err _ e) in H
    end.

(** Case on the result scrutinised by a bind in a hypothesis [H : (m ≫= f) = Ok _]. *)
Ltac bind_inv H :=
  match type of H with
  | mbind ?f ?m = Ok _ =>
      let E := fresh "E" in
      destruct m eqn:E; [cbv beta iota delta [mbind result_bind] in H|discriminate H]
  end.

(** ** Lemmas on machine integers *)

Lemma i64_id z : is_i64 z → i64 z = z.
Proof.
  unfold i64, is_i64. intros Hz.
  destruct (decide (0 ≤ z)).
  - rewrite Z.mod_small by lia.
    destruct (Z.ltb_spec z (2 ^ 63)); lia.
  - replace (z mod 2 ^ 64) with (z + 2 ^ 64)
      by (apply (Z.mod_unique _ _ (-1)); lia).
    destruct (Z.ltb_spec (z + 2 ^ 64) (2 ^ 63)); lia.
Qed.

Lemma i64_u64 z : i64 (u64 z) = i64 z.
Proof. unfold i64, u64. by rewrite Z.mod_mod by lia. Qed.

Lemma i64_range z : is_i64 (i64 z).
Proof.
  unfold i64, is_i64. pose proof (Z.mod_pos_bound z (2 ^ 64)).
  destruct (Z.ltb_spec (z mod 2 ^ 64) (2 ^ 63)); lia.
Qed.

Lemma u64_id z : is_u64 z → u64 z = z.
Proof. unfold u64, is_u64. intros. by apply Z.mod_small. Qed.

Lemma u32_id z : is_u32 z → u32 z = z.
Proof. unfold u32, is_u32. intros. by apply Z.mod_small. Qed.

#[global] Hint Rewrite i64_u64 : t4.
#[export] Hint Resolve i64_id u64_id u32_id i64_range : t4.

Lemma zlen_nonneg {A} (l : list A) : 0 ≤ zlen l.
Proof. unfold zlen. lia. Qed.

Lemma zlen_app {A} (l k : list A) : zlen (l ++ k) = zlen l + zlen k.
Proof. unfold zlen. rewrite length_app. lia. Qed.

Lemma zlen_cons {A} (x : A) l : zlen (x :: l) = 1 + zlen l.
Proof. unfold zlen. cbn [length]. lia. Qed.

(** ** Results *)

Lemma Ok_inj {A} (a b : A) : Ok a = Ok b → a = b.
Proof. congruence. Qed.

Lemma bind_Ok {A B} (m : result A) (f : A → result B) b :
  m ≫= f = Ok b ↔ ∃ a, m = Ok a ∧ f a = Ok b.
Proof. destruct m; split; naive_solver. Qed.

(** ** Lists *)

(** A strictly sorted list is determined by its elements. *)
Lemma StronglySorted_ext {A} (R : relation A) (l k : list A) :
  Irreflexive R → Transitive R →
  StronglySorted R l → StronglySorted R k →
  (∀ x, x ∈ l ↔ x ∈ k) → l = k.
Proof.
  intros Hirr Htr Hl. revert k.
  induction Hl as [|x l Hl IH Hx]; intros k Hk Heq.
  - destruct k as [|y k]; [done|]. exfalso. apply (not_elem_of_nil y).
    apply Heq. by left.
  - destruct Hk as [|y k Hk Hy].
    { exfalso. apply (not_elem_of_nil x). apply Heq. by left. }
    rewrite Forall_forall in Hx, Hy.
    assert (x = y) as <-.
    { assert (x ∈ y :: k) as [->|H1]%elem_of_cons by (apply Heq; by left); [done|].
      assert (y ∈ x :: l) as [->|H2]%elem_of_cons by (apply Heq; by left); [done|].
      exfalso. apply (Hirr x). by etrans; [apply Hx|apply Hy]. }
    f_equal. apply IH; [done|]. intros z. split; intros Hz.
    + assert (z ∈ x :: k) as [->|?]%elem_of_cons by (apply Heq; by right); [|done].
      exfalso. by apply (Hirr x), Hx.
    + assert (z ∈ x :: l) as [->|?]%elem_of_cons by (apply Heq; by right); [|done].
      exfalso. by apply (Hirr x), Hy.
Qed.

Lemma StronglySorted_filter {A} (R : relation A) (P : A → Prop) `{∀ x, Decision (P x)} l :
  StronglySorted R l → StronglySorted R (filter P l).
Proof.
  induction 1 as [|x l Hl IH Hx]; [constructor|].
  rewrite filter_cons. case_decide; [|done].
  constructor; [done|]. rewrite Forall_forall in Hx |- *.
  intros y [_ Hy]%list_elem_of_filter. auto.
Qed.

Lemma StronglySorted_snoc {A} (R : relation A) l x :
  StronglySorted R l → (∀ y, y ∈ l → R y x) → StronglySorted R (l ++ [x]).
Proof.
  intros Hl Hx. apply StronglySorted_app_2; [|done|repeat constructor].
  by intros ? ? ? ->%list_elem_of_singleton; auto.
Qed.

Lemma filter_ext_in {A} (P Q : A → Prop) `{∀ x, Decision (P x)} `{∀ x, Decision (Q x)} (l : list A) :
  (∀ x, x ∈ l → P x ↔ Q x) → filter P l = filter Q l.
Proof.
  induction l as [|x l IH]; intros He; [done|]. rewrite !filter_cons.
  rewrite IH by (intros y Hy; apply He; by right).
  destruct (decide (P x)), (decide (Q x)); try done; exfalso; specialize (He x); set_solver.
Qed.

Lemma map_filter_comm {A B} (f : A → B) (P : B → Prop) `{∀ x, Decision (P x)} (l : list A) :
  filter P (map f l) = map f (filter (λ x, P (f x)) l).
Proof.
  induction l as [|x l IH]; [done|]. cbn [map]. rewrite !filter_cons, IH.
  by destruct (decide (P (f x))).
Qed.

Lemma StronglySorted_map {A B} (R : relation A) (Q : relation B) (f : A → B) (l : list A) :
  (∀ x y, x ∈ l → y ∈ l → R x y → Q (f x) (f y)) → StronglySorted R l → StronglySorted Q (map f l).
Proof.
  intros Hf Hs. induction Hs as [|x l Hl IH Hx]; cbn; constructor.
  - apply IH. intros y z ??. apply Hf; by right.
  - apply Forall_forall. intros y Hy. apply list_elem_of_In, in_map_iff in Hy as (z & <- & Hz).
    apply list_elem_of_In in Hz. apply Hf; [by left|by right|].
    by apply (proj1 (Forall_forall _ _) Hx).
Qed.

Lemma last_map_fmap {A B} (f : A → B) (l : list A) :
  last (map f l) = match last l with Some x => Some (f x) | None => None end.
Proof. change (map f l) with (f <$> l). rewrite fmap_last. by destruct (last l). Qed.

Lemma filter_nil_in {A} (P : A → Prop) `{∀ x, Decision (P x)} (l : list A) :
  (∀ x, x ∈ l → ¬ P x) → filter P l = [].
Proof.
  intros Hl. destruct (filter P l) as [|x k] eqn:E; [done|exfalso].
  assert (x ∈ filter P l) as Hx by (rewrite E; by left).
  apply list_elem_of_filter in Hx as [Hp Hx]. by apply (Hl x).
Qed.

Lemma filter_all_in {A} (P : A → Prop) `{∀ x, Decision (P x)} (l : list A) :
  (∀ x, x ∈ l → P x) → filter P l = l.
Proof.
  induction l as [|x l IH]; intros Hl; [done|].
  rewrite filter_cons, decide_True by (apply Hl; by left). f_equal. apply IH. intros y Hy. apply Hl. by right.
Qed.

Lemma elem_of_drop_in {A} (x : A) (n : nat) (l : list A) : x ∈ drop n l → x ∈ l.
Proof. intros Hx. rewrite <- (take_drop n l). apply elem_of_app. by right. Qed.

Lemma elem_of_take_in {A} (x : A) (n : nat) (l : list A) : x ∈ take n l → x ∈ l.
Proof. intros Hx. rewrite <- (take_drop n l). apply elem_of_app. by left. Qed.
