(* ===== verification/Bytes.v ===== *)
(** * Byte strings

    Go strings and byte slices, the [encoding/binary] integers the wire and
    key formats are built from, and the lexicographic order in which Pebble
    and object storage sort their keys. *)

From S2P Require Import Prelude.

Notation bytes := (list byte).

(** ** Bytes *)

Definition byte_val (b : byte) : Z := Z.of_N (Byte.to_N b).

(** [byte(x)]: truncation to eight bits. *)
Definition byte_of (z : Z) : byte :=
  match Byte.of_N (Z.to_N (u8 z)) with Some b => b | None => x00 end.

(** A Go string literal. *)
Definition str (s : string) : bytes := String.list_byte_of_string s.

#[global] Instance byte_eq_dec : EqDecision byte := Byte.byte_eq_dec.

#[global] Program Instance byte_countable : Countable byte :=
  inj_countable Byte.to_N Byte.of_N _.
Next Obligation. intros b. apply Byte.of_to_N. Qed.

(** ** Integers as bytes *)

(** [binary.BigEndian.PutUintN]: the [n] low-order bytes, most significant first. *)
Fixpoint be (n : nat) (z : Z) : bytes :=
  match n with
  | O => []
  | S m => byte_of (Z.shiftr z (8 * Z.of_nat m)) :: be m z
  end.

(** [binary.BigEndian.UintN]. *)
Definition unbe (l : bytes) : Z :=
  fold_left (λ acc b, acc * 256 + byte_val b) l 0.

(** [binary.LittleEndian.PutUintN] and [UintN]. *)
Fixpoint le (n : nat) (z : Z) : bytes :=
  match n with
  | O => []
  | S m => byte_of z :: le m (Z.shiftr z 8)
  end.

Fixpoint unle (l : bytes) : Z :=
  match l with
  | [] => 0
  | b :: l' => byte_val b + 256 * unle l'
  end.

(** A Go slice [b[i:j]] with [0 <= i <= j <= len b]. *)
Definition slice (i j : nat) (l : bytes) : bytes := take (j - i) (drop i l).

(** ** Lexicographic order

    [bytes.Compare], Go's [<] on strings and Pebble's default comparer. *)

Fixpoint bytes_cmp (a b : bytes) : comparison :=
  match a, b with
  | [], [] => Eq
  | [], _ :: _ => Lt
  | _ :: _, [] => Gt
  | x :: a', y :: b' =>
      match byte_val x ?= byte_val y with
      | Eq => bytes_cmp a' b'
      | c => c
      end
  end.

Definition bytes_lt (a b : bytes) : Prop := bytes_cmp a b = Lt.
Definition bytes_le (a b : bytes) : Prop := bytes_cmp a b ≠ Gt.
Definition bytes_ltb (a b : bytes) : bool :=
  match bytes_cmp a b with Lt => true | _ => false end.
Definition bytes_leb (a b : bytes) : bool :=
  match bytes_cmp a b with Gt => false | _ => true end.

#[global] Instance bytes_lt_dec : RelDecision bytes_lt.
Proof. intros a b. unfold bytes_lt. apply _. Defined.
#[global] Instance bytes_le_dec : RelDecision bytes_le.
Proof. intros a b. unfold bytes_le. apply _. Defined.

(** [strings.HasPrefix(s, p)]. *)
Fixpoint has_prefix (p s : bytes) : bool :=
  match p, s with
  | [], _ => true
  | x :: p', y :: s' => bool_decide (x = y) && has_prefix p' s'
  | _ :: _, [] => false
  end.

(** [strings.HasSuffix(s, p)]. *)
Definition has_suffix (p s : bytes) : bool := has_prefix (reverse p) (reverse s).

(** ** Lemmas on bytes *)

Lemma byte_val_range b : 0 ≤ byte_val b < 256.
Proof.
  unfold byte_val. pose proof (Byte.to_N_bounded b). lia.
Qed.

Lemma byte_val_inj b c : byte_val b = byte_val c → b = c.
Proof.
  unfold byte_val. intros H%N2Z.inj.
  pose proof (Byte.of_to_N b). pose proof (Byte.of_to_N c). congruence.
Qed.

Lemma byte_val_of z : byte_val (byte_of z) = u8 z.
Proof.
  unfold byte_of, byte_val. pose proof (Z.mod_pos_bound z (2 ^ 8)) as Hb.
  fold (u8 z) in Hb.
  destruct (Byte.of_N (Z.to_N (u8 z))) as [b|] eqn:E.
  - apply Byte.to_of_N in E. rewrite E. lia.
  - apply Byte.of_N_None_iff in E. lia.
Qed.

Lemma byte_of_val b : byte_of (byte_val b) = b.
Proof.
  apply byte_val_inj. rewrite byte_val_of. unfold u8.
  apply Z.mod_small, byte_val_range.
Qed.

(** ** Big-endian integers *)

Lemma length_be n z : length (be n z) = n.
Proof. induction n; cbn; congruence. Qed.

Lemma unbe_fold l a :
  fold_left (λ acc b, acc * 256 + byte_val b) l a = a * 256 ^ zlen l + unbe l.
Proof.
  unfold unbe. revert a. induction l as [|b l IH]; intros a; cbn [fold_left].
  - unfold zlen. cbn [length]. lia.
  - rewrite IH, (IH (0 * 256 + _)), zlen_cons.
    rewrite Z.pow_add_r by (pose proof (zlen_nonneg l); lia). lia.
Qed.

Lemma unbe_cons b l : unbe (b :: l) = byte_val b * 256 ^ zlen l + unbe l.
Proof. unfold unbe at 1. cbn [fold_left]. by rewrite unbe_fold. Qed.

Lemma unbe_range l : 0 ≤ unbe l < 256 ^ zlen l.
Proof.
  induction l as [|b l IH]; [done|]. rewrite unbe_cons, zlen_cons.
  pose proof (byte_val_range b). pose proof (zlen_nonneg l).
  rewrite Z.pow_add_r by lia. nia.
Qed.

Lemma shiftr8_div z m : Z.shiftr z (8 * Z.of_nat m) = z / 256 ^ Z.of_nat m.
Proof.
  rewrite Z.shiftr_div_pow2 by lia. by rewrite Z.pow_mul_r by lia.
Qed.

Lemma unbe_be n z : unbe (be n z) = z mod 256 ^ Z.of_nat n.
Proof.
  induction n as [|n IH]; [by rewrite Z.mod_1_r|].
  cbn [be]. rewrite unbe_cons, IH, byte_val_of, shiftr8_div.
  unfold zlen. rewrite length_be. unfold u8.
  replace (Z.of_nat (S n)) with (Z.of_nat n + 1) by lia.
  rewrite Z.pow_add_r, Z.pow_1_r by lia.
  assert (0 < 256 ^ Z.of_nat n) by (apply Z.pow_pos_nonneg; lia).
  rewrite (Z.rem_mul_r z) by lia. change (2 ^ 8) with 256. lia.
Qed.

Lemma be_inj n x y :
  0 ≤ x < 256 ^ Z.of_nat n → 0 ≤ y < 256 ^ Z.of_nat n → be n x = be n y → x = y.
Proof.
  intros Hx Hy H. apply (f_equal unbe) in H. rewrite !unbe_be in H.
  by rewrite !Z.mod_small in H.
Qed.

(** The decoder forms used by the record formats. *)
Lemma unbe_be_u64 z : unbe (be 8 z) = u64 z.
Proof. by rewrite unbe_be. Qed.

Lemma unbe_be_u32 z : unbe (be 4 z) = u32 z.
Proof. by rewrite unbe_be. Qed.

Lemma i64_unbe_be z : is_i64 z → i64 (unbe (be 8 z)) = z.
Proof. intros. rewrite unbe_be_u64, i64_u64. by apply i64_id. Qed.

(** An [int64] written as [PutUint64(buf, uint64(z))] and read back. *)
Lemma i64_unbe_be_u64 z : is_i64 z → i64 (unbe (be 8 (u64 z))) = z.
Proof. intros. rewrite unbe_be_u64, !i64_u64. by apply i64_id. Qed.

Lemma unbe_be_u32_id z : is_u32 z → unbe (be 4 (u32 z)) = z.
Proof. intros. by rewrite unbe_be_u32, (u32_id z), u32_id. Qed.

(** ** Little-endian integers *)

Lemma length_le n z : length (le n z) = n.
Proof. revert z. induction n; intros; cbn; congruence. Qed.

Lemma unle_le n z : unle (le n z) = z mod 256 ^ Z.of_nat n.
Proof.
  revert z. induction n as [|n IH]; intros z; [by rewrite Z.mod_1_r|].
  cbn [le unle]. rewrite byte_val_of, IH, Z.shiftr_div_pow2 by lia.
  unfold u8. change (2 ^ 8) with 256.
  replace (Z.of_nat (S n)) with (1 + Z.of_nat n) by lia.
  assert (0 < 256 ^ Z.of_nat n) by (apply Z.pow_pos_nonneg; lia).
  rewrite Z.pow_add_r, Z.pow_1_r, Z.rem_mul_r by lia. done.
Qed.

Lemma unle_le_u64 z : unle (le 8 z) = u64 z.
Proof. by rewrite unle_le. Qed.

Lemma unle_le_u32 z : unle (le 4 z) = u32 z.
Proof. by rewrite unle_le. Qed.

Lemma i64_unle_le z : is_i64 z → i64 (unle (le 8 z)) = z.
Proof. intros. rewrite unle_le_u64, i64_u64. by apply i64_id. Qed.

#[global] Hint Rewrite length_be length_le : t4.

(** ** The lexicographic order is a decidable total order *)

Lemma bytes_cmp_refl a : bytes_cmp a a = Eq.
Proof. induction a as [|x a IH]; cbn; [done|]. by rewrite Z.compare_refl. Qed.

Lemma bytes_cmp_eq a b : bytes_cmp a b = Eq ↔ a = b.
Proof.
  split; [|intros ->; apply bytes_cmp_refl].
  revert b. induction a as [|x a IH]; intros [|y b]; cbn; try done.
  destruct (byte_val x ?= byte_val y) eqn:E; try done.
  apply Z.compare_eq, byte_val_inj in E as ->. intros ?%IH. by subst.
Qed.

Lemma bytes_cmp_antisym a b : bytes_cmp b a = CompOpp (bytes_cmp a b).
Proof.
  revert b. induction a as [|x a IH]; intros [|y b]; cbn; try done.
  rewrite (Z.compare_antisym (byte_val x)).
  destruct (byte_val x ?= byte_val y); cbn; auto.
Qed.

Lemma bytes_lt_trans a b c : bytes_lt a b → bytes_lt b c → bytes_lt a c.
Proof.
  unfold bytes_lt. revert b c.
  induction a as [|x a IH]; intros [|y b] [|z c]; cbn; try done.
  destruct (Z.compare_spec (byte_val x) (byte_val y)) as [E1|E1|E1]; try done;
    destruct (Z.compare_spec (byte_val y) (byte_val z)) as [E2|E2|E2]; try done;
    intros H1 H2;
    destruct (Z.compare_spec (byte_val x) (byte_val z)) as [E3|E3|E3];
    solve [done | lia | eauto].
Qed.

#[global] Instance bytes_lt_transitive : Transitive bytes_lt.
Proof. intros ???. apply bytes_lt_trans. Qed.

#[global] Instance bytes_lt_irrefl : Irreflexive bytes_lt.
Proof. intros a. unfold bytes_lt, complement. by rewrite bytes_cmp_refl. Qed.

Lemma bytes_le_lteq a b : bytes_le a b ↔ bytes_lt a b ∨ a = b.
Proof.
  unfold bytes_le, bytes_lt. rewrite <- bytes_cmp_eq.
  destruct (bytes_cmp a b); naive_solver.
Qed.

Lemma bytes_not_le a b : ¬ bytes_le a b ↔ bytes_lt b a.
Proof.
  unfold bytes_le, bytes_lt. rewrite (bytes_cmp_antisym a b).
  destruct (bytes_cmp a b); cbn; naive_solver.
Qed.

Lemma bytes_not_lt a b : ¬ bytes_lt a b ↔ bytes_le b a.
Proof.
  unfold bytes_le, bytes_lt. rewrite (bytes_cmp_antisym a b).
  destruct (bytes_cmp a b); cbn; naive_solver.
Qed.

Lemma bytes_le_lt_trans a b c : bytes_le a b → bytes_lt b c → bytes_lt a c.
Proof. rewrite bytes_le_lteq. intros [?| ->] ?; [by etrans|done]. Qed.

Lemma bytes_lt_le_trans a b c : bytes_lt a b → bytes_le b c → bytes_lt a c.
Proof. rewrite bytes_le_lteq. intros ? [?| <-]; [by etrans|done]. Qed.

#[global] Instance bytes_le_refl : Reflexive bytes_le.
Proof. intros a. apply bytes_le_lteq. auto. Qed.

#[global] Instance bytes_le_transitive : Transitive bytes_le.
Proof.
  intros a b c Hab Hbc. apply bytes_le_lteq in Hab as [H| ->]; [|done].
  apply bytes_le_lteq. left. by eapply bytes_lt_le_trans.
Qed.

#[global] Instance bytes_le_total : Total bytes_le.
Proof.
  intros a b. destruct (decide (bytes_le a b)) as [|H]; [by left|].
  right. apply bytes_le_lteq. left. by apply bytes_not_le.
Qed.

#[global] Instance bytes_le_antisymm : AntiSymm eq bytes_le.
Proof.
  intros a b Hab [Hba| ->]%bytes_le_lteq; [|done].
  exfalso. apply (irreflexivity bytes_lt a). by eapply bytes_le_lt_trans.
Qed.

Lemma bytes_ltb_lt a b : bytes_ltb a b = true ↔ bytes_lt a b.
Proof. unfold bytes_ltb, bytes_lt. by destruct (bytes_cmp a b). Qed.

Lemma bytes_leb_le a b : bytes_leb a b = true ↔ bytes_le a b.
Proof. unfold bytes_leb, bytes_le. by destruct (bytes_cmp a b). Qed.

Lemma sorted_NoDup (l : list bytes) : StronglySorted bytes_lt l → NoDup l.
Proof.
  induction 1 as [|x l Hl IH Hf]; constructor; [|done]. intros Hx. rewrite Forall_forall in Hf.
  specialize (Hf x Hx). unfold bytes_lt in Hf. by rewrite bytes_cmp_refl in Hf.
Qed.

(** A common prefix does not matter to the order. *)
Lemma bytes_cmp_app p a b : bytes_cmp (p ++ a) (p ++ b) = bytes_cmp a b.
Proof. induction p; cbn; [done|]. by rewrite Z.compare_refl. Qed.

Lemma bytes_cmp_cons x a b : bytes_cmp (x :: a) (x :: b) = bytes_cmp a b.
Proof. cbn. by rewrite Z.compare_refl. Qed.

(** Strings of equal length differ at the first differing byte, whatever follows. *)
Lemma bytes_cmp_app_ne a b c d :
  length a = length b → a ≠ b → bytes_cmp (a ++ c) (b ++ d) = bytes_cmp a b.
Proof.
  revert b. induction a as [|x a IH]; intros [|y b] Hl Hne; try done.
  cbn. destruct (byte_val x ?= byte_val y) eqn:E; try done.
  apply Z.compare_eq, byte_val_inj in E as ->.
  apply IH; [by injection Hl|congruence].
Qed.

(** A string is at most any extension of it. *)
Lemma bytes_le_app a b : bytes_le a (a ++ b).
Proof.
  unfold bytes_le. rewrite <- (app_nil_r a) at 1. rewrite bytes_cmp_app. by destruct b.
Qed.

Lemma has_prefix_spec p s : has_prefix p s = true ↔ ∃ t, s = p ++ t.
Proof.
  revert s. induction p as [|x p IH]; intros s; cbn.
  - naive_solver.
  - destruct s as [|y s]; [split; [done|by intros [t ?]]|].
    rewrite andb_true_iff, bool_decide_eq_true, IH. naive_solver.
Qed.

(** Big-endian order is numeric order: this is what makes the log keys and
    the segment headers sort by revision. *)
Lemma bytes_cmp_be n x y :
  0 ≤ x < 256 ^ Z.of_nat n → 0 ≤ y < 256 ^ Z.of_nat n →
  bytes_cmp (be n x) (be n y) = (x ?= y).
Proof.
  assert (∀ a b, length a = length b → bytes_cmp a b = (unbe a ?= unbe b)) as Hcmp.
  { induction a as [|u a IH]; intros [|v b] Hl; try done.
    injection Hl as Hl. cbn [bytes_cmp]. rewrite !unbe_cons.
    assert (zlen a = zlen b) as Hz by (unfold zlen; lia). rewrite Hz.
    pose proof (unbe_range a) as Ha. pose proof (unbe_range b) as Hb. rewrite Hz in Ha.
    destruct (Z.compare_spec (byte_val u) (byte_val v)) as [E|E|E].
    - rewrite E, IH by done.
      destruct (Z.compare_spec (unbe a) (unbe b)) as [F|F|F]; symmetry.
      + apply Z.compare_eq_iff; lia.
      + apply Z.compare_lt_iff; lia.
      + apply Z.compare_gt_iff; lia.
    - symmetry. apply Z.compare_lt_iff. nia.
    - symmetry. apply Z.compare_gt_iff. nia. }
  intros Hx Hy. rewrite Hcmp by (by rewrite !length_be).
  by rewrite !unbe_be, !Z.mod_small.
Qed.

#[export] Hint Resolve bytes_cmp_refl bytes_le_app byte_val_range unbe_range : t4.
