(* ===== verification/Decimal.v ===== *)
(** * Decimal numbers

    [fmt.Sprintf("%0<w>d", ...)] and [strconv.ParseUint]/[ParseInt] of the Go
    standard library, as segment names and object keys use them: fixed-width
    decimals sort lexicographically as they sort numerically, and parsing
    inverts formatting. *)

From S2P Require Import Prelude Bytes.

(** ** Formatting *)

Definition digit (d : Z) : byte := byte_of (48 + d).

(** The [n] low-order decimal digits of [z], most significant first. *)
Fixpoint digits (n : nat) (z : Z) : bytes :=
  match n with
  | O => []
  | S m => digit ((z / 10 ^ Z.of_nat m) mod 10) :: digits m z
  end.

(** The number of decimal digits of [z], at most 20 for 64-bit integers. *)
Fixpoint ndigits (fuel : nat) (z : Z) : nat :=
  match fuel with
  | O => 1
  | S f => if z <? 10 then 1 else S (ndigits f (z / 10))
  end.

(** [%d] of a non-negative number. *)
Definition dec (z : Z) : bytes := digits (ndigits 19 z) z.

Definition pad0 (w : nat) (l : bytes) : bytes :=
  replicate (w - length l) (digit 0) ++ l.

(** [%0wd]: the sign counts towards the width and precedes the zeros. *)
Definition fmt_pad (w : nat) (z : Z) : bytes :=
  if z <? 0 then str "-" ++ pad0 (w - 1) (dec (- z)) else pad0 w (dec z).

(** ** Parsing *)

Definition max_uint64 : Z := 2 ^ 64 - 1.

Inductive num_err := ErrSyntax | ErrRange.

Definition is_digit (b : byte) : bool := (48 <=? byte_val b) && (byte_val b <=? 57).

(** The digit loop of [strconv.ParseUint(s, 10, 64)]. *)
Fixpoint parse_digits (s : bytes) (n : Z) : Z * option num_err :=
  match s with
  | [] => (n, None)
  | b :: s' =>
      if negb (is_digit b) then (0, Some ErrSyntax)
      else
        let n1 := n * 10 + (byte_val b - 48) in
        if max_uint64 <? n1 then (max_uint64, Some ErrRange) else parse_digits s' n1
  end.

Definition ParseUint (s : bytes) : Z * option num_err :=
  match s with [] => (0, Some ErrSyntax) | _ => parse_digits s 0 end.

(** [strconv.ParseInt(s, 10, 64)]: the value is also defined in the error cases. *)
Definition ParseInt (s : bytes) : Z * option num_err :=
  match s with
  | [] => (0, Some ErrSyntax)
  | b :: s' =>
      let neg := bool_decide (b = x2d) in
      let body := if bool_decide (b = x2b) || neg then s' else s in
      match ParseUint body with
      | (_, Some ErrSyntax) => (0, Some ErrSyntax)
      | (un, _) =>
          if negb neg && (2 ^ 63 <=? un) then (2 ^ 63 - 1, Some ErrRange)
          else if neg && (2 ^ 63 <? un) then (- 2 ^ 63, Some ErrRange)
          else (if neg then - un else un, None)
      end
  end.

(** ** Digits *)

Lemma length_digits n z : length (digits n z) = n.
Proof. induction n; cbn; congruence. Qed.

Lemma digit_val d : 0 ≤ d < 10 → byte_val (digit d) = 48 + d.
Proof. intros. unfold digit. rewrite byte_val_of. apply Z.mod_small. lia. Qed.

Lemma is_digit_digit d : 0 ≤ d < 10 → is_digit (digit d) = true.
Proof. intros. unfold is_digit. rewrite digit_val by done. apply andb_true_iff. lia. Qed.

Lemma digits_all n z : Forall (λ b, is_digit b = true) (digits n z).
Proof.
  induction n; constructor; [|done]. apply is_digit_digit, Z.mod_pos_bound. lia.
Qed.

Lemma digit_mod_high z n m :
  (n < m)%nat →
  (z mod 10 ^ Z.of_nat m / 10 ^ Z.of_nat n) mod 10 = (z / 10 ^ Z.of_nat n) mod 10.
Proof.
  intros Hm. set (q := 10 ^ Z.of_nat (m - n - 1)). set (p := 10 ^ Z.of_nat n).
  assert (0 < p) by (apply Z.pow_pos_nonneg; lia).
  assert (10 ^ Z.of_nat m = 10 * q * p) as Hmq.
  { subst p q. replace (Z.of_nat m) with (1 + Z.of_nat (m - n - 1) + Z.of_nat n) by lia.
    by rewrite !Z.pow_add_r by lia. }
  assert (0 < q) by (apply Z.pow_pos_nonneg; lia).
  rewrite (Z.div_mod z (10 ^ Z.of_nat m)) at 2 by lia.
  rewrite Hmq. set (k := z / (10 * q * p)). set (r := z mod (10 * q * p)).
  replace (10 * q * p * k + r) with (10 * q * k * p + r) by lia.
  rewrite Z.div_add_l by lia.
  replace (10 * q * k + r / p) with (r / p + q * k * 10) by lia.
  by rewrite Z.mod_add by lia.
Qed.

Lemma digits_mod n m z : (n ≤ m)%nat → digits n (z mod 10 ^ Z.of_nat m) = digits n z.
Proof.
  induction n as [|n IH]; intros Hm; [done|]. cbn [digits].
  by rewrite IH, digit_mod_high by lia.
Qed.

(** ** Fixed-width decimals sort as numbers *)

Lemma bytes_cmp_digits n x y :
  0 ≤ x < 10 ^ Z.of_nat n → 0 ≤ y < 10 ^ Z.of_nat n →
  bytes_cmp (digits n x) (digits n y) = (x ?= y).
Proof.
  revert x y. induction n as [|n IH]; intros x y Hx Hy.
  { symmetry. apply Z.compare_eq_iff. lia. }
  rewrite Nat2Z.inj_succ, Z.pow_succ_r in Hx, Hy by lia.
  cbn [digits bytes_cmp]. set (p := 10 ^ Z.of_nat n) in *.
  assert (0 < p) by (apply Z.pow_pos_nonneg; lia).
  pose proof (Z.div_mod x p ltac:(lia)) as Dx. pose proof (Z.div_mod y p ltac:(lia)) as Dy.
  pose proof (Z.mod_pos_bound x p ltac:(lia)). pose proof (Z.mod_pos_bound y p ltac:(lia)).
  assert (0 ≤ x / p < 10) by (split; [apply Z.div_pos|apply Z.div_lt_upper_bound]; lia).
  assert (0 ≤ y / p < 10) by (split; [apply Z.div_pos|apply Z.div_lt_upper_bound]; lia).
  rewrite !(Z.mod_small _ 10), !digit_val by done.
  rewrite <- (digits_mod n n x), <- (digits_mod n n y) by done. fold p.
  rewrite IH by done.
  destruct (Z.compare_spec (48 + x / p) (48 + y / p)) as [E|E|E]; symmetry.
  - assert (x / p = y / p) as E' by lia. rewrite E' in Dx.
    destruct (Z.compare_spec (x mod p) (y mod p)).
    + apply Z.compare_eq_iff. lia.
    + apply Z.compare_lt_iff. lia.
    + apply Z.compare_gt_iff. lia.
  - apply Z.compare_lt_iff. nia.
  - apply Z.compare_gt_iff. nia.
Qed.

Lemma digits_inj n x y :
  0 ≤ x < 10 ^ Z.of_nat n → 0 ≤ y < 10 ^ Z.of_nat n → digits n x = digits n y → x = y.
Proof.
  intros Hx Hy H. apply Z.compare_eq_iff. rewrite <- (bytes_cmp_digits n) by done.
  rewrite H. apply bytes_cmp_refl.
Qed.

(** ** Padding *)

Lemma digits_zero_extend k n z :
  0 ≤ z < 10 ^ Z.of_nat n → digits (k + n) z = replicate k (digit 0) ++ digits n z.
Proof.
  intros Hz. induction k as [|k IH]; [done|]. cbn [Nat.add digits replicate app].
  rewrite IH, Z.div_small; [done|]. split; [lia|].
  eapply Z.lt_le_trans; [apply Hz|]. apply Z.pow_le_mono_r; lia.
Qed.

Lemma ndigits_bound f z : 0 ≤ z < 10 ^ Z.of_nat (S f) → z < 10 ^ Z.of_nat (ndigits f z).
Proof.
  revert z. induction f as [|f IH]; intros z Hz; [by apply Hz|]. cbn [ndigits].
  destruct (Z.ltb_spec z 10) as [|Hge]; [by change (10 ^ Z.of_nat 1) with 10|].
  rewrite Nat2Z.inj_succ, Z.pow_succ_r in Hz |- * by lia.
  assert (z / 10 < 10 ^ Z.of_nat (ndigits f (z / 10))).
  { apply IH. split; [apply Z.div_pos; lia|]. apply Z.div_lt_upper_bound; lia. }
  pose proof (Z.div_mod z 10). pose proof (Z.mod_pos_bound z 10). lia.
Qed.

Lemma ndigits_le f z n :
  (0 < n)%nat → 0 ≤ z < 10 ^ Z.of_nat n → (ndigits f z ≤ n)%nat.
Proof.
  revert z n. induction f as [|f IH]; intros z n Hn Hz; cbn [ndigits]; [lia|].
  destruct (Z.ltb_spec z 10); [lia|]. destruct n as [|[|n]]; [lia|cbn in Hz; lia|].
  apply le_n_S, IH; [lia|]. split; [apply Z.div_pos; lia|].
  apply Z.div_lt_upper_bound; [lia|].
  rewrite Nat2Z.inj_succ, Z.pow_succ_r in Hz by lia. lia.
Qed.

(** A padded decimal is the fixed-width digit string. *)
Lemma fmt_pad_digits w z :
  (0 < w ≤ 20)%nat → 0 ≤ z < 10 ^ Z.of_nat w → fmt_pad w z = digits w z.
Proof.
  intros Hw Hz. unfold fmt_pad. rewrite (proj2 (Z.ltb_ge z 0)) by lia.
  unfold pad0, dec. rewrite length_digits.
  pose proof (ndigits_le 19 z w ltac:(lia) Hz).
  assert (0 ≤ z < 10 ^ Z.of_nat (ndigits 19 z)).
  { split; [lia|]. apply ndigits_bound. split; [lia|].
    eapply Z.lt_le_trans; [apply Hz|]. apply Z.pow_le_mono_r; lia. }
  rewrite <- digits_zero_extend by done. f_equal. lia.
Qed.

(** ** Parsing inverts formatting *)

Lemma parse_digits_digits n z acc :
  0 ≤ acc → 0 ≤ z < 10 ^ Z.of_nat n → acc * 10 ^ Z.of_nat n + z ≤ max_uint64 →
  parse_digits (digits n z) acc = (acc * 10 ^ Z.of_nat n + z, None).
Proof.
  revert z acc. induction n as [|n IH]; intros z acc Hacc Hz Hmax.
  { cbn. f_equal. lia. }
  rewrite Nat2Z.inj_succ, Z.pow_succ_r in * by lia.
  cbn [digits parse_digits]. set (p := 10 ^ Z.of_nat n) in *.
  assert (0 < p) by (apply Z.pow_pos_nonneg; lia).
  pose proof (Z.div_mod z p ltac:(lia)) as Dz. pose proof (Z.mod_pos_bound z p ltac:(lia)).
  assert (0 ≤ z / p < 10) by (split; [apply Z.div_pos|apply Z.div_lt_upper_bound]; lia).
  rewrite Z.mod_small, is_digit_digit, digit_val by done. cbn [negb].
  replace (48 + z / p - 48) with (z / p) by lia.
  rewrite (proj2 (Z.ltb_ge _ _)) by nia.
  rewrite <- (digits_mod n n z) by done. fold p. rewrite IH by (done || nia).
  f_equal. lia.
Qed.

Lemma ParseUint_digits n z :
  (0 < n)%nat → 0 ≤ z < 10 ^ Z.of_nat n → z ≤ max_uint64 →
  ParseUint (digits n z) = (z, None).
Proof.
  intros Hn Hz Hm. unfold ParseUint. destruct (digits n z) eqn:E.
  - apply (f_equal length) in E. rewrite length_digits in E. cbn in E. lia.
  - rewrite <- E, parse_digits_digits by lia. done.
Qed.

Lemma is_digit_not_sign b : is_digit b = true → b ≠ x2b ∧ b ≠ x2d.
Proof. intros H. split; intros ->; done. Qed.

(** On digit strings [ParseInt] is [ParseUint] with a tighter range. *)
Lemma ParseInt_unsigned s z :
  Forall (λ b, is_digit b = true) s → ParseUint s = (z, None) → z < 2 ^ 63 →
  ParseInt s = (z, None).
Proof.
  intros Hs Hz Hr. unfold ParseInt. destruct s as [|b s]; [done|].
  apply Forall_cons in Hs as [[Hp Hm]%is_digit_not_sign _].
  rewrite !bool_decide_eq_false_2 by done. cbn [orb]. cbv zeta.
  rewrite Hz. cbn [negb andb]. by rewrite (proj2 (Z.leb_gt _ _)).
Qed.

Lemma ParseInt_digits n z :
  (0 < n)%nat → 0 ≤ z < 10 ^ Z.of_nat n → z < 2 ^ 63 →
  ParseInt (digits n z) = (z, None).
Proof.
  intros. apply ParseInt_unsigned; [apply digits_all| |done].
  apply ParseUint_digits; unfold max_uint64; lia.
Qed.

(** [strings.TrimLeft(s, "0")]. *)
Fixpoint trim_zeros (s : bytes) : bytes :=
  match s with
  | b :: s' => if bool_decide (b = digit 0) then trim_zeros s' else s
  | [] => []
  end.

Lemma trim_zeros_Forall P s : Forall P s → Forall P (trim_zeros s).
Proof. induction 1; cbn; [done|]. case_bool_decide; [done|by constructor]. Qed.

(** Dropping leading zeros does not change the number read, which is 0 when
    nothing is left. *)
Lemma ParseInt_trim_digits n z :
  0 ≤ z < 10 ^ Z.of_nat n → z < 2 ^ 63 → (ParseInt (trim_zeros (digits n z))).1 = z.
Proof.
  intros Hz Hr.
  assert (parse_digits (trim_zeros (digits n z)) 0 = (z, None)) as Hp.
  { rewrite <- (Z.add_0_l z) at 2. rewrite <- (Z.mul_0_l (10 ^ Z.of_nat n)).
    rewrite <- parse_digits_digits by (unfold max_uint64; lia).
    induction (digits n z) as [|b s IH]; [done|]. cbn [trim_zeros].
    case_bool_decide as Hb; [|done]. subst b. cbn. by rewrite IH. }
  pose proof (trim_zeros_Forall _ _ (digits_all n z)) as Hd.
  destruct (trim_zeros (digits n z)) as [|b s] eqn:E.
  - cbn in Hp. by injection Hp as <-.
  - by rewrite (ParseInt_unsigned (b :: s) z).
Qed.

(** A padded decimal is a digit string of some width. *)
Lemma pad0_dec_digits w z :
  0 ≤ z ≤ max_uint64 → ∃ n, (0 < n)%nat ∧ z < 10 ^ Z.of_nat n ∧ pad0 w (dec z) = digits n z.
Proof.
  intros Hz. unfold pad0, dec. rewrite length_digits.
  assert (z < 10 ^ Z.of_nat (ndigits 19 z)) as Hb.
  { apply ndigits_bound. unfold max_uint64 in Hz. cbn. lia. }
  exists (w - ndigits 19 z + ndigits 19 z)%nat. split; [|split].
  - assert (0 < ndigits 19 z)%nat; [|lia]. cbn [ndigits]. case_match; lia.
  - eapply Z.lt_le_trans; [done|]. apply Z.pow_le_mono_r; lia.
  - by rewrite digits_zero_extend by lia.
Qed.

Lemma ParseUint_pad0 w z : 0 ≤ z ≤ max_uint64 → ParseUint (pad0 w (dec z)) = (z, None).
Proof.
  intros Hz. destruct (pad0_dec_digits w z Hz) as (n & Hn & Hlt & ->).
  apply ParseUint_digits; lia.
Qed.

Lemma pad0_all_digits w z :
  0 ≤ z ≤ max_uint64 → Forall (λ b, is_digit b = true) (pad0 w (dec z)).
Proof.
  intros Hz. destruct (pad0_dec_digits w z Hz) as (n & _ & _ & ->). apply digits_all.
Qed.

Lemma ParseInt_fmt_pad w z : is_i64 z → ParseInt (fmt_pad w z) = (z, None).
Proof.
  intros Hz. unfold is_i64 in Hz. unfold fmt_pad. destruct (Z.ltb_spec z 0).
  - change (str "-" ++ ?x) with (x2d :: x). unfold ParseInt. cbv zeta.
    change (bool_decide (x2d = x2b)) with false. change (bool_decide (x2d = x2d)) with true.
    cbn [orb].
    rewrite ParseUint_pad0 by (unfold max_uint64; lia). cbn [negb andb].
    rewrite (proj2 (Z.ltb_ge _ _)) by lia. f_equal. lia.
  - apply ParseInt_unsigned; [apply pad0_all_digits|apply ParseUint_pad0|];
      unfold max_uint64; lia.
Qed.

Lemma ParseInt_max s : (ParseInt s).1 ≤ max_int64.
Proof.
  unfold ParseInt, max_int64. destruct s as [|b s]; [cbn; lia|].
  destruct (ParseUint _) as [un e] eqn:E.
  assert (0 ≤ un).
  { assert (∀ l n, 0 ≤ n → 0 ≤ (parse_digits l n).1) as Hp.
    { induction l as [|c l IH]; intros n Hn; cbn; [done|].
      destruct (is_digit c) eqn:Ec; cbn; [|done]. destruct (_ <? _); cbn; [done|].
      apply IH. unfold is_digit in Ec. apply andb_true_iff in Ec as [?%Z.leb_le _]. lia. }
    unfold ParseUint in E. destruct (if _ : bool then s else b :: s) as [|c l] eqn:El.
    - by injection E as <- _.
    - specialize (Hp (c :: l) 0 ltac:(lia)). by rewrite E in Hp. }
  destruct (bool_decide (b = x2d)) eqn:Hn; cbn [negb andb];
    destruct e as [[]|]; cbn; repeat case_match; cbn; try lia.
  all: match goal with H : (_ <=? _) = false |- _ => apply Z.leb_gt in H end; lia.
Qed.
