(* ===== verification/Crc32c.v ===== *)
(** * CRC-32C

    [crc32.Checksum] of Go's [hash/crc32] with the Castagnoli table, as the
    WAL frames use it (internal/wal/entry.go), and the error-detection fact
    the framing relies on: two payloads that differ only inside a window of
    at most four bytes never have the same checksum. *)

From S2P Require Import Prelude Bytes.

(** ** The checksum *)

Definition castagnoli : Z := 0x82F63B78.

(** One bit of the reflected CRC register. *)
Definition crc_bit (c : Z) : Z :=
  if Z.testbit c 0 then Z.lxor (Z.shiftr c 1) castagnoli else Z.shiftr c 1.

Definition crc_shift8 (c : Z) : Z := Nat.iter 8 crc_bit c.

Definition crc_byte (c : Z) (b : byte) : Z := crc_shift8 (Z.lxor c (byte_val b)).

(** [crc32.Checksum(data, crc32.MakeTable(crc32.Castagnoli))]. *)
Definition crc32c (data : bytes) : Z :=
  Z.lxor (fold_left crc_byte data 0xFFFFFFFF) 0xFFFFFFFF.

(** The check value of the CRC-32C specification. *)
Example crc32c_check : crc32c (str "123456789") = 0xE3069283.
Proof. vm_compute. reflexivity. Qed.

(** ** The register step is invertible *)

(** The inverse of [crc_bit] on 32-bit registers. *)
Definition crc_unbit (r : Z) : Z :=
  if Z.testbit r 31 then Z.lor (Z.shiftl (Z.lxor r castagnoli) 1) 1 else Z.shiftl r 1.

Lemma u32_testbit_high c i : is_u32 c → 32 ≤ i → Z.testbit c i = false.
Proof.
  intros Hc Hi. destruct (decide (c = 0)) as [->|]; [apply Z.testbit_0_l|].
  apply Z.bits_above_log2; [unfold is_u32 in Hc; lia|].
  assert (Z.log2 c < 32) by (apply Z.log2_lt_pow2; unfold is_u32 in Hc; lia). lia.
Qed.

Lemma is_u32_bits c : 0 ≤ c → (∀ i, 32 ≤ i → Z.testbit c i = false) → is_u32 c.
Proof.
  intros Hc Hb. unfold is_u32. split; [done|].
  destruct (decide (c = 0)) as [->|]; [lia|].
  apply Z.log2_lt_pow2; [lia|].
  destruct (decide (Z.log2 c < 32)); [done|]. exfalso.
  pose proof (Z.bit_log2 c ltac:(lia)). rewrite Hb in * by lia. done.
Qed.

Lemma castagnoli_u32 : is_u32 castagnoli.
Proof. by unfold is_u32, castagnoli. Qed.

Lemma crc_bit_u32 c : is_u32 c → is_u32 (crc_bit c).
Proof.
  intros Hc.
  assert (0 ≤ Z.shiftr c 1) by (apply Z.shiftr_nonneg; unfold is_u32 in Hc; lia).
  assert (∀ i, 32 ≤ i → Z.testbit (Z.shiftr c 1) i = false).
  { intros i Hi. rewrite Z.shiftr_spec by lia. apply u32_testbit_high; [done|lia]. }
  unfold crc_bit. destruct (Z.testbit c 0); apply is_u32_bits; auto.
  - apply Z.lxor_nonneg. split; [done|]. intros _. done.
  - intros i Hi. rewrite Z.lxor_spec.
    rewrite (u32_testbit_high castagnoli); auto using castagnoli_u32.
    rewrite xorb_false_r. auto.
Qed.

Lemma crc_unbit_bit c : is_u32 c → crc_unbit (crc_bit c) = c.
Proof.
  intros Hc. unfold crc_bit, crc_unbit.
  assert (Z.testbit (Z.shiftr c 1) 31 = false) as Hs.
  { rewrite Z.shiftr_spec by lia. by apply u32_testbit_high. }
  destruct (Z.testbit c 0) eqn:E0.
  - rewrite Z.lxor_spec, Hs. change (Z.testbit castagnoli 31) with true. cbn [xorb].
    rewrite Z.lxor_assoc, Z.lxor_nilpotent, Z.lxor_0_r.
    apply Z.bits_inj'. intros i Hi. rewrite Z.lor_spec.
    destruct (decide (i = 0)) as [->|].
    { rewrite E0. apply orb_true_r. }
    rewrite Z.shiftl_spec, Z.shiftr_spec by lia.
    replace (i - 1 + 1) with i by lia.
    replace 1 with (2 ^ 0) at 1 by done. rewrite (Z.pow2_bits_false 0) by lia.
    apply orb_false_r.
  - rewrite Hs. apply Z.bits_inj'. intros i Hi.
    rewrite Z.shiftl_spec by lia. destruct (decide (i = 0)) as [->|].
    { by rewrite E0. }
    rewrite Z.shiftr_spec by lia. f_equal. lia.
Qed.

Lemma crc_bits_u32 n c : is_u32 c → is_u32 (Nat.iter n crc_bit c).
Proof. intros. induction n; [done|]. by apply crc_bit_u32. Qed.

Lemma crc_bits_inj n c d :
  is_u32 c → is_u32 d → Nat.iter n crc_bit c = Nat.iter n crc_bit d → c = d.
Proof.
  intros Hc Hd. induction n as [|n IH]; [done|]. intros H. apply IH.
  rewrite <- (crc_unbit_bit (Nat.iter n crc_bit c)) by by apply crc_bits_u32.
  rewrite <- (crc_unbit_bit (Nat.iter n crc_bit d)) by by apply crc_bits_u32.
  by rewrite !Nat.iter_succ in H; rewrite H.
Qed.

Lemma lxor_u32 a b : is_u32 a → is_u32 b → is_u32 (Z.lxor a b).
Proof.
  intros Ha Hb. apply is_u32_bits.
  - apply Z.lxor_nonneg. unfold is_u32 in *. lia.
  - intros i Hi. by rewrite Z.lxor_spec, !u32_testbit_high.
Qed.

Lemma byte_val_u32 b : is_u32 (byte_val b).
Proof. pose proof (byte_val_range b). unfold is_u32. lia. Qed.

#[local] Hint Resolve lxor_u32 byte_val_u32 crc_bits_u32 crc_bit_u32 : t4.

Lemma crc_byte_u32 c b : is_u32 c → is_u32 (crc_byte c b).
Proof. intros. apply crc_bits_u32; auto with t4. Qed.

Lemma crc_fold_u32 l c : is_u32 c → is_u32 (fold_left crc_byte l c).
Proof. revert c. induction l as [|b l IH]; intros; [done|]. by apply IH, crc_byte_u32. Qed.

Lemma crc32c_u32 l : is_u32 (crc32c l).
Proof. apply lxor_u32; [by apply crc_fold_u32|done]. Qed.

Lemma lxor_inj_l a b c : Z.lxor a c = Z.lxor b c → a = b.
Proof.
  intros H. apply (f_equal (λ x, Z.lxor x c)) in H.
  by rewrite !Z.lxor_assoc, Z.lxor_nilpotent, !Z.lxor_0_r in H.
Qed.

Lemma crc_fold_inj l c d :
  is_u32 c → is_u32 d → fold_left crc_byte l c = fold_left crc_byte l d → c = d.
Proof.
  revert c d. induction l as [|b l IH]; intros c d Hc Hd; [done|].
  cbn [fold_left]. intros H%IH; [|by apply crc_byte_u32..].
  apply (crc_bits_inj 8) in H; [|auto with t4..]. by apply lxor_inj_l in H.
Qed.

(** ** Windows of up to four bytes *)

Lemma crc_bit_lxor c d : crc_bit (Z.lxor c d) = Z.lxor (crc_bit c) (crc_bit d).
Proof.
  unfold crc_bit. rewrite Z.lxor_spec, Z.shiftr_lxor.
  destruct (Z.testbit c 0), (Z.testbit d 0); cbn [xorb].
  - rewrite (Z.lxor_comm (Z.shiftr d 1)), <- !Z.lxor_assoc.
    rewrite (Z.lxor_assoc _ castagnoli castagnoli), Z.lxor_nilpotent.
    by rewrite Z.lxor_0_r.
  - by rewrite !Z.lxor_assoc, (Z.lxor_comm castagnoli).
  - by rewrite Z.lxor_assoc.
  - done.
Qed.

Lemma crc_bits_lxor n c d :
  Nat.iter n crc_bit (Z.lxor c d) = Z.lxor (Nat.iter n crc_bit c) (Nat.iter n crc_bit d).
Proof. induction n as [|n IH]; [done|]. by rewrite !Nat.iter_succ, IH, crc_bit_lxor. Qed.

Lemma crc_bits_shiftl n y : 0 ≤ y → Nat.iter n crc_bit (Z.shiftl y (Z.of_nat n)) = y.
Proof.
  intros Hy. induction n as [|n IH]; [by rewrite Z.shiftl_0_r|].
  rewrite Nat.iter_succ_r. unfold crc_bit at 2.
  replace (Z.testbit (Z.shiftl y (Z.of_nat (S n))) 0) with false
    by (rewrite Z.shiftl_spec_low; [done|lia]).
  rewrite Z.shiftr_shiftl_l by lia.
  replace (Z.of_nat (S n) - 1) with (Z.of_nat n) by lia. apply IH.
Qed.

Lemma lxor_low_shiftl b y : 0 ≤ b < 256 → Z.lxor b (Z.shiftl y 8) = b + 256 * y.
Proof.
  intros Hb. rewrite <- Z.add_nocarry_lxor.
  - rewrite Z.shiftl_mul_pow2 by lia. lia.
  - apply Z.bits_inj'. intros i Hi. rewrite Z.land_spec, Z.bits_0.
    destruct (decide (i < 8)).
    + rewrite Z.shiftl_spec_low by done. apply andb_false_r.
    + destruct (decide (b = 0)) as [->|]; [by rewrite Z.bits_0|].
      rewrite Z.bits_above_log2; [done|lia|].
      assert (Z.log2 b < 8) by (apply Z.log2_lt_pow2; lia). lia.
Qed.

Lemma unle_range l : 0 ≤ unle l < 256 ^ zlen l.
Proof.
  induction l as [|b l IH]; [done|]. rewrite zlen_cons. cbn [unle].
  pose proof (byte_val_range b). pose proof (zlen_nonneg l).
  rewrite Z.pow_add_r by lia. nia.
Qed.

Lemma unle_inj l k : length l = length k → unle l = unle k → l = k.
Proof.
  revert k. induction l as [|b l IH]; intros [|c k] Hl H; try done.
  cbn [unle] in H. pose proof (byte_val_range b). pose proof (byte_val_range c).
  assert (byte_val b = byte_val c) as ->%byte_val_inj by lia.
  f_equal. apply IH; [by injection Hl|lia].
Qed.

(** Feeding bytes is feeding their little-endian number and shifting. *)
Lemma crc_fold_unle w c :
  fold_left crc_byte w c = Nat.iter (8 * length w) crc_bit (Z.lxor c (unle w)).
Proof.
  revert c. induction w as [|b w IH]; intros c.
  - cbn. by rewrite Z.lxor_0_r.
  - cbn [fold_left length unle]. rewrite IH.
    pose proof (byte_val_range b). pose proof (unle_range w).
    rewrite <- lxor_low_shiftl, <- Z.lxor_assoc by done.
    replace (8 * S (length w))%nat with (8 * length w + 8)%nat by lia.
    rewrite Nat.iter_add. f_equal. rewrite crc_bits_lxor.
    rewrite (crc_bits_shiftl 8) by lia. done.
Qed.

Lemma unle_u32 w : (length w ≤ 4)%nat → is_u32 (unle w).
Proof.
  intros Hw. pose proof (unle_range w). unfold is_u32.
  assert (256 ^ zlen w ≤ 256 ^ 4); [|lia].
  apply Z.pow_le_mono_r; unfold zlen; lia.
Qed.

(** Payloads of the same shape that differ only inside a window of at most
    four bytes have different checksums. *)
Lemma crc32c_window p w v s :
  length w = length v → (length w ≤ 4)%nat → w ≠ v →
  crc32c (p ++ w ++ s) ≠ crc32c (p ++ v ++ s).
Proof.
  intros Hl H4 Hne H. apply lxor_inj_l in H. rewrite !fold_left_app in H.
  assert (is_u32 (fold_left crc_byte p 0xFFFFFFFF)) as Hp by by apply crc_fold_u32.
  revert H Hp. generalize (fold_left crc_byte p 0xFFFFFFFF). intros c H Hc.
  apply crc_fold_inj in H; [|by apply crc_fold_u32..].
  rewrite !crc_fold_unle, Hl in H.
  apply (crc_bits_inj (8 * length v)) in H; [|apply lxor_u32; [done|apply unle_u32; lia]..].
  rewrite !(Z.lxor_comm c) in H. apply lxor_inj_l in H.
  by apply unle_inj in H.
Qed.
