(* ===== verification/WalEntry.v ===== *)
(** * WAL entries

    internal/wal/entry.go: the entry and transaction codecs and the
    checksummed frame in which entries are stored in segment files. *)

From S2P Require Import Prelude Bytes Crc32c.

(** ** Operations and entries *)

(** [type Op uint8]: any byte can be read back from disk, so [Op] is a
    number and the declared operations are constants of it. *)
Definition OpCreate : Z := 1.
Definition OpUpdate : Z := 2.
Definition OpDelete : Z := 3.
Definition OpCompact : Z := 4.
Definition OpTxn : Z := 5.

Record Entry := mkEntry {
  e_ID : Z;
  e_Revision : Z;
  e_Term : Z;
  e_Op : Z;
  e_Key : bytes;
  e_Value : bytes;
  e_Lease : Z;
  e_CreateRevision : Z;
  e_PrevRevision : Z;
  e_Version : Z }.

#[global] Instance Entry_eq_dec : EqDecision Entry.
Proof. solve_decision. Defined.

Definition Sequence (e : Entry) : Z :=
  if negb (e_ID e =? 0) then e_ID e else e_Revision e.

Record TxnSubOp := mkSubOp {
  so_Op : Z;
  so_Key : bytes;
  so_Value : bytes;
  so_Lease : Z;
  so_CreateRevision : Z;
  so_PrevRevision : Z;
  so_Version : Z }.

#[global] Instance TxnSubOp_eq_dec : EqDecision TxnSubOp.
Proof. solve_decision. Defined.

(** ** The transaction codec *)

Definition txnOpsVersionedFlag : Z := Z.shiftl 1 31.
Definition txnSubOpFixedSizeV1 : nat := 33.
Definition txnSubOpFixedSize : nat := txnSubOpFixedSizeV1 + 8.

(** [binary.BigEndian.Uint32(b[off:])] and [Uint64]. *)
Definition u32_at (off : nat) (b : bytes) : Z := unbe (slice off (off + 4) b).
Definition u64_at (off : nat) (b : bytes) : Z := unbe (slice off (off + 8) b).

Definition encodeSubOp (o : TxnSubOp) : bytes :=
  [byte_of (so_Op o)] ++
  be 8 (u64 (so_Lease o)) ++
  be 8 (u64 (so_CreateRevision o)) ++
  be 8 (u64 (so_PrevRevision o)) ++
  be 8 (u64 (so_Version o)) ++
  be 4 (u32 (zlen (so_Key o))) ++
  be 4 (u32 (zlen (so_Value o))) ++
  so_Key o ++ so_Value o.

Definition EncodeTxnOps (ops : list TxnSubOp) : bytes :=
  be 4 (Z.lor txnOpsVersionedFlag (u32 (zlen ops))) ++ concat (map encodeSubOp ops).

(** One iteration of the decode loop on the bytes [b[off:]]: the decoded
    operation and the remaining bytes. *)
Definition decodeSubOp (versioned : bool) (b : bytes) : result (TxnSubOp * bytes) :=
  let fixedSize := if versioned then txnSubOpFixedSize else txnSubOpFixedSizeV1 in
  if (length b <? fixedSize)%nat then Err (ErrText "wal: txn sub-op header truncated")
  else
    let version := if versioned then i64 (u64_at 25 b) else 0 in
    let keyLenOffset := (if versioned then 33 else 25)%nat in
    let keyLen := u32_at keyLenOffset b in
    let valLen := u32_at (keyLenOffset + 4) b in
    let tail := drop fixedSize b in
    if zlen tail <? keyLen + valLen then
      Err (ErrText "wal: txn sub-op payload truncated")
    else
      Ok (mkSubOp (byte_val (default x00 (head b)))
            (take (Z.to_nat keyLen) tail)
            (take (Z.to_nat valLen) (drop (Z.to_nat keyLen) tail))
            (i64 (u64_at 1 b)) (i64 (u64_at 9 b)) (i64 (u64_at 17 b)) version,
          drop (Z.to_nat (keyLen + valLen)) tail).

(** [for i := 0; i < count; i++].  Every iteration that does not return
    consumes at least 33 bytes, so one more unit of fuel than there are bytes
    is never exhausted ([decode_loop_fuel]). *)
Fixpoint decode_loop (fuel : nat) (versioned : bool) (count : Z) (b : bytes)
    : result (list TxnSubOp) :=
  if count <=? 0 then Ok [] else
  match fuel with
  | O => Err (ErrText "out of fuel")
  | S fuel =>
      '(o, rest) ← decodeSubOp versioned b;
      ops ← decode_loop fuel versioned (count - 1) rest;
      mret (o :: ops)
  end.

Definition DecodeTxnOps (b : bytes) : result (list TxnSubOp) :=
  if (length b <? 4)%nat then Err (ErrText "wal: txn ops payload too short")
  else
    let rawCount := u32_at 0 b in
    let versioned := negb (Z.land rawCount txnOpsVersionedFlag =? 0) in
    let count := Z.ldiff rawCount txnOpsVersionedFlag in
    decode_loop (S (length b)) versioned count (drop 4 b).

(** ** The entry codec *)

Definition entryFixedSizeV1 : nat := 1 + 8 + 8 + 8 + 8 + 8 + 4 + 4.
Definition entryFixedSize : nat := entryFixedSizeV1 + 8.
Definition entryFixedSizeV3 : nat := entryFixedSize + 8.

Definition WALFormatVersion : Z := 2.

Definition marshalEntry (e : Entry) : bytes :=
  [byte_of (e_Op e)] ++
  be 8 (u64 (e_Revision e)) ++
  be 8 (e_Term e) ++
  be 8 (u64 (e_Lease e)) ++
  be 8 (u64 (e_CreateRevision e)) ++
  be 8 (u64 (e_PrevRevision e)) ++
  be 8 (u64 (Sequence e)) ++
  be 8 (u64 (e_Version e)) ++
  be 4 (u32 (zlen (e_Key e))) ++
  be 4 (u32 (zlen (e_Value e))) ++
  e_Key e ++ e_Value e.

Definition unmarshalEntryVersion (b : bytes) (version : Z) : result Entry :=
  if (length b <? entryFixedSizeV1)%nat then Err (ErrText "wal: entry too short")
  else if (2 <=? version) && (length b <? entryFixedSizeV3)%nat then
    Err (ErrText "wal: v2 entry too short")
  else
    let id := if 2 <=? version then i64 (u64_at 41 b) else 0 in
    let ver := if 2 <=? version then i64 (u64_at 49 b) else 0 in
    let fixedSize := if 2 <=? version then entryFixedSizeV3 else entryFixedSizeV1 in
    let keyLen := u32_at (fixedSize - 8) b in
    let valLen := u32_at (fixedSize - 4) b in
    let tail := drop fixedSize b in
    if zlen tail <? keyLen + valLen then Err (ErrText "wal: entry payload truncated")
    else
      Ok (mkEntry id (i64 (u64_at 1 b)) (u64_at 9 b) (byte_val (default x00 (head b)))
            (take (Z.to_nat keyLen) tail)
            (take (Z.to_nat valLen) (drop (Z.to_nat keyLen) tail))
            (i64 (u64_at 17 b)) (i64 (u64_at 25 b)) (i64 (u64_at 33 b)) ver).

Definition unmarshalEntry (b : bytes) : result Entry :=
  unmarshalEntryVersion b WALFormatVersion.

(** ** Frames and readers *)

(** An [io.Reader]: the bytes it still delivers and the error it returns
    after them ([io.EOF] for a file that ends). *)
Record reader := mkReader { r_data : bytes; r_err : err }.

(** The two errors that [io.ReadFull] and its callers take for the end of the
    data: a consumer that reads in blocks cannot tell a source that ended from
    one that failed with [io.ErrUnexpectedEOF]. *)
Definition source_ended (r : reader) : Prop := r_err r = ErrEOF ∨ r_err r = ErrUnexpectedEOF.

(** [io.ReadFull(r, make([]byte, n))]. *)
Definition read_full (n : nat) (r : reader) : result bytes * reader :=
  if (n <=? length (r_data r))%nat then
    (Ok (take n (r_data r)), mkReader (drop n (r_data r)) (r_err r))
  else
    (Err (match r_data r, r_err r with
          | _ :: _, ErrEOF => ErrUnexpectedEOF
          | _, e => e
          end), mkReader [] (r_err r)).

(** The frame [AppendEntry] writes with one [w.Write]. *)
Definition entryFrame (e : Entry) : bytes :=
  let payload := marshalEntry e in
  be 4 (u32 (zlen payload)) ++ be 4 (crc32c payload) ++ payload.

Definition ReadEntryVersion (r : reader) (version : Z) : result Entry * reader :=
  match read_full 8 r with
  | (Err ErrEOF, r1) | (Err ErrUnexpectedEOF, r1) => (Err ErrEOF, r1)
  | (Err e, r1) => (Err e, r1)
  | (Ok hdr, r1) =>
      let payloadLen := u32_at 0 hdr in
      let wantCRC := u32_at 4 hdr in
      match read_full (Z.to_nat payloadLen) r1 with
      | (Err _, r2) => (Err ErrEOF, r2)
      | (Ok payload, r2) =>
          if negb (crc32c payload =? wantCRC) then
            (Err (ErrText "wal: CRC mismatch"), r2)
          else (unmarshalEntryVersion payload version, r2)
      end
  end.

Definition ReadEntry (r : reader) : result Entry * reader :=
  ReadEntryVersion r WALFormatVersion.

(** ** Well-formed values: what the Go types allow, within the 32-bit lengths
    of the wire format. *)

Definition wf_subop (o : TxnSubOp) : Prop :=
  is_u8 (so_Op o) ∧ is_i64 (so_Lease o) ∧ is_i64 (so_CreateRevision o) ∧
  is_i64 (so_PrevRevision o) ∧ is_i64 (so_Version o) ∧
  is_u32 (zlen (so_Key o)) ∧ is_u32 (zlen (so_Value o)).

Definition wf_entry (e : Entry) : Prop :=
  is_u8 (e_Op e) ∧ is_i64 (e_ID e) ∧ is_i64 (e_Revision e) ∧ is_u64 (e_Term e) ∧
  is_i64 (e_Lease e) ∧ is_i64 (e_CreateRevision e) ∧ is_i64 (e_PrevRevision e) ∧
  is_i64 (e_Version e) ∧
  zlen (e_Key e) + zlen (e_Value e) + 65 < 2 ^ 32.

#[global] Instance wf_subop_dec o : Decision (wf_subop o).
Proof. unfold wf_subop; apply _. Defined.
#[global] Instance wf_entry_dec e : Decision (wf_entry e).
Proof. unfold wf_entry; apply _. Defined.

(** An entry as it is read back: its identity is always explicit. *)
Definition with_sequence (e : Entry) : Entry :=
  mkEntry (Sequence e) (e_Revision e) (e_Term e) (e_Op e) (e_Key e) (e_Value e)
    (e_Lease e) (e_CreateRevision e) (e_PrevRevision e) (e_Version e).

(** ** Lemmas on the codecs *)

Lemma byte_val_of_u8 z : is_u8 z → byte_val (byte_of z) = z.
Proof. intros. rewrite byte_val_of. by apply Z.mod_small. Qed.

Lemma with_sequence_id e : e_ID e ≠ 0 → with_sequence e = e.
Proof.
  destruct e as [id ?]. unfold with_sequence, Sequence. cbn.
  intros. by destruct (Z.eqb_spec id 0).
Qed.

Lemma Sequence_with_sequence e : Sequence (with_sequence e) = Sequence e.
Proof.
  unfold with_sequence, Sequence at 1. cbn.
  destruct (Z.eqb_spec (Sequence e) 0) as [H|]; [|done]. cbn.
  unfold Sequence in H |- *. by destruct (Z.eqb_spec (e_ID e) 0).
Qed.

(** The key and value fields behind a fixed-size header. *)
Lemma take_key_value (k v rest : bytes) :
  take (Z.to_nat (zlen k)) (k ++ v ++ rest) = k ∧
  take (Z.to_nat (zlen v)) (drop (Z.to_nat (zlen k)) (k ++ v ++ rest)) = v ∧
  drop (Z.to_nat (zlen k + zlen v)) (k ++ v ++ rest) = rest.
Proof.
  unfold zlen. rewrite <- Nat2Z.inj_add, !Nat2Z.id.
  rewrite drop_app_length, !take_app_length, <- drop_drop, !drop_app_length. done.
Qed.

Lemma length_encodeSubOp o :
  length (encodeSubOp o) = (41 + length (so_Key o) + length (so_Value o))%nat.
Proof. unfold encodeSubOp. rewrite !length_app, !length_be. cbn [length]. lia. Qed.

Lemma decode_encodeSubOp o rest :
  wf_subop o → decodeSubOp true (encodeSubOp o ++ rest) = Ok (o, rest).
Proof.
  intros (Hop & Hl & Hc & Hp & Hv & Hk & Hval).
  unfold decodeSubOp. cbv zeta.
  change (u64_at 1 (encodeSubOp o ++ rest)) with (unbe (be 8 (u64 (so_Lease o)))).
  change (u64_at 9 (encodeSubOp o ++ rest)) with (unbe (be 8 (u64 (so_CreateRevision o)))).
  change (u64_at 17 (encodeSubOp o ++ rest)) with (unbe (be 8 (u64 (so_PrevRevision o)))).
  change (u64_at 25 (encodeSubOp o ++ rest)) with (unbe (be 8 (u64 (so_Version o)))).
  change (u32_at 33 (encodeSubOp o ++ rest)) with (unbe (be 4 (u32 (zlen (so_Key o))))).
  change (u32_at (33 + 4) (encodeSubOp o ++ rest)) with (unbe (be 4 (u32 (zlen (so_Value o))))).
  change (drop txnSubOpFixedSize (encodeSubOp o ++ rest)) with ((so_Key o ++ so_Value o) ++ rest).
  change (default x00 (head (encodeSubOp o ++ rest))) with (byte_of (so_Op o)).
  rewrite !i64_unbe_be_u64, !unbe_be_u32_id, <- app_assoc by done.
  rewrite byte_val_of_u8 by done.
  destruct (take_key_value (so_Key o) (so_Value o) rest) as (-> & -> & ->).
  rewrite (proj2 (Nat.ltb_ge _ _)), (proj2 (Z.ltb_ge _ _)).
  - by destruct o.
  - rewrite !zlen_app. pose proof (zlen_nonneg rest). lia.
  - rewrite length_app, length_encodeSubOp. unfold txnSubOpFixedSize, txnSubOpFixedSizeV1. lia.
Qed.

Lemma decodeSubOp_shrinks v b o rest :
  decodeSubOp v b = Ok (o, rest) → (length rest + 33 ≤ length b)%nat.
Proof.
  unfold decodeSubOp. cbv zeta. destruct (Nat.ltb_spec (length b)
    (if v then txnSubOpFixedSize else txnSubOpFixedSizeV1)) as [|Hb]; [done|].
  destruct (_ <? _); [done|]. intros [= _ <-]. rewrite !length_drop.
  revert Hb. unfold txnSubOpFixedSize, txnSubOpFixedSizeV1. destruct v; lia.
Qed.

(** The fuel of the decode loop is never exhausted: any larger amount gives
    the same result. *)
Lemma decode_loop_fuel f g v count b :
  (length b < f)%nat → (length b < g)%nat →
  decode_loop f v count b = decode_loop g v count b.
Proof.
  revert g count b. induction f as [|f IH]; intros g count b Hf Hg; [lia|].
  destruct g as [|g]; [lia|]. cbn [decode_loop]. case_match; [done|].
  destruct (decodeSubOp v b) as [[o rest]|] eqn:E; [|done]. simp_res.
  apply decodeSubOp_shrinks in E. by rewrite (IH g) by lia.
Qed.

Lemma decode_loop_encode f ops rest :
  Forall wf_subop ops → (length (concat (map encodeSubOp ops) ++ rest) < f)%nat →
  decode_loop f true (zlen ops) (concat (map encodeSubOp ops) ++ rest) = Ok ops.
Proof.
  intros Hops. revert f. induction Hops as [|o ops Ho Hops IH]; intros f Hf.
  - by destruct f.
  - cbn [map concat] in Hf |- *. rewrite <- app_assoc in Hf |- *.
    rewrite length_app, length_encodeSubOp in Hf.
    destruct f as [|f]; [lia|]. cbn [decode_loop].
    rewrite (proj2 (Z.leb_gt _ _)) by (rewrite zlen_cons; pose proof (zlen_nonneg ops); lia).
    rewrite decode_encodeSubOp by done. simp_res.
    replace (zlen (o :: ops) - 1) with (zlen ops) by (rewrite zlen_cons; lia).
    rewrite IH by lia. done.
Qed.

(** The count word: the flag is bit 31 and the low 31 bits are the count. *)
Lemma txn_count_word n :
  0 ≤ n < 2 ^ 31 →
  is_u32 (Z.lor txnOpsVersionedFlag n) ∧
  Z.land (Z.lor txnOpsVersionedFlag n) txnOpsVersionedFlag ≠ 0 ∧
  Z.ldiff (Z.lor txnOpsVersionedFlag n) txnOpsVersionedFlag = n.
Proof.
  intros Hn. unfold txnOpsVersionedFlag.
  assert (Hd : Z.land (Z.shiftl 1 31) n = 0).
  { rewrite Z.shiftl_1_l. apply Z.bits_inj'. intros i Hi.
    rewrite Z.land_spec, Z.pow2_bits_eqb, Z.bits_0 by lia.
    destruct (Z.eqb_spec 31 i) as [<-|]; [|done].
    destruct (decide (n = 0)) as [->|]; [done|].
    rewrite Z.bits_above_log2; [done|lia|]. apply Z.log2_lt_pow2; lia. }
  split; [|split].
  - rewrite <- Z.lxor_lor, <- Z.add_nocarry_lxor by done.
    change (Z.shiftl 1 31) with (2 ^ 31). unfold is_u32. lia.
  - intros H. apply (f_equal (λ z, Z.testbit z 31)) in H.
    by rewrite Z.land_spec, Z.lor_spec in H.
  - apply Z.bits_inj'. intros i Hi. rewrite Z.ldiff_spec, Z.lor_spec.
    apply (f_equal (λ z, Z.testbit z i)) in Hd. rewrite Z.land_spec, Z.bits_0 in Hd.
    by destruct (Z.testbit n i), (Z.testbit (Z.shiftl 1 31) i).
Qed.

(** ** Properties of the transaction codec *)

Lemma Decode_EncodeTxnOps ops rest :
  Forall wf_subop ops → zlen ops < 2 ^ 31 →
  DecodeTxnOps (EncodeTxnOps ops ++ rest) = Ok ops.
Proof.
  intros Hops Hn. unfold DecodeTxnOps, EncodeTxnOps. rewrite <- app_assoc.
  pose proof (zlen_nonneg ops).
  destruct (txn_count_word (zlen ops)) as (Hw & Hflag & Hcnt); [lia|].
  set (body := concat (map encodeSubOp ops) ++ rest).
  rewrite (u32_id (zlen ops)) by (unfold is_u32; lia).
  set (w := Z.lor txnOpsVersionedFlag (zlen ops)) in *.
  change (u32_at 0 (be 4 w ++ body)) with (unbe (be 4 w)).
  change (drop 4 (be 4 w ++ body)) with body.
  rewrite length_app, length_be, unbe_be_u32, u32_id by done. cbv zeta.
  rewrite (proj2 (Nat.ltb_ge _ _)) by lia.
  rewrite Hcnt, (proj2 (Z.eqb_neq _ _) Hflag). cbn [negb].
  apply decode_loop_encode; [done|]. subst body. lia.
Qed.

(** [DecodeTxnOps] inverts [EncodeTxnOps] on every list of fewer than
    2^31 sub-operations whose fields fit their Go types, also when bytes
    follow the encoding; the order, the number and every field of the
    operations are preserved. *)
Theorem txn_ops_roundtrip ops rest :
  Forall wf_subop ops → zlen ops < 2 ^ 31 →
  DecodeTxnOps (EncodeTxnOps ops ++ rest) = Ok ops.
Proof. apply Decode_EncodeTxnOps. Qed.

Definition sample_ops : list TxnSubOp :=
  [ mkSubOp OpCreate (str "a") (str "one") 0 7 0 1;
    mkSubOp OpUpdate (str "b") [] 12 3 6 4;
    mkSubOp OpDelete (str "c") [] 0 5 5 0 ].

Lemma txn_ops_roundtrip_witness :
  DecodeTxnOps (EncodeTxnOps sample_ops ++ str "tail") = Ok sample_ops.
Proof.
  apply txn_ops_roundtrip; [|done].
  repeat constructor; vm_compute; congruence.
Defined.

(** ** Lemmas on frames *)

Lemma length_marshalEntry e :
  length (marshalEntry e) = (65 + length (e_Key e) + length (e_Value e))%nat.
Proof. unfold marshalEntry. rewrite !length_app, !length_be. cbn [length]. lia. Qed.

Lemma Sequence_i64 e : wf_entry e → is_i64 (Sequence e).
Proof. unfold wf_entry, Sequence. intros. case_match; naive_solver. Qed.

Lemma unmarshal_marshalEntry e :
  wf_entry e → unmarshalEntry (marshalEntry e) = Ok (with_sequence e).
Proof.
  intros Hwf. pose proof (Sequence_i64 e Hwf) as Hseq.
  destruct Hwf as (Hop & Hid & Hrev & Hterm & Hl & Hc & Hp & Hv & Hlen).
  pose proof (zlen_nonneg (e_Key e)). pose proof (zlen_nonneg (e_Value e)).
  unfold unmarshalEntry, unmarshalEntryVersion.
  change (2 <=? WALFormatVersion) with true. cbv zeta. cbn [andb].
  change (u64_at 1 (marshalEntry e)) with (unbe (be 8 (u64 (e_Revision e)))).
  change (u64_at 9 (marshalEntry e)) with (unbe (be 8 (e_Term e))).
  change (u64_at 17 (marshalEntry e)) with (unbe (be 8 (u64 (e_Lease e)))).
  change (u64_at 25 (marshalEntry e)) with (unbe (be 8 (u64 (e_CreateRevision e)))).
  change (u64_at 33 (marshalEntry e)) with (unbe (be 8 (u64 (e_PrevRevision e)))).
  change (u64_at 41 (marshalEntry e)) with (unbe (be 8 (u64 (Sequence e)))).
  change (u64_at 49 (marshalEntry e)) with (unbe (be 8 (u64 (e_Version e)))).
  change (u32_at (entryFixedSizeV3 - 8) (marshalEntry e))
    with (unbe (be 4 (u32 (zlen (e_Key e))))).
  change (u32_at (entryFixedSizeV3 - 4) (marshalEntry e))
    with (unbe (be 4 (u32 (zlen (e_Value e))))).
  change (drop entryFixedSizeV3 (marshalEntry e)) with (e_Key e ++ e_Value e).
  change (default x00 (head (marshalEntry e))) with (byte_of (e_Op e)).
  rewrite !i64_unbe_be_u64, !unbe_be_u32_id, unbe_be_u64, u64_id, byte_val_of_u8
    by (done || unfold is_u32; lia).
  destruct (take_key_value (e_Key e) (e_Value e) []) as (Hk & Hval & _).
  rewrite app_nil_r in Hk, Hval. rewrite Hk, Hval.
  rewrite length_marshalEntry.
  rewrite !(proj2 (Nat.ltb_ge _ _))
    by (unfold entryFixedSizeV3, entryFixedSize, entryFixedSizeV1; lia).
  rewrite zlen_app, Z.ltb_irrefl. done.
Qed.

Lemma zlen_marshal_u32 e : wf_entry e → is_u32 (zlen (marshalEntry e)).
Proof.
  intros (_ & _ & _ & _ & _ & _ & _ & _ & Hlen). revert Hlen.
  unfold is_u32, zlen. rewrite length_marshalEntry. lia.
Qed.

(** A frame header followed by any payload of the announced length. *)
Definition frame (n crc : Z) (payload : bytes) : bytes := be 4 n ++ be 4 crc ++ payload.

Lemma read_full_app n p rest er :
  length p = n → read_full n (mkReader (p ++ rest) er) = (Ok p, mkReader rest er).
Proof.
  intros <-. unfold read_full. cbn [r_data r_err].
  rewrite (proj2 (Nat.leb_le _ _)) by (rewrite length_app; lia).
  by rewrite take_app_length, drop_app_length.
Qed.

Lemma read_full_short n p er :
  (length p < n)%nat →
  ∃ er', read_full n (mkReader p er) = (Err er', mkReader [] er) ∧
         (er = ErrEOF → er' = ErrEOF ∨ er' = ErrUnexpectedEOF).
Proof.
  intros Hlt. unfold read_full. cbn [r_data r_err].
  rewrite (proj2 (Nat.leb_gt _ _)) by done.
  eexists. split; [done|]. intros ->. destruct p; auto.
Qed.

(** Reading behind a complete header. *)
Lemma ReadEntryVersion_header n crc rest er v :
  is_u32 n → is_u32 crc →
  ReadEntryVersion (mkReader (be 4 n ++ be 4 crc ++ rest) er) v =
  match read_full (Z.to_nat n) (mkReader rest er) with
  | (Err _, r2) => (Err ErrEOF, r2)
  | (Ok payload, r2) =>
      if negb (crc32c payload =? crc) then (Err (ErrText "wal: CRC mismatch"), r2)
      else (unmarshalEntryVersion payload v, r2)
  end.
Proof.
  intros Hn Hc. unfold ReadEntryVersion.
  rewrite app_assoc, read_full_app by (by rewrite length_app, !length_be).
  change (u32_at 0 (be 4 n ++ be 4 crc)) with (unbe (be 4 n)).
  change (u32_at 4 (be 4 n ++ be 4 crc)) with (unbe (be 4 crc)).
  rewrite !unbe_be_u32, !u32_id by done. done.
Qed.

Lemma entryFrame_frame e :
  wf_entry e →
  entryFrame e = be 4 (zlen (marshalEntry e)) ++ be 4 (crc32c (marshalEntry e)) ++ marshalEntry e.
Proof. intros. unfold entryFrame. by rewrite u32_id by by apply zlen_marshal_u32. Qed.

Lemma length_entryFrame e : length (entryFrame e) = (8 + length (marshalEntry e))%nat.
Proof. unfold entryFrame. by rewrite !length_app, !length_be. Qed.

Lemma ReadEntry_frame e rest er :
  wf_entry e →
  ReadEntry (mkReader (entryFrame e ++ rest) er) = (Ok (with_sequence e), mkReader rest er).
Proof.
  intros Hwf. unfold ReadEntry. rewrite entryFrame_frame, <- !app_assoc by done.
  rewrite ReadEntryVersion_header by auto using zlen_marshal_u32, crc32c_u32.
  unfold zlen. rewrite Nat2Z.id, read_full_app by done.
  rewrite Z.eqb_refl. cbn [negb].
  fold (unmarshalEntry (marshalEntry e)). by rewrite unmarshal_marshalEntry.
Qed.

Lemma ReadEntry_torn e p q :
  wf_entry e → entryFrame e = p ++ q → q ≠ [] →
  ReadEntry (mkReader p ErrEOF) = (Err ErrEOF, mkReader [] ErrEOF).
Proof.
  intros Hwf Hpq Hq.
  pose proof (f_equal length Hpq) as Hlen.
  rewrite length_app, length_entryFrame in Hlen.
  assert (0 < length q)%nat by (destruct q; [done|cbn; lia]).
  destruct (decide (length p < 8)%nat) as [Hs|Hs].
  - unfold ReadEntry, ReadEntryVersion.
    destruct (read_full_short 8 p ErrEOF Hs) as (er' & -> & [-> | ->]); done.
  - rewrite entryFrame_frame, app_assoc in Hpq by done.
    set (hdr := be 4 (zlen (marshalEntry e)) ++ be 4 (crc32c (marshalEntry e))) in Hpq.
    assert (length hdr = 8%nat) as Hh by (subst hdr; by rewrite length_app, !length_be).
    assert (p = hdr ++ drop 8 p) as Hp.
    { rewrite <- (take_drop 8 p) at 1. f_equal.
      apply (f_equal (take 8)) in Hpq. rewrite take_app_le in Hpq by lia.
      rewrite take_ge in Hpq by lia. rewrite Hpq. rewrite take_app_le by lia. done. }
    unfold ReadEntry. rewrite Hp. subst hdr. rewrite <- app_assoc.
    rewrite ReadEntryVersion_header by auto using zlen_marshal_u32, crc32c_u32.
    unfold zlen. rewrite Nat2Z.id.
    destruct (read_full_short (length (marshalEntry e)) (drop 8 p) ErrEOF)
      as (er' & -> & _); [|done].
    rewrite length_drop. lia.
Qed.

(** ** Properties of the frame *)

(** A frame written by [AppendEntry] is read back by [ReadEntry] as the
    same entry (with its identity [Sequence()] made explicit in [ID]), exactly
    the bytes of the frame are consumed, and what follows, including the
    reader's final error, is untouched. *)
Theorem entry_frame_roundtrip e rest er :
  wf_entry e →
  ReadEntry (mkReader (entryFrame e ++ rest) er) = (Ok (with_sequence e), mkReader rest er).
Proof. apply ReadEntry_frame. Qed.

Definition sample_entry : Entry :=
  mkEntry 9 7 2 OpUpdate (str "/registry/pods/a") (str "spec") 0 3 6 2.
Definition sample_entry_v0 : Entry :=
  mkEntry 0 7 2 OpUpdate (str "/registry/pods/a") (str "spec") (-1) 3 6 2.

Lemma entry_frame_roundtrip_witness :
  ReadEntry (mkReader (entryFrame sample_entry_v0 ++ str "x") ErrEOF) =
  (Ok (mkEntry 7 7 2 OpUpdate (str "/registry/pods/a") (str "spec") (-1) 3 6 2),
   mkReader (str "x") ErrEOF).
Proof.
  apply (entry_frame_roundtrip sample_entry_v0). apply (bool_decide_unpack _). by vm_compute.
Defined.

(** A frame cut anywhere before its end, as a crash during the write
    leaves it, reads as a clean end of the log and not as an error or as some
    other entry. *)
Theorem entry_frame_torn e p q :
  wf_entry e → entryFrame e = p ++ q → q ≠ [] →
  ReadEntry (mkReader p ErrEOF) = (Err ErrEOF, mkReader [] ErrEOF).
Proof. apply ReadEntry_torn. Qed.

Lemma entry_frame_torn_witness :
  ReadEntry (mkReader (take 40 (entryFrame sample_entry)) ErrEOF) =
  (Err ErrEOF, mkReader [] ErrEOF).
Proof.
  apply (entry_frame_torn sample_entry _ (drop 40 (entryFrame sample_entry))).
  - apply (bool_decide_unpack _). by vm_compute.
  - by rewrite take_drop.
  - by vm_compute.
Defined.

(** C36. Corruption is reported: if the payload bytes of a frame are changed
    anywhere inside a window of at most four bytes, [ReadEntry] returns the
    CRC error, whatever the change, and never another entry. *)
Theorem entry_frame_corrupt e p w v s rest er :
  wf_entry e → marshalEntry e = p ++ w ++ s →
  length v = length w → (length w ≤ 4)%nat → v ≠ w →
  ReadEntry (mkReader (frame (zlen (marshalEntry e)) (crc32c (marshalEntry e))
                         (p ++ v ++ s) ++ rest) er) =
  (Err (ErrText "wal: CRC mismatch"), mkReader rest er).
Proof.
  intros Hwf Hm Hl H4 Hne. unfold ReadEntry, frame. rewrite <- !app_assoc.
  rewrite ReadEntryVersion_header by auto using zlen_marshal_u32, crc32c_u32.
  rewrite !(app_assoc p), !(app_assoc (p ++ v)), read_full_app.
  - rewrite (proj2 (Z.eqb_neq _ _)); [done|].
    rewrite Hm, <- app_assoc. apply crc32c_window; [done|lia|done].
  - unfold zlen. rewrite Nat2Z.id, Hm, !length_app. lia.
Qed.

Lemma entry_frame_corrupt_witness :
  let m := marshalEntry sample_entry in
  ReadEntry (mkReader (frame (zlen m) (crc32c m)
                         (take 70 m ++ str "zz" ++ drop 72 m) ++ []) ErrEOF) =
  (Err (ErrText "wal: CRC mismatch"), mkReader [] ErrEOF).
Proof.
  apply (entry_frame_corrupt sample_entry (take 70 (marshalEntry sample_entry))
           (slice 70 72 (marshalEntry sample_entry))).
  - apply (bool_decide_unpack _). by vm_compute.
  - by vm_compute.
  - by vm_compute.
  - apply (bool_decide_unpack _). by vm_compute.
  - by vm_compute.
Defined.

(** A read error in the middle of a payload is not reported: whatever
    error the reader returns before the announced payload is complete,
    [ReadEntry] turns it into [io.EOF], the value that means a clean end. *)
Theorem entry_payload_error_hidden e p q er :
  wf_entry e → marshalEntry e = p ++ q → q ≠ [] →
  ReadEntry (mkReader (frame (zlen (marshalEntry e)) (crc32c (marshalEntry e)) p) er) =
  (Err ErrEOF, mkReader [] er).
Proof.
  intros Hwf Hm Hq. unfold ReadEntry, frame.
  rewrite ReadEntryVersion_header by auto using zlen_marshal_u32, crc32c_u32.
  destruct (read_full_short (Z.to_nat (zlen (marshalEntry e))) p er) as (er' & -> & _); [|done].
  unfold zlen. rewrite Nat2Z.id, Hm, length_app.
  destruct q; [done|]. cbn [length]. lia.
Qed.

Lemma entry_payload_error_hidden_witness :
  let m := marshalEntry sample_entry in
  ReadEntry (mkReader (frame (zlen m) (crc32c m) (take 70 m)) (ErrText "input/output error")) =
  (Err ErrEOF, mkReader [] (ErrText "input/output error")).
Proof.
  apply (entry_payload_error_hidden sample_entry (take 70 (marshalEntry sample_entry))
           (drop 70 (marshalEntry sample_entry))).
  - apply (bool_decide_unpack _). by vm_compute.
  - by rewrite take_drop.
  - by vm_compute.
Defined.
