(* ===== verification/Os.v ===== *)
(** * State, errors and the file system

    Go methods that mutate an object and can fail are functions in the monad
    [ST], which keeps the state reached when an error is returned.  The part
    of package [os] the WAL uses is modelled over a [world]: the files by
    path, the object store, and a list of faults that decides, one system
    call at a time, which calls fail and how many bytes a failing write or
    read transfers.  Every theorem quantifies over that list. *)

From S2P Require Import Prelude Bytes WalEntry.

(** ** The state and error monad *)

Definition ST (St A : Type) : Type := St → result A * St.

#[global] Instance ST_ret {St} : MRet (ST St) := λ A a s, (Ok a, s).
#[global] Instance ST_bind {St} : MBind (ST St) := λ A B f m s,
  match m s with
  | (Ok a, s') => f a s'
  | (Err e, s') => (Err e, s')
  end.

Definition throw {St A} (e : err) : ST St A := λ s, (Err e, s).
Definition get_st {St} : ST St St := λ s, (Ok s, s).
Definition put_st {St} (s : St) : ST St () := λ _, (Ok tt, s).
Definition modify {St} (f : St → St) : ST St () := λ s, (Ok tt, f s).

(** [if err := m(); err != nil { ... }]: the error as a value. *)
Definition try {St A} (m : ST St A) : ST St (result A) := λ s,
  let '(r, s') := m s in (Ok r, s').

Definition from_result {St A} (r : result A) : ST St A := λ s, (r, s).

(** Wrap the error of a method. *)
Definition st_map_err {St A} (g : err → err) (m : ST St A) : ST St A := λ s, let '(r, s') := m s in (map_err g r, s').

(** Run a method of a component of the state. *)
Definition zoom {St T A} (get : St → T) (set : T → St → St) (m : ST T A) : ST St A :=
  λ s, let '(r, t) := m (get s) in (r, set t s).

(** ** The world *)

(** A system call that fails: its error, and the number of bytes a write or a
    read transfers before failing. *)
Definition fault : Type := option (err * nat).

Record world (S : Type) := mkWorld {
  w_files : gmap bytes bytes;
  w_obj : S;
  w_faults : list fault }.
Arguments mkWorld {S} _ _ _.
Arguments w_files {S} _.
Arguments w_obj {S} _.
Arguments w_faults {S} _.

Definition set_files {S : Type} (m : gmap bytes bytes) (w : world S) : world S :=
  mkWorld m (w_obj w) (w_faults w).
Definition set_obj {S : Type} (o : S) (w : world S) : world S :=
  mkWorld (w_files w) o (w_faults w).

(** The outcome of the next system call. *)
Definition next_fault {S : Type} (w : world S) : fault * world S :=
  match w_faults w with
  | [] => (None, w)
  | f :: fs => (f, mkWorld (w_files w) (w_obj w) fs)
  end.

(** A system call that either succeeds or fails without any effect. *)
Definition syscall {S : Type} : ST (world S) () := λ w,
  let '(f, w') := next_fault w in
  match f with None => (Ok tt, w') | Some (e, _) => (Err e, w') end.

(** ** Files *)

(** An open [*os.File] for writing. *)
Record file := mkFile { f_path : bytes; f_pos : nat; f_open : bool }.

Definition errFileClosed : err := ErrText "file already closed".

(** The content after writing [b] at offset [pos]; a gap reads as zeros. *)
Definition write_at (pos : nat) (b c : bytes) : bytes :=
  take pos (c ++ replicate (pos - length c) x00) ++ b ++ drop (pos + length b) c.

Definition truncate_to (n : nat) (c : bytes) : bytes :=
  take n (c ++ replicate (n - length c) x00).

(** Write through a handle; a file that was removed while open is not recreated. *)
Definition raw_write {S : Type} (f : file) (b : bytes) (w : world S) : file * world S :=
  (mkFile (f_path f) (f_pos f + length b) (f_open f),
   match w_files w !! f_path f with
   | Some c => set_files (<[f_path f := write_at (f_pos f) b c]> (w_files w)) w
   | None => w
   end).

(** [f.Write(b)]: on failure a strict prefix of [b] may have been written. *)
Definition os_write {S : Type} (b : bytes) : ST (file * world S) () := λ '(f, w),
  if negb (f_open f) then (Err errFileClosed, (f, w))
  else
    let '(flt, w1) := next_fault w in
    match flt with
    | None => (Ok tt, raw_write f b w1)
    | Some (e, n) => (Err e, raw_write f (take (n `min` (length b - 1)) b) w1)
    end.

Definition os_sync {S : Type} : ST (file * world S) () := λ '(f, w),
  if negb (f_open f) then (Err errFileClosed, (f, w))
  else let '(r, w1) := syscall w in (r, (f, w1)).

Definition os_truncate {S : Type} (size : nat) : ST (file * world S) () := λ '(f, w),
  if negb (f_open f) then (Err errFileClosed, (f, w))
  else
    let '(r, w1) := syscall w in
    match r, w_files w1 !! f_path f with
    | Ok _, Some c => (r, (f, set_files (<[f_path f := truncate_to size c]> (w_files w1)) w1))
    | _, _ => (r, (f, w1))
    end.

Definition os_seek {S : Type} (pos : nat) : ST (file * world S) () := λ '(f, w),
  if negb (f_open f) then (Err errFileClosed, (f, w))
  else
    let '(r, w1) := syscall w in
    (r, (if is_ok r then mkFile (f_path f) pos (f_open f) else f, w1)).

(** [f.Close()]: the handle is unusable afterwards also when an error is returned. *)
Definition os_close {S : Type} : ST (file * world S) () := λ '(f, w),
  if negb (f_open f) then (Err errFileClosed, (f, w))
  else let '(r, w1) := syscall w in (r, (mkFile (f_path f) (f_pos f) false, w1)).

(** [os.OpenFile(path, O_CREATE|O_WRONLY|O_TRUNC)]. *)
Definition os_create {S : Type} (path : bytes) : ST (world S) file :=
  syscall;; modify (λ w, set_files (<[path := []]> (w_files w)) w);;
  mret (mkFile path 0 true).

(** [os.ErrNotExist] means that there is no such file: a call on an existing
    file fails with some other error. *)
Definition not_enoent (e : err) : err :=
  match e with ErrNotExist => ErrText "input/output error" | _ => e end.

Definition os_remove {S : Type} (path : bytes) : ST (world S) () := λ w,
  match w_files w !! path with
  | None => (Err ErrNotExist, w)
  | Some _ =>
      match syscall w with
      | (Ok _, w1) => (Ok tt, set_files (delete path (w_files w1)) w1)
      | (Err e, w1) => (Err (not_enoent e), w1)
      end
  end.

(** [os.Open(path)] as a reader: a read fault after [n] bytes is the reader's
    final error, which for a file is never [io.ErrUnexpectedEOF]. *)
Definition os_open_read {S : Type} (path : bytes) : ST (world S) reader := λ w,
  match w_files w !! path with
  | None => (Err ErrNotExist, w)
  | Some c =>
      match syscall w with
      | (Err e, w1) => (Err (not_enoent e), w1)
      | (Ok _, w1) =>
          let '(flt, w2) := next_fault w1 in
          (Ok (match flt with
               | None => mkReader c ErrEOF
               | Some (ErrEOF, _) | Some (ErrUnexpectedEOF, _) => mkReader c ErrEOF
               | Some (e, n) => mkReader (take n c) e
               end), w2)
      end
  end.

(** [filepath.Join(dir, name)] for a clean [dir]. *)
Definition path_join (dir name : bytes) : bytes := dir ++ str "/" ++ name.

(** The plain file names directly inside [dir] and their paths: [os.ReadDir]
    lists them sorted by name. *)
Definition in_dir (dir path : bytes) : bool :=
  has_prefix (dir ++ str "/") path &&
  forallb (λ b, negb (bool_decide (b = x2f))) (drop (length dir + 1) path).

Definition sort_bytes (l : list bytes) : list bytes := merge_sort bytes_le l.

Definition os_readdir {S : Type} (dir : bytes) : ST (world S) (list bytes) :=
  syscall;; w ← get_st;
  mret (sort_bytes (filter (λ p, in_dir dir p = true) (map fst (map_to_list (w_files w))))).

(** ** Lemmas *)

Lemma write_at_end b c : write_at (length c) b c = c ++ b.
Proof.
  unfold write_at. rewrite Nat.sub_diag. cbn [replicate].
  rewrite app_nil_r, take_ge, drop_ge, app_nil_r by lia. done.
Qed.

Lemma truncate_to_prefix c b : truncate_to (length c) (c ++ b) = c.
Proof. unfold truncate_to. by rewrite <- app_assoc, take_app_length. Qed.

(** Step through a bind whose first action's outcome is known. *)
Lemma run_pair {St A} (m : ST St A) s r : (m s).1 = r → m s = (r, (m s).2).
Proof. intros <-. apply surjective_pairing. Qed.

Lemma ST_bind_ok {St A B} (m : ST St A) (f : A → ST St B) s a s' :
  m s = (Ok a, s') → (m ≫= f) s = f a s'.
Proof. unfold mbind, ST_bind. by intros ->. Qed.

Lemma ST_bind_err {St A B} (m : ST St A) (f : A → ST St B) s e s' :
  m s = (Err e, s') → (m ≫= f) s = (Err e, s').
Proof. unfold mbind, ST_bind. by intros ->. Qed.

Lemma ST_bind_inv {St A B} (m : ST St A) (f : A → ST St B) s b s'' :
  (m ≫= f) s = (Ok b, s'') → ∃ a s', m s = (Ok a, s') ∧ f a s' = (Ok b, s'').
Proof. unfold mbind, ST_bind. destruct (m s) as [[a|e] s'] eqn:E; naive_solver. Qed.

Lemma try_bind {St A B} (m : ST St A) (f : result A → ST St B) s r s' :
  m s = (r, s') → (try m ≫= f) s = f r s'.
Proof. unfold mbind, ST_bind, try. by intros ->. Qed.

Lemma zoom_run {St T A} get set (m : ST T A) (s : St) r t :
  m (get s) = (r, t) → zoom get set m s = (r, set t s).
Proof. unfold zoom. by intros ->. Qed.

(** A bind that ran: its first action succeeded and the rest ran, or it failed. *)
Lemma ST_bind_run {St A B} (m : ST St A) (f : A → ST St B) s r s'' :
  (m ≫= f) s = (r, s'') →
  (∃ a s', m s = (Ok a, s') ∧ f a s' = (r, s'')) ∨
  (∃ e, m s = (Err e, s'') ∧ r = Err e).
Proof. unfold mbind, ST_bind. destruct (m s) as [[a|e] s'] eqn:E; naive_solver. Qed.

Lemma sort_bytes_perm l : sort_bytes l ≡ₚ l.
Proof. apply merge_sort_Permutation. Qed.

Lemma sort_bytes_sorted l : Sorted bytes_le (sort_bytes l).
Proof. apply Sorted_merge_sort, _. Qed.

(** ** Effects of the system calls on the files *)

Section Effects.
Context {S : Type}.
Implicit Types (w : world S) (f : file).

Lemma next_fault_files w flt w1 :
  next_fault w = (flt, w1) → w_files w1 = w_files w ∧ w_obj w1 = w_obj w.
Proof. unfold next_fault. destruct (w_faults w); naive_solver. Qed.

Lemma syscall_files w r w1 :
  syscall w = (r, w1) → w_files w1 = w_files w ∧ w_obj w1 = w_obj w.
Proof.
  unfold syscall. destruct (next_fault w) as [[[??]|] w'] eqn:E; intros [= <- <-];
    by eapply next_fault_files.
Qed.

Lemma syscall_nofault w : w_faults w = [] → syscall w = (Ok tt, w).
Proof. intros H. unfold syscall, next_fault. by rewrite H. Qed.

(** A write at the end of the file through an open handle appends all of [b],
    or fails after appending a strict prefix of it. *)
Lemma os_write_at_end f w b c r f' w' :
  f_open f = true → w_files w !! f_path f = Some c → f_pos f = length c → b ≠ [] →
  os_write b (f, w) = (r, (f', w')) →
  ∃ b1 b2, b = b1 ++ b2 ∧
    f' = mkFile (f_path f) (length (c ++ b1)) true ∧
    w_files w' = <[f_path f := c ++ b1]> (w_files w) ∧ w_obj w' = w_obj w ∧
    match r with Ok _ => b2 = [] | Err _ => b2 ≠ [] end.
Proof.
  intros Ho Hc Hp Hb. unfold os_write. rewrite Ho. cbn [negb].
  destruct (next_fault w) as [flt w1] eqn:E.
  apply next_fault_files in E as [Ef Eo].
  assert (∀ b1, raw_write f b1 w1 =
    (mkFile (f_path f) (length (c ++ b1)) true,
     set_files (<[f_path f := c ++ b1]> (w_files w)) w1)) as Hraw.
  { intros b1. unfold raw_write. rewrite Ef, Hc, Hp, write_at_end, length_app. by rewrite Ho. }
  destruct flt as [[e n]|]; rewrite Hraw; intros [= <- <- <-].
  - set (k := (n `min` (length b - 1))%nat). exists (take k b), (drop k b).
    rewrite take_drop. cbn. repeat split; try done.
    intros H. apply (f_equal length) in H. rewrite length_drop in H.
    destruct b; [done|]. subst k. cbn [length] in H. lia.
  - exists b, []. rewrite app_nil_r. cbn. done.
Qed.

Lemma os_sync_files f w r f' w' :
  os_sync (f, w) = (r, (f', w')) → f' = f ∧ w_files w' = w_files w ∧ w_obj w' = w_obj w.
Proof.
  unfold os_sync. destruct (negb (f_open f)); [by intros [= <- <- <-]|].
  destruct (syscall w) as [r1 w1] eqn:E. intros [= <- <- <-].
  apply syscall_files in E. naive_solver.
Qed.

Lemma os_truncate_ok f w n c f' w' :
  w_files w !! f_path f = Some c →
  os_truncate n (f, w) = (Ok tt, (f', w')) →
  f' = f ∧ w_files w' = <[f_path f := truncate_to n c]> (w_files w) ∧ w_obj w' = w_obj w.
Proof.
  intros Hc. unfold os_truncate. destruct (negb (f_open f)); [done|].
  destruct (syscall w) as [[[]|] w1] eqn:E; apply syscall_files in E as [E1 E2]; [|done].
  rewrite E1, Hc. intros [= <- <-]. by cbn.
Qed.

Lemma os_seek_ok f w n f' w' :
  os_seek n (f, w) = (Ok tt, (f', w')) →
  f' = mkFile (f_path f) n (f_open f) ∧ w_files w' = w_files w ∧ w_obj w' = w_obj w.
Proof.
  unfold os_seek. destruct (negb (f_open f)); [done|].
  destruct (syscall w) as [[[]|] w1] eqn:E; apply syscall_files in E as [E1 E2]; [|done].
  intros [= <- <-]. done.
Qed.

Lemma os_close_files f w r f' w' :
  os_close (f, w) = (r, (f', w')) →
  f_path f' = f_path f ∧ f_open f' = false ∧ w_files w' = w_files w ∧ w_obj w' = w_obj w.
Proof.
  unfold os_close. destruct (f_open f) eqn:Ho; cbn [negb].
  - destruct (syscall w) as [r1 w1] eqn:E. intros [= <- <- <-].
    apply syscall_files in E. naive_solver.
  - by intros [= <- <- <-].
Qed.

Lemma os_create_ok w path f w' :
  os_create path w = (Ok f, w') →
  f = mkFile path 0 true ∧ w_files w' = <[path := []]> (w_files w) ∧ w_obj w' = w_obj w.
Proof.
  unfold os_create. intros (? & w1 & E & H)%ST_bind_inv.
  apply syscall_files in E as [E1 E2]. cbn in H. injection H as <- <-. cbn.
  by rewrite E1.
Qed.

Lemma os_create_err w path e w' :
  os_create path w = (Err e, w') → w_files w' = w_files w ∧ w_obj w' = w_obj w.
Proof.
  unfold os_create, mbind, ST_bind. destruct (syscall w) as [[[]|] w1] eqn:E; [done|].
  intros [= <- <-]. by eapply syscall_files.
Qed.

Lemma os_remove_files w path r w' :
  os_remove path w = (r, w') →
  w_obj w' = w_obj w ∧
  (w_files w' = w_files w ∧ r ≠ Ok tt ∨ w_files w' = delete path (w_files w) ∧ r = Ok tt).
Proof.
  unfold os_remove. destruct (w_files w !! path); [|by intros [= <- <-]; auto].
  destruct (syscall w) as [[[]|] w1] eqn:E; cbn;
    intros [= <- <-]; apply syscall_files in E as [E1 E2]; cbn.
  - rewrite E1. auto.
  - auto.
Qed.

(** A reader on a file delivers its content before [io.EOF]. *)
Lemma os_open_read_spec w path res w' :
  os_open_read path w = (res, w') →
  w_files w' = w_files w ∧ w_obj w' = w_obj w ∧
  match res with
  | Ok rd => ∃ c, w_files w !! path = Some c ∧ (source_ended rd → r_data rd = c)
  | Err e => e = ErrNotExist ↔ w_files w !! path = None
  end.
Proof.
  unfold os_open_read, source_ended. destruct (w_files w !! path) as [c|] eqn:Ec; [|by intros [= <- <-]].
  destruct (syscall w) as [[[]|e] w1] eqn:E; apply syscall_files in E as [E1 E2].
  - destruct (next_fault w1) as [flt w2] eqn:F. apply next_fault_files in F as [F1 F2].
    intros [= <- <-]. rewrite F1, E1, F2, E2. do 2 (split; [done|]). exists c.
    split; [done|]. destruct flt as [[[] n]|]; cbn; naive_solver.
  - intros [= <- <-]. do 2 (split; [done|]). split; [|done]. by destruct e.
Qed.

End Effects.

(** Distinct names sort strictly. *)
Lemma sort_bytes_strict l : NoDup l → StronglySorted bytes_lt (sort_bytes l).
Proof.
  intros Hnd. assert (NoDup (sort_bytes l)) as Hnd' by by rewrite sort_bytes_perm.
  assert (StronglySorted bytes_le (sort_bytes l)) as Hs
    by (apply Sorted_StronglySorted, sort_bytes_sorted; apply _).
  induction Hs as [|x k Hk IH Hx]; constructor.
  - apply NoDup_cons in Hnd' as [_ ?]. auto.
  - apply NoDup_cons in Hnd' as [Hxk _]. rewrite Forall_forall in Hx |- *.
    intros y Hy. destruct (proj1 (bytes_le_lteq x y) (Hx y Hy)) as [|<-]; done.
Qed.
