(* ===== verification/WalSegment.v ===== *)
(** * WAL segment files

    internal/wal/segment.go: the segment writer over the file system of
    [Os], the segment reader, and the segment names. *)

From S2P Require Import Prelude Bytes Decimal Crc32c WalEntry Os.

(** ** Format *)

Definition segMagicPrefix : bytes := [x54; x34].
Definition segMagicSuffix : byte := x0a.
Definition segMagic : bytes := [x54; x34; x02; x0a].
Definition segHeaderLen : nat := 20.

Definition segHeader (term firstRev : Z) : bytes :=
  segMagic ++ be 8 term ++ be 8 (u64 firstRev).

(** ** Names *)

Definition SegmentName (term firstRev : Z) : bytes :=
  fmt_pad 10 term ++ str "-" ++ fmt_pad 20 firstRev ++ str ".wal".

(** [strings.TrimSuffix]. *)
Definition TrimSuffix (s suf : bytes) : bytes :=
  if has_suffix suf s then take (length s - length suf) s else s.

(** [strings.IndexByte], split at the index. *)
Fixpoint cut_byte (c : byte) (s : bytes) : option (bytes * bytes) :=
  match s with
  | [] => None
  | b :: s' =>
      if bool_decide (b = c) then Some ([], s')
      else match cut_byte c s' with
           | Some (a, r) => Some (b :: a, r)
           | None => None
           end
  end.

Definition ParseSegmentName (name : bytes) : option (Z * Z) :=
  match cut_byte x2d (TrimSuffix name (str ".wal")) with
  | None => None
  | Some (a, b) =>
      match ParseUint a, ParseInt b with
      | (t, None), (r, None) => Some (t, r)
      | _, _ => None
      end
  end.

(** ** The writer *)

Record SegmentWriter := mkSW {
  sw_f : file;
  sw_path : bytes;
  sw_term : Z;
  sw_firstRev : Z;
  sw_size : Z;
  sw_entryCount : Z;
  sw_sealed : bool }.

Definition set_f (f : file) (sw : SegmentWriter) : SegmentWriter :=
  mkSW f (sw_path sw) (sw_term sw) (sw_firstRev sw) (sw_size sw) (sw_entryCount sw) (sw_sealed sw).
Definition set_counts (size count : Z) (sw : SegmentWriter) : SegmentWriter :=
  mkSW (sw_f sw) (sw_path sw) (sw_term sw) (sw_firstRev sw) size count (sw_sealed sw).
Definition set_sealed (sw : SegmentWriter) : SegmentWriter :=
  mkSW (sw_f sw) (sw_path sw) (sw_term sw) (sw_firstRev sw) (sw_size sw) (sw_entryCount sw) true.

Section Writer.
Context {S : Type}.

(** Methods of a [*SegmentWriter]. *)
Definition SWM (A : Type) : Type := ST (SegmentWriter * world S) A.

(** A call on the writer's file. *)
Definition on_file {A} (m : ST (file * world S) A) : SWM A :=
  zoom (λ '(sw, w), (sw_f sw, w)) (λ '(f, w) '(sw, _), (set_f f sw, w)) m.

Definition bump (n : Z) : SWM () :=
  modify (λ '(sw, w), (set_counts (sw_size sw + n) (sw_entryCount sw + 1) sw, w)).

Definition writeHeader : SWM () :=
  '(sw, _) ← get_st;
  on_file (os_write (segHeader (sw_term sw) (sw_firstRev sw)));;
  modify (λ '(sw, w), (set_counts (Z.of_nat segHeaderLen) (sw_entryCount sw) sw, w)).

(** Write the header of a new segment; on failure close and remove the file. *)
Definition initSegment (sw : SegmentWriter) : ST (world S) SegmentWriter := λ w,
  match writeHeader (sw, w) with
  | (Ok _, (sw1, w1)) => (Ok sw1, w1)
  | (Err e, (sw1, w1)) =>
      let '(_, (_, w2)) := os_close (sw_f sw1, w1) in
      let '(_, w3) := os_remove (sw_path sw) w2 in
      (Err e, w3)
  end.

Definition OpenSegmentWriter (dir : bytes) (term firstRev : Z) : ST (world S) SegmentWriter :=
  let path := path_join dir (SegmentName term firstRev) in
  f ← os_create path;
  initSegment (mkSW f path term firstRev 0 0 false).

Definition Append (e : Entry) : SWM () :=
  let b := entryFrame e in
  on_file (os_write b);;
  on_file os_sync;;
  bump (zlen b).

Definition AppendNoSync (e : Entry) : SWM () :=
  let b := entryFrame e in
  on_file (os_write b);;
  bump (zlen b).

Definition Sync : SWM () := on_file os_sync.

Definition rollback (size entryCount : Z) : SWM () :=
  on_file (os_truncate (Z.to_nat size));;
  on_file (os_seek (Z.to_nat size));;
  on_file os_sync;;
  modify (λ '(sw, w), (set_counts size entryCount sw, w)).

Definition Close : SWM () := on_file os_close.

Definition Seal : SWM () :=
  '(sw, _) ← get_st;
  if sw_sealed sw then mret tt
  else on_file os_close;; modify (λ '(sw, w), (set_sealed sw, w)).

End Writer.

(** ** The reader *)

Record SegmentReader := mkSR {
  sr_r : reader;
  sr_Term : Z;
  sr_FirstRev : Z;
  sr_version : Z }.

Definition newSegmentReader (r : reader) : result SegmentReader :=
  let '(res, r1) := read_full segHeaderLen r in
  hdr ← res;
  let version := byte_val (default x00 (hdr !! 2%nat)) in
  if negb (bool_decide (slice 0 2 hdr = segMagicPrefix)) ||
     negb (bool_decide (hdr !! 3%nat = Some segMagicSuffix))
  then Err (ErrText "wal: bad segment magic")
  else if (version <? 1) || (WALFormatVersion <? version)
  then Err (ErrText "wal: unsupported segment version")
  else Ok (mkSR r1 (u64_at 4 hdr) (i64 (u64_at 12 hdr)) version).

Definition OpenSegmentFile {S : Type} (path : bytes) : ST (world S) SegmentReader :=
  r ← os_open_read path; from_result (newSegmentReader r).

(** [sr.Next()]. *)
Definition Next (sr : SegmentReader) : result Entry * SegmentReader :=
  let '(res, r1) := ReadEntryVersion (sr_r sr) (sr_version sr) in
  (res, mkSR r1 (sr_Term sr) (sr_FirstRev sr) (sr_version sr)).

(** The loop of [ReadAll].  An iteration that does not stop consumes at least
    the eight bytes of a frame header, so more fuel than bytes is enough
    ([read_all_fuel]). *)
Fixpoint read_all (fuel : nat) (sr : SegmentReader) (acc : list Entry)
    : list Entry * option err :=
  match fuel with
  | O => (acc, Some (ErrText "out of fuel"))
  | S fuel =>
      match Next sr with
      | (Err ErrEOF, _) => (acc, None)
      | (Err e, _) => (acc, Some e)
      | (Ok e, sr') => read_all fuel sr' (acc ++ [e])
      end
  end.

(** [sr.ReadAll()]: the entries read, and the error that stopped it if any. *)
Definition ReadAll (sr : SegmentReader) : list Entry * option err :=
  read_all (S (length (r_data (sr_r sr)))) sr [].

(** ** Invariant of the writer

    An open, unsealed segment holds its header and the frames of the entries
    appended so far, the file offset is at the end, and the counters agree. *)

Definition seg_content (term firstRev : Z) (es : list Entry) : bytes :=
  segHeader term firstRev ++ concat (map entryFrame es).

Record seg_inv {S : Type} (es : list Entry) (sw : SegmentWriter) (w : world S) : Prop := {
  si_file : w_files w !! f_path (sw_f sw) = Some (seg_content (sw_term sw) (sw_firstRev sw) es);
  si_path : sw_path sw = f_path (sw_f sw);
  si_pos : f_pos (sw_f sw) = length (seg_content (sw_term sw) (sw_firstRev sw) es);
  si_size : sw_size sw = zlen (seg_content (sw_term sw) (sw_firstRev sw) es);
  si_count : sw_entryCount sw = zlen es;
  si_open : f_open (sw_f sw) = true;
  si_sealed : sw_sealed sw = false }.

#[global] Arguments seg_content : simpl never.
#[global] Arguments segHeader : simpl never.
#[global] Arguments entryFrame : simpl never.

(** ** The writer keeps its invariant *)

Section WriterLemmas.
Context {S : Type}.
Implicit Types (w : world S) (sw : SegmentWriter).

Lemma entryFrame_nonempty e : entryFrame e ≠ [].
Proof. intros H. apply (f_equal length) in H. rewrite length_entryFrame in H. done. Qed.

Lemma length_segHeader t f : length (segHeader t f) = 20%nat.
Proof. unfold segHeader. by rewrite !length_app, !length_be. Qed.

Lemma seg_content_snoc t f es e :
  seg_content t f (es ++ [e]) = seg_content t f es ++ entryFrame e.
Proof.
  unfold seg_content. rewrite map_app, concat_app. cbn [map concat].
  by rewrite app_nil_r, app_assoc.
Qed.

Lemma on_file_run {A} (m : ST (file * world S) A) sw w r f' w' :
  m (sw_f sw, w) = (r, (f', w')) → on_file m (sw, w) = (r, (set_f f' sw, w')).
Proof. intros H. unfold on_file, zoom. by rewrite H. Qed.

(** Writing one frame at the end of a segment: either the frame is there and
    the counters advance, or a strict prefix of it is there and they do not. *)
Lemma AppendNoSync_spec es sw w e r sw' w' :
  seg_inv es sw w → AppendNoSync e (sw, w) = (r, (sw', w')) →
  w_obj w' = w_obj w ∧ sw_term sw' = sw_term sw ∧ sw_firstRev sw' = sw_firstRev sw ∧
  f_path (sw_f sw') = f_path (sw_f sw) ∧ sw_path sw' = sw_path sw ∧
  sw_sealed sw' = sw_sealed sw ∧ f_open (sw_f sw') = true ∧
  (∀ p, p ≠ f_path (sw_f sw) → w_files w' !! p = w_files w !! p) ∧
  match r with
  | Ok _ => seg_inv (es ++ [e]) sw' w'
  | Err _ => ∃ b1 b2, entryFrame e = b1 ++ b2 ∧ b2 ≠ [] ∧
      w_files w' !! f_path (sw_f sw) =
        Some (seg_content (sw_term sw) (sw_firstRev sw) es ++ b1) ∧
      sw_size sw' = sw_size sw ∧ sw_entryCount sw' = sw_entryCount sw
  end.
Proof.
  intros [Hf Hpath Hpos Hsz Hcnt Hop Hse] Hrun.
  unfold AppendNoSync in Hrun. destruct (os_write (entryFrame e) (sw_f sw, w)) as [r1 [f1 w1]] eqn:E.
  pose proof (on_file_run _ _ _ _ _ _ E) as E1.
  eapply os_write_at_end in E as (b1 & b2 & Hb & Hf1 & Hfs & Ho & Hr);
    [|done..|apply entryFrame_nonempty]. subst f1.
  assert (∀ p, p ≠ f_path (sw_f sw) → w_files w1 !! p = w_files w !! p) as Hother.
  { intros p Hp. by rewrite Hfs, lookup_insert_ne. }
  destruct r1 as [[]|er].
  - rewrite (ST_bind_ok _ _ _ _ _ E1) in Hrun. subst b2. rewrite app_nil_r in Hb. subst b1.
    cbn in Hrun. injection Hrun as <- <- <-. repeat split; cbn; try done.
    + by rewrite Hfs, lookup_insert_eq, seg_content_snoc.
    + by rewrite seg_content_snoc.
    + by rewrite seg_content_snoc, zlen_app, Hsz.
    + by rewrite zlen_app, Hcnt.
  - rewrite (ST_bind_err _ _ _ _ _ E1) in Hrun. injection Hrun as <- <- <-.
    repeat split; cbn; try done.
    exists b1, b2. by rewrite Hfs, lookup_insert_eq.
Qed.

Lemma seg_inv_ext es sw w w' :
  w_files w' !! f_path (sw_f sw) = w_files w !! f_path (sw_f sw) →
  seg_inv es sw w → seg_inv es sw w'.
Proof. intros H []. split; by rewrite ?H. Qed.

Lemma set_f_id sw : set_f (sw_f sw) sw = sw.
Proof. by destruct sw. Qed.

Lemma Sync_spec sw w r sw' w' :
  Sync (sw, w) = (r, (sw', w')) →
  sw' = sw ∧ w_files w' = w_files w ∧ w_obj w' = w_obj w.
Proof.
  unfold Sync, on_file, zoom. destruct (os_sync (sw_f sw, w)) as [r1 [f1 w1]] eqn:E.
  intros [= <- <- <-]. apply os_sync_files in E as (-> & -> & ->). by rewrite set_f_id.
Qed.

(** [rollback] to the size and count of a shorter segment restores it exactly,
    whatever was written after it, provided its three calls succeed. *)
Lemma rollback_spec es sw w sw' w' junk :
  w_files w !! f_path (sw_f sw) =
    Some (seg_content (sw_term sw) (sw_firstRev sw) es ++ junk) →
  sw_path sw = f_path (sw_f sw) → f_open (sw_f sw) = true → sw_sealed sw = false →
  rollback (zlen (seg_content (sw_term sw) (sw_firstRev sw) es)) (zlen es) (sw, w)
    = (Ok tt, (sw', w')) →
  seg_inv es sw' w' ∧ sw_term sw' = sw_term sw ∧ sw_firstRev sw' = sw_firstRev sw ∧
  f_path (sw_f sw') = f_path (sw_f sw) ∧ w_obj w' = w_obj w ∧
  (∀ p, p ≠ f_path (sw_f sw) → w_files w' !! p = w_files w !! p).
Proof.
  intros Hf Hp Ho Hs Hrun. unfold rollback, zlen in Hrun. rewrite Nat2Z.id in Hrun.
  set (c := seg_content _ _ _) in *.
  apply ST_bind_inv in Hrun as ([] & [sw1 w1] & E1 & Hrun).
  apply ST_bind_inv in Hrun as ([] & [sw2 w2] & E2 & Hrun).
  apply ST_bind_inv in Hrun as ([] & [sw3 w3] & E3 & Hrun).
  cbn in Hrun. injection Hrun as <- <-.
  unfold on_file, zoom in E1.
  destruct (os_truncate (length c) (sw_f sw, w)) as [r1 [f1 w1']] eqn:F1.
  injection E1 as -> <- <-. eapply os_truncate_ok in F1 as (-> & Hw1 & Ho1); [|done].
  rewrite truncate_to_prefix in Hw1. rewrite set_f_id in E2.
  unfold on_file, zoom in E2.
  destruct (os_seek (length c) (sw_f sw, w1')) as [r2 [f2 w2']] eqn:F2.
  injection E2 as -> <- <-. apply os_seek_ok in F2 as (-> & Hw2 & Ho2).
  unfold on_file, zoom in E3. cbn [sw_f set_f] in E3.
  destruct (os_sync _) as [r3 [f3 w3']] eqn:F3.
  injection E3 as -> <- <-. apply os_sync_files in F3 as (-> & Hw3 & Ho3).
  rewrite Hw2, Hw1 in Hw3. repeat split; cbn; try done.
  - by rewrite Hw3, lookup_insert_eq.
  - by rewrite Ho3, Ho2, Ho1.
  - intros p Hne. by rewrite Hw3, lookup_insert_ne.
Qed.

(** A new segment is empty. *)
Lemma OpenSegmentWriter_ok dir t fr w sw w' :
  OpenSegmentWriter dir t fr w = (Ok sw, w') →
  seg_inv [] sw w' ∧ sw_term sw = t ∧ sw_firstRev sw = fr ∧
  sw_path sw = path_join dir (SegmentName t fr) ∧ w_obj w' = w_obj w ∧
  (∀ p, p ≠ sw_path sw → w_files w' !! p = w_files w !! p).
Proof.
  unfold OpenSegmentWriter. set (path := path_join _ _).
  intros (f & w1 & E & H)%ST_bind_inv. apply os_create_ok in E as (-> & Hw1 & Ho1).
  unfold initSegment, writeHeader, mbind, ST_bind, get_st in H.
  unfold on_file, zoom in H. cbn [sw_f sw_term sw_firstRev] in H.
  destruct (os_write (segHeader t fr) _) as [r2 [f2 w2]] eqn:E2.
  eapply os_write_at_end in E2 as (b1 & b2 & Hb & Hf2 & Hfs & Ho & Hr); cbn [f_path f_pos f_open].
  2: done. 2: { cbn. by rewrite Hw1, lookup_insert_eq. } 2: done.
  2: { intros H0. by apply (f_equal length) in H0; rewrite length_segHeader in H0. }
  destruct r2 as [[]|er]; [|by destruct (os_close _) as [? [? ?]], (os_remove _ _)].
  subst b2 f2. rewrite app_nil_r in Hb. subst b1. cbn in H. injection H as <- <-. cbn in *.
  assert (seg_content t fr [] = segHeader t fr) as Hc by (unfold seg_content; cbn; by rewrite app_nil_r).
  repeat split; cbn; rewrite ?Hc; try done.
  - by rewrite Hfs, lookup_insert_eq.
  - by rewrite Ho, Ho1.
  - intros p Hp. by rewrite Hfs, lookup_insert_ne, Hw1, lookup_insert_ne.
Qed.

End WriterLemmas.

(** ** The reader *)

Lemma read_full_length n r b r' :
  read_full n r = (Ok b, r') → length (r_data r) = (n + length (r_data r'))%nat.
Proof.
  unfold read_full. destruct (Nat.leb_spec n (length (r_data r))); [|done].
  intros [= <- <-]. cbn. rewrite length_drop. lia.
Qed.

Lemma ReadEntryVersion_length r v e r' :
  ReadEntryVersion r v = (Ok e, r') → (length (r_data r') + 8 ≤ length (r_data r))%nat.
Proof.
  unfold ReadEntryVersion. destruct (read_full 8 r) as [[hdr|er] r1] eqn:E1.
  - apply read_full_length in E1. destruct (read_full _ r1) as [[pl|er] r2] eqn:E2; [|done].
    apply read_full_length in E2. destruct (negb _); intros [= _ <-]; lia.
  - by destruct er.
Qed.

(** Any fuel above the number of bytes gives the same result. *)
Lemma read_all_fuel f g sr acc :
  (length (r_data (sr_r sr)) < f)%nat → (length (r_data (sr_r sr)) < g)%nat →
  read_all f sr acc = read_all g sr acc.
Proof.
  revert g sr acc. induction f as [|f IH]; intros [|g] sr acc Hf Hg; try lia.
  cbn [read_all]. destruct (Next sr) as [[e|er] sr'] eqn:E; [|done].
  unfold Next in E. destruct (ReadEntryVersion _ _) as [res r1] eqn:E1. injection E as -> <-.
  apply ReadEntryVersion_length in E1. apply IH; cbn; lia.
Qed.

(** The loop of [ReadAll] as it is written, with no bound on its iterations. *)
Inductive read_loop : SegmentReader → list Entry → list Entry → option err → Prop :=
  | rl_end sr sr' acc : Next sr = (Err ErrEOF, sr') → read_loop sr acc acc None
  | rl_fail sr sr' acc e : Next sr = (Err e, sr') → e ≠ ErrEOF → read_loop sr acc acc (Some e)
  | rl_next sr sr' acc e out er :
      Next sr = (Ok e, sr') → read_loop sr' (acc ++ [e]) out er → read_loop sr acc out er.

Lemma read_all_loop f : ∀ sr acc, (length (r_data (sr_r sr)) < f)%nat →
  let '(out, er) := read_all f sr acc in
  read_loop sr acc out er ∧ 8 * zlen out ≤ 8 * zlen acc + zlen (r_data (sr_r sr)).
Proof.
  induction f as [|f IH]; intros sr acc Hf; [lia|]. cbn [read_all]. pose proof (zlen_nonneg (r_data (sr_r sr))).
  destruct (Next sr) as [[e|e] sr'] eqn:E.
  - pose proof E as E0. unfold Next in E. destruct (ReadEntryVersion _ _) as [res r1] eqn:E1. injection E as -> <-.
    apply ReadEntryVersion_length in E1. specialize (IH (mkSR r1 (sr_Term sr) (sr_FirstRev sr) (sr_version sr)) (acc ++ [e])).
    cbn [sr_r] in IH. destruct (read_all f _ _) as [out er]. destruct IH as [Hl Hz]; [lia|]. split; [by eapply rl_next|].
    rewrite zlen_app in Hz. unfold zlen in *. cbn [length] in Hz. lia.
  - destruct (decide (e = ErrEOF)) as [->|Hne]; [split; [by eapply rl_end|lia]|].
    assert ((match e with ErrEOF => (acc, None) | _ => (acc, Some e) end) = (acc, Some e)) as -> by (by destruct e).
    split; [by eapply rl_fail|lia].
Qed.

(** C37. Reading a segment ends on every input, torn and corrupt files
    included: the loop of ReadAll, which has no bound of its own, stops after
    at most one entry for every eight bytes of the file, with the result that
    the bounded loop of the model computes. *)
Theorem segment_read_terminates sr :
  let '(es, er) := ReadAll sr in read_loop sr [] es er ∧ 8 * zlen es ≤ zlen (r_data (sr_r sr)).
Proof.
  unfold ReadAll. pose proof (read_all_loop (S (length (r_data (sr_r sr)))) sr [] ltac:(lia)) as Hl.
  by destruct (read_all _ sr []).
Qed.

Lemma read_all_cons f t fr e rest er acc :
  wf_entry e →
  read_all (S f) (mkSR (mkReader (entryFrame e ++ rest) er) t fr 2) acc =
  read_all f (mkSR (mkReader rest er) t fr 2) (acc ++ [with_sequence e]).
Proof.
  intros Hwf. cbn [read_all]. unfold Next. cbn [sr_r sr_version].
  change (ReadEntryVersion ?r 2) with (ReadEntry r). by rewrite ReadEntry_frame.
Qed.

(** Behind any number of complete frames, reading continues with the rest. *)
Lemma read_all_frames es f t fr rest er acc :
  Forall wf_entry es → (length (concat (map entryFrame es) ++ rest) < f)%nat →
  ∃ f', (length rest < f')%nat ∧
  read_all f (mkSR (mkReader (concat (map entryFrame es) ++ rest) er) t fr 2) acc =
  read_all f' (mkSR (mkReader rest er) t fr 2) (acc ++ map with_sequence es).
Proof.
  intros Hes. revert f acc. induction Hes as [|e es He Hes IH]; intros f acc Hf.
  - exists f. split; [done|]. by rewrite app_nil_r.
  - cbn [map concat] in Hf |- *. rewrite <- app_assoc in Hf |- *.
    rewrite length_app, length_entryFrame in Hf. destruct f as [|f]; [lia|].
    rewrite read_all_cons by done. destruct (IH f (acc ++ [with_sequence e])) as (f' & Hf' & ->);
      [lia|]. exists f'. split; [done|]. by rewrite <- app_assoc.
Qed.

(** A tail that is the strict prefix of a frame, or empty, ends the log. *)
Definition torn_tail (b : bytes) : Prop :=
  b = [] ∨ ∃ e q, wf_entry e ∧ entryFrame e = b ++ q ∧ q ≠ [].

Lemma read_all_torn f t fr b acc :
  torn_tail b → read_all (S f) (mkSR (mkReader b ErrEOF) t fr 2) acc = (acc, None).
Proof.
  intros [->|(e & q & Hwf & Hq & Hne)]; [done|]. cbn [read_all]. unfold Next.
  cbn [sr_r sr_version]. change (ReadEntryVersion ?r 2) with (ReadEntry r).
  by rewrite (ReadEntry_torn e b q).
Qed.

Lemma ReadAll_frames_torn es t fr b :
  Forall wf_entry es → torn_tail b →
  ReadAll (mkSR (mkReader (concat (map entryFrame es) ++ b) ErrEOF) t fr 2) =
  (map with_sequence es, None).
Proof.
  intros Hes Hb. unfold ReadAll. cbn [sr_r r_data].
  destruct (read_all_frames es (S (length (concat (map entryFrame es) ++ b))) t fr b ErrEOF [])
    as (f' & Hf' & ->); [done|lia|].
  destruct f'; [lia|]. by rewrite read_all_torn.
Qed.

(** The header is recognised and its fields are read back. *)
Lemma newSegmentReader_header t fr body er :
  is_u64 t → is_i64 fr →
  newSegmentReader (mkReader (segHeader t fr ++ body) er) = Ok (mkSR (mkReader body er) t fr 2).
Proof.
  intros Ht Hfr. unfold newSegmentReader.
  rewrite read_full_app by apply length_segHeader. simp_res.
  change (slice 0 2 (segHeader t fr)) with segMagicPrefix.
  change (segHeader t fr !! 3%nat) with (Some segMagicSuffix).
  change (byte_val (default x00 (segHeader t fr !! 2%nat))) with 2.
  rewrite !bool_decide_eq_true_2 by done.
  change (u64_at 4 (segHeader t fr)) with (unbe (be 8 t)).
  change (u64_at 12 (segHeader t fr)) with (unbe (be 8 (u64 fr))).
  rewrite i64_unbe_be_u64, unbe_be_u64, u64_id by done. done.
Qed.

(** A prefix of a sequence of frames is some complete frames and a torn tail. *)
Lemma frames_prefix es p q :
  Forall wf_entry es → concat (map entryFrame es) = p ++ q →
  ∃ k b, (k ≤ length es)%nat ∧ p = concat (map entryFrame (take k es)) ++ b ∧ torn_tail b ∧
    (k = length es ∨ (length p < length (concat (map entryFrame (take (S k) es))))%nat).
Proof.
  intros Hes. revert p q. induction Hes as [|e es He Hes IH]; intros p q Hp.
  - exists 0%nat, []. cbn in Hp. symmetry in Hp. apply app_nil in Hp as [-> ->].
    repeat split; [done|by left|by left].
  - cbn [map concat] in Hp.
    destruct (decide (length (entryFrame e) ≤ length p)%nat) as [Hle|Hlt].
    + assert (p = entryFrame e ++ drop (length (entryFrame e)) p) as Hpe.
      { rewrite <- (take_drop (length (entryFrame e)) p) at 1. f_equal.
        apply (f_equal (take (length (entryFrame e)))) in Hp.
        rewrite take_app_length, take_app_le in Hp by done. done. }
      destruct (IH (drop (length (entryFrame e)) p) q) as (k & b & Hk & Hd & Ht & Hlast).
      { rewrite Hpe, <- app_assoc in Hp. by apply app_inv_head in Hp. }
      exists (S k), b. cbn [take map concat length]. split; [lia|]. split; [|split; [done|]].
      * rewrite Hpe, Hd at 1. by rewrite app_assoc.
      * destruct Hlast as [->|Hlast]; [by left|right].
        rewrite length_drop in Hlast. rewrite length_app. cbn [take] in Hlast.
        destruct es; cbn in *; lia.
    + exists 0%nat, p. cbn [take map concat app]. split; [lia|]. split; [done|]. split.
      * right. exists e, (drop (length p) (entryFrame e)). split; [done|].
        assert (p = take (length p) (entryFrame e)) as Hpt.
        { apply (f_equal (take (length p))) in Hp.
          rewrite take_app_length, take_app_le in Hp by lia. done. }
        split.
        -- rewrite Hpt at 1. by rewrite take_drop.
        -- intros H. apply (f_equal length) in H. rewrite length_drop in H. cbn in H. lia.
      * right. rewrite app_nil_r. lia.
Qed.

(** ** Names *)

Lemma cut_byte_first c a b :
  Forall (λ x, x ≠ c) a → cut_byte c (a ++ c :: b) = Some (a, b).
Proof.
  induction 1 as [|x a Hx Ha IH]; cbn; [by rewrite bool_decide_eq_true_2|].
  rewrite bool_decide_eq_false_2 by done. by rewrite IH.
Qed.

Lemma TrimSuffix_app s suf : TrimSuffix (s ++ suf) suf = s.
Proof.
  unfold TrimSuffix, has_suffix. rewrite reverse_app.
  replace (has_prefix (reverse suf) (reverse suf ++ reverse s)) with true.
  - rewrite length_app. replace (length s + length suf - length suf)%nat with (length s) by lia.
    by rewrite take_app_length.
  - symmetry. apply has_prefix_spec. eauto.
Qed.

(** Two decimal fields separated by one byte sort by (first, second). *)
Lemma bytes_cmp_two_fields p sep t r t' r' n m suf :
  0 ≤ t < 10 ^ Z.of_nat n → 0 ≤ t' < 10 ^ Z.of_nat n →
  0 ≤ r < 10 ^ Z.of_nat m → 0 ≤ r' < 10 ^ Z.of_nat m →
  bytes_cmp (p ++ digits n t ++ sep ++ digits m r ++ suf)
            (p ++ digits n t' ++ sep ++ digits m r' ++ suf) =
  match t ?= t' with Eq => r ?= r' | c => c end.
Proof.
  intros Ht Ht' Hr Hr'. rewrite bytes_cmp_app.
  destruct (decide (t = t')) as [<-|Hne].
  - rewrite bytes_cmp_app, bytes_cmp_app, Z.compare_refl.
    destruct (decide (r = r')) as [<-|Hner].
    + by rewrite bytes_cmp_app, bytes_cmp_refl, Z.compare_refl.
    + rewrite bytes_cmp_app_ne, bytes_cmp_digits; rewrite ?length_digits; try done.
      intros H. by apply digits_inj in H.
  - rewrite bytes_cmp_app_ne, bytes_cmp_digits; rewrite ?length_digits; try done.
    + by destruct (Z.compare_spec t t').
    + intros H. by apply digits_inj in H.
Qed.

(** ** Properties *)

(** C35. Crash recovery of a segment: for a writer in its invariant state, cut
    its file at any offset behind the header, as a crash that loses the tail
    of the file does; the reader then returns, without an error, exactly the
    entries whose frames lie completely before the cut, in order and with
    their fields, so in particular all entries when nothing was cut. *)
Theorem segment_crash_replay {S : Type} es sw (w : world S) n :
  seg_inv es sw w → Forall wf_entry es → is_u64 (sw_term sw) → is_i64 (sw_firstRev sw) →
  (20 ≤ n)%nat →
  ∃ content sr k,
    w_files w !! sw_path sw = Some content ∧
    newSegmentReader (mkReader (take n content) ErrEOF) = Ok sr ∧
    sr_Term sr = sw_term sw ∧ sr_FirstRev sr = sw_firstRev sw ∧
    ReadAll sr = (map with_sequence (take k es), None) ∧
    (k = length es ∨
     (n < length (seg_content (sw_term sw) (sw_firstRev sw) (take (k + 1) es)))%nat).
Proof.
  intros Hinv Hes Ht Hfr Hn. set (t := sw_term sw). set (fr := sw_firstRev sw).
  set (frames := concat (map entryFrame es)).
  destruct (frames_prefix es (take (n - 20) frames) (drop (n - 20) frames))
    as (k & b & Hk & Hp & Htorn & Hlast); [done|by rewrite take_drop|].
  exists (seg_content t fr es), (mkSR (mkReader (take (n - 20) frames) ErrEOF) t fr 2), k.
  split; [by rewrite (si_path _ _ _ Hinv), (si_file _ _ _ Hinv)|].
  assert (take n (seg_content t fr es) = segHeader t fr ++ take (n - 20) frames) as ->.
  { unfold seg_content. fold frames. rewrite take_app, length_segHeader.
    by rewrite (take_ge (segHeader t fr)) by (rewrite length_segHeader; lia). }
  rewrite newSegmentReader_header by done.
  do 3 (split; [done|]). split.
  - rewrite Hp. apply ReadAll_frames_torn; [by apply Forall_take|done].
  - destruct Hlast as [->|Hlast]; [by left|].
    destruct (decide (k = length es)) as [->|Hk']; [by left|right].
    rewrite Nat.add_1_r. unfold seg_content. rewrite length_app, length_segHeader.
    rewrite length_take in Hlast.
    assert (length (concat (map entryFrame (take (Datatypes.S k) es))) ≤ length frames)%nat; [|lia].
    subst frames. rewrite <- (take_drop (Datatypes.S k) es) at 2.
    rewrite map_app, concat_app, length_app. lia.
Qed.

Definition sample_es : list Entry :=
  [ sample_entry; mkEntry 10 8 2 OpDelete (str "/registry/pods/a") [] 0 3 7 0;
    mkEntry 11 8 2 OpCompact [] [] 0 0 5 0 ].

(** A segment of term 2 that starts at sequence 9, written without faults. *)
Definition sample_path : bytes := path_join (str "wal") (SegmentName 2 9).
Definition sample_sw : SegmentWriter :=
  let c := seg_content 2 9 sample_es in
  mkSW (mkFile sample_path (length c) true) sample_path 2 9 (zlen c) 3 false.
Definition sample_world : world () :=
  mkWorld {[ sample_path := seg_content 2 9 sample_es ]} tt [].

Lemma sample_seg_inv : seg_inv sample_es sample_sw sample_world.
Proof. split; by vm_compute. Defined.

Lemma sample_es_wf : Forall wf_entry sample_es.
Proof. repeat constructor; vm_compute; congruence. Defined.

Lemma segment_crash_replay_witness :
  ∃ content sr k,
    w_files sample_world !! sw_path sample_sw = Some content ∧
    newSegmentReader (mkReader (take 150 content) ErrEOF) = Ok sr ∧
    sr_Term sr = 2 ∧ sr_FirstRev sr = 9 ∧
    ReadAll sr = (map with_sequence (take k sample_es), None) ∧
    (k = length sample_es ∨ (150 < length (seg_content 2 9 (take (k + 1) sample_es)))%nat).
Proof.
  apply (segment_crash_replay sample_es sample_sw sample_world 150 sample_seg_inv sample_es_wf);
    [done|done|apply (bool_decide_unpack _); by vm_compute].
Defined.

(** Segment names parse back to their term and first sequence, for every
    [uint64] term and [int64] sequence. *)
Theorem segment_name_roundtrip t r :
  is_u64 t → is_i64 r → ParseSegmentName (SegmentName t r) = Some (t, r).
Proof.
  intros Ht Hr. unfold ParseSegmentName, SegmentName. unfold is_u64 in Ht.
  assert (fmt_pad 10 t = pad0 10 (dec t)) as Hp
    by (unfold fmt_pad; by rewrite (proj2 (Z.ltb_ge t 0)) by lia).
  rewrite !app_assoc, TrimSuffix_app, <- app_assoc, Hp.
  change (str "-" ++ ?x) with (x2d :: x). rewrite cut_byte_first.
  - rewrite ParseUint_pad0 by (unfold max_uint64; lia). by rewrite ParseInt_fmt_pad.
  - eapply Forall_impl; [apply pad0_all_digits; unfold max_uint64; lia|].
    by intros b [_ ?]%is_digit_not_sign.
Qed.

Lemma segment_name_roundtrip_witness :
  ParseSegmentName (str "0000000002-00000000000000000009.wal") = Some (2, 9).
Proof. apply (segment_name_roundtrip 2 9); by vm_compute. Defined.

(** The lexicographic order of segment names, in which [LocalSegments]
    sorts the files, is the order by term and then by first sequence, for
    terms below 10^10 (the ten digits of the format) and non-negative
    sequences. *)
Theorem segment_name_order t r t' r' :
  0 ≤ t < 10 ^ 10 → 0 ≤ t' < 10 ^ 10 → 0 ≤ r < 2 ^ 63 → 0 ≤ r' < 2 ^ 63 →
  bytes_lt (SegmentName t r) (SegmentName t' r') ↔ t < t' ∨ t = t' ∧ r < r'.
Proof.
  intros Ht Ht' Hr Hr'. unfold bytes_lt, SegmentName.
  rewrite !fmt_pad_digits by (cbn; lia).
  rewrite <- (app_nil_l (digits 10 t ++ _)), <- (app_nil_l (digits 10 t' ++ _)).
  rewrite bytes_cmp_two_fields by (cbn; lia).
  destruct (Z.compare_spec t t'); [rewrite Z.compare_lt_iff|..]; split; lia || (intros; try done; lia).
Qed.

Lemma segment_name_order_witness :
  bytes_lt (SegmentName 2 999) (SegmentName 10 7).
Proof. apply segment_name_order; lia. Defined.

(** A frame that was only partly written is not removed, and what is
    appended and acknowledged after it cannot be read: here the first append
    fails half-way (say, a full disk), the second one succeeds and is synced,
    but reading the file stops at the damaged frame and returns no entry. *)
Theorem append_after_partial_write :
  let w0 : world () := mkWorld ∅ tt [None; None; Some (ErrText "no space left on device", 40%nat)] in
  let m := Append sample_entry in
  match OpenSegmentWriter (str "wal") 2 9 w0 with
  | (Ok sw, w1) =>
      match m (sw, w1) with
      | (r1, st1) =>
          match m st1 with
          | (r2, (sw2, w2)) =>
              r1 = Err (ErrText "no space left on device") ∧ r2 = Ok tt ∧
              (OpenSegmentFile (sw_path sw2) ≫= λ sr, mret (ReadAll sr)) w2 =
                (Ok ([], Some (ErrText "wal: CRC mismatch")), w2)
          end
      end
  | _ => False
  end.
Proof. vm_compute. repeat split. Qed.
