(* ===== verification/Md5.v ===== *)
(** * MD5

    [crypto/md5] of the Go standard library: the in-memory object store uses
    the hash of an object's content as its ETag (pkg/object/mem.go). *)

From S2P Require Import Prelude Bytes.

(** The sine table and the rotation amounts of RFC 1321. *)
Definition md5_K : list Z :=
  [
     0xd76aa478; 0xe8c7b756; 0x242070db; 0xc1bdceee; 0xf57c0faf; 0x4787c62a; 0xa8304613;
     0xfd469501; 0x698098d8; 0x8b44f7af; 0xffff5bb1; 0x895cd7be; 0x6b901122; 0xfd987193;
     0xa679438e; 0x49b40821; 0xf61e2562; 0xc040b340; 0x265e5a51; 0xe9b6c7aa; 0xd62f105d;
     0x2441453; 0xd8a1e681; 0xe7d3fbc8; 0x21e1cde6; 0xc33707d6; 0xf4d50d87; 0x455a14ed;
     0xa9e3e905; 0xfcefa3f8; 0x676f02d9; 0x8d2a4c8a; 0xfffa3942; 0x8771f681; 0x6d9d6122;
     0xfde5380c; 0xa4beea44; 0x4bdecfa9; 0xf6bb4b60; 0xbebfbc70; 0x289b7ec6; 0xeaa127fa;
     0xd4ef3085; 0x4881d05; 0xd9d4d039; 0xe6db99e5; 0x1fa27cf8; 0xc4ac5665; 0xf4292244;
     0x432aff97; 0xab9423a7; 0xfc93a039; 0x655b59c3; 0x8f0ccc92; 0xffeff47d; 0x85845dd1;
     0x6fa87e4f; 0xfe2ce6e0; 0xa3014314; 0x4e0811a1; 0xf7537e82; 0xbd3af235; 0x2ad7d2bb;
     0xeb86d391 ].

Definition md5_S : list Z :=
  concat (map (λ l, l ++ l ++ l ++ l)
    [[7; 12; 17; 22]; [5; 9; 14; 20]; [4; 11; 16; 23]; [6; 10; 15; 21]]).

Definition rotl32 (x s : Z) : Z := u32 (Z.lor (Z.shiftl x s) (Z.shiftr x (32 - s))).
Definition not32 (x : Z) : Z := Z.lxor x 0xFFFFFFFF.

Definition md5_word (block : bytes) (g : nat) : Z :=
  unle (slice (4 * g) (4 * g + 4) block).

(** One of the 64 steps on the registers [(a, b, c, d)]. *)
Definition md5_step (block : bytes) (st : Z * Z * Z * Z) (i : nat) : Z * Z * Z * Z :=
  let '(a, b, c, d) := st in
  let '(f, g) :=
    if (i <? 16)%nat then (Z.lor (Z.land b c) (Z.land (not32 b) d), i)
    else if (i <? 32)%nat then (Z.lor (Z.land d b) (Z.land (not32 d) c), (5 * i + 1) mod 16)%nat
    else if (i <? 48)%nat then (Z.lxor b (Z.lxor c d), (3 * i + 5) mod 16)%nat
    else (Z.lxor c (Z.lor b (not32 d)), (7 * i) mod 16)%nat in
  let sum := u32 (a + f + default 0 (md5_K !! i) + md5_word block g) in
  (d, u32 (b + rotl32 sum (default 0 (md5_S !! i))), b, c).

Definition md5_block (st : Z * Z * Z * Z) (block : bytes) : Z * Z * Z * Z :=
  let '(a, b, c, d) := st in
  let '(a', b', c', d') := fold_left (md5_step block) (seq 0 64) st in
  (u32 (a + a'), u32 (b + b'), u32 (c + c'), u32 (d + d')).

Definition md5_pad (data : bytes) : bytes :=
  data ++ [x80] ++ replicate ((119 - length data mod 64) mod 64) x00 ++ le 8 (8 * zlen data).

Fixpoint md5_blocks (n : nat) (st : Z * Z * Z * Z) (data : bytes) : Z * Z * Z * Z :=
  match n with
  | O => st
  | S m => md5_blocks m (md5_block st (take 64 data)) (drop 64 data)
  end.

Definition md5 (data : bytes) : bytes :=
  let p := md5_pad data in
  let '(a, b, c, d) :=
    md5_blocks (length p / 64) (0x67452301, 0xefcdab89, 0x98badcfe, 0x10325476) p in
  le 4 a ++ le 4 b ++ le 4 c ++ le 4 d.

(** [fmt.Sprintf("%x", sum)]. *)
Definition hex_digit (d : Z) : byte := byte_of (if d <? 10 then 48 + d else 87 + d).
Definition hex (l : bytes) : bytes :=
  concat (map (λ b, [hex_digit (byte_val b / 16); hex_digit (byte_val b mod 16)]) l).

Example md5_empty : hex (md5 []) = str "d41d8cd98f00b204e9800998ecf8427e".
Proof. vm_compute. reflexivity. Qed.

Example md5_abc : hex (md5 (str "abc")) = str "900150983cd24fb0d6963f7d28e17f72".
Proof. vm_compute. reflexivity. Qed.

Example md5_two_blocks :
  hex (md5 (str "12345678901234567890123456789012345678901234567890123456789012345678901234567890"))
  = str "57edf4a22be3c955ac49da2e2107b67a".
Proof. vm_compute. reflexivity. Qed.
