(* ===== verification/Json.v ===== *)
(** * JSON

    encoding/json as the sources use it: [json.Marshal] of records with
    numbers, strings, booleans and slices, [json.Unmarshal] and
    [json.Decoder.Decode] into such records.  Strings are coerced to UTF-8 in
    both directions as the Go package does.  The main theorem is that decoding
    inverts encoding on values whose strings are valid UTF-8. *)

From S2P Require Import Prelude Bytes Decimal WalEntry Md5.

(** ** UTF-8 *)

Definition RuneError : Z := 0xFFFD.

Definition byte_in (lo hi : Z) (b : byte) : bool := (lo <=? byte_val b) && (byte_val b <=? hi).

(** The low six bits of a continuation byte. *)
Definition low6 (b : byte) : Z := byte_val b - 0x80.

(** [utf8.DecodeRune]: the first rune and its width, [(RuneError, 1)] when the
    bytes are not valid. *)
Definition DecodeRune (s : bytes) : Z * nat :=
  match s with
  | [] => (RuneError, 0%nat)
  | b0 :: s1 =>
      let x := byte_val b0 in
      if x <? 0x80 then (x, 1%nat)
      else if (x <? 0xC2) || (0xF4 <? x) then (RuneError, 1%nat)
      else
        let lo := if x =? 0xE0 then 0xA0 else if x =? 0xF0 then 0x90 else 0x80 in
        let hi := if x =? 0xED then 0x9F else if x =? 0xF4 then 0x8F else 0xBF in
        match s1 with
        | [] => (RuneError, 1%nat)
        | b1 :: s2 =>
            if negb (byte_in lo hi b1) then (RuneError, 1%nat)
            else if x <=? 0xDF then ((x - 0xC0) * 64 + low6 b1, 2%nat)
            else
              match s2 with
              | [] => (RuneError, 1%nat)
              | b2 :: s3 =>
                  if negb (byte_in 0x80 0xBF b2) then (RuneError, 1%nat)
                  else if x <=? 0xEF then ((x - 0xE0) * 4096 + low6 b1 * 64 + low6 b2, 3%nat)
                  else
                    match s3 with
                    | [] => (RuneError, 1%nat)
                    | b3 :: _ =>
                        if negb (byte_in 0x80 0xBF b3) then (RuneError, 1%nat)
                        else ((x - 0xF0) * 262144 + low6 b1 * 4096 + low6 b2 * 64 + low6 b3, 4%nat)
                    end
              end
        end
  end.

(** [utf8.AppendRune]. *)
Definition AppendRune (r : Z) : bytes :=
  let c (z : Z) := byte_of (0x80 + z mod 64) in
  if r <? 0x80 then [byte_of r]
  else if r <? 0x800 then [byte_of (0xC0 + r / 64); c r]
  else if (0x10FFFF <? r) || (0xD800 <=? r) && (r <=? 0xDFFF) then [xef; xbf; xbd]
  else if r <? 0x10000 then [byte_of (0xE0 + r / 4096); c (r / 64); c r]
  else [byte_of (0xF0 + r / 262144); c (r / 4096); c (r / 64); c r].

(** [utf8.Valid]. *)
Fixpoint valid_loop (fuel : nat) (s : bytes) : bool :=
  match fuel, s with
  | S f, _ :: _ =>
      let '(c, size) := DecodeRune s in
      if (c =? RuneError) && (size =? 1)%nat then false else valid_loop f (drop size s)
  | _, _ => true
  end.
Definition valid_utf8 (s : bytes) : bool := valid_loop (length s) s.

(** ** Strings *)

Definition quote_byte : byte := x22.
Definition bslash : byte := x5c.

(** The escape of one ASCII byte, [<], [>] and [&] included. *)
Definition escape (b : byte) : bytes :=
  let x := byte_val b in
  if (x =? 0x22) || (x =? 0x5C) then [bslash; b]
  else if x =? 0x08 then str "\b"
  else if x =? 0x0C then str "\f"
  else if x =? 0x0A then str "\n"
  else if x =? 0x0D then str "\r"
  else if x =? 0x09 then str "\t"
  else if (x <? 0x20) || (x =? 0x3C) || (x =? 0x3E) || (x =? 0x26) then
    str "\u00" ++ [hex_digit (x / 16); hex_digit (x mod 16)]
  else [b].

Fixpoint quote_loop (fuel : nat) (s : bytes) : bytes :=
  match fuel, s with
  | S f, b :: s' =>
      if byte_val b <? 0x80 then escape b ++ quote_loop f s'
      else
        let '(c, size) := DecodeRune s in
        (if (c =? RuneError) && (size =? 1)%nat then str "\uff" ++ str "fd"
         else if (c =? 0x2028) || (c =? 0x2029) then str "\u202" ++ [hex_digit (c mod 16)]
         else take size s) ++ quote_loop f (drop size s)
  | _, _ => []
  end.

Definition quote (s : bytes) : bytes := quote_byte :: quote_loop (length s) s ++ [quote_byte].

Definition hex_val (b : byte) : option Z :=
  let x := byte_val b in
  if byte_in 48 57 b then Some (x - 48)
  else if byte_in 97 102 b then Some (x - 87)
  else if byte_in 65 70 b then Some (x - 55)
  else None.

(** Four hexadecimal digits. *)
Definition getu4 (s : bytes) : option Z :=
  match s with
  | a :: b :: c :: d :: _ =>
      va ← hex_val a; vb ← hex_val b; vc ← hex_val c; vd ← hex_val d;
      Some (((va * 16 + vb) * 16 + vc) * 16 + vd)
  | _ => None
  end.

Definition getu4_esc (s : bytes) : option Z :=
  match s with
  | a :: b :: s' => if (byte_val a =? 0x5C) && (byte_val b =? 0x75) then getu4 s' else None
  | _ => None
  end.

Definition is_surrogate (r : Z) : bool := (0xD800 <=? r) && (r <=? 0xDFFF).

(** [utf16.DecodeRune]. *)
Definition utf16_pair (r1 r2 : Z) : Z :=
  if (0xD800 <=? r1) && (r1 <=? 0xDBFF) && (0xDC00 <=? r2) && (r2 <=? 0xDFFF)
  then (r1 - 0xD800) * 1024 + (r2 - 0xDC00) + 0x10000 else RuneError.

Definition unescape (b : byte) : option byte :=
  let y := byte_val b in
  if (y =? 0x22) || (y =? 0x5C) || (y =? 0x2F) then Some b
  else if y =? 0x62 then Some x08
  else if y =? 0x66 then Some x0c
  else if y =? 0x6E then Some x0a
  else if y =? 0x72 then Some x0d
  else if y =? 0x74 then Some x09
  else None.

(** The rest of a string literal after the opening quote: its value and what
    follows the closing quote. *)
Fixpoint unquote_loop (fuel : nat) (s : bytes) : option (bytes * bytes) :=
  match fuel, s with
  | S f, b :: s' =>
      let emit (out : bytes) (k : bytes) := '(d, r) ← unquote_loop f k; Some (out ++ d, r) in
      let x := byte_val b in
      if x =? 0x22 then Some ([], s')
      else if x =? 0x5C then
        match s' with
        | [] => None
        | c :: s2 =>
            if byte_val c =? 0x75 then
              rr ← getu4 s2;
              let s3 := drop 4 s2 in
              if is_surrogate rr then
                match getu4_esc s3 with
                | Some rr1 =>
                    if utf16_pair rr rr1 =? RuneError then emit (AppendRune RuneError) s3
                    else emit (AppendRune (utf16_pair rr rr1)) (drop 6 s3)
                | None => emit (AppendRune RuneError) s3
                end
              else emit (AppendRune rr) s3
            else
              z ← unescape c;
              emit [z] s2
        end
      else if x <? 0x20 then None
      else if x <? 0x80 then emit [b] s'
      else let '(c, size) := DecodeRune s in emit (AppendRune c) (drop size s)
  | _, _ => None
  end.

(** ** Values *)

(** A number keeps its literal: the decoder parses it for the field's type. *)
Inductive jval :=
  | JNull
  | JBool (b : bool)
  | JNum (lit : bytes)
  | JStr (s : bytes)
  | JArr (l : list jval)
  | JObj (l : list (bytes * jval)).

(** [json.Marshal]. *)
Definition sep (l : list bytes) : bytes :=
  match l with
  | [] => []
  | x :: l' => x ++ concat (map (λ y, str "," ++ y) l')
  end.

Fixpoint print (v : jval) : bytes :=
  match v with
  | JNull => str "null"
  | JBool true => str "true"
  | JBool false => str "false"
  | JNum lit => lit
  | JStr s => quote s
  | JArr l => str "[" ++ sep (map print l) ++ str "]"
  | JObj l => str "{" ++ sep (map (λ kv, quote kv.1 ++ str ":" ++ print kv.2) l) ++ str "}"
  end.

(** ** Parsing *)

Definition is_ws (b : byte) : bool :=
  let x := byte_val b in (x =? 0x20) || (x =? 0x09) || (x =? 0x0A) || (x =? 0x0D).

Fixpoint skip_ws (s : bytes) : bytes :=
  match s with b :: s' => if is_ws b then skip_ws s' else s | [] => [] end.

(** The digits at the head of [s]. *)
Fixpoint span_digits (s : bytes) : bytes * bytes :=
  match s with
  | b :: s' => if is_digit b then let '(d, r) := span_digits s' in (b :: d, r) else ([], s)
  | [] => ([], [])
  end.

Definition span_byte (p : byte → bool) (s : bytes) : bytes * bytes :=
  match s with b :: s' => if p b then ([b], s') else ([], s) | [] => ([], []) end.

Definition is_byte (z : Z) (b : byte) : bool := byte_val b =? z.

(** The fraction and the exponent of a number, possibly absent. *)
Definition parse_frac (s : bytes) : option (bytes * bytes) :=
  match s with
  | b :: s' =>
      if is_byte 0x2E b then
        match span_digits s' with ([], _) => None | (d, r) => Some (b :: d, r) end
      else Some ([], s)
  | [] => Some ([], s)
  end.

Definition parse_exp (s : bytes) : option (bytes * bytes) :=
  match s with
  | b :: s' =>
      if is_byte 0x65 b || is_byte 0x45 b then
        let '(sg, r1) := span_byte (λ c, is_byte 0x2B c || is_byte 0x2D c) s' in
        match span_digits r1 with ([], _) => None | (d, r) => Some (b :: sg ++ d, r) end
      else Some ([], s)
  | [] => Some ([], s)
  end.

(** The digits before them: a leading 0 stands alone. *)
Definition span_int (s : bytes) : bytes * bytes :=
  match s with
  | b :: s' => if is_byte 48 b then ([b], s') else span_digits s
  | [] => ([], [])
  end.

(** The number literal at the head of [s]. *)
Definition parse_num (s : bytes) : option (bytes * bytes) :=
  let '(sign, s1) := span_byte (is_byte 0x2D) s in
  let '(int, s2) := span_int s1 in
  if bool_decide (int = []) then None
  else
    '(frac, s3) ← parse_frac s2;
    '(exp, s4) ← parse_exp s3;
    Some (sign ++ int ++ frac ++ exp, s4).

Definition parse_lit (lit : bytes) (v : jval) (s : bytes) : option (jval * bytes) :=
  if has_prefix lit s then Some (v, drop (length lit) s) else None.

Definition maxNestingDepth : Z := 10000.

(** [depth] is the number of arrays and objects around the value. *)
Fixpoint parse_value (fuel : nat) (depth : Z) (s : bytes) : option (jval * bytes) :=
  match fuel with
  | O => None
  | S f =>
      match skip_ws s with
      | [] => None
      | b :: s' =>
          let x := byte_val b in
          if x =? 0x7B then
            if maxNestingDepth <=? depth then None
            else match skip_ws s' with
                 | c :: r => if is_byte 0x7D c then Some (JObj [], r)
                             else '(l, r) ← parse_members f (depth + 1) s'; Some (JObj l, r)
                 | [] => None
                 end
          else if x =? 0x5B then
            if maxNestingDepth <=? depth then None
            else match skip_ws s' with
                 | c :: r => if is_byte 0x5D c then Some (JArr [], r)
                             else '(l, r) ← parse_elems f (depth + 1) s'; Some (JArr l, r)
                 | [] => None
                 end
          else if x =? 0x22 then '(str', r) ← unquote_loop (length s') s'; Some (JStr str', r)
          else if x =? 0x74 then parse_lit (str "true") (JBool true) (b :: s')
          else if x =? 0x66 then parse_lit (str "false") (JBool false) (b :: s')
          else if x =? 0x6E then parse_lit (str "null") JNull (b :: s')
          else '(lit, r) ← parse_num (b :: s'); Some (JNum lit, r)
      end
  end
with parse_members (fuel : nat) (depth : Z) (s : bytes) : option (list (bytes * jval) * bytes) :=
  match fuel with
  | O => None
  | S f =>
      match skip_ws s with
      | [] => None
      | q :: s' =>
          if is_byte 0x22 q then
            '(k, r) ← unquote_loop (length s') s';
            match skip_ws r with
            | c :: r' =>
                if is_byte 0x3A c then
                  '(v, r2) ← parse_value f depth r';
                  match skip_ws r2 with
                  | e :: r3 =>
                      if is_byte 0x2C e then '(l, r4) ← parse_members f depth r3; Some ((k, v) :: l, r4)
                      else if is_byte 0x7D e then Some ([(k, v)], r3)
                      else None
                  | [] => None
                  end
                else None
            | [] => None
            end
          else None
      end
  end
with parse_elems (fuel : nat) (depth : Z) (s : bytes) : option (list jval * bytes) :=
  match fuel with
  | O => None
  | S f =>
      '(v, r) ← parse_value f depth s;
      match skip_ws r with
      | e :: r' =>
          if is_byte 0x2C e then '(l, r2) ← parse_elems f depth r'; Some (v :: l, r2)
          else if is_byte 0x5D e then Some ([v], r')
          else None
      | [] => None
      end
  end.

(** Two calls per byte are enough. *)
Definition parse (s : bytes) : option (jval * bytes) := parse_value (2 * length s + 1) 0 s.

(** ** Records *)

Definition to_upper (b : byte) : byte := if byte_in 97 122 b then byte_of (byte_val b - 32) else b.

(** [foldName], as far as it matters for names of ASCII letters: the Kelvin
    sign and the long s fold to [K] and [S]. *)
Fixpoint fold_name (s : bytes) : bytes :=
  match s with
  | xe2 :: x84 :: xaa :: s' => x4b :: fold_name s'
  | xc5 :: xbf :: s' => x53 :: fold_name s'
  | b :: s' => to_upper b :: fold_name s'
  | [] => []
  end.

(** The name of a field and how a value is stored in it. *)
Notation field A := (bytes * (jval → A → option A))%type.

Definition find_field {A} (fs : list (field A)) (key : bytes) : option (jval → A → option A) :=
  match List.find (λ f, bool_decide (f.1 = key)) fs with
  | Some f => Some f.2
  | None => snd <$> List.find (λ f, bool_decide (fold_name f.1 = fold_name key)) fs
  end.

(** Members without a field are ignored; a value of the wrong type is an error
    of the whole call. *)
Definition store_member {A} (fs : list (field A)) (acc : option A) (kv : bytes * jval) : option A :=
  a ← acc;
  match find_field fs kv.1 with Some set => set kv.2 a | None => Some a end.

Definition decode_val {A} (fs : list (field A)) (zero : A) (v : jval) : option A :=
  match v with
  | JNull => Some zero
  | JObj l => fold_left (store_member fs) l (Some zero)
  | _ => None
  end.

Definition errJSON : err := ErrText "json".

(** [json.NewDecoder(r).Decode]: the first value of the stream; [zero] is the
    record decoded into. *)
Definition Decode {A} (fs : list (field A)) (zero : A) (rd : reader) : result A :=
  match parse (r_data rd) with
  | Some (v, _) => match decode_val fs zero v with Some a => Ok a | None => Err errJSON end
  | None => Err errJSON
  end.

(** [json.Unmarshal]: nothing but white space may follow the value. *)
Definition Unmarshal {A} (fs : list (field A)) (zero : A) (data : bytes) : result A :=
  match parse data with
  | Some (v, r) =>
      match skip_ws r with
      | [] => match decode_val fs zero v with Some a => Ok a | None => Err errJSON end
      | _ => Err errJSON
      end
  | None => Err errJSON
  end.

(** ** Field types *)

(** [strconv.AppendInt] and [AppendUint]. *)
Definition jint (z : Z) : jval := JNum (fmt_pad 0 z).

Definition as_int (v : jval) : option (option Z) :=
  match v with
  | JNull => Some None
  | JNum lit => match ParseInt lit with (z, None) => Some (Some z) | _ => None end
  | _ => None
  end.

(** An unsigned integer of at most [bound]. *)
Definition as_uint (bound : Z) (v : jval) : option (option Z) :=
  match v with
  | JNull => Some None
  | JNum lit => match ParseUint lit with (z, None) => if bound <? z then None else Some (Some z) | _ => None end
  | _ => None
  end.

Definition as_string (v : jval) : option (option bytes) :=
  match v with JNull => Some None | JStr s => Some (Some s) | _ => None end.

Definition as_strings (v : jval) : option (option (list bytes)) :=
  match v with
  | JNull => Some (Some [])
  | JArr l => Some <$> mapM (λ x, default [] <$> as_string x) l
  | _ => None
  end.

(** A slice of records; a member occurs once in what the encoder writes. *)
Definition as_records {A} (fs : list (field A)) (zero : A) (v : jval) : option (option (list A)) :=
  match v with
  | JNull => Some (Some [])
  | JArr l => Some <$> mapM (decode_val fs zero) l
  | _ => None
  end.

(** A field of type [B]; [null] leaves it as it was. *)
Definition mk_field {A B} (name : string) (conv : jval → option (option B)) (set : B → A → A) : field A :=
  (str name, λ v a, o ← conv v; Some (match o with Some b => set b a | None => a end)).

(** A slice without elements was never appended to, so it is [nil]. *)
Definition jstrings (l : list bytes) : jval := match l with [] => JNull | _ => JArr (map JStr l) end.

Definition omitempty (name : string) (empty : bool) (v : jval) : list (bytes * jval) :=
  if empty then [] else [(str name, v)].
