(* ===== verification/JsonProps.v ===== *)
(** * Decoding JSON inverts encoding it

    Round trips for UTF-8 runes, string literals, numbers and nested values,
    and for the fields of records. *)

From S2P Require Import Prelude Bytes Decimal WalEntry Md5 Json.

(** ** Runes *)

Ltac split_decode :=
  repeat match goal with
  | |- context [if ?b then _ else _] => destruct b eqn:?
  | |- context [match ?l with [] => _ | _ :: _ => _ end] => destruct l eqn:?
  end.

Lemma byte_in_spec lo hi b : byte_in lo hi b = true ↔ lo ≤ byte_val b ≤ hi.
Proof. unfold byte_in. rewrite andb_true_iff, !Z.leb_le. done. Qed.

Lemma byte_of_eq z b : z = byte_val b → byte_of z = b.
Proof. intros ->. apply byte_of_val. Qed.

(** The widths of valid runes, and encoding their value gives the bytes back. *)
Lemma decode_append s c size :
  DecodeRune s = (c, size) → s ≠ [] → (c =? RuneError) && (size =? 1)%nat = false →
  AppendRune c = take size s ∧ (1 ≤ size ≤ length s)%nat.
Proof.
  destruct s as [|b0 s]; [done|]. intros Hd _ Hok. pose proof (byte_val_range b0). revert Hd. unfold DecodeRune.
  destruct (Z.ltb_spec (byte_val b0) 0x80).
  { intros [= <- <-]. unfold AppendRune. rewrite (proj2 (Z.ltb_lt _ _)) by lia. cbn. rewrite byte_of_val. split; [done|lia]. }
  destruct (_ || _) eqn:E1; [intros [= <- <-]; discriminate Hok|].
  apply orb_false_iff in E1 as [?%Z.ltb_ge ?%Z.ltb_ge].
  destruct s as [|b1 s]; [intros [= <- <-]; discriminate Hok|]. pose proof (byte_val_range b1).
  destruct (byte_in _ _ b1) eqn:E2; [|intros [= <- <-]; discriminate Hok]. cbn [negb].
  apply byte_in_spec in E2. unfold low6.
  assert (128 ≤ byte_val b1 ≤ 191) as Hb1 by (revert E2; repeat case_match; lia).
  destruct (Z.leb_spec (byte_val b0) 0xDF).
  { intros [= <- <-]. rewrite (proj2 (Z.eqb_neq _ 0xE0)), (proj2 (Z.eqb_neq _ 0xED)), (proj2 (Z.eqb_neq _ 0xF0)), (proj2 (Z.eqb_neq _ 0xF4)) in E2 by lia.
    unfold AppendRune. rewrite (proj2 (Z.ltb_ge _ 0x80)), (proj2 (Z.ltb_lt _ 0x800)) by lia. cbn. split; [|lia].
    f_equal; [|f_equal]; apply byte_of_eq; Z.div_mod_to_equations; lia. }
  destruct s as [|b2 s]; [intros [= <- <-]; discriminate Hok|]. pose proof (byte_val_range b2).
  destruct (byte_in _ _ b2) eqn:E3; [|intros [= <- <-]; discriminate Hok]. cbn [negb]. apply byte_in_spec in E3.
  destruct (Z.leb_spec (byte_val b0) 0xEF).
  { intros [= <- <-]. rewrite (proj2 (Z.eqb_neq _ 0xF0)), (proj2 (Z.eqb_neq _ 0xF4)) in E2 by lia.
    set (r := (byte_val b0 - 224) * 4096 + (byte_val b1 - 128) * 64 + (byte_val b2 - 128)).
    assert (0x800 ≤ r < 0x10000 ∧ ¬ (0xD800 ≤ r ≤ 0xDFFF)) as (? & ?).
    { subst r. revert E2. destruct (Z.eqb_spec (byte_val b0) 0xE0), (Z.eqb_spec (byte_val b0) 0xED); lia. }
    unfold AppendRune. rewrite (proj2 (Z.ltb_ge r 0x80)), (proj2 (Z.ltb_ge r 0x800)), (proj2 (Z.ltb_lt r 0x10000)) by lia.
    replace ((1114111 <? r) || (55296 <=? r) && (r <=? 57343)) with false by lia. cbn. split; [|lia].
    subst r. f_equal; [|f_equal; [|f_equal]]; apply byte_of_eq; clear E2 Hok; Z.div_mod_to_equations; lia. }
  destruct s as [|b3 s]; [intros [= <- <-]; discriminate Hok|]. pose proof (byte_val_range b3).
  destruct (byte_in _ _ b3) eqn:E4; [|intros [= <- <-]; discriminate Hok]. cbn [negb]. apply byte_in_spec in E4.
  intros [= <- <-]. rewrite (proj2 (Z.eqb_neq _ 0xE0)), (proj2 (Z.eqb_neq _ 0xED)) in E2 by lia.
  set (r := (byte_val b0 - 240) * 262144 + (byte_val b1 - 128) * 4096 + (byte_val b2 - 128) * 64 + (byte_val b3 - 128)).
  assert (0x10000 ≤ r ≤ 0x10FFFF) as [? ?].
  { subst r. revert E2. destruct (Z.eqb_spec (byte_val b0) 0xF0), (Z.eqb_spec (byte_val b0) 0xF4); lia. }
  unfold AppendRune. rewrite (proj2 (Z.ltb_ge r 0x80)), (proj2 (Z.ltb_ge r 0x800)), (proj2 (Z.ltb_ge r 0x10000)) by lia.
  replace ((1114111 <? r) || (55296 <=? r) && (r <=? 57343)) with false by lia. cbn. split; [|lia].
  subst r. f_equal; [|f_equal; [|f_equal; [|f_equal]]]; apply byte_of_eq; Z.div_mod_to_equations; lia.
Qed.

(** Only the bytes of the rune matter. *)
Lemma decode_more s c size k :
  DecodeRune s = (c, size) → s ≠ [] → (c =? RuneError) && (size =? 1)%nat = false →
  DecodeRune (take size s ++ k) = (c, size).
Proof.
  destruct s as [|b0 s]; [done|]. intros Hd _ Hok. revert Hd. unfold DecodeRune at 1.
  split_decode; intros [= <- <-]; try discriminate Hok; cbn [take app]; unfold DecodeRune;
    repeat match goal with H : _ = true |- _ => rewrite H | H : _ = false |- _ => rewrite H end; done.
Qed.

(** ** Strings *)

Definition emit (f : nat) (out k : bytes) : option (bytes * bytes) :=
  '(d, r) ← unquote_loop f k; Some (out ++ d, r).

Lemma unquote_escape f b k : byte_val b < 0x80 → unquote_loop (S f) (escape b ++ k) = emit f [b] k.
Proof. destruct b; try reflexivity; intros Hb; exfalso; revert Hb; apply Z.le_ngt; by vm_compute. Qed.

Lemma unquote_rune f s c size k :
  DecodeRune s = (c, size) → s ≠ [] → (c =? RuneError) && (size =? 1)%nat = false →
  (∃ b s', s = b :: s' ∧ 0x80 ≤ byte_val b) →
  unquote_loop (S f) (take size s ++ k) = emit f (take size s) k.
Proof.
  intros Hd Hne Hok (b & s' & -> & Hb). destruct (decode_append _ _ _ Hd Hne Hok) as [Ha Hs].
  pose proof (decode_more _ _ _ k Hd Hne Hok) as Hd'. destruct size as [|n]; [lia|]. cbn [take app] in *.
  cbn [unquote_loop]. rewrite (proj2 (Z.eqb_neq (byte_val b) 0x22)), (proj2 (Z.eqb_neq (byte_val b) 0x5C)) by lia.
  rewrite (proj2 (Z.ltb_ge (byte_val b) 0x20)), (proj2 (Z.ltb_ge (byte_val b) 0x80)) by lia. rewrite Hd', Ha.
  cbn [drop length] in *. rewrite drop_app_length' by (rewrite length_take; lia). done.
Qed.

Lemma unquote_line_sep f c k :
  c = 0x2028 ∨ c = 0x2029 → unquote_loop (S f) (str "\u202" ++ [hex_digit (c mod 16)] ++ k) = emit f (AppendRune c) k.
Proof. by intros [->| ->]. Qed.

Lemma length_escape b : (1 ≤ length (escape b))%nat.
Proof. unfold escape. repeat case_match; cbn; lia. Qed.

Lemma unquote_quote f : ∀ g s rest,
  (length s ≤ f)%nat → valid_loop f s = true → (length (quote_loop f s ++ quote_byte :: rest) ≤ g)%nat →
  unquote_loop g (quote_loop f s ++ quote_byte :: rest) = Some (s, rest).
Proof.
  induction f as [|f IH]; intros g s rest Hf Hv Hg.
  { destruct s; [|cbn in Hf; lia]. cbn in Hg |- *. destruct g; [lia|]. done. }
  destruct s as [|b s]; [cbn in Hg |- *; destruct g; [lia|]; done|].
  cbn [valid_loop] in Hv. destruct (DecodeRune (b :: s)) as [c size] eqn:Hd.
  destruct ((c =? RuneError) && (size =? 1)%nat) eqn:Hok; [done|].
  destruct (decode_append _ _ _ Hd ltac:(done) Hok) as [Ha Hs].
  cbn [quote_loop] in Hg |- *. destruct (Z.ltb_spec (byte_val b) 0x80) as [Hb|Hb].
  - assert (size = 1%nat) as ->.
    { revert Hd. cbn. rewrite (proj2 (Z.ltb_lt (byte_val b) 0x80)) by done. by intros [= _ <-]. }
    cbn [drop] in Hv. cbn in Hf. rewrite <- app_assoc in *. rewrite length_app in Hg. pose proof (length_escape b).
    destruct g as [|g]; [lia|]. rewrite unquote_escape by done. unfold emit. rewrite (IH g) by (done || lia). done.
  - rewrite Hd, Hok in Hg |- *. rewrite <- app_assoc in *. rewrite length_app in Hg.
    assert (length (drop size (b :: s)) ≤ f)%nat by (rewrite length_drop; cbn in *; lia).
    destruct ((c =? 0x2028) || (c =? 0x2029)) eqn:Hls.
    + rewrite <- app_assoc. rewrite length_app in Hg. cbn [length str String.list_byte_of_string] in Hg.
      destruct g as [|g]; [lia|]. rewrite unquote_line_sep by (apply orb_true_iff in Hls; lia).
      unfold emit. rewrite (IH g) by (done || (change (length (str "\u202")) with 5%nat in Hg; lia)).
      cbn. by rewrite Ha, take_drop.
    + rewrite length_take in Hg. destruct g as [|g]; [lia|].
      rewrite (unquote_rune g (b :: s) c size) by (done || eauto). unfold emit. rewrite (IH g) by (done || lia).
      cbn. by rewrite take_drop.
Qed.

Lemma unquote_quote_lit s rest :
  valid_utf8 s = true → let t := quote_loop (length s) s ++ quote_byte :: rest in unquote_loop (length t) t = Some (s, rest).
Proof. intros Hv. by apply unquote_quote. Qed.

(** ** Numbers *)

(** What may follow a number. *)
Definition num_end (r : bytes) : Prop :=
  match r with
  | [] => True
  | b :: _ => is_digit b = false ∧ is_byte 0x2E b = false ∧ is_byte 0x65 b = false ∧ is_byte 0x45 b = false
  end.

Lemma span_digits_all l r : Forall (λ b, is_digit b = true) l → num_end r → span_digits (l ++ r) = (l, r).
Proof.
  intros Hl Hr. induction Hl as [|b l Hb Hl IH]; cbn.
  - destruct r as [|b r]; [done|]. cbn. by rewrite (proj1 Hr).
  - by rewrite Hb, IH.
Qed.

Lemma ndigits_low f z : 0 < z → 10 ^ Z.of_nat (ndigits f z - 1) ≤ z.
Proof.
  revert z. induction f as [|f IH]; intros z Hz; cbn [ndigits]; [cbn; lia|].
  destruct (Z.ltb_spec z 10); [cbn; lia|]. cbn [Nat.sub]. rewrite Nat.sub_0_r.
  specialize (IH (z / 10) ltac:(apply Z.div_str_pos; lia)).
  assert (1 ≤ ndigits f (z / 10))%nat by (destruct f; cbn; [lia|case_match; lia]).
  replace (Z.of_nat (ndigits f (z / 10))) with (Z.succ (Z.of_nat (ndigits f (z / 10) - 1))) by lia.
  rewrite Z.pow_succ_r by lia. pose proof (Z.div_mod z 10). pose proof (Z.mod_pos_bound z 10). lia.
Qed.

(** A decimal is one digit, or starts with a digit other than 0. *)
Lemma dec_head z : 0 ≤ z ≤ max_uint64 → z = 0 ∨ ∃ b l, dec z = b :: l ∧ is_byte 48 b = false.
Proof.
  intros Hz. destruct (decide (z = 0)) as [|Hnz]; [by left|]. right. unfold dec.
  pose proof (ndigits_low 19 z ltac:(lia)) as Hlow.
  assert (z < 10 ^ Z.of_nat (ndigits 19 z)) as Hb by (apply ndigits_bound; unfold max_uint64 in Hz; cbn; lia).
  assert (1 ≤ ndigits 19 z)%nat as Hn by (cbn [ndigits]; case_match; lia).
  destruct (ndigits 19 z) as [|n] eqn:En; [lia|]. cbn [digits]. eexists _, _. split; [done|].
  rewrite Nat2Z.inj_succ, Z.pow_succ_r in Hb by lia. cbn [Nat.sub] in Hlow. rewrite Nat.sub_0_r in Hlow.
  set (p := 10 ^ Z.of_nat n) in *. assert (0 < p) by (apply Z.pow_pos_nonneg; lia).
  assert (1 ≤ z / p < 10) by (split; [apply Z.div_le_lower_bound|apply Z.div_lt_upper_bound]; lia).
  unfold is_byte. rewrite Z.mod_small, digit_val by lia. apply Z.eqb_neq. lia.
Qed.

Lemma is_digit_not z b : is_digit b = true → z < 48 ∨ 57 < z → is_byte z b = false.
Proof. unfold is_digit, is_byte. rewrite andb_true_iff, !Z.leb_le. intros ? ?. apply Z.eqb_neq. lia. Qed.

Lemma dec_digits z : 0 ≤ z ≤ max_uint64 → Forall (λ b, is_digit b = true) (dec z) ∧ dec z ≠ [].
Proof.
  intros Hz. split; [exact (pad0_all_digits 0 z Hz)|]. unfold dec. cbn [ndigits]. case_match; done.
Qed.

Lemma parse_frac_end r : num_end r → parse_frac r = Some ([], r).
Proof. destruct r as [|b r]; [done|]. intros (_ & E & _). cbn. by rewrite E. Qed.

Lemma parse_exp_end r : num_end r → parse_exp r = Some ([], r).
Proof. destruct r as [|b r]; [done|]. intros (_ & _ & E & E'). cbn. by rewrite E, E'. Qed.

Lemma span_int_dec z r : 0 ≤ z ≤ max_uint64 → num_end r → span_int (dec z ++ r) = (dec z, r).
Proof.
  intros Hz Hr. destruct (dec_digits z Hz) as [Hall _]. destruct (dec_head z Hz) as [->|(b & l & Hd & Hb)]; [done|].
  rewrite Hd in *. cbn [app span_int]. rewrite Hb. by apply (span_digits_all (b :: l)).
Qed.

Lemma parse_num_dec sign z r s :
  0 ≤ z ≤ max_uint64 → num_end r → span_byte (is_byte 0x2D) s = (sign, dec z ++ r) →
  parse_num s = Some (sign ++ dec z, r).
Proof.
  intros Hz Hr Hs. unfold parse_num. rewrite Hs, span_int_dec by done.
  rewrite bool_decide_eq_false_2 by apply (dec_digits z Hz).
  rewrite parse_frac_end by done. cbn [mbind option_bind]. rewrite parse_exp_end by done.
  cbn [mbind option_bind]. by rewrite app_nil_r.
Qed.

Lemma parse_num_int z r : is_i64 z ∨ is_u64 z → num_end r → parse_num (fmt_pad 0 z ++ r) = Some (fmt_pad 0 z, r).
Proof.
  intros Hz Hr. unfold is_i64, is_u64 in Hz. unfold fmt_pad. destruct (Z.ltb_spec z 0).
  - change (pad0 (0 - 1) (dec (- z))) with (dec (- z)). apply (parse_num_dec (str "-") (- z)); [unfold max_uint64; lia|done..].
  - change (pad0 0 (dec z)) with (dec z). apply (parse_num_dec [] z); [unfold max_uint64; lia|done|].
    destruct (dec_digits z) as [Hall Hne]; [unfold max_uint64; lia|]. destruct (dec z) as [|b l]; [done|].
    inversion_clear Hall as [|? ? Hb _]. cbn. by rewrite (is_digit_not 45) by (done || lia).
Qed.

(** ** Values *)

(** The values the encoder produces, nested at most [d] deep. *)
Inductive jwf : Z → jval → Prop :=
  | wf_null d : jwf d JNull
  | wf_bool d b : jwf d (JBool b)
  | wf_int d z : is_i64 z ∨ is_u64 z → jwf d (jint z)
  | wf_str d s : valid_utf8 s = true → jwf d (JStr s)
  | wf_arr d l : 0 < d → Forall (jwf (d - 1)) l → jwf d (JArr l)
  | wf_obj d l : 0 < d → Forall (λ kv, valid_utf8 kv.1 = true ∧ jwf (d - 1) kv.2) l → jwf d (JObj l).

Lemma fmt_pad_head z : is_i64 z ∨ is_u64 z → ∃ b l, fmt_pad 0 z = b :: l ∧ (is_digit b = true ∨ b = x2d).
Proof.
  intros Hz. unfold is_i64, is_u64 in Hz. unfold fmt_pad. destruct (Z.ltb_spec z 0).
  - eexists x2d, _. split; [done|]. by right.
  - destruct (dec_digits z) as [Hall Hne]; [unfold max_uint64; lia|]. change (pad0 0 (dec z)) with (dec z).
    destruct (dec z) as [|b l]; [done|]. exists b, l. split; [done|]. left. by inversion Hall.
Qed.

Lemma digit_not_ws b : is_digit b = true ∨ b = x2d → is_ws b = false.
Proof.
  intros [Hb| ->]; [|done]. unfold is_digit, is_ws in *. rewrite andb_true_iff, !Z.leb_le in Hb.
  rewrite !orb_false_iff, !Z.eqb_neq. lia.
Qed.

(** A printed value starts with a character that is no white space and closes
    no array. *)
Lemma print_head d v : jwf d v → ∃ b l, print v = b :: l ∧ is_ws b = false ∧ is_byte 0x5D b = false.
Proof.
  destruct 1 as [|d []|d z Hz|d s|d l|d l]; try (eexists _, _; split; [reflexivity|done]).
  destruct (fmt_pad_head z Hz) as (b & l & Hf & Hb). exists b, l. split; [done|]. split; [by apply digit_not_ws|].
  destruct Hb as [Hb| ->]; [|done]. apply is_digit_not; [done|lia].
Qed.

Lemma skip_ws_head b l : is_ws b = false → skip_ws (b :: l) = b :: l.
Proof. intros Hb. cbn. by rewrite Hb. Qed.

Lemma print_length d v : jwf d v → (1 ≤ length (print v))%nat.
Proof. intros (b & l & -> & _)%print_head. cbn. lia. Qed.

Lemma parse_value_num f d z r :
  is_i64 z ∨ is_u64 z → num_end r → parse_value (S f) d (fmt_pad 0 z ++ r) = Some (jint z, r).
Proof.
  intros Hz Hr. pose proof (parse_num_int z r Hz Hr) as Hp. destruct (fmt_pad_head z Hz) as (b & l & Hf & Hb).
  unfold jint. rewrite Hf in *. cbn [app parse_value] in *. rewrite skip_ws_head by by apply digit_not_ws.
  assert (∀ x, x < 45 ∨ 57 < x → (byte_val b =? x) = false) as Hne.
  { intros x Hx. destruct Hb as [Hb| ->]; [apply is_digit_not; [done|lia]|apply Z.eqb_neq; vm_compute byte_val; lia]. }
  rewrite !Hne by lia. by rewrite Hp.
Qed.

Lemma parse_value_str f d s r :
  valid_utf8 s = true → parse_value (S f) d (quote s ++ r) = Some (JStr s, r).
Proof.
  intros Hs. unfold quote. cbn [app parse_value]. rewrite <- app_assoc. cbn [app].
  rewrite skip_ws_head by done. change (byte_val quote_byte) with 0x22. cbv iota beta.
  change (0x22 =? 0x7B) with false. change (0x22 =? 0x5B) with false. change (0x22 =? 0x22) with true. cbv iota.
  by rewrite (unquote_quote_lit s r Hs).
Qed.

(** The body of an array or object after its opening bracket. *)
Lemma sep_cons (x y : bytes) l : sep (x :: y :: l) = x ++ str "," ++ sep (y :: l).
Proof. done. Qed.

Definition member (kv : bytes * jval) : bytes := quote kv.1 ++ str ":" ++ print kv.2.

Definition parse_ok (n : nat) : Prop := ∀ v d rest,
  (2 * length (print v) ≤ n)%nat → jwf (maxNestingDepth - d) v → num_end rest →
  parse_value n d (print v ++ rest) = Some (v, rest).

Lemma parse_elems_ok n :
  (∀ m, (m < n)%nat → parse_ok m) → ∀ l d rest,
  l ≠ [] → (2 * length (sep (map print l)) + 1 ≤ n)%nat → Forall (jwf (maxNestingDepth - d)) l →
  parse_elems n d (sep (map print l) ++ str "]" ++ rest) = Some (l, rest).
Proof.
  induction n as [n IH] using lt_wf_ind. intros HP l d rest Hne Hn Hl. destruct l as [|v l]; [done|].
  inversion_clear Hl as [|? ? Hv Hl']. destruct n as [|n]; [lia|]. destruct l as [|w l].
  - cbn [map sep concat] in *. rewrite app_nil_r in *. cbn [parse_elems].
    rewrite (HP n) by (done || lia). done.
  - cbn [map] in *. rewrite sep_cons in *. rewrite <- !app_assoc. rewrite !length_app in Hn.
    cbn [parse_elems]. rewrite (HP n) by (done || lia). cbn [mbind option_bind].
    change (str "," ++ ?x) with (x2c :: x) at 1. rewrite skip_ws_head by done.
    change (is_byte 44 x2c) with true. cbv iota. change (length (str ",")) with 1%nat in Hn.
    rewrite (IH n ltac:(lia) ltac:(intros; apply HP; lia) (w :: l)) by (done || (cbn [map]; lia)). done.
Qed.

Lemma parse_members_ok n :
  (∀ m, (m < n)%nat → parse_ok m) → ∀ l d rest,
  l ≠ [] → (2 * length (sep (map member l)) + 1 ≤ n)%nat →
  Forall (λ kv, valid_utf8 kv.1 = true ∧ jwf (maxNestingDepth - d) kv.2) l →
  parse_members n d (sep (map member l) ++ str "}" ++ rest) = Some (l, rest).
Proof.
  induction n as [n IH] using lt_wf_ind. intros HP l d rest Hne Hn Hl. destruct l as [|[k v] l]; [done|].
  inversion_clear Hl as [|? ? [Hk Hv] Hl']. cbn [fst snd] in Hk, Hv. destruct n as [|n]; [lia|].
  assert (∀ t, parse_members (S n) d (member (k, v) ++ t) =
    '(v', r2) ← parse_value n d (print v ++ t);
    match skip_ws r2 with
    | e :: r3 =>
        if is_byte 0x2C e then '(l, r4) ← parse_members n d r3; Some ((k, v') :: l, r4)
        else if is_byte 0x7D e then Some ([(k, v')], r3) else None
    | [] => None
    end) as Hstep.
  { intros t. unfold member, quote. cbn [fst snd app]. rewrite <- !app_assoc. cbn [app parse_members].
    rewrite skip_ws_head by done. change (is_byte 34 quote_byte) with true. cbv iota.
    change (str ":" ++ print v ++ t) with (x3a :: print v ++ t).
    rewrite (unquote_quote_lit k (x3a :: print v ++ t) Hk). cbn [mbind option_bind].
    rewrite skip_ws_head by done. change (is_byte 58 x3a) with true. done. }
  destruct l as [|w l].
  - cbn [map sep concat] in *. rewrite app_nil_r in *. unfold member in Hn. rewrite !length_app in Hn.
    rewrite Hstep, (HP n) by (done || (cbn [fst snd] in *; lia)). done.
  - cbn [map] in *. rewrite sep_cons in *. rewrite <- !app_assoc. rewrite !length_app in Hn.
    assert (length (print v) ≤ length (member (k, v)))%nat by (unfold member; rewrite !length_app; cbn [snd]; lia).
    rewrite Hstep, (HP n) by (done || lia). cbn [mbind option_bind].
    change (str "," ++ ?x) with (x2c :: x) at 1. rewrite skip_ws_head by done.
    change (is_byte 44 x2c) with true. cbv iota. change (length (str ",")) with 1%nat in Hn.
    rewrite (IH n ltac:(lia) ltac:(intros; apply HP; lia) (w :: l)) by (done || (cbn [map]; lia)). done.
Qed.

Lemma parse_value_ok n : parse_ok n.
Proof.
  induction n as [n IH] using lt_wf_ind. intros v d rest Hn Hv Hr.
  pose proof (print_length _ _ Hv) as Hlen. destruct n as [|n]; [lia|].
  remember (maxNestingDepth - d) as d' eqn:Hd'. destruct Hv as [|d' []|d' z Hz|d' s Hs|d' l Hpos Hl|d' l Hpos Hl].
  1, 2, 3: done.
  - by apply parse_value_num.
  - by apply parse_value_str.
  - cbn [print] in *. rewrite <- !app_assoc. change (str "[" ++ ?x) with (x5b :: x). cbn [parse_value].
    rewrite skip_ws_head by done. change (byte_val x5b =? 123) with false. change (byte_val x5b =? 91) with true.
    cbv iota zeta. rewrite (proj2 (Z.leb_gt maxNestingDepth d)) by lia. destruct l as [|v l]; [done|].
    pose proof Hl as Hl0. inversion_clear Hl0 as [|? ? Hv _]. destruct (print_head _ _ Hv) as (b & t & Hp & Hws & Hb).
    rewrite !length_app in Hn. change (length (str "[")) with 1%nat in Hn. change (length (str "]")) with 1%nat in Hn.
    rewrite (parse_elems_ok n) by (done || (intros; apply IH; lia) || lia || (replace (maxNestingDepth - (d + 1)) with (d' - 1) by lia; done)).
    cbn [map sep]. rewrite Hp. cbn [app]. rewrite skip_ws_head by done. by rewrite Hb.
  - cbn [print] in *. rewrite <- !app_assoc. change (str "{" ++ ?x) with (x7b :: x). cbn [parse_value].
    rewrite skip_ws_head by done. change (byte_val x7b =? 123) with true.
    cbv iota zeta. rewrite (proj2 (Z.leb_gt maxNestingDepth d)) by lia. destruct l as [|[k v] l]; [done|].
    rewrite !length_app in Hn. change (length (str "{")) with 1%nat in Hn. change (length (str "}")) with 1%nat in Hn.
    fold member in *.
    rewrite (parse_members_ok n) by (done || (intros; apply IH; lia) || lia || (replace (maxNestingDepth - (d + 1)) with (d' - 1) by lia; done)).
    done.
Qed.

(** Parsing inverts printing. *)
Theorem parse_print v : jwf maxNestingDepth v → parse (print v) = Some (v, []).
Proof.
  intros Hv. unfold parse. rewrite <- (app_nil_r (print v)) at 2. apply parse_value_ok; [lia|by rewrite Z.sub_0_r|done].
Qed.

Lemma Decode_print {A} (fs : list (field A)) zero v a :
  jwf maxNestingDepth v → decode_val fs zero v = Some a → Decode fs zero (mkReader (print v) ErrEOF) = Ok a.
Proof. intros Hv Ha. unfold Decode. cbn [r_data]. by rewrite parse_print, Ha. Qed.

Lemma Unmarshal_print {A} (fs : list (field A)) zero v a :
  jwf maxNestingDepth v → decode_val fs zero v = Some a → Unmarshal fs zero (print v) = Ok a.
Proof. intros Hv Ha. unfold Unmarshal. by rewrite parse_print, Ha. Qed.

(** ** Fields *)

Lemma as_int_jint z : is_i64 z → as_int (jint z) = Some (Some z).
Proof. intros Hz. unfold as_int, jint. by rewrite ParseInt_fmt_pad. Qed.

Lemma as_uint_jint bound z : 0 ≤ z ≤ bound → is_u64 z → as_uint bound (jint z) = Some (Some z).
Proof.
  intros Hb Hz. unfold as_uint, jint, fmt_pad. unfold is_u64 in Hz. rewrite (proj2 (Z.ltb_ge z 0)) by lia.
  rewrite ParseUint_pad0 by (unfold max_uint64; lia). by rewrite (proj2 (Z.ltb_ge bound z)) by lia.
Qed.

Lemma as_strings_jstrings l : as_strings (jstrings l) = Some (Some l).
Proof.
  destruct l as [|s l]; [done|]. unfold jstrings, as_strings.
  assert (∀ k, mapM (λ x, default [] <$> as_string x) (map JStr k) = Some k) as Hm.
  { induction k as [|x k IH]; [done|]. cbn. cbn in IH. by rewrite IH. }
  by rewrite Hm.
Qed.

Lemma jwf_strings d l : 0 < d → Forall (λ s, valid_utf8 s = true) l → jwf d (jstrings l).
Proof.
  intros Hd Hl. destruct l as [|s l]; [constructor|]. constructor; [done|]. apply Forall_map.
  eapply Forall_impl; [exact Hl|]. intros x Hx. by constructor.
Qed.

(** ** The fuel of the parser is enough *)

Lemma decode_size s : s ≠ [] → (1 ≤ (DecodeRune s).2)%nat.
Proof. destruct s as [|b s]; [done|]. intros _. unfold DecodeRune. repeat case_match; cbn; lia. Qed.

Lemma emit_mono (P : bytes → option (bytes * bytes)) (Q : bytes → option (bytes * bytes)) out k :
  P k = Q k → ('(d, r) ← P k; Some (out ++ d, r)) = '(d, r) ← Q k; Some (out ++ d, r).
Proof. by intros ->. Qed.

Lemma unquote_fuel n : ∀ m s, (length s ≤ n)%nat → (n ≤ m)%nat → unquote_loop m s = unquote_loop n s.
Proof.
  induction n as [|n IH]; intros m s Hs Hm.
  { destruct s; [|cbn in Hs; lia]. by destruct m. }
  destruct m as [|m]; [lia|]. destruct s as [|b s]; [done|]. cbn in Hs. cbn [unquote_loop].
  pose proof (decode_size (b :: s) ltac:(done)) as Hd. destruct (DecodeRune (b :: s)) as [c size]. cbn in Hd.
  assert (∀ out k, (length k ≤ length s)%nat →
    ('(d, r) ← unquote_loop m k; Some (out ++ d, r)) = '(d, r) ← unquote_loop n k; Some (out ++ d, r)) as He
    by (intros out k Hk; apply emit_mono, IH; lia).
  destruct (_ =? 34); [done|]. destruct (_ =? 92).
  - destruct s as [|x s2]; [done|]. destruct (_ =? 117).
    + destruct (getu4 s2) as [rr|]; [|done]. cbn [mbind option_bind].
      destruct (is_surrogate rr); [destruct (getu4_esc _); [destruct (_ =? RuneError)|]|]; apply He; rewrite !length_drop; cbn; lia.
    + destruct (unescape x); [|done]. cbn [mbind option_bind]. apply He. cbn. lia.
  - destruct (_ <? 32); [done|]. destruct (_ <? 128); apply He; [lia|]. rewrite length_drop. cbn. lia.
Qed.

Lemma unquote_shorter n : ∀ s d r, unquote_loop n s = Some (d, r) → (length r < length s)%nat.
Proof.
  induction n as [|n IH]; intros s d r; [done|]. destruct s as [|b s]; [done|]. cbn [unquote_loop length].
  pose proof (decode_size (b :: s) ltac:(done)) as Hd. destruct (DecodeRune (b :: s)) as [c size]. cbn in Hd.
  assert (∀ out k, (length k ≤ length s)%nat → ('(d, r) ← unquote_loop n k; Some (out ++ d, r)) = Some (d, r) →
    (length r < S (length s))%nat) as He.
  { intros out k Hk. destruct (unquote_loop n k) as [[d' r']|] eqn:E; [|done]. intros [= <- <-]. apply IH in E. lia. }
  destruct (_ =? 34); [intros [= <- <-]; lia|]. destruct (_ =? 92).
  - destruct s as [|x s2]; [done|]. destruct (_ =? 117).
    + destruct (getu4 s2) as [rr|]; [|done]. cbn [mbind option_bind].
      destruct (is_surrogate rr); [destruct (getu4_esc _); [destruct (_ =? RuneError)|]|]; apply He; rewrite !length_drop; cbn; lia.
    + destruct (unescape x); [|done]. cbn [mbind option_bind]. apply He. cbn. lia.
  - destruct (_ <? 32); [done|]. destruct (_ <? 128); apply He; [lia|]. rewrite length_drop. cbn. lia.
Qed.

Lemma skip_ws_length s : (length (skip_ws s) ≤ length s)%nat.
Proof. induction s as [|b s IH]; cbn; [done|]. destruct (is_ws b); cbn; lia. Qed.

Lemma span_digits_app s : s = (span_digits s).1 ++ (span_digits s).2.
Proof.
  induction s as [|b s IH]; [done|]. cbn. destruct (is_digit b); [|done].
  destruct (span_digits s) as [d r]. cbn in *. by rewrite IH at 1.
Qed.

Lemma span_byte_app p s : s = (span_byte p s).1 ++ (span_byte p s).2.
Proof. destruct s as [|b s]; cbn; [done|]. by destruct (p b). Qed.

Lemma parse_frac_length s f r : parse_frac s = Some (f, r) → (length r ≤ length s)%nat.
Proof.
  destruct s as [|b s]; cbn; [by intros [= <- <-]|]. pose proof (f_equal length (span_digits_app s)) as Hl.
  rewrite length_app in Hl. destruct (is_byte 46 b); [|by intros [= <- <-]].
  destruct (span_digits s) as [[|x d] k]; [done|]. intros [= <- <-]. cbn in Hl. lia.
Qed.

Lemma parse_exp_length s e r : parse_exp s = Some (e, r) → (length r ≤ length s)%nat.
Proof.
  destruct s as [|b s]; cbn; [by intros [= <- <-]|]. destruct (_ || _); [|by intros [= <- <-]].
  pose proof (f_equal length (span_byte_app (λ c, is_byte 43 c || is_byte 45 c) s)) as Hl. rewrite length_app in Hl.
  destruct (span_byte _ s) as [sg k]. pose proof (f_equal length (span_digits_app k)) as Hl2. rewrite length_app in Hl2.
  destruct (span_digits k) as [[|x d] k']; [done|]. intros [= <- <-]. cbn in *. lia.
Qed.

Lemma span_int_length s i r : span_int s = (i, r) → i ≠ [] → (length r < length s)%nat.
Proof.
  destruct s as [|b s]; cbn [span_int]; [by intros [= <- <-]|]. destruct (is_byte 48 b); [intros [= <- <-]; cbn; lia|].
  intros Hs Hi. pose proof (f_equal length (span_digits_app (b :: s))) as Hl. rewrite Hs, length_app in Hl.
  destruct i; [done|]. cbn in Hl. cbn. lia.
Qed.

Lemma parse_num_shorter s l r : parse_num s = Some (l, r) → (length r < length s)%nat.
Proof.
  unfold parse_num. pose proof (f_equal length (span_byte_app (is_byte 45) s)) as Hl. rewrite length_app in Hl.
  destruct (span_byte _ s) as [sg s1]. destruct (span_int s1) as [i s2] eqn:Ei. case_bool_decide as Hi; [done|].
  apply span_int_length in Ei; [|done]. destruct (parse_frac s2) as [[f s3]|] eqn:Ef; [|done].
  apply parse_frac_length in Ef. cbn [mbind option_bind]. destruct (parse_exp s3) as [[e s4]|] eqn:Ee; [|done].
  apply parse_exp_length in Ee. cbn [mbind option_bind]. intros [= <- <-]. cbn in *. lia.
Qed.

Lemma parse_lit_shorter lit v s w r : lit ≠ [] → parse_lit lit v s = Some (w, r) → (length r < length s)%nat.
Proof.
  unfold parse_lit. destruct (has_prefix lit s) eqn:Hp; [|done]. apply has_prefix_spec in Hp as [t ->].
  intros Hne [= <- <-]. rewrite drop_app_length, length_app. destruct lit; [done|]. cbn. lia.
Qed.

Lemma parse_shorter n :
  (∀ d s v r, parse_value n d s = Some (v, r) → (length r < length s)%nat) ∧
  (∀ d s l r, parse_members n d s = Some (l, r) → (length r < length s)%nat) ∧
  (∀ d s l r, parse_elems n d s = Some (l, r) → (length r < length s)%nat).
Proof.
  induction n as [|n (IHv & IHm & IHe)]; [done|]. split_and!; intros d s v r.
  - cbn [parse_value]. pose proof (skip_ws_length s) as Hs. destruct (skip_ws s) as [|b s1]; [done|]. cbn in Hs.
    pose proof (skip_ws_length s1) as Hs1.
    destruct (_ =? 123); [|destruct (_ =? 91); [|destruct (_ =? 34); [|destruct (_ =? 116); [|destruct (_ =? 102); [|destruct (_ =? 110)]]]]].
    + destruct (_ <=? _); [done|]. destruct (skip_ws s1) as [|c r1]; [done|]. cbn in Hs1.
      destruct (is_byte _ c); [intros [= <- <-]; lia|].
      destruct (parse_members n (d + 1) s1) as [[l r2]|] eqn:E; [|done]. intros [= <- <-]. apply IHm in E. lia.
    + destruct (_ <=? _); [done|]. destruct (skip_ws s1) as [|c r1]; [done|]. cbn in Hs1.
      destruct (is_byte _ c); [intros [= <- <-]; lia|].
      destruct (parse_elems n (d + 1) s1) as [[l r2]|] eqn:E; [|done]. intros [= <- <-]. apply IHe in E. lia.
    + destruct (unquote_loop _ s1) as [[t r1]|] eqn:E; [|done]. intros [= <- <-]. apply unquote_shorter in E. lia.
    + intros H%parse_lit_shorter; [cbn in H; lia|done].
    + intros H%parse_lit_shorter; [cbn in H; lia|done].
    + intros H%parse_lit_shorter; [cbn in H; lia|done].
    + destruct (parse_num _) as [[l r1]|] eqn:E; [|done]. intros [= <- <-]. apply parse_num_shorter in E. cbn in E. lia.
  - cbn [parse_members]. pose proof (skip_ws_length s) as Hs. destruct (skip_ws s) as [|b s1]; [done|]. cbn in Hs.
    destruct (is_byte 34 b); [|done]. destruct (unquote_loop _ s1) as [[t r1]|] eqn:E; [|done]. apply unquote_shorter in E.
    cbn [mbind option_bind]. pose proof (skip_ws_length r1) as Hr1. destruct (skip_ws r1) as [|c r2]; [done|]. cbn in Hr1.
    destruct (is_byte 58 c); [|done]. destruct (parse_value n d r2) as [[w r3]|] eqn:Ev; [|done]. apply IHv in Ev.
    cbn [mbind option_bind]. pose proof (skip_ws_length r3) as Hr3. destruct (skip_ws r3) as [|e r4]; [done|]. cbn in Hr3.
    destruct (is_byte 44 e).
    + destruct (parse_members n d r4) as [[l r5]|] eqn:Em; [|done]. apply IHm in Em. intros [= <- <-]. lia.
    + destruct (is_byte 125 e); [|done]. intros [= <- <-]. lia.
  - cbn [parse_elems]. destruct (parse_value n d s) as [[w r3]|] eqn:Ev; [|done]. apply IHv in Ev.
    cbn [mbind option_bind]. pose proof (skip_ws_length r3) as Hr3. destruct (skip_ws r3) as [|e r4]; [done|]. cbn in Hr3.
    destruct (is_byte 44 e).
    + destruct (parse_elems n d r4) as [[l r5]|] eqn:Em; [|done]. apply IHe in Em. intros [= <- <-]. lia.
    + destruct (is_byte 93 e); [|done]. intros [= <- <-]. lia.
Qed.

Lemma parse_fuel n : ∀ m, (n ≤ m)%nat →
  (∀ d s, (2 * length s + 1 ≤ n)%nat → parse_value m d s = parse_value n d s) ∧
  (∀ d s, (2 * length s + 2 ≤ n)%nat → parse_members m d s = parse_members n d s) ∧
  (∀ d s, (2 * length s + 2 ≤ n)%nat → parse_elems m d s = parse_elems n d s).
Proof.
  induction n as [|n IH]; intros m Hm; [split_and!; intros; lia|]. destruct m as [|m]; [lia|].
  destruct (IH m ltac:(lia)) as (IHv & IHm & IHe). destruct (parse_shorter n) as (Sv & Sm & Se).
  split_and!; intros d s Hs.
  - cbn [parse_value]. pose proof (skip_ws_length s) as Hk. destruct (skip_ws s) as [|b s1]; [done|]. cbn in Hk.
    pose proof (skip_ws_length s1) as Hs1. rewrite IHm, IHe by lia. done.
  - cbn [parse_members]. pose proof (skip_ws_length s) as Hk. destruct (skip_ws s) as [|b s1]; [done|]. cbn in Hk.
    destruct (is_byte 34 b); [|done]. destruct (unquote_loop _ s1) as [[t r1]|] eqn:E; [|done]. apply unquote_shorter in E.
    cbn [mbind option_bind]. pose proof (skip_ws_length r1) as Hr1. destruct (skip_ws r1) as [|c r2]; [done|]. cbn in Hr1.
    destruct (is_byte 58 c); [|done]. rewrite IHv by lia.
    destruct (parse_value n d r2) as [[w r3]|] eqn:Ev; [|done]. apply Sv in Ev.
    cbn [mbind option_bind]. pose proof (skip_ws_length r3) as Hr3. destruct (skip_ws r3) as [|e r4]; [done|]. cbn in Hr3.
    by rewrite IHm by lia.
  - cbn [parse_elems]. rewrite IHv by lia. destruct (parse_value n d s) as [[w r3]|] eqn:Ev; [|done]. apply Sv in Ev.
    cbn [mbind option_bind]. pose proof (skip_ws_length r3) as Hr3. destruct (skip_ws r3) as [|e r4]; [done|]. cbn in Hr3.
    by rewrite IHe by lia.
Qed.

(** More fuel never changes a result: [parse] fails only on a syntax error. *)
Theorem parse_enough s n : (2 * length s + 1 ≤ n)%nat → parse_value n 0 s = parse s.
Proof. intros Hn. by apply (parse_fuel (2 * length s + 1) n Hn). Qed.

(** ** Records *)

Lemma store_field {A B} (fs : list (field A)) k v l a name (conv : jval → option (option B)) set b :
  find_field fs k = Some (mk_field name conv set).2 → conv v = Some (Some b) →
  fold_left (store_member fs) ((k, v) :: l) (Some a) = fold_left (store_member fs) l (Some (set b a)).
Proof. intros Hf Hc. cbn [fold_left]. unfold store_member at 2. cbn [mbind option_bind fst snd]. rewrite Hf. cbn. by rewrite Hc. Qed.

(** Stores the members of a printed record one by one, simplifying the record
    after each. *)
Ltac store_fields_by simp :=
  repeat (erewrite store_field; [simp|reflexivity|first
    [ apply as_strings_jstrings | apply as_int_jint; assumption | reflexivity
    | apply as_uint_jint; [unfold is_u64, is_u32 in *; lia|unfold is_u64, is_u32 in *; lia] ]]).

Ltac store_fields := store_fields_by ltac:(idtac).

Ltac solve_jwf :=
  repeat match goal with
  | |- Forall _ (_ :: _) => constructor
  | |- Forall _ [] => constructor
  | |- _ ∧ _ => split
  | |- jwf _ JNull => constructor
  | |- jwf _ (JBool _) => constructor
  | |- jwf _ (JStr _) => apply wf_str
  | |- jwf _ (jint _) => apply wf_int
  | |- jwf _ (JObj _) => apply wf_obj
  | |- jwf _ (jstrings _) => apply jwf_strings
  | |- valid_utf8 (str _) = true => reflexivity
  | |- (0 < _)%Z => reflexivity
  | |- _ => progress cbn [fst snd]
  end; auto.

(** ** Input after the value does not matter

    A value that is complete in part of the input is the value of the whole
    input; only a number could go on. *)

Lemma decode_trunc s q : s ≠ [] → DecodeRune (s ++ q) = DecodeRune s ∨ Forall (λ b, 0x80 ≤ byte_val b) s.
Proof.
  destruct s as [|b0 s]; [done|]. intros _. cbn [app]. unfold DecodeRune.
  destruct (Z.ltb_spec (byte_val b0) 0x80); [by left|]. destruct (_ || _) eqn:E0; [by left|].
  set (lo := if byte_val b0 =? 224 then 160 else if byte_val b0 =? 240 then 144 else 128).
  set (hi := if byte_val b0 =? 237 then 159 else if byte_val b0 =? 244 then 143 else 191).
  assert (128 ≤ lo) as Hlo by (subst lo; repeat case_match; lia). clearbody lo hi.
  destruct s as [|b1 s]; [right; by repeat constructor|]. cbn [app].
  destruct (byte_in lo hi b1) eqn:E1; [|by left]. apply byte_in_spec in E1. cbn [negb].
  destruct (_ <=? 223); [by left|].
  destruct s as [|b2 s]; [right; repeat constructor; lia|]. cbn [app].
  destruct (byte_in 128 191 b2) eqn:E2; [|by left]. apply byte_in_spec in E2. cbn [negb].
  destruct (_ <=? 239); [by left|]. destruct s as [|b3 s]; [right; repeat constructor; lia|]. by left.
Qed.

Lemma unquote_high n : ∀ s, Forall (λ b, 0x80 ≤ byte_val b) s → unquote_loop n s = None.
Proof.
  induction n as [|n IH]; intros s Hs; [done|]. destruct s as [|b s]; [done|]. inversion_clear Hs as [|? ? Hb Hs'].
  cbn [unquote_loop]. rewrite (proj2 (Z.eqb_neq (byte_val b) 0x22)), (proj2 (Z.eqb_neq (byte_val b) 0x5C)) by lia.
  rewrite (proj2 (Z.ltb_ge (byte_val b) 0x20)), (proj2 (Z.ltb_ge (byte_val b) 0x80)) by lia.
  destruct (DecodeRune (b :: s)) as [c size]. rewrite IH; [done|]. apply Forall_drop. by constructor.
Qed.

Lemma getu4_more s q x : getu4 s = Some x → getu4 (s ++ q) = Some x ∧ drop 4 (s ++ q) = drop 4 s ++ q.
Proof. by destruct s as [|? [|? [|? [|? ?]]]]. Qed.

Lemma getu4_esc_more s q x : getu4_esc s = Some x → getu4_esc (s ++ q) = Some x ∧ drop 6 (s ++ q) = drop 6 s ++ q.
Proof.
  destruct s as [|a [|b s]]; [done..|]. cbn [getu4_esc app]. destruct (_ && _); [|done]. cbn [drop]. apply getu4_more.
Qed.

(** A surrogate that is not followed by a complete escape leaves one that
    cannot be read on its own. *)
Lemma getu4_esc_trunc n s q :
  getu4_esc s = None → is_Some (unquote_loop n s) → getu4_esc (s ++ q) = None.
Proof.
  destruct n as [|n]; [by intros ? []|]. destruct s as [|a s]; [by intros ? []|]. cbn [unquote_loop getu4_esc app].
  destruct (Z.eqb_spec (byte_val a) 0x5C) as [Ha|Ha].
  2:{ intros _ _. by destruct (s ++ q). }
  rewrite Ha. change (0x5C =? 0x22) with false. cbv iota. destruct s as [|b s]; [by intros ? []|]. cbn [app andb].
  destruct (byte_val b =? 117); [|done]. intros -> H. by destruct H.
Qed.

Lemma unquote_more n : ∀ m s d r q,
  unquote_loop n s = Some (d, r) → (n ≤ m)%nat → unquote_loop m (s ++ q) = Some (d, r ++ q).
Proof.
  induction n as [|n IH]; intros m s d r q Hu Hm; [done|]. destruct m as [|m]; [lia|].
  destruct s as [|b s]; [done|]. pose proof Hu as Hu0. revert Hu. cbn [unquote_loop app].
  assert (∀ out k d r, ('(d, r) ← unquote_loop n k; Some (out ++ d, r)) = Some (d, r) →
    ('(d, r) ← unquote_loop m (k ++ q); Some (out ++ d, r)) = Some (d, r ++ q)) as He.
  { intros out k d0 r0. destruct (unquote_loop n k) as [[d1 r1]|] eqn:E; [|done]. intros [= <- <-].
    by rewrite (IH m k d1 r1 q E) by lia. }
  destruct (_ =? 34); [by intros [= <- <-]|]. destruct (_ =? 92).
  - destruct s as [|x s2]; [done|]. cbn [app]. destruct (_ =? 117).
    + destruct (getu4 s2) as [rr|] eqn:E4; [|done]. apply (getu4_more s2 q) in E4 as [-> ->]. cbn [mbind option_bind].
      destruct (is_surrogate rr); [|apply He]. destruct (getu4_esc (drop 4 s2)) as [r1|] eqn:Ee.
      * apply (getu4_esc_more _ q) in Ee as [-> ->]. destruct (_ =? RuneError); apply He.
      * intros Hs. rewrite (getu4_esc_trunc n); [by apply He|done|].
        destruct (unquote_loop n (drop 4 s2)) as [[? ?]|]; [by eexists|done].
    + destruct (unescape x) as [z|]; [|done]. cbn [mbind option_bind]. apply (He [z]).
  - destruct (_ <? 32); [done|]. destruct (_ <? 128); [apply (He [b])|].
    destruct (decode_trunc (b :: s) q ltac:(done)) as [Heq|Hhigh].
    + change (b :: s ++ q) with ((b :: s) ++ q). rewrite Heq.
      pose proof (decode_size (b :: s) ltac:(done)) as Hsz.
      assert ((DecodeRune (b :: s)).2 ≤ length (b :: s))%nat as Hle by (unfold DecodeRune; repeat case_match; cbn; lia).
      destruct (DecodeRune (b :: s)) as [c size]. cbn [snd] in *. rewrite (drop_app_le _ _ size) by done. apply He.
    + intros _. rewrite unquote_high in Hu0; done.
Qed.

Lemma skip_ws_more s b t q : skip_ws s = b :: t → skip_ws (s ++ q) = b :: t ++ q.
Proof.
  induction s as [|x s IH]; [done|]. cbn. destruct (is_ws x); [done|]. by intros [= <- <-].
Qed.

Lemma span_digits_more s d r q : span_digits s = (d, r) → r ≠ [] → span_digits (s ++ q) = (d, r ++ q).
Proof.
  revert d. induction s as [|b s IH]; intros d; cbn; [by intros [= <- <-]|]. destruct (is_digit b); [|by intros [= <- <-]].
  destruct (span_digits s) as [d' r']. intros [= <- <-] Hr. by rewrite (IH d').
Qed.

Lemma span_byte_more p s d r q : span_byte p s = (d, r) → r ≠ [] → span_byte p (s ++ q) = (d, r ++ q).
Proof. destruct s as [|b s]; cbn; [by intros [= <- <-]|]. by destruct (p b); intros [= <- <-]. Qed.

Lemma parse_frac_more s d r q : parse_frac s = Some (d, r) → r ≠ [] → parse_frac (s ++ q) = Some (d, r ++ q) ∧ s ≠ [].
Proof.
  destruct s as [|b s]; cbn; [by intros [= <- <-]|]. intros H Hr. split; [|done]. revert H.
  destruct (is_byte 46 b); [|by intros [= <- <-]]. destruct (span_digits s) as [[|x d'] r'] eqn:E; [done|].
  intros [= <- <-]. by rewrite (span_digits_more s (x :: d') r' q E).
Qed.

Lemma parse_exp_more s d r q : parse_exp s = Some (d, r) → r ≠ [] → parse_exp (s ++ q) = Some (d, r ++ q) ∧ s ≠ [].
Proof.
  destruct s as [|b s]; cbn; [by intros [= <- <-]|]. intros H Hr. split; [|done]. revert H.
  destruct (_ || _); [|by intros [= <- <-]]. destruct (span_byte _ s) as [sg k] eqn:Eb.
  destruct (span_digits k) as [[|x d'] r'] eqn:E; [done|]. intros [= <- <-].
  assert (k ≠ []) as Hk by (intros ->; by injection E).
  rewrite (span_byte_more _ s sg k q Eb Hk). by rewrite (span_digits_more k (x :: d') r' q E).
Qed.

Lemma span_int_more s d r q : span_int s = (d, r) → r ≠ [] → span_int (s ++ q) = (d, r ++ q) ∧ s ≠ [].
Proof.
  destruct s as [|b s]; cbn [span_int]; [by intros [= <- <-]|]. intros H Hr. split; [|done]. revert H.
  cbn [app span_int]. destruct (is_byte 48 b); [by intros [= <- <-]|]. intros H.
  by apply (span_digits_more (b :: s) d r q).
Qed.

Lemma parse_num_more s l r q : parse_num s = Some (l, r) → r ≠ [] → parse_num (s ++ q) = Some (l, r ++ q).
Proof.
  unfold parse_num. destruct (span_byte _ s) as [sg s1] eqn:Eb. destruct (span_int s1) as [i s2] eqn:Ei.
  destruct (bool_decide (i = [])) eqn:Hi; [done|].
  destruct (parse_frac s2) as [[f s3]|] eqn:Ef; [|done]. cbn [mbind option_bind].
  destruct (parse_exp s3) as [[e s4]|] eqn:Ee; [|done]. cbn [mbind option_bind]. intros [= <- <-] Hr.
  destruct (parse_exp_more _ _ _ q Ee Hr) as [He H3]. destruct (parse_frac_more _ _ _ q Ef H3) as [Hf H2].
  destruct (span_int_more _ _ _ q Ei H2) as [Hs H1].
  rewrite (span_byte_more _ _ _ _ q Eb H1), Hs, Hi, Hf. cbn [mbind option_bind]. by rewrite He.
Qed.

Lemma parse_lit_more lit v s w r q : parse_lit lit v s = Some (w, r) → parse_lit lit v (s ++ q) = Some (w, r ++ q).
Proof.
  unfold parse_lit. destruct (has_prefix lit s) eqn:Hp; [|done]. apply has_prefix_spec in Hp as [t ->].
  intros [= <- <-]. rewrite (proj2 (has_prefix_spec _ _)) by (exists (t ++ q); by rewrite app_assoc).
  by rewrite <- app_assoc, !drop_app_length.
Qed.

Definition is_num (v : jval) : bool := match v with JNum _ => true | _ => false end.

Lemma parse_more n : ∀ m q, (n ≤ m)%nat →
  (∀ d s v r, parse_value n d s = Some (v, r) → (is_num v = true → r ≠ []) → parse_value m d (s ++ q) = Some (v, r ++ q)) ∧
  (∀ d s l r, parse_members n d s = Some (l, r) → parse_members m d (s ++ q) = Some (l, r ++ q)) ∧
  (∀ d s l r, parse_elems n d s = Some (l, r) → parse_elems m d (s ++ q) = Some (l, r ++ q)).
Proof.
  induction n as [|n IH]; intros m q Hm; [done|]. destruct m as [|m]; [lia|].
  destruct (IH m q ltac:(lia)) as (IHv & IHm & IHe). split_and!; intros d s v r.
  - cbn [parse_value]. destruct (skip_ws s) as [|b s1] eqn:Es; [done|]. rewrite (skip_ws_more _ _ _ q Es).
    destruct (_ =? 123); [|destruct (_ =? 91); [|destruct (_ =? 34); [|destruct (_ =? 116); [|destruct (_ =? 102); [|destruct (_ =? 110)]]]]].
    + destruct (_ <=? _); [done|]. destruct (skip_ws s1) as [|c r1] eqn:E1; [done|]. rewrite (skip_ws_more _ _ _ q E1).
      destruct (is_byte _ c); [by intros [= <- <-]|].
      destruct (parse_members n (d + 1) s1) as [[l r2]|] eqn:E; [|done]. intros [= <- <-] _. by rewrite (IHm _ _ _ _ E).
    + destruct (_ <=? _); [done|]. destruct (skip_ws s1) as [|c r1] eqn:E1; [done|]. rewrite (skip_ws_more _ _ _ q E1).
      destruct (is_byte _ c); [by intros [= <- <-]|].
      destruct (parse_elems n (d + 1) s1) as [[l r2]|] eqn:E; [|done]. intros [= <- <-] _. by rewrite (IHe _ _ _ _ E).
    + destruct (unquote_loop _ s1) as [[t r1]|] eqn:E; [|done]. intros [= <- <-] _.
      by rewrite (unquote_more _ (length (s1 ++ q)) _ _ _ q E) by (rewrite length_app; lia).
    + intros H _. by apply (parse_lit_more _ _ (b :: s1)).
    + intros H _. by apply (parse_lit_more _ _ (b :: s1)).
    + intros H _. by apply (parse_lit_more _ _ (b :: s1)).
    + destruct (parse_num (b :: s1)) as [[l r1]|] eqn:E; [|done]. intros [= <- <-] Hr.
      change (b :: s1 ++ q) with ((b :: s1) ++ q). by rewrite (parse_num_more _ _ _ q E) by by apply Hr.
  - cbn [parse_members]. destruct (skip_ws s) as [|b s1] eqn:Es; [done|]. rewrite (skip_ws_more _ _ _ q Es).
    destruct (is_byte 34 b); [|done]. destruct (unquote_loop _ s1) as [[t r1]|] eqn:E; [|done].
    rewrite (unquote_more _ (length (s1 ++ q)) _ _ _ q E) by (rewrite length_app; lia).
    cbn [mbind option_bind]. destruct (skip_ws r1) as [|c r2] eqn:E1; [done|]. rewrite (skip_ws_more _ _ _ q E1).
    destruct (is_byte 58 c); [|done]. destruct (parse_value n d r2) as [[w r3]|] eqn:Ev; [|done].
    cbn [mbind option_bind]. destruct (skip_ws r3) as [|e r4] eqn:E3; [done|].
    rewrite (IHv _ _ _ _ Ev) by (intros _ ->; done). cbn [mbind option_bind]. rewrite (skip_ws_more _ _ _ q E3).
    destruct (is_byte 44 e).
    + destruct (parse_members n d r4) as [[l r5]|] eqn:Em; [|done]. intros [= <- <-]. by rewrite (IHm _ _ _ _ Em).
    + destruct (is_byte 125 e); [|done]. by intros [= <- <-].
  - cbn [parse_elems]. destruct (parse_value n d s) as [[w r3]|] eqn:Ev; [|done].
    cbn [mbind option_bind]. destruct (skip_ws r3) as [|e r4] eqn:E3; [done|].
    rewrite (IHv _ _ _ _ Ev) by (intros _ ->; done). cbn [mbind option_bind]. rewrite (skip_ws_more _ _ _ q E3).
    destruct (is_byte 44 e).
    + destruct (parse_elems n d r4) as [[l r5]|] eqn:Em; [|done]. intros [= <- <-]. by rewrite (IHe _ _ _ _ Em).
    + destruct (is_byte 93 e); [|done]. by intros [= <- <-].
Qed.

(** A record decoded from the first bytes of an encoded one is that record. *)
Lemma Decode_prefix {A} (fs : list (field A)) zero v a rd b :
  jwf maxNestingDepth v → decode_val fs zero v = Some a → r_data rd `prefix_of` print v →
  Decode fs zero rd = Ok b → b = a.
Proof.
  intros Hv Ha [q Hq]. unfold Decode. destruct (parse (r_data rd)) as [[w r]|] eqn:Ep; [|done].
  destruct (is_num w) eqn:Hn; [by destruct w|].
  pose proof (parse_print v Hv) as Hp. unfold parse in Hp, Ep. rewrite Hq in Hp.
  destruct (parse_more (2 * length (r_data rd) + 1) (2 * length (r_data rd ++ q) + 1) q) as [Hm _]; [rewrite length_app; lia|].
  rewrite (Hm _ _ _ _ Ep) in Hp by (intros Hx; by rewrite Hn in Hx). injection Hp as -> _. rewrite Ha. by intros [= <-].
Qed.

(** ** ASCII *)

Definition ascii (s : bytes) : Prop := Forall (λ b, byte_val b < 0x80) s.

Lemma ascii_valid s : ascii s → valid_utf8 s = true.
Proof.
  unfold valid_utf8. generalize (length s) at 1 as f. intros f Hs. revert f.
  induction Hs as [|b s Hb Hs IH]; intros [|f]; [done..|]. cbn [valid_loop DecodeRune].
  rewrite (proj2 (Z.ltb_lt _ _) Hb). replace ((byte_val b =? RuneError) && (1 =? 1)%nat) with false; [apply IH|].
  symmetry. apply andb_false_iff. left. apply Z.eqb_neq. unfold RuneError. lia.
Qed.
