(* ===== verification/Object.v ===== *)
(** * Object storage

    pkg/object: the interfaces [Store] and [ConditionalStore] as type classes
    with the behaviour their documentation promises as laws, and the
    in-memory implementation (pkg/object/mem.go), which is proved to satisfy
    them.  The components that use object storage are proved against the
    laws; remote stores may fail at any call, and a failed write may or may
    not have taken effect. *)

From S2P Require Import Prelude Bytes WalEntry Os Md5.

(** ** The interface *)

Class ObjectStore (S : Type) : Type := {
  obj_Put : bytes → reader → ST S ();
  obj_Get : bytes → ST S reader;
  obj_Delete : bytes → ST S ();
  obj_DeleteMany : list bytes → ST S ();
  obj_List : bytes → ST S (list bytes) }.

Class ConditionalStore (S : Type) `{ObjectStore S} : Type := {
  obj_GetETag : bytes → ST S (reader * bytes);
  obj_PutIfAbsent : bytes → reader → ST S ();
  obj_PutIfMatch : bytes → reader → bytes → ST S () }.

(** The keys of [m] with prefix [p], in the order [List] returns them. *)
Definition listing (p : bytes) (m : gmap bytes bytes) (l : list bytes) : Prop :=
  StronglySorted bytes_lt l ∧ ∀ k, k ∈ l ↔ has_prefix p k = true ∧ is_Some (m !! k).

(** The body of an object: the bytes delivered are a prefix of it, and all of
    it when they end with [io.EOF]. *)
Definition body_of (rd : reader) (d : bytes) : Prop :=
  r_data rd `prefix_of` d ∧ (r_err rd = ErrEOF → r_data rd = d).

Class ObjectStoreOk (S : Type) `{ObjectStore S} : Type := {
  objects : S → gmap bytes bytes;
  obj_Put_law k r s res s' : obj_Put k r s = (res, s') →
    match res with
    | Ok _ => source_ended r ∧ objects s' = <[k := r_data r]> (objects s)
    | Err _ => objects s' = objects s ∨
               source_ended r ∧ objects s' = <[k := r_data r]> (objects s)
    end;
  obj_Get_law k s res s' : obj_Get k s = (res, s') →
    objects s' = objects s ∧
    match res with
    | Ok rd => ∃ d, objects s !! k = Some d ∧ body_of rd d
    | Err ErrNotFound => objects s !! k = None
    | Err _ => True
    end;
  obj_Delete_law k s res s' : obj_Delete k s = (res, s') →
    match res with
    | Ok _ => objects s' = delete k (objects s)
    | Err _ => objects s' = objects s ∨ objects s' = delete k (objects s)
    end;
  obj_DeleteMany_law ks s res s' : obj_DeleteMany ks s = (res, s') →
    ∀ k, (k ∉ ks → objects s' !! k = objects s !! k) ∧
         (k ∈ ks → objects s' !! k = None ∨ res ≠ Ok tt ∧ objects s' !! k = objects s !! k);
  obj_List_law p s res s' : obj_List p s = (res, s') →
    objects s' = objects s ∧
    match res with Ok l => listing p (objects s) l | Err _ => True end }.

(** Compare-and-swap on ETags. *)
Class ConditionalStoreOk (S : Type) `{ConditionalStore S} `{!ObjectStoreOk S} : Type := {
  etag_at : S → bytes → option bytes;
  obj_GetETag_law k s res s' : obj_GetETag k s = (res, s') →
    objects s' = objects s ∧ (∀ k', etag_at s' k' = etag_at s k') ∧
    match res with
    | Ok (rd, e) => etag_at s k = Some e ∧ ∃ d, objects s !! k = Some d ∧ body_of rd d
    | Err ErrNotFound => objects s !! k = None
    | Err _ => True
    end;
  obj_PutIfAbsent_law k r s res s' : obj_PutIfAbsent k r s = (res, s') →
    match res with
    | Ok _ => objects s !! k = None ∧ source_ended r ∧
              objects s' = <[k := r_data r]> (objects s)
    | Err ErrPreconditionFailed => objects s' = objects s
    | Err _ => objects s' = objects s ∨
               objects s !! k = None ∧ source_ended r ∧
               objects s' = <[k := r_data r]> (objects s)
    end;
  obj_PutIfMatch_law k r m s res s' : obj_PutIfMatch k r m s = (res, s') →
    match res with
    | Ok _ => etag_at s k = Some m ∧ is_Some (objects s !! k) ∧ source_ended r ∧
              objects s' = <[k := r_data r]> (objects s)
    | Err ErrPreconditionFailed => objects s' = objects s
    | Err _ => objects s' = objects s ∨
               etag_at s k = Some m ∧ is_Some (objects s !! k) ∧ source_ended r ∧
               objects s' = <[k := r_data r]> (objects s)
    end }.

(** ** The in-memory store *)

Record memObj := mkMemObj { mo_data : bytes; mo_etag : bytes }.
Notation Mem := (gmap bytes memObj).

Definition NewMem : Mem := ∅.
Definition memETag (data : bytes) : bytes := hex (md5 data).

(** [io.ReadAll(r)]. *)
Definition io_ReadAll {St : Type} (r : reader) : ST St bytes :=
  match r_err r with ErrEOF => mret (r_data r) | e => throw e end.

Definition mem_Put (key : bytes) (r : reader) : ST Mem () :=
  data ← io_ReadAll r;
  modify (insert key (mkMemObj data (memETag data))).

Definition mem_Get (key : bytes) : ST Mem reader := λ m,
  match m !! key with
  | Some o => (Ok (mkReader (mo_data o) ErrEOF), m)
  | None => (Err ErrNotFound, m)
  end.

Definition mem_GetETag (key : bytes) : ST Mem (reader * bytes) := λ m,
  match m !! key with
  | Some o => (Ok (mkReader (mo_data o) ErrEOF, mo_etag o), m)
  | None => (Err ErrNotFound, m)
  end.

Definition mem_PutIfAbsent (key : bytes) (r : reader) : ST Mem () :=
  data ← io_ReadAll r;
  m ← get_st;
  match m !! key with
  | Some _ => throw ErrPreconditionFailed
  | None => put_st (<[key := mkMemObj data (memETag data)]> m)
  end.

Definition mem_PutIfMatch (key : bytes) (r : reader) (matchETag : bytes) : ST Mem () :=
  data ← io_ReadAll r;
  m ← get_st;
  match m !! key with
  | Some o =>
      if negb (bool_decide (mo_etag o = matchETag)) then throw ErrPreconditionFailed
      else put_st (<[key := mkMemObj data (memETag data)]> m)
  | None => throw ErrPreconditionFailed
  end.

Definition mem_Delete (key : bytes) : ST Mem () := modify (delete key).

Definition mem_DeleteMany (keys : list bytes) : ST Mem () :=
  modify (λ m, fold_left (λ m k, delete k m) keys m).

Definition mem_List (prefix : bytes) : ST Mem (list bytes) :=
  m ← get_st;
  mret (sort_bytes (filter (λ k, has_prefix prefix k = true) (map fst (map_to_list m)))).

#[global] Instance mem_store : ObjectStore Mem :=
  {| obj_Put := mem_Put; obj_Get := mem_Get; obj_Delete := mem_Delete;
     obj_DeleteMany := mem_DeleteMany; obj_List := mem_List |}.

#[global] Instance mem_cond_store : ConditionalStore Mem :=
  {| obj_GetETag := mem_GetETag; obj_PutIfAbsent := mem_PutIfAbsent;
     obj_PutIfMatch := mem_PutIfMatch |}.

(** ** The in-memory store satisfies the interface *)

Definition mem_objects (m : Mem) : gmap bytes bytes := mo_data <$> m.

Lemma mem_objects_lookup m k : mem_objects m !! k = mo_data <$> m !! k.
Proof. apply lookup_fmap. Qed.

Lemma mem_objects_insert m k d t :
  mem_objects (<[k := mkMemObj d t]> m) = <[k := d]> (mem_objects m).
Proof. unfold mem_objects. by rewrite fmap_insert. Qed.

Lemma io_ReadAll_run {St : Type} r (s : St) res s' :
  io_ReadAll r s = (res, s') →
  s' = s ∧ (res = Ok (r_data r) ∧ r_err r = ErrEOF ∨ ∃ e, res = Err e ∧ r_err r ≠ ErrEOF).
Proof. unfold io_ReadAll. destruct (r_err r); intros [= <- <-]; naive_solver. Qed.

Lemma fold_delete_lookup {A} (ks : list bytes) (m : gmap bytes A) (k : bytes) :
  fold_left (λ m k, delete k m) ks m !! k = if bool_decide (k ∈ ks) then None else m !! k.
Proof.
  revert m. induction ks as [|k' ks IH]; intros m; cbn [fold_left].
  - by rewrite bool_decide_eq_false_2 by apply not_elem_of_nil.
  - rewrite IH. destruct (decide (k = k')) as [<-|Hne].
    + rewrite lookup_delete_eq, (bool_decide_eq_true_2 (k ∈ k :: ks)) by by left.
      by case_bool_decide.
    + rewrite lookup_delete_ne by done. 
      rewrite (bool_decide_ext (k ∈ k' :: ks) (k ∈ ks)); [done|].
      rewrite elem_of_cons. naive_solver.
Qed.

Lemma mem_listing p m :
  listing p (mem_objects m)
    (sort_bytes (filter (λ k, has_prefix p k = true) (map fst (map_to_list m)))).
Proof.
  split.
  - apply sort_bytes_strict, NoDup_filter, NoDup_fst_map_to_list.
  - intros k. rewrite sort_bytes_perm, list_elem_of_filter, mem_objects_lookup, fmap_is_Some.
    apply and_iff_compat_l. rewrite list_elem_of_In, in_map_iff. split.
    + intros ([k' o] & <- & H). apply list_elem_of_In, elem_of_map_to_list in H. eauto.
    + intros [o H]. exists (k, o). split; [done|]. by apply list_elem_of_In, elem_of_map_to_list.
Qed.

#[global] Program Instance mem_store_ok : ObjectStoreOk Mem := {| objects := mem_objects |}.
Next Obligation.
  intros k r s res s' H. cbn in H. unfold mem_Put, mbind, ST_bind in H.
  destruct (io_ReadAll r s) as [res1 s1] eqn:E.
  apply io_ReadAll_run in E as [-> [[-> He]|(e & -> & He)]]; injection H as <- <-; [|by left].
  split; [by left|]. apply mem_objects_insert.
Qed.
Next Obligation.
  intros k s res s' H. cbn in H. unfold mem_Get in H. rewrite mem_objects_lookup.
  destruct (s !! k) eqn:E; injection H as <- <-; [|done].
  split; [done|]. eexists. done.
Qed.
Next Obligation. intros k s res s' [= <- <-]. unfold mem_objects. by rewrite fmap_delete. Qed.
Next Obligation.
  intros ks s res s' [= <- <-] k. rewrite !mem_objects_lookup, fold_delete_lookup.
  case_bool_decide; naive_solver.
Qed.
Next Obligation. intros p s res s' [= <- <-]. split; [done|]. apply mem_listing. Qed.

#[global] Program Instance mem_cond_store_ok : ConditionalStoreOk Mem :=
  {| etag_at m k := mo_etag <$> m !! k |}.
Next Obligation.
  intros k s res s' H. cbn in H |- *. unfold mem_GetETag in H. rewrite mem_objects_lookup.
  destruct (s !! k) eqn:E; injection H as <- <-; [|done].
  do 3 (split; [done|]). eexists. done.
Qed.
Next Obligation.
  intros k r s res s' H. cbn in H |- *. unfold mem_PutIfAbsent, mbind, ST_bind in H.
  destruct (io_ReadAll r s) as [res1 s1] eqn:E.
  apply io_ReadAll_run in E as [-> [[-> He]|(e & -> & He)]].
  - cbn in H. rewrite mem_objects_lookup. destruct (s !! k) eqn:Ek; injection H as <- <-.
    + done.
    + split; [done|]. split; [by left|]. apply mem_objects_insert.
  - injection H as <- <-. destruct e; try (by left). done.
Qed.
Next Obligation.
  intros k r m s res s' H. cbn in H |- *. unfold mem_PutIfMatch, mbind, ST_bind in H.
  destruct (io_ReadAll r s) as [res1 s1] eqn:E.
  apply io_ReadAll_run in E as [-> [[-> He]|(e & -> & He)]].
  - cbn in H. rewrite mem_objects_lookup. destruct (s !! k) as [o|] eqn:Ek.
    + case_bool_decide as Hm; cbn in H; injection H as <- <-.
      * cbn. rewrite Hm. do 2 (split; [done|]). split; [by left|]. apply mem_objects_insert.
      * done.
    + by injection H as <- <-.
  - injection H as <- <-. destruct e; try (by left). done.
Qed.

Lemma listing_unique p m l l' : listing p m l → listing p m l' → l = l'.
Proof.
  intros [Hs He] [Hs' He']. eapply StronglySorted_ext; [apply _|apply _|done|done|].
  intros x. by rewrite He, He'.
Qed.
