(* ===== verification/AesGcm.v ===== *)
(** * AES-256-GCM

    [crypto/aes] and [crypto/cipher] of the Go standard library, as the
    encrypted object store uses them (pkg/object/cipher.go): AES with a key of
    32 bytes, and Galois/counter mode with a nonce of 12 bytes and a tag of 16.
    Opening what was sealed under the same key, nonce and associated data gives
    the plaintext back; the published test vectors are evaluated at the end. *)

From S2P Require Import Prelude Bytes.

(** ** The block cipher *)

Definition xtime (b : Z) : Z := Z.lxor (u8 (2 * b)) (if 128 <=? b then 0x1b else 0).

(** Multiplication in GF(2^8), by the bits of [a]. *)
Fixpoint gf_mul (n : nat) (a b : Z) : Z :=
  match n with
  | O => 0
  | S n' => Z.lxor (if Z.odd a then b else 0) (gf_mul n' (Z.shiftr a 1) (xtime b))
  end.
Definition gf (a b : Z) : Z := gf_mul 8 a b.

Definition rotl8 (b s : Z) : Z := u8 (Z.lor (Z.shiftl b s) (Z.shiftr b (8 - s))).
Definition sub_byte (b : Z) : Z :=
  let inv := fold_left (λ acc _, gf acc b) (seq 0 253) b in
  Z.lxor (Z.lxor (Z.lxor inv (rotl8 inv 1)) (Z.lxor (rotl8 inv 2) (rotl8 inv 3))) (Z.lxor (rotl8 inv 4) 0x63).
Definition sbox : list Z := Eval vm_compute in map (λ i, sub_byte (Z.of_nat i)) (seq 0 256).
Definition sub (b : Z) : Z := nth (Z.to_nat b) sbox 0.

Definition word_xor (a b : list Z) : list Z := zip_with Z.lxor a b.
Definition rot_word (w : list Z) : list Z := drop 1 w ++ take 1 w.

(** The words of the key schedule, newest first. *)
Definition next_word (ws : list (list Z)) (i : nat) : list (list Z) :=
  let temp := nth 0 ws [] in
  let temp :=
    if (i mod 8 =? 0)%nat then
      word_xor (map sub (rot_word temp)) [fold_left (λ r _, xtime r) (seq 1 (i / 8 - 1)) 1; 0; 0; 0]
    else if (i mod 8 =? 4)%nat then map sub temp
    else temp in
  word_xor (nth 7 ws []) temp :: ws.

Definition key_schedule (key : bytes) : list Z :=
  let k := map byte_val key in
  concat (rev (fold_left next_word (seq 8 52) (rev (map (λ i, take 4 (drop (4 * i) k)) (seq 0 8))))).

(** A state is sixteen bytes, column by column. *)
Definition block_map (f : nat → Z) : list Z := map f (seq 0 16).
Definition at_ (s : list Z) (i : nat) : Z := nth i s 0.

Definition add_round_key (ks : list Z) (round : nat) (s : list Z) : list Z :=
  block_map (λ i, Z.lxor (at_ s i) (at_ ks (16 * round + i))).
Definition sub_shift (s : list Z) : list Z :=
  block_map (λ i, sub (at_ s (i mod 4 + 4 * ((i / 4 + i mod 4) mod 4)))).
Definition mix_columns (s : list Z) : list Z :=
  block_map (λ i,
    let c := (4 * (i / 4))%nat in
    let b j := at_ s (c + (i + j) mod 4) in
    Z.lxor (Z.lxor (gf 2 (b 0%nat)) (gf 3 (b 1%nat))) (Z.lxor (b 2%nat) (b 3%nat))).

Definition aes_encrypt (ks : list Z) (block : bytes) : bytes :=
  let s := add_round_key ks 0 (map byte_val block) in
  let s := fold_left (λ s round, add_round_key ks round (mix_columns (sub_shift s))) (seq 1 13) s in
  map byte_of (add_round_key ks 14 (sub_shift s)).

(** ** Galois/counter mode *)

(** Multiplication in GF(2^128), the most significant bit first. *)
Fixpoint gcm_mul_loop (n : nat) (x z v : Z) : Z :=
  match n with
  | O => z
  | S n' =>
      gcm_mul_loop n' x (if Z.testbit x (Z.of_nat n') then Z.lxor z v else z)
        (Z.lxor (Z.shiftr v 1) (if Z.odd v then Z.shiftl 0xe1 120 else 0))
  end.
Definition gcm_mul (x y : Z) : Z := gcm_mul_loop 128 x 0 y.

(** The blocks of [l] as numbers, the last one filled with zeros. *)
Definition blocks (l : bytes) : list Z :=
  map (λ i, let b := take 16 (drop (16 * i) l) in unbe (b ++ replicate (16 - length b) x00))
      (seq 0 ((length l + 15) / 16)).

Definition ghash (h : Z) (aad ciphertext : bytes) : Z :=
  fold_left (λ y x, gcm_mul (Z.lxor y x) h)
    (blocks aad ++ blocks ciphertext ++ [8 * zlen aad * 2 ^ 64 + 8 * zlen ciphertext]) 0.

Definition counter (nonce : bytes) (i : Z) : bytes := nonce ++ be 4 i.
Definition keystream (ks : list Z) (nonce : bytes) (n : nat) : bytes :=
  concat (map (λ i, aes_encrypt ks (counter nonce (2 + Z.of_nat i))) (seq 0 (n / 16 + 1))).

Definition xor_bytes (a b : bytes) : bytes := zip_with (λ x y, byte_of (Z.lxor (byte_val x) (byte_val y))) a b.

Definition gcm_tag (ks : list Z) (nonce aad ciphertext : bytes) : bytes :=
  xor_bytes (be 16 (ghash (unbe (aes_encrypt ks (replicate 16 x00))) aad ciphertext)) (aes_encrypt ks (counter nonce 1)).

Definition Seal (key nonce plaintext aad : bytes) : bytes :=
  let ks := key_schedule key in
  let c := xor_bytes plaintext (keystream ks nonce (length plaintext)) in
  c ++ gcm_tag ks nonce aad c.

Definition gcm_Open (key nonce ciphertext aad : bytes) : option bytes :=
  let n := (length ciphertext - 16)%nat in
  if (length ciphertext <? 16)%nat then None
  else
    let ks := key_schedule key in
    let c := take n ciphertext in
    if bool_decide (drop n ciphertext = gcm_tag ks nonce aad c)
    then Some (xor_bytes c (keystream ks nonce n))
    else None.

(** ** Opening inverts sealing *)

Lemma length_aes_encrypt ks block : length (aes_encrypt ks block) = 16%nat.
Proof. unfold aes_encrypt, add_round_key, block_map. by rewrite !length_map, length_seq. Qed.

Lemma length_keystream ks nonce n : (n ≤ length (keystream ks nonce n))%nat.
Proof.
  unfold keystream. assert (∀ l, length (concat (map (λ i, aes_encrypt ks (counter nonce (2 + Z.of_nat i))) l)) = (16 * length l)%nat) as ->.
  { induction l as [|i l IH]; [done|]. cbn [map concat]. rewrite length_app, IH, length_aes_encrypt. cbn [length]. lia. }
  rewrite length_seq. pose proof (Nat.div_mod_eq n 16). pose proof (Nat.mod_upper_bound n 16). lia.
Qed.

Lemma length_xor_bytes a b : (length a ≤ length b)%nat → length (xor_bytes a b) = length a.
Proof. intros. unfold xor_bytes. rewrite length_zip_with. lia. Qed.

Lemma length_gcm_tag ks nonce aad c : length (gcm_tag ks nonce aad c) = 16%nat.
Proof. unfold gcm_tag. rewrite length_xor_bytes; rewrite length_be; [done|]. by rewrite length_aes_encrypt. Qed.

Lemma lxor_range n a b : 0 ≤ n → 0 ≤ a < 2 ^ n → 0 ≤ b < 2 ^ n → 0 ≤ Z.lxor a b < 2 ^ n.
Proof.
  intros Hn Ha Hb. assert (0 ≤ Z.lxor a b) as H0 by (apply Z.lxor_nonneg; lia). split; [done|].
  apply Z.bounded_iff_bits_nonneg; [done|done|]. intros i Hi.
  rewrite Z.lxor_spec, (proj1 (Z.bounded_iff_bits_nonneg n a Hn (proj1 Ha)) (proj2 Ha) i Hi).
  by rewrite (proj1 (Z.bounded_iff_bits_nonneg n b Hn (proj1 Hb)) (proj2 Hb) i Hi).
Qed.

Lemma byte_xor_twice x y : byte_of (Z.lxor (byte_val (byte_of (Z.lxor (byte_val x) (byte_val y)))) (byte_val y)) = x.
Proof.
  pose proof (byte_val_range x). pose proof (byte_val_range y).
  rewrite byte_val_of. unfold u8. rewrite Z.mod_small by (apply (lxor_range 8); lia).
  by rewrite Z.lxor_assoc, Z.lxor_nilpotent, Z.lxor_0_r, byte_of_val.
Qed.

Lemma xor_bytes_twice a b : (length a ≤ length b)%nat → xor_bytes (xor_bytes a b) b = a.
Proof.
  revert b. induction a as [|x a IH]; intros [|y b] Hl; cbn in *; try done; [lia|].
  change (byte_of (Z.lxor (byte_val (byte_of (Z.lxor (byte_val x) (byte_val y)))) (byte_val y)) :: xor_bytes (xor_bytes a b) b = x :: a).
  rewrite byte_xor_twice, IH by lia. done.
Qed.

Lemma length_Seal key nonce p aad : length (Seal key nonce p aad) = (length p + 16)%nat.
Proof. unfold Seal. by rewrite length_app, length_gcm_tag, (length_xor_bytes _ _ (length_keystream _ _ _)). Qed.

Lemma gcm_open_seal key nonce p aad : gcm_Open key nonce (Seal key nonce p aad) aad = Some p.
Proof.
  unfold gcm_Open. rewrite length_Seal, (proj2 (Nat.ltb_ge _ _)) by lia.
  replace (length p + 16 - 16)%nat with (length p) by lia. unfold Seal.
  set (ks := key_schedule key). set (c := xor_bytes p (keystream ks nonce (length p))).
  assert (length c = length p) as Hc by (apply length_xor_bytes, length_keystream).
  rewrite (take_app_length' c _ (length p)), (drop_app_length' c _ (length p)), bool_decide_eq_true_2 by done.
  unfold c. by rewrite xor_bytes_twice by apply length_keystream.
Qed.

(** ** Test vectors *)

(** FIPS 197, appendix C.3. *)
Lemma aes256_vector :
  aes_encrypt (key_schedule (be 32 0x000102030405060708090a0b0c0d0e0f101112131415161718191a1b1c1d1e1f))
    (be 16 0x00112233445566778899aabbccddeeff) = be 16 0x8ea2b7ca516745bfeafc49904b496089.
Proof. by vm_compute. Qed.

(** The test cases 13, 14 and 16 of the GCM specification. *)
Lemma gcm_vector_13 : Seal (replicate 32 x00) (replicate 12 x00) [] [] = be 16 0x530f8afbc74536b9a963b4f1c4cb738b.
Proof. by vm_compute. Qed.

Lemma gcm_vector_14 : Seal (replicate 32 x00) (replicate 12 x00) (replicate 16 x00) [] =
  be 32 0xcea7403d4d606b6e074ec5d3baf39d18d0d1c8a799996bf0265b98b5d48ab919.
Proof. by vm_compute. Qed.

Lemma gcm_vector_16 :
  Seal (be 32 0xfeffe9928665731c6d6a8f9467308308feffe9928665731c6d6a8f9467308308) (be 12 0xcafebabefacedbaddecaf888)
    (be 60 0xd9313225f88406e5a55909c5aff5269a86a7a9531534f7da2e4c303d8a318a721c3c0c95956809532fcf0e2449a6b525b16aedf5aa0de657ba637b39)
    (be 20 0xfeedfacedeadbeeffeedfacedeadbeefabaddad2) =
  be 60 0x522dc1f099567d07f47f37a32a84427d643a8cdcbfe5c0c97598a2bd2555d1aa8cb08e48590dbb3da7b08b1056828838c5f61e6393ba7a0abcc9f662
    ++ be 16 0x76fc6ece0f4e1768cddf8853bb2d551b.
Proof. by vm_compute. Qed.
