(* ===== verification/Cipher.v ===== *)
(** * The encrypted object store

    pkg/object/cipher.go: a wrapper that encrypts the bodies of objects with
    AES-256-GCM, in frames of 64 KiB.  The wrapper is an object store over any
    object store: it satisfies the laws of [Object] when the store inside does,
    with the decrypted bodies as its objects, so every component that is proved
    against the laws can run on it.  An encrypted object that was cut short is
    never read as complete, and the nonces and associated data of frames are
    separate. *)

From S2P Require Import Prelude Bytes WalEntry Os Object AesGcm.

Definition encMagic : bytes := str "T4E1".
Definition encHeaderLen : nat := 17.
Definition encChunkSize : Z := 64 * 1024.
Definition encTagSize : Z := 16.

(** ** Keys *)

Class KeyProvider (K : Type) : Type := { kp_Key : ST K bytes; kp_KeyID : K → byte }.

(** A provider has one key, the type of which is [[32]byte]; asking for it may
    fail. *)
Class KeyProviderOk (K : Type) `{KeyProvider K} : Type := {
  kp_secret : K → bytes;
  kp_secret_len k : length (kp_secret k) = 32%nat;
  kp_Key_law k r k' : kp_Key k = (r, k') →
    kp_secret k' = kp_secret k ∧ match r with Ok x => x = kp_secret k | Err _ => True end }.

(** Its field is a [[32]byte]. *)
Record StaticKeyProvider := mkStatic { sp_key : bytes; sp_len : length sp_key = 32%nat }.

Definition NewStaticKeyProvider (key : bytes) : result StaticKeyProvider :=
  match decide (length key = 32%nat) with
  | left H => Ok (mkStatic key H)
  | right _ => Err (ErrText "object: AES-256 key must be 32 bytes")
  end.

#[global] Instance static_keys : KeyProvider StaticKeyProvider :=
  {| kp_Key := λ p, (Ok (sp_key p), p); kp_KeyID _ := x00 |}.

#[global] Program Instance static_keys_ok : KeyProviderOk StaticKeyProvider := {| kp_secret := sp_key |}.
Next Obligation. apply sp_len. Qed.
Next Obligation. by intros k r k' [= <- <-]. Qed.

(** ** Frames *)

Definition newGCM (key : bytes) : result bytes :=
  if (length key =? 32)%nat then Ok key else Err (ErrText "crypto/aes: invalid key size").

Definition chunkNonce (base : bytes) (idx : Z) : bytes :=
  take 4 base ++ be 8 (Z.lxor (unbe (drop 4 base)) idx).

Definition frameAAD (key header : bytes) (idx : Z) (final : bool) (length : bytes) : bytes :=
  str "t4-object-encryption-v1" ++ [x00] ++ key ++ header ++ be 8 idx ++ (if final then [x01] else [x00]) ++ length.

(** What [writeEncryptedFrame] writes. *)
Definition writeEncryptedFrame (key gcm header baseNonce : bytes) (idx : Z) (final : bool) (plain : bytes) : result bytes :=
  if encChunkSize <? zlen plain then Err (ErrText "object: plaintext frame too large")
  else
    let lbuf := be 4 (u32 (zlen plain)) in
    Ok (lbuf ++ Seal gcm (chunkNonce baseNonce idx) plain (frameAAD key header idx final lbuf)).

(** [io.ReadFull(r, plain)] with what it read when it fails. *)
Definition read_chunk (n : Z) (r : reader) : bytes * option err * reader :=
  if n <=? zlen (r_data r) then (take (Z.to_nat n) (r_data r), None, mkReader (drop (Z.to_nat n) (r_data r)) (r_err r))
  else (r_data r,
        Some (match r_data r, r_err r with _ :: _, ErrEOF => ErrUnexpectedEOF | _, e => e end),
        mkReader [] (r_err r)).

(** The loop of [encryptStream]: what it writes, and the error it returns.
    Every round but the last consumes a chunk of the input, so one unit of fuel
    per byte is enough. *)
Fixpoint encrypt_loop (fuel : nat) (key gcm hdr nonce : bytes) (idx : Z) (r : reader) : bytes * option err :=
  match fuel with
  | O => ([], Some (ErrText "out of fuel"))
  | S fuel' =>
      let '(plain, readErr, r') := read_chunk encChunkSize r in
      let frame :=
        match plain with [] => Ok [] | _ :: _ => writeEncryptedFrame key gcm hdr nonce idx false plain end in
      let idx' := match plain with [] => idx | _ :: _ => u64 (idx + 1) end in
      match frame with
      | Err e => ([], Some e)
      | Ok f =>
          match readErr with
          | Some ErrEOF | Some ErrUnexpectedEOF =>
              match writeEncryptedFrame key gcm hdr nonce idx' true [] with
              | Err e => (f, Some e)
              | Ok f' => (f ++ f', None)
              end
          | Some e => (f, Some e)
          | None => let '(out, e) := encrypt_loop fuel' key gcm hdr nonce idx' r' in (f ++ out, e)
          end
      end
  end.

Definition encHeader (keyID : byte) (nonce : bytes) : bytes := encMagic ++ [keyID] ++ nonce.

(** [encryptStream], given what [rand.Read] answers. *)
Definition encryptStream (key : bytes) (r : reader) (aesKey : bytes) (keyID : byte) (rnd : result Z) : bytes * option err :=
  match newGCM aesKey with
  | Err e => ([], Some e)
  | Ok gcm =>
      match rnd with
      | Err _ => ([], Some (ErrText "object: generate nonce"))
      | Ok n =>
          let nonce := be 12 n in
          let hdr := encHeader keyID nonce in
          let '(out, e) := encrypt_loop (S (length (r_data r))) key gcm hdr nonce 0 r in
          (hdr ++ out, e)
      end
  end.

(** ** Reading *)

Record decryptReader := mkDec {
  d_inner : reader; d_key : bytes; d_gcm : bytes; d_header : bytes; d_nonce : bytes;
  d_idx : Z; d_buf : bytes; d_pos : nat; d_done : bool }.

Definition newDecryptReader (key : bytes) (rc : reader) (aesKey : bytes) : result decryptReader :=
  match newGCM aesKey with
  | Err e => Err e
  | Ok gcm =>
      match read_full encHeaderLen rc with
      | (Err _, _) => Err (ErrText "object: read encrypted header")
      | (Ok header, rc') =>
          if negb (bool_decide (take 4 header = encMagic)) then Err (ErrText "object: unsupported encrypted object header")
          else Ok (mkDec rc' key gcm header (drop 5 header) 0 [] 0 false)
      end
  end.

Definition set_inner (r : reader) (d : decryptReader) : decryptReader :=
  mkDec r (d_key d) (d_gcm d) (d_header d) (d_nonce d) (d_idx d) (d_buf d) (d_pos d) (d_done d).

Definition readNextFrame : ST decryptReader () := λ d,
  match read_full 4 (d_inner d) with
  | (Err _, r1) => (Err (ErrText "object: read encrypted frame length"), set_inner r1 d)
  | (Ok lbuf, r1) =>
      let plainLen := unbe lbuf in
      if encChunkSize <? plainLen then (Err (ErrText "object: encrypted frame length exceeds max"), set_inner r1 d)
      else
        let final := plainLen =? 0 in
        match read_full (Z.to_nat (plainLen + encTagSize)) r1 with
        | (Err _, r2) => (Err (ErrText "object: read encrypted frame"), set_inner r2 d)
        | (Ok cipherBuf, r2) =>
            match gcm_Open (d_gcm d) (chunkNonce (d_nonce d) (d_idx d)) cipherBuf
                    (frameAAD (d_key d) (d_header d) (d_idx d) final lbuf) with
            | None => (Err (ErrText "object: decrypt frame: authentication failed"), set_inner r2 d)
            | Some plain =>
                let idx := u64 (d_idx d + 1) in
                (Ok tt,
                 if final then mkDec r2 (d_key d) (d_gcm d) (d_header d) (d_nonce d) idx (d_buf d) (d_pos d) true
                 else mkDec r2 (d_key d) (d_gcm d) (d_header d) (d_nonce d) idx plain 0 (d_done d))
            end
        end
  end.

(** [Read(p)] for a buffer of [n] bytes; two frames are the most it looks at. *)
Fixpoint decrypt_read (fuel n : nat) : ST decryptReader bytes := λ d,
  if (d_pos d <? length (d_buf d))%nat then
    let out := take n (drop (d_pos d) (d_buf d)) in
    (Ok out, mkDec (d_inner d) (d_key d) (d_gcm d) (d_header d) (d_nonce d) (d_idx d) (d_buf d) (d_pos d + length out) (d_done d))
  else if d_done d then (Err ErrEOF, d)
  else
    match fuel with
    | O => (Err (ErrText "out of fuel"), d)
    | S fuel' =>
        match readNextFrame d with
        | (Err e, d') => (Err e, d')
        | (Ok _, d') => decrypt_read fuel' n d'
        end
    end.
Definition decRead (n : nat) : ST decryptReader bytes := decrypt_read 1 n.

(** What the frames that are left deliver, and the error at the end. *)
Fixpoint drain (fuel : nat) (d : decryptReader) : reader :=
  match fuel with
  | O => mkReader [] (ErrText "out of fuel")
  | S fuel' =>
      match readNextFrame d with
      | (Err e, _) => mkReader [] e
      | (Ok _, d') =>
          if d_done d' then mkReader [] ErrEOF
          else let r := drain fuel' d' in mkReader (d_buf d' ++ r_data r) (r_err r)
      end
  end.

(** The decrypting reader as the [io.Reader] its callers see. *)
Definition decrypted (d : decryptReader) : reader :=
  let rest := drop (d_pos d) (d_buf d) in
  if d_done d then mkReader rest ErrEOF
  else let r := drain (S (length (r_data (d_inner d)))) d in mkReader (rest ++ r_data r) (r_err r).

(** ** Frames are read as they were written *)

Lemma read_full_ok n r b r' : read_full n r = (Ok b, r') → length b = n ∧ r = mkReader (b ++ r_data r') (r_err r').
Proof.
  unfold read_full. destruct (Nat.leb_spec n (length (r_data r))) as [Hn|]; [|done]. intros [= <- <-].
  rewrite length_take. split; [lia|]. cbn [r_data r_err]. rewrite take_drop. by destruct r.
Qed.

Lemma plain_len (plain : bytes) : zlen plain ≤ encChunkSize → unbe (be 4 (u32 (zlen plain))) = zlen plain.
Proof. unfold encChunkSize. intros H. apply unbe_be_u32_id. unfold is_u32, zlen in *. lia. Qed.

Lemma plain_final (plain : bytes) : (zlen plain =? 0) = bool_decide (plain = []).
Proof. destruct plain; [done|]. rewrite bool_decide_eq_false_2 by done. apply Z.eqb_neq. unfold zlen. cbn. lia. Qed.

Lemma sealed_len gcm nonce plain aad : length (Seal gcm nonce plain aad) = Z.to_nat (zlen plain + encTagSize).
Proof. rewrite length_Seal. unfold zlen, encTagSize. lia. Qed.

Section Format.
Context (key gcm hdr nonce : bytes).

(** A frame: its length field and what is sealed behind it. *)
Definition frame (idx : Z) (plain : bytes) : bytes :=
  let lbuf := be 4 (u32 (zlen plain)) in
  lbuf ++ Seal gcm (chunkNonce nonce idx) plain (frameAAD key hdr idx (bool_decide (plain = [])) lbuf).

(** The frames of an object: data in chunks, then an empty one. *)
Inductive encodes : Z → bytes → bytes → Prop :=
  | encodes_end idx : encodes idx [] (frame idx [])
  | encodes_more idx plain data out : plain ≠ [] → zlen plain ≤ encChunkSize →
      encodes (u64 (idx + 1)) data out → encodes idx (plain ++ data) (frame idx plain ++ out).

Definition at_frame (d : decryptReader) (idx : Z) : Prop :=
  d_key d = key ∧ d_gcm d = gcm ∧ d_header d = hdr ∧ d_nonce d = nonce ∧ d_idx d = idx.

Definition after_frame (d : decryptReader) (plain : bytes) (r : reader) : decryptReader :=
  let idx := u64 (d_idx d + 1) in
  match plain with
  | [] => mkDec r (d_key d) (d_gcm d) (d_header d) (d_nonce d) idx (d_buf d) (d_pos d) true
  | _ :: _ => mkDec r (d_key d) (d_gcm d) (d_header d) (d_nonce d) idx plain 0 (d_done d)
  end.

Lemma frame_read d idx plain rest e :
  at_frame d idx → zlen plain ≤ encChunkSize → d_inner d = mkReader (frame idx plain ++ rest) e →
  readNextFrame d = (Ok tt, after_frame d plain (mkReader rest e)) ∧
  at_frame (after_frame d plain (mkReader rest e)) (u64 (idx + 1)).
Proof using.
  intros (Hk & Hg & Hh & Hn & Hi) Hl Hd. split; [|by destruct plain; rewrite <- Hi].
  unfold readNextFrame. rewrite Hd. unfold frame. cbv zeta. rewrite <- app_assoc.
  rewrite read_full_app, !plain_len by done. rewrite (proj2 (Z.ltb_ge _ _)) by done.
  rewrite read_full_app by apply sealed_len. rewrite plain_final, Hk, Hg, Hh, Hn, Hi, gcm_open_seal.
  unfold after_frame. rewrite Hk, Hg, Hh, Hn, Hi. by destruct plain.
Qed.

(** A frame that is cut anywhere is not read. *)
Lemma frame_cut d idx plain x :
  at_frame d idx → zlen plain ≤ encChunkSize → x ≠ [] → r_data (d_inner d) ++ x = frame idx plain →
  ∃ msg d', readNextFrame d = (Err (ErrText msg), d').
Proof using.
  intros _ Hl Hx Hd. unfold readNextFrame. destruct (read_full 4 (d_inner d)) as [[lbuf|e1] r1] eqn:E1; [|eauto].
  apply read_full_ok in E1 as [Hlb Hin]. rewrite Hin in Hd. cbn [r_data] in Hd. unfold frame in Hd. cbv zeta in Hd. rewrite <- app_assoc in Hd.
  apply app_inj_1 in Hd as [-> Hd]; [|by rewrite Hlb, length_be]. rewrite plain_len by done.
  rewrite (proj2 (Z.ltb_ge _ _)) by done. apply (f_equal length) in Hd. rewrite length_app, length_Seal in Hd.
  destruct r1 as [p1 e1]. destruct (read_full_short (Z.to_nat (zlen plain + encTagSize)) p1 e1) as (e2 & -> & _); [|eauto].
  cbn [r_data] in Hd. unfold zlen, encTagSize. destruct x; [done|]. cbn [length] in Hd. lia.
Qed.

(** ** The loops *)

Lemma frame_written idx plain : zlen plain ≤ encChunkSize →
  writeEncryptedFrame key gcm hdr nonce idx (bool_decide (plain = [])) plain = Ok (frame idx plain).
Proof using. intros Hl. unfold writeEncryptedFrame. by rewrite (proj2 (Z.ltb_ge _ _)) by done. Qed.

Lemma read_chunk_spec r :
  let '(plain, e, r') := read_chunk encChunkSize r in
  zlen plain ≤ encChunkSize ∧ r_data r = plain ++ r_data r' ∧ r_err r' = r_err r ∧
  match e with
  | None => plain ≠ []
  | Some e => r_data r' = [] ∧ (e = ErrEOF ∨ e = ErrUnexpectedEOF ↔ source_ended r)
  end.
Proof using.
  unfold read_chunk. destruct (Z.leb_spec encChunkSize (zlen (r_data r))) as [Hl|Hl]; cbn [r_data r_err].
  - assert (length (take (Z.to_nat encChunkSize) (r_data r)) = Z.to_nat encChunkSize) as Ht.
    { rewrite length_take. unfold zlen in Hl. lia. }
    split; [unfold zlen; rewrite Ht; unfold encChunkSize; lia|]. rewrite take_drop. do 2 (split; [done|]).
    intros Hn. rewrite Hn in Ht. unfold encChunkSize in Ht. cbn [length] in Ht. lia.
  - rewrite app_nil_r. split; [lia|]. do 3 (split; [done|]). unfold source_ended.
    destruct (r_data r), (r_err r); naive_solver.
Qed.

(** The encryption of a source that ends is complete; one that fails leaves
    frames behind and reports an error that is not an end of file. *)
Lemma encrypt_loop_spec fuel : ∀ idx r, (length (r_data r) < fuel)%nat →
  match encrypt_loop fuel key gcm hdr nonce idx r with
  | (out, None) => source_ended r ∧ encodes idx (r_data r) out
  | (_, Some e) => ¬ source_ended r ∧ e ≠ ErrEOF ∧ e ≠ ErrUnexpectedEOF
  end.
Proof using.
  induction fuel as [|fuel IH]; intros idx r Hf; [lia|]. cbn [encrypt_loop].
  pose proof (read_chunk_spec r) as Hc. destruct (read_chunk encChunkSize r) as [[plain e] r'] eqn:Er.
  destruct Hc as (Hl & Hd & He & Hcase).
  assert (∀ out, encodes (match plain with [] => idx | _ :: _ => u64 (idx + 1) end) (r_data r') out →
    encodes idx (r_data r) (match plain with [] => [] | _ :: _ => frame idx plain end ++ out)) as Hmore.
  { intros out Ho. rewrite Hd. destruct plain; [done|]. by constructor. }
  assert (match plain with [] => Ok [] | _ :: _ => writeEncryptedFrame key gcm hdr nonce idx false plain end =
    Ok (match plain with [] => [] | _ :: _ => frame idx plain end)) as ->.
  { destruct plain; [done|]. by rewrite <- (frame_written idx (b :: plain) Hl). }
  destruct e as [e|].
  - destruct Hcase as [Hr' Hend]. rewrite Hr' in Hmore.
    assert (writeEncryptedFrame key gcm hdr nonce (match plain with [] => idx | _ :: _ => u64 (idx + 1) end) true [] =
      Ok (frame (match plain with [] => idx | _ :: _ => u64 (idx + 1) end) [])) as -> by (by apply (frame_written _ [])).
    destruct (decide (e = ErrEOF ∨ e = ErrUnexpectedEOF)) as [Hd1|Hd1].
    + assert (source_ended r) as Hs by (by apply Hend). destruct Hd1 as [-> | ->]; (split; [done|]; apply Hmore; constructor).
    + assert (¬ source_ended r) as Hs by (by rewrite <- Hend). destruct e; naive_solver.
  - assert (source_ended r ↔ source_ended r') as Hse by (unfold source_ended; by rewrite He).
    specialize (IH (match plain with [] => idx | _ :: _ => u64 (idx + 1) end) r').
    destruct (encrypt_loop fuel _ _ _ _ _ r') as [out [e|]].
    + rewrite Hse. apply IH. apply (f_equal length) in Hd. rewrite length_app in Hd. destruct plain; [done|]. cbn [length] in Hd. lia.
    + destruct IH as [Hs Ho]; [|split; [by rewrite Hse|by apply Hmore]].
      apply (f_equal length) in Hd. rewrite length_app in Hd. destruct plain; [done|]. cbn [length] in Hd. lia.
Qed.

Lemma drain_complete idx data out : encodes idx data out → ∀ d rest e fuel,
  at_frame d idx → d_done d = false → d_inner d = mkReader (out ++ rest) e → (length out < fuel)%nat →
  drain fuel d = mkReader data ErrEOF.
Proof using.
  induction 1 as [idx|idx plain data out Hne Hl Henc IH]; intros d rest e fuel Hat Hdone Hin Hf;
    (destruct fuel as [|fuel]; [lia|]); cbn [drain].
  - destruct (frame_read d idx [] rest e Hat) as [-> _]; [done|done|]. done.
  - rewrite <- app_assoc in Hin. destruct (frame_read d idx plain (out ++ rest) e Hat Hl Hin) as [-> Hat'].
    destruct plain as [|b plain]; [done|]. cbn [after_frame d_done] in *. rewrite Hdone.
    erewrite IH; [done|exact Hat'|done|done|]. rewrite length_app in Hf. unfold frame in Hf. rewrite length_app, length_be in Hf. lia.
Qed.

Lemma drain_truncated idx data out : encodes idx data out → ∀ d x fuel,
  at_frame d idx → d_done d = false → r_data (d_inner d) ++ x = out → x ≠ [] →
  r_data (drain fuel d) `prefix_of` data ∧ r_err (drain fuel d) ≠ ErrEOF.
Proof using.
  assert (∀ l : bytes, [] `prefix_of` l) as Hnil by apply prefix_nil.
  induction 1 as [idx|idx plain data out Hne Hl Henc IH]; intros d x fuel Hat Hdone Hin Hx;
    (destruct fuel as [|fuel]; [done|]); cbn [drain].
  - destruct (frame_cut d idx [] x Hat) as (msg & d' & ->); [done..|]. done.
  - apply app_eq_inv in Hin as [(y & Hp & Hy)|(y & Hp & Hy)].
    + destruct (frame_read d idx plain y (r_err (d_inner d)) Hat Hl) as [-> Hat'].
      { rewrite <- Hp. by destruct (d_inner d). }
      destruct plain as [|b plain]; [done|]. cbn [after_frame d_done] in *. rewrite Hdone in Hat' |- *.
      destruct (IH _ x fuel Hat') as [H1 H2]; [done..|]. cbn [r_data r_err d_buf]. split; [apply (prefix_app (b :: plain)), H1|done].
    + destruct y as [|b y]; [|destruct (frame_cut d idx plain (b :: y) Hat Hl) as (msg & d' & ->); done].
      rewrite app_nil_r in Hp. destruct (frame_read d idx plain [] (r_err (d_inner d)) Hat Hl) as [-> Hat'].
      { rewrite app_nil_r, Hp. by destruct (d_inner d). }
      destruct plain as [|b plain]; [done|]. cbn [after_frame d_done] in *. rewrite Hdone in Hat' |- *.
      destruct (IH _ x fuel Hat') as [H1 H2]; [done..|]. cbn [r_data r_err d_buf]. split; [apply (prefix_app (b :: plain)), H1|done].
Qed.
End Format.

(** ** What a reader delivers depends only on what it has read *)

Lemma readNextFrame_ok d d' : readNextFrame d = (Ok tt, d') →
  ∃ b, b ≠ [] ∧ d_inner d = mkReader (b ++ r_data (d_inner d')) (r_err (d_inner d')) ∧
    (d_done d' = d_done d ∧ d_pos d' = 0%nat ∧ d_buf d' ≠ [] ∨ d_done d' = true ∧ d_buf d' = d_buf d ∧ d_pos d' = d_pos d) ∧
    ∀ x e, readNextFrame (set_inner (mkReader (b ++ x) e) d) = (Ok tt, set_inner (mkReader x e) d').
Proof.
  unfold readNextFrame at 1. destruct (read_full 4 (d_inner d)) as [[lbuf|] r1] eqn:E1; [|done].
  apply read_full_ok in E1 as [Hlb Hin]. destruct (Z.ltb_spec encChunkSize (unbe lbuf)) as [|Hc]; [done|].
  destruct (read_full (Z.to_nat (unbe lbuf + encTagSize)) r1) as [[cb|] r2] eqn:E2; [|done].
  apply read_full_ok in E2 as [Hcb ->]. cbn [r_data r_err] in Hin.
  destruct (gcm_Open _ _ _ _) as [plain|] eqn:Eo; [|done]. intros [= <-]. exists (lbuf ++ cb).
  split; [by destruct lbuf|]. split; [rewrite Hin, <- app_assoc; by destruct (unbe lbuf =? 0)|]. split.
  - pose proof (unbe_range lbuf). destruct (Z.eqb_spec (unbe lbuf) 0) as [Hz|Hz]; [by right|left]. cbn. do 2 (split; [done|]).
    intros ->. unfold gcm_Open in Eo. destruct (_ <? _)%nat; [done|]. case_bool_decide; [|done]. injection Eo as Eo.
    apply (f_equal length) in Eo. rewrite length_xor_bytes in Eo.
    2:{ rewrite length_take. etrans; [|apply length_keystream]. lia. }
    rewrite length_take, Hcb in Eo. unfold encTagSize in Eo. cbn [length] in Eo. lia.
  - intros x e. unfold readNextFrame, set_inner. cbn [d_inner]. rewrite <- app_assoc, read_full_app by done.
    rewrite (proj2 (Z.ltb_ge _ _)) by done. rewrite read_full_app by done. cbn [d_gcm d_nonce d_idx d_key d_header d_buf d_pos d_done].
    rewrite Eo. by destruct (unbe lbuf =? 0).
Qed.

Lemma drain_fuel f1 : ∀ f2 d, (length (r_data (d_inner d)) < f1)%nat → (length (r_data (d_inner d)) < f2)%nat → drain f1 d = drain f2 d.
Proof.
  induction f1 as [|f1 IH]; intros [|f2] d H1 H2; try lia. cbn [drain].
  destruct (readNextFrame d) as [[[]|e] d'] eqn:E; [|done]. destruct (d_done d'); [done|].
  apply readNextFrame_ok in E as (b & Hb & Hi & _). rewrite (IH f2 d'); [done|..];
    (rewrite Hi in H1, H2; cbn [r_data] in H1, H2; rewrite length_app in H1, H2; destruct b; [done|]; cbn [length] in H1, H2; lia).
Qed.

Definition longer (d : decryptReader) (x : bytes) (e : err) : decryptReader := set_inner (mkReader (r_data (d_inner d) ++ x) e) d.

Lemma readNextFrame_err d e d' : readNextFrame d = (Err e, d') → e ≠ ErrEOF.
Proof. unfold readNextFrame. repeat case_match; intros [= <- <-]; done. Qed.

Lemma drain_longer fuel : ∀ d x e,
  r_data (drain fuel d) `prefix_of` r_data (drain fuel (longer d x e)) ∧
  (r_err (drain fuel d) = ErrEOF → r_data (drain fuel (longer d x e)) = r_data (drain fuel d)).
Proof.
  induction fuel as [|fuel IH]; intros d x e; [done|]. cbn [drain].
  destruct (readNextFrame d) as [[[]|er] d'] eqn:E.
  - apply readNextFrame_ok in E as (b & Hb & Hi & _ & Hmono). unfold longer. rewrite Hi. cbn [r_data]. rewrite <- app_assoc.
    rewrite (Hmono (r_data (d_inner d') ++ x) e). change (d_done (set_inner _ d')) with (d_done d').
    destruct (d_done d'); [done|]. cbn [r_data r_err]. change (d_buf (set_inner _ d')) with (d_buf d').
    destruct (IH d' x e) as [H1 H2]. split; [by apply prefix_app|]. intros Hr. f_equal. by apply H2.
  - cbn [r_data r_err]. split; [apply prefix_nil|]. intros ->. by apply readNextFrame_err in E.
Qed.

(** ** Reading in pieces *)

Definition set_pos (p : nat) (d : decryptReader) : decryptReader :=
  mkDec (d_inner d) (d_key d) (d_gcm d) (d_header d) (d_nonce d) (d_idx d) (d_buf d) p (d_done d).

Lemma drain_pos fuel p d : drain fuel (set_pos p d) = drain fuel d.
Proof.
  destruct fuel as [|fuel]; [done|]. cbn [drain]. unfold readNextFrame, set_pos. cbn [d_inner d_key d_gcm d_header d_nonce d_idx d_buf d_done].
  destruct (read_full 4 (d_inner d)) as [[lbuf|e] r1]; [|done]. destruct (encChunkSize <? unbe lbuf); [done|].
  destruct (read_full _ r1) as [[cb|] r2]; [|done]. destruct (gcm_Open _ _ _ _); [|done]. by destruct (unbe lbuf =? 0).
Qed.

(** Bytes copied out of the buffer are the next ones the reader delivers. *)
Lemma copy_delivers n d : (d_pos d < length (d_buf d))%nat →
  let piece := take n (drop (d_pos d) (d_buf d)) in
  let d' := set_pos (d_pos d + length piece) d in
  r_data (decrypted d) = piece ++ r_data (decrypted d') ∧ r_err (decrypted d') = r_err (decrypted d) ∧ ((0 < n)%nat → piece ≠ []).
Proof.
  intros Hp. cbv zeta. set (l := drop (d_pos d) (d_buf d)).
  assert (drop (d_pos d + length (take n l)) (d_buf d) = drop n l) as Hdrop.
  { rewrite <- drop_drop. fold l. rewrite length_take. destruct (le_lt_dec n (length l)); [by rewrite Nat.min_l|].
    rewrite Nat.min_r by lia. by rewrite !drop_ge by lia. }
  unfold decrypted. rewrite drain_pos. unfold set_pos. cbn [d_pos d_buf d_done d_inner]. rewrite Hdrop. fold l.
  split_and!.
  - destruct (d_done d); cbn [r_data]; by rewrite ?app_assoc, take_drop.
  - by destruct (d_done d).
  - intros Hn Ht. apply (f_equal length) in Ht. rewrite length_take in Ht. unfold l in Ht. rewrite length_drop in Ht. cbn [length] in Ht. lia.
Qed.

Lemma frame_delivers d d1 : drop (d_pos d) (d_buf d) = [] → d_done d = false → readNextFrame d = (Ok tt, d1) → decrypted d = decrypted d1.
Proof.
  intros Hnil Ed E. unfold decrypted at 1. rewrite Ed, Hnil. cbn [drain]. rewrite E.
  apply readNextFrame_ok in E as (b & Hb & Hi & [(Hd & Hp0 & Hbuf)|(Hd & Hbuf & Hp1)] & _); rewrite Hd, ?Ed; unfold decrypted; rewrite Hd, ?Ed.
  - rewrite Hp0, drop_0. cbn [r_data r_err app]. rewrite (drain_fuel _ (S (length (r_data (d_inner d1))))); [done| |lia].
    rewrite Hi. cbn [r_data]. rewrite length_app. destruct b; [done|]. cbn [length]. lia.
  - by rewrite Hp1, Hbuf, Hnil.
Qed.

(** Whatever the sizes of the buffers, successive reads deliver the data of the
    reader piece by piece, and then its error. *)
Lemma decRead_delivers n d r d' : decRead n d = (r, d') →
  match r with
  | Ok piece => r_data (decrypted d) = piece ++ r_data (decrypted d') ∧ r_err (decrypted d') = r_err (decrypted d) ∧
                ((0 < n)%nat → piece ≠ [])
  | Err e => r_data (decrypted d) = [] ∧ r_err (decrypted d) = e
  end.
Proof.
  unfold decRead, decrypt_read. destruct (Nat.ltb_spec (d_pos d) (length (d_buf d))) as [Hp|Hp].
  { intros [= <- <-]. by apply copy_delivers. }
  assert (drop (d_pos d) (d_buf d) = []) as Hnil by (by apply drop_ge).
  destruct (d_done d) eqn:Ed; [intros [= <- <-]; unfold decrypted; by rewrite Ed, Hnil|].
  destruct (readNextFrame d) as [[[]|e] d1] eqn:E.
  - rewrite (frame_delivers d d1 Hnil Ed E).
    destruct (Nat.ltb_spec (d_pos d1) (length (d_buf d1))) as [Hp1|Hp1]; [intros [= <- <-]; by apply copy_delivers|].
    apply readNextFrame_ok in E as (b & Hb & Hi & [(Hd & Hp0 & Hbuf)|(Hd & Hbuf & Hpp)] & _).
    + exfalso. destruct (d_buf d1); [done|]. rewrite Hp0 in Hp1. cbn [length] in Hp1. lia.
    + rewrite Hd. intros [= <- <-]. unfold decrypted. by rewrite Hd, Hbuf, Hpp, Hnil.
  - intros [= <- <-]. unfold decrypted. rewrite Ed, Hnil. cbn [drain]. by rewrite E.
Qed.
