(* ===== verification/CipherStore.v ===== *)
(** * The encrypted store satisfies the laws of object stores

    The methods of [encryptedStore] (pkg/object/cipher.go) over any store with
    the laws of [Object] and any key provider, and the theorems: what was put is
    what is read, an object that was cut short is not read as complete, and no
    two frames share a nonce or associated data. *)

From S2P Require Import Prelude Bytes WalEntry Os Object AesGcm Cipher.

(** [object.VersionedStore]. *)
Class VersionedStore (S : Type) : Type := { obj_GetVersioned : bytes → bytes → ST S reader }.

(** The wrapper, with the answers [rand.Read] will give. *)
Record encryptedStore (S K : Type) := mkEnc { es_inner : S; es_kp : K; es_rand : list (result Z) }.
Arguments mkEnc {S K} _ _ _.
Arguments es_inner {S K} _.
Arguments es_kp {S K} _.
Arguments es_rand {S K} _.

Definition NewEncryptedStore {S K} (s : S) (kp : K) (rnd : list (result Z)) : encryptedStore S K := mkEnc s kp rnd.

Section Store.
Context {S K : Type} `{OI : ObjectStore S} `{KI : KeyProvider K}.
Local Notation E := (encryptedStore S K).

Definition on_inner {A} (m : ST S A) : ST E A := zoom es_inner (λ s e, mkEnc s (es_kp e) (es_rand e)) m.
Definition enc_Key : ST E bytes := zoom es_kp (λ k e, mkEnc (es_inner e) k (es_rand e)) kp_Key.
Definition enc_rand : ST E (result Z) := λ e,
  match es_rand e with
  | [] => (Ok (Err (ErrText "rand")), e)
  | r :: rs => (Ok r, mkEnc (es_inner e) (es_kp e) rs)
  end.

(** The pipe delivers what [encryptStream] writes and then its error.  An error
    of [put] is returned as it is or wrapped, which is the same to [errors.Is]. *)
Definition putEncrypted (key : bytes) (r : reader) (put : reader → ST S ()) : ST E () :=
  k ← st_map_err (λ _, ErrText "object: encrypt key") enc_Key;
  rnd ← enc_rand;
  e ← get_st;
  let '(out, encErr) := encryptStream key r k (kp_KeyID (es_kp e)) rnd in
  on_inner (put (mkReader out (default ErrEOF encErr)));;
  match encErr with None => mret tt | Some _ => throw (ErrText "object: encrypt") end.

(** [newDecryptReader] on a body that was fetched. *)
Definition decryptBody (key : bytes) (rc : reader) : ST E reader :=
  k ← st_map_err (λ _, ErrText "object: decrypt key") enc_Key;
  d ← from_result (newDecryptReader key rc k);
  mret (decrypted d).

Definition enc_Put (key : bytes) (r : reader) : ST E () := putEncrypted key r (obj_Put key).
Definition enc_Get (key : bytes) : ST E reader := rc ← on_inner (obj_Get key); decryptBody key rc.
Definition enc_Delete (key : bytes) : ST E () := on_inner (obj_Delete key).
Definition enc_DeleteMany (keys : list bytes) : ST E () := on_inner (obj_DeleteMany keys).
Definition enc_List (prefix : bytes) : ST E (list bytes) := on_inner (obj_List prefix).

#[global] Instance enc_store : ObjectStore E :=
  {| obj_Put := enc_Put; obj_Get := enc_Get; obj_Delete := enc_Delete; obj_DeleteMany := enc_DeleteMany; obj_List := enc_List |}.

Definition enc_GetETag `{!ConditionalStore S} (key : bytes) : ST E (reader * bytes) :=
  '(body, etag) ← on_inner (obj_GetETag key);
  dec ← decryptBody key body;
  mret (dec, etag).
Definition enc_PutIfAbsent `{!ConditionalStore S} (key : bytes) (r : reader) : ST E () :=
  putEncrypted key r (obj_PutIfAbsent key).
Definition enc_PutIfMatch `{!ConditionalStore S} (key : bytes) (r : reader) (matchETag : bytes) : ST E () :=
  putEncrypted key r (λ er, obj_PutIfMatch key er matchETag).

#[global] Instance enc_cond_store `{!ConditionalStore S} : ConditionalStore E :=
  {| obj_GetETag := enc_GetETag; obj_PutIfAbsent := enc_PutIfAbsent; obj_PutIfMatch := enc_PutIfMatch |}.

Definition enc_GetVersioned `{!VersionedStore S} (key versionID : bytes) : ST E reader :=
  rc ← on_inner (obj_GetVersioned key versionID); decryptBody key rc.

#[global] Instance enc_versioned_store `{!VersionedStore S} : VersionedStore E :=
  {| obj_GetVersioned := enc_GetVersioned |}.

(** ** The objects of the wrapper *)

Context `{OOk : !ObjectStoreOk S} `{KOk : !KeyProviderOk K}.

(** What a stored body decrypts to. *)
Definition plain_of (secret key c : bytes) : bytes :=
  match newDecryptReader key (mkReader c ErrEOF) secret with Ok d => r_data (decrypted d) | Err _ => [] end.

Definition enc_objects (e : E) : gmap bytes bytes :=
  map_imap (λ k c, Some (plain_of (kp_secret (es_kp e)) k c)) (objects (es_inner e)).

Lemma enc_objects_lookup e k : enc_objects e !! k = plain_of (kp_secret (es_kp e)) k <$> objects (es_inner e) !! k.
Proof using. unfold enc_objects. rewrite map_lookup_imap. by destruct (objects (es_inner e) !! k). Qed.

Lemma enc_objects_insert e e' k c : kp_secret (es_kp e') = kp_secret (es_kp e) →
  objects (es_inner e') = <[k := c]> (objects (es_inner e)) →
  enc_objects e' = <[k := plain_of (kp_secret (es_kp e)) k c]> (enc_objects e).
Proof using.
  intros Hk Ho. apply map_eq. intros k'. rewrite enc_objects_lookup, Ho, Hk.
  destruct (decide (k' = k)) as [->|Hne]; [by rewrite !lookup_insert_eq|].
  by rewrite !lookup_insert_ne, enc_objects_lookup.
Qed.

Lemma enc_objects_same e e' : kp_secret (es_kp e') = kp_secret (es_kp e) → objects (es_inner e') = objects (es_inner e) →
  enc_objects e' = enc_objects e.
Proof using. intros Hk Ho. unfold enc_objects. by rewrite Hk, Ho. Qed.

Lemma newGCM_ok k : newGCM (kp_secret k) = Ok (kp_secret k).
Proof using. unfold newGCM. by rewrite kp_secret_len. Qed.

(** ** Decrypting what was encrypted *)

Lemma read_header keyID nonce c e : length nonce = 12%nat →
  read_full encHeaderLen (mkReader (encHeader keyID nonce ++ c) e) = (Ok (encHeader keyID nonce), mkReader c e).
Proof using. intros Hn. apply read_full_app. unfold encHeader, encHeaderLen. rewrite !length_app, Hn. done. Qed.

(** A complete encryption, or an error that is not an end of file. *)
Lemma encryptStream_spec key r secret keyID rnd : newGCM secret = Ok secret →
  match encryptStream key r secret keyID rnd with
  | (c, None) => source_ended r ∧ ∃ nonce out, length nonce = 12%nat ∧ c = encHeader keyID nonce ++ out ∧
                 encodes key secret (encHeader keyID nonce) nonce 0 (r_data r) out
  | (_, Some e) => ¬ source_ended (mkReader [] e)
  end.
Proof using.
  intros Hg. unfold encryptStream. rewrite Hg. destruct rnd as [n|]; [|by intros [|]].
  pose proof (encrypt_loop_spec key secret (encHeader keyID (be 12 n)) (be 12 n) (Datatypes.S (length (r_data r))) 0 r) as H.
  destruct (encrypt_loop _ _ _ _ _ _ r) as [out [e|]]; [destruct H as (_ & ? & ?); [lia|by intros [|]]|].
  destruct H as [Hs Ho]; [lia|]. split; [done|]. exists (be 12 n), out. by rewrite length_be.
Qed.

Lemma header_fields keyID nonce : take 4 (encHeader keyID nonce) = encMagic ∧ drop 5 (encHeader keyID nonce) = nonce.
Proof using. by unfold encHeader, encMagic. Qed.

Lemma new_reader key keyID nonce secret c e : newGCM secret = Ok secret → length nonce = 12%nat →
  newDecryptReader key (mkReader (encHeader keyID nonce ++ c) e) secret =
  Ok (mkDec (mkReader c e) key secret (encHeader keyID nonce) nonce 0 [] 0 false).
Proof using.
  intros Hg Hn. unfold newDecryptReader. rewrite Hg, read_header by done. destruct (header_fields keyID nonce) as [-> ->].
  by rewrite bool_decide_eq_true_2.
Qed.

Lemma plain_encrypted key r secret keyID rnd c : newGCM secret = Ok secret →
  encryptStream key r secret keyID rnd = (c, None) → plain_of secret key c = r_data r.
Proof using.
  intros Hg He. pose proof (encryptStream_spec key r secret keyID rnd Hg) as H. rewrite He in H.
  destruct H as (_ & nonce & out & Hn & -> & Henc). unfold plain_of. rewrite new_reader by done.
  unfold decrypted. cbn [d_pos d_buf d_done d_inner r_data drop app].
  erewrite (drain_complete _ _ _ _ _ _ _ Henc _ [] ErrEOF); [done|by repeat split|done|by rewrite app_nil_r|lia].
Qed.

(** Reading part of a body gives part of its plaintext, and all of it when the
    end is reached. *)
Lemma decrypt_part key rd c secret d : body_of rd c → newDecryptReader key rd secret = Ok d →
  body_of (decrypted d) (plain_of secret key c).
Proof using.
  intros [[x ->] Heof]. unfold newDecryptReader, plain_of. unfold newDecryptReader. destruct (newGCM secret) as [gcm|]; [|done].
  destruct (read_full encHeaderLen rd) as [[header|] rc] eqn:E; [|done]. apply read_full_ok in E as [Hl Hrd].
  rewrite Hrd. cbn [r_data]. rewrite <- app_assoc, read_full_app by done.
  destruct (negb _); [done|]. intros [= <-]. set (d := mkDec rc key gcm header (drop 5 header) 0 [] 0 false).
  assert (mkDec (mkReader (r_data rc ++ x) ErrEOF) key gcm header (drop 5 header) 0 [] 0 false = longer d x ErrEOF) as -> by done.
  unfold decrypted. cbn [d_done d_pos d_buf drop app]. change (d_done (longer d x ErrEOF)) with false. cbn [r_data r_err].
  change (drop (d_pos (longer d x ErrEOF)) (d_buf (longer d x ErrEOF))) with (@nil byte). cbn [app].
  rewrite (drain_fuel (Datatypes.S (length (r_data (d_inner d)))) (Datatypes.S (length (r_data rc ++ x)))); [|cbn; lia|cbn; rewrite length_app; lia].
  destruct (drain_longer (Datatypes.S (length (r_data rc ++ x))) d x ErrEOF) as [H1 H2]. split; [exact H1|]. intros He. symmetry. by apply H2.
Qed.

(** ** The laws *)

Lemma enc_Key_run e r e' : enc_Key e = (r, e') →
  es_inner e' = es_inner e ∧ kp_secret (es_kp e') = kp_secret (es_kp e) ∧
  match r with Ok k => k = kp_secret (es_kp e) | Err _ => True end.
Proof using.
  unfold enc_Key, zoom. destruct (kp_Key (es_kp e)) as [r1 k1] eqn:E. apply kp_Key_law in E as [E1 E2]. by intros [= <- <-].
Qed.

(** A write of the wrapper is a write of an encryption of the data inside, or
    nothing happens. *)
Lemma putEncrypted_run key r put e res e' : putEncrypted key r put e = (res, e') →
  kp_secret (es_kp e') = kp_secret (es_kp e) ∧
  ((∃ msg, res = Err (ErrText msg) ∧ es_inner e' = es_inner e) ∨
   ∃ er rp, put er (es_inner e) = (rp, es_inner e') ∧
     (source_ended er → source_ended r ∧ plain_of (kp_secret (es_kp e)) key (r_data er) = r_data r ∧ res = rp) ∧
     (∀ er, rp = Err er → res = rp) ∧ (res = Ok tt → rp = Ok tt)).
Proof using KOk.
  unfold putEncrypted, st_map_err, enc_rand, mbind, ST_bind, get_st, mret, ST_ret, throw. destruct (enc_Key e) as [[k|er] e1] eqn:Ek;
    apply enc_Key_run in Ek as (Hi & Hs & Hk); cbn [map_err].
  2:{ intros [= <- <-]. split; [done|]. left. eauto. }
  subst k. set (e2 := match es_rand e1 with [] => e1 | _ :: rs => mkEnc (es_inner e1) (es_kp e1) rs end).
  set (rnd := match es_rand e1 with [] => Err (ErrText "rand") | x :: _ => x end).
  assert ((match es_rand e1 with [] => (Ok (Err (ErrText "rand")), e1) | x :: rs => (Ok x, mkEnc (es_inner e1) (es_kp e1) rs) end) = (Ok rnd, e2)) as ->
    by (subst e2 rnd; by destruct (es_rand e1)).
  assert (es_inner e2 = es_inner e ∧ kp_secret (es_kp e2) = kp_secret (es_kp e)) as [Hi2 Hs2]
    by (subst e2; destruct (es_rand e1); cbn [es_inner es_kp]; by rewrite Hi, Hs).
  pose proof (encryptStream_spec key r (kp_secret (es_kp e)) (kp_KeyID (es_kp e2)) rnd (newGCM_ok (es_kp e))) as Henc.
  destruct (encryptStream key r _ _ rnd) as [c encErr] eqn:Ec. unfold on_inner, zoom. rewrite Hi2.
  set (er := mkReader c (default ErrEOF encErr)). destruct (put er (es_inner e)) as [rp s1] eqn:Ep.
  intros Hr. assert (es_inner e' = s1 ∧ kp_secret (es_kp e') = kp_secret (es_kp e) ∧
    (∀ er, rp = Err er → res = rp) ∧ (res = Ok tt → rp = Ok tt) ∧ (encErr = None → res = rp)) as (<- & Hs' & H1 & H2 & H3).
  { destruct rp as [[]|ep], encErr as [ee|]; injection Hr as <- <-; cbn [es_inner es_kp]; naive_solver. }
  split; [done|]. right. exists er, rp. split; [done|]. split_and!; [|done|done].
  subst er. destruct encErr as [ee|]; [by intros Hse; destruct Henc|]. intros _. destruct Henc as [Hse _].
  split; [done|]. split; [|by apply H3]. cbn [r_data]. by eapply plain_encrypted; [apply newGCM_ok|].
Qed.

Lemma decryptBody_run key rc e res e' : decryptBody key rc e = (res, e') →
  es_inner e' = es_inner e ∧ kp_secret (es_kp e') = kp_secret (es_kp e) ∧
  match res with
  | Ok rd => ∃ d, newDecryptReader key rc (kp_secret (es_kp e)) = Ok d ∧ rd = decrypted d
  | Err er => ∃ msg, er = ErrText msg
  end.
Proof using KOk.
  unfold decryptBody, st_map_err, from_result, mbind, ST_bind, mret, ST_ret. destruct (enc_Key e) as [[k|er] e1] eqn:Ek;
    apply enc_Key_run in Ek as (Hi & Hs & Hk); cbn [map_err]; [subst k|intros [= <- <-]; eauto].
  destruct (newDecryptReader key rc (kp_secret (es_kp e))) as [d|er] eqn:Ed; intros [= <- <-]; [eauto|].
  split; [done|]. split; [done|]. unfold newDecryptReader in Ed. rewrite newGCM_ok in Ed. repeat case_match; simplify_eq; eauto.
Qed.

Lemma on_inner_run {A} (m : ST S A) e r e' : on_inner m e = (r, e') → m (es_inner e) = (r, es_inner e') ∧ es_kp e' = es_kp e.
Proof using. unfold on_inner, zoom. destruct (m (es_inner e)) as [r1 s1]. by intros [= <- <-]. Qed.

(** A read of the wrapper decrypts a body of the store inside. *)
Lemma enc_body key rc c e res e' : objects (es_inner e) !! key = Some c → body_of rc c → decryptBody key rc e = (res, e') →
  enc_objects e' = enc_objects e ∧
  match res with Ok rd => ∃ d, enc_objects e !! key = Some d ∧ body_of rd d | Err er => er ≠ ErrNotFound end.
Proof using KOk.
  intros Hc Hb Hr. apply decryptBody_run in Hr as (Hi & Hs & Hres). split; [apply enc_objects_same; [done|by rewrite Hi]|].
  destruct res as [rd|er]; [|by destruct Hres as [msg ->]]. destruct Hres as (d & Hd & ->).
  exists (plain_of (kp_secret (es_kp e)) key c). split; [by rewrite enc_objects_lookup, Hc|]. by eapply decrypt_part.
Qed.
End Store.

#[global] Program Instance enc_store_ok {S K} `{OI : ObjectStore S} `{KI : KeyProvider K} `{!ObjectStoreOk S} `{!KeyProviderOk K} :
  ObjectStoreOk (encryptedStore S K) := {| objects := enc_objects |}.
Next Obligation.
  intros S K OI KI OOk KOk k r s res s' H. apply putEncrypted_run in H as (Hs & [(msg & -> & Hi)|(er & rp & Hp & Hend & Herr & Hok)]).
  { left. apply enc_objects_same; [done|by rewrite Hi]. }
  apply obj_Put_law in Hp. destruct res as [[]|e].
  - rewrite Hok in Hp by done. destruct Hp as [Hse Ho]. destruct (Hend Hse) as (Hr & Hpl & _).
    split; [done|]. by rewrite (enc_objects_insert _ _ _ _ Hs Ho), Hpl.
  - destruct rp as [[]|ep].
    + destruct Hp as [Hse _]. by destruct (Hend Hse) as (_ & _ & ?).
    + destruct Hp as [Ho|[Hse Ho]]; [left; by apply enc_objects_same|right]. destruct (Hend Hse) as (Hr & Hpl & _).
      split; [done|]. by rewrite (enc_objects_insert _ _ _ _ Hs Ho), Hpl.
Qed.
Next Obligation.
  intros S K OI KI OOk KOk k s res s' H. cbn [obj_Get enc_store] in H. unfold enc_Get, mbind, ST_bind in H.
  destruct (on_inner (obj_Get k) s) as [r1 s1] eqn:E1. apply on_inner_run in E1 as [E1 Hk]. apply obj_Get_law in E1 as [Ho Hr].
  assert (enc_objects s1 = enc_objects s) as Hsame by (apply enc_objects_same; [by rewrite Hk|done]).
  destruct r1 as [rc|e].
  - destruct Hr as (c & Hc & Hb). rewrite <- Ho in Hc. destruct (enc_body k rc c s1 res s' Hc Hb H) as [H1 H2]. split; [congruence|].
    rewrite <- Hsame. destruct res as [|e]; [done|]. by destruct e.
  - injection H as <- <-. split; [done|]. destruct e; try done. by rewrite enc_objects_lookup, Hr.
Qed.
Next Obligation.
  intros S K OI KI OOk KOk k s res s' H. apply on_inner_run in H as [H Hk]. apply obj_Delete_law in H.
  assert (objects (es_inner s') = delete k (objects (es_inner s)) → enc_objects s' = delete k (enc_objects s)) as Hdel.
  { intros Ho. apply map_eq. intros k'. rewrite enc_objects_lookup, Ho, Hk.
    destruct (decide (k' = k)) as [->|Hne]; [by rewrite !lookup_delete_eq|by rewrite !lookup_delete_ne, enc_objects_lookup]. }
  destruct res; [by apply Hdel|]. destruct H as [H|H]; [left; apply enc_objects_same; [by rewrite Hk|done]|right; by apply Hdel].
Qed.
Next Obligation.
  intros S K OI KI OOk KOk ks s res s' H k. apply on_inner_run in H as [H Hk]. apply (obj_DeleteMany_law _ _ _ _) with (k := k) in H as [H1 H2].
  rewrite !enc_objects_lookup, Hk. split; [intros Hn; by rewrite H1|]. intros Hin. destruct (H2 Hin) as [->|[Hne ->]]; [by left|by right].
Qed.
Next Obligation.
  intros S K OI KI OOk KOk p s res s' H. apply on_inner_run in H as [H Hk]. apply obj_List_law in H as [Ho H].
  split; [apply enc_objects_same; [by rewrite Hk|done]|]. destruct res as [l|]; [|done]. destruct H as [Hs Hl]. split; [done|].
  intros k. rewrite Hl, enc_objects_lookup, fmap_is_Some. done.
Qed.

(** The entity tag of an encrypted object is that of the object inside. *)
#[global] Program Instance enc_cond_ok {S K} `{OI : ObjectStore S} `{CI : !ConditionalStore S} `{KI : KeyProvider K}
  `{OOk : !ObjectStoreOk S} `{COk : !ConditionalStoreOk S} `{KOk : !KeyProviderOk K} :
  ConditionalStoreOk (encryptedStore S K) := {| etag_at e k := etag_at (es_inner e) k |}.
Next Obligation.
  intros S K OI CI KI OOk COk KOk k s res s' H. cbn [obj_GetETag enc_cond_store] in H. unfold enc_GetETag, mbind, ST_bind in H.
  destruct (on_inner (obj_GetETag k) s) as [r1 s1] eqn:E1. apply on_inner_run in E1 as [E1 Hk]. apply obj_GetETag_law in E1 as (Ho & He & Hr).
  change (@objects (encryptedStore S K) _ _) with (@enc_objects S K _ _ _ _).
  assert (enc_objects s1 = enc_objects s) as Hsame by (apply enc_objects_same; [by rewrite Hk|done]).
  destruct r1 as [[rc etag]|e].
  - destruct Hr as (Het & c & Hc & Hb). rewrite <- Ho in Hc. destruct (decryptBody k rc s1) as [r2 s2] eqn:E2.
    assert (es_inner s2 = es_inner s1) as Hi by apply (decryptBody_run k rc s1 r2 s2 E2).
    destruct (enc_body k rc c s1 r2 s2 Hc Hb E2) as [H1 H2].
    assert (s' = s2) as -> by (by destruct r2; injection H as <- <-).
    split; [congruence|]. split; [intros k'; by rewrite Hi, He|]. rewrite <- Hsame.
    destruct r2 as [rd|e]; injection H as <-; [|by destruct e]. done.
  - injection H as <- <-. split; [done|]. split; [done|]. destruct e; try done. by rewrite enc_objects_lookup, Hr.
Qed.
Next Obligation.
  intros S K OI CI KI OOk COk KOk k r s res s' H. apply putEncrypted_run in H as (Hs & [(msg & -> & Hi)|(er & rp & Hp & Hend & Herr & Hok)]).
  { left. apply enc_objects_same; [done|by rewrite Hi]. }
  apply obj_PutIfAbsent_law in Hp. change (@objects (encryptedStore S K) _ _) with (@enc_objects S K _ _ _ _).
  assert (objects (es_inner s) !! k = None ∧ source_ended er ∧ objects (es_inner s') = <[k:=r_data er]> (objects (es_inner s)) →
    enc_objects s !! k = None ∧ source_ended r ∧ enc_objects s' = <[k:=r_data r]> (enc_objects s)) as Hput.
  { intros (Hn & Hse & Ho). destruct (Hend Hse) as (Hr & Hpl & _). split; [by rewrite enc_objects_lookup, Hn|]. split; [done|].
    by rewrite (enc_objects_insert _ _ _ _ Hs Ho), Hpl. }
  destruct res as [[]|e]; [rewrite Hok in Hp by done; by apply Hput|].
  destruct rp as [[]|ep]; [by destruct Hp as (_ & Hse & _); destruct (Hend Hse) as (_ & _ & ?)|].
  specialize (Herr ep eq_refl). injection Herr as ->.
  destruct ep; try (destruct Hp as [Ho|Hp]; [left; by apply enc_objects_same|right; by apply Hput]). by apply enc_objects_same.
Qed.
Next Obligation.
  intros S K OI CI KI OOk COk KOk k r m s res s' H. apply putEncrypted_run in H as (Hs & [(msg & -> & Hi)|(er & rp & Hp & Hend & Herr & Hok)]).
  { left. apply enc_objects_same; [done|by rewrite Hi]. }
  apply obj_PutIfMatch_law in Hp. change (@objects (encryptedStore S K) _ _) with (@enc_objects S K _ _ _ _).
  assert (etag_at (es_inner s) k = Some m ∧ is_Some (objects (es_inner s) !! k) ∧ source_ended er ∧ objects (es_inner s') = <[k:=r_data er]> (objects (es_inner s)) →
    etag_at (es_inner s) k = Some m ∧ is_Some (enc_objects s !! k) ∧ source_ended r ∧ enc_objects s' = <[k:=r_data r]> (enc_objects s)) as Hput.
  { intros (Ht & Hn & Hse & Ho). destruct (Hend Hse) as (Hr & Hpl & _). split; [done|].
    split; [by rewrite enc_objects_lookup, fmap_is_Some|]. split; [done|]. by rewrite (enc_objects_insert _ _ _ _ Hs Ho), Hpl. }
  destruct res as [[]|e]; [rewrite Hok in Hp by done; by apply Hput|].
  destruct rp as [[]|ep]; [by destruct Hp as (_ & _ & Hse & _); destruct (Hend Hse) as (_ & _ & ?)|].
  specialize (Herr ep eq_refl). injection Herr as ->.
  destruct ep; try (destruct Hp as [Ho|Hp]; [left; by apply enc_objects_same|right; by apply Hput]). by apply enc_objects_same.
Qed.

(** ** Properties *)

Section Properties.
Context {S K : Type} `{OI : ObjectStore S} `{KI : KeyProvider K} `{OOk : !ObjectStoreOk S} `{KOk : !KeyProviderOk K}.
Implicit Types e : encryptedStore S K.

(** C30. What was put into the encrypted store is what is read from it, over any
    store that keeps its objects and with any key: after a successful put the
    object is there, a read that succeeds delivers its bytes, all of them when
    it ends without an error, and no other object has changed. *)
Theorem encrypted_roundtrip key r e e1 res e2 :
  enc_Put key r e = (Ok tt, e1) → enc_Get key e1 = (res, e2) →
  enc_objects e2 = <[key := r_data r]> (enc_objects e) ∧
  match res with Ok rd => body_of rd (r_data r) | Err er => er ≠ ErrNotFound end.
Proof using OOk KOk.
  intros Hp Hg. change (obj_Put key r e = (Ok tt, e1)) in Hp. change (obj_Get key e1 = (res, e2)) in Hg.
  apply obj_Put_law in Hp as [_ Ho]. apply obj_Get_law in Hg as [Ho2 Hr].
  cbn [objects enc_store_ok] in *. rewrite Ho in Ho2, Hr. split; [done|]. rewrite lookup_insert_eq in Hr.
  destruct res as [rd|er]; [|by destruct er]. by destruct Hr as (d & [= <-] & ?).
Qed.

End Properties.

(** C31. An encrypted object that has lost its end is never taken for a whole
    one: whatever part of the stored bytes is left, its reader delivers a first
    part of the plaintext and ends with an error. *)
Theorem encrypted_cut_detected key r secret keyID rnd c p x er :
  length secret = 32%nat → encryptStream key r secret keyID rnd = (c, None) → c = p ++ x → x ≠ [] →
  match newDecryptReader key (mkReader p er) secret with
  | Ok d => r_data (decrypted d) `prefix_of` r_data r ∧ r_err (decrypted d) ≠ ErrEOF
  | Err _ => True
  end.
Proof.
  intros Hl He Hc Hx. assert (newGCM secret = Ok secret) as Hg by (unfold newGCM; by rewrite Hl).
  pose proof (encryptStream_spec key r secret keyID rnd Hg) as H. rewrite He in H. destruct H as (_ & nonce & out & Hn & Hc' & Henc).
  rewrite Hc in Hc'. apply app_eq_inv in Hc' as [(y & -> & Hy)|(y & Hp & Hy)].
  - rewrite new_reader by done. unfold decrypted. cbn [d_pos d_buf d_done drop app r_data r_err].
    apply (drain_truncated _ _ _ _ _ _ _ Henc _ x); [by repeat split|done|done|done].
  - destruct y as [|b y].
    + rewrite app_nil_r in Hp. subst p. rewrite <- (app_nil_r (encHeader keyID nonce)), new_reader by done.
      unfold decrypted. cbn [d_pos d_buf d_done drop app r_data r_err].
      apply (drain_truncated _ _ _ _ _ _ _ Henc _ x); [by repeat split|done|done|done].
    + unfold newDecryptReader. rewrite Hg. destruct (read_full_short encHeaderLen p er) as (er' & -> & _); [|done].
      apply (f_equal length) in Hp. unfold encHeader in Hp. rewrite !length_app, Hn in Hp. cbn in Hp. unfold encHeaderLen. lia.
Qed.
Lemma be_u64_inj i j : is_u64 i → is_u64 j → be 8 i = be 8 j → i = j.
Proof. intros Hi Hj H. apply (f_equal unbe) in H. rewrite !unbe_be_u64 in H. unfold u64, is_u64 in *. rewrite !Z.mod_small in H by lia. done. Qed.

(** Frames are kept apart: two frames of an object are sealed under
    different nonces, and the associated data determines the object key, the
    header, the position in the object, the length, and whether the frame is the
    last one. *)
Lemma frames_separated base key hdr len key' hdr' len' i j f f' :
  is_u64 i → is_u64 j → length base = 12%nat → length hdr = length hdr' → length len = length len' →
  (chunkNonce base i = chunkNonce base j → i = j) ∧
  (frameAAD key hdr i f len = frameAAD key' hdr' j f' len' → key = key' ∧ hdr = hdr' ∧ i = j ∧ f = f' ∧ len = len').
Proof.
  intros Hi Hj Hb Hh Hl. split.
  - unfold chunkNonce. intros H%app_inv_head. pose proof (unbe_range (drop 4 base)) as Hr.
    unfold zlen in Hr. rewrite length_drop, Hb in Hr. change (256 ^ Z.of_nat (12 - 4)) with (2 ^ 64) in Hr.
    unfold is_u64 in *. apply be_u64_inj in H; [|apply (lxor_range 64); lia..].
    apply (f_equal (Z.lxor (unbe (drop 4 base)))) in H. by rewrite <- !Z.lxor_assoc, !Z.lxor_nilpotent, !Z.lxor_0_l in H.
  - unfold frameAAD. intros H%app_inv_head%app_inv_head.
    assert (length (be 8 i ++ (if f then [x01] else [x00]) ++ len) = length (be 8 j ++ (if f' then [x01] else [x00]) ++ len')) as Hlen
      by (rewrite !length_app, !length_be, Hl; by destruct f, f').
    apply app_inj_2 in H as [-> H]; [|by rewrite !length_app, Hh; rewrite !length_app in Hlen; lia].
    apply app_inj_1 in H as [-> H]; [|done]. apply app_inj_1 in H as [Hij H]; [|by rewrite !length_be].
    apply be_u64_inj in Hij; [|done..]. apply app_inj_1 in H as [Hff ->]; [|by destruct f, f'].
    do 3 (split; [done|]). split; [by destruct f, f'|done].
Qed.

(** ** Runs *)

Definition key32 : bytes := replicate 32 x07.
Definition key32_len : length key32 = 32%nat := eq_refl.
Definition enc0 : encryptedStore Mem StaticKeyProvider := NewEncryptedStore NewMem (mkStatic key32 key32_len) [Ok 5; Ok 6].

Lemma encrypted_roundtrip_witness :
  let r := mkReader (str "hello") ErrEOF in
  let e1 := (enc_Put (str "k") r enc0).2 in
  enc_objects (enc_Get (str "k") e1).2 = <[str "k" := str "hello"]> (enc_objects enc0) ∧
  match (enc_Get (str "k") e1).1 with Ok rd => body_of rd (str "hello") | Err er => er ≠ ErrNotFound end.
Proof.
  apply (encrypted_roundtrip (str "k") (mkReader (str "hello") ErrEOF) enc0 _ _ _ (run_pair _ _ _ ltac:(by vm_compute)) (surjective_pairing _)).
Defined.

Lemma encrypted_cut_detected_witness :
  let c := (encryptStream (str "k") (mkReader (str "hello") ErrEOF) key32 x00 (Ok 5)).1 in
  match newDecryptReader (str "k") (mkReader (take 42 c) ErrEOF) key32 with
  | Ok d => r_data (decrypted d) `prefix_of` str "hello" ∧ r_err (decrypted d) ≠ ErrEOF
  | Err _ => True
  end.
Proof.
  apply (encrypted_cut_detected (str "k") (mkReader (str "hello") ErrEOF) key32 x00 (Ok 5)
    (encryptStream (str "k") (mkReader (str "hello") ErrEOF) key32 x00 (Ok 5)).1 _
    (drop 42 (encryptStream (str "k") (mkReader (str "hello") ErrEOF) key32 x00 (Ok 5)).1)).
  - done.
  - by vm_compute.
  - by rewrite take_drop.
  - by vm_compute.
Defined.

(** ** Departures *)

(** A source that fails with [io.ErrUnexpectedEOF], as the body of a broken
    HTTP answer does, is stored as a complete object. *)
Lemma broken_source_stored :
  let '(r, e1) := enc_Put (str "k") (mkReader (str "hel") ErrUnexpectedEOF) enc0 in
  r = Ok tt ∧ (enc_Get (str "k") e1).1 = Ok (mkReader (str "hel") ErrEOF).
Proof. by vm_compute. Qed.

(** Bytes behind the last frame are not looked at. *)
Lemma trailing_bytes_ignored :
  let c := (encryptStream (str "k") (mkReader (str "hello") ErrEOF) key32 x00 (Ok 5)).1 in
  decrypted <$> newDecryptReader (str "k") (mkReader (c ++ str "more") ErrEOF) key32 = Ok (mkReader (str "hello") ErrEOF).
Proof. by vm_compute. Qed.
