(* ===== verification/S3.v ===== *)
(** * The S3 object store

    pkg/object/s3.go: an object store in a bucket of an S3-compatible service,
    all keys under an optional prefix.  The client of the service (minio-go) is
    a class with the behaviour that S3 documents as laws; the store on top of it
    satisfies the laws of [Object], and stores under different prefixes of one
    bucket do not touch each other's objects. *)

From S2P Require Import Prelude Bytes WalEntry Os Object AesGcm Cipher CipherStore.

(** ** The client *)

(** [minio.ErrorResponse], and errors that are not answers of the service. *)
Inductive merr := Response (Code : bytes) (StatusCode : Z) (Message : bytes) | Transport (e : err).

Record ObjectInfo := mkInfo { oi_ETag : bytes }.

(** [minio.PutObjectOptions]: the headers [If-None-Match: *] and [If-Match]. *)
Inductive PutObjectOptions := NoCondition | MatchETagExcept | MatchETag (etag : bytes).

(** The calls of the client.  [GetObject] only prepares a request; [Stat] sends
    it, and the object then delivers its body. *)
Class Minio (C : Type) : Type := {
  mc_object : Type;
  mc_PutObject : bytes → bytes → reader → Z → PutObjectOptions → C → (() + merr) * C;
  mc_GetObject : bytes → bytes → bytes → C → (mc_object + merr) * C;
  mc_Stat : mc_object → C → (ObjectInfo * reader + merr) * C;
  mc_RemoveObject : bytes → bytes → C → (() + merr) * C;
  mc_RemoveObjects : bytes → list bytes → C → list (bytes * option merr) * C;
  mc_ListObjects : bytes → bytes → C → list (bytes + merr) * C }.

(** ** Errors of the service *)

Definition isNotFound (e : merr) : bool :=
  match e with
  | Response Code StatusCode _ => bool_decide (Code = str "NoSuchKey") || (StatusCode =? 404)
  | Transport _ => false
  end.

Definition isPreconditionFailed (e : merr) : bool :=
  match e with
  | Response Code _ _ => bool_decide (Code = str "PreconditionFailed") || bool_decide (Code = str "ConditionalRequestConflict")
  | Transport _ => false
  end.

(** [strings.Contains]. *)
Fixpoint bytes_contains (sub s : bytes) : bool :=
  has_prefix sub s || match s with [] => false | _ :: s' => bytes_contains sub s' end.

Definition isInvalidVersion (e : merr) : bool :=
  match e with
  | Response Code _ Message =>
      bool_decide (Code = str "NoSuchVersion") || (bool_decide (Code = str "InvalidArgument") && bytes_contains (str "version") Message)
  | Transport _ => false
  end.

(** ** Configuration *)

Record S3Config := mkS3Config {
  s3c_Bucket : bytes; s3c_Prefix : bytes; s3c_Endpoint : bytes; s3c_Region : bytes; s3c_Profile : bytes;
  s3c_AccessKeyID : bytes; s3c_SecretAccessKey : bytes; s3c_SessionToken : bytes; s3c_CABundle : bytes }.

Definition is_empty (s : bytes) : bool := bool_decide (s = []).

Definition s3EndpointSecure (endpoint : bytes) : bool :=
  if is_empty endpoint then true else has_prefix (str "https://") endpoint.

Definition effectiveS3Region (cfg : S3Config) : bytes :=
  if negb (is_empty (s3c_Region cfg)) then s3c_Region cfg
  else if negb (is_empty (s3c_Endpoint cfg)) then str "us-east-1"
  else [].

(** Where credentials come from: static ones, or the chain of the environment,
    a profile and the instance metadata. *)
Inductive Credentials := StaticV4 (id secret token : bytes) | ChainCredentials (profile : bytes).

Record Options := mkOptions { op_Creds : Credentials; op_Secure : bool; op_Region : bytes; op_Transport : option bytes }.

(** [loadCA] reads the certificates of a bundle, [None] when there are none. *)
Definition s3MinioOptions (loadCA : bytes → option bytes) (cfg : S3Config) : result Options :=
  if negb (Bool.eqb (is_empty (s3c_AccessKeyID cfg)) (is_empty (s3c_SecretAccessKey cfg))) then
    Err (ErrText "object/s3: AccessKeyID and SecretAccessKey must both be set or both be empty")
  else if negb (is_empty (s3c_SessionToken cfg)) && is_empty (s3c_AccessKeyID cfg) then
    Err (ErrText "object/s3: SessionToken set without AccessKeyID/SecretAccessKey")
  else if is_empty (s3c_AccessKeyID cfg) && is_empty (s3c_Profile cfg) then
    Err (ErrText "object/s3: credentials not configured")
  else
    let creds :=
      if negb (is_empty (s3c_AccessKeyID cfg)) then StaticV4 (s3c_AccessKeyID cfg) (s3c_SecretAccessKey cfg) (s3c_SessionToken cfg)
      else ChainCredentials (s3c_Profile cfg) in
    let opts := mkOptions creds (s3EndpointSecure (s3c_Endpoint cfg)) (effectiveS3Region cfg) in
    if negb (is_empty (s3c_CABundle cfg)) then
      match loadCA (s3c_CABundle cfg) with
      | None => Err (ErrText "object/s3: CA bundle")
      | Some transport => Ok (opts (Some transport))
      end
    else Ok (opts None).

(** ** The store *)

Record S3Store (C : Type) := mkS3 { s3_client : C; s3_bucket : bytes; s3_prefix : bytes }.
Arguments mkS3 {C} _ _ _.
Arguments s3_client {C} _.
Arguments s3_bucket {C} _.
Arguments s3_prefix {C} _.

(** [strings.Trim(prefix, "/")]. *)
Fixpoint trim_left (s : bytes) : bytes :=
  match s with b :: s' => if bool_decide (b = x2f) then trim_left s' else s | [] => [] end.
Definition normalizePrefix (prefix : bytes) : bytes := reverse (trim_left (reverse (trim_left prefix))).

Definition NewS3Store {C} (client : C) (bucket prefix : bytes) : S3Store C := mkS3 client bucket (normalizePrefix prefix).

Definition s3_root (prefix : bytes) : bytes := if is_empty prefix then [] else prefix ++ str "/".

(** What is known of the length of a reader: a [Len] method, a file with its
    size and position, or nothing. *)
Inductive source := Len (n : Z) | File (size pos : Z) | Opaque.

Definition sniffReaderSize (src : source) : Z :=
  match src with Len n => n | File size pos => size - pos | Opaque => -1 end.

Section S3.
Context {C : Type} `{MI : Minio C}.
Local Notation S3Store := (S3Store C).

(** The dynamic type of a reader. *)
Context (source_of : reader → source).

Definition s3_key (s : S3Store) (k : bytes) : bytes := if is_empty (s3_prefix s) then k else s3_prefix s ++ str "/" ++ k.

Definition on_client {A} (m : C → A * C) : ST S3Store A := λ s,
  let '(a, c) := m (s3_client s) in (Ok a, mkS3 c (s3_bucket s) (s3_prefix s)).

Definition s3_put_with (opts : PutObjectOptions) (key : bytes) (r : reader) : ST S3Store () :=
  s ← get_st;
  res ← on_client (mc_PutObject (s3_bucket s) (s3_key s key) r (sniffReaderSize (source_of r)) opts);
  match res with
  | inl _ => mret tt
  | inr e =>
      match opts with
      | NoCondition => throw (ErrText "object/s3: put")
      | _ => if isPreconditionFailed e then throw ErrPreconditionFailed else throw (ErrText "object/s3: conditional put")
      end
  end.

Definition s3_Put : bytes → reader → ST S3Store () := s3_put_with NoCondition.
Definition s3_PutIfAbsent : bytes → reader → ST S3Store () := s3_put_with MatchETagExcept.
Definition s3_PutIfMatch (key : bytes) (r : reader) (matchETag : bytes) : ST S3Store () := s3_put_with (MatchETag matchETag) key r.

Definition s3_fetch (key versionID : bytes) : ST S3Store (ObjectInfo * reader) :=
  s ← get_st;
  res ← on_client (mc_GetObject (s3_bucket s) (s3_key s key) versionID);
  match res with
  | inr _ => throw (ErrText "object/s3: get")
  | inl obj =>
      info ← on_client (mc_Stat obj);
      match info with
      | inl i => mret i
      | inr e =>
          if isNotFound e || (negb (is_empty versionID) && isInvalidVersion e) then throw ErrNotFound
          else throw (ErrText "object/s3: get")
      end
  end.

Definition s3_getVersioned (key versionID : bytes) : ST S3Store reader := '(_, body) ← s3_fetch key versionID; mret body.
Definition s3_Get (key : bytes) : ST S3Store reader := s3_getVersioned key [].
Definition s3_GetETag (key : bytes) : ST S3Store (reader * bytes) := '(info, body) ← s3_fetch key []; mret (body, oi_ETag info).

Definition s3_Delete (key : bytes) : ST S3Store () :=
  s ← get_st;
  res ← on_client (mc_RemoveObject (s3_bucket s) (s3_key s key));
  match res with inl _ => mret tt | inr _ => throw (ErrText "object/s3: delete") end.

Definition s3_DeleteMany (keys : list bytes) : ST S3Store () :=
  match keys with
  | [] => mret tt
  | _ :: _ =>
      s ← get_st;
      answers ← on_client (mc_RemoveObjects (s3_bucket s) (map (s3_key s) keys));
      if forallb (λ a, match a.2 with None => true | Some _ => false end) answers then mret tt
      else throw (ErrText "object/s3: delete-many")
  end.

Fixpoint list_loop (skip : nat) (answers : list (bytes + merr)) (keys : list bytes) : result (list bytes) :=
  match answers with
  | [] => Ok keys
  | inr _ :: _ => Err (ErrText "object/s3: list")
  | inl k :: answers' => list_loop skip answers' (keys ++ [drop skip k])
  end.

Definition s3_List (prefix : bytes) : ST S3Store (list bytes) :=
  s ← get_st;
  answers ← on_client (mc_ListObjects (s3_bucket s) (s3_key s prefix));
  from_result (list_loop (if is_empty (s3_prefix s) then 0 else length (s3_prefix s) + 1) answers []).
End S3.

(** ** What the service promises *)

(** The documented behaviour of the service and of the client: conditional
    writes, atomic replacement, sorted listings; a write that reports an error
    may have happened.  A size of -1 lets the client read to the end of the
    data; otherwise it reads that many bytes. *)
Definition put_complete (r : reader) (size : Z) : Prop := size = -1 ∧ source_ended r ∨ size = zlen (r_data r).

Class MinioOk (C : Type) `{MI : Minio C} : Type := {
  mb_objects : C → bytes → gmap bytes bytes;
  mb_etag : C → bytes → bytes → option bytes;
  mc_PutObject_law b k r size opts c res c' : mc_PutObject b k r size opts c = (res, c') →
    size = -1 ∨ zlen (r_data r) ≤ size →
    let written :=
      match opts with
      | NoCondition => True
      | MatchETagExcept => mb_objects c b !! k = None
      | MatchETag etag => mb_etag c b k = Some etag ∧ is_Some (mb_objects c b !! k)
      end ∧ put_complete r size ∧ mb_objects c' b = <[k := r_data r]> (mb_objects c b) in
    match res with
    | inl _ => written
    | inr e => mb_objects c' b = mb_objects c b ∨ isPreconditionFailed e = false ∧ written
    end;
  mc_GetObject_law b k v c res c' : mc_GetObject b k v c = (res, c') →
    mb_objects c' = mb_objects c ∧ mb_etag c' = mb_etag c;
  mc_Stat_law b k v c o c1 res c2 : mc_GetObject b k v c = (inl o, c1) → mc_Stat o c1 = (res, c2) →
    mb_objects c2 = mb_objects c1 ∧ mb_etag c2 = mb_etag c1 ∧
    (v = [] → match res with
     | inl (info, rd) => mb_etag c1 b k = Some (oi_ETag info) ∧ ∃ d, mb_objects c1 b !! k = Some d ∧ body_of rd d
     | inr e => isNotFound e = true → mb_objects c1 b !! k = None
     end);
  mc_RemoveObject_law b k c res c' : mc_RemoveObject b k c = (res, c') →
    match res with
    | inl _ => mb_objects c' b = delete k (mb_objects c b)
    | inr _ => mb_objects c' b = mb_objects c b ∨ mb_objects c' b = delete k (mb_objects c b)
    end;
  mc_RemoveObjects_law b ks c res c' : mc_RemoveObjects b ks c = (res, c') →
    ∀ k, (k ∉ ks → mb_objects c' b !! k = mb_objects c b !! k) ∧
         (k ∈ ks → mb_objects c' b !! k = None ∨ (∃ e, (k, Some e) ∈ res) ∧ mb_objects c' b !! k = mb_objects c b !! k);
  mc_ListObjects_law b p c res c' : mc_ListObjects b p c = (res, c') →
    mb_objects c' = mb_objects c ∧ (∀ l, res = map inl l → listing p (mb_objects c b) l) }.

(** ** The objects under a prefix *)

Definition under (root : bytes) (m : gmap bytes bytes) : gmap bytes bytes :=
  list_to_map (omap (λ kd, if has_prefix root kd.1 then Some (drop (length root) kd.1, kd.2) else None) (map_to_list m)).

Lemma under_elem root m k d :
  (k, d) ∈ omap (λ kd : bytes * bytes, if has_prefix root kd.1 then Some (drop (length root) kd.1, kd.2) else None) (map_to_list m) ↔
  m !! (root ++ k) = Some d.
Proof.
  rewrite list_elem_of_omap. split.
  - intros ([k' d'] & Hin & Hk). cbn [fst snd] in Hk. destruct (has_prefix root k') eqn:Hp; [|done].
    apply has_prefix_spec in Hp as [x ->]. rewrite drop_app_length in Hk. injection Hk as -> ->. by apply elem_of_map_to_list in Hin.
  - intros Hm. exists (root ++ k, d). split; [by apply elem_of_map_to_list|]. cbn [fst snd].
    rewrite (proj2 (has_prefix_spec root (root ++ k))) by eauto. by rewrite drop_app_length.
Qed.

Lemma under_lookup root m k : under root m !! k = m !! (root ++ k).
Proof.
  unfold under. destruct (m !! (root ++ k)) as [d|] eqn:Hm.
  - apply elem_of_list_to_map_1'; [|by apply under_elem]. intros d' Hd%under_elem. congruence.
  - apply not_elem_of_list_to_map_1. intros ([k' d'] & -> & Hin)%list_elem_of_fmap_1. apply under_elem in Hin. cbn [fst] in Hm. congruence.
Qed.

Lemma under_insert root m k d : under root (<[root ++ k := d]> m) = <[k := d]> (under root m).
Proof.
  apply map_eq. intros k'. rewrite under_lookup. destruct (decide (k' = k)) as [->|Hne]; [by rewrite !lookup_insert_eq|].
  rewrite !lookup_insert_ne, under_lookup; [done|done|]. intros ?%app_inv_head. congruence.
Qed.

Lemma under_delete root m k : under root (delete (root ++ k) m) = delete k (under root m).
Proof.
  apply map_eq. intros k'. rewrite under_lookup. destruct (decide (k' = k)) as [->|Hne]; [by rewrite !lookup_delete_eq|].
  rewrite !lookup_delete_ne, under_lookup; [done|done|]. intros ?%app_inv_head. congruence.
Qed.

(** A listing of the bucket without the prefix is a listing of the store. *)
Lemma under_listing root p m l : listing (root ++ p) m l → listing p (under root m) (map (drop (length root)) l).
Proof.
  intros [Hs Hl]. assert (∀ k, k ∈ l → ∃ x, k = root ++ p ++ x) as Hroot.
  { intros k Hk. apply Hl in Hk as [(x & ->)%has_prefix_spec _]. exists x. by rewrite app_assoc. }
  split.
  - clear Hl. induction Hs as [|k l Hs IH Hk]; cbn [map]; constructor; [apply IH; intros k' Hk'; apply Hroot; by right|].
    rewrite Forall_forall in *. intros y Hy. apply list_elem_of_In, in_map_iff in Hy as (k' & <- & Hk'%list_elem_of_In).
    specialize (Hk k' Hk'). destruct (Hroot k ltac:(by left)) as [x ->], (Hroot k' ltac:(by right)) as [x' ->].
    rewrite !drop_app_length. unfold bytes_lt in *. by rewrite bytes_cmp_app in Hk.
  - intros k. rewrite under_lookup. split.
    + intros (k' & <- & Hk'%list_elem_of_In)%list_elem_of_In%in_map_iff. destruct (Hroot k' Hk') as [x Hx]. apply Hl in Hk' as [_ Hk'].
      subst k'. rewrite drop_app_length. split; [apply has_prefix_spec; eauto|done].
    + intros [(x & ->)%has_prefix_spec Hm]. apply list_elem_of_In, in_map_iff. exists (root ++ p ++ x). rewrite drop_app_length.
      split; [done|]. apply list_elem_of_In, Hl. split; [apply has_prefix_spec; exists x; by rewrite app_assoc|done].
Qed.

(** ** The store satisfies the laws *)

Section Laws.
Context {C : Type} `{MI : Minio C} `{MOk : !MinioOk C}.
Local Notation S3Store := (S3Store C).

(** A reader of known length has at least that many bytes to come, and ends
    after them. *)
Definition sized (source_of : reader → source) : Prop :=
  ∀ r, sniffReaderSize (source_of r) = -1 ∨
       zlen (r_data r) ≤ sniffReaderSize (source_of r) ∧ (sniffReaderSize (source_of r) = zlen (r_data r) → source_ended r).

Context (source_of : reader → source) (Hsized : sized source_of).

Definition s3_objects (s : S3Store) : gmap bytes bytes := under (s3_root (s3_prefix s)) (mb_objects (s3_client s) (s3_bucket s)).

#[local] Instance s3_store : ObjectStore S3Store :=
  {| obj_Put := s3_Put source_of; obj_Get := s3_Get; obj_Delete := s3_Delete; obj_DeleteMany := s3_DeleteMany; obj_List := s3_List |}.
#[local] Instance s3_cond_store : ConditionalStore S3Store :=
  {| obj_GetETag := s3_GetETag; obj_PutIfAbsent := s3_PutIfAbsent source_of; obj_PutIfMatch := s3_PutIfMatch source_of |}.
#[local] Instance s3_versioned_store : VersionedStore S3Store := {| obj_GetVersioned := s3_getVersioned |}.

Lemma s3_key_root (s : S3Store) k : s3_key s k = s3_root (s3_prefix s) ++ k.
Proof using. unfold s3_key, s3_root. destruct (is_empty (s3_prefix s)); [done|]. by rewrite <- app_assoc. Qed.

(** The bucket and the prefix of a store do not change, and neither does the
    bucket outside of it. *)
Definition same_place (s s' : S3Store) : Prop := s3_bucket s' = s3_bucket s ∧ s3_prefix s' = s3_prefix s.

Lemma s3_put_run opts k r s res s' : s3_put_with source_of opts k r s = (res, s') →
  same_place s s' ∧
  let written := match opts with
    | NoCondition => True
    | MatchETagExcept => s3_objects s !! k = None
    | MatchETag etag => mb_etag (s3_client s) (s3_bucket s) (s3_key s k) = Some etag ∧ is_Some (s3_objects s !! k)
    end ∧ source_ended r ∧
    mb_objects (s3_client s') (s3_bucket s) = <[s3_key s k := r_data r]> (mb_objects (s3_client s) (s3_bucket s)) in
  let unchanged := mb_objects (s3_client s') (s3_bucket s) = mb_objects (s3_client s) (s3_bucket s) in
  match res with Ok _ => written | Err ErrPreconditionFailed => unchanged | Err _ => unchanged ∨ written end.
Proof using MOk Hsized.
  unfold s3_put_with, on_client, mbind, ST_bind, get_st, mret, ST_ret, throw.
  destruct (mc_PutObject _ _ r _ opts (s3_client s)) as [a c] eqn:E. apply mc_PutObject_law in E; [|destruct (Hsized r); lia || naive_solver].
  intros Hr. assert (s' = mkS3 c (s3_bucket s) (s3_prefix s)) as ->.
  { destruct a; [by injection Hr as <- <-|]. destruct opts; repeat case_match; by injection Hr as <- <-. }
  split; [done|]. cbv zeta in E |- *. cbn [s3_client]. unfold s3_objects. rewrite under_lookup, <- s3_key_root.
  assert (put_complete r (sniffReaderSize (source_of r)) → source_ended r) as Hse.
  { intros [[_ ?]|Hz]; [done|]. destruct (Hsized r) as [Hm|[_ Hs]]; [|by apply Hs]. unfold zlen in Hz. lia. }
  destruct a as [[]|e]; [injection Hr as <-; naive_solver|].
  destruct opts; [injection Hr as <-; naive_solver|..]; destruct (isPreconditionFailed e); injection Hr as <-; naive_solver.
Qed.

Lemma fetch_run k v s res s' : s3_fetch k v s = (res, s') →
  same_place s s' ∧ mb_objects (s3_client s') = mb_objects (s3_client s) ∧ mb_etag (s3_client s') = mb_etag (s3_client s) ∧
  (v = [] → match res with
   | Ok (info, rd) => mb_etag (s3_client s) (s3_bucket s) (s3_key s k) = Some (oi_ETag info) ∧ ∃ d, s3_objects s !! k = Some d ∧ body_of rd d
   | Err ErrNotFound => s3_objects s !! k = None
   | Err _ => True
   end).
Proof using MOk.
  unfold s3_fetch, on_client, mbind, ST_bind, get_st, mret, ST_ret, throw.
  destruct (mc_GetObject _ _ v (s3_client s)) as [[o|e] c1] eqn:E1; pose proof (mc_GetObject_law _ _ _ _ _ _ E1) as [H1 H2].
  2:{ by intros [= <- <-]. }
  cbn [s3_client]. destruct (mc_Stat o c1) as [a c2] eqn:E2. destruct (mc_Stat_law _ _ _ _ _ _ _ _ E1 E2) as (H3 & H4 & H5).
  unfold s3_objects. rewrite under_lookup, <- s3_key_root. rewrite H1, H2 in H5.
  destruct a as [[info rd]|e].
  - intros [= <- <-]. cbn [s3_client]. split; [done|]. split; [congruence|]. split; [congruence|]. intros Hv. by apply H5.
  - intros Hr. assert (s' = mkS3 c2 (s3_bucket s) (s3_prefix s)) as -> by (repeat case_match; by injection Hr as <- <-).
    cbn [s3_client]. split; [done|]. split; [congruence|]. split; [congruence|]. intros ->. specialize (H5 eq_refl). cbn [is_empty negb andb] in Hr.
    unfold is_empty in Hr. rewrite bool_decide_eq_true_2 in Hr by done. cbn [negb andb] in Hr. rewrite orb_false_r in Hr.
    destruct (isNotFound e); injection Hr as <-; [by apply H5|done].
Qed.

Lemma s3_objects_same (s s' : S3Store) : same_place s s' → mb_objects (s3_client s') = mb_objects (s3_client s) → s3_objects s' = s3_objects s.
Proof using. intros [H1 H2] H3. unfold s3_objects. by rewrite H1, H2, H3. Qed.

Lemma s3_objects_put (s s' : S3Store) k d : same_place s s' →
  mb_objects (s3_client s') (s3_bucket s) = <[s3_key s k := d]> (mb_objects (s3_client s) (s3_bucket s)) →
  s3_objects s' = <[k := d]> (s3_objects s).
Proof using. intros [H1 H2] H3. unfold s3_objects. by rewrite H1, H2, H3, s3_key_root, under_insert. Qed.

Lemma list_loop_run skip answers : ∀ keys,
  match list_loop skip answers keys with Ok l => ∃ ks, answers = map inl ks ∧ l = keys ++ map (drop skip) ks | Err _ => True end.
Proof using.
  induction answers as [|[k|e] answers IH]; intros keys; cbn [list_loop]; [exists []; by rewrite app_nil_r| |done].
  specialize (IH (keys ++ [drop skip k])). destruct (list_loop skip answers _) as [l|]; [|done]. destruct IH as (ks & -> & ->).
  exists (k :: ks). by rewrite <- app_assoc.
Qed.

Lemma s3_delete_run k s res s' : s3_Delete k s = (res, s') → same_place s s' ∧
  match res with
  | Ok _ => mb_objects (s3_client s') (s3_bucket s) = delete (s3_key s k) (mb_objects (s3_client s) (s3_bucket s))
  | Err _ => mb_objects (s3_client s') (s3_bucket s) = mb_objects (s3_client s) (s3_bucket s) ∨
             mb_objects (s3_client s') (s3_bucket s) = delete (s3_key s k) (mb_objects (s3_client s) (s3_bucket s))
  end.
Proof using MOk.
  unfold s3_Delete, on_client, mbind, ST_bind, get_st, mret, ST_ret, throw.
  destruct (mc_RemoveObject _ _ (s3_client s)) as [a c] eqn:E. apply mc_RemoveObject_law in E. destruct a; by intros [= <- <-].
Qed.

Lemma delete_many_run ks s res s' : s3_DeleteMany ks s = (res, s') → same_place s s' ∧
  ∀ key, (key ∉ map (s3_key s) ks → mb_objects (s3_client s') (s3_bucket s) !! key = mb_objects (s3_client s) (s3_bucket s) !! key) ∧
    (key ∈ map (s3_key s) ks → mb_objects (s3_client s') (s3_bucket s) !! key = None ∨
       res ≠ Ok tt ∧ mb_objects (s3_client s') (s3_bucket s) !! key = mb_objects (s3_client s) (s3_bucket s) !! key).
Proof using MOk.
  unfold s3_DeleteMany. destruct ks as [|k0 ks].
  { intros [= <- <-]. split; [done|]. intros key. split; [done|]. by intros ?%not_elem_of_nil. }
  unfold on_client, mbind, ST_bind, get_st, mret, ST_ret, throw. set (keys := map (s3_key s) (k0 :: ks)).
  destruct (mc_RemoveObjects _ keys (s3_client s)) as [answers c] eqn:E. intros Hr.
  assert (s' = mkS3 c (s3_bucket s) (s3_prefix s)) as -> by (destruct (forallb _ answers); by injection Hr as <- <-).
  split; [done|]. intros key. cbn [s3_client]. destruct (mc_RemoveObjects_law _ _ _ _ _ E key) as [H1 H2]. split; [done|].
  intros Hin. destruct (H2 Hin) as [?|[(e & He) ?]]; [by left|right]. split; [|done]. intros ->.
  destruct (forallb _ answers) eqn:Ef; [|by injection Hr]. rewrite forallb_forall in Ef. apply list_elem_of_In in He. by specialize (Ef _ He).
Qed.

#[local] Program Instance s3_store_ok : ObjectStoreOk S3Store := {| objects := s3_objects |}.
Next Obligation.
  intros k r s res s' H. apply s3_put_run in H as [Hp H]. cbv zeta in H.
  assert (mb_objects (s3_client s') (s3_bucket s) = mb_objects (s3_client s) (s3_bucket s) → s3_objects s' = s3_objects s) as Hsame.
  { intros Ho. unfold s3_objects. destruct Hp as [-> ->]. by rewrite Ho. }
  destruct res as [[]|e]; [destruct H as (_ & ? & H); split; [done|]; by apply s3_objects_put|].
  assert (mb_objects (s3_client s') (s3_bucket s) = mb_objects (s3_client s) (s3_bucket s) ∨ source_ended r ∧
    mb_objects (s3_client s') (s3_bucket s) = <[s3_key s k := r_data r]> (mb_objects (s3_client s) (s3_bucket s))) as [Ho|[Hs Ho]]
    by (destruct e; naive_solver); [left; by apply Hsame|right; split; [done|by apply s3_objects_put]].
Qed.
Next Obligation.
  intros k s res s' H. cbn [obj_Get s3_store] in H. unfold s3_Get, s3_getVersioned, mbind, ST_bind in H.
  destruct (s3_fetch k [] s) as [r1 s1] eqn:E. apply fetch_run in E as (Hp & Ho & _ & Hr). specialize (Hr eq_refl).
  destruct r1 as [[info rd]|e]; injection H as <- <-; (split; [by apply s3_objects_same|]); [apply Hr|]. by destruct e.
Qed.
Next Obligation.
  intros k s res s' H. apply s3_delete_run in H as [[Hb Hpf] H].
  assert (∀ m, mb_objects (s3_client s') (s3_bucket s) = m → s3_objects s' = under (s3_root (s3_prefix s)) m) as Ho.
  { intros m Hm. unfold s3_objects. by rewrite Hb, Hpf, Hm. }
  unfold s3_objects at 2 4. destruct res; [|destruct H as [H|H]; [left|right]]; rewrite (Ho _ H), ?s3_key_root, ?under_delete; done.
Qed.
Next Obligation.
  intros ks s res s' H k. apply delete_many_run in H as [[Hb Hpf] H]. destruct (H (s3_key s k)) as [H1 H2].
  unfold s3_objects. rewrite !under_lookup, Hb, Hpf, <- s3_key_root. split.
  - intros Hn. apply H1. intros (k' & Hk & Hin%list_elem_of_In)%list_elem_of_In%in_map_iff. rewrite !s3_key_root in Hk. apply app_inv_head in Hk. congruence.
  - intros Hin. apply H2. apply list_elem_of_In, in_map_iff. exists k. split; [done|by apply list_elem_of_In].
Qed.
Next Obligation.
  intros p s res s' H. cbn [obj_List s3_store] in H. unfold s3_List, on_client, from_result, mbind, ST_bind, get_st in H.
  destruct (mc_ListObjects _ _ (s3_client s)) as [answers c] eqn:E. apply mc_ListObjects_law in E as [Ho Hl]. injection H as <- <-.
  split; [by apply s3_objects_same|]. pose proof (list_loop_run (if is_empty (s3_prefix s) then 0 else length (s3_prefix s) + 1) answers []) as Hr.
  destruct (list_loop _ answers []) as [l|]; [|done]. destruct Hr as (ks & Hks & ->). cbn [app]. apply Hl in Hks.
  rewrite s3_key_root in Hks. apply under_listing in Hks. unfold s3_objects.
  assert (length (s3_root (s3_prefix s)) = if is_empty (s3_prefix s) then 0%nat else (length (s3_prefix s) + 1)%nat) as Hlen
    by (unfold s3_root; destruct (is_empty (s3_prefix s)); [done|by rewrite length_app]).
  by rewrite Hlen in Hks.
Qed.

#[local] Program Instance s3_cond_ok : ConditionalStoreOk S3Store :=
  {| etag_at s k := mb_etag (s3_client s) (s3_bucket s) (s3_key s k) |}.
Next Obligation.
  intros k s res s' H. cbn [obj_GetETag s3_cond_store] in H. unfold s3_GetETag, mbind, ST_bind in H.
  destruct (s3_fetch k [] s) as [r1 s1] eqn:E. apply fetch_run in E as (Hp & Ho & He & Hr). specialize (Hr eq_refl).
  assert (s' = s1) as -> by (destruct r1 as [[]|]; by injection H as <- <-).
  split; [by apply s3_objects_same|]. split; [intros k'; unfold s3_key; destruct Hp as [-> ->]; by rewrite He|].
  destruct r1 as [[info rd]|e]; injection H as <-; [done|]. by destruct e.
Qed.
Next Obligation.
  intros k r s res s' H. apply s3_put_run in H as [Hp H]. cbv zeta in H.
  assert (mb_objects (s3_client s') (s3_bucket s) = mb_objects (s3_client s) (s3_bucket s) → s3_objects s' = s3_objects s) as Hsame.
  { intros Ho. unfold s3_objects. destruct Hp as [-> ->]. by rewrite Ho. }
  pose proof (s3_objects_put s s' k (r_data r) Hp) as Hput. cbn [objects s3_store_ok].
  destruct res as [[]|e]; [naive_solver|]. destruct e; naive_solver.
Qed.
Next Obligation.
  intros k r m s res s' H. apply s3_put_run in H as [Hp H]. cbv zeta in H.
  assert (mb_objects (s3_client s') (s3_bucket s) = mb_objects (s3_client s) (s3_bucket s) → s3_objects s' = s3_objects s) as Hsame.
  { intros Ho. unfold s3_objects. destruct Hp as [-> ->]. by rewrite Ho. }
  pose proof (s3_objects_put s s' k (r_data r) Hp) as Hput. cbn [objects s3_store_ok].
  destruct res as [[]|e]; [naive_solver|]. destruct e; naive_solver.
Qed.

(** ** Stores under different prefixes *)

Inductive S3Op :=
  | SPut (key : bytes) (r : reader)
  | SPutIfAbsent (key : bytes) (r : reader)
  | SPutIfMatch (key : bytes) (r : reader) (etag : bytes)
  | SDelete (key : bytes)
  | SDeleteMany (keys : list bytes).

Definition s3_run (op : S3Op) : ST S3Store () :=
  match op with
  | SPut key r => s3_Put source_of key r
  | SPutIfAbsent key r => s3_PutIfAbsent source_of key r
  | SPutIfMatch key r etag => s3_PutIfMatch source_of key r etag
  | SDelete key => s3_Delete key
  | SDeleteMany keys => s3_DeleteMany keys
  end.

(** A write changes the bucket only under the prefix of the store. *)
Lemma s3_run_local op s res s' key : s3_run op s = (res, s') → has_prefix (s3_root (s3_prefix s)) key = false →
  mb_objects (s3_client s') (s3_bucket s) !! key = mb_objects (s3_client s) (s3_bucket s) !! key.
Proof using MOk Hsized.
  intros Hr Hkey. assert (∀ k, key ≠ s3_key s k) as Hne.
  { intros k ->. rewrite s3_key_root in Hkey. by rewrite (proj2 (has_prefix_spec _ _)) in Hkey by eauto. }
  assert (∀ opts k r res, s3_put_with source_of opts k r s = (res, s') →
    mb_objects (s3_client s') (s3_bucket s) !! key = mb_objects (s3_client s) (s3_bucket s) !! key) as Hput.
  { clear Hr res. intros opts k r res H. apply s3_put_run in H as [_ H]. cbv zeta in H.
    assert (mb_objects (s3_client s') (s3_bucket s) = mb_objects (s3_client s) (s3_bucket s) ∨
      mb_objects (s3_client s') (s3_bucket s) = <[s3_key s k := r_data r]> (mb_objects (s3_client s) (s3_bucket s))) as [Ho|Ho]
      by (destruct res as [|e]; [naive_solver|]; destruct e; naive_solver); rewrite Ho; [done|]. by rewrite lookup_insert_ne. }
  destruct op as [k r|k r|k r etag|k|ks]; cbn [s3_run] in Hr; [by eapply Hput..| |].
  - apply s3_delete_run in Hr as [_ H].
    assert (mb_objects (s3_client s') (s3_bucket s) = mb_objects (s3_client s) (s3_bucket s) ∨
      mb_objects (s3_client s') (s3_bucket s) = delete (s3_key s k) (mb_objects (s3_client s) (s3_bucket s))) as [Ho|Ho]
      by (destruct res; naive_solver); rewrite Ho; [done|]. by rewrite lookup_delete_ne.
  - apply delete_many_run in Hr as [_ H]. apply H. intros (k & Hk & _)%list_elem_of_In%in_map_iff. by eapply Hne.
Qed.

Definition apart (a b : bytes) : Prop := has_prefix a b = false ∧ has_prefix b a = false.

Lemma apart_keys a b k : apart a b → has_prefix a (b ++ k) = false.
Proof using.
  intros [H1 H2]. revert b H1 H2. induction a as [|x a IH]; intros [|y b] H1 H2; try done. cbn in *.
  destruct (decide (x = y)) as [->|Hne].
  - rewrite bool_decide_eq_true_2 in H1, H2 |- * by done. by apply IH.
  - by rewrite bool_decide_eq_false_2.
Qed.

(** C32. Stores in one bucket are separate: over a service with conditional
    writes that keeps its objects, no write or delete of a store changes an
    object of a store under another prefix, whether it succeeds or fails,
    unless one of the prefixes lies below the other. *)
Theorem s3_isolated op (s : S3Store) res s' prefix :
  apart (s3_root (s3_prefix s)) (s3_root prefix) → s3_run op s = (res, s') →
  s3_objects (mkS3 (s3_client s') (s3_bucket s) prefix) = s3_objects (mkS3 (s3_client s) (s3_bucket s) prefix).
Proof using MOk Hsized.
  intros Ha Hr. apply map_eq. intros k. unfold s3_objects. cbn [s3_client s3_bucket s3_prefix]. rewrite !under_lookup.
  by apply (s3_run_local op s res s'); [|apply apart_keys].
Qed.
End Laws.

(** ** A service in memory *)

(** One bucket map per name; a reader of known length is read to that length. *)
Notation memClient := (gmap bytes (gmap bytes bytes)).

Definition mem_bucket (c : memClient) (b : bytes) : gmap bytes bytes := default ∅ (c !! b).
Definition mem_etag (c : memClient) (b k : bytes) : option bytes := memETag <$> mem_bucket c b !! k.

Definition mem_meets (opts : PutObjectOptions) (c : memClient) (b k : bytes) : bool :=
  match opts with
  | NoCondition => true
  | MatchETagExcept => bool_decide (mem_bucket c b !! k = None)
  | MatchETag etag => bool_decide (mem_etag c b k = Some etag)
  end.

Definition mem_complete (r : reader) (size : Z) : bool :=
  if size =? -1 then bool_decide (r_err r = ErrEOF) else size =? zlen (r_data r).

Definition mem_PutObject (b k : bytes) (r : reader) (size : Z) (opts : PutObjectOptions) (c : memClient) : (() + merr) * memClient :=
  if negb (mem_complete r size) then (inr (Transport ErrUnexpectedEOF), c)
  else if negb (mem_meets opts c b k) then (inr (Response (str "PreconditionFailed") 412 []), c)
  else (inl tt, <[b := <[k := r_data r]> (mem_bucket c b)]> c).

#[global] Instance mem_minio : Minio memClient := {|
  mc_object := bytes * bytes;
  mc_PutObject := mem_PutObject;
  mc_GetObject b k v c := (inl (b, k), c);
  mc_Stat o c := (match mem_bucket c o.1 !! o.2 with
                  | Some d => inl (mkInfo (memETag d), mkReader d ErrEOF)
                  | None => inr (Response (str "NoSuchKey") 404 [])
                  end, c);
  mc_RemoveObject b k c := (inl tt, <[b := delete k (mem_bucket c b)]> c);
  mc_RemoveObjects b ks c := ([], <[b := fold_left (λ m k, delete k m) ks (mem_bucket c b)]> c);
  mc_ListObjects b p c :=
    (map inl (sort_bytes (filter (λ k, has_prefix p k = true) (map fst (map_to_list (mem_bucket c b))))), c) |}.

Lemma mem_bucket_insert c b m : mem_bucket (<[b := m]> c) b = m.
Proof. unfold mem_bucket. by rewrite lookup_insert_eq. Qed.

#[global] Program Instance mem_minio_ok : MinioOk memClient := {| mb_objects := mem_bucket; mb_etag := mem_etag |}.
Next Obligation.
  intros b k r size opts c res c' H Hsize. cbn in H |- *. unfold mem_PutObject in H.
  destruct (mem_complete r size) eqn:Ec; [|injection H as <- <-; by left]. destruct (mem_meets opts c b k) eqn:Em; [|injection H as <- <-; by left].
  injection H as <- <-. rewrite mem_bucket_insert. split_and!; [|unfold mem_complete, put_complete in *|done].
  - unfold mem_meets in Em. destruct opts; [done|by apply bool_decide_eq_true in Em|]. apply bool_decide_eq_true in Em. split; [done|].
    unfold mem_etag in Em. by destruct (mem_bucket c b !! k).
  - destruct (Z.eqb_spec size (-1)); [left; split; [done|left; by apply bool_decide_eq_true in Ec]|right; by apply Z.eqb_eq].
Qed.
Next Obligation. by intros b k v c res c' [= <- <-]. Qed.
Next Obligation.
  intros b k v c o c1 res c2 [= <- <-] [= <- <-]. split; [done|]. split; [done|]. intros _. cbn.
  unfold mem_etag. destruct (mem_bucket c b !! k) as [d|] eqn:E; [|done]. split; [done|]. exists d. done.
Qed.
Next Obligation. intros b k c res c' [= <- <-]. cbn. by rewrite mem_bucket_insert. Qed.
Next Obligation.
  intros b ks c res c' [= <- <-] k. cbn. rewrite mem_bucket_insert, fold_delete_lookup. case_bool_decide; naive_solver.
Qed.
Next Obligation.
  intros b p c res c' [= <- <-]. split; [done|]. cbn. intros l Hl.
  assert (l = sort_bytes (filter (λ k, has_prefix p k = true) (map fst (map_to_list (mem_bucket c b))))) as ->
    by (by apply (inj (map inl)) in Hl).
  pose proof (mem_listing p ((λ d, mkMemObj d []) <$> mem_bucket c b)) as H. unfold mem_objects in H.
  rewrite <- map_fmap_compose, map_fmap_id in H. rewrite map_to_list_fmap in H.
  assert (map fst (prod_map id (λ d, mkMemObj d []) <$> map_to_list (mem_bucket c b)) = map fst (map_to_list (mem_bucket c b))) as Hf
    by (change (prod_map id (λ d, mkMemObj d []) <$> map_to_list (mem_bucket c b)) with (map (prod_map id (λ d, mkMemObj d [])) (map_to_list (mem_bucket c b))); rewrite map_map; by apply map_ext).
  by rewrite Hf in H.
Qed.

(** ** Runs *)

Definition by_length (r : reader) : source := match r_err r with ErrEOF => Len (zlen (r_data r)) | _ => Opaque end.

Lemma by_length_sized : sized by_length.
Proof.
  intros r. unfold by_length. destruct (r_err r) eqn:E; cbn [sniffReaderSize]; try (by left). right. split; [done|]. intros _. by left.
Qed.

Definition bucket0 : memClient := {[ str "data" := {[ str "b/x" := str "1" ]} ]}.

Lemma s3_isolated_witness :
  let s := NewS3Store bucket0 (str "data") (str "/a/") in
  s3_objects (mkS3 (s3_client (s3_run by_length (SPut (str "x") (mkReader (str "2") ErrEOF)) s).2) (str "data") (str "b")) =
  s3_objects (mkS3 bucket0 (str "data") (str "b")).
Proof.
  exact (s3_isolated by_length by_length_sized (SPut (str "x") (mkReader (str "2") ErrEOF)) (NewS3Store bucket0 (str "data") (str "/a/"))
    _ _ (str "b") (conj eq_refl eq_refl) (surjective_pairing _)).
Defined.

(** A prefix below another one is not separate from it. *)
Lemma nested_prefix_shared :
  let s := NewS3Store bucket0 (str "data") [] in
  let c := s3_client (s3_run by_length (SDelete (str "b/x")) s).2 in
  (s3_Get (str "x") (NewS3Store c (str "data") (str "b"))).1 = Err ErrNotFound ∧
  (s3_Get (str "x") (NewS3Store bucket0 (str "data") (str "b"))).1 = Ok (mkReader (str "1") ErrEOF).
Proof. by vm_compute. Qed.

(** The answer for a bucket that does not exist is taken for an object that
    does not exist. *)
Lemma missing_bucket_not_found : isNotFound (Response (str "NoSuchBucket") 404 []) = true.
Proof. done. Qed.
