(* ===== verification/Instrumented.v ===== *)
(** * The instrumented object store

    pkg/object/instrumented.go: a wrapper that counts the calls of an object
    store and measures how long they take.  It is transparent: the answers and
    the objects are those of the store inside, so its laws carry over, and every
    call is counted once, as a success or as an error. *)

From S2P Require Import Prelude Bytes WalEntry Os Object AesGcm Cipher CipherStore.

(** The counters by operation and result, the durations that were observed, the
    newest first, and the readings of the clock to come. *)
Record instrumentedStore (S : Type) := mkIns {
  in_inner : S; in_ops : gmap (bytes * bytes) Z; in_durations : list (bytes * Z); in_clock : list Z }.
Arguments mkIns {S} _ _ _ _.
Arguments in_inner {S} _.
Arguments in_ops {S} _.
Arguments in_durations {S} _.
Arguments in_clock {S} _.

Definition NewInstrumentedStore {S} (s : S) (clock : list Z) : instrumentedStore S := mkIns s ∅ [] clock.

Section Store.
Context {S : Type} `{OI : ObjectStore S}.
Local Notation I := (instrumentedStore S).

(** A clock that has nothing left to say stands still. *)
Definition ins_now : ST I Z := λ s,
  match in_clock s with
  | [] => (Ok 0, s)
  | [t] => (Ok t, s)
  | t :: ts => (Ok t, mkIns (in_inner s) (in_ops s) (in_durations s) ts)
  end.

Definition record (op : bytes) (start : Z) (failed : bool) : ST I () :=
  let result := if failed then str "error" else str "success" in
  now ← ins_now;
  modify (λ s, mkIns (in_inner s) (<[(op, result) := 1 + default 0 (in_ops s !! (op, result))]> (in_ops s))
                 ((op, now - start) :: in_durations s) (in_clock s)).

(** What every method does around the call of the store inside. *)
Definition instrument {A} (op : bytes) (m : ST S A) : ST I A :=
  start ← ins_now;
  r ← try (zoom in_inner (λ s i, mkIns s (in_ops i) (in_durations i) (in_clock i)) m);
  record op start (negb (is_ok r));;
  from_result r.

Definition ins_Put (key : bytes) (r : reader) : ST I () := instrument (str "put") (obj_Put key r).
Definition ins_Get (key : bytes) : ST I reader := instrument (str "get") (obj_Get key).
Definition ins_Delete (key : bytes) : ST I () := instrument (str "delete") (obj_Delete key).
Definition ins_DeleteMany (keys : list bytes) : ST I () := instrument (str "delete_many") (obj_DeleteMany keys).
Definition ins_List (prefix : bytes) : ST I (list bytes) := instrument (str "list") (obj_List prefix).

#[global] Instance ins_store : ObjectStore I :=
  {| obj_Put := ins_Put; obj_Get := ins_Get; obj_Delete := ins_Delete; obj_DeleteMany := ins_DeleteMany; obj_List := ins_List |}.

Definition ins_GetETag `{!ConditionalStore S} (key : bytes) : ST I (reader * bytes) := instrument (str "get_etag") (obj_GetETag key).
Definition ins_PutIfAbsent `{!ConditionalStore S} (key : bytes) (r : reader) : ST I () :=
  instrument (str "put_if_absent") (obj_PutIfAbsent key r).
Definition ins_PutIfMatch `{!ConditionalStore S} (key : bytes) (r : reader) (matchETag : bytes) : ST I () :=
  instrument (str "put_if_match") (obj_PutIfMatch key r matchETag).

#[global] Instance ins_cond_store `{!ConditionalStore S} : ConditionalStore I :=
  {| obj_GetETag := ins_GetETag; obj_PutIfAbsent := ins_PutIfAbsent; obj_PutIfMatch := ins_PutIfMatch |}.

Definition ins_GetVersioned `{!VersionedStore S} (key versionID : bytes) : ST I reader :=
  instrument (str "get_versioned") (obj_GetVersioned key versionID).

#[global] Instance ins_versioned_store `{!VersionedStore S} : VersionedStore I := {| obj_GetVersioned := ins_GetVersioned |}.

(** ** The wrapper is transparent *)

Definition calls (ops : gmap (bytes * bytes) Z) (op : bytes) : Z :=
  default 0 (ops !! (op, str "success")) + default 0 (ops !! (op, str "error")).

Lemma ins_now_run s r s' : ins_now s = (r, s') → is_ok r = true ∧ in_inner s' = in_inner s ∧ in_ops s' = in_ops s.
Proof using. unfold ins_now. destruct (in_clock s) as [|t [|]]; by intros [= <- <-]. Qed.

Lemma instrument_run {A} op (m : ST S A) s r s' : instrument op m s = (r, s') →
  m (in_inner s) = (r, in_inner s') ∧ ∀ op', calls (in_ops s') op' = calls (in_ops s) op' + (if bool_decide (op' = op) then 1 else 0).
Proof using.
  unfold instrument, record, try, from_result, modify, mbind, ST_bind, zoom. destruct (ins_now s) as [[t|e] s1] eqn:E1;
    apply ins_now_run in E1 as (H1 & H2 & H3); [|done]. rewrite H2. destruct (m (in_inner s)) as [rm t1].
  destruct (ins_now _) as [[t2|e] s2] eqn:E2; apply ins_now_run in E2 as (H4 & H5 & H6); [|done]. cbn [in_inner in_ops] in *.
  intros [= <- <-]. cbn [in_inner in_ops]. rewrite H5, H6, H3. split; [done|]. intros op'. unfold calls.
  assert (str "success" ≠ str "error") by done.
  destruct (decide (op' = op)) as [->|Hne].
  - rewrite (bool_decide_eq_true_2 (op = op)) by done. destruct (is_ok rm); cbn [negb]; rewrite lookup_insert_eq, lookup_insert_ne by congruence; cbn; lia.
  - rewrite (bool_decide_eq_false_2 (op' = op)) by done. rewrite !lookup_insert_ne by congruence. lia.
Qed.
End Store.

#[global] Program Instance ins_store_ok {S} `{OI : ObjectStore S} `{OOk : !ObjectStoreOk S} :
  ObjectStoreOk (instrumentedStore S) := {| objects s := objects (in_inner s) |}.
Next Obligation. intros S OI OOk k r s res s' [H _]%instrument_run. exact (obj_Put_law _ _ _ _ _ H). Qed.
Next Obligation. intros S OI OOk k s res s' [H _]%instrument_run. exact (obj_Get_law _ _ _ _ H). Qed.
Next Obligation. intros S OI OOk k s res s' [H _]%instrument_run. exact (obj_Delete_law _ _ _ _ H). Qed.
Next Obligation. intros S OI OOk ks s res s' [H _]%instrument_run. exact (obj_DeleteMany_law _ _ _ _ H). Qed.
Next Obligation. intros S OI OOk p s res s' [H _]%instrument_run. exact (obj_List_law _ _ _ _ H). Qed.

#[global] Program Instance ins_cond_ok {S} `{OI : ObjectStore S} `{CI : !ConditionalStore S} `{OOk : !ObjectStoreOk S}
  `{COk : !ConditionalStoreOk S} : ConditionalStoreOk (instrumentedStore S) := {| etag_at s k := etag_at (in_inner s) k |}.
Next Obligation. intros S OI CI OOk COk k s res s' [H _]%instrument_run. apply obj_GetETag_law in H. exact H. Qed.
Next Obligation. intros S OI CI OOk COk k r s res s' [H _]%instrument_run. apply obj_PutIfAbsent_law in H. exact H. Qed.
Next Obligation. intros S OI CI OOk COk k r m s res s' [H _]%instrument_run. apply obj_PutIfMatch_law in H. exact H. Qed.

(** The stores compose as [Open] composes them: an encrypted store under the
    metrics. *)
Definition stack_ok : ConditionalStoreOk (instrumentedStore (encryptedStore Mem StaticKeyProvider)) := _.

Lemma counted_run :
  let s := NewInstrumentedStore enc0 [3; 5] in
  let s1 := ins_Get (str "k") (ins_Put (str "k") (mkReader (str "v") ErrEOF) s).2 in
  s1.1 = Ok (mkReader (str "v") ErrEOF) ∧ in_ops s1.2 !! (str "put", str "success") = Some 1 ∧
  in_durations s1.2 = [(str "get", 0); (str "put", 2)].
Proof. by vm_compute. Qed.

(** ** Which stores a node encrypts

    [applyObjectStoreEncryption] of node.go.  A store of the configuration is
    the store of the caller under a number of wrappers; [BranchPoint] and
    [RestorePoint] are pointers, so what is assigned through them stays assigned
    for the caller. *)

Record handle := mkHandle { hd_layers : nat; hd_versioned : bool }.
Definition wrap (h : handle) : handle := mkHandle (S (hd_layers h)) (hd_versioned h).

(** The two structures behind the pointers. *)
Record pointed := mkPointed { pt_branch : option handle; pt_restore : option handle }.

(** [Config], by value; whether the pointers are set, and the encryption with
    its key provider. *)
Record storeConfig := mkStores {
  sc_ObjectStore : option handle; sc_AncestorStore : option handle;
  sc_BranchPoint : bool; sc_RestorePoint : bool; sc_Encryption : option bool }.

Definition applyObjectStoreEncryption (cfg : storeConfig) : ST pointed storeConfig :=
  match sc_Encryption cfg with
  | None => mret cfg
  | Some false => throw (ErrText "t4: object store encryption key provider is nil")
  | Some true =>
      let cfg' := mkStores (wrap <$> sc_ObjectStore cfg) (wrap <$> sc_AncestorStore cfg) (sc_BranchPoint cfg) (sc_RestorePoint cfg) (sc_Encryption cfg) in
      (if sc_BranchPoint cfg then modify (λ p, mkPointed (wrap <$> pt_branch p) (pt_restore p)) else mret tt);;
      p ← get_st;
      match (if sc_RestorePoint cfg then pt_restore p else None) with
      | None => mret cfg'
      | Some h =>
          if negb (hd_versioned (wrap h)) then throw (ErrText "t4: encrypted object-store restore source does not support versioned reads")
          else modify (λ p, mkPointed (pt_branch p) (Some (wrap h)));; mret cfg'
      end
  end.

(** Every store the node uses has one more layer afterwards, when encryption is
    configured, and none otherwise. *)
Lemma encryption_applied cfg p r p' : applyObjectStoreEncryption cfg p = (r, p') →
  match r with
  | Ok cfg' =>
      let w := if sc_Encryption cfg then wrap else id in
      sc_ObjectStore cfg' = w <$> sc_ObjectStore cfg ∧ sc_AncestorStore cfg' = w <$> sc_AncestorStore cfg ∧
      (sc_BranchPoint cfg = true → pt_branch p' = w <$> pt_branch p) ∧ (sc_RestorePoint cfg = true → pt_restore p' = w <$> pt_restore p)
  | Err _ => is_Some (sc_Encryption cfg)
  end.
Proof.
  unfold applyObjectStoreEncryption, mbind, ST_bind, get_st, modify, mret, ST_ret, throw. destruct p as [b [[n v]|]];
    (destruct (sc_Encryption cfg) as [[]|]; [|intros [= <- <-]; by eexists|intros [= <- <-]; cbn; by rewrite !option_fmap_id]);
    destruct (sc_BranchPoint cfg), (sc_RestorePoint cfg); cbn; try destruct v; intros [= <- <-]; cbn; try done; by eexists.
Qed.

(** Opening a node again with the same configuration encrypts the source of a
    branch twice. *)
Lemma second_open_wraps_twice :
  let cfg := mkStores (Some (mkHandle 0 false)) None true false (Some true) in
  let p := mkPointed (Some (mkHandle 0 false)) None in
  let p1 := (applyObjectStoreEncryption cfg p).2 in
  let p2 := (applyObjectStoreEncryption cfg p1).2 in
  hd_layers <$> pt_branch p1 = Some 1%nat ∧ hd_layers <$> pt_branch p2 = Some 2%nat.
Proof. by vm_compute. Qed.
