(* ===== verification/Wal.v ===== *)
(** * The write-ahead log

    internal/wal/wal.go: the active segment, batch appends, rotation, the
    upload queue and the recovery reads, over the file system of [Os].  The
    background goroutines are modelled by the step each of them performs per
    wake-up ([rotationTick], [uploadStep], [retryStep]); the mutex makes
    every method one step.

    The state is the WAL object, the world, and the uploader is a parameter
    as it is in the code; [makeUploader] (node.go) is the one the node
    passes. *)

From S2P Require Import Prelude Bytes Decimal WalEntry Os WalSegment Object.

(** ** State *)

Record uploadTask := mkTask { t_localPath : bytes; t_objectKey : bytes }.

Record WAL := mkWAL {
  wal_dir : bytes;
  wal_term : Z;
  wal_segMaxSize : Z;
  wal_syncUpload : bool;
  wal_active : option SegmentWriter;
  wal_closed : bool;
  wal_uploadC : list uploadTask;   (* the channel, capacity 64 *)
  wal_retry : list uploadTask      (* goroutines waiting to re-queue a task *) }.

Definition set_active (a : option SegmentWriter) (l : WAL) : WAL :=
  mkWAL (wal_dir l) (wal_term l) (wal_segMaxSize l) (wal_syncUpload l) a (wal_closed l)
    (wal_uploadC l) (wal_retry l).
Definition set_closed (l : WAL) : WAL :=
  mkWAL (wal_dir l) (wal_term l) (wal_segMaxSize l) (wal_syncUpload l) (wal_active l) true
    (wal_uploadC l) (wal_retry l).
Definition set_queues (q r : list uploadTask) (l : WAL) : WAL :=
  mkWAL (wal_dir l) (wal_term l) (wal_segMaxSize l) (wal_syncUpload l) (wal_active l)
    (wal_closed l) q r.

Definition upload_cap : nat := 64.

Definition ObjectKey (term firstRev : Z) : bytes :=
  str "wal/" ++ fmt_pad 10 term ++ str "/" ++ fmt_pad 20 firstRev.

(** [DefaultSegmentMaxSize] is the caller's choice; [New] leaves the rest zero. *)
Definition New (segMaxSize : Z) (syncUpload : bool) : WAL :=
  mkWAL [] 0 segMaxSize syncUpload None false [] [].

(** ** Reading the local segments *)

Section Reading.
Context {S : Type}.

Definition LocalSegments (dir : bytes) : ST (world S) (list bytes) :=
  entries ← os_readdir dir;
  mret (sort_bytes (filter (λ p, has_suffix (str ".wal") p = true) entries)).

(** The entries of one local segment and the error that ended its reading. *)
Definition readSegment (path : bytes) : ST (world S) (list Entry * option err) :=
  sr ← OpenSegmentFile path; mret (ReadAll sr).

Definition max_seq (m : Z) (es : list Entry) : Z :=
  fold_left (λ m e, if m <? Sequence e then Sequence e else m) es m.

Definition first_err (a : option err) (b : option err) : option err :=
  match a with Some _ => a | None => b end.

(** The loop of [MaxSequence]: unreadable segments are skipped and the first
    error is remembered. *)
Fixpoint maxSequence_loop (paths : list bytes) (acc : Z * option err) (w : world S)
    : (Z * option err) * world S :=
  match paths with
  | [] => (acc, w)
  | p :: paths' =>
      match readSegment p w with
      | (Err e, w') => maxSequence_loop paths' (acc.1, first_err acc.2 (Some e)) w'
      | (Ok (es, er), w') => maxSequence_loop paths' (max_seq acc.1 es, first_err acc.2 er) w'
      end
  end.

Definition MaxSequence (dir : bytes) (w : world S) : (Z * option err) * world S :=
  match LocalSegments dir w with
  | (Err ErrNotExist, w') => ((0, None), w')
  | (Err e, w') => ((0, Some e), w')
  | (Ok paths, w') => maxSequence_loop paths (0, None) w'
  end.

(** [ReplayLocal] into any store with a [Recover] operation; the state is the
    world and the store. *)
Context {D : Type} (Recover : list Entry → ST D ()).

Definition on_world {A} (m : ST (world S) A) : ST (world S * D) A :=
  zoom fst (λ w '(_, d), (w, d)) m.
Definition on_db {A} (m : ST D A) : ST (world S * D) A :=
  zoom snd (λ d '(w, _), (w, d)) m.

Fixpoint replay_paths (paths : list bytes) (afterSeq : Z) : ST (world S * D) () :=
  match paths with
  | [] => mret tt
  | p :: paths' =>
      res ← on_world (readSegment p);
      let applicable := filter (λ e, afterSeq < Sequence e) res.1 in
      match applicable with
      | [] => mret tt
      | _ => on_db (Recover applicable)
      end;;
      replay_paths paths' afterSeq
  end.

Definition ReplayLocal (dir : bytes) (afterSeq : Z) : ST (world S * D) () :=
  paths ← on_world (LocalSegments dir);
  replay_paths paths afterSeq.

End Reading.

(** ** Writing *)

Section Writing.
Context {S : Type} (uploader : option (bytes → bytes → ST (world S) ())).

Definition WM (A : Type) : Type := ST (WAL * world S) A.

Definition on_sys {A} (m : ST (world S) A) : WM A :=
  zoom snd (λ w '(l, _), (l, w)) m.

(** A method call on [w.active]; a nil writer is a nil dereference. *)
Definition on_active {A} (m : SWM (S := S) A) : WM A := λ '(l, w),
  match wal_active l with
  | None => (Err (ErrText "nil pointer dereference"), (l, w))
  | Some sw =>
      let '(r, (sw', w')) := m (sw, w) in (r, (set_active (Some sw') l, w'))
  end.

Definition get_active : WM SegmentWriter := λ '(l, w),
  match wal_active l with
  | None => (Err (ErrText "nil pointer dereference"), (l, w))
  | Some sw => (Ok sw, (l, w))
  end.

(** [w.Open]. *)
Definition Open (dir : bytes) (term startRev : Z) : WM () :=
  on_sys syscall;;
  modify (λ '(l, w),
    (mkWAL dir term (wal_segMaxSize l) (wal_syncUpload l) (wal_active l) false [] (wal_retry l), w));;
  sw ← on_sys (OpenSegmentWriter dir term startRev);
  modify (λ '(l, w), (set_active (Some sw) l, w)).

(** A non-blocking send on [uploadC]: dropped when the queue is full. *)
Definition try_enqueue (t : uploadTask) : WM () :=
  modify (λ '(l, w),
    if (length (wal_uploadC l) <? upload_cap)%nat
    then (set_queues (wal_uploadC l ++ [t]) (wal_retry l) l, w) else (l, w)).

(** A blocking send: performed when the upload loop has made room. *)
Definition enqueue (t : uploadTask) : WM () :=
  modify (λ '(l, w), (set_queues (wal_uploadC l ++ [t]) (wal_retry l) l, w)).

Definition when_uploader (m : WM ()) : WM () :=
  match uploader with Some _ => m | None => mret tt end.

Definition task_of (sw : SegmentWriter) : uploadTask :=
  mkTask (sw_path sw) (ObjectKey (sw_term sw) (sw_firstRev sw)).

Definition nextRev (sw : SegmentWriter) : Z := sw_firstRev sw + sw_entryCount sw.

(** [rotateLocked] logs its errors and returns nothing. *)
Definition rotateLocked : WM () := λ '(l, w),
  match wal_active l with
  | None => (Ok tt, (l, w))
  | Some seg =>
      let m : WM () :=
        on_active Seal;;
        when_uploader (try_enqueue (task_of seg));;
        sw ← on_sys (OpenSegmentWriter (wal_dir l) (wal_term l) (nextRev seg));
        modify (λ '(l, w), (set_active (Some sw) l, w)) in
      let '(_, st) := m (l, w) in (Ok tt, st)
  end.

(** [removeUploadedSegment]: a file that is already gone is not an error. *)
Definition removeUploadedSegment (path : bytes) : WM () :=
  r ← try (on_sys (os_remove path));
  match r with
  | Ok _ | Err ErrNotExist => mret tt
  | Err e => throw e
  end.

Definition rotateSyncLocked (up : bytes → bytes → ST (world S) ())
    (rollbackSize rollbackEntryCount : Z) : WM () :=
  '(l, _) ← get_st;
  match wal_active l with
  | None => mret tt
  | Some seg =>
      if sw_entryCount seg =? 0 then mret tt else
      let localPath := sw_path seg in
      uploadRes ← try (on_sys (up localPath (ObjectKey (sw_term seg) (sw_firstRev seg))));
      match uploadRes with
      | Err uploadErr =>
          _ ← try (on_active (rollback rollbackSize rollbackEntryCount));
          throw uploadErr
      | Ok _ =>
          on_active Seal;;
          sw ← on_sys (OpenSegmentWriter (wal_dir l) (wal_term l) (nextRev seg));
          modify (λ '(l, w), (set_active (Some sw) l, w));;
          _ ← try (removeUploadedSegment localPath);
          mret tt
      end
  end.

Definition errWalClosed : err := ErrText "wal: closed".

Definition guard_open : WM () :=
  '(l, _) ← get_st;
  if wal_closed l then throw errWalClosed else mret tt.

(** [if w.active.Size() >= w.segMaxSize { w.rotateLocked() }]. *)
Definition maybe_rotate : WM () :=
  sw ← get_active;
  '(l, _) ← get_st;
  if wal_segMaxSize l <=? sw_size sw then rotateLocked else mret tt.

(** [w.Append]. *)
Definition WalAppend (e : Entry) : WM () :=
  guard_open;; on_active (Append e);; maybe_rotate.

Fixpoint append_all (es : list Entry) : WM () :=
  match es with
  | [] => mret tt
  | e :: es' => on_active (AppendNoSync e);; append_all es'
  end.

(** [ctxErr] is [ctx.Err()] at the call. *)
Definition AppendBatch (ctxErr : option err) (es : list Entry) : WM () :=
  match ctxErr with
  | Some e => throw e
  | None =>
      guard_open;;
      sw0 ← get_active;
      append_all es;;
      on_active Sync;;
      '(l, _) ← get_st;
      match (if wal_syncUpload l then uploader else None) with
      | Some up => rotateSyncLocked up (sw_size sw0) (sw_entryCount sw0)
      | None => maybe_rotate
      end
  end.

(** One tick of [rotationLoop]. *)
Definition rotationTick : WM () := λ '(l, w),
  match wal_active l with
  | None => (Ok tt, (l, w))
  | Some old =>
      if 0 <? sw_entryCount old then
        let m : WM () :=
          on_active Seal;;
          sw ← on_sys (OpenSegmentWriter (wal_dir l) (wal_term l) (nextRev old));
          when_uploader (try_enqueue (task_of old));;
          modify (λ '(l, w), (set_active (Some sw) l, w)) in
        let '(_, st) := m (l, w) in (Ok tt, st)
      else (Ok tt, (l, w))
  end.

(** One task taken by [uploadLoop].  On a failed upload the task is handed to
    a goroutine that re-queues it later, unless the file is gone or the
    context is cancelled. *)
Definition uploadStep (ctxDone : bool) : WM () := λ '(l, w),
  match wal_uploadC l with
  | [] => (Ok tt, (l, w))
  | task :: q =>
      let l1 := set_queues q (wal_retry l) l in
      match uploader with
      | None => (Ok tt, (l1, w))
      | Some up =>
          match up (t_localPath task) (t_objectKey task) w with
          | (Err e, w1) =>
              if ctxDone || bool_decide (e = ErrNotExist) then (Ok tt, (l1, w1))
              else (Ok tt, (set_queues q (wal_retry l ++ [task]) l1, w1))
          | (Ok _, w1) =>
              let '(_, st) := removeUploadedSegment (t_localPath task) (l1, w1) in (Ok tt, st)
          end
      end
  end.

(** A waiting goroutine wakes up and re-queues its task if there is room. *)
Definition retryStep : WM () := λ '(l, w),
  match wal_retry l with
  | [] => (Ok tt, (l, w))
  | t :: r => try_enqueue t (set_queues (wal_uploadC l) r l, w)
  end.

(** [w.SealAndFlush]. *)
Definition SealAndFlush (nextSeq : Z) : WM () :=
  '(l, _) ← get_st;
  match wal_active l with
  | None => mret tt
  | Some old =>
      if sw_entryCount old =? 0 then mret tt else
      on_active Seal;;
      sw ← on_sys (OpenSegmentWriter (wal_dir l) (wal_term l) nextSeq);
      modify (λ '(l, w), (set_active (Some sw) l, w));;
      when_uploader (enqueue (task_of old))
  end.

(** Upload one task synchronously while closing: the first error is kept. *)
Definition close_upload (up : bytes → bytes → ST (world S) ()) (acc : option err) (t : uploadTask)
    : WM (option err) :=
  r ← try (on_sys (up (t_localPath t) (t_objectKey t)));
  match r with
  | Err e => mret (first_err acc (Some e))
  | Ok _ =>
      r' ← try (removeUploadedSegment (t_localPath t));
      match r' with
      | Err e => mret (first_err acc (Some e))
      | Ok _ => mret acc
      end
  end.

Fixpoint close_drain (up : bytes → bytes → ST (world S) ()) (acc : option err)
    (ts : list uploadTask) : WM (option err) :=
  match ts with
  | [] => mret acc
  | t :: ts' => acc' ← close_upload up acc t; close_drain up acc' ts'
  end.

(** The part of [Close] under the mutex: the final segment to upload. *)
Definition close_active : WM (option SegmentWriter) :=
  '(l, _) ← get_st;
  match wal_active l with
  | None => mret None
  | Some sw =>
      finalSeg ←
        (if 0 <? sw_entryCount sw then
           r ← try (on_active Seal);
           mret (if is_ok r then Some sw else None)
         else
           _ ← try (on_active Close);
           _ ← try (on_sys (os_remove (sw_path sw)));
           mret None);
      modify (λ '(l, w), (set_active None l, w));;
      mret finalSeg
  end.

(** [w.Close]: waiting retries end with their context; queued tasks and the
    final segment are uploaded synchronously. *)
Definition WalClose : WM () :=
  '(l, _) ← get_st;
  if wal_closed l then mret tt else
  modify (λ '(l, w), (set_closed l, w));;
  finalSeg ← close_active;
  modify (λ '(l, w), (set_queues (wal_uploadC l) [] l, w));;
  match uploader with
  | None => mret tt
  | Some up =>
      '(l, _) ← get_st;
      let ts := wal_uploadC l ++ match finalSeg with Some sw => [task_of sw] | None => [] end in
      modify (λ '(l, w), (set_queues [] [] l, w));;
      uploadErr ← close_drain up None ts;
      match uploadErr with Some e => throw e | None => mret tt end
  end.

End Writing.

(** ** The uploader of the node (node.go) *)

Section Uploader.
Context {S : Type} `{ObjectStore S}.

Definition on_obj {A} (m : ST S A) : ST (world S) A :=
  zoom w_obj (λ o w, set_obj o w) m.

Definition makeUploader (localPath objectKey : bytes) : ST (world S) () :=
  r ← try (os_open_read localPath);
  match r with
  | Err ErrNotExist =>
      g ← try (on_obj (obj_Get objectKey));
      match g with Ok _ => mret tt | Err _ => throw ErrNotExist end
  | Err e => throw e
  | Ok f =>
      p ← try (on_obj (obj_Put objectKey f));
      match p with
      | Err e => _ ← try syscall; throw e
      | Ok _ => syscall
      end
  end.

End Uploader.
