(* ===== verification/WalDurable.v ===== *)
(** * Durability of the write-ahead log

    Every entry of a batch that [AppendBatch] (or [Append]) acknowledged can
    be read back by the recovery code: from the local segment file while it
    exists, and from the uploaded object afterwards.  The proof is an
    invariant of a step relation that interleaves the appends, the rotation
    ticker, the upload loop with its retries, [SealAndFlush] and [Close], for
    every sequence of system-call and object-store failures. *)

From S2P Require Import Prelude Bytes Decimal WalEntry Os WalSegment Object Wal.

(** ** Names are injective *)

Lemma SegmentName_inj t r t' r' :
  is_u64 t → is_u64 t' → is_i64 r → is_i64 r' →
  SegmentName t r = SegmentName t' r' → t = t' ∧ r = r'.
Proof.
  assert (∀ t r, is_u64 t → is_i64 r →
    cut_byte x2d (TrimSuffix (SegmentName t r) (str ".wal")) =
      Some (pad0 10 (dec t), fmt_pad 20 r)) as Hcut.
  { intros t0 r0 Ht Hr. unfold SegmentName. unfold is_u64 in Ht.
    assert (fmt_pad 10 t0 = pad0 10 (dec t0)) as ->
      by (unfold fmt_pad; by rewrite (proj2 (Z.ltb_ge t0 0)) by lia).
    rewrite !app_assoc, TrimSuffix_app, <- app_assoc.
    change (str "-" ++ ?x) with (x2d :: x). apply cut_byte_first.
    eapply Forall_impl; [apply pad0_all_digits; unfold max_uint64; lia|].
    by intros b [_ ?]%is_digit_not_sign. }
  intros Ht Ht' Hr Hr' H.
  pose proof (Hcut t r Ht Hr) as H1. rewrite H, Hcut in H1 by done. injection H1 as H1 H2.
  unfold is_u64 in *. split.
  - apply (f_equal ParseUint) in H1.
    rewrite !ParseUint_pad0 in H1 by (unfold max_uint64; lia). congruence.
  - apply (f_equal ParseInt) in H2. rewrite !ParseInt_fmt_pad in H2 by done. congruence.
Qed.

Definition seg_path (dir : bytes) (t r : Z) : bytes := path_join dir (SegmentName t r).

Lemma seg_path_inj dir t r t' r' :
  is_u64 t → is_u64 t' → is_i64 r → is_i64 r' →
  seg_path dir t r = seg_path dir t' r' → t = t' ∧ r = r'.
Proof.
  intros Ht Ht' Hr Hr' H. unfold seg_path, path_join in H.
  apply app_inv_head, app_inv_head in H. by apply SegmentName_inj.
Qed.

Lemma ObjectKey_inj t r t' r' :
  is_u64 t → is_u64 t' → is_i64 r → is_i64 r' →
  ObjectKey t r = ObjectKey t' r' → t = t' ∧ r = r'.
Proof.
  assert (∀ t r, is_u64 t →
    cut_byte x2f (drop 4 (ObjectKey t r)) = Some (pad0 10 (dec t), fmt_pad 20 r)) as Hcut.
  { intros t0 r0 Ht. unfold ObjectKey. unfold is_u64 in Ht.
    assert (fmt_pad 10 t0 = pad0 10 (dec t0)) as ->
      by (unfold fmt_pad; by rewrite (proj2 (Z.ltb_ge t0 0)) by lia).
    change (drop 4 (str "wal/" ++ ?x)) with x.
    change (str "/" ++ ?x) with (x2f :: x). apply cut_byte_first.
    eapply Forall_impl; [apply pad0_all_digits; unfold max_uint64; lia|].
    by intros b Hb ->. }
  intros Ht Ht' Hr Hr' H.
  pose proof (Hcut t r Ht) as H1. rewrite H, Hcut in H1 by done. injection H1 as H1 H2.
  unfold is_u64 in *. split.
  - apply (f_equal ParseUint) in H1.
    rewrite !ParseUint_pad0 in H1 by (unfold max_uint64; lia). congruence.
  - apply (f_equal ParseInt) in H2. rewrite !ParseInt_fmt_pad in H2 by done. congruence.
Qed.

(** ** Recoverable entries *)

(** The recovery code finds [e] in a segment with content [c]. *)
Definition seg_holds (c : bytes) (e : Entry) : Prop :=
  ∃ sr l er, newSegmentReader (mkReader c ErrEOF) = Ok sr ∧ ReadAll sr = (l, er) ∧
    with_sequence e ∈ l.

Lemma seg_holds_content t r es b e :
  is_u64 t → is_i64 r → Forall wf_entry es → torn_tail b →
  seg_holds (seg_content t r es ++ b) e ↔ with_sequence e ∈ map with_sequence es.
Proof.
  intros Ht Hr Hes Hb. unfold seg_holds, seg_content. rewrite <- app_assoc.
  rewrite newSegmentReader_header by done. split.
  - intros (sr & l & er & [= <-] & Hl & He). rewrite ReadAll_frames_torn in Hl by done.
    by injection Hl as <- <-.
  - intros He. eexists _, _, _. split; [done|]. split; [by apply ReadAll_frames_torn|done].
Qed.

(** Where an entry was acknowledged: the term and first sequence of its segment. *)
Definition loc : Type := Z * Z.

Section Durable.
Context {S : Type} `{ObjectStoreOk S} (dir : bytes).
Implicit Types (w : world S) (a : Entry * loc).

Definition objs w : gmap bytes bytes := objects (w_obj w).

(** The entry is in its local segment, or, when that is gone, in its object. *)
Definition durable w a : Prop :=
  let '(e, (t, r)) := a in
  match w_files w !! seg_path dir t r with
  | Some c => seg_holds c e
  | None => ∃ c, objs w !! ObjectKey t r = Some c ∧ seg_holds c e
  end.

Definition valid_loc (p : loc) : Prop := is_u64 p.1 ∧ is_i64 p.2.

(** What the WAL relies on from an uploader: it leaves the files alone and,
    if it changes the object store, stores the file under the object key; a
    successful upload of an existing file has stored it. *)
Definition upload_law (up : bytes → bytes → ST (world S) ()) : Prop :=
  ∀ p k w res w', up p k w = (res, w') →
    w_files w' = w_files w ∧
    match w_files w !! p with
    | Some c => objs w' = objs w ∧ res ≠ Ok tt ∨ objs w' = <[k := c]> (objs w)
    | None => objs w' = objs w
    end.

Lemma makeUploader_law : upload_law makeUploader.
Proof.
  intros p k w res w' Hrun. unfold makeUploader, on_obj in Hrun.
  destruct (os_open_read p w) as [r w1] eqn:E. rewrite (try_bind _ _ _ _ _ E) in Hrun.
  apply os_open_read_spec in E as (Hf & Ho & Hr).
  assert (objs w1 = objs w) as Hob by (unfold objs; by rewrite Ho).
  destruct r as [f|e].
  - destruct Hr as (c & Hc & Hdata). rewrite Hc.
    destruct (obj_Put k f (w_obj w1)) as [rp s1] eqn:Ep.
    rewrite (try_bind _ _ _ _ _ (zoom_run _ _ _ _ _ _ Ep)) in Hrun.
    apply obj_Put_law in Ep.
    assert (w_files w' = w_files w1 ∧ w_obj w' = s1 ∧ (rp ≠ Ok tt → res ≠ Ok tt)) as (Hf' & Ho' & Hres).
    { destruct rp as [[]|e].
      - apply syscall_files in Hrun. naive_solver.
      - destruct (syscall (set_obj s1 w1)) as [r2 w2] eqn:E2.
        rewrite (try_bind _ _ _ _ _ E2) in Hrun. apply syscall_files in E2.
        injection Hrun as <- <-. naive_solver. }
    split; [by rewrite Hf', Hf|]. unfold objs in *. rewrite Ho', <- Hob.
    destruct rp as [[]|e].
    + destruct Ep as [Heof ->]. rewrite Hdata by done. by right.
    + destruct Ep as [->|[Heof ->]]; [left; naive_solver|].
      rewrite Hdata by done. by right.
  - assert (w_files w' = w_files w1 ∧ objs w' = objs w1 ∧ (w_files w !! p ≠ None → res ≠ Ok tt)) as
      (Hf' & Ho' & Hres).
    { destruct e; try (injection Hrun as <- <-; split_and!; done || naive_solver).
      destruct (obj_Get k (w_obj w1)) as [rg s1] eqn:Eg.
      rewrite (try_bind _ _ _ _ _ (zoom_run _ _ _ _ _ _ Eg)) in Hrun.
      apply obj_Get_law in Eg as [Eg _].
      destruct rg; injection Hrun as <- <-; split_and!; try done; naive_solver. }
    split; [by rewrite Hf', Hf|]. rewrite Ho', Hob.
    destruct (w_files w !! p); [left; naive_solver|done].
Qed.

(** ** What keeps entries recoverable *)

Lemma durable_same w w' a :
  w_files w' = w_files w → objs w' = objs w → durable w a → durable w' a.
Proof. destruct a as [e [t r]]. unfold durable. by intros -> ->. Qed.

Lemma durable_other_file w w' p e t r :
  (∀ q, q ≠ p → w_files w' !! q = w_files w !! q) → objs w' = objs w →
  p ≠ seg_path dir t r → durable w (e, (t, r)) → durable w' (e, (t, r)).
Proof. intros Hq Ho Hp. unfold durable. by rewrite Hq, Ho. Qed.

Lemma durable_upload up w t r res w' a :
  upload_law up → valid_loc (t, r) → valid_loc a.2 →
  up (seg_path dir t r) (ObjectKey t r) w = (res, w') → durable w a → durable w' a.
Proof.
  intros Hup [Ht Hr] Ha Hrun. apply Hup in Hrun as [Hf Ho].
  destruct a as [e [t' r']]. destruct Ha as [Ht' Hr']. cbn in *. rewrite Hf.
  destruct (decide ((t, r) = (t', r'))) as [[= <- <-]|Hne].
  - destruct (w_files w !! seg_path dir t r) eqn:E; [done|]. by rewrite Ho.
  - destruct (w_files w !! seg_path dir t' r'); [done|].
    assert (ObjectKey t r ≠ ObjectKey t' r') as Hk.
    { intros Hk. apply ObjectKey_inj in Hk as [-> ->]; done. }
    destruct (w_files w !! seg_path dir t r).
    + destruct Ho as [[-> _]| ->]; [done|]. by rewrite lookup_insert_ne.
    + by rewrite Ho.
Qed.

(** Removing a segment file whose object holds the same bytes. *)
Lemma durable_remove_uploaded w t r res w' a :
  valid_loc (t, r) → valid_loc a.2 →
  (∀ c, w_files w !! seg_path dir t r = Some c → objs w !! ObjectKey t r = Some c) →
  os_remove (seg_path dir t r) w = (res, w') → durable w a → durable w' a.
Proof.
  intros Hv Ha Hsame Hrm Hd. apply os_remove_files in Hrm as [Ho' Hfs].
  assert (objs w' = objs w) as Hob by (unfold objs; by rewrite Ho').
  destruct Hfs as [[Hf' _]|[Hf' _]]; [by apply (durable_same w)|].
  destruct a as [e [t' r']], Hv as [Ht Hr], Ha as [Ht' Hr']. cbn in *.
  rewrite Hf' in *. rewrite Hob.
  destruct (decide ((t, r) = (t', r'))) as [[= <- <-]|Hne].
  - rewrite lookup_delete_eq.
    destruct (w_files w !! seg_path dir t r) as [c|]; [|done]. eauto.
  - rewrite lookup_delete_ne; [done|].
    intros Hk. apply seg_path_inj in Hk as [-> ->]; done.
Qed.

Lemma upload_stored up w t r w1 :
  upload_law up → up (seg_path dir t r) (ObjectKey t r) w = (Ok tt, w1) →
  ∀ c, w_files w1 !! seg_path dir t r = Some c → objs w1 !! ObjectKey t r = Some c.
Proof.
  intros Hup Hrun c Hc. apply Hup in Hrun as [Hf Ho]. rewrite Hf in Hc. rewrite Hc in Ho.
  destruct Ho as [[_ ?]|Ho]; [done|]. by rewrite Ho, lookup_insert_eq.
Qed.

Lemma durable_upload_remove up w t r w1 res w' a :
  upload_law up → valid_loc (t, r) → valid_loc a.2 →
  up (seg_path dir t r) (ObjectKey t r) w = (Ok tt, w1) →
  os_remove (seg_path dir t r) w1 = (res, w') → durable w a → durable w' a.
Proof.
  intros Hup Hv Ha Hrun Hrm Hd.
  apply (durable_remove_uploaded w1 t r res); try done.
  - by eapply upload_stored.
  - by apply (durable_upload up w t r (Ok tt)).
Qed.

(** Creating a segment touches only its own file, whatever fails. *)
Lemma OpenSegmentWriter_frame t n w res w' :
  OpenSegmentWriter dir t n w = (res, w') →
  w_obj w' = w_obj w ∧ ∀ q, q ≠ seg_path dir t n → w_files w' !! q = w_files w !! q.
Proof.
  destruct res as [sw|er].
  { intros Hrun. apply OpenSegmentWriter_ok in Hrun as (_ & _ & _ & Hp & Ho & Hf).
    rewrite Hp in Hf. done. }
  unfold OpenSegmentWriter. intros [(f & w1 & E & Hrun)|(e & E & _)]%ST_bind_run.
  2: { apply os_create_err in E as [Hf Ho]. by rewrite Hf. }
  apply os_create_ok in E as (-> & Hw1 & Ho1). fold (seg_path dir t n) in *.
  unfold initSegment, writeHeader, mbind, ST_bind, get_st, on_file, zoom in Hrun.
  cbn [sw_f sw_term sw_firstRev sw_path] in Hrun.
  destruct (os_write (segHeader t n) _) as [r2 [f2 w2]] eqn:E2.
  eapply os_write_at_end in E2 as (b1 & b2 & Hb & Hf2 & Hfs & Ho & Hr); cbn [f_path f_pos f_open].
  2: done. 2: { cbn. by rewrite Hw1, lookup_insert_eq. } 2: done.
  2: { intros Hnil. by apply (f_equal length) in Hnil; rewrite length_segHeader in Hnil. }
  destruct r2 as [[]|er']; [done|].
  destruct (os_close _) as [r3 [f3 w3]] eqn:E3. apply os_close_files in E3 as (_ & _ & Hf3 & Ho3).
  destruct (os_remove _ w3) as [r4 w4] eqn:E4. apply os_remove_files in E4 as [Ho4 Hf4].
  injection Hrun as _ <-. split; [by rewrite Ho4, Ho3, Ho, Ho1|].
  intros q Hq. cbn [f_path] in Hfs.
  assert (w_files w4 !! q = w_files w3 !! q) as ->.
  { destruct Hf4 as [[-> _]|[-> _]]; [done|]. by rewrite lookup_delete_ne. }
  by rewrite Hf3, Hfs, lookup_insert_ne, Hw1, lookup_insert_ne.
Qed.

(** ** The invariant *)

Record wstate := mkWS {
  ws_acked : list (Entry * loc);
  ws_fenced : bool;       (* an append failed: the owner stops appending *)
  ws_wal : WAL;
  ws_world : world S }.

Definition here (sw : SegmentWriter) : loc := (sw_term sw, sw_firstRev sw).

Record active_ok (acked : list (Entry * loc)) (fenced : bool) (l : WAL)
    (sw : SegmentWriter) (w : world S) : Prop := {
  ao_term : sw_term sw = wal_term l;
  ao_path : sw_path sw = seg_path dir (sw_term sw) (sw_firstRev sw);
  ao_fpath : f_path (sw_f sw) = sw_path sw;
  ao_range : 0 ≤ sw_firstRev sw ∧ 0 ≤ sw_entryCount sw ∧ nextRev sw < 2 ^ 63;
  ao_acked : ∀ e t r, (e, (t, r)) ∈ acked → t = sw_term sw →
      r ≤ sw_firstRev sw ∧ (r = sw_firstRev sw → 0 < sw_entryCount sw);
  ao_sealed : sw_sealed sw = true → f_open (sw_f sw) = false;
  ao_clean : fenced = false →
      f_open (sw_f sw) = false ∨ ∃ es, Forall wf_entry es ∧ seg_inv es sw w }.

Definition task_ok (l : WAL) (k : uploadTask) : Prop :=
  ∃ t r, valid_loc (t, r) ∧ k = mkTask (seg_path dir t r) (ObjectKey t r) ∧
    ∀ sw, wal_active l = Some sw → t = sw_term sw →
      r ≤ sw_firstRev sw ∧ (r = sw_firstRev sw → sw_sealed sw = true).

Record winv (s : wstate) : Prop := {
  wi_dir : wal_dir (ws_wal s) = dir;
  wi_term : is_u64 (wal_term (ws_wal s));
  wi_acked : ∀ a, a ∈ ws_acked s → valid_loc a.2 ∧ durable (ws_world s) a;
  wi_active : ∀ sw, wal_active (ws_wal s) = Some sw →
      active_ok (ws_acked s) (ws_fenced s) (ws_wal s) sw (ws_world s);
  wi_tasks : ∀ k, k ∈ wal_uploadC (ws_wal s) ++ wal_retry (ws_wal s) → task_ok (ws_wal s) k }.

(** Replacing the WAL and world parts of a state. *)
Definition upd (s : wstate) (l : WAL) (w : world S) : wstate :=
  mkWS (ws_acked s) (ws_fenced s) l w.

Lemma here_valid acked fenced l sw w :
  is_u64 (wal_term l) → active_ok acked fenced l sw w → valid_loc (here sw).
Proof.
  intros Ht [Hterm _ _ Hr _ _ _]. split; cbn; [by rewrite Hterm|].
  unfold nextRev in Hr. unfold is_i64. lia.
Qed.

(** Changes of the world that keep every acknowledged entry keep the invariant,
    when the active file is closed or not touched. *)
Lemma winv_world s w' :
  winv s → (∀ a, a ∈ ws_acked s → durable w' a) →
  (∀ sw, wal_active (ws_wal s) = Some sw →
     f_open (sw_f sw) = false ∨
     w_files w' !! f_path (sw_f sw) = w_files (ws_world s) !! f_path (sw_f sw)) →
  winv (upd s (ws_wal s) w').
Proof.
  intros [Hd Ht Ha Hact Htk] Hdur Hfile. split; cbn; try done.
  - intros a Hin. split; [by apply Ha|by apply Hdur].
  - intros sw Hsw. destruct (Hact sw Hsw) as [H1 H2 H3 H4 H5 H6 H7].
    split; try done. intros Hf. destruct (H7 Hf) as [?|(es & Hes & Hinv)]; [by left|].
    destruct (Hfile sw Hsw) as [?|Heq]; [by left|]. right. exists es. split; [done|].
    by eapply seg_inv_ext.
Qed.

(** Sealing closes the active file and changes nothing else. *)
Lemma Seal_run sw w r sw' w' :
  Seal (sw, w) = (r, (sw', w')) →
  w_files w' = w_files w ∧ w_obj w' = w_obj w ∧ here sw' = here sw ∧
  sw_path sw' = sw_path sw ∧ f_path (sw_f sw') = f_path (sw_f sw) ∧
  sw_entryCount sw' = sw_entryCount sw ∧
  (r = Ok tt → sw_sealed sw' = true) ∧
  (sw_sealed sw' = true ∨ sw_sealed sw = false ∧ sw_sealed sw' = false) ∧
  (sw_sealed sw = false → f_open (sw_f sw') = false) ∧ (sw_sealed sw = true → sw' = sw).
Proof.
  unfold Seal, mbind, ST_bind, get_st. destruct (sw_sealed sw) eqn:Hs.
  { intros [= <- <- <-]. rewrite Hs. split_and!; try done. by left. }
  unfold on_file, zoom. destruct (os_close (sw_f sw, w)) as [r1 [f1 w1]] eqn:E.
  apply os_close_files in E as (Hp & Ho & Hf & Hob).
  destruct r1 as [[]|e]; intros [= <- <- <-]; cbn; rewrite ?Hs;
    split_and!; auto; done.
Qed.

Lemma winv_seal s sw r l' w' :
  winv s → wal_active (ws_wal s) = Some sw →
  on_active Seal (ws_wal s, ws_world s) = (r, (l', w')) →
  winv (upd s l' w') ∧ w_files w' = w_files (ws_world s) ∧
  ∃ sw', l' = set_active (Some sw') (ws_wal s) ∧ here sw' = here sw ∧
    sw_path sw' = sw_path sw ∧ sw_entryCount sw' = sw_entryCount sw ∧
    (r = Ok tt → sw_sealed sw' = true).
Proof.
  intros Hinv Hsw Hrun. unfold on_active in Hrun. rewrite Hsw in Hrun.
  destruct (Seal (sw, ws_world s)) as [r1 [sw1 w1]] eqn:E. injection Hrun as -> <- <-.
  apply Seal_run in E as (Hf & Ho & Hh & Hp & Hfp & Hc & Hok & Hsl & Hcl & Hid).
  destruct Hinv as [Hd Ht Ha Hact Htk]. destruct (Hact sw Hsw) as [A1 A2 A3 A4 A5 A6 A7].
  unfold here in Hh. injection Hh as Hh1 Hh2.
  assert (f_open (sw_f sw1) = false) as Hcl1.
  { destruct (sw_sealed sw) eqn:Hss; [rewrite Hid by done; by apply A6|by apply Hcl]. }
  split.
  - split; cbn; try done.
    + intros a Hin. destruct (Ha a Hin). split; [done|]. eapply durable_same; [..|done].
      * done.
      * unfold objs. by rewrite Ho.
    + intros sw0 [= <-]. split; cbn; rewrite ?Hh1, ?Hh2, ?Hp, ?Hfp, ?Hc; try done.
      * unfold nextRev in *. by rewrite Hh2, Hc.
      * by left.
    + intros k Hk. destruct (Htk k Hk) as (t & r' & Hv & -> & Hk'). exists t, r'.
      split_and!; [done..|]. intros sw0 [= <-] Hte. rewrite Hh1 in Hte. rewrite Hh2.
      destruct (Hk' sw Hsw Hte) as [? Hss]. split; [done|]. intros Hre.
      specialize (Hss Hre). by rewrite Hid by done.
  - split; [done|]. exists sw1. split_and!; try done. unfold here. by rewrite Hh1, Hh2.
Qed.

Lemma winv_enqueue s q r :
  winv s → (∀ k, k ∈ q ++ r → k ∈ wal_uploadC (ws_wal s) ++ wal_retry (ws_wal s) ∨
                              task_ok (ws_wal s) k) →
  winv (upd s (set_queues q r (ws_wal s)) (ws_world s)).
Proof.
  intros [Hd Ht Ha Hact Htk] Hk. split; cbn; try done.
  - intros sw Hsw. destruct (Hact sw Hsw). by split.
  - intros k Hin. destruct (Hk k Hin) as [Hin'|Hok]; [by apply Htk|done].
Qed.

Lemma task_of_ok s sw :
  winv s → wal_active (ws_wal s) = Some sw → sw_sealed sw = true →
  task_ok (ws_wal s) (task_of sw).
Proof.
  intros [Hd Ht Ha Hact Htk] Hsw Hse. destruct (Hact sw Hsw) as [A1 A2 A3 A4 A5 A6 A7] eqn:E.
  exists (sw_term sw), (sw_firstRev sw). split; [by eapply here_valid|].
  split; [unfold task_of; by rewrite A2|]. intros sw0 Hsw0 _. by simplify_eq.
Qed.

(** Creating the next segment, and installing it. *)
Lemma winv_open s sw n res w' :
  winv s → wal_active (ws_wal s) = Some sw → f_open (sw_f sw) = false →
  sw_firstRev sw < n < 2 ^ 63 →
  OpenSegmentWriter (wal_dir (ws_wal s)) (wal_term (ws_wal s)) n (ws_world s) = (res, w') →
  winv (upd s (ws_wal s) w') ∧
  ∀ sw2, res = Ok sw2 → winv (upd s (set_active (Some sw2) (ws_wal s)) w') ∧
    sw_firstRev sw2 = n ∧ sw_term sw2 = sw_term sw.
Proof.
  intros Hinv Hsw Hcl Hn Hrun. pose proof Hinv as [Hd Ht Ha Hact Htk].
  destruct (Hact sw Hsw) as [A1 A2 A3 A4 A5 A6 A7]. rewrite Hd in Hrun.
  pose proof (OpenSegmentWriter_frame _ _ _ _ _ Hrun) as [Ho Hfr].
  assert (is_i64 n) as Hni by (unfold is_i64; lia).
  assert (∀ a, a ∈ ws_acked s → durable w' a) as Hdur.
  { intros [e [t r]] Hin. destruct (Ha _ Hin) as [[Hvt Hvr] Hdu]. cbn in Hvt, Hvr.
    eapply durable_other_file; [apply Hfr|unfold objs; by rewrite Ho| |done].
    intros Heq. apply seg_path_inj in Heq as [<- <-]; [|done..].
    destruct (A5 _ _ _ Hin) as [? _]; [done|lia]. }
  split.
  - apply winv_world; [done..|]. intros sw0 ?. simplify_eq. by left.
  - intros sw2 ->. apply OpenSegmentWriter_ok in Hrun as (Hsi & Hte & Hfi & Hpa & _ & _).
    rewrite Hte, Hfi, A1. split; [|done]. split; cbn; try done.
    + intros a Hin. split; [by apply Ha|by apply Hdur].
    + intros sw0 [= <-]. pose proof Hsi as [B1 B2 B3 B4 B5 B6 B7]. split; cbn.
      * done.
      * by rewrite Hpa, Hte, Hfi.
      * done.
      * unfold nextRev. rewrite Hfi, B5. change (zlen (@nil Entry)) with 0. lia.
      * intros e t r Hin Htt. rewrite Hte, <- A1 in Htt.
        destruct (A5 _ _ _ Hin Htt) as [? _]. rewrite Hfi. split; lia.
      * by rewrite B7.
      * intros _. right. exists []. split; [done|done].
    + intros k Hk. destruct (Htk k Hk) as (t & r & Hv & -> & Hk'). exists t, r.
      split_and!; [done..|]. intros sw0 [= <-] Htt. rewrite Hte, <- A1 in Htt.
      destruct (Hk' sw Hsw Htt) as [? _]. rewrite Hfi. split; lia.
Qed.

(** ** The methods keep the invariant *)

(** Name the outcome of the run scrutinised by a [let] in [Hr]. *)
Ltac run_let Hr r l w E :=
  match type of Hr with
  | (let '(_, _) := ?m in _) = _ => destruct m as [r [l w]] eqn:E
  end.

Context (uploader : option (bytes → bytes → ST (world S) ())).
Context (Hup : ∀ up, uploader = Some up → upload_law up).

Lemma on_sys_run {A} (m : ST (world S) A) l w r st :
  on_sys m (l, w) = (r, st) → ∃ w', m w = (r, w') ∧ st = (l, w').
Proof.
  unfold on_sys, zoom. cbn. destruct (m w) as [r1 w1] eqn:E. intros [= <- <-]. eauto.
Qed.

Lemma on_sys_eq {A} (m : ST (world S) A) (l : WAL) w r w' :
  m w = (r, w') → on_sys m (l, w) = (r, (l, w')).
Proof. intros Hm. unfold on_sys, zoom. cbn. by rewrite Hm. Qed.

(** A (possibly dropped) enqueue. *)
Lemma when_try_enqueue_run k l w r st' :
  when_uploader uploader (try_enqueue k) (l, w) = (r, st') →
  r = Ok tt ∧ ∃ q, st' = (set_queues q (wal_retry l) l, w) ∧
    (q = wal_uploadC l ∨ q = wal_uploadC l ++ [k]).
Proof.
  assert (set_queues (wal_uploadC l) (wal_retry l) l = l) as Hid by by destruct l.
  unfold when_uploader. destruct uploader as [up|].
  - unfold try_enqueue, modify. destruct (_ <? _)%nat; intros [= <- <-].
    + eauto 10.
    + split; [done|]. exists (wal_uploadC l). rewrite Hid. auto.
  - intros [= <- <-]. split; [done|]. exists (wal_uploadC l). rewrite Hid. auto.
Qed.

Lemma winv_enqueued s k q :
  winv s → task_ok (ws_wal s) k →
  q = wal_uploadC (ws_wal s) ∨ q = wal_uploadC (ws_wal s) ++ [k] →
  winv (upd s (set_queues q (wal_retry (ws_wal s)) (ws_wal s)) (ws_world s)).
Proof.
  intros Hinv Hk Hq. apply winv_enqueue; [done|]. intros k' Hin.
  destruct Hq as [->| ->]; [by left|]. rewrite <- app_assoc in Hin.
  apply elem_of_app in Hin as [?|Hin]; [left; apply elem_of_app; by left|].
  apply elem_of_app in Hin as [->%list_elem_of_singleton|?]; [by right|].
  left. apply elem_of_app. by right.
Qed.

Lemma sealed_closed s sw :
  winv s → wal_active (ws_wal s) = Some sw → sw_sealed sw = true → f_open (sw_f sw) = false.
Proof. intros Hinv Hsw. by destruct (wi_active _ Hinv sw Hsw). Qed.

Lemma winv_rotateLocked s sw r l' w' :
  winv s → wal_active (ws_wal s) = Some sw → 0 < sw_entryCount sw →
  rotateLocked uploader (ws_wal s, ws_world s) = (r, (l', w')) →
  r = Ok tt ∧ winv (upd s l' w').
Proof.
  intros Hinv Hsw Hc Hrun. unfold rotateLocked in Hrun. rewrite Hsw in Hrun.
  run_let Hrun r1 l1 w1 E.
  injection Hrun as <- <- <-. split; [done|].
  pose proof (wi_active _ Hinv sw Hsw) as Hao. destruct (ao_range _ _ _ _ _ Hao) as (Hr1 & Hr2 & Hr3).
  apply ST_bind_run in E as [([] & [l2 w2] & E1 & E)|(e & E1 & _)].
  2: { by destruct (winv_seal _ _ _ _ _ Hinv Hsw E1). }
  destruct (winv_seal _ _ _ _ _ Hinv Hsw E1) as (Hinv2 & _ & sw2 & -> & Hh & Hp & Hc2 & Hs2).
  specialize (Hs2 eq_refl). unfold here in Hh. injection Hh as Hh1 Hh2.
  assert (task_of sw2 = task_of sw) as Htask by (unfold task_of; by rewrite Hp, Hh1, Hh2).
  pose proof (task_of_ok _ sw2 Hinv2 eq_refl Hs2) as Htk. rewrite Htask in Htk.
  apply ST_bind_run in E as [([] & [l3 w3] & E2 & E)|(e & E2 & _)];
    apply when_try_enqueue_run in E2 as (Hr & q & Hst & Hq); try done.
  injection Hst as -> ->.
  pose proof (winv_enqueued _ _ q Hinv2 Htk Hq) as Hinv3.
  assert (f_open (sw_f sw2) = false) as Hcl by by apply (sealed_closed _ sw2 Hinv3).
  assert (sw_firstRev sw2 < nextRev sw < 2 ^ 63) as Hn by (unfold nextRev in *; lia).
  apply ST_bind_run in E as [(sw4 & [l4 w4] & E3 & E)|(e & E3 & _)];
    apply on_sys_run in E3 as (w5 & E3 & [= -> ->]);
    destruct (winv_open _ sw2 _ _ _ Hinv3 eq_refl Hcl Hn E3) as [Hi Hok]; [|done].
  injection E as _ <- <-. by apply Hok.
Qed.

(** The task of the previous segment, once the next one is active. *)
Lemma old_task_ok l sw sw2 :
  valid_loc (here sw) → sw_path sw = seg_path dir (sw_term sw) (sw_firstRev sw) →
  wal_active l = Some sw2 → sw_firstRev sw < sw_firstRev sw2 →
  task_ok l (task_of sw).
Proof.
  intros Hv Hp Hl Hlt. exists (sw_term sw), (sw_firstRev sw). split; [done|].
  split; [unfold task_of; by rewrite Hp|]. intros sw0 ? _. simplify_eq. lia.
Qed.

Lemma winv_rotationTick s r l' w' :
  winv s → rotationTick uploader (ws_wal s, ws_world s) = (r, (l', w')) → winv (upd s l' w').
Proof.
  intros Hinv Hrun. unfold rotationTick in Hrun.
  destruct (wal_active (ws_wal s)) as [sw|] eqn:Hsw.
  2: { injection Hrun as <- <- <-. by destruct s. }
  destruct (Z.ltb_spec 0 (sw_entryCount sw)).
  2: { injection Hrun as <- <- <-. by destruct s. }
  run_let Hrun r1 l1 w1 E. injection Hrun as <- <- <-.
  pose proof (wi_active _ Hinv sw Hsw) as Hao. destruct (ao_range _ _ _ _ _ Hao) as (Hr1 & Hr2 & Hr3).
  apply ST_bind_run in E as [([] & [l2 w2] & E1 & E)|(e & E1 & _)];
    destruct (winv_seal _ _ _ _ _ Hinv Hsw E1)
      as (Hinv2 & _ & sw2 & -> & Hh & Hp & Hc2 & Hs2); [|done].
  specialize (Hs2 eq_refl). unfold here in Hh. injection Hh as Hh1 Hh2.
  assert (f_open (sw_f sw2) = false) as Hcl by by apply (sealed_closed _ sw2 Hinv2).
  assert (sw_firstRev sw2 < nextRev sw < 2 ^ 63) as Hn by (unfold nextRev in *; lia).
  apply ST_bind_run in E as [(sw3 & [l3 w3] & E2 & E)|(e & E2 & _)];
    apply on_sys_run in E2 as (w5 & E2 & [= -> ->]);
    destruct (winv_open _ sw2 _ _ _ Hinv2 eq_refl Hcl Hn E2) as [Hi Hok]; [|done].
  destruct (Hok sw3 eq_refl) as (Hinv3 & Hf3 & Ht3).
  apply ST_bind_run in E as [([] & [l4 w4] & E3 & E)|(e & E3 & _)];
    apply when_try_enqueue_run in E3 as (Hr & q & Hst & Hq); try done.
  injection Hst as -> ->. injection E as _ <- <-.
  apply (winv_enqueued _ (task_of sw) q) in Hinv3; [done| |done].
  apply (old_task_ok _ _ sw3); [|apply Hao|done|lia].
  by eapply here_valid; [apply Hinv|].
Qed.

Lemma winv_SealAndFlush s n r l' w' :
  winv s → (∀ sw, wal_active (ws_wal s) = Some sw → sw_firstRev sw < n < 2 ^ 63) →
  SealAndFlush uploader n (ws_wal s, ws_world s) = (r, (l', w')) → winv (upd s l' w').
Proof.
  intros Hinv Hn Hrun. unfold SealAndFlush in Hrun.
  apply ST_bind_run in Hrun as [([l0 w0] & st0 & E0 & E)|(e & E0 & _)]; [|done].
  injection E0 as <- <- <-.
  destruct (wal_active (ws_wal s)) as [sw|] eqn:Hsw.
  2: { injection E as <- <- <-. by destruct s. }
  destruct (Z.eqb_spec (sw_entryCount sw) 0).
  { injection E as <- <- <-. by destruct s. }
  pose proof (wi_active _ Hinv sw Hsw) as Hao. specialize (Hn sw eq_refl).
  apply ST_bind_run in E as [([] & [l2 w2] & E1 & E)|(e & E1 & _)];
    destruct (winv_seal _ _ _ _ _ Hinv Hsw E1)
      as (Hinv2 & _ & sw2 & -> & Hh & Hp & Hc2 & Hs2); [|done].
  specialize (Hs2 eq_refl). unfold here in Hh. injection Hh as Hh1 Hh2.
  assert (f_open (sw_f sw2) = false) as Hcl by by apply (sealed_closed _ sw2 Hinv2).
  assert (sw_firstRev sw2 < n < 2 ^ 63) as Hn2 by lia.
  apply ST_bind_run in E as [(sw3 & [l3 w3] & E2 & E)|(e & E2 & _)];
    apply on_sys_run in E2 as (w5 & E2 & [= -> ->]);
    destruct (winv_open _ sw2 _ _ _ Hinv2 eq_refl Hcl Hn2 E2) as [Hi Hok]; [|done].
  destruct (Hok sw3 eq_refl) as (Hinv3 & Hf3 & Ht3).
  apply ST_bind_run in E as [([] & [l4 w4] & [= <- <-] & E)|(e & E3 & _)]; [|done].
  unfold when_uploader in E. destruct uploader as [up|]; injection E as _ <- <-; [|done].
  eapply (winv_enqueued _ (task_of sw)) in Hinv3; [apply Hinv3| |by right].
  apply (old_task_ok _ _ sw3); [|apply Hao|done|lia].
  by eapply here_valid; [apply Hinv|].
Qed.

(** Uploading an acceptable task, and removing its file when that succeeded. *)
Lemma task_active_closed s t r sw :
  winv s → task_ok (ws_wal s) (mkTask (seg_path dir t r) (ObjectKey t r)) → valid_loc (t, r) →
  wal_active (ws_wal s) = Some sw →
  f_open (sw_f sw) = false ∨ f_path (sw_f sw) ≠ seg_path dir t r.
Proof.
  intros Hinv (t' & r' & Hv' & [= Hp _] & Htk) Hv Hsw.
  pose proof (wi_active _ Hinv sw Hsw) as Hao. pose proof Hao as [A1 A2 A3 A4 A5 A6 A7].
  destruct Hv as [Hv1 Hv2], Hv' as [Hv1' Hv2'].
  apply seg_path_inj in Hp as [<- <-]; [|done..].
  destruct (decide ((t, r) = here sw)) as [[= Ht Hr]|Hne].
  - left. apply A6. by apply (Htk sw).
  - right. rewrite A3, A2. intros Heq. apply Hne.
    pose proof (here_valid _ _ _ _ _ (wi_term _ Hinv) Hao) as [Hh1 Hh2].
    by apply seg_path_inj in Heq as [<- <-].
Qed.

Lemma winv_upload s up k res w' :
  winv s → task_ok (ws_wal s) k → upload_law up →
  up (t_localPath k) (t_objectKey k) (ws_world s) = (res, w') →
  winv (upd s (ws_wal s) w') ∧
  (res = Ok tt → ∀ r2 w2, os_remove (t_localPath k) w' = (r2, w2) →
     winv (upd s (ws_wal s) w2)).
Proof.
  intros Hinv Htk Hlaw Hrun. pose proof Htk as (t & r & Hv & -> & _). cbn in Hrun.
  assert (∀ a, a ∈ ws_acked s → durable w' a) as Hdur.
  { intros a Ha. destruct (wi_acked _ Hinv a Ha). by apply (durable_upload up (ws_world s) t r res). }
  pose proof (Hlaw _ _ _ _ _ Hrun) as [Hf _]. split.
  - apply winv_world; [done..|]. intros sw _. right. by rewrite Hf.
  - intros -> r2 w2 Hrm. cbn in Hrm. apply winv_world; [done|..].
    + intros a Ha. destruct (wi_acked _ Hinv a Ha). by apply (durable_upload_remove up (ws_world s) t r w' r2).
    + intros sw Hsw. destruct (task_active_closed _ _ _ _ Hinv Htk Hv Hsw) as [?|Hne]; [by left|].
      right. apply os_remove_files in Hrm as [_ [[-> _]|[-> _]]]; rewrite Hf; [done|].
      by rewrite lookup_delete_ne.
Qed.

Lemma removeUploadedSegment_run p (l : WAL) w r st :
  removeUploadedSegment p (l, w) = (r, st) →
  ∃ r2 w2, os_remove p w = (r2, w2) ∧ st = (l, w2).
Proof.
  unfold removeUploadedSegment. destruct (os_remove p w) as [r2 w2] eqn:E.
  assert (on_sys (os_remove p) (l, w) = (r2, (l, w2))) as Eo
    by by apply on_sys_eq.
  rewrite (try_bind _ _ _ _ _ Eo). intros Hst. exists r2, w2. split; [done|].
  destruct r2 as [|[]]; by injection Hst as _ <-.
Qed.

Lemma winv_uploadStep s c r l' w' :
  winv s → uploadStep uploader c (ws_wal s, ws_world s) = (r, (l', w')) → winv (upd s l' w').
Proof.
  intros Hinv Hrun. unfold uploadStep in Hrun.
  destruct (wal_uploadC (ws_wal s)) as [|k q] eqn:Hq.
  { injection Hrun as <- <- <-. by destruct s. }
  assert (winv (upd s (set_queues q (wal_retry (ws_wal s)) (ws_wal s)) (ws_world s))) as Hinv1.
  { apply winv_enqueue; [done|]. intros k' Hk'. left. rewrite Hq. by right. }
  assert (task_ok (ws_wal s) k) as Htk.
  { apply (wi_tasks _ Hinv). rewrite Hq. by left. }
  destruct uploader as [up|]; [|by injection Hrun as <- <- <-].
  destruct (up _ _ _) as [[[]|e] w1] eqn:E.
  - destruct (removeUploadedSegment _ _) as [r2 st2] eqn:E2.
    apply removeUploadedSegment_run in E2 as (r3 & w3 & E2 & ->). injection Hrun as <- <- <-.
    eapply (winv_upload _ up k) in Hinv1 as [_ Hrm]; [|done|by apply Hup|done].
    by eapply Hrm.
  - eapply (winv_upload _ up k) in Hinv1 as [Hi _]; [|done|by apply Hup|done].
    destruct (c || bool_decide (e = ErrNotExist)); injection Hrun as <- <- <-; [done|].
    apply (winv_enqueue _ q (wal_retry (ws_wal s) ++ [k])) in Hi; [done|].
    intros k' Hk'. cbn. rewrite app_assoc in Hk'.
    apply elem_of_app in Hk' as [?| ->%list_elem_of_singleton]; auto.
Qed.

Lemma winv_retryStep s r l' w' :
  winv s → retryStep (ws_wal s, ws_world s) = (r, (l', w')) → winv (upd s l' w').
Proof.
  intros Hinv Hrun. unfold retryStep in Hrun.
  destruct (wal_retry (ws_wal s)) as [|k q] eqn:Hq.
  { injection Hrun as <- <- <-. by destruct s. }
  unfold try_enqueue, modify in Hrun.
  destruct (_ <? _)%nat; injection Hrun as <- <- <-.
  - apply (winv_enqueue s (wal_uploadC (ws_wal s) ++ [k]) q); [done|].
    intros k' Hk'. left. rewrite Hq. by rewrite <- app_assoc in Hk'.
  - apply (winv_enqueue s (wal_uploadC (ws_wal s)) q); [done|]. intros k' Hk'. left.
    rewrite Hq. apply elem_of_app in Hk' as [?|?]; apply elem_of_app; [by left|].
    right. by right.
Qed.

(** ** Closing *)

Lemma winv_no_active s l' :
  winv s → wal_dir l' = wal_dir (ws_wal s) → wal_term l' = wal_term (ws_wal s) →
  wal_active l' = None → 
  (∀ k, k ∈ wal_uploadC l' ++ wal_retry l' →
     ∃ t r, valid_loc (t, r) ∧ k = mkTask (seg_path dir t r) (ObjectKey t r)) →
  winv (upd s l' (ws_world s)).
Proof.
  intros [Hd Ht Ha Hact Htk] Hd' Ht' Hn Hk. split; cbn; try done.
  - by rewrite Hd'.
  - by rewrite Ht'.
  - intros sw Hsw. by rewrite Hn in Hsw.
  - intros k Hin. destruct (Hk k Hin) as (t & r & Hv & ->). exists t, r.
    split_and!; [done..|]. intros sw Hsw. by rewrite Hn in Hsw.
Qed.

Lemma winv_close_drain s up ts acc r st :
  winv s → upload_law up → wal_active (ws_wal s) = None →
  (∀ k, k ∈ ts → ∃ t r, valid_loc (t, r) ∧ k = mkTask (seg_path dir t r) (ObjectKey t r)) →
  close_drain up acc ts (ws_wal s, ws_world s) = (r, st) →
  ∃ w', st = (ws_wal s, w') ∧ winv (upd s (ws_wal s) w').
Proof.
  intros Hinv Hlaw Hno. revert acc s Hinv Hno.
  induction ts as [|k ts IH]; intros acc s Hinv Hno Hk Hrun.
  { injection Hrun as <- <-. exists (ws_world s). split; [done|]. by destruct s. }
  cbn [close_drain] in Hrun. 
  assert (task_ok (ws_wal s) k) as Htk.
  { destruct (Hk k) as (t & r0 & Hv & ->); [by left|]. exists t, r0.
    split_and!; [done..|]. intros sw Hsw. by rewrite Hno in Hsw. }
  assert (∀ w1, winv (upd s (ws_wal s) w1) → ∀ acc1,
    close_drain up acc1 ts (ws_wal s, w1) = (r, st) →
    ∃ w', st = (ws_wal s, w') ∧ winv (upd s (ws_wal s) w')) as IH'.
  { intros w1 Hw1 acc1 Hr. apply (IH acc1 (upd s (ws_wal s) w1)); [done..| |done].
    intros k' Hk'. apply Hk. by right. }
  unfold close_upload in Hrun.
  destruct (up (t_localPath k) (t_objectKey k) (ws_world s)) as [r1 w1] eqn:E.
  assert (on_sys (up (t_localPath k) (t_objectKey k)) (ws_wal s, ws_world s) = (r1, (ws_wal s, w1)))
    as Eo by by apply on_sys_eq.
  destruct (winv_upload _ _ _ _ _ Hinv Htk Hlaw E) as [Hi Hrm].
  unfold mbind at 1, ST_bind at 1 in Hrun. rewrite (try_bind _ _ _ _ _ Eo) in Hrun.
  destruct r1 as [[]|e].
  - destruct (removeUploadedSegment (t_localPath k) (ws_wal s, w1)) as [r2 st2] eqn:E2.
    rewrite (try_bind _ _ _ _ _ E2) in Hrun.
    apply removeUploadedSegment_run in E2 as (r3 & w3 & E2 & ->).
    specialize (Hrm eq_refl _ _ E2). destruct r2; by apply (IH' w3 Hrm) in Hrun.
  - by apply (IH' w1 Hi) in Hrun.
Qed.

Lemma tasks_named s k :
  winv s → k ∈ wal_uploadC (ws_wal s) ++ wal_retry (ws_wal s) →
  ∃ t r, valid_loc (t, r) ∧ k = mkTask (seg_path dir t r) (ObjectKey t r).
Proof. intros Hinv Hk. destruct (wi_tasks _ Hinv k Hk) as (t & r & ? & ? & _). eauto. Qed.

Lemma winv_set_closed s : winv s → winv (upd s (set_closed (ws_wal s)) (ws_world s)).
Proof.
  intros [Hd Ht Ha Hact Htk]. split; cbn; try done.
  intros sw Hsw. destruct (Hact sw Hsw). by split.
Qed.

(** Removing the file of an empty active segment loses nothing. *)
Lemma winv_remove_empty s sw r w' :
  winv s → wal_active (ws_wal s) = Some sw → sw_entryCount sw ≤ 0 →
  f_open (sw_f sw) = false →
  os_remove (sw_path sw) (ws_world s) = (r, w') → winv (upd s (ws_wal s) w').
Proof.
  intros Hinv Hsw Hc Hcl Hrm. pose proof (wi_active _ Hinv sw Hsw) as [A1 A2 A3 A4 A5 A6 A7].
  apply os_remove_files in Hrm as [Ho Hf]. apply winv_world; [done| |].
  - intros [e [t r']] Ha. destruct (wi_acked _ Hinv _ Ha) as [[Hv1 Hv2] Hd].
    destruct Hf as [[Hf _]|[Hf _]].
    { eapply durable_same; [done|unfold objs; by rewrite Ho|done]. }
    eapply (durable_other_file _ _ (sw_path sw)); [| |..|done].
    + intros q Hq. by rewrite Hf, lookup_delete_ne.
    + unfold objs. by rewrite Ho.
    + rewrite A2. intros Heq.
      pose proof (here_valid _ _ _ _ _ (wi_term _ Hinv) (wi_active _ Hinv sw Hsw)) as [Hh1 Hh2].
      apply seg_path_inj in Heq as [<- <-]; [|done..].
      destruct (A5 _ _ _ Ha eq_refl) as [_ Hpos]. specialize (Hpos eq_refl). lia.
  - intros sw0 Hsw0. simplify_eq. by left.
Qed.

(** Closing the active handle. *)
Lemma winv_close_handle s sw r l' w' :
  winv s → wal_active (ws_wal s) = Some sw →
  on_active Close (ws_wal s, ws_world s) = (r, (l', w')) →
  winv (upd s l' w') ∧ ∃ sw', l' = set_active (Some sw') (ws_wal s) ∧
    f_open (sw_f sw') = false ∧ sw_path sw' = sw_path sw ∧ sw_entryCount sw' = sw_entryCount sw.
Proof.
  intros Hinv Hsw Hrun. unfold on_active in Hrun. rewrite Hsw in Hrun.
  unfold Close, on_file, zoom in Hrun.
  destruct (os_close (sw_f sw, ws_world s)) as [r1 [f1 w1]] eqn:E. injection Hrun as -> <- <-.
  apply os_close_files in E as (Hfp & Hop & Hf & Ho).
  pose proof Hinv as [Hd Ht Ha Hact Htk]. destruct (Hact sw Hsw) as [A1 A2 A3 A4 A5 A6 A7].
  split; [|by exists (set_f f1 sw)]. split; cbn; try done.
  - intros a Hin. destruct (Ha a Hin). split; [done|].
    eapply durable_same; [done|unfold objs; by rewrite Ho|done].
  - intros sw0 [= <-]. split; cbn; try done.
    + by rewrite Hfp.
    + by left.
  - intros k Hk. destruct (Htk k Hk) as (t & r' & Hv & -> & Hk'). exists t, r'.
    split_and!; [done..|]. intros sw0 [= <-]. cbn. by apply Hk'.
Qed.

Lemma winv_close_active s r st :
  winv s → close_active (ws_wal s, ws_world s) = (r, st) →
  ∃ l' w' fin, st = (l', w') ∧ r = Ok fin ∧ wal_active l' = None ∧
    wal_uploadC l' = wal_uploadC (ws_wal s) ∧ wal_retry l' = wal_retry (ws_wal s) ∧
    winv (upd s l' w') ∧
    ∀ sw, fin = Some sw →
      ∃ t r, valid_loc (t, r) ∧ task_of sw = mkTask (seg_path dir t r) (ObjectKey t r).
Proof.
  intros Hinv Hrun. unfold close_active in Hrun.
  apply ST_bind_run in Hrun as [([l0 w0] & st0 & E0 & E)|(e & E0 & _)]; [|done].
  injection E0 as <- <- <-.
  destruct (wal_active (ws_wal s)) as [sw|] eqn:Hsw.
  2: { injection E as <- <-. exists (ws_wal s), (ws_world s), None. split_and!; try done.
       by destruct s. }
  assert (∀ l1 w1, winv (upd s l1 w1) → winv (upd s (set_active None l1) w1)) as Hnone.
  { intros l1 w1 Hi. apply (winv_no_active _ (set_active None l1)) in Hi; [done..|].
    intros k Hk. by apply (tasks_named _ k Hi). }
  pose proof (wi_active _ Hinv sw Hsw) as Hao.
  destruct (Z.ltb_spec 0 (sw_entryCount sw)).
  - destruct (on_active Seal (ws_wal s, ws_world s)) as [r1 [l1 w1]] eqn:E1.
    unfold mbind at 1, ST_bind at 1 in E. rewrite (try_bind _ _ _ _ _ E1) in E.
    destruct (winv_seal _ _ _ _ _ Hinv Hsw E1) as (Hi & _ & sw' & -> & _).
    injection E as <- <-. eexists _, _, _. split_and!; [done..|by apply Hnone|].
    intros sw0 Hsw0. destruct (is_ok r1); [|done]. injection Hsw0 as <-.
    exists (sw_term sw), (sw_firstRev sw). split; [by eapply here_valid; [apply Hinv|]|].
    unfold task_of. by rewrite (ao_path _ _ _ _ _ Hao).
  - destruct (on_active Close (ws_wal s, ws_world s)) as [r1 [l1 w1]] eqn:E1.
    unfold mbind at 1, ST_bind at 1 in E. rewrite (try_bind _ _ _ _ _ E1) in E.
    destruct (winv_close_handle _ _ _ _ _ Hinv Hsw E1) as (Hi & sw' & -> & Hop & Hp & Hc).
    destruct (os_remove (sw_path sw) w1) as [r2 w2] eqn:E2.
    assert (on_sys (os_remove (sw_path sw)) (set_active (Some sw') (ws_wal s), w1) =
      (r2, (set_active (Some sw') (ws_wal s), w2))) as Eo
      by by apply on_sys_eq.
    rewrite (try_bind _ _ _ _ _ Eo) in E. injection E as <- <-.
    eexists _, _, _. split_and!; try done. apply (Hnone (set_active (Some sw') (ws_wal s))).
    rewrite <- Hp in E2.
    apply (winv_remove_empty (upd s (set_active (Some sw') (ws_wal s)) w1) sw' r2 w2); try done.
    by rewrite Hc.
Qed.

Lemma winv_WalClose s r l' w' :
  winv s → WalClose uploader (ws_wal s, ws_world s) = (r, (l', w')) → winv (upd s l' w').
Proof.
  intros Hinv Hrun. unfold WalClose in Hrun.
  apply ST_bind_run in Hrun as [([l0 w0] & st0 & E0 & E)|(e & E0 & _)]; [|done].
  injection E0 as <- <- <-.
  destruct (wal_closed (ws_wal s)); [injection E as <- <- <-; by destruct s|].
  apply ST_bind_run in E as [([] & st1 & [= <-] & E)|(e & E0 & _)]; [|done].
  apply winv_set_closed in Hinv.
  apply ST_bind_run in E as [(fin & st2 & E2 & E)|(e & E2 & _)].
  2: { apply (winv_close_active _ _ _ Hinv) in E2 as (? & ? & ? & _ & ? & _). done. }
  apply (winv_close_active _ _ _ Hinv) in E2 as (l2 & w2 & fin' & -> & [= <-] & Hno & Hq & Hr & Hi & Hfin).
  assert (∀ q, (∀ k, k ∈ q → k ∈ wal_uploadC l2) →
    winv (upd s (set_queues q [] l2) w2)) as Hqs.
  { intros q Hsub. apply (winv_enqueue _ q []) in Hi; [done|]. intros k Hk.
    left. rewrite app_nil_r in Hk. apply elem_of_app. left. by apply Hsub. }
  apply ST_bind_run in E as [([] & st3 & [= <-] & E)|(e & E0 & _)]; [|done].
  destruct uploader as [up|].
  2: { injection E as <- <- <-. by apply Hqs. }
  apply ST_bind_run in E as [([l4 w4] & st4 & E4 & E)|(e & E0 & _)]; [|done].
  injection E4 as <- <- <-.
  apply ST_bind_run in E as [([] & st3 & [= <-] & E)|(e & E0 & _)]; [|done].
  apply ST_bind_run in E as [(ue & st5 & E5 & E)|(e & E5 & _)].
  - cbn in E5. apply (winv_close_drain (upd s (set_queues [] [] l2) w2)) in E5
      as (w5 & -> & Hi5); [|by apply Hqs; intros ??%not_elem_of_nil|by apply Hup|done|].
    + destruct ue; by injection E as _ <- <-.
    + intros k [Hk|Hk]%elem_of_app.
      * apply (tasks_named _ k Hi). apply elem_of_app. by left.
      * destruct fin as [sw|]; [|by apply not_elem_of_nil in Hk].
        apply list_elem_of_singleton in Hk as ->. by apply Hfin.
  - apply (winv_close_drain (upd s (set_queues [] [] l2) w2)) in E5
      as (w5 & [= -> ->] & Hi5); [done|by apply Hqs; intros ??%not_elem_of_nil|by apply Hup|done|].
    intros k [Hk|Hk]%elem_of_app.
    * apply (tasks_named _ k Hi). apply elem_of_app. by left.
    * destruct fin as [sw|]; [|by apply not_elem_of_nil in Hk].
      apply list_elem_of_singleton in Hk as ->. by apply Hfin.
Qed.

(** ** Appending *)

(** The writer is the same segment with possibly more entries. *)
Record same_seg (sw sw' : SegmentWriter) (w w' : world S) : Prop := {
  ss_here : here sw' = here sw;
  ss_path : sw_path sw' = sw_path sw;
  ss_fpath : f_path (sw_f sw') = f_path (sw_f sw);
  ss_sealed : sw_sealed sw' = sw_sealed sw;
  ss_obj : w_obj w' = w_obj w;
  ss_other : ∀ p, p ≠ sw_path sw → w_files w' !! p = w_files w !! p }.

Lemma same_seg_refl sw w : same_seg sw sw w w.
Proof. by split. Qed.

Lemma same_seg_trans sw1 sw2 sw3 w1 w2 w3 :
  same_seg sw1 sw2 w1 w2 → same_seg sw2 sw3 w2 w3 → same_seg sw1 sw3 w1 w3.
Proof.
  intros [A1 A2 A3 A4 A5 A6] [B1 B2 B3 B4 B5 B6]. split; try congruence.
  intros p Hp. rewrite B6 by (by rewrite A2). by apply A6.
Qed.

(** The active file after a run of appends: complete frames of the old
    entries and of some of the new ones, and a torn tail. *)
Definition appended (es batch : list Entry) (sw : SegmentWriter) (w : world S) : Prop :=
  ∃ done b, done `prefix_of` batch ∧ torn_tail b ∧
    w_files w !! sw_path sw = Some (seg_content (sw_term sw) (sw_firstRev sw) (es ++ done) ++ b).

Lemma append_all_run batch : ∀ es l sw w r l' w',
  Forall wf_entry batch → wal_active l = Some sw → seg_inv es sw w →
  append_all batch (l, w) = (r, (l', w')) →
  ∃ sw', l' = set_active (Some sw') l ∧ same_seg sw sw' w w' ∧
    sw_entryCount sw ≤ sw_entryCount sw' ≤ sw_entryCount sw + zlen batch ∧
    appended es batch sw' w' ∧ (r = Ok tt → seg_inv (es ++ batch) sw' w').
Proof.
  induction batch as [|e batch IH]; intros es l sw w r l' w' Hwf Hl Hinv Hrun.
  - injection Hrun as <- <- <-. exists sw. split; [by destruct l; cbn in *; subst|].
    split; [apply same_seg_refl|]. rewrite app_nil_r. split_and!; try done; [unfold zlen; cbn [length]; lia|].
    exists [], []. split_and!; [done|by left|].
    by rewrite !app_nil_r, (si_path _ _ _ Hinv), (si_file _ _ _ Hinv).
  - apply Forall_cons in Hwf as [He Hwf]. cbn [append_all] in Hrun.
    destruct (AppendNoSync e (sw, w)) as [r1 [sw1 w1]] eqn:E.
    assert (on_active (AppendNoSync e) (l, w) = (r1, (set_active (Some sw1) l, w1))) as Eo
      by (unfold on_active; by rewrite Hl, E).
    apply (AppendNoSync_spec _ _ _ _ _ _ _ Hinv) in E
      as (Ho & Ht & Hf & Hfp & Hp & Hs & Hop & Hoth & Hr).
    pose proof (si_path _ _ _ Hinv) as Hpe.
    assert (same_seg sw sw1 w w1) as Hss.
    { split; try done; [unfold here; congruence|]. intros p Hne. apply Hoth. by rewrite <- Hpe. }
    rewrite zlen_cons. destruct r1 as [[]|er].
    + rewrite (ST_bind_ok _ _ _ _ _ Eo) in Hrun.
      assert (sw_entryCount sw1 = sw_entryCount sw + 1) as Hc.
      { rewrite (si_count _ _ _ Hr), (si_count _ _ _ Hinv), zlen_app. done. }
      eapply (IH (es ++ [e])) in Hrun as (sw' & -> & Hss' & Hcnt & Happ & Hok); [|done..].
      exists sw'. split; [done|]. split; [by eapply same_seg_trans|]. split; [lia|].
      rewrite <- app_assoc in Hok. split; [|done].
      destruct Happ as (dn & b & Hpre & Hb & Hfile). exists (e :: dn), b.
      rewrite <- app_assoc in Hfile. split_and!; [by apply prefix_cons|done|done].
    + rewrite (ST_bind_err _ _ _ _ _ Eo) in Hrun. injection Hrun as <- <- <-.
      destruct Hr as (b1 & b2 & Hb & Hb2 & Hfile & Hsz & Hcnt).
      exists sw1. split_and!; [done|done|lia|pose proof (zlen_nonneg batch); lia| |done].
      exists [], b1. rewrite app_nil_r, Hp, Ht, Hf, Hpe. split_and!; [apply prefix_nil|..|done].
      right. by exists e, b2.
Qed.

(** A closed file accepts nothing and nothing changes. *)
Lemma append_closed e l sw w :
  wal_active l = Some sw → f_open (sw_f sw) = false →
  on_active (AppendNoSync e) (l, w) = (Err errFileClosed, (l, w)) ∧
  on_active (Append e) (l, w) = (Err errFileClosed, (l, w)).
Proof.
  intros Hl Hop. unfold on_active. rewrite Hl.
  unfold AppendNoSync, Append, on_file, zoom, mbind, ST_bind, os_write. rewrite Hop. cbn.
  rewrite set_f_id. by destruct l; cbn in *; subst.
Qed.

(** Entries acknowledged in the active segment are among its entries. *)
Lemma acked_in_active s sw es e :
  winv s → wal_active (ws_wal s) = Some sw → seg_inv es sw (ws_world s) → Forall wf_entry es →
  (e, here sw) ∈ ws_acked s → with_sequence e ∈ map with_sequence es.
Proof.
  intros Hinv Hsw Hsi Hes Hin.
  pose proof (wi_active _ Hinv sw Hsw) as Hao.
  pose proof (here_valid _ _ _ _ _ (wi_term _ Hinv) Hao) as [Hh1 Hh2].
  destruct (wi_acked _ Hinv _ Hin) as [_ Hd]. unfold here in Hd. cbn in Hd.
  rewrite <- (ao_path _ _ _ _ _ Hao), (si_path _ _ _ Hsi), (si_file _ _ _ Hsi) in Hd.
  rewrite <- (app_nil_r (seg_content _ _ es)) in Hd.
  rewrite seg_holds_content in Hd; [done..|by left].
Qed.

(** The active segment changes: every entry acknowledged in it, before or now,
    is among the entries its file holds. *)
Lemma winv_active_update s sw sw' w' es' b acked' fenced' :
  winv s → wal_active (ws_wal s) = Some sw → same_seg sw sw' (ws_world s) w' →
  Forall wf_entry es' → torn_tail b →
  w_files w' !! sw_path sw' = Some (seg_content (sw_term sw') (sw_firstRev sw') es' ++ b) →
  0 ≤ sw_entryCount sw' → nextRev sw' < 2 ^ 63 →
  (sw_sealed sw' = true → f_open (sw_f sw') = false) →
  (∀ a, a ∈ acked' → a.2 ≠ here sw → a ∈ ws_acked s) →
  (∀ e, (e, here sw) ∈ acked' →
     with_sequence e ∈ map with_sequence es' ∧ 0 < sw_entryCount sw') →
  (fenced' = false → f_open (sw_f sw') = false ∨ ∃ es, Forall wf_entry es ∧ seg_inv es sw' w') →
  winv (mkWS acked' fenced' (set_active (Some sw') (ws_wal s)) w').
Proof.
  intros Hinv Hsw Hss Hes' Hb Hfile Hc0 Hn Hsealed Hold Hnew Hclean.
  pose proof (wi_active _ Hinv sw Hsw) as Hao.
  pose proof (here_valid _ _ _ _ _ (wi_term _ Hinv) Hao) as Hh.
  destruct Hss as [S1 S2 S3 S4 S5 S6]. unfold here in S1. injection S1 as S11 S12.
  destruct Hao as [A1 A2 A3 A4 A5 A6 A7]. split; cbn.
  - apply Hinv.
  - apply Hinv.
  - intros [e [t r]] Hin. destruct (decide ((t, r) = here sw)) as [Heq|Hne].
    + rewrite Heq in Hin. destruct (Hnew e Hin) as [Hmem _]. split; [by cbn; rewrite Heq|].
      unfold here in Heq. injection Heq as -> ->. unfold durable.
      rewrite <- A2, <- S2, Hfile, S11, S12. apply seg_holds_content; try done; apply Hh.
    + destruct (wi_acked _ Hinv _ (Hold _ Hin Hne)) as [Hv Hd]. split; [done|].
      eapply durable_other_file; [apply S6|unfold objs; by rewrite S5| |done].
      rewrite A2. intros Heq. destruct Hh as [Hh1 Hh2], Hv as [Hv1 Hv2].
      apply seg_path_inj in Heq as [<- <-]; done.
  - intros sw0 [= <-]. split; try done.
    + by rewrite S11.
    + by rewrite S2, S11, S12.
    + by rewrite S3, S2.
    + rewrite S12. lia.
    + intros e t r Hin Ht. rewrite S12. rewrite S11 in Ht.
      destruct (decide ((t, r) = here sw)) as [Heq|Hne].
      * unfold here in Heq. injection Heq as -> ->. split; [done|]. intros _. by apply Hnew with e.
      * destruct (A5 _ _ _ (Hold _ Hin Hne) Ht) as [Hle _]. split; [done|]. intros ->.
        exfalso. apply Hne. by rewrite Ht.
  - intros k Hk. destruct (wi_tasks _ Hinv k Hk) as (t & r & Hv & -> & Hk'). exists t, r.
    split_and!; [done..|]. intros sw0 [= <-] Ht. rewrite S12, S4. rewrite S11 in Ht.
    by apply Hk'.
Qed.

(** The acknowledgements of a batch. *)
Definition acks (batch : list Entry) (p : loc) : list (Entry * loc) := map (λ e, (e, p)) batch.

Lemma elem_of_acks e batch p q : (e, p) ∈ acks batch q → p = q ∧ e ∈ batch.
Proof.
  unfold acks. rewrite list_elem_of_In, in_map_iff. intros (x & [= -> ->] & Hx).
  by rewrite list_elem_of_In.
Qed.

Lemma prefix_Forall {A} (P : A → Prop) l k : l `prefix_of` k → Forall P k → Forall P l.
Proof. intros [m ->] [? _]%Forall_app. done. Qed.

Lemma map_with_sequence_app e es es' :
  with_sequence e ∈ map with_sequence es → with_sequence e ∈ map with_sequence (es ++ es').
Proof. rewrite map_app, elem_of_app. by left. Qed.

Lemma map_with_sequence_elem e es es' :
  e ∈ es' → with_sequence e ∈ map with_sequence (es ++ es').
Proof.
  intros He. rewrite map_app, elem_of_app. right. rewrite list_elem_of_In, in_map_iff.
  exists e. by rewrite <- list_elem_of_In.
Qed.

(** After appending a batch to a clean segment: the batch may be acknowledged
    if all of it was written, and nothing is lost in any case. *)
Lemma winv_appended s sw sw' es batch w' :
  winv s → wal_active (ws_wal s) = Some sw → seg_inv es sw (ws_world s) →
  Forall wf_entry es → Forall wf_entry batch → nextRev sw + zlen batch < 2 ^ 63 →
  same_seg sw sw' (ws_world s) w' →
  sw_entryCount sw ≤ sw_entryCount sw' ≤ sw_entryCount sw + zlen batch →
  appended es batch sw' w' →
  let l' := set_active (Some sw') (ws_wal s) in
  winv (mkWS (ws_acked s) true l' w') ∧
  (seg_inv (es ++ batch) sw' w' →
     winv (mkWS (ws_acked s) (ws_fenced s) l' w') ∧
     (batch ≠ [] → winv (mkWS (acks batch (here sw) ++ ws_acked s) (ws_fenced s) l' w'))).
Proof.
  intros Hinv Hsw Hsi Hes Hb Hn Hss Hcnt (dn & tb & Hpre & Htb & Hfile). cbv zeta.
  pose proof (wi_active _ Hinv sw Hsw) as Hao.
  assert (Forall wf_entry (es ++ dn)) as Hwf'.
  { apply Forall_app. split; [done|by eapply prefix_Forall]. }
  assert (sw_firstRev sw' = sw_firstRev sw) as Hfr by (pose proof (ss_here _ _ _ _ Hss) as [= _ ?]; done).
  assert (0 ≤ sw_entryCount sw' ∧ nextRev sw' < 2 ^ 63) as [Hc0 Hn'].
  { destruct (ao_range _ _ _ _ _ Hao) as (? & ? & _). unfold nextRev in *. rewrite Hfr. lia. }
  assert (sw_sealed sw' = true → f_open (sw_f sw') = false) as Hse.
  { rewrite (ss_sealed _ _ _ _ Hss), (si_sealed _ _ _ Hsi). done. }
  assert (∀ e, (e, here sw) ∈ ws_acked s →
    with_sequence e ∈ map with_sequence (es ++ dn) ∧ 0 < sw_entryCount sw') as Hkeep.
  { intros e He. split; [by apply map_with_sequence_app, (acked_in_active s sw)|].
    destruct (ao_acked _ _ _ _ _ Hao _ _ _ He eq_refl) as [_ Hpos].
    specialize (Hpos eq_refl). lia. }
  split; [by apply (winv_active_update s sw _ _ (es ++ dn) tb)|].
  intros Hok.
  assert (w_files w' !! sw_path sw' =
    Some (seg_content (sw_term sw') (sw_firstRev sw') (es ++ batch) ++ [])) as Hfile2.
  { by rewrite app_nil_r, (si_path _ _ _ Hok), (si_file _ _ _ Hok). }
  assert (Forall wf_entry (es ++ batch)) as Hwf2 by by apply Forall_app.
  split.
  - apply (winv_active_update s sw _ _ (es ++ batch) []); try done; [by left| |eauto].
    intros e He. destruct (Hkeep e He) as [_ ?]. split; [|done].
    by apply map_with_sequence_app, (acked_in_active s sw).
  - intros Hne. apply (winv_active_update s sw _ _ (es ++ batch) []); try done; [by left| | |eauto].
    + intros [e p] [Hin|Hin]%elem_of_app Hp; [|done]. by apply elem_of_acks in Hin as [-> _].
    + intros e [Hin|Hin]%elem_of_app.
      * apply elem_of_acks in Hin as [_ Hin]. split; [by apply map_with_sequence_elem|].
        rewrite (si_count _ _ _ Hok), zlen_app.
        destruct batch; [done|]. rewrite zlen_cons.
        pose proof (zlen_nonneg es). pose proof (zlen_nonneg batch). lia.
      * destruct (Hkeep e Hin) as [_ ?]. split; [|done].
        by apply map_with_sequence_app, (acked_in_active s sw).
Qed.

Lemma winv_append_all s sw es batch r l' w' :
  winv s → wal_active (ws_wal s) = Some sw → seg_inv es sw (ws_world s) →
  Forall wf_entry es → Forall wf_entry batch → nextRev sw + zlen batch < 2 ^ 63 →
  append_all batch (ws_wal s, ws_world s) = (r, (l', w')) →
  ∃ sw', l' = set_active (Some sw') (ws_wal s) ∧ here sw' = here sw ∧
    winv (mkWS (ws_acked s) true l' w') ∧
    (r = Ok tt → seg_inv (es ++ batch) sw' w' ∧
       winv (mkWS (ws_acked s) (ws_fenced s) l' w') ∧
       (batch ≠ [] → winv (mkWS (acks batch (here sw) ++ ws_acked s) (ws_fenced s) l' w'))).
Proof.
  intros Hinv Hsw Hsi Hes Hb Hn Hrun.
  destruct (append_all_run _ _ _ _ _ _ _ _ Hb Hsw Hsi Hrun) as
    (sw' & -> & Hss & Hcnt & Happ & Hok).
  exists sw'. split; [done|]. split; [apply Hss|].
  destruct (winv_appended _ _ _ _ _ _ Hinv Hsw Hsi Hes Hb Hn Hss Hcnt Happ) as [Hf Hs].
  split; [done|]. intros Hr. split; [by apply Hok|by apply Hs, Hok].
Qed.

Lemma winv_weaken s acked' fenced' :
  winv s → (∀ a, a ∈ acked' → a ∈ ws_acked s) → (fenced' = false → ws_fenced s = false) →
  winv (mkWS acked' fenced' (ws_wal s) (ws_world s)).
Proof.
  intros [Hd Ht Ha Hact Htk] Hsub Hf. split; cbn; try done.
  - intros a Hin. by apply Ha, Hsub.
  - intros sw Hsw. destruct (Hact sw Hsw) as [A1 A2 A3 A4 A5 A6 A7]. split; try done.
    + intros e t r Hin. by apply (A5 e), Hsub.
    + intros Hff. by apply A7, Hf.
Qed.

Lemma Sync_active s sw r l' w' :
  winv s → wal_active (ws_wal s) = Some sw →
  on_active Sync (ws_wal s, ws_world s) = (r, (l', w')) →
  l' = ws_wal s ∧ w_files w' = w_files (ws_world s) ∧ w_obj w' = w_obj (ws_world s) ∧
  winv (upd s l' w').
Proof.
  intros Hinv Hsw Hrun. unfold on_active in Hrun. rewrite Hsw in Hrun.
  destruct (Sync (sw, ws_world s)) as [r1 [sw1 w1]] eqn:E. injection Hrun as -> <- <-.
  apply Sync_spec in E as (-> & Hf & Ho).
  assert (set_active (Some sw) (ws_wal s) = ws_wal s) as -> by
    (destruct (ws_wal s); cbn in *; by subst).
  split_and!; try done. apply winv_world; [done| |].
  - intros a Ha. eapply durable_same; [done|unfold objs; by rewrite Ho|].
    by apply (wi_acked _ Hinv).
  - intros sw0 _. right. by rewrite Hf.
Qed.

(** [rollback] of a batch, whichever of its calls fail. *)
Lemma rollback_run es batch sw w size count r sw' w' :
  seg_inv (es ++ batch) sw w →
  size = zlen (seg_content (sw_term sw) (sw_firstRev sw) es) →
  rollback size count (sw, w) = (r, (sw', w')) →
  same_seg sw sw' w w' ∧
  (sw_entryCount sw' = sw_entryCount sw ∨ sw_entryCount sw' = count) ∧
  ∃ es', (es' = es ∨ es' = es ++ batch) ∧
    w_files w' !! sw_path sw' = Some (seg_content (sw_term sw') (sw_firstRev sw') es' ++ []).
Proof.
  intros Hsi -> Hrun. pose proof Hsi as [B1 B2 B3 B4 B5 B6 B7].
  unfold rollback, zlen in Hrun. rewrite Nat2Z.id in Hrun.
  set (c := seg_content (sw_term sw) (sw_firstRev sw) es) in *.
  assert (seg_content (sw_term sw) (sw_firstRev sw) (es ++ batch) =
    c ++ concat (map entryFrame batch)) as Hc.
  { subst c. unfold seg_content. by rewrite map_app, concat_app, app_assoc. }
  unfold on_file, zoom, mbind, ST_bind in Hrun.
  destruct (os_truncate (length c) (sw_f sw, w)) as [r1 [f1 w1]] eqn:E1.
  destruct r1 as [[]|e].
  2: { assert (f1 = sw_f sw ∧ w_files w1 = w_files w ∧ w_obj w1 = w_obj w) as (-> & Hf & Ho).
       { unfold os_truncate in E1. rewrite B6 in E1. cbn in E1.
         destruct (syscall w) as [[[]|e'] w2] eqn:Es.
         - destruct (w_files w2 !! f_path (sw_f sw)); done.
         - apply syscall_files in Es as [??]. by injection E1 as <- <- <-. }
       cbv beta iota in Hrun.
       rewrite set_f_id in Hrun. injection Hrun as <- <- <-.
       split_and!; [split; try done; by rewrite ?Hf| by left|].
       exists (es ++ batch). split; [by right|]. by rewrite B2, Hf, B1, app_nil_r. }
  eapply os_truncate_ok in E1 as E1'; [|done]. destruct E1' as (-> & Hf1 & Ho1).
  rewrite Hc, truncate_to_prefix in Hf1.
  cbv beta iota in Hrun. rewrite set_f_id in Hrun.
  assert (∀ sw2 w2, here sw2 = here sw → sw_path sw2 = sw_path sw →
     f_path (sw_f sw2) = f_path (sw_f sw) → sw_sealed sw2 = sw_sealed sw →
     w_files w2 = w_files w1 → w_obj w2 = w_obj w1 →
     sw_entryCount sw2 = sw_entryCount sw ∨ sw_entryCount sw2 = count →
     same_seg sw sw2 w w2 ∧ (sw_entryCount sw2 = sw_entryCount sw ∨ sw_entryCount sw2 = count) ∧
     ∃ es', (es' = es ∨ es' = es ++ batch) ∧
       w_files w2 !! sw_path sw2 = Some (seg_content (sw_term sw2) (sw_firstRev sw2) es' ++ []))
    as Hdone.
  { intros sw2 w2 K1 K2 K3 K4 K5 K6 K7. unfold here in K1. injection K1 as K11 K12.
    split; [split; try done|].
    - unfold here. by rewrite K11, K12.
    - by rewrite K6.
    - intros p Hp. rewrite K5, Hf1, lookup_insert_ne; [done|]. by rewrite <- B2.
    - split; [done|]. exists es. split; [by left|].
      by rewrite K5, Hf1, K2, B2, lookup_insert_eq, K11, K12, app_nil_r. }
  destruct (os_seek (length c) (sw_f sw, w1)) as [r2 [f2 w2]] eqn:E2.
  assert (f_path f2 = f_path (sw_f sw) ∧ w_files w2 = w_files w1 ∧ w_obj w2 = w_obj w1) as (Hp2 & Hf2 & Ho2).
  { unfold os_seek in E2. rewrite B6 in E2. cbn in E2. destruct (syscall w1) as [r3 w3] eqn:Es.
    apply syscall_files in Es as [??]. injection E2 as <- <- <-. by destruct r3. }
  cbv beta iota in Hrun. destruct r2 as [[]|e]; [|injection Hrun as <- <- <-; apply Hdone; cbn; auto].
  cbn [sw_f set_f] in Hrun. destruct (os_sync (f2, w2)) as [r3 [f3 w3]] eqn:E3.
  apply os_sync_files in E3 as (-> & Hf3 & Ho3).
  destruct r3 as [[]|e]; cbn in Hrun; injection Hrun as <- <- <-; apply Hdone; cbn; auto; congruence.
Qed.

(** An upload without removal changes no file. *)
Lemma winv_upload_only s up sw res w' :
  winv s → wal_active (ws_wal s) = Some sw → upload_law up →
  up (sw_path sw) (ObjectKey (sw_term sw) (sw_firstRev sw)) (ws_world s) = (res, w') →
  w_files w' = w_files (ws_world s) ∧ winv (upd s (ws_wal s) w') ∧
  (res = Ok tt → ∀ c, w_files w' !! sw_path sw = Some c →
     objs w' !! ObjectKey (sw_term sw) (sw_firstRev sw) = Some c).
Proof.
  intros Hinv Hsw Hlaw Hrun. pose proof (wi_active _ Hinv sw Hsw) as Hao.
  pose proof (here_valid _ _ _ _ _ (wi_term _ Hinv) Hao) as Hh.
  pose proof (Hlaw _ _ _ _ _ Hrun) as [Hf _]. rewrite (ao_path _ _ _ _ _ Hao) in *.
  split; [done|]. split.
  - apply winv_world; [done| |].
    + intros a Ha. destruct (wi_acked _ Hinv a Ha).
      by apply (durable_upload up (ws_world s) (sw_term sw) (sw_firstRev sw) res).
    + intros sw0 _. right. by rewrite Hf.
  - intros ->. by eapply upload_stored.
Qed.

(** The successful end of [rotateSyncLocked]: seal, open the next segment,
    remove the uploaded file. *)
Lemma winv_rotate_uploaded s sw r st :
  winv s → wal_active (ws_wal s) = Some sw → 0 < sw_entryCount sw →
  (∀ c, w_files (ws_world s) !! sw_path sw = Some c →
     objs (ws_world s) !! ObjectKey (sw_term sw) (sw_firstRev sw) = Some c) →
  (on_active Seal;;
   sw2 ← on_sys (OpenSegmentWriter (wal_dir (ws_wal s)) (wal_term (ws_wal s)) (nextRev sw));
   modify (λ '(l, w), (set_active (Some sw2) l, w));;
   _ ← try (removeUploadedSegment (sw_path sw));
   mret tt) (ws_wal s, ws_world s) = (r, st) →
  winv (upd s st.1 st.2).
Proof.
  intros Hinv Hsw Hc Hstored E.
  pose proof (wi_active _ Hinv sw Hsw) as Hao. destruct (ao_range _ _ _ _ _ Hao) as (Hr1 & Hr2 & Hr3).
  pose proof (here_valid _ _ _ _ _ (wi_term _ Hinv) Hao) as Hv.
  apply ST_bind_run in E as [([] & [l2 w2] & E1 & E)|(e & E1 & _)].
  2: { destruct st. by destruct (winv_seal _ _ _ _ _ Hinv Hsw E1). }
  assert (w_obj w2 = w_obj (ws_world s)) as Ho2.
  { unfold on_active in E1. rewrite Hsw in E1.
    destruct (Seal _) as [? [? ?]] eqn:Es. injection E1 as -> <- <-.
    by apply Seal_run in Es as (_ & ? & _). }
  destruct (winv_seal _ _ _ _ _ Hinv Hsw E1) as (Hinv2 & Hf2 & sw2 & -> & Hh & Hp & Hc2 & Hs2).
  specialize (Hs2 eq_refl). unfold here in Hh. injection Hh as Hh1 Hh2.
  assert (f_open (sw_f sw2) = false) as Hcl by by apply (sealed_closed _ sw2 Hinv2).
  assert (sw_firstRev sw2 < nextRev sw < 2 ^ 63) as Hn by (unfold nextRev in *; lia).
  apply ST_bind_run in E as [(sw3 & [l3 w3] & E2 & E)|(e & E2 & _)];
    apply on_sys_run in E2 as (w5 & E2 & Hst).
  2: { subst st. by destruct (winv_open _ sw2 _ _ _ Hinv2 eq_refl Hcl Hn E2). }
  injection Hst as -> ->.
  destruct (winv_open _ sw2 _ _ _ Hinv2 eq_refl Hcl Hn E2) as [_ Hok].
  destruct (Hok sw3 eq_refl) as (Hinv3 & Hf3 & Ht3).
  rewrite (wi_dir _ Hinv) in E2. apply OpenSegmentWriter_frame in E2 as [Ho5 Hf5].
  apply ST_bind_run in E as [([] & st4 & [= <-] & E)|(e & E0 & _)]; [|done].
  destruct (removeUploadedSegment (sw_path sw) (set_active (Some sw3) (set_active (Some sw2) (ws_wal s)), w5))
    as [r6 st6] eqn:E6.
  rewrite (try_bind _ _ _ _ _ E6) in E. injection E as <- <-.
  apply removeUploadedSegment_run in E6 as (r7 & w7 & E7 & ->).
  rewrite (ao_path _ _ _ _ _ Hao) in *. destruct Hv as [Hv1 Hv2].
  assert (is_i64 (nextRev sw)) as Hni by (unfold is_i64; lia).
  assert (seg_path dir (sw_term sw) (sw_firstRev sw) ≠
          seg_path dir (wal_term (ws_wal s)) (nextRev sw)) as Hdiff.
  { intros Heq. pose proof (wi_term _ Hinv). apply seg_path_inj in Heq as [_ Heq]; [|done..].
    unfold nextRev in Heq. lia. }
  apply (winv_world _ w7) in Hinv3; [done| |].
  - intros a Ha. destruct (wi_acked _ Hinv3 a Ha) as [Hva Hda].
    apply (durable_remove_uploaded w5 (sw_term sw) (sw_firstRev sw) r7); try done.
    intros c. rewrite Hf5, Hf2 by done. unfold objs. rewrite Ho5. cbn. rewrite Ho2. apply Hstored.
  - intros sw0 Hsw0. injection Hsw0 as <-. right.
    pose proof (wi_active _ Hinv3 sw3 eq_refl) as Hao3.
    rewrite (ao_fpath _ _ _ _ _ Hao3), (ao_path _ _ _ _ _ Hao3), Ht3, Hf3, Hh1.
    apply os_remove_files in E7 as [_ [[-> _]|[-> _]]]; [done|].
    rewrite lookup_delete_ne; [done|]. by rewrite <- (ao_term _ _ _ _ _ Hao) in Hdiff.
Qed.

Lemma winv_rotateSync s s0 up sw es batch count0 r l' w' :
  (* the state after the batch was written, with and without its acknowledgement *)
  winv s → winv s0 → ws_wal s0 = ws_wal s → ws_world s0 = ws_world s →
  upload_law up → wal_active (ws_wal s) = Some sw → 0 < sw_entryCount sw →
  seg_inv (es ++ batch) sw (ws_world s) → Forall wf_entry es → Forall wf_entry batch →
  0 ≤ count0 ≤ sw_entryCount sw →
  (∀ e, (e, here sw) ∈ ws_acked s0 →
     with_sequence e ∈ map with_sequence es ∧ 0 < count0) →
  rotateSyncLocked up (zlen (seg_content (sw_term sw) (sw_firstRev sw) es)) count0
    (ws_wal s, ws_world s) = (r, (l', w')) →
  match r with
  | Ok _ => winv (upd s l' w')
  | Err _ => winv (upd s l' w') ∨ winv (mkWS (ws_acked s0) true l' w')
  end.
Proof.
  intros Hinv Hinv0 Hl0 Hw0 Hlaw Hsw Hc Hsi Hes Hb Hc0 Hkeep Hrun.
  unfold rotateSyncLocked in Hrun.
  apply ST_bind_run in Hrun as [([l1 w1] & st1 & E0 & E)|(e & E0 & _)]; [|done].
  injection E0 as <- <- <-. rewrite Hsw in E.
  rewrite (proj2 (Z.eqb_neq _ _)) in E by lia.
  destruct (up (sw_path sw) (ObjectKey (sw_term sw) (sw_firstRev sw)) (ws_world s))
    as [ru w2] eqn:Eu.
  assert (on_sys (up (sw_path sw) (ObjectKey (sw_term sw) (sw_firstRev sw))) (ws_wal s, ws_world s)
    = (ru, (ws_wal s, w2))) as Eo by by apply on_sys_eq.
  rewrite (try_bind _ _ _ _ _ Eo) in E.
  destruct (winv_upload_only _ _ _ _ _ Hinv Hsw Hlaw Eu) as (Hf2 & Hi2 & Hst).
  destruct ru as [[]|ue].
  - specialize (Hst eq_refl).
    apply (winv_rotate_uploaded (upd s (ws_wal s) w2) sw) in E; try done.
    destruct r; [done|by left].
  - destruct (rollback (zlen (seg_content (sw_term sw) (sw_firstRev sw) es)) count0 (sw, w2))
      as [rr [sw3 w3]] eqn:Er.
    assert (on_active (rollback (zlen (seg_content (sw_term sw) (sw_firstRev sw) es)) count0)
      (ws_wal s, w2) = (rr, (set_active (Some sw3) (ws_wal s), w3))) as Eo2
      by (unfold on_active; by rewrite Hsw, Er).
    rewrite (try_bind _ _ _ _ _ Eo2) in E. injection E as <- <- <-. right.
    rewrite <- Hl0, <- Hw0 in *.
    destruct (winv_upload_only _ _ _ _ _ Hinv0 Hsw Hlaw Eu) as (_ & Hi0 & _).
    assert (seg_inv (es ++ batch) sw w2) as Hsi2 by (eapply seg_inv_ext; [by rewrite Hf2|done]).
    apply (rollback_run es batch) in Er as (Hss & Hcnt & es' & Hes' & Hfile); [|done..].
    assert (∀ e, (e, here sw) ∈ ws_acked s0 →
      with_sequence e ∈ map with_sequence es') as Hkeep'.
    { intros e He. destruct (Hkeep e He). destruct Hes' as [->| ->]; [done|].
      by apply map_with_sequence_app. }
    pose proof (wi_active _ Hinv0 sw Hsw) as Hao.
    destruct (ao_range _ _ _ _ _ Hao) as (Hr1 & Hr2 & Hr3).
    assert (sw_firstRev sw3 = sw_firstRev sw) as Hfr
      by (pose proof (ss_here _ _ _ _ Hss) as [= _ ?]; done).
    apply (winv_active_update (upd s0 (ws_wal s0) w2) sw sw3 w3 es' []); try done.
    + destruct Hes' as [->| ->]; [done|by apply Forall_app].
    + by left.
    + lia.
    + unfold nextRev in *. rewrite Hfr. lia.
    + rewrite (ss_sealed _ _ _ _ Hss), (si_sealed _ _ _ Hsi). done.
    + intros e He. split; [by apply Hkeep'|]. destruct (Hkeep e He). lia.
Qed.

Lemma guard_open_run (l : WAL) w r st :
  guard_open (l, w) = (r, st) →
  st = (l, w) ∧ (r = Ok tt ∧ wal_closed l = false ∨ r = Err errWalClosed ∧ wal_closed l = true).
Proof.
  unfold guard_open, mbind, ST_bind, get_st. destruct (wal_closed l); intros [= <- <-]; auto.
Qed.

Lemma get_active_run (l : WAL) w r st :
  get_active (l, w) = (r, st) → st = (l, w) ∧
  match wal_active l with Some sw => r = Ok sw | None => ∃ e, r = Err e end.
Proof. unfold get_active. destruct (wal_active l); intros [= <- <-]; eauto. Qed.

Lemma winv_maybe_rotate s sw r l' w' :
  winv s → wal_active (ws_wal s) = Some sw → 0 < sw_entryCount sw →
  maybe_rotate uploader (ws_wal s, ws_world s) = (r, (l', w')) →
  r = Ok tt ∧ winv (upd s l' w').
Proof.
  intros Hinv Hsw Hc Hrun. unfold maybe_rotate in Hrun.
  apply ST_bind_run in Hrun as [(sw1 & st1 & E1 & E)|(e & E1 & _)];
    apply get_active_run in E1 as [Est E1]; rewrite Hsw in E1; [|done].
  subst st1. injection E1 as ->.
  apply ST_bind_run in E as [([l1 w1] & st1 & E0 & E)|(e & E0 & _)]; [|done].
  injection E0 as <- <- <-. destruct (_ <=? _).
  - by eapply winv_rotateLocked.
  - unfold mret, ST_ret in E. simplify_eq. split; [done|]. by destruct s.
Qed.

Lemma append_all_closed batch l sw w :
  batch ≠ [] → wal_active l = Some sw → f_open (sw_f sw) = false →
  append_all batch (l, w) = (Err errFileClosed, (l, w)).
Proof.
  intros Hb Hl Hop. destruct batch as [|e batch]; [done|]. cbn [append_all].
  by rewrite (ST_bind_err _ _ _ _ _ (proj1 (append_closed e l sw w Hl Hop))).
Qed.

Lemma winv_AppendBatch s batch r l' w' :
  winv s → ws_fenced s = false → batch ≠ [] → Forall wf_entry batch →
  (∀ sw, wal_active (ws_wal s) = Some sw → nextRev sw + zlen batch < 2 ^ 63) →
  AppendBatch uploader None batch (ws_wal s, ws_world s) = (r, (l', w')) →
  match r with
  | Ok _ => ∃ sw, wal_active (ws_wal s) = Some sw ∧
      winv (mkWS (acks batch (here sw) ++ ws_acked s) false l' w')
  | Err _ => winv (mkWS (ws_acked s) true l' w')
  end.
Proof.
  intros Hinv Hfen Hne Hb Hn Hrun. unfold AppendBatch in Hrun.
  assert (winv (mkWS (ws_acked s) true (ws_wal s) (ws_world s))) as Hfail
    by by apply winv_weaken.
  apply ST_bind_run in Hrun as [([] & st1 & E1 & E)|(e & E1 & ->)];
    apply guard_open_run in E1 as [Est _]; [subst st1|by injection Est as -> ->].
  apply ST_bind_run in E as [(sw & st1 & E1 & E)|(e & E1 & ->)];
    apply get_active_run in E1 as [Est E1]; [subst st1|by injection Est as -> ->].
  destruct (wal_active (ws_wal s)) as [sw'|] eqn:Hsw; [|by destruct E1].
  injection E1 as <-. specialize (Hn sw eq_refl).
  pose proof (wi_active _ Hinv sw Hsw) as Hao.
  destruct (ao_clean _ _ _ _ _ Hao Hfen) as [Hcl|(es & Hes & Hsi)].
  { rewrite (ST_bind_err _ _ _ _ _ (append_all_closed batch _ sw _ Hne Hsw Hcl)) in E.
    by injection E as <- <- <-. }
  apply ST_bind_run in E as [([] & [l1 w1] & E1 & E)|(e & E1 & ->)];
    destruct (winv_append_all _ _ _ _ _ _ _ Hinv Hsw Hsi Hes Hb Hn E1)
      as (sw1 & -> & Hh & Hi1 & Hok); [|done].
  destruct (Hok eq_refl) as (Hsi1 & Hi0 & Hacks). specialize (Hacks Hne).
  rewrite Hfen in Hacks, Hi0.
  apply ST_bind_run in E as [([] & [l2 w2] & E2 & E)|(e & E2 & ->)].
  2: { by eapply (Sync_active (mkWS (ws_acked s) true _ w1) sw1) in E2 as (_ & _ & _ & Hi2). }
  destruct (Sync_active _ sw1 _ _ _ Hacks eq_refl E2) as (-> & Hf2 & Ho2 & Hi2).
  destruct (Sync_active _ sw1 _ _ _ Hi0 eq_refl E2) as (_ & _ & _ & Hi20).
  apply ST_bind_run in E as [([l3 w3] & st3 & E3 & E)|(e & E3 & _)]; [|done].
  injection E3 as <- <- <-.
  assert (0 < sw_entryCount sw1) as Hc1.
  { rewrite (si_count _ _ _ Hsi1), zlen_app. destruct batch; [done|]. rewrite zlen_cons.
    pose proof (zlen_nonneg es). pose proof (zlen_nonneg batch). lia. }
  assert (winv (mkWS (acks batch (here sw) ++ ws_acked s) false l' w') →
          winv (mkWS (ws_acked s) true l' w')) as Hweak.
  { intros Hi. apply (winv_weaken _ (ws_acked s) true) in Hi; [done| |done].
    intros a Ha. apply elem_of_app. by right. }
  destruct (if wal_syncUpload _ then uploader else None) as [up|] eqn:Eup.
  - assert (upload_law up) as Hlaw by (apply Hup; by destruct (wal_syncUpload _)).
    assert (seg_inv (es ++ batch) sw1 w2) as Hsi2 by (eapply seg_inv_ext; [by rewrite Hf2|done]).
    assert (zlen (seg_content (sw_term sw) (sw_firstRev sw) es) = sw_size sw) as Hsz
      by (by rewrite (si_size _ _ _ Hsi)).
    unfold here in Hh. injection Hh as Hh1 Hh2.
    rewrite <- Hsz, <- Hh1, <- Hh2 in E.
    pose proof (winv_rotateSync _ _ up sw1 es batch (sw_entryCount sw) r l' w' Hi2 Hi20
      eq_refl eq_refl Hlaw eq_refl Hc1 Hsi2 Hes Hb) as Hrs.
    destruct r; [exists sw; split; [done|]; apply Hrs; try done|
                 destruct Hrs as [Hrs|Hrs]; [|..|by apply Hweak|done]; try done].
    1, 3: rewrite (si_count _ _ _ Hsi), (si_count _ _ _ Hsi1), zlen_app;
      pose proof (zlen_nonneg es); pose proof (zlen_nonneg batch); lia.
    all: intros e0 He; cbn in He; unfold here in He; rewrite Hh1, Hh2 in He; split;
      [by apply (acked_in_active s sw)|];
      by destruct (ao_acked _ _ _ _ _ Hao _ _ _ He eq_refl) as [_ Hpos]; apply Hpos.
  - destruct (winv_maybe_rotate _ sw1 _ _ _ Hi2 eq_refl Hc1 E) as [-> Hi]. by exists sw.
Qed.

(** [Append] on a clean segment: the frame is complete unless the write failed,
    and the counters advance only when the sync succeeded too. *)
Lemma Append_run es sw w e r sw' w' :
  wf_entry e → seg_inv es sw w → Append e (sw, w) = (r, (sw', w')) →
  same_seg sw sw' w w' ∧ sw_entryCount sw ≤ sw_entryCount sw' ≤ sw_entryCount sw + 1 ∧
  appended es [e] sw' w' ∧ (r = Ok tt → seg_inv (es ++ [e]) sw' w').
Proof.
  intros He Hsi Hrun. pose proof Hsi as [B1 B2 B3 B4 B5 B6 B7].
  unfold Append, on_file, zoom, mbind, ST_bind in Hrun.
  destruct (os_write (entryFrame e) (sw_f sw, w)) as [r1 [f1 w1]] eqn:E1.
  eapply os_write_at_end in E1 as (b1 & b2 & Hb & Hf1 & Hfs & Ho & Hr);
    [|done..|apply entryFrame_nonempty].
  assert (∀ p, p ≠ sw_path sw → w_files w1 !! p = w_files w !! p) as Hother.
  { intros p Hp. rewrite Hfs, lookup_insert_ne; [done|]. by rewrite <- B2. }
  cbv beta iota in Hrun. destruct r1 as [[]|er].
  - subst b2. rewrite app_nil_r in Hb. subst b1. cbn [sw_f set_f] in Hrun.
    destruct (os_sync (f1, w1)) as [r2 [f2 w2]] eqn:E2.
    apply os_sync_files in E2 as (-> & Hf2 & Ho2). rewrite <- Hf2 in Hfs, Hother.
    assert (w_files w2 !! sw_path sw =
      Some (seg_content (sw_term sw) (sw_firstRev sw) (es ++ [e]))) as Hc.
    { by rewrite Hfs, B2, lookup_insert_eq, seg_content_snoc. }
    assert (∀ n c, let sw2 := set_counts n c (set_f f1 sw) in
      same_seg sw sw2 w w2 ∧ appended es [e] sw2 w2) as Hss.
    { intros n c. split; [split; try done; [by rewrite Hf1|by rewrite Ho2]|].
      exists [e], []. rewrite app_nil_r. split_and!; [done|by left|done]. }
    subst f1. destruct r2 as [[]|er]; cbn in Hrun; injection Hrun as <- <- <-.
    + destruct (Hss (sw_size sw + zlen (entryFrame e)) (sw_entryCount sw + 1)) as [S1 S2].
      split_and!; [done|cbn; lia|cbn; lia|done|]. intros _.
      split; cbn; rewrite ?seg_content_snoc; try done.
      * by rewrite <- B2, Hc, seg_content_snoc.
      * by rewrite B4, zlen_app.
      * by rewrite B5, zlen_app.
    + destruct (Hss (sw_size sw) (sw_entryCount sw)) as [S1 S2].
      split_and!; [by destruct S1|cbn; lia|cbn; lia|done|done].
  - injection Hrun as <- <- <-. subst f1. split_and!; [by split|cbn; lia|cbn; lia| |done].
    exists [], b1. cbn. rewrite app_nil_r, Hfs, B2, lookup_insert_eq.
    split_and!; [apply prefix_nil| |done]. right. by exists e, b2.
Qed.

Lemma winv_WalAppend s e r l' w' :
  winv s → ws_fenced s = false → wf_entry e →
  (∀ sw, wal_active (ws_wal s) = Some sw → nextRev sw + 1 < 2 ^ 63) →
  WalAppend uploader e (ws_wal s, ws_world s) = (r, (l', w')) →
  match r with
  | Ok _ => ∃ sw, wal_active (ws_wal s) = Some sw ∧
      winv (mkWS (acks [e] (here sw) ++ ws_acked s) false l' w')
  | Err _ => winv (mkWS (ws_acked s) true l' w')
  end.
Proof.
  intros Hinv Hfen He Hn Hrun. unfold WalAppend in Hrun.
  assert (winv (mkWS (ws_acked s) true (ws_wal s) (ws_world s))) as Hfail
    by by apply winv_weaken.
  apply ST_bind_run in Hrun as [([] & st1 & E1 & E)|(er & E1 & ->)];
    apply guard_open_run in E1 as [Est _]; [subst st1|by injection Est as -> ->].
  destruct (wal_active (ws_wal s)) as [sw|] eqn:Hsw.
  2: { assert (on_active (Append e) (ws_wal s, ws_world s) =
         (Err (ErrText "nil pointer dereference"), (ws_wal s, ws_world s))) as En
         by (unfold on_active; by rewrite Hsw).
       rewrite (ST_bind_err _ _ _ _ _ En) in E. by injection E as <- <- <-. }
  specialize (Hn sw eq_refl). pose proof (wi_active _ Hinv sw Hsw) as Hao.
  destruct (ao_clean _ _ _ _ _ Hao Hfen) as [Hcl|(es & Hes & Hsi)].
  { rewrite (ST_bind_err _ _ _ _ _ (proj2 (append_closed e _ sw _ Hsw Hcl))) in E.
    by injection E as <- <- <-. }
  destruct (Append e (sw, ws_world s)) as [r1 [sw1 w1]] eqn:E1.
  assert (on_active (Append e) (ws_wal s, ws_world s) =
    (r1, (set_active (Some sw1) (ws_wal s), w1))) as Eo by (unfold on_active; by rewrite Hsw, E1).
  destruct (Append_run _ _ _ _ _ _ _ He Hsi E1) as (Hss & Hcnt & Happ & Hok).
  assert (Forall wf_entry [e]) as Hwf by by constructor.
  destruct (winv_appended _ _ _ _ _ _ Hinv Hsw Hsi Hes Hwf Hn Hss Hcnt Happ) as [Hi1 Hs].
  destruct r1 as [[]|er].
  2: { rewrite (ST_bind_err _ _ _ _ _ Eo) in E. by injection E as <- <- <-. }
  rewrite (ST_bind_ok _ _ _ _ _ Eo) in E. specialize (Hok eq_refl).
  destruct (Hs Hok) as [_ Hacks]. rewrite Hfen in Hacks.
  assert (0 < sw_entryCount sw1) as Hc1.
  { rewrite (si_count _ _ _ Hok), zlen_app. pose proof (zlen_nonneg es).
    change (zlen [e]) with 1. lia. }
  destruct (winv_maybe_rotate _ sw1 _ _ _ (Hacks ltac:(done)) eq_refl Hc1 E) as [-> Hi].
  by exists sw.
Qed.

(** ** The step relation

    One step of the log: a method call or a wake-up of a background
    goroutine, with whatever system-call and upload failures occur in it.
    The owner stops appending after a failed append, as the commit loop does. *)
Inductive wstep : wstate → wstate → Prop :=
  | WS_batch s batch r l' w' :
      ws_fenced s = false → batch ≠ [] → Forall wf_entry batch →
      (∀ sw, wal_active (ws_wal s) = Some sw → nextRev sw + zlen batch < 2 ^ 63) →
      AppendBatch uploader None batch (ws_wal s, ws_world s) = (r, (l', w')) →
      wstep s (match r, wal_active (ws_wal s) with
               | Ok _, Some sw => mkWS (acks batch (here sw) ++ ws_acked s) false l' w'
               | _, _ => mkWS (ws_acked s) true l' w'
               end)
  | WS_append s e r l' w' :
      ws_fenced s = false → wf_entry e →
      (∀ sw, wal_active (ws_wal s) = Some sw → nextRev sw + 1 < 2 ^ 63) →
      WalAppend uploader e (ws_wal s, ws_world s) = (r, (l', w')) →
      wstep s (match r, wal_active (ws_wal s) with
               | Ok _, Some sw => mkWS (acks [e] (here sw) ++ ws_acked s) false l' w'
               | _, _ => mkWS (ws_acked s) true l' w'
               end)
  | WS_canceled s batch e : 
      wstep s (let '(_, (l', w')) := AppendBatch uploader (Some e) batch (ws_wal s, ws_world s) in
               upd s l' w')
  | WS_tick s r l' w' :
      rotationTick uploader (ws_wal s, ws_world s) = (r, (l', w')) → wstep s (upd s l' w')
  | WS_upload s c r l' w' :
      uploadStep uploader c (ws_wal s, ws_world s) = (r, (l', w')) → wstep s (upd s l' w')
  | WS_retry s r l' w' :
      retryStep (ws_wal s, ws_world s) = (r, (l', w')) → wstep s (upd s l' w')
  | WS_flush s n r l' w' :
      (∀ sw, wal_active (ws_wal s) = Some sw → sw_firstRev sw < n < 2 ^ 63) →
      SealAndFlush uploader n (ws_wal s, ws_world s) = (r, (l', w')) → wstep s (upd s l' w')
  | WS_close s r l' w' :
      WalClose uploader (ws_wal s, ws_world s) = (r, (l', w')) → wstep s (upd s l' w').

Lemma winv_step s s' : winv s → wstep s s' → winv s'.
Proof.
  intros Hinv Hstep. destruct Hstep as [s batch r l' w' ? ? ? ? E|s e r l' w' ? ? ? E
    |s batch e|s r l' w' E|s c r l' w' E|s r l' w' E|s n r l' w' ? E|s r l' w' E].
  - eapply winv_AppendBatch in E; [|done..]. destruct r; [|done].
    by destruct E as (sw & -> & Hi).
  - eapply winv_WalAppend in E; [|done..]. destruct r; [|done].
    by destruct E as (sw & -> & Hi).
  - by destruct s.
  - by eapply winv_rotationTick.
  - by eapply winv_uploadStep.
  - by eapply winv_retryStep.
  - by eapply winv_SealAndFlush.
  - by eapply winv_WalClose.
Qed.

(** A WAL just opened over a world in which some entries, of earlier segments,
    are recoverable. *)
Definition wal_init (s : wstate) : Prop :=
  ∃ l0 w0 term startRev,
    is_u64 term ∧ 0 ≤ startRev < 2 ^ 63 ∧ wal_active l0 = None ∧ wal_retry l0 = [] ∧
    Open dir term startRev (l0, w0) = (Ok tt, (ws_wal s, ws_world s)) ∧
    ws_fenced s = false ∧
    ∀ e t r, (e, (t, r)) ∈ ws_acked s →
      valid_loc (t, r) ∧ durable w0 (e, (t, r)) ∧ (t = term → r < startRev).

Lemma winv_init s : wal_init s → winv s.
Proof.
  intros (l0 & w0 & term & startRev & Ht & Hsr & Hno & Hretry & Hrun & Hfen & Hack).
  unfold Open in Hrun.
  apply ST_bind_inv in Hrun as ([] & st1 & E1 & Hrun).
  apply on_sys_run in E1 as (w1 & E1 & ->). apply syscall_files in E1 as [Hf1 Ho1].
  apply ST_bind_inv in Hrun as ([] & st2 & [= <-] & Hrun).
  apply ST_bind_inv in Hrun as (sw & st3 & E3 & Hrun).
  apply on_sys_run in E3 as (w3 & E3 & ->). injection Hrun as Hl Hw.
  pose proof (OpenSegmentWriter_frame _ _ _ _ _ E3) as [Ho3 Hf3].
  apply OpenSegmentWriter_ok in E3 as (Hsi & Hte & Hfi & Hpa & _ & _).
  destruct s as [acked fenced l w]. cbn in *. subst l w.
  pose proof Hsi as [B1 B2 B3 B4 B5 B6 B7].
  split; cbn; try done.
  - intros [e [t r]] Hin. destruct (Hack _ _ _ Hin) as (Hv & Hd & Hlt). split; [done|].
    eapply (durable_other_file w0); [|unfold objs; by rewrite Ho3, Ho1| |done].
    + intros q Hq. rewrite Hf3 by done. by rewrite Hf1.
    + intros Heq. destruct Hv as [Hv1 Hv2]. apply seg_path_inj in Heq as [<- <-]; try done.
      * specialize (Hlt eq_refl). lia.
      * unfold is_i64. lia.
  - intros sw0 [= <-]. split; cbn; try done.
    + by rewrite Hpa, Hte, Hfi.
    + unfold nextRev. rewrite Hfi, B5. change (zlen (@nil Entry)) with 0. lia.
    + intros e t r Hin Ht'. rewrite Hte in Ht'. destruct (Hack _ _ _ Hin) as (_ & _ & Hlt).
      specialize (Hlt Ht'). rewrite Hfi. lia.
    + by rewrite B7.
    + intros _. right. by exists [].
  - rewrite Hretry. by intros k Hk%not_elem_of_nil.
Qed.

End Durable.

(** ** Acknowledged entries are recoverable *)


(** A run with the in-memory object store: a batch, an age rotation, the
    upload of the sealed segment (after which the local file is gone) and a
    second batch. *)
Section Sample.
Let up := Some (makeUploader (S := Mem)).
Let dir := str "data/wal".

Definition sample_open : wstate (S := Mem) :=
  let '(_, (l, w)) := Open dir 2 9 (New 1000000 false, mkWorld ∅ ∅ []) in
  mkWS [] false l w.

Definition run_batch (s : wstate (S := Mem)) (batch : list Entry) : wstate (S := Mem) :=
  let '(r, (l, w)) := AppendBatch up None batch (ws_wal s, ws_world s) in
  match r, wal_active (ws_wal s) with
  | Ok _, Some sw => mkWS (acks batch (here sw) ++ ws_acked s) false l w
  | _, _ => mkWS (ws_acked s) true l w
  end.
Definition run_tick (s : wstate (S := Mem)) : wstate (S := Mem) :=
  let '(_, (l, w)) := rotationTick up (ws_wal s, ws_world s) in upd s l w.
Definition run_upload (s : wstate (S := Mem)) : wstate (S := Mem) :=
  let '(_, (l, w)) := uploadStep up false (ws_wal s, ws_world s) in upd s l w.

Definition sample_run : wstate (S := Mem) :=
  run_batch (run_upload (run_tick (run_batch sample_open sample_es)))
    [mkEntry 12 9 2 OpCreate (str "k") (str "v") 0 9 0 1].

Lemma run_batch_step s batch :
  ws_fenced s = false → batch ≠ [] → Forall wf_entry batch →
  (∀ sw, wal_active (ws_wal s) = Some sw → nextRev sw + zlen batch < 2 ^ 63) →
  wstep up s (run_batch s batch).
Proof.
  intros. unfold run_batch. destruct (AppendBatch _ _ _ _) as [r [l w]] eqn:E.
  by eapply WS_batch.
Qed.

Lemma run_tick_step s : wstep up s (run_tick s).
Proof.
  unfold run_tick. destruct (rotationTick up _) as [r [l w]] eqn:E. by eapply WS_tick.
Qed.

Lemma run_upload_step s : wstep up s (run_upload s).
Proof.
  unfold run_upload. destruct (uploadStep up _ _) as [r [l w]] eqn:E. by eapply WS_upload.
Qed.


End Sample.
