(* ===== verification/WalSync.v ===== *)
(** * Synchronous uploads

    [AppendBatch] of a WAL opened with [WithSyncUpload] (internal/wal/wal.go):
    when the upload of the batch fails and the file system works, the batch is
    rolled back and the log is as it was before the call. *)

From S2P Require Import Prelude Bytes WalEntry Os WalSegment Object Wal WalDurable.

Section Sync.
Context {S : Type}.
Implicit Types (w : world S) (sw : SegmentWriter).

Lemma next_fault_nil w : w_faults w = [] → next_fault w = (None, w).
Proof. intros H. unfold next_fault. by rewrite H. Qed.

(** Without faults an append to a clean segment succeeds. *)
Lemma AppendNoSync_nofault es sw w e :
  seg_inv es sw w → w_faults w = [] →
  ∃ sw' w', AppendNoSync e (sw, w) = (Ok tt, (sw', w')) ∧ w_faults w' = [].
Proof.
  intros [B1 B2 B3 B4 B5 B6 B7] Hf.
  unfold AppendNoSync, on_file, zoom, mbind, ST_bind, os_write.
  rewrite B6, next_fault_nil by done. cbn. rewrite B1. eexists _, _. split; [done|]. done.
Qed.

Lemma append_all_nofault batch : ∀ es l sw w,
  wal_active l = Some sw → seg_inv es sw w → w_faults w = [] →
  ∃ l' w', append_all batch (l, w) = (Ok tt, (l', w')) ∧ w_faults w' = [].
Proof.
  induction batch as [|e batch IH]; intros es l sw w Hl Hsi Hf; [by eexists _, _|].
  destruct (AppendNoSync_nofault _ _ _ e Hsi Hf) as (sw1 & w1 & E & Hf1).
  pose proof (AppendNoSync_spec _ _ _ _ _ _ _ Hsi E) as (_ & _ & _ & _ & _ & _ & _ & _ & Hsi1).
  assert (on_active (AppendNoSync e) (l, w) = (Ok tt, (set_active (Some sw1) l, w1))) as Eo
    by (unfold on_active; by rewrite Hl, E).
  destruct (IH (es ++ [e]) (set_active (Some sw1) l) sw1 w1) as (l' & w' & Ea & Hf'); [done..|].
  exists l', w'. split; [|done]. cbn [append_all]. by rewrite (ST_bind_ok _ _ _ _ _ Eo).
Qed.

Lemma rollback_nofault size count sw w :
  f_open (sw_f sw) = true → w_faults w = [] →
  ∃ sw' w', rollback size count (sw, w) = (Ok tt, (sw', w')).
Proof.
  intros Ho Hf. unfold rollback, on_file, zoom, mbind, ST_bind, os_truncate.
  rewrite Ho. cbn [negb]. rewrite syscall_nofault by done.
  destruct (w_files w !! f_path (sw_f sw)); cbn;
    repeat (rewrite ?Ho; cbn; rewrite ?syscall_nofault by done; cbn); eauto.
Qed.

(** The path of a synchronous batch that is written, not uploaded, and rolled
    back. *)
Lemma AppendBatch_upload_fails up l w sw batch ue sw1 w1 w2 sw3 w3 :
  wal_closed l = false → wal_syncUpload l = true → wal_active l = Some sw →
  append_all batch (l, w) = (Ok tt, (set_active (Some sw1) l, w1)) →
  on_active Sync (set_active (Some sw1) l, w1) = (Ok tt, (set_active (Some sw1) l, w1)) →
  up (sw_path sw1) (ObjectKey (sw_term sw1) (sw_firstRev sw1)) w1 = (Err ue, w2) →
  rollback (sw_size sw) (sw_entryCount sw) (sw1, w2) = (Ok tt, (sw3, w3)) →
  sw_entryCount sw1 ≠ 0 →
  AppendBatch (Some up) None batch (l, w) = (Err ue, (set_active (Some sw3) l, w3)).
Proof.
  intros Hcl Hsync Hact E1 E2 E3 E4 Hc. unfold AppendBatch.
  rewrite (ST_bind_ok guard_open _ _ tt (l, w)) by (unfold guard_open, mbind, ST_bind, get_st; by rewrite Hcl).
  rewrite (ST_bind_ok get_active _ _ sw (l, w)) by (unfold get_active; by rewrite Hact).
  rewrite (ST_bind_ok _ _ _ _ _ E1), (ST_bind_ok _ _ _ _ _ E2).
  rewrite (ST_bind_ok get_st _ _ (set_active (Some sw1) l, w1) (set_active (Some sw1) l, w1)) by done.
  cbn [wal_syncUpload set_active]. rewrite Hsync. unfold rotateSyncLocked.
  rewrite (ST_bind_ok get_st _ _ (set_active (Some sw1) l, w1) (set_active (Some sw1) l, w1)) by done.
  cbn [wal_active set_active]. rewrite (proj2 (Z.eqb_neq _ _)) by done.
  rewrite (try_bind _ _ _ _ _ (on_sys_eq _ _ _ _ _ E3)). cbv iota beta.
  assert (on_active (rollback (sw_size sw) (sw_entryCount sw)) (set_active (Some sw1) l, w2) =
    (Ok tt, (set_active (Some sw3) l, w3))) as E5 by (unfold on_active; cbn; by rewrite E4).
  by rewrite (try_bind _ _ _ _ _ E5).
Qed.

(** With synchronous uploads, a batch whose upload fails is not
    acknowledged and leaves no trace: the call returns the upload's error, the
    local files are byte for byte those before the call, and the active
    segment has its previous entries, size, count and file position, so a
    later replay cannot expose the batch. *)
Theorem sync_upload_failure_rolls_back up l w sw es batch ue :
  wal_closed l = false → wal_syncUpload l = true → wal_active l = Some sw →
  seg_inv es sw w → w_faults w = [] → batch ≠ [] → Forall wf_entry batch →
  (∀ p k w1, w_faults w1 = [] →
     ∃ w2, up p k w1 = (Err ue, w2) ∧ w_files w2 = w_files w1 ∧ w_faults w2 = []) →
  ∃ sw' w', AppendBatch (Some up) None batch (l, w) = (Err ue, (set_active (Some sw') l, w')) ∧
    w_files w' = w_files w ∧ seg_inv es sw' w' ∧
    sw_size sw' = sw_size sw ∧ sw_entryCount sw' = sw_entryCount sw.
Proof.
  intros Hcl Hsync Hact Hsi Hnf Hne Hwf Hup.
  destruct (append_all_nofault batch _ _ _ _ Hact Hsi Hnf) as (l1 & w1 & E1 & Hnf1).
  destruct (append_all_run _ _ _ _ _ _ _ _ Hwf Hact Hsi E1)
    as (sw1 & -> & Hss1 & _ & _ & Hsi1). specialize (Hsi1 eq_refl).
  assert (on_active Sync (set_active (Some sw1) l, w1) = (Ok tt, (set_active (Some sw1) l, w1))) as E2.
  { unfold on_active, Sync, on_file, zoom, os_sync. cbn. rewrite (si_open _ _ _ Hsi1). cbn.
    rewrite syscall_nofault by done. by rewrite set_f_id. }
  destruct (Hup (sw_path sw1) (ObjectKey (sw_term sw1) (sw_firstRev sw1)) w1 Hnf1)
    as (w2 & E3 & Hf2 & Hnf2).
  destruct (rollback_nofault (sw_size sw) (sw_entryCount sw) sw1 w2 (si_open _ _ _ Hsi1) Hnf2)
    as (sw3 & w3 & E4).
  pose proof (ss_here _ _ _ _ Hss1) as [= Ht Hfr].
  assert (seg_inv es sw3 w3 ∧ sw_term sw3 = sw_term sw1 ∧ sw_firstRev sw3 = sw_firstRev sw1 ∧
    f_path (sw_f sw3) = f_path (sw_f sw1) ∧ w_obj w3 = w_obj w2 ∧
    (∀ p, p ≠ f_path (sw_f sw1) → w_files w3 !! p = w_files w2 !! p))
    as (Hsi3 & Ht3 & Hfr3 & Hp3 & _ & Hoth).
  { rewrite (si_size _ _ _ Hsi), (si_count _ _ _ Hsi), <- Ht, <- Hfr in E4.
    eapply (rollback_spec es sw1 w2 sw3 w3 (concat (map entryFrame batch))); [..|done].
    - rewrite Hf2, (si_file _ _ _ Hsi1). unfold seg_content.
      by rewrite map_app, concat_app, app_assoc.
    - apply (si_path _ _ _ Hsi1).
    - apply (si_open _ _ _ Hsi1).
    - apply (si_sealed _ _ _ Hsi1). }
  exists sw3, w3. split_and!.
  - eapply AppendBatch_upload_fails; [done..|]. rewrite (si_count _ _ _ Hsi1), zlen_app.
    destruct batch; [done|]. rewrite zlen_cons. pose proof (zlen_nonneg es). pose proof (zlen_nonneg batch). lia.
  - apply map_eq. intros p. destruct (decide (p = f_path (sw_f sw1))) as [->|Hp].
    + rewrite <- Hp3 at 1. rewrite (si_file _ _ _ Hsi3), Ht3, Hfr3, Ht, Hfr.
      by rewrite (ss_fpath _ _ _ _ Hss1), (si_file _ _ _ Hsi).
    + rewrite Hoth, Hf2 by done. apply (ss_other _ _ _ _ Hss1).
      by rewrite (si_path _ _ _ Hsi), <- (ss_fpath _ _ _ _ Hss1).
  - done.
  - by rewrite (si_size _ _ _ Hsi3), (si_size _ _ _ Hsi), Ht3, Hfr3, Ht, Hfr.
  - by rewrite (si_count _ _ _ Hsi3), (si_count _ _ _ Hsi).
Qed.

End Sync.

(** The WAL of [sample_sw] with synchronous uploads to a store that is down. *)
Definition sample_wal : WAL :=
  mkWAL (str "wal") 2 1000000 true (Some sample_sw) false [] [].
Definition failing_upload (p k : bytes) : ST (world ()) () := throw (ErrText "503").

Lemma sync_upload_failure_rolls_back_witness :
  ∃ sw' w', AppendBatch (Some failing_upload) None [sample_entry] (sample_wal, sample_world) =
      (Err (ErrText "503"), (set_active (Some sw') sample_wal, w')) ∧
    w_files w' = w_files sample_world ∧ seg_inv sample_es sw' w' ∧
    sw_size sw' = sw_size sample_sw ∧ sw_entryCount sw' = 3.
Proof.
  apply (sync_upload_failure_rolls_back failing_upload sample_wal sample_world sample_sw
           sample_es [sample_entry] (ErrText "503")); try (done || apply sample_seg_inv).
  - repeat constructor; vm_compute; congruence.
  - intros p k w1 Hnf. by exists w1.
Defined.
