(* ===== verification/WalRecovery.v ===== *)
(** * Recovery from local segments, and garbage collection of uploaded ones

    [MaxSequence] and [ReplayLocal] of internal/wal/wal.go on a working file
    system, and [GCSegments] of internal/wal/gc.go against any object store. *)

From S2P Require Import Prelude Bytes Decimal WalEntry Os WalSegment Object Wal.

(** ** Garbage collection (internal/wal/gc.go) *)

(** [strings.Split(s, "/")]. *)
Fixpoint split_slash (s cur : bytes) : list bytes :=
  match s with
  | [] => [cur]
  | b :: s' =>
      if bool_decide (b = x2f) then cur :: split_slash s' [] else split_slash s' (cur ++ [b])
  end.

Definition parseFirstRev (key : bytes) : Z :=
  match split_slash key [] with
  | _ :: _ :: p :: _ => (ParseInt (trim_zeros p)).1
  | _ => 0
  end.

(** The keys [i] with [firstRevs[i+1]-1 <= checkpointSeq]. *)
Fixpoint gc_select (keys : list bytes) (checkpointSeq : Z) : list bytes :=
  match keys with
  | k :: (k' :: _) as rest =>
      if i64 (parseFirstRev k' - 1) <=? checkpointSeq
      then k :: gc_select rest checkpointSeq else gc_select rest checkpointSeq
  | _ => []
  end.

Definition GCSegments {S : Type} `{ObjectStore S} (checkpointSeq : Z) : ST S Z :=
  keys ← obj_List (str "wal/");
  if (length keys <? 2)%nat then mret 0 else
  let toDelete := gc_select keys checkpointSeq in
  match toDelete with
  | [] => mret 0
  | _ =>
      r ← try (obj_DeleteMany toDelete);
      match r with
      | Err _ => mret 0
      | Ok _ => mret (zlen toDelete)
      end
  end.

(** ** Parsing object keys *)

Lemma split_slash_plain a cur b :
  Forall (λ x, x ≠ x2f) a → split_slash (a ++ x2f :: b) cur = (cur ++ a) :: split_slash b [].
Proof.
  intros Ha. revert cur. induction Ha as [|x a Hx Ha IH]; intros cur; cbn.
  - by rewrite app_nil_r.
  - rewrite bool_decide_eq_false_2 by done. rewrite IH. by rewrite <- app_assoc.
Qed.

Lemma split_slash_end a cur :
  Forall (λ x, x ≠ x2f) a → split_slash a cur = [cur ++ a].
Proof.
  intros Ha. revert cur. induction Ha as [|x a Hx Ha IH]; intros cur; cbn.
  - by rewrite app_nil_r.
  - rewrite bool_decide_eq_false_2 by done. rewrite IH. by rewrite <- app_assoc.
Qed.

Lemma digits_no_slash n z : Forall (λ x, x ≠ x2f) (digits n z).
Proof. eapply Forall_impl; [apply digits_all|]. by intros b Hb ->. Qed.

(** The first sequence is read back from the key of a segment. *)
Lemma parseFirstRev_ObjectKey t r :
  is_u64 t → 0 ≤ r < 2 ^ 63 → parseFirstRev (ObjectKey t r) = r.
Proof.
  intros Ht Hr. unfold parseFirstRev, ObjectKey, is_u64 in *.
  assert (fmt_pad 10 t = pad0 10 (dec t)) as ->
    by (unfold fmt_pad; by rewrite (proj2 (Z.ltb_ge t 0)) by lia).
  rewrite (fmt_pad_digits 20) by (cbn; lia).
  destruct (pad0_dec_digits 10 t) as (n & _ & _ & ->); [unfold max_uint64; lia|].
  change (str "wal/" ++ ?x) with (str "wal" ++ x2f :: x).
  rewrite split_slash_plain by (repeat constructor; done).
  change (str "/" ++ ?x) with (x2f :: x). rewrite split_slash_plain by apply digits_no_slash.
  rewrite split_slash_end by apply digits_no_slash.
  cbn [app]. apply ParseInt_trim_digits; cbn; lia.
Qed.

(** ** What is deleted *)

Lemma gc_select_spec keys cp k :
  k ∈ gc_select keys cp →
  ∃ i k', keys !! i = Some k ∧ keys !! S i = Some k' ∧ i64 (parseFirstRev k' - 1) ≤ cp.
Proof.
  induction keys as [|k0 keys IH]; [by intros ?%not_elem_of_nil|].
  destruct keys as [|k1 keys]; [by intros ?%not_elem_of_nil|].
  cbn [gc_select]. fold (gc_select (k1 :: keys) cp).
  assert (k ∈ gc_select (k1 :: keys) cp →
    ∃ i k', (k0 :: k1 :: keys) !! i = Some k ∧ (k0 :: k1 :: keys) !! S i = Some k' ∧
      i64 (parseFirstRev k' - 1) ≤ cp) as Hrest.
  { intros (i & k' & H1 & H2 & H3)%IH. by exists (S i), k'. }
  destruct (Z.leb_spec (i64 (parseFirstRev k1 - 1)) cp) as [Hle|]; [|done].
  intros [->|Hin]%elem_of_cons; [|by apply Hrest]. by exists 0%nat, k1.
Qed.

(** The entries the recovery code reads from an object. *)
Definition obj_entries (c : bytes) : list Entry :=
  match newSegmentReader (mkReader c ErrEOF) with
  | Ok sr => (ReadAll sr).1
  | Err _ => []
  end.

(** ** Reading local segments on a working file system *)

Section Local.
Context {S : Type}.
Implicit Types (w : world S).

(** The paths [LocalSegments] returns. *)
Definition local_paths (dir : bytes) (m : gmap bytes bytes) : list bytes :=
  sort_bytes (filter (λ p, has_suffix (str ".wal") p = true)
    (sort_bytes (filter (λ p, in_dir dir p = true) (map fst (map_to_list m))))).

Lemma LocalSegments_nofault dir w :
  w_faults w = [] → LocalSegments dir w = (Ok (local_paths dir (w_files w)), w).
Proof.
  intros Hf. unfold LocalSegments, os_readdir, mbind, ST_bind.
  by rewrite syscall_nofault by done.
Qed.

Lemma elem_of_local_paths dir m p :
  p ∈ local_paths dir m ↔
  in_dir dir p = true ∧ has_suffix (str ".wal") p = true ∧ is_Some (m !! p).
Proof.
  unfold local_paths. rewrite sort_bytes_perm, list_elem_of_filter, sort_bytes_perm,
    list_elem_of_filter, list_elem_of_In, in_map_iff.
  assert ((∃ x, x.1 = p ∧ In x (map_to_list m)) ↔ is_Some (m !! p)) as ->; [|tauto].
  split.
  - intros ([q c] & <- & Hx). apply list_elem_of_In, elem_of_map_to_list in Hx. eauto.
  - intros [c Hc]. exists (p, c). split; [done|]. by apply list_elem_of_In, elem_of_map_to_list.
Qed.

(** What reading one segment file yields. *)
Definition read_content (c : bytes) : result (list Entry * option err) :=
  sr ← newSegmentReader (mkReader c ErrEOF); Ok (ReadAll sr).

Lemma readSegment_nofault w p c :
  w_faults w = [] → w_files w !! p = Some c → readSegment p w = (read_content c, w).
Proof.
  intros Hf Hc. unfold readSegment, OpenSegmentFile, os_open_read, mbind, ST_bind.
  rewrite Hc, syscall_nofault by done. unfold next_fault. rewrite Hf.
  unfold from_result, read_content. by destruct (newSegmentReader _).
Qed.

Lemma max_seq_ge m es : m ≤ max_seq m es ∧ ∀ e, e ∈ es → Sequence e ≤ max_seq m es.
Proof.
  unfold max_seq. revert m. induction es as [|e es IH]; intros m; cbn [fold_left].
  - split; [done|]. by intros e ?%not_elem_of_nil.
  - destruct (IH (if m <? Sequence e then Sequence e else m)) as [H1 H2].
    destruct (Z.ltb_spec m (Sequence e)); split; try lia;
      intros e' [->|He]%elem_of_cons; auto; lia.
Qed.

Lemma maxSequence_loop_ge paths : ∀ acc w,
  w_faults w = [] → (∀ p, p ∈ paths → is_Some (w_files w !! p)) →
  (maxSequence_loop paths acc w).2 = w ∧ acc.1 ≤ (maxSequence_loop paths acc w).1.1 ∧
  ∀ p c es er e, p ∈ paths → w_files w !! p = Some c → read_content c = Ok (es, er) → e ∈ es →
    Sequence e ≤ (maxSequence_loop paths acc w).1.1.
Proof.
  induction paths as [|p paths IH]; intros acc w Hf Hp.
  - split_and!; [done|done|]. by intros ? ? ? ? ? ?%not_elem_of_nil.
  - cbn [maxSequence_loop]. destruct (Hp p) as [c Hc]; [by left|].
    rewrite (readSegment_nofault _ _ _ Hf Hc).
    assert (∀ q, q ∈ paths → is_Some (w_files w !! q)) as Hp' by (intros; apply Hp; by right).
    destruct (read_content c) as [[es er]|er0] eqn:Er.
    + destruct (IH (max_seq acc.1 es, first_err acc.2 er) w Hf Hp') as (H1 & H2 & H3).
      destruct (max_seq_ge acc.1 es) as [M1 M2]. cbn in H2.
      split_and!; [done|lia|]. intros q c' es' er' e [->|Hq]%elem_of_cons Hc' Hr He.
      * simplify_eq. rewrite Er in Hr. injection Hr as -> ->. specialize (M2 e He). lia.
      * by eapply H3.
    + destruct (IH (acc.1, first_err acc.2 (Some er0)) w Hf Hp') as (H1 & H2 & H3).
      split_and!; [done|done|]. intros q c' es' er' e [->|Hq]%elem_of_cons Hc' Hr He.
      * simplify_eq. by rewrite Er in Hr.
      * by eapply H3.
Qed.

(** [MaxSequence] is an upper bound of every sequence readable from the
    local segments, also when other segments are corrupt or have no header:
    a writer opened at [MaxSequence+1] cannot reuse a sequence that is already
    in the log. *)
Theorem max_sequence_bound dir w p c es er e :
  w_faults w = [] → in_dir dir p = true → has_suffix (str ".wal") p = true →
  w_files w !! p = Some c → read_content c = Ok (es, er) → e ∈ es →
  Sequence e ≤ (MaxSequence dir w).1.1.
Proof.
  intros Hf Hd Hs Hc Hr He. unfold MaxSequence. rewrite LocalSegments_nofault by done.
  assert (∀ q, q ∈ local_paths dir (w_files w) → is_Some (w_files w !! q)) as Hall.
  { by intros q (_ & _ & ?)%elem_of_local_paths. }
  destruct (maxSequence_loop_ge _ (0, None) w Hf Hall) as (_ & _ & H3).
  eapply H3; [|done..]. apply elem_of_local_paths. eauto.
Qed.

(** ** Replay *)

Context {D : Type} (recov : list Entry → D → D).

(** A store whose [Recover] succeeds. *)
Definition recover_ok (es : list Entry) : ST D () := modify (recov es).

Definition replayed (afterSeq : Z) (d : D) (c : bytes) : D :=
  match filter (λ e, afterSeq < Sequence e) (obj_entries c) with
  | [] => d
  | es => recov es d
  end.

Lemma replay_paths_nofault paths afterSeq : ∀ w d,
  w_faults w = [] →
  (∀ p, p ∈ paths → ∃ c, w_files w !! p = Some c ∧ is_ok (read_content c) = true) →
  replay_paths recover_ok paths afterSeq (w, d) =
  (Ok tt, (w, fold_left (λ d p, replayed afterSeq d (default [] (w_files w !! p))) paths d)).
Proof.
  induction paths as [|p paths IH]; intros w d Hf Hp; [done|].
  destruct (Hp p) as (c & Hc & Hok); [by left|]. cbn [replay_paths fold_left]. rewrite Hc. cbn [default from_option id].
  destruct (read_content c) as [[es er]|] eqn:Er; [|done].
  assert (on_world (readSegment p) (w, d) = (Ok (es, er), (w, d))) as E1.
  { unfold on_world, zoom. cbn. by rewrite (readSegment_nofault _ _ _ Hf Hc), Er. }
  rewrite (ST_bind_ok _ _ _ _ _ E1). cbn [fst].
  assert (obj_entries c = es) as <-.
  { unfold read_content, obj_entries in *. destruct (newSegmentReader _); [|done].
    simp_res. injection Er as Er. by rewrite Er. }
  unfold replayed at 2.
  rewrite (ST_bind_ok _ _ _ tt (w, replayed afterSeq d c)).
  - rewrite IH; [done..|]. intros q Hq. apply Hp. by right.
  - unfold replayed. by destruct (filter _ (obj_entries c)).
Qed.

(** [ReplayLocal] hands the store, segment by segment in the order of
    their names, exactly the readable entries with a sequence above
    [afterSeq], in log order, and nothing else. *)
Theorem replay_local_complete dir afterSeq w d :
  w_faults w = [] →
  (∀ p c, w_files w !! p = Some c → in_dir dir p = true → has_suffix (str ".wal") p = true →
     is_ok (read_content c) = true) →
  ReplayLocal recover_ok dir afterSeq (w, d) =
  (Ok tt, (w, fold_left (λ d p, replayed afterSeq d (default [] (w_files w !! p)))
                (local_paths dir (w_files w)) d)).
Proof.
  intros Hf Hok. unfold ReplayLocal.
  assert (on_world (LocalSegments dir) (w, d) = (Ok (local_paths dir (w_files w)), (w, d))) as E1.
  { unfold on_world, zoom. cbn. by rewrite LocalSegments_nofault. }
  rewrite (ST_bind_ok _ _ _ _ _ E1). apply replay_paths_nofault; [done|].
  intros p (Hd & Hs & [c Hc])%elem_of_local_paths. exists c. eauto.
Qed.

(** A segment file whose header is incomplete, which a crash right after
    the file was created leaves behind, is not skipped: [ReplayLocal] returns
    an error, so a node that finds such a file refuses to start. *)
Theorem replay_torn_header_fails dir afterSeq w d p c :
  w_faults w = [] → in_dir dir p = true → has_suffix (str ".wal") p = true →
  w_files w !! p = Some c → (length c < 20)%nat →
  ∃ e st, ReplayLocal recover_ok dir afterSeq (w, d) = (Err e, st).
Proof.
  intros Hf Hd Hs Hc Hlen. unfold ReplayLocal.
  assert (on_world (LocalSegments dir) (w, d) = (Ok (local_paths dir (w_files w)), (w, d))) as E1.
  { unfold on_world, zoom. cbn. by rewrite LocalSegments_nofault. }
  rewrite (ST_bind_ok _ _ _ _ _ E1).
  assert (p ∈ local_paths dir (w_files w)) as Hin by (apply elem_of_local_paths; eauto).
  assert (∀ q, q ∈ local_paths dir (w_files w) → is_Some (w_files w !! q)) as Hall.
  { by intros q (_ & _ & ?)%elem_of_local_paths. }
  clear E1. revert d. induction (local_paths dir (w_files w)) as [|q paths IH]; intros d.
  { by apply not_elem_of_nil in Hin. }
  cbn [replay_paths]. destruct (Hall q) as [c' Hc']; [by left|].
  destruct (read_content c') as [[es er]|er] eqn:Er.
  2: { eexists _, _. rewrite (ST_bind_err _ _ _ er (w, d)); [done|].
       unfold on_world, zoom. cbn. by rewrite (readSegment_nofault _ _ _ Hf Hc'), Er. }
  rewrite (ST_bind_ok _ _ _ (es, er) (w, d)) by
    (unfold on_world, zoom; cbn; by rewrite (readSegment_nofault _ _ _ Hf Hc'), Er).
  apply elem_of_cons in Hin as [<-|Hin].
  { exfalso. simplify_eq. unfold read_content, newSegmentReader in Er.
    destruct (read_full_short segHeaderLen c ErrEOF) as (e' & E' & _); [done|].
    by rewrite E' in Er. }
  cbn [fst]. destruct (filter _ es) as [|e0 es0].
  - apply (IH Hin). intros q' Hq'. apply Hall. by right.
  - apply (IH Hin). intros q' Hq'. apply Hall. by right.
Qed.

End Local.

(** The segment of [sample_world], and beside it a file without a header. *)
Definition torn_path : bytes := path_join (str "wal") (SegmentName 3 12).
Definition torn_world : world () :=
  mkWorld (<[torn_path := take 7 segMagic]> (w_files sample_world)) tt [].
Definition collect (es d : list Entry) : list Entry := d ++ es.

Lemma max_sequence_bound_witness :
  Sequence (mkEntry 11 8 2 OpCompact [] [] 0 0 5 0) ≤ (MaxSequence (str "wal") torn_world).1.1 ∧
  (MaxSequence (str "wal") torn_world).1 = (11, Some ErrUnexpectedEOF).
Proof.
  split; [|by vm_compute].
  apply (max_sequence_bound (str "wal") torn_world sample_path (seg_content 2 9 sample_es)
           (map with_sequence sample_es) None); try by vm_compute.
  apply list_elem_of_lookup. exists 2%nat. by vm_compute.
Defined.

Lemma replay_local_complete_witness :
  ReplayLocal (recover_ok collect) (str "wal") 9 (sample_world, []) =
  (Ok tt, (sample_world, drop 1 (map with_sequence sample_es))).
Proof.
  rewrite (replay_local_complete collect (str "wal") 9 sample_world []).
  - by vm_compute.
  - done.
  - intros p c Hc _ _. unfold sample_world, w_files in Hc.
    apply lookup_singleton_Some in Hc as [<- <-]. by vm_compute.
Defined.

Lemma replay_torn_header_fails_witness :
  ∃ e st, ReplayLocal (recover_ok collect) (str "wal") 9 (torn_world, []) = (Err e, st).
Proof.
  apply (replay_torn_header_fails collect (str "wal") 9 torn_world [] torn_path (take 7 segMagic));
    try by vm_compute.
  apply (bool_decide_unpack _). by vm_compute.
Defined.
