(* ===== verification/Pebble.v ===== *)
(** * The Pebble interface

    The store keeps its data in Pebble, a third-party ordered key-value
    database.  The part of it the store uses is the class [Pebble]: point
    lookups, bounded iterators and atomic batches.  [PebbleOk] states what
    Pebble documents about them against an abstract map from keys to values;
    every call may also fail.  [mem_pebble] is a concrete instance, used to
    evaluate the model on examples. *)

From S2P Require Import Prelude Bytes Os.

(** ** Batches *)

Inductive bop := BSet (k v : bytes) | BDel (k : bytes).
Definition batch : Type := list bop.

Definition apply_bop (m : gmap bytes bytes) (o : bop) : gmap bytes bytes :=
  match o with BSet k v => <[k := v]> m | BDel k => delete k m end.
Definition apply_batch (b : batch) (m : gmap bytes bytes) : gmap bytes bytes :=
  fold_left apply_bop b m.

(** ** Ranges *)

Definition kv_lt (x y : bytes * bytes) : Prop := bytes_lt x.1 y.1.
Definition kv_le (x y : bytes * bytes) : Prop := bytes_le x.1 y.1.
#[global] Instance kv_le_dec : RelDecision kv_le.
Proof. intros x y. unfold kv_le. apply _. Defined.
#[global] Instance kv_le_trans : Transitive kv_le.
Proof. intros x y z. apply bytes_le_transitive. Qed.
#[global] Instance kv_le_total : Total kv_le.
Proof. intros x y. apply bytes_le_total. Qed.
#[global] Instance kv_lt_trans : Transitive kv_lt.
Proof. intros x y z. apply bytes_lt_transitive. Qed.
#[global] Instance kv_lt_irrefl : Irreflexive kv_lt.
Proof. intros x. apply bytes_lt_irrefl. Qed.

Definition in_range (lo hi : bytes) (kv : bytes * bytes) : Prop :=
  bytes_le lo kv.1 ∧ bytes_lt kv.1 hi.
#[global] Instance in_range_dec lo hi kv : Decision (in_range lo hi kv).
Proof. unfold in_range. apply _. Defined.

(** The pairs with a key in [lo, hi), in key order. *)
Definition range (lo hi : bytes) (m : gmap bytes bytes) : list (bytes * bytes) :=
  merge_sort kv_le (filter (in_range lo hi) (map_to_list m)).

(** ** The interface *)

(** What a pass over an iterator visits, forwards from [First] and backwards
    from [Last], and [iter.Error()] after it. *)
Record iterator := mkIter {
  it_fwd : list (bytes * bytes);
  it_bwd : list (bytes * bytes);
  it_err : option err }.

Class Pebble (DB : Type) : Type := {
  db_get : bytes → DB → result (option bytes);
  db_iter : bytes → bytes → DB → result iterator;
  db_commit : bool → batch → ST DB ()   (* the flag asks for a synced commit *) }.

Class PebbleOk (DB : Type) `{Pebble DB} : Type := {
  db_map : DB → gmap bytes bytes;
  db_get_law k d v : db_get k d = Ok v → db_map d !! k = v;
  db_iter_law lo hi d it : db_iter lo hi d = Ok it →
    match it_err it with
    | None => it_fwd it = range lo hi (db_map d) ∧ it_bwd it = reverse (range lo hi (db_map d))
    | Some _ => it_fwd it `prefix_of` range lo hi (db_map d) ∧
                it_bwd it `prefix_of` reverse (range lo hi (db_map d))
    end;
  db_commit_law sync b d r d' : db_commit sync b d = (r, d') →
    match r with
    | Ok _ => db_map d' = apply_batch b (db_map d)
    | Err _ => db_map d' = db_map d ∨ db_map d' = apply_batch b (db_map d)
    end }.

(** A database on which no call fails. *)
Definition healthy {DB : Type} `{PebbleOk DB} (d : DB) : Prop :=
  (∀ k, db_get k d = Ok (db_map d !! k)) ∧
  (∀ lo hi, db_iter lo hi d =
     Ok (mkIter (range lo hi (db_map d)) (reverse (range lo hi (db_map d))) None)).

(** ** The reference instance *)

#[global] Instance mem_pebble : Pebble (gmap bytes bytes) := {|
  db_get k m := Ok (m !! k);
  db_iter lo hi m := Ok (mkIter (range lo hi m) (reverse (range lo hi m)) None);
  db_commit _ b := modify (apply_batch b) |}.

#[global] Program Instance mem_pebble_ok : PebbleOk (gmap bytes bytes) := {| db_map m := m |}.
Next Obligation. intros k d v. cbn. by intros [= ->]. Qed.
Next Obligation. intros lo hi d it. cbn. intros [= <-]. done. Qed.
Next Obligation. intros sync b d r d'. cbn. by intros [= <- <-]. Qed.

Lemma mem_healthy (m : gmap bytes bytes) : healthy m.
Proof. by split. Qed.

(** ** Lemmas on ranges *)

Lemma range_perm lo hi m : range lo hi m ≡ₚ filter (in_range lo hi) (map_to_list m).
Proof. apply merge_sort_Permutation. Qed.

Lemma elem_of_range lo hi m k v :
  (k, v) ∈ range lo hi m ↔ m !! k = Some v ∧ bytes_le lo k ∧ bytes_lt k hi.
Proof.
  rewrite range_perm, list_elem_of_filter, elem_of_map_to_list. unfold in_range. cbn. tauto.
Qed.

Lemma range_nodup lo hi m : NoDup (map fst (range lo hi m)).
Proof.
  change (NoDup ((range lo hi m).*1)). rewrite range_perm.
  apply (NoDup_fmap_fst).
  - intros x y1 y2 [_ H1]%list_elem_of_filter [_ H2]%list_elem_of_filter.
    apply elem_of_map_to_list in H1, H2. congruence.
  - apply NoDup_filter, NoDup_map_to_list.
Qed.

Lemma range_sorted lo hi m : StronglySorted kv_lt (range lo hi m).
Proof.
  assert (StronglySorted kv_le (range lo hi m)) as Hs
    by (apply Sorted_StronglySorted; [apply _|apply Sorted_merge_sort, _]).
  pose proof (range_nodup lo hi m) as Hnd.
  induction Hs as [|x l Hl IH Hx]; constructor.
  - apply IH. by apply NoDup_cons in Hnd as [_ ?].
  - apply NoDup_cons in Hnd as [Hn _]. rewrite Forall_forall in Hx |- *.
    intros y Hy. destruct (proj1 (bytes_le_lteq x.1 y.1) (Hx y Hy)) as [|Heq]; [done|].
    exfalso. apply Hn. rewrite Heq. by apply (list_elem_of_fmap_2 fst).
Qed.

(** A range is determined by order and membership. *)
Lemma range_unique lo hi m l :
  StronglySorted kv_lt l →
  (∀ k v, (k, v) ∈ l ↔ m !! k = Some v ∧ bytes_le lo k ∧ bytes_lt k hi) →
  range lo hi m = l.
Proof.
  intros Hs He. eapply StronglySorted_ext; [apply _|apply _|apply range_sorted|done|].
  intros [k v]. by rewrite elem_of_range, He.
Qed.

Lemma range_ext lo hi m m' :
  (∀ k, bytes_le lo k → bytes_lt k hi → m !! k = m' !! k) → range lo hi m = range lo hi m'.
Proof.
  intros He. apply range_unique; [apply range_sorted|].
  intros k v. rewrite elem_of_range. split; intros (Hk & Hl & Hh); split_and!; try done.
  - by rewrite He.
  - by rewrite <- He.
Qed.

(** A sub-range is a filter of the range. *)
Lemma range_sub lo hi lo' hi' m :
  bytes_le lo lo' → bytes_le hi' hi →
  range lo' hi' m = filter (in_range lo' hi') (range lo hi m).
Proof.
  intros Hlo Hhi. apply range_unique; [apply StronglySorted_filter, range_sorted|].
  intros k v. rewrite list_elem_of_filter, elem_of_range. unfold in_range. cbn.
  split; [by intros ((? & ?) & ? & ? & ?)|]. intros (Hk & Hl & Hh). split_and!; try done.
  - by etrans.
  - by eapply bytes_lt_le_trans.
Qed.

(** The last operation of a batch on a key decides. *)
Lemma apply_batch_app b b' m : apply_batch (b ++ b') m = apply_batch b' (apply_batch b m).
Proof. apply fold_left_app. Qed.

Definition bop_key (o : bop) : bytes := match o with BSet k _ | BDel k => k end.

Lemma apply_batch_other b m k :
  (∀ o, o ∈ b → bop_key o ≠ k) → apply_batch b m !! k = m !! k.
Proof.
  revert m. induction b as [|o b IH]; intros m Hb; [done|]. unfold apply_batch. cbn [fold_left].
  change (fold_left apply_bop b ?x) with (apply_batch b x). rewrite IH.
  - assert (bop_key o ≠ k) by (apply Hb; by left).
    destruct o; cbn in *; [by rewrite lookup_insert_ne|by rewrite lookup_delete_ne].
  - intros o' Ho'. apply Hb. by right.
Qed.
