(* ===== verification/StoreKeys.v ===== *)
(** * Keys and records of the store

    internal/store/keys.go: how revisions, user keys and metadata are laid out
    in Pebble, and the record codec with its recognition of the older record
    format. *)

From S2P Require Import Prelude Bytes WalEntry Pebble.

(** ** Keys *)

Definition prefixLog : byte := x6c.
Definition prefixIdx : byte := x69.
Definition prefixMeta : byte := x6d.

Definition metaCompactKey : bytes := prefixMeta :: str "compact".
Definition metaCurrentRevKey : bytes := prefixMeta :: str "rev".
Definition metaLastSeqKey : bytes := prefixMeta :: str "seq".

Definition logLower : bytes := prefixLog :: replicate 8 x00.
Definition logUpper : bytes := [byte_of (byte_val prefixLog + 1)].
Definition idxUpper : bytes := [byte_of (byte_val prefixIdx + 1)].

Definition logKey (rev : Z) : bytes := prefixLog :: be 8 (u64 rev).

Definition logKeyWithSub (rev sub : Z) : bytes :=
  prefixLog :: be 8 (u64 rev) ++ be 2 sub.

Definition decodeLogKey (k : bytes) : Z := i64 (unbe (slice 1 9 k)).

Definition idxKey (key : bytes) : bytes := prefixIdx :: key.

(** The last byte that can be incremented is, and everything after it is cut. *)
Fixpoint upperBound (prefix : bytes) : option bytes :=
  match prefix with
  | [] => None
  | b :: p =>
      match upperBound p with
      | Some q => Some (b :: q)
      | None =>
          let b' := byte_of (byte_val b + 1) in
          if bool_decide (b' = x00) then None else Some [b']
      end
  end.

Definition idxKeyUpper (prefix : bytes) : bytes :=
  match upperBound prefix with
  | None => idxUpper
  | Some ub => prefixIdx :: ub
  end.

Definition encodeRev (rev : Z) : bytes := be 8 (u64 rev).
Definition decodeRev (b : bytes) : Z := i64 (unbe (take 8 b)).

(** ** Records *)

Record record := mkRecord {
  rc_key : bytes;
  rc_value : bytes;
  rc_createRevision : Z;
  rc_prevRevision : Z;
  rc_version : Z;
  rc_lease : Z;
  rc_create : bool;
  rc_delete : bool }.

#[global] Instance record_eq_dec : EqDecision record.
Proof. solve_decision. Defined.

Definition flagCreate : Z := Z.shiftl 1 0.
Definition flagDelete : Z := Z.shiftl 1 1.

Definition entryHeaderSizeV1 : nat := 29.
Definition entryHeaderSize : nat := entryHeaderSizeV1 + 8.

Definition flags_of (r : record) : Z :=
  Z.lor (if rc_create r then flagCreate else 0) (if rc_delete r then flagDelete else 0).

Definition marshalRecord (r : record) : bytes :=
  [byte_of (flags_of r)] ++
  be 8 (u64 (rc_createRevision r)) ++
  be 8 (u64 (rc_prevRevision r)) ++
  be 8 (u64 (rc_lease r)) ++
  be 8 (u64 (rc_version r)) ++
  be 4 (u32 (zlen (rc_key r))) ++
  rc_key r ++ rc_value r.

Definition versionRecordHeaderLooksValid (version createRev prevRev : Z) (deleted : bool) : bool :=
  if version <=? 0 then false
  else if prevRev =? 0 then version =? 1
  else
    let maxVersion := i64 (prevRev - createRev + 1) in
    let maxVersion := if negb deleted then i64 (maxVersion + 1) else maxVersion in
    (0 <? maxVersion) && (version <=? maxVersion).

Definition unmarshalRecord (b : bytes) : result record :=
  if (length b <? entryHeaderSizeV1)%nat then Err (ErrText "store: record too short")
  else
    let flags := byte_val (default x00 (head b)) in
    let create := negb (Z.land flags flagCreate =? 0) in
    let delete := negb (Z.land flags flagDelete =? 0) in
    let createRevision := i64 (u64_at 1 b) in
    let prevRevision := i64 (u64_at 9 b) in
    let lease := i64 (u64_at 17 b) in
    let versioned :=
      (entryHeaderSize <=? length b)%nat &&
      versionRecordHeaderLooksValid (i64 (u64_at 25 b)) createRevision prevRevision delete &&
      (Z.of_nat entryHeaderSize + u32_at 33 b <=? zlen b) in
    let version := if versioned then i64 (u64_at 25 b) else 0 in
    let headerSize := if versioned then entryHeaderSize else entryHeaderSizeV1 in
    let klen := u32_at (headerSize - 4) b in
    if zlen b <? Z.of_nat headerSize + klen then Err (ErrText "store: record key truncated")
    else
      let tail := drop headerSize b in
      Ok (mkRecord (take (Z.to_nat klen) tail) (drop (Z.to_nat klen) tail)
            createRevision prevRevision version lease create delete).

(** A record whose fields fit their Go types and whose version field is
    recognised when it is read back. *)
Definition wf_record (r : record) : Prop :=
  is_i64 (rc_createRevision r) ∧ is_i64 (rc_prevRevision r) ∧ is_i64 (rc_lease r) ∧
  is_i64 (rc_version r) ∧ is_u32 (zlen (rc_key r)) ∧
  versionRecordHeaderLooksValid (rc_version r) (rc_createRevision r) (rc_prevRevision r)
    (rc_delete r) = true.

#[global] Instance wf_record_dec r : Decision (wf_record r).
Proof. unfold wf_record; apply _. Defined.

(** The layout before the version field was added (the header comment of
    keys.go): flags, create revision, previous revision, lease, key length. *)
Definition record_v1 (r : record) : bytes :=
  [byte_of (flags_of r)] ++
  be 8 (u64 (rc_createRevision r)) ++
  be 8 (u64 (rc_prevRevision r)) ++
  be 8 (u64 (rc_lease r)) ++
  be 4 (u32 (zlen (rc_key r))) ++
  rc_key r ++ rc_value r.

(** ** Record codec *)

Lemma flags_of_bits r :
  is_u8 (flags_of r) ∧
  negb (Z.land (flags_of r) flagCreate =? 0) = rc_create r ∧
  negb (Z.land (flags_of r) flagDelete =? 0) = rc_delete r.
Proof. unfold flags_of, is_u8. destruct (rc_create r), (rc_delete r); vm_compute; intuition congruence. Qed.

Lemma length_marshalRecord r :
  length (marshalRecord r) = (37 + length (rc_key r) + length (rc_value r))%nat.
Proof. unfold marshalRecord. rewrite !length_app, !length_be. cbn [length]. lia. Qed.

Lemma unmarshal_marshalRecord r :
  wf_record r → unmarshalRecord (marshalRecord r) = Ok r.
Proof.
  intros (Hc & Hp & Hl & Hv & Hk & Hvalid).
  destruct (flags_of_bits r) as (Hf & Hfc & Hfd).
  unfold unmarshalRecord. cbv zeta.
  change (u64_at 1 (marshalRecord r)) with (unbe (be 8 (u64 (rc_createRevision r)))).
  change (u64_at 9 (marshalRecord r)) with (unbe (be 8 (u64 (rc_prevRevision r)))).
  change (u64_at 17 (marshalRecord r)) with (unbe (be 8 (u64 (rc_lease r)))).
  change (u64_at 25 (marshalRecord r)) with (unbe (be 8 (u64 (rc_version r)))).
  change (u32_at 33 (marshalRecord r)) with (unbe (be 4 (u32 (zlen (rc_key r))))).
  change (default x00 (head (marshalRecord r))) with (byte_of (flags_of r)).
  rewrite !i64_unbe_be_u64, !unbe_be_u32_id, byte_val_of_u8 by done.
  rewrite Hfc, Hfd, Hvalid.
  assert (zlen (marshalRecord r) = 37 + zlen (rc_key r) + zlen (rc_value r)) as Hlen
    by (unfold zlen; rewrite length_marshalRecord; lia).
  pose proof (zlen_nonneg (rc_value r)).
  rewrite Hlen, length_marshalRecord, (proj2 (Nat.ltb_ge _ _)), (proj2 (Nat.leb_le _ _)),
    (proj2 (Z.leb_le _ _)) by (unfold entryHeaderSize, entryHeaderSizeV1; lia).
  cbn [andb].
  change (u32_at (entryHeaderSize - 4) (marshalRecord r)) with (unbe (be 4 (u32 (zlen (rc_key r))))).
  change (drop entryHeaderSize (marshalRecord r)) with (rc_key r ++ rc_value r).
  rewrite unbe_be_u32_id by done.
  rewrite (proj2 (Z.ltb_ge _ _)) by (unfold entryHeaderSize, entryHeaderSizeV1; lia).
  unfold zlen. rewrite Nat2Z.id, take_app_length, drop_app_length. by destruct r.
Qed.

(** A stored record is read back unchanged whenever its version field is
    plausible for its create and previous revisions (the check that tells the
    two record formats apart). *)
Theorem record_roundtrip r :
  wf_record r → unmarshalRecord (marshalRecord r) = Ok r.
Proof. apply unmarshal_marshalRecord. Qed.

Definition sample_record : record :=
  mkRecord (str "/registry/pods/a") (str "spec") 3 6 2 (-7) false false.

Lemma record_roundtrip_witness :
  unmarshalRecord (marshalRecord sample_record) = Ok sample_record.
Proof. apply record_roundtrip. apply (bool_decide_unpack _). by vm_compute. Defined.

(** Records written before the version field existed are still read
    correctly, with version 0: for a non-empty key shorter than 2^31 bytes the
    key length of the old layout makes the candidate version at least 2^32,
    which the plausibility check rejects when the key has fewer than 2^32
    modifications. *)
Theorem record_v1_readable r :
  is_i64 (rc_createRevision r) → is_i64 (rc_prevRevision r) → is_i64 (rc_lease r) →
  0 < zlen (rc_key r) < 2 ^ 31 → 0 ≤ rc_createRevision r → 0 ≤ rc_prevRevision r →
  rc_prevRevision r - rc_createRevision r + 2 < 2 ^ 32 →
  unmarshalRecord (record_v1 r) =
  Ok (mkRecord (rc_key r) (rc_value r) (rc_createRevision r) (rc_prevRevision r) 0 (rc_lease r)
        (rc_create r) (rc_delete r)).
Proof.
  intros Hc Hp Hl Hk Hc0 Hp0 Hmax. destruct (flags_of_bits r) as (Hf & Hfc & Hfd).
  assert (is_u32 (zlen (rc_key r))) as Hk32 by (unfold is_u32; lia).
  assert (length (record_v1 r) = 29 + length (rc_key r) + length (rc_value r))%nat as Hlen
    by (unfold record_v1; rewrite !length_app, !length_be; cbn [length]; lia).
  unfold unmarshalRecord. cbv zeta.
  change (u64_at 1 (record_v1 r)) with (unbe (be 8 (u64 (rc_createRevision r)))).
  change (u64_at 9 (record_v1 r)) with (unbe (be 8 (u64 (rc_prevRevision r)))).
  change (u64_at 17 (record_v1 r)) with (unbe (be 8 (u64 (rc_lease r)))).
  change (default x00 (head (record_v1 r))) with (byte_of (flags_of r)).
  rewrite !i64_unbe_be_u64, byte_val_of_u8 by done. rewrite Hfc, Hfd.
  (* the candidate version starts with the key length *)
  assert ((entryHeaderSize <=? length (record_v1 r))%nat = true →
    2 ^ 32 ≤ i64 (u64_at 25 (record_v1 r)) ∨ i64 (u64_at 25 (record_v1 r)) ≤ 0) as Hbig.
  { intros Hge%Nat.leb_le. left.
    assert (u64_at 25 (record_v1 r) =
      unbe (be 4 (u32 (zlen (rc_key r))) ++ take 4 (rc_key r ++ rc_value r))) as -> by done.
    unfold unbe. rewrite fold_left_app, unbe_fold.
    fold (unbe (be 4 (u32 (zlen (rc_key r))))). rewrite unbe_be_u32_id by done.
    assert (zlen (take 4 (rc_key r ++ rc_value r)) = 4) as Hz.
    { unfold zlen. rewrite length_take, length_app.
      unfold entryHeaderSize, entryHeaderSizeV1 in Hge. lia. }
    pose proof (unbe_range (take 4 (rc_key r ++ rc_value r))) as Hr. rewrite Hz in Hr |- *.
    rewrite i64_id; [|unfold is_i64]; lia. }
  assert ((entryHeaderSize <=? length (record_v1 r))%nat &&
    versionRecordHeaderLooksValid (i64 (u64_at 25 (record_v1 r))) (rc_createRevision r)
      (rc_prevRevision r) (rc_delete r) = false) as Hfalse.
  { destruct (_ <=? _)%nat; [|done]. specialize (Hbig eq_refl). cbn [andb].
    unfold versionRecordHeaderLooksValid.
    destruct (Z.leb_spec (i64 (u64_at 25 (record_v1 r))) 0); [done|].
    destruct (Z.eqb_spec (rc_prevRevision r) 0); [apply Z.eqb_neq; lia|].
    unfold is_i64 in *. rewrite (i64_id (_ - _ + 1)) by (unfold is_i64; lia).
    destruct (rc_delete r); cbn [negb]; [|rewrite i64_id by (unfold is_i64; lia)];
      apply andb_false_iff; right; apply Z.leb_gt; lia. }
  rewrite Hfalse. cbn [andb].
  change (u32_at (entryHeaderSizeV1 - 4) (record_v1 r)) with (unbe (be 4 (u32 (zlen (rc_key r))))).
  change (drop entryHeaderSizeV1 (record_v1 r)) with (rc_key r ++ rc_value r).
  rewrite unbe_be_u32_id by done.
  rewrite (proj2 (Nat.ltb_ge _ _)), (proj2 (Z.ltb_ge _ _))
    by (unfold zlen; rewrite Hlen; unfold entryHeaderSizeV1; lia).
  unfold zlen. by rewrite Nat2Z.id, take_app_length, drop_app_length.
Qed.

Lemma record_v1_readable_witness :
  unmarshalRecord (record_v1 sample_record) =
  Ok (mkRecord (str "/registry/pods/a") (str "spec") 3 6 0 (-7) false false).
Proof. apply record_v1_readable; vm_compute; intuition congruence. Defined.

(** ** Prefix bounds *)

Lemma bytes_le_cons x a y b :
  bytes_le (x :: a) (y :: b) ↔ byte_val x < byte_val y ∨ x = y ∧ bytes_le a b.
Proof.
  unfold bytes_le. cbn. destruct (Z.compare_spec (byte_val x) (byte_val y)) as [E|E|E].
  - apply byte_val_inj in E as ->. split; [auto|]. intros [?|[_ ?]]; [lia|done].
  - split; [auto|done].
  - split; [done|]. intros [?|[-> _]]; lia.
Qed.

Lemma bytes_lt_cons x a y b :
  bytes_lt (x :: a) (y :: b) ↔ byte_val x < byte_val y ∨ x = y ∧ bytes_lt a b.
Proof.
  unfold bytes_lt. cbn. destruct (Z.compare_spec (byte_val x) (byte_val y)) as [E|E|E].
  - apply byte_val_inj in E as ->. split; [auto|]. intros [?|[_ ?]]; [lia|done].
  - split; [auto|done].
  - split; [done|]. intros [?|[-> _]]; lia.
Qed.

Lemma upperBound_spec p k :
  has_prefix p k = true ↔
  bytes_le p k ∧ match upperBound p with Some u => bytes_lt k u | None => True end.
Proof.
  revert k. induction p as [|b p IH]; intros k; cbn [has_prefix upperBound].
  { split; [|done]. intros _. split; [|done]. by destruct k. }
  destruct k as [|c k].
  { split; [done|]. intros [Hle _]. by exfalso; apply Hle. }
  rewrite andb_true_iff, bool_decide_eq_true, IH, bytes_le_cons.
  pose proof (byte_val_range b). pose proof (byte_val_range c).
  destruct (upperBound p) as [q|].
  - rewrite bytes_lt_cons. split; [intros [-> [??]]; auto|].
    intros [[?|[-> ?]] [?|[? ?]]]; subst; try lia; auto.
  - case_bool_decide as Hz.
    + assert (byte_val b = 255) as Hb.
      { apply (f_equal byte_val) in Hz. rewrite byte_val_of in Hz. change (byte_val x00) with 0 in Hz.
        unfold u8 in Hz. destruct (decide (byte_val b = 255)); [done|].
        rewrite Z.mod_small in Hz; lia. }
      split; [intros [-> [??]]; auto|]. intros [[?|[-> ?]] _]; [lia|auto].
    + assert (byte_val (byte_of (byte_val b + 1)) = byte_val b + 1) as Hv.
      { rewrite byte_val_of. apply Z.mod_small. split; [lia|].
        destruct (decide (byte_val b = 255)) as [E|]; [|lia].
        exfalso. apply Hz. apply byte_val_inj. rewrite byte_val_of, E. done. }
      rewrite bytes_lt_cons, Hv. split; [intros [-> [??]]; split; [auto|left; lia]|].
      intros [[?|[-> ?]] [?|[? Hnil]]]; subst; try lia; auto.
      by destruct k.
Qed.

Lemma idx_prefix_range p x :
  bytes_le (idxKey p) x ∧ bytes_lt x (idxKeyUpper p) ↔
  ∃ k, x = idxKey k ∧ has_prefix p k = true.
Proof.
  unfold idxKey, idxKeyUpper. destruct x as [|c x].
  { split; [|by intros (? & ? & _)]. intros [Hle _]. by exfalso; apply Hle. }
  rewrite bytes_le_cons. split.
  - intros [Hle Hlt]. assert (c = prefixIdx) as ->.
    { destruct Hle as [Hle|[? _]]; [|done]. exfalso. destruct (upperBound p).
      - apply bytes_lt_cons in Hlt as [?|[? _]]; [lia|subst; lia].
      - unfold idxUpper in Hlt. apply bytes_lt_cons in Hlt as [Hlt|[-> Hlt]]; [|by destruct x].
        rewrite byte_val_of in Hlt. unfold prefixIdx, u8 in *. vm_compute in Hle, Hlt |- *.
        revert Hle Hlt. change (byte_val c) with (Z.of_N (Byte.to_N c)). destruct c; done. }
    exists x. split; [done|]. apply upperBound_spec.
    split; [destruct Hle as [?|[_ ?]]; [lia|done]|].
    destruct (upperBound p); [|done]. by apply bytes_lt_cons in Hlt as [?|[_ ?]]; [lia|].
  - intros (k & [= -> ->] & [Hle Hu]%upperBound_spec). split; [auto|].
    destruct (upperBound p); apply bytes_lt_cons; [by auto|]. left. by vm_compute.
Qed.

(** The iteration bounds of a prefix scan are exact: the index keys in
    [idxKey(p), idxKeyUpper(p)) are those of the user keys with prefix [p],
    also when [p] ends in 0xff bytes or is empty, and no log or metadata key
    lies between them. *)
Theorem idx_prefix_bounds p x :
  bytes_le (idxKey p) x ∧ bytes_lt x (idxKeyUpper p) ↔
  ∃ k, x = idxKey k ∧ has_prefix p k = true.
Proof. apply idx_prefix_range. Qed.

(** ** Log keys *)

(** The key of a single-key entry or of the [s]-th operation of a transaction. *)
Definition lkey (rev : Z) (sub : option Z) : bytes :=
  match sub with None => logKey rev | Some s => logKeyWithSub rev s end.

Definition valid_rev (rev : Z) : Prop := 0 ≤ rev < 2 ^ 63.
Definition valid_sub (sub : option Z) : Prop :=
  match sub with None => True | Some s => 0 ≤ s < 2 ^ 16 end.

#[global] Instance valid_rev_dec rev : Decision (valid_rev rev).
Proof. unfold valid_rev; apply _. Defined.

Lemma lkey_split rev sub :
  lkey rev sub = prefixLog :: be 8 (u64 rev) ++ match sub with None => [] | Some s => be 2 s end.
Proof. destruct sub; [done|]. unfold lkey, logKey. by rewrite app_nil_r. Qed.

Lemma valid_rev_u64 rev : valid_rev rev → u64 rev = rev.
Proof. intros. apply u64_id. unfold valid_rev, is_u64 in *. lia. Qed.

Lemma decodeLogKey_lkey rev sub : valid_rev rev → decodeLogKey (lkey rev sub) = rev.
Proof.
  intros Hr. rewrite lkey_split. unfold decodeLogKey.
  change (slice 1 9 (prefixLog :: be 8 (u64 rev) ++ ?x)) with (be 8 (u64 rev)).
  apply i64_unbe_be_u64. unfold valid_rev, is_i64 in *. lia.
Qed.

(** Order by revision first, whatever the sub-index. *)
Lemma lkey_cmp a s b t :
  valid_rev a → valid_rev b →
  bytes_cmp (lkey a s) (lkey b t) =
  match a ?= b with
  | Eq => bytes_cmp (match s with None => [] | Some i => be 2 i end)
                    (match t with None => [] | Some j => be 2 j end)
  | c => c
  end.
Proof.
  intros Ha Hb. rewrite !lkey_split, bytes_cmp_cons, !valid_rev_u64 by done.
  unfold valid_rev in *. destruct (decide (a = b)) as [<-|Hne].
  - by rewrite bytes_cmp_app, Z.compare_refl.
  - assert (be 8 a ≠ be 8 b) as Hbe by (intros H; apply be_inj in H; lia).
    rewrite bytes_cmp_app_ne by (done || by rewrite !length_be).
    rewrite bytes_cmp_be by lia. by destruct (Z.compare_spec a b).
Qed.

Lemma lkey_inj a s b t :
  valid_rev a → valid_rev b → valid_sub s → valid_sub t → lkey a s = lkey b t → a = b ∧ s = t.
Proof.
  intros Ha Hb Hs Ht H. pose proof (decodeLogKey_lkey a s Ha) as Hd.
  rewrite H, decodeLogKey_lkey in Hd by done. subst b. split; [done|].
  rewrite !lkey_split in H. injection H as H.
  destruct s as [i|], t as [j|]; try done. change (be 2 i = be 2 j) in H.
  f_equal. by apply be_inj in H.
Qed.

Lemma le_logKey_lkey b a s :
  valid_rev a → valid_rev b → bytes_le (logKey b) (lkey a s) ↔ b ≤ a.
Proof.
  intros Ha Hb. change (logKey b) with (lkey b None). unfold bytes_le. rewrite lkey_cmp by done.
  destruct (Z.compare_spec b a); destruct s; cbn; split; (lia || done || auto).
Qed.

Lemma lt_lkey_logKey a s b :
  valid_rev a → valid_rev b → bytes_lt (lkey a s) (logKey b) ↔ a < b.
Proof.
  intros Ha Hb. change (logKey b) with (lkey b None). unfold bytes_lt. rewrite lkey_cmp by done.
  destruct (Z.compare_spec a b); destruct s; cbn; split; (lia || done || auto).
Qed.

Lemma lkey_in_log a s :
  valid_rev a → bytes_le logLower (lkey a s) ∧ bytes_lt (lkey a s) logUpper.
Proof.
  intros Ha. split.
  - change logLower with (logKey 0). apply le_logKey_lkey; [done|done|]. by destruct Ha.
  - rewrite lkey_split. unfold logUpper. apply bytes_lt_cons. left. by vm_compute.
Qed.
