(* ===== verification/Store.v ===== *)
(** * The store

    internal/store/store.go: the state machine that applies WAL entries to
    Pebble and serves reads at the current or an earlier revision.  The
    methods that change the store are in the monad [ST]; reads are functions
    of the store.  Batch operations only fail in memory allocation and are
    infallible here; commits, lookups and iterators may fail. *)

From S2P Require Import Prelude Bytes WalEntry Os Pebble StoreKeys.

Record Store (DB : Type) := mkStore {
  st_db : DB;
  st_currentRev : Z;
  st_compactRev : Z;
  st_lastSeq : Z;
  st_notify : Z;                      (* generation of the notify channel *)
  st_closed : bool;
  st_watchPrefixes : gmap bytes Z }.
Arguments mkStore {DB} _ _ _ _ _ _ _.
Arguments st_db {DB} _.
Arguments st_currentRev {DB} _.
Arguments st_compactRev {DB} _.
Arguments st_lastSeq {DB} _.
Arguments st_notify {DB} _.
Arguments st_closed {DB} _.
Arguments st_watchPrefixes {DB} _.

(** ** Results of reads *)

Record KeyValue := mkKV {
  kv_Key : bytes;
  kv_Value : bytes;
  kv_Revision : Z;
  kv_CreateRevision : Z;
  kv_PrevRevision : Z;
  kv_Version : Z;
  kv_Lease : Z }.

#[global] Instance KeyValue_eq_dec : EqDecision KeyValue.
Proof. solve_decision. Defined.

Record ReadOptions := mkOpts { ro_Revision : Z; ro_FromKey : bytes; ro_Limit : Z }.

Inductive EventType := EventPut | EventDelete.

Record Event := mkEvent { ev_Type : EventType; ev_KV : KeyValue; ev_PrevKV : option KeyValue }.

Definition recordVersion (r : record) : Z :=
  if 0 <? rc_version r then rc_version r else if rc_delete r then 0 else 1.

Definition entryVersion (version : Z) : Z := if 0 <? version then version else 1.

Definition recordToKV (key : bytes) (rev : Z) (r : record) : KeyValue :=
  mkKV key (rc_value r) rev (rc_createRevision r) (rc_prevRevision r) (recordVersion r) (rc_lease r).

(** ** Applying entries *)

Definition entry_record (e : Entry) : record :=
  mkRecord (e_Key e) (e_Value e) (e_CreateRevision e) (e_PrevRevision e)
    (entryVersion (e_Version e)) (e_Lease e) (e_Op e =? OpCreate) (e_Op e =? OpDelete).

Definition subop_record (o : TxnSubOp) : record :=
  mkRecord (so_Key o) (so_Value o) (so_CreateRevision o) (so_PrevRevision o)
    (entryVersion (so_Version o)) (so_Lease o) (so_Op o =? OpCreate) (so_Op o =? OpDelete).

(** The log and index writes of one operation. *)
Definition write_record (lk : bytes) (rev : Z) (r : record) : batch :=
  [ BSet lk (marshalRecord r);
    if rc_delete r then BDel (idxKey (rc_key r)) else BSet (idxKey (rc_key r)) (encodeRev rev) ].

(** The operations of a transaction at consecutive sub-indices, [uint16(i)]. *)
Fixpoint txn_batch (rev : Z) (i : Z) (ops : list TxnSubOp) : batch :=
  match ops with
  | [] => []
  | o :: ops' =>
      write_record (logKeyWithSub rev (u16 i)) rev (subop_record o) ++ txn_batch rev (i + 1) ops'
  end.

Definition applyTxnEntry (b : batch) (e : Entry) : result batch :=
  ops ← DecodeTxnOps (e_Value e);
  Ok (b ++ txn_batch (e_Revision e) 0 ops).

Definition applyEntry (b : batch) (e : Entry) : result batch :=
  if e_Op e =? OpTxn then applyTxnEntry b e
  else Ok (b ++ write_record (logKey (e_Revision e)) (e_Revision e) (entry_record e)).

Section Store.
Context {DB : Type} `{Pebble DB}.
Implicit Types s : Store DB.

Definition set_db (d : DB) s : Store DB :=
  mkStore d (st_currentRev s) (st_compactRev s) (st_lastSeq s) (st_notify s) (st_closed s)
    (st_watchPrefixes s).
Definition set_compactRev (c : Z) s : Store DB :=
  mkStore (st_db s) (st_currentRev s) c (st_lastSeq s) (st_notify s) (st_closed s)
    (st_watchPrefixes s).
Definition set_revs (rev seq : Z) s : Store DB :=
  mkStore (st_db s) rev (st_compactRev s) seq (st_notify s) (st_closed s) (st_watchPrefixes s).

(** [iter.Error()] after a loop that did not return. *)
Definition iter_end {A} (it : iterator) (a : A) : result A :=
  match it_err it with None => Ok a | Some e => Err e end.

(** ** Compaction *)

Fixpoint find_key (key : bytes) (l : list (bytes * bytes)) : result bool :=
  match l with
  | [] => Ok false
  | (_, v) :: l' =>
      r ← unmarshalRecord v;
      if bool_decide (rc_key r = key) then Ok true else find_key key l'
  end.

Definition hasLaterRevisionAtOrBefore s (key : bytes) (afterRev beforeOrEqualRev : Z) : result bool :=
  if beforeOrEqualRev <=? afterRev then Ok false else
  it ← db_iter (logKey (i64 (afterRev + 1))) (logKey (i64 (beforeOrEqualRev + 1))) (st_db s);
  found ← find_key key (it_fwd it);
  if found : bool then Ok true else iter_end it false.

Fixpoint compact_loop s (compactRev : Z) (b : batch) (l : list (bytes * bytes)) : result batch :=
  match l with
  | [] => Ok b
  | (k, v) :: l' =>
      r ← unmarshalRecord v;
      hasLater ← hasLaterRevisionAtOrBefore s (rc_key r) (decodeLogKey k) compactRev;
      compact_loop s compactRev (if hasLater : bool then b ++ [BDel k] else b) l'
  end.

Definition applyCompact (b : batch) (compactRev : Z) : ST (Store DB) batch :=
  s ← get_st;
  let b := b ++ [BSet metaCompactKey (encodeRev compactRev)] in
  it ← from_result (db_iter (logKey (st_compactRev s)) (logKey compactRev) (st_db s));
  b ← from_result (compact_loop s compactRev b (it_fwd it));
  b ← from_result (iter_end it b);
  modify (set_compactRev compactRev);;
  mret b.

(** ** Commit *)

Definition commitBatch (b : batch) (maxRev maxSeq : Z) (sync : bool) : ST (Store DB) () :=
  let b := if 0 <? maxRev then b ++ [BSet metaCurrentRevKey (encodeRev maxRev)] else b in
  let b := if 0 <? maxSeq then b ++ [BSet metaLastSeqKey (encodeRev maxSeq)] else b in
  zoom st_db set_db (db_commit sync b);;
  modify (λ s, set_revs (if st_currentRev s <? maxRev then maxRev else st_currentRev s)
                        (if st_lastSeq s <? maxSeq then maxSeq else st_lastSeq s) s).

Definition broadcast s : Store DB :=
  mkStore (st_db s) (st_currentRev s) (st_compactRev s) (st_lastSeq s) (st_notify s + 1)
    (st_closed s) (st_watchPrefixes s).

Definition NotifyRevision : ST (Store DB) () := modify broadcast.

(** ** Apply *)

Definition bump_max (m x : Z) : Z := if m <? x then x else m.

(** One entry of a batch: the batch and the highest revision and sequence so far. *)
Definition apply_one (acc : batch * Z * Z) (e : Entry) : ST (Store DB) (batch * Z * Z) :=
  let '(b, maxRev, maxSeq) := acc in
  if e_Op e =? OpCompact then
    b ← applyCompact b (e_PrevRevision e);
    mret (b, maxRev, bump_max maxSeq (Sequence e))
  else
    b ← from_result (applyEntry b e);
    mret (b, bump_max maxRev (e_Revision e), bump_max maxSeq (Sequence e)).

Fixpoint apply_loop (es : list Entry) (acc : batch * Z * Z) : ST (Store DB) (batch * Z * Z) :=
  match es with
  | [] => mret acc
  | e :: es' => acc ← apply_one acc e; apply_loop es' acc
  end.

Definition Apply (entries : list Entry) : ST (Store DB) () :=
  match entries with
  | [] => mret tt
  | _ =>
      '(b, maxRev, maxSeq) ← apply_loop entries ([], 0, 0);
      commitBatch b maxRev maxSeq false;;
      modify broadcast
  end.

(** ** Recover *)

(** Deletes of every log entry at the revision and of the index pointers they
    reference. *)
Fixpoint purge (l : list (bytes * bytes)) : batch :=
  match l with
  | [] => []
  | (k, v) :: l' =>
      match unmarshalRecord v with
      | Ok stale => if rc_delete stale then [] else [BDel (idxKey (rc_key stale))]
      | Err _ => []
      end ++ [BDel k] ++ purge l'
  end.

(** Removal of what an older term left at the entry's revision. *)
Definition cleanup s (e : Entry) : batch :=
  if e_Op e =? OpTxn then
    match db_iter (logKey (e_Revision e)) (logKey (i64 (e_Revision e + 1))) (st_db s) with
    | Ok it => purge (it_fwd it)
    | Err _ => []
    end
  else
    match db_get (logKey (e_Revision e)) (st_db s) with
    | Ok (Some old) =>
        match unmarshalRecord old with
        | Ok r => if negb (rc_delete r) && negb (bool_decide (rc_key r = e_Key e))
                  then [BDel (idxKey (rc_key r))] else []
        | Err _ => []
        end
    | _ => []
    end.

Definition recover_one (acc : batch * Z * Z) (e : Entry) : ST (Store DB) (batch * Z * Z) :=
  let '(b, maxRev, maxSeq) := acc in
  let maxSeq := bump_max maxSeq (Sequence e) in
  if e_Op e =? OpCompact then
    b ← applyCompact b (e_PrevRevision e);
    mret (b, maxRev, maxSeq)
  else
    s ← get_st;
    b ← from_result (applyEntry (b ++ cleanup s e) e);
    mret (b, bump_max maxRev (e_Revision e), maxSeq).

Fixpoint recover_loop (es : list Entry) (acc : batch * Z * Z) : ST (Store DB) (batch * Z * Z) :=
  match es with
  | [] => mret acc
  | e :: es' => acc ← recover_one acc e; recover_loop es' acc
  end.

Definition Recover (entries : list Entry) : ST (Store DB) () :=
  match entries with
  | [] => mret tt
  | _ =>
      '(b, maxRev, maxSeq) ← recover_loop entries ([], 0, 0);
      commitBatch b maxRev maxSeq true
  end.

(** ** Opening *)

(** [loadMeta] on a store just opened over [d]. *)
Definition loadMeta (d : DB) : result (Store DB) :=
  c ← db_get metaCompactKey d;
  q ← db_get metaLastSeqKey d;
  r ← db_get metaCurrentRevKey d;
  let compactRev := match c with Some v => decodeRev v | None => 0 end in
  let lastSeq := match q with Some v => decodeRev v | None => 0 end in
  let mk currentRev :=
    mkStore d currentRev compactRev (if lastSeq <? currentRev then currentRev else lastSeq)
      0 false ∅ in
  match r with
  | Some v => Ok (mk (decodeRev v))
  | None =>
      it ← db_iter logLower logUpper d;
      Ok (mk (match it_bwd it with (k, _) :: _ => decodeLogKey k | [] => 0 end))
  end.

Definition SignalClose : ST (Store DB) () :=
  modify (λ s, mkStore (st_db s) (st_currentRev s) (st_compactRev s) (st_lastSeq s) (st_notify s)
                 true (st_watchPrefixes s)).

(** ** Point reads *)

Definition getIdxRev s (key : bytes) : result Z :=
  v ← db_get (idxKey key) (st_db s);
  Ok (match v with None => 0 | Some v => decodeRev v end).

(** The slow path of [getLogEntry]: records that do not decode are skipped. *)
Fixpoint find_subop (key : bytes) (rev : Z) (l : list (bytes * bytes)) : option KeyValue :=
  match l with
  | [] => None
  | (_, v) :: l' =>
      match unmarshalRecord v with
      | Ok r => if bool_decide (rc_key r = key) then Some (recordToKV key rev r)
                else find_subop key rev l'
      | Err _ => find_subop key rev l'
      end
  end.

Definition getLogEntry s (key : bytes) (rev : Z) : result KeyValue :=
  v ← db_get (logKey rev) (st_db s);
  match v with
  | Some v => r ← unmarshalRecord v; Ok (recordToKV key rev r)
  | None =>
      it ← db_iter (logKeyWithSub rev 0) (logKey (i64 (rev + 1))) (st_db s);
      match find_subop key rev (it_fwd it) with
      | Some kv => Ok kv
      | None => Err (ErrText "store: get log: not found in txn sub-ops")
      end
  end.

Definition Get s (key : bytes) : result (option KeyValue) :=
  rev ← getIdxRev s key;
  if rev =? 0 then Ok None else kv ← getLogEntry s key rev; Ok (Some kv).

Definition resolveReadRevision s (revision : Z) : result Z :=
  if revision =? 0 then Ok (st_currentRev s)
  else if (0 <? st_compactRev s) && (revision <? st_compactRev s) then Err ErrCompacted
  else if st_currentRev s <? revision then Err ErrFutureRevision
  else Ok revision.

(** Backwards from the newest entry: the first record of the key decides. *)
Fixpoint latest_record (key : bytes) (l : list (bytes * bytes)) : result (option (option KeyValue)) :=
  match l with
  | [] => Ok None
  | (k, v) :: l' =>
      r ← unmarshalRecord v;
      if negb (bool_decide (rc_key r = key)) then latest_record key l'
      else if rc_delete r then Ok (Some None)
      else Ok (Some (Some (recordToKV (rc_key r) (decodeLogKey k) r)))
  end.

Definition getAtRevision s (key : bytes) (targetRev : Z) : result (option KeyValue) :=
  it ← db_iter logLower (logKey (i64 (targetRev + 1))) (st_db s);
  found ← latest_record key (it_bwd it);
  match found with
  | Some res => Ok res
  | None => iter_end it None
  end.

Definition GetAt s (key : bytes) (revision : Z) : result (option KeyValue) :=
  targetRev ← resolveReadRevision s revision;
  if revision =? 0 then Get s key else getAtRevision s key targetRev.

Definition Exists s (key : bytes) : result bool :=
  rev ← getIdxRev s key; Ok (negb (rev =? 0)).

Definition ExistsAt s (key : bytes) (revision : Z) : result bool :=
  if revision =? 0 then Exists s key
  else kv ← GetAt s key revision; Ok (bool_decide (is_Some kv)).

(** ** The change log *)

Fixpoint scan_loop s (prefix : bytes) (withPrevKV : bool) (l : list (bytes * bytes))
    (events : list Event) (scanned : Z) : result (list Event * Z) :=
  match l with
  | [] => Ok (events, scanned)
  | (k, v) :: l' =>
      r ← unmarshalRecord v;
      let rev := decodeLogKey k in
      if negb (has_prefix prefix (rc_key r))
      then scan_loop s prefix withPrevKV l' events (scanned + 1)
      else
        let kv := recordToKV (rc_key r) rev r in
        let prevKV :=
          if withPrevKV && (0 <? rc_prevRevision r) then
            match getLogEntry s (rc_key r) (rc_prevRevision r) with
            | Ok p => Some p
            | Err _ => None
            end
          else None in
        let et := if rc_delete r then EventDelete else EventPut in
        scan_loop s prefix withPrevKV l' (events ++ [mkEvent et kv prevKV]) (scanned + 1)
  end.

Definition scanLog s (prefix : bytes) (fromRev toRev : Z) (withPrevKV : bool)
    : result (list Event * Z) :=
  it ← db_iter (logKey fromRev) (logKey (i64 (toRev + 1))) (st_db s);
  res ← scan_loop s prefix withPrevKV (it_fwd it) [] 0;
  iter_end it res.

(** ** Range reads *)

(** [latest], the last event of each key. *)
Definition fold_latest (events : list Event) : gmap bytes KeyValue :=
  fold_left (λ m ev,
    match ev_Type ev with
    | EventDelete => delete (kv_Key (ev_KV ev)) m
    | EventPut => <[kv_Key (ev_KV ev) := ev_KV ev]> m
    end) events ∅.

Definition take_limit {A} (limit : Z) (l : list A) : list A :=
  if 0 <? limit then take (Z.to_nat limit) l else l.

(** The output loop: keys below [FromKey] are skipped, and the loop ends when
    [Limit] pairs were collected. *)
Definition select_latest (fromKey : bytes) (limit : Z) (latest : gmap bytes KeyValue) : list KeyValue :=
  let keys := sort_bytes (map fst (map_to_list latest)) in
  let keys := filter (λ k, fromKey = [] ∨ bytes_le fromKey k) keys in
  omap (λ k, latest !! k) (take_limit limit keys).

Definition idxBounds (prefix fromKey : bytes) : bytes * bytes :=
  let lower := idxKey prefix in
  let lower :=
    match fromKey with
    | [] => lower
    | _ => if bytes_ltb lower (idxKey fromKey) then idxKey fromKey else lower
    end in
  (lower, idxKeyUpper prefix).

Fixpoint list_loop s (limit : Z) (l : list (bytes * bytes)) (out : list KeyValue)
    : result (list KeyValue) :=
  match l with
  | [] => Ok out
  | (k, v) :: l' =>
      if (0 <? limit) && (limit <=? zlen out) then Ok out
      else
        kv ← getLogEntry s (drop 1 k) (decodeRev v);
        list_loop s limit l' (out ++ [kv])
  end.

Definition listCurrent s (prefix fromKey : bytes) (limit : Z) : result (list KeyValue) :=
  let '(lower, upper) := idxBounds prefix fromKey in
  it ← db_iter lower upper (st_db s);
  out ← list_loop s limit (it_fwd it) [];
  iter_end it out.

Definition ListRange s (prefix : bytes) (opts : ReadOptions) : result (list KeyValue) :=
  targetRev ← resolveReadRevision s (ro_Revision opts);
  if ro_Revision opts =? 0 then listCurrent s prefix (ro_FromKey opts) (ro_Limit opts)
  else
    res ← scanLog s prefix 1 targetRev false;
    Ok (select_latest (ro_FromKey opts) (ro_Limit opts) (fold_latest res.1)).

Definition ListLimit s (prefix : bytes) (limit : Z) : result (list KeyValue) :=
  ListRange s prefix (mkOpts 0 [] limit).

Definition List s (prefix : bytes) : result (list KeyValue) := ListLimit s prefix 0.

Definition countCurrent s (prefix fromKey : bytes) : result Z :=
  let '(lower, upper) := idxBounds prefix fromKey in
  it ← db_iter lower upper (st_db s);
  iter_end it (zlen (it_fwd it)).

Definition CountRange s (prefix : bytes) (opts : ReadOptions) : result Z :=
  if ro_Revision opts =? 0 then countCurrent s prefix (ro_FromKey opts)
  else
    kvs ← ListRange s prefix (mkOpts (ro_Revision opts) (ro_FromKey opts) 0);
    Ok (zlen kvs).

Definition Count s (prefix : bytes) : result Z := CountRange s prefix (mkOpts 0 [] 0).

Definition History s (key : bytes) : result (list Event) :=
  match key with
  | [] => Err (ErrText "store: history key must not be empty")
  | _ =>
      res ← scanLog s [] 1 (st_currentRev s) true;
      Ok (filter (λ ev, kv_Key (ev_KV ev) = key) res.1)
  end.

Definition Changes s (prefix : bytes) (fromRev toRev : Z) : result (list Event) :=
  if fromRev <=? 0 then Err (ErrText "store: from revision must be >= 1")
  else if toRev <? fromRev then Err (ErrText "store: to revision must be >= from revision")
  else if (st_currentRev s =? 0) || (st_currentRev s <? fromRev) then Ok []
  else
    let toRev := if st_currentRev s <? toRev then st_currentRev s else toRev in
    res ← scanLog s prefix fromRev toRev true;
    Ok res.1.

(** ** Waiting and watching *)

(** [WaitForRevision] evaluated once: [None] means it goes on waiting for the
    next broadcast. *)
Definition WaitForRevision s (ctxErr : option err) (rev : Z) : option (result ()) :=
  if st_closed s then Some (Err ErrClosed)
  else if rev <=? st_currentRev s then Some (Ok tt)
  else match ctxErr with Some e => Some (Err e) | None => None end.

(** One iteration of [watchLoop]: the events to send and the next revision, or
    [None] while it waits. *)
Definition watchIteration s (ctxErr : option err) (prefix : bytes) (nextRev : Z) (withPrevKV : bool)
    : option (result (list Event * Z)) :=
  match WaitForRevision s ctxErr nextRev with
  | None => None
  | Some (Err e) => Some (Err e)
  | Some (Ok _) =>
      let curRev := st_currentRev s in
      Some (res ← scanLog s prefix nextRev curRev withPrevKV; Ok (res.1, curRev + 1))
  end.

Definition registerWatch (prefix : bytes) : ST (Store DB) () :=
  modify (λ s, mkStore (st_db s) (st_currentRev s) (st_compactRev s) (st_lastSeq s) (st_notify s)
    (st_closed s) (<[prefix := default 0 (st_watchPrefixes s !! prefix) + 1]> (st_watchPrefixes s))).

Definition unregisterWatch (prefix : bytes) : ST (Store DB) () :=
  modify (λ s, mkStore (st_db s) (st_currentRev s) (st_compactRev s) (st_lastSeq s) (st_notify s)
    (st_closed s)
    (let n := default 0 (st_watchPrefixes s !! prefix) in
     if n <=? 1 then delete prefix (st_watchPrefixes s)
     else <[prefix := n - 1]> (st_watchPrefixes s))).

(** [Watch] registers the watcher; its loop starts at [startRev+1]. *)
Definition Watch (prefix : bytes) (startRev : Z) : ST (Store DB) Z :=
  s ← get_st;
  if st_closed s then throw ErrClosed
  else registerWatch prefix;; mret (startRev + 1).

End Store.
