(* ===== verification/StoreSpec.v ===== *)
(** * Specification of the store: a history of records

    The abstract state of the store is its history: the list of all records
    ever applied, each with its revision, in order.  Reads at a revision are
    functions of the history alone.  [MI] relates a Pebble map to a history
    and a compaction watermark: the log part of the map is the history without
    superseded records below the watermark, and the index part points to the
    newest record of every live key. *)

From S2P Require Import Prelude Bytes WalEntry Os Pebble StoreKeys Store.

(** ** Histories *)

Notation hist := (list (Z * record)).

Definition at_or_before (key : bytes) (rev : Z) (x : Z * record) : Prop :=
  x.1 ≤ rev ∧ rc_key x.2 = key.
#[global] Instance at_or_before_dec key rev x : Decision (at_or_before key rev x).
Proof. unfold at_or_before. apply _. Defined.

(** The newest record of a key at or before a revision. *)
Definition last_at (H : hist) (key : bytes) (rev : Z) : option (Z * record) :=
  last (filter (at_or_before key rev) H).

Definition of_key (key : bytes) (x : Z * record) : Prop := rc_key x.2 = key.
#[global] Instance of_key_dec key x : Decision (of_key key x).
Proof. unfold of_key. apply _. Defined.

Definition newest (H : hist) (key : bytes) : option (Z * record) := last (filter (of_key key) H).

(** What a read of the key at the revision returns: nothing when there is no
    record or when the newest one is a deletion. *)
Definition live (x : option (Z * record)) : option KeyValue :=
  match x with
  | Some (rev, r) => if rc_delete r then None else Some (recordToKV (rc_key r) rev r)
  | None => None
  end.

Definition value_at (H : hist) (key : bytes) (rev : Z) : option KeyValue := live (last_at H key rev).

(** The live pairs under a prefix from a key on, in key order. *)
Definition list_at (H : hist) (prefix fromKey : bytes) (rev : Z) : list KeyValue :=
  omap (λ k, value_at H k rev)
    (filter (λ k, has_prefix prefix k = true ∧ bytes_le fromKey k)
       (sort_bytes (remove_dups (map (λ x, rc_key x.2) H)))).

Definition under (prefix : bytes) (x : Z * record) : Prop := has_prefix prefix (rc_key x.2) = true.
#[global] Instance under_dec prefix x : Decision (under prefix x).
Proof. unfold under. apply _. Defined.

(** The index entry of a key. *)
Definition idx_of (H : hist) (key : bytes) : option bytes :=
  match newest H key with
  | Some (rev, r) => if rc_delete r then None else Some (encodeRev rev)
  | None => None
  end.

Definition rev_le (x y : Z * record) : Prop := x.1 ≤ y.1.

(** ** The log part of a map *)

Definition plog (m : gmap bytes bytes) : list (bytes * bytes) := range logLower logUpper m.

Definition dummy_record : record := mkRecord [] [] 0 0 0 0 false false.

Definition decode_kv (kv : bytes * bytes) : Z * record :=
  (decodeLogKey kv.1, match unmarshalRecord kv.2 with Ok r => r | Err _ => dummy_record end).

Definition alog (m : gmap bytes bytes) : hist := map decode_kv (plog m).

(** A stored log entry. *)
Definition log_entry (kv : bytes * bytes) (rev : Z) (sub : option Z) (r : record) : Prop :=
  valid_rev (rev + 1) ∧ 0 < rev ∧ valid_sub sub ∧ wf_record r ∧
  kv = (lkey rev sub, marshalRecord r).

Record MI (m : gmap bytes bytes) (H : hist) (c : Z) : Prop := {
  mi_wf : ∀ kv, kv ∈ plog m → ∃ rev sub r, log_entry kv rev sub r;
  mi_sub : ∀ x, x ∈ alog m → x ∈ H;
  mi_sorted : StronglySorted rev_le H;
  mi_last : ∀ key r, c ≤ r → last_at (alog m) key r = last_at H key r;
  mi_tail : filter (λ x, c ≤ x.1) (alog m) = filter (λ x, c ≤ x.1) H;
  mi_idx : ∀ key, m !! idxKey key = idx_of H key;
  mi_uniq : NoDup (map (λ x, (x.1, rc_key x.2)) H);
  mi_single : ∀ rev i v w, valid_rev rev → valid_sub (Some i) →
    (lkey rev None, v) ∈ plog m → (lkey rev (Some i), w) ∉ plog m }.

(** A counter as stored under a metadata key; an absent key stands for 0. *)
Definition meta_is (m : gmap bytes bytes) (k : bytes) (z : Z) : Prop :=
  match m !! k with Some v => v = encodeRev z | None => z = 0 end.

(** The store [s] over a Pebble instance implements the history [H]. *)
Record Rel {DB : Type} `{PebbleOk DB} (s : Store DB) (H : hist) : Prop := {
  re_mi : MI (db_map (st_db s)) H (st_compactRev s);
  re_cur : ∀ x, x ∈ H → 0 < x.1 ≤ st_currentRev s;
  re_bound : valid_rev (st_currentRev s + 1) ∧ 0 ≤ st_currentRev s ≤ st_lastSeq s;
  re_seq : valid_rev (st_lastSeq s);
  re_compact : valid_rev (st_compactRev s + 1) ∧ 0 ≤ st_compactRev s;
  re_metac : meta_is (db_map (st_db s)) metaCompactKey (st_compactRev s);
  re_metar : meta_is (db_map (st_db s)) metaCurrentRevKey (st_currentRev s);
  re_metaq : meta_is (db_map (st_db s)) metaLastSeqKey (st_lastSeq s) }.

(** What an entry adds to the history. *)
Definition entry_log (e : Entry) : hist :=
  if e_Op e =? OpCompact then []
  else if e_Op e =? OpTxn then
    match DecodeTxnOps (e_Value e) with
    | Ok ops => map (λ o, (e_Revision e, subop_record o)) ops
    | Err _ => []
    end
  else [(e_Revision e, entry_record e)].

Definition batch_log (es : list Entry) : hist := flat_map entry_log es.

(** Well-formed entries: fields within their wire widths, and the operations
    of a transaction on distinct keys. *)
Definition entry_ok (e : Entry) : Prop :=
  if e_Op e =? OpTxn then
    match DecodeTxnOps (e_Value e) with
    | Ok ops => zlen ops ≤ 2 ^ 16 ∧ Forall (λ o, wf_record (subop_record o)) ops ∧
                NoDup (map so_Key ops)
    | Err _ => False
    end
  else wf_record (entry_record e).

(** Batches as the commit loop builds them: revisions and sequences go up and
    compaction targets do not go down. *)
Fixpoint batch_ok (rev seq c : Z) (es : list Entry) : Prop :=
  match es with
  | [] => True
  | e :: es' =>
      seq < Sequence e ∧ valid_rev (Sequence e) ∧
      if e_Op e =? OpCompact then
        c ≤ e_PrevRevision e ∧ valid_rev (e_PrevRevision e + 1) ∧
        batch_ok rev (Sequence e) (e_PrevRevision e) es'
      else
        rev < e_Revision e ≤ Sequence e ∧ valid_rev (e_Revision e + 1) ∧ entry_ok e ∧
        batch_ok (e_Revision e) (Sequence e) c es'
  end.

#[global] Instance entry_ok_dec e : Decision (entry_ok e).
Proof.
  unfold entry_ok. destruct (e_Op e =? OpTxn); [|apply _].
  destruct (DecodeTxnOps (e_Value e)); apply _.
Defined.

#[global] Instance batch_ok_dec rev seq c es : Decision (batch_ok rev seq c es).
Proof.
  revert rev seq c. induction es as [|e es IH]; intros rev seq c; cbn; [apply _|].
  apply and_dec; [apply _|]. apply and_dec; [apply _|]. destruct (e_Op e =? OpCompact); apply _.
Defined.

(** ** Lemmas on histories *)

Lemma last_at_app H key rev K :
  last_at (H ++ K) key rev =
  match last_at K key rev with Some x => Some x | None => last_at H key rev end.
Proof.
  unfold last_at. rewrite filter_app, last_app. by destruct (last (filter _ K)).
Qed.

Lemma newest_snoc H key x :
  newest (H ++ [x]) key = if bool_decide (rc_key x.2 = key) then Some x else newest H key.
Proof.
  unfold newest. rewrite filter_app, filter_cons, filter_nil. unfold of_key.
  case_bool_decide; [rewrite decide_True by done; by rewrite last_snoc|].
  rewrite decide_False by done. by rewrite app_nil_r.
Qed.

Lemma last_at_snoc H key rev x :
  last_at (H ++ [x]) key rev =
  if bool_decide (at_or_before key rev x) then Some x else last_at H key rev.
Proof.
  rewrite last_at_app. unfold last_at at 1. rewrite filter_cons, filter_nil.
  case_bool_decide; [by rewrite decide_True|by rewrite decide_False].
Qed.

Lemma idx_of_snoc H key x :
  idx_of (H ++ [x]) key =
  if bool_decide (rc_key x.2 = key)
  then (if rc_delete x.2 then None else Some (encodeRev x.1)) else idx_of H key.
Proof.
  unfold idx_of. rewrite newest_snoc. case_bool_decide; [by destruct x|done].
Qed.

(** Beyond the last revision, the newest record at or before is the newest. *)
Lemma last_at_newest H key rev : (∀ x, x ∈ H → x.1 ≤ rev) → last_at H key rev = newest H key.
Proof.
  intros Hr. unfold last_at, newest. f_equal. apply filter_ext_in.
  intros x Hx. unfold at_or_before, of_key. specialize (Hr x Hx). tauto.
Qed.

Lemma last_at_elem H key rev x : last_at H key rev = Some x → x ∈ H ∧ x.1 ≤ rev ∧ rc_key x.2 = key.
Proof.
  unfold last_at. intros Hx%last_Some_elem_of. apply list_elem_of_filter in Hx. 
  unfold at_or_before in Hx. tauto.
Qed.

(** In a history ordered by revision the last matching record has the highest
    revision. *)
Lemma last_at_max H key rev x y :
  StronglySorted rev_le H → last_at H key rev = Some x → y ∈ H → rc_key y.2 = key → y.1 ≤ rev →
  y.1 ≤ x.1.
Proof.
  intros Hs Hx Hy Hk Hr. unfold last_at in Hx.
  assert (y ∈ filter (at_or_before key rev) H) as Hin.
  { apply list_elem_of_filter. done. }
  apply last_Some in Hx as [l Hl]. rewrite Hl in Hin.
  apply elem_of_app in Hin as [Hin| ->%list_elem_of_singleton]; [|done].
  assert (StronglySorted rev_le (l ++ [x])) as Hs' by (rewrite <- Hl; by apply StronglySorted_filter).
  apply (StronglySorted_app_1_elem_of rev_le l [x]); [done|done|by left].
Qed.

Lemma last_at_is_Some H key rev y :
  y ∈ H → rc_key y.2 = key → y.1 ≤ rev → ∃ x, last_at H key rev = Some x.
Proof.
  intros Hy Hk Hr. unfold last_at.
  assert (y ∈ filter (at_or_before key rev) H) as Hin by by apply list_elem_of_filter.
  destruct (last _) eqn:E; [eauto|]. apply last_None in E. rewrite E in Hin.
  by apply not_elem_of_nil in Hin.
Qed.

(** Dropping records that are not the newest of their key at or before the
    revision does not change reads at it. *)
Lemma last_filter_keep {A} (P Q : A → Prop) `{∀ x, Decision (P x)} `{∀ x, Decision (Q x)} (l : list A) :
  (∀ x, last (filter P l) = Some x → Q x) → last (filter P (filter Q l)) = last (filter P l).
Proof.
  intros Hq.
  assert (filter P (filter Q l) = filter Q (filter P l)) as ->.
  { rewrite !list_filter_filter. apply list_filter_iff. tauto. }
  destruct (last (filter P l)) as [x|] eqn:E.
  - apply last_Some in E as [k ->]. specialize (Hq x eq_refl).
    rewrite filter_app, filter_cons, filter_nil, decide_True by done. apply last_snoc.
  - apply last_None in E as ->. done.
Qed.

(** ** Lemmas on the log part *)

Lemma log_entry_decode kv rev sub r : log_entry kv rev sub r → decode_kv kv = (rev, r).
Proof.
  intros (Hv & Hp & Hs & Hr & ->). unfold decode_kv. cbn [fst snd].
  rewrite decodeLogKey_lkey by (unfold valid_rev in *; lia). by rewrite unmarshal_marshalRecord.
Qed.

Section Log.
Context (m : gmap bytes bytes) (H : hist) (c : Z) (Hmi : MI m H c).

Lemma plog_entry kv : kv ∈ plog m → ∃ rev sub r,
  log_entry kv rev sub r ∧ decode_kv kv = (rev, r) ∧ (rev, r) ∈ H.
Proof using Hmi.
  intros Hin. destruct (mi_wf _ _ _ Hmi kv Hin) as (rev & sub & r & He). exists rev, sub, r.
  pose proof (log_entry_decode _ _ _ _ He) as Hd. split_and!; [done..|].
  apply (mi_sub _ _ _ Hmi). rewrite <- Hd. by apply (list_elem_of_fmap_2 decode_kv).
Qed.

Lemma alog_elem rev r : (rev, r) ∈ alog m → ∃ sub, (lkey rev sub, marshalRecord r) ∈ plog m ∧
  log_entry (lkey rev sub, marshalRecord r) rev sub r.
Proof using Hmi.
  intros Hin. apply (list_elem_of_fmap_1 decode_kv) in Hin as (kv & Hd & Hkv).
  destruct (plog_entry kv Hkv) as (rev' & sub & r' & He & Hd' & _).
  rewrite <- Hd in Hd'. injection Hd' as <- <-. exists sub.
  assert (kv = (lkey rev sub, marshalRecord r)) as -> by apply He. done.
Qed.

(** The entries with revisions in [a, b). *)
Lemma range_revs a b :
  valid_rev a → valid_rev b →
  range (logKey a) (logKey b) m = filter (λ kv, a ≤ decodeLogKey kv.1 < b) (plog m).
Proof using Hmi.
  intros Ha Hb. unfold plog. rewrite (range_sub logLower logUpper).
  - apply filter_ext_in. intros kv Hkv.
    destruct (mi_wf _ _ _ Hmi kv Hkv) as (rev & sub & r & Hv & Hp & Hs & Hr & ->).
    assert (valid_rev rev) by (unfold valid_rev in *; lia).
    unfold in_range. cbn. rewrite le_logKey_lkey, lt_lkey_logKey, decodeLogKey_lkey by done. tauto.
  - by apply (lkey_in_log a None).
  - apply bytes_le_lteq. left. by apply (lkey_in_log b None).
Qed.

(** All entries below a revision. *)
Lemma range_below b :
  valid_rev b → range logLower (logKey b) m = filter (λ kv, decodeLogKey kv.1 < b) (plog m).
Proof using Hmi.
  intros Hb. change logLower with (logKey 0). rewrite range_revs by done.
  apply filter_ext_in. intros kv Hkv.
  destruct (mi_wf _ _ _ Hmi kv Hkv) as (rev & sub & r & Hv & Hp & Hs & Hr & ->). cbn.
  rewrite decodeLogKey_lkey by (unfold valid_rev in *; lia). lia.
Qed.

(** The operations of the transaction at a revision. *)
Lemma range_subs rev :
  valid_rev (rev + 1) → 0 ≤ rev →
  range (logKeyWithSub rev 0) (logKey (rev + 1)) m =
  filter (λ kv, decodeLogKey kv.1 = rev ∧ kv.1 ≠ logKey rev) (plog m).
Proof using Hmi.
  intros Hv1 H0. assert (valid_rev rev) as Hv by (unfold valid_rev in *; lia).
  unfold plog. rewrite (range_sub logLower logUpper).
  - apply filter_ext_in. intros kv Hkv.
    destruct (mi_wf _ _ _ Hmi kv Hkv) as (rev' & sub & r & Hv' & Hp & Hs & Hr & ->).
    assert (valid_rev rev') by (unfold valid_rev in *; lia).
    unfold in_range. cbn. rewrite lt_lkey_logKey, decodeLogKey_lkey by done.
    change (logKeyWithSub rev 0) with (lkey rev (Some 0)). unfold bytes_le.
    rewrite lkey_cmp by done. destruct (Z.compare_spec rev rev') as [<-|Hlt|Hgt].
    + destruct sub as [i|]; cbn [lkey].
      * rewrite bytes_cmp_be by (cbn in *; lia). cbn in Hs. split.
        -- intros [_ _]. split; [done|]. change (logKey rev) with (lkey rev None).
           change (logKeyWithSub rev i) with (lkey rev (Some i)).
           intros Heq. apply lkey_inj in Heq as [_ ?]; done.
        -- intros _. split; [|lia]. destruct (Z.compare_spec 0 i); done || lia.
      * split; [intros [Hn _]; by exfalso; apply Hn|]. by intros [_ Hn].
    + split; [lia|]. intros [-> _]. lia.
    + split; [by intros [Hn _]; exfalso; apply Hn|]. intros [-> _]. lia.
  - by apply (lkey_in_log rev (Some 0)).
  - apply bytes_le_lteq. left. by apply (lkey_in_log (rev + 1) None).
Qed.

Lemma plog_lookup k v : (k, v) ∈ plog m → m !! k = Some v.
Proof. intros Hin. by apply elem_of_range in Hin as (? & _). Qed.

Lemma plog_lkey rev sub v : valid_rev rev → m !! lkey rev sub = Some v → (lkey rev sub, v) ∈ plog m.
Proof.
  intros Hv Hm. apply elem_of_range. split; [done|]. by apply lkey_in_log.
Qed.

End Log.
