(* ===== verification/StoreInv.v ===== *)
(** * Preservation of the store invariant

    The updates the store makes to its Pebble map, one at a time: appending a
    record at a new log key, deleting a superseded log entry, and writing
    metadata keys.  Each keeps [MI]. *)

From S2P Require Import Prelude Bytes WalEntry Os Pebble StoreKeys Store StoreSpec.

(** ** The log part under single updates *)

Definition in_log (k : bytes) : Prop := bytes_le logLower k ∧ bytes_lt k logUpper.

Lemma idxKey_not_log key : ¬ in_log (idxKey key).
Proof.
  intros [Hl _]. revert Hl. unfold idxKey, logLower. rewrite bytes_le_cons.
  intros [Hlt|[Heq _]]; [by vm_compute in Hlt|discriminate Heq].
Qed.

Lemma meta_not_log k : k ∈ [metaCurrentRevKey; metaCompactKey; metaLastSeqKey] → ¬ in_log k.
Proof.
  intros Hk [_ Hu]. revert Hu.
  repeat (apply elem_of_cons in Hk as [->|Hk]; [by vm_compute|]). by apply not_elem_of_nil in Hk.
Qed.

Lemma apply_bop_other m o k : bop_key o ≠ k → apply_bop m o !! k = m !! k.
Proof. intros Hk. destruct o; cbn in *; [by rewrite lookup_insert_ne|by rewrite lookup_delete_ne]. Qed.

Lemma plog_bop_other m o : ¬ in_log (bop_key o) → plog (apply_bop m o) = plog m.
Proof.
  intros Ho. apply range_ext. intros k Hl Hu. apply apply_bop_other.
  intros <-. by apply Ho.
Qed.

Lemma plog_snoc m lk v :
  in_log lk → (∀ kv, kv ∈ plog m → bytes_lt kv.1 lk) → plog (<[lk := v]> m) = plog m ++ [(lk, v)].
Proof.
  intros Hlk Hlt. apply range_unique.
  - apply StronglySorted_snoc; [apply range_sorted|]. intros kv Hkv. by apply Hlt.
  - intros k w. rewrite elem_of_app, list_elem_of_singleton.
    unfold plog. rewrite elem_of_range. split.
    + intros [(Hm & Hl & Hu)|[= -> ->]]; [|rewrite lookup_insert_eq; split; [done|apply Hlk]].
      rewrite lookup_insert_ne; [done|]. intros ->.
      assert (bytes_lt k k) as Hkk by (apply (Hlt (k, w)); by apply elem_of_range).
      by apply bytes_lt_irrefl in Hkk.
    + intros (Hm & Hr). destruct (decide (k = lk)) as [->|Hne].
      * rewrite lookup_insert_eq in Hm. right. congruence.
      * rewrite lookup_insert_ne in Hm by done. by left.
Qed.

Lemma plog_delete m lk : plog (delete lk m) = filter (λ kv, kv.1 ≠ lk) (plog m).
Proof.
  apply range_unique; [apply StronglySorted_filter, range_sorted|].
  intros k v. rewrite list_elem_of_filter. unfold plog. rewrite elem_of_range. cbn.
  rewrite lookup_delete_Some. intuition congruence.
Qed.

Lemma idxKey_inj a b : idxKey a = idxKey b → a = b.
Proof. unfold idxKey. by intros [= ->]. Qed.

Lemma idxKey_not_lkey key rev sub : valid_rev rev → idxKey key ≠ lkey rev sub.
Proof. intros Hv Heq. apply (idxKey_not_log key). rewrite Heq. by apply lkey_in_log. Qed.

Lemma idxKey_not_meta k key : k ∈ [metaCurrentRevKey; metaCompactKey; metaLastSeqKey] → k ≠ idxKey key.
Proof.
  intros Hk ->. repeat (apply elem_of_cons in Hk as [Hk|Hk]; [discriminate Hk|]).
  by apply not_elem_of_nil in Hk.
Qed.

(** ** The watermark *)

Lemma MI_raise m H c c' : MI m H c → c ≤ c' → MI m H c'.
Proof.
  intros [Hwf Hsub Hs Hlast Htail Hidx Hu Hsg] Hc. split; try done.
  - intros key r Hr. apply Hlast. lia.
  - assert (∀ l : hist, filter (λ x, c' ≤ x.1) l = filter (λ x, c' ≤ x.1) (filter (λ x, c ≤ x.1) l)) as Hf.
    { intros l. rewrite list_filter_filter. apply list_filter_iff. intros x. lia. }
    rewrite (Hf (alog m)), (Hf H). by rewrite Htail.
Qed.

(** Writes to metadata keys do not touch the log or the index. *)
Lemma MI_meta m H c o :
  MI m H c → bop_key o ∈ [metaCurrentRevKey; metaCompactKey; metaLastSeqKey] → MI (apply_bop m o) H c.
Proof.
  intros [Hwf Hsub Hs Hlast Htail Hidx Hu Hsg] Ho.
  assert (plog (apply_bop m o) = plog m) as Hp by by apply plog_bop_other, meta_not_log.
  split; unfold alog in *; rewrite ?Hp; try done.
  intros key. rewrite apply_bop_other; [done|]. by apply idxKey_not_meta.
Qed.

(** ** Appending a record *)

Lemma plog_write m lk rev r :
  in_log lk → (∀ kv, kv ∈ plog m → bytes_lt kv.1 lk) →
  plog (apply_batch (write_record lk rev r) m) = plog m ++ [(lk, marshalRecord r)].
Proof.
  intros Hlk Hlt. unfold apply_batch, write_record. cbn [fold_left].
  rewrite plog_bop_other; [by apply plog_snoc|]. destruct (rc_delete r); apply idxKey_not_log.
Qed.

Lemma idx_write m lk rev r key :
  (∀ k, idxKey k ≠ lk) →
  apply_batch (write_record lk rev r) m !! idxKey key =
  if bool_decide (rc_key r = key)
  then (if rc_delete r then None else Some (encodeRev rev)) else m !! idxKey key.
Proof.
  intros Hlk. unfold apply_batch, write_record. cbn [fold_left].
  case_bool_decide as E; [subst key|].
  - destruct (rc_delete r); cbn; [apply lookup_delete_eq|apply lookup_insert_eq].
  - rewrite apply_bop_other.
    + apply lookup_insert_ne. intros Heq. by apply (Hlk key).
    + destruct (rc_delete r); intros Heq%idxKey_inj; done.
Qed.

Lemma MI_append m H c rev sub r :
  MI m H c → log_entry (lkey rev sub, marshalRecord r) rev sub r →
  (∀ kv, kv ∈ plog m → bytes_lt kv.1 (lkey rev sub)) →
  (∀ x, x ∈ H → x.1 ≤ rev ∧ (x.1 = rev → rc_key x.2 ≠ rc_key r ∧ is_Some sub)) →
  (∀ v, is_Some sub → (lkey rev None, v) ∉ plog m) →
  MI (apply_batch (write_record (lkey rev sub) rev r) m) (H ++ [(rev, r)]) c.
Proof.
  intros Hmi He Hlt HH Hsg'. pose proof Hmi as [Hwf Hsub Hs Hlast Htail Hidx Hu Hsg].
  pose proof (log_entry_decode _ _ _ _ He) as Hd.
  destruct He as (Hv & Hp & Hvs & Hr & _).
  assert (valid_rev rev) as Hvr by (unfold valid_rev in *; lia).
  assert (plog (apply_batch (write_record (lkey rev sub) rev r) m) =
          plog m ++ [(lkey rev sub, marshalRecord r)]) as Hpl
    by (apply plog_write; [by apply lkey_in_log|done]).
  assert (alog (apply_batch (write_record (lkey rev sub) rev r) m) = alog m ++ [(rev, r)]) as Hal
    by (unfold alog; rewrite Hpl, map_app; cbn [map]; by rewrite Hd).
  split; rewrite ?Hpl, ?Hal.
  - intros kv [Hkv| ->%list_elem_of_singleton]%elem_of_app; [by apply Hwf|]. by exists rev, sub, r.
  - intros x [Hx| ->%list_elem_of_singleton]%elem_of_app; apply elem_of_app; [left; by apply Hsub|].
    right. by left.
  - apply StronglySorted_snoc; [done|]. intros x Hx. by apply HH.
  - intros key q Hq. rewrite !last_at_snoc. case_bool_decide; [done|]. by apply Hlast.
  - rewrite !filter_app, Htail. done.
  - intros key. rewrite idx_write, idx_of_snoc by (intros k; by apply idxKey_not_lkey).
    by rewrite Hidx.
  - rewrite map_app. apply NoDup_app. split_and!; [done| |apply NoDup_singleton].
    intros q Hq ->%list_elem_of_singleton. cbn in Hq.
    apply (list_elem_of_fmap_1 (λ x, (x.1, rc_key x.2))) in Hq as (x & [= Hx1 Hx2] & Hx).
    by apply (HH x Hx).
  - intros rev' i v w Hv' Hi [H1|H1%list_elem_of_singleton]%elem_of_app
      [H2|H2%list_elem_of_singleton]%elem_of_app.
    + by apply (Hsg rev' i v w).
    + injection H2 as H2 _. apply (lkey_inj rev' (Some i) rev sub) in H2 as [-> <-]; [|done..]. by apply (Hsg' v).
    + injection H1 as H1 _. apply (lkey_inj rev' None rev sub) in H1 as [-> <-]; [|done..].
      destruct (plog_entry m H c Hmi _ H2) as (a & t & r' & (Ha & Ha0 & Ht & _ & Hkv) & _ & Hin).
      injection Hkv as Hk _. apply (lkey_inj rev (Some i) a t) in Hk as [<- <-];
        [|done|clear -Ha Ha0; unfold valid_rev in *; lia|done..].
      destruct (HH _ Hin) as [_ [_ [? [=]]]]. done.
    + injection H1 as H1 _. injection H2 as H2 _. rewrite <- H1 in H2.
      apply (lkey_inj rev' (Some i) rev' None) in H2 as [_ [=]]; done.
Qed.

(** ** Deleting a superseded entry *)

Lemma MI_delete m H c lk rev sub :
  MI m H c → valid_rev rev → rev < c →
  (∀ r, wf_record r → (lkey rev sub, marshalRecord r) ∈ plog m →
     ∃ y, y ∈ H ∧ rc_key y.2 = rc_key r ∧ rev < y.1 ≤ c) →
  lk = lkey rev sub → valid_sub sub →
  MI (delete lk m) H c.
Proof.
  intros Hmi Hv Hc Hy -> Hvs. pose proof Hmi as [Hwf Hsub Hs Hlast Htail Hidx Hu Hsg].
  assert (alog (delete (lkey rev sub) m) = map decode_kv (filter (λ kv, kv.1 ≠ lkey rev sub) (plog m))) as Hal
    by (unfold alog; by rewrite plog_delete).
  assert (∀ kv, kv ∈ plog (delete (lkey rev sub) m) → kv ∈ plog m) as Hin
    by (intros kv; rewrite plog_delete, list_elem_of_filter; tauto).
  (* a record that is the newest of its key at a revision above the watermark is not deleted *)
  assert (∀ kv key q, kv ∈ plog m → c ≤ q → last_at H key q = Some (decode_kv kv) → kv.1 ≠ lkey rev sub) as Hkeep.
  { intros kv key q Hkv Hq Hl Heq.
    destruct (plog_entry m H c Hmi kv Hkv) as (a & t & r & He & Hd & Hinh).
    destruct He as (Ha & Ha0 & Ht & Hr & ->). cbn [fst] in Heq.
    apply lkey_inj in Heq as [-> ->]; [|unfold valid_rev in *; lia|done..].
    destruct (Hy r Hr Hkv) as (y & Hyin & Hyk & Hy1). rewrite Hd in Hl.
    pose proof (last_at_elem _ _ _ _ Hl) as (_ & _ & Hk). cbn in Hk.
    assert (y.1 ≤ (rev, r).1) by (apply (last_at_max H key q (rev, r) y); try done; [congruence|lia]).
    cbn in *. lia. }
  split; try done.
  - intros kv Hkv. by apply Hwf, Hin.
  - intros x Hx. rewrite Hal in Hx. apply (list_elem_of_fmap_1 decode_kv) in Hx as (kv & -> & Hkv).
    apply list_elem_of_filter in Hkv as [_ Hkv]. apply Hsub. by apply (list_elem_of_fmap_2 decode_kv).
  - intros key q Hq. rewrite <- Hlast by done. rewrite Hal. unfold last_at, alog.
    rewrite !map_filter_comm, !last_map_fmap.
    rewrite last_filter_keep; [done|]. intros kv Hkv.
    apply (Hkeep kv key q); [|done|].
    + apply last_Some_elem_of, list_elem_of_filter in Hkv. apply Hkv.
    + rewrite <- Hlast by done. unfold last_at, alog. rewrite map_filter_comm, last_map_fmap, Hkv. done.
  - rewrite <- Htail, Hal. unfold alog. rewrite !map_filter_comm. f_equal.
    rewrite list_filter_filter. apply filter_ext_in. intros kv Hkv. split; [tauto|]. intros Hck.
    split; [done|]. intros Heq.
    destruct (Hwf kv Hkv) as (a & t & r & He). rewrite (log_entry_decode _ _ _ _ He) in Hck.
    destruct He as (Ha & Ha0 & Ht & _ & ->). cbn [fst] in Heq, Hck.
    apply lkey_inj in Heq as [-> _]; [|unfold valid_rev in *; lia|done..]. cbn in Hck. lia.
  - intros key. rewrite lookup_delete_ne; [done|]. intros Heq. by apply (idxKey_not_lkey key rev sub).
  - intros a i v w Ha Hi H1 H2. by apply (Hsg a i v w); [..|apply Hin|apply Hin].
Qed.

(** ** Appending the records of an entry *)

(** The log ends before sub-index [i] of the revision. *)
Definition log_below (m : gmap bytes bytes) (rev i : Z) : Prop :=
  ∀ kv, kv ∈ plog m → ∃ a t, kv.1 = lkey a t ∧ valid_rev a ∧ valid_sub t ∧
    (a < rev ∨ a = rev ∧ ∃ j, t = Some j ∧ j < i).

Lemma log_below_intro m H c rev :
  MI m H c → (∀ x, x ∈ H → x.1 < rev) → log_below m rev 0.
Proof.
  intros Hmi Hlt kv Hkv.
  destruct (plog_entry m H c Hmi kv Hkv) as (a & t & r & (Ha & Ha0 & Ht & _ & ->) & _ & Hin).
  exists a, t. specialize (Hlt _ Hin). cbn in Hlt. unfold valid_rev in *. split_and!; [done|lia|lia|done|lia].
Qed.

Lemma log_below_lt m rev i sub :
  valid_rev rev → 0 ≤ i < 2 ^ 16 → sub = Some i ∨ (sub = None ∧ i = 0) → log_below m rev i →
  ∀ kv, kv ∈ plog m → bytes_lt kv.1 (lkey rev sub).
Proof.
  intros Hv Hi Hsub Hb kv Hkv. destruct (Hb kv Hkv) as (a & t & -> & Ha & Ht & Hc).
  unfold bytes_lt. rewrite lkey_cmp by done. destruct Hc as [Hc|[-> (j & -> & Hj)]].
  - by rewrite (proj2 (Z.compare_lt_iff a rev)).
  - rewrite Z.compare_refl. cbn in Ht. destruct Hsub as [->|[-> ->]]; [|lia].
    rewrite bytes_cmp_be by lia. by apply Z.compare_lt_iff.
Qed.

Lemma log_below_none m rev i v : valid_rev rev → log_below m rev i → (lkey rev None, v) ∉ plog m.
Proof.
  intros Hv Hb Hin. destruct (Hb _ Hin) as (a & t & Heq & Ha & Ht & Hc). cbn [fst] in Heq.
  apply (lkey_inj rev None a t) in Heq as [<- <-]; [|done..].
  destruct Hc as [?|[_ (? & [=] & _)]]. lia.
Qed.

Lemma log_below_write m rev i r :
  valid_rev rev → 0 ≤ i < 2 ^ 16 → log_below m rev i →
  log_below (apply_batch (write_record (lkey rev (Some i)) rev r) m) rev (i + 1).
Proof.
  intros Hv Hi Hb kv Hkv. rewrite plog_write in Hkv.
  - apply elem_of_app in Hkv as [Hkv| ->%list_elem_of_singleton].
    + destruct (Hb kv Hkv) as (a & t & -> & Ha & Ht & Hc). exists a, t. split_and!; [done..|].
      destruct Hc as [?|[-> (j & -> & ?)]]; [by left|right]. split; [done|]. exists j. split; [done|lia].
    + exists rev, (Some i). split_and!; [done..|]. right. split; [done|]. exists i. split; [done|lia].
  - by apply lkey_in_log.
  - apply (log_below_lt m rev i); [done..|by left|done].
Qed.

Lemma MI_txn rev ops : ∀ m H c i,
  MI m H c → valid_rev (rev + 1) → 0 < rev → 0 ≤ i → i + zlen ops ≤ 2 ^ 16 →
  Forall (λ o, wf_record (subop_record o)) ops → NoDup (map so_Key ops) →
  (∀ x, x ∈ H → x.1 ≤ rev ∧ (x.1 = rev → rc_key x.2 ∉ map so_Key ops)) →
  log_below m rev i →
  MI (apply_batch (txn_batch rev i ops) m) (H ++ map (λ o, (rev, subop_record o)) ops) c.
Proof.
  induction ops as [|o ops IH]; intros m H c i Hmi Hv Hp Hi Hlen Hwf Hnd HH Hb.
  { cbn. by rewrite app_nil_r. }
  rewrite zlen_cons in Hlen. pose proof (zlen_nonneg ops).
  assert (valid_rev rev) as Hvr by (unfold valid_rev in *; lia).
  inversion_clear Hwf as [|? ? Ho Hwf']. cbn [map] in Hnd. apply NoDup_cons in Hnd as [Hni Hnd].
  cbn [txn_batch]. rewrite apply_batch_app. unfold u16. rewrite Z.mod_small by lia.
  change (logKeyWithSub rev i) with (lkey rev (Some i)).
  cbn [map]. rewrite (cons_middle (rev, subop_record o)), app_assoc.
  apply IH; [|done|done|lia|lia|done|done| |].
  - apply MI_append; [done| | | |].
    + split_and!; [done|done|cbn; lia|done|done].
    + apply (log_below_lt m rev i); [done|lia|by left|done].
    + intros x Hx. destruct (HH x Hx) as [Hle Hk]. split; [done|]. intros Heq. split; [|by eexists].
      intros Hke. apply (Hk Heq). rewrite Hke. by left.
    + intros v _. by apply (log_below_none m rev i).
  - intros x [Hx| ->%list_elem_of_singleton]%elem_of_app; [|by cbn].
    destruct (HH x Hx) as [Hle Hk]. split; [done|]. intros Heq Hin. apply (Hk Heq). by right.
  - apply log_below_write; [done|lia|done].
Qed.
