(* ===== verification/StoreApply.v ===== *)
(** * Apply refines the history

    The batch loop of [Apply] over any Pebble instance, including one whose
    reads and commits fail: what it leaves behind is the history extended by
    the entries of the batch, or nothing of them. *)

From S2P Require Import Prelude Bytes WalEntry Os Pebble StoreKeys Store StoreSpec StoreInv.

Section Apply.
Context {DB : Type} `{PI : Pebble DB} `{POk : !PebbleOk DB}.
Implicit Types s : Store DB.

(** An iterator, even one that fails midway, yields only entries of its range. *)
Lemma iter_fwd_range lo hi d it kv :
  db_iter lo hi d = Ok it → kv ∈ it_fwd it → kv ∈ range lo hi (db_map d).
Proof using POk.
  intros Hit Hkv. apply db_iter_law in Hit. destruct (it_err it).
  - destruct Hit as [[k Hk] _]. rewrite Hk. apply elem_of_app. by left.
  - by destruct Hit as [<- _].
Qed.

(** ** Compaction *)

Lemma find_key_true key l :
  find_key key l = Ok true → ∃ k v r, (k, v) ∈ l ∧ unmarshalRecord v = Ok r ∧ rc_key r = key.
Proof.
  induction l as [|[k v] l IH]; [done|]. cbn. intros (r & Hr & Hf)%bind_Ok.
  case_bool_decide as E; [exists k, v, r; split_and!; [by left|done..]|].
  destruct (IH Hf) as (k' & v' & r' & Hin & ? & ?). exists k', v', r'. split_and!; [by right|done..].
Qed.

Lemma hasLater_sound s H c key a b :
  MI (db_map (st_db s)) H c → valid_rev a → valid_rev (b + 1) →
  hasLaterRevisionAtOrBefore s key a b = Ok true →
  ∃ y, y ∈ H ∧ rc_key y.2 = key ∧ a < y.1 ≤ b.
Proof using POk.
  intros Hmi Ha Hb. unfold hasLaterRevisionAtOrBefore. case_match eqn:E; [done|].
  apply Z.leb_gt in E. intros (it & Hit & Hr)%bind_Ok. apply bind_Ok in Hr as (found & Hf & Hr).
  destruct found; [|unfold iter_end in Hr; by destruct (it_err it)].
  apply find_key_true in Hf as (k & v & r & Hin & Hr' & Hk).
  apply (iter_fwd_range _ _ _ _ _ Hit) in Hin.
  unfold valid_rev in *. rewrite !i64_id in Hin by (unfold is_i64; lia).
  rewrite (range_revs _ H c) in Hin by (try done; unfold valid_rev; lia).
  apply list_elem_of_filter in Hin as [Hrev Hin]. cbn in Hrev.
  destruct (plog_entry _ H c Hmi _ Hin) as (rev & sub & r0 & He & Hd & HinH).
  exists (rev, r0). unfold decode_kv in Hd. cbn [fst snd] in Hd. rewrite Hr' in Hd. injection Hd as <- <-.
  split_and!; [done|done|cbn; lia|cbn; lia].
Qed.

(** What compaction deletes: entries below the target with a newer record of
    the same key at or below it. *)
Definition superseded (m : gmap bytes bytes) (H : hist) (c : Z) (k : bytes) : Prop :=
  ∃ rev sub r, log_entry (k, marshalRecord r) rev sub r ∧ (k, marshalRecord r) ∈ plog m ∧ rev < c ∧
    ∃ y, y ∈ H ∧ rc_key y.2 = rc_key r ∧ rev < y.1 ≤ c.

Lemma compact_loop_sound s H c c' l : ∀ b b',
  MI (db_map (st_db s)) H c → valid_rev (c' + 1) →
  (∀ kv, kv ∈ l → kv ∈ plog (db_map (st_db s)) ∧ decodeLogKey kv.1 < c') →
  compact_loop s c' b l = Ok b' →
  ∃ ks, b' = b ++ map BDel ks ∧ ∀ k, k ∈ ks → superseded (db_map (st_db s)) H c' k.
Proof using POk.
  induction l as [|[k v] l IH]; intros b b' Hmi Hv Hl; cbn [compact_loop].
  { intros [= <-]. exists []. split; [by rewrite app_nil_r|]. by intros k ?%not_elem_of_nil. }
  intros (r & Hr & Hh)%bind_Ok. apply bind_Ok in Hh as (hasLater & Hh & Hrest).
  assert (∀ kv, kv ∈ l → kv ∈ plog (db_map (st_db s)) ∧ decodeLogKey kv.1 < c') as Hl'
    by (intros kv Hkv; apply Hl; by right).
  destruct (IH _ _ Hmi Hv Hl' Hrest) as (ks & -> & Hks).
  destruct hasLater; [|by exists ks].
  exists (k :: ks). split; [by rewrite <- app_assoc|].
  intros k' [->|Hk']%elem_of_cons; [|by apply Hks].
  destruct (Hl (k, v)) as [Hin Hlt]; [by left|]. cbn in Hlt.
  destruct (plog_entry _ H c Hmi _ Hin) as (rev & sub & r0 & He & Hd & HinH).
  assert ((k, v) = (lkey rev sub, marshalRecord r0)) as Hkv by apply He. injection Hkv as -> ->.
  assert (unmarshalRecord (marshalRecord r0) = Ok r0) as Hu by (apply unmarshal_marshalRecord, He).
  rewrite Hu in Hr. injection Hr as <-.
  destruct He as (Hvr & Hp & Hs & Hwf & _).
  assert (valid_rev rev) by (unfold valid_rev in *; lia). rewrite decodeLogKey_lkey in * by done.
  exists rev, sub, r0. split_and!; [done..|].
  by apply (hasLater_sound s H c (rc_key r0) rev c').
Qed.

(** The deletions applied to a map whose old part comes from the committed one. *)
Lemma MI_deletes m0 H0 H c' ks : ∀ m,
  MI m H c' → (∀ x, x ∈ H0 → x ∈ H) →
  (∀ k v, k ∈ ks → (k, v) ∈ plog m → (k, v) ∈ plog m0) →
  (∀ k, k ∈ ks → superseded m0 H0 c' k) →
  MI (apply_batch (map BDel ks) m) H c' ∧
  (∀ kv, kv ∈ plog (apply_batch (map BDel ks) m) → kv ∈ plog m).
Proof.
  induction ks as [|k ks IH]; intros m Hmi HH Hold Hks; [done|].
  cbn [map]. unfold apply_batch. cbn [fold_left apply_bop]. fold (apply_batch (map BDel ks) (delete k m)).
  assert (∀ kv, kv ∈ plog (delete k m) → kv ∈ plog m) as Hd
    by (intros kv; rewrite plog_delete, list_elem_of_filter; tauto).
  destruct (Hks k) as (rev & sub & r & (Hv & Hp & Hs & Hwf & Hk%(f_equal fst)) & Hin & Hlt & y & Hy & Hyk & Hyr);
    [by left|].
  destruct (IH (delete k m)) as [IH1 IH2].
  - apply (MI_delete m H c' k rev sub); [done|unfold valid_rev in *; lia|done| |done|done].
    intros r' Hwf' Hr'. exists y. split; [by apply HH|]. split; [|done]. rewrite Hyk.
    cbn [fst] in Hk. rewrite <- Hk in Hr'. apply (Hold k) in Hr'; [|by left]. apply plog_lookup in Hr', Hin. 
    rewrite Hr' in Hin. apply (inj Some) in Hin. apply (f_equal unmarshalRecord) in Hin.
    rewrite !unmarshal_marshalRecord in Hin by done. by injection Hin as ->.
  - done.
  - intros k' v' Hk' Hin'. apply Hold; [by right|by apply Hd].
  - intros k' Hk'. apply Hks. by right.
  - split; [done|]. intros kv Hkv. by apply Hd, IH2.
Qed.

Lemma applyCompact_spec s H b c' r s' :
  MI (db_map (st_db s)) H (st_compactRev s) → 0 ≤ st_compactRev s → st_compactRev s ≤ c' →
  valid_rev (c' + 1) →
  applyCompact b c' s = (r, s') →
  match r with
  | Ok b' => s' = set_compactRev c' s ∧ ∃ ks,
      b' = b ++ [BSet metaCompactKey (encodeRev c')] ++ map BDel ks ∧
      ∀ k, k ∈ ks → superseded (db_map (st_db s)) H c' k
  | Err _ => s' = s
  end.
Proof using POk.
  intros Hmi H0 Hc Hv. unfold applyCompact, mbind, ST_bind, get_st, from_result, modify, mret, ST_ret.
  destruct (db_iter _ _ _) as [it|e] eqn:Hit; [|by intros [= <- <-]].
  destruct (compact_loop _ _ _ _) as [b'|e] eqn:Hl; [|by intros [= <- <-]].
  unfold iter_end. destruct (it_err it); [by intros [= <- <-]|]. intros [= <- <-]. split; [done|].
  apply (compact_loop_sound s H (st_compactRev s)) in Hl as (ks & -> & Hks); [|done|done|].
  - exists ks. by rewrite <- app_assoc.
  - intros kv Hkv. apply (iter_fwd_range _ _ _ _ _ Hit) in Hkv.
    rewrite (range_revs _ H (st_compactRev s)) in Hkv by (try done; unfold valid_rev in *; lia).
    apply list_elem_of_filter in Hkv as [[_ Hlt] Hkv]. done.
Qed.

(** ** The batch loop *)

(** The loop invariant: the batch so far, applied to the committed map,
    implements the history so far. *)
Record loop_inv s0 (H0 : hist) (b : batch) (mr mq : Z) s (H : hist) : Prop := {
  li_s : s = set_compactRev (st_compactRev s) s0;
  li_c : st_compactRev s0 ≤ st_compactRev s ∧ valid_rev (st_compactRev s + 1);
  li_mi : MI (apply_batch b (db_map (st_db s0))) H (st_compactRev s);
  li_H0 : ∀ x, x ∈ H0 → x ∈ H;
  li_old : ∀ kv, kv ∈ plog (apply_batch b (db_map (st_db s0))) →
    decodeLogKey kv.1 ≤ st_currentRev s0 → kv ∈ plog (db_map (st_db s0));
  li_cur : ∀ x, x ∈ H → 0 < x.1 ≤ Z.max (st_currentRev s0) mr;
  li_mr : mr = 0 ∨ st_currentRev s0 < mr ∧ valid_rev (mr + 1);
  li_mq : mq = 0 ∨ st_lastSeq s0 < mq ∧ valid_rev mq;
  li_le : Z.max (st_currentRev s0) mr ≤ Z.max (st_lastSeq s0) mq;
  li_metac : meta_is (apply_batch b (db_map (st_db s0))) metaCompactKey (st_compactRev s);
  li_meta : ∀ k, k ∈ [metaCurrentRevKey; metaLastSeqKey] →
    apply_batch b (db_map (st_db s0)) !! k = db_map (st_db s0) !! k }.

Lemma loop_inv_init s H : Rel s H → loop_inv s H [] 0 0 s H.
Proof using.
  intros [Hmi Hcur [Hb Hb'] Hq [Hc Hc'] Hmc Hmr Hmq]. split; try done; cbn [apply_batch fold_left]; try done.
  - by destruct s.
  - intros x Hx. specialize (Hcur x Hx). lia.
  - by left.
  - by left.
  - lia.
Qed.

Lemma set_compactRev_twice c c' s : set_compactRev c (set_compactRev c' s) = set_compactRev c s.
Proof using. by destruct s. Qed.

(** The batch of an entry writes log keys at its revision and index keys. *)
Definition entry_batch (e : Entry) : batch :=
  if e_Op e =? OpTxn then
    match DecodeTxnOps (e_Value e) with Ok ops => txn_batch (e_Revision e) 0 ops | Err _ => [] end
  else write_record (logKey (e_Revision e)) (e_Revision e) (entry_record e).

Definition touches (rev : Z) (o : bop) : Prop :=
  (∃ sub, valid_sub sub ∧ bop_key o = lkey rev sub) ∨ ∃ key, bop_key o = idxKey key.

Lemma write_touches lk rev sub r :
  lk = lkey rev sub → valid_sub sub → ∀ o, o ∈ write_record lk rev r → touches rev o.
Proof using.
  intros -> Hs o [->|Ho]%elem_of_cons; [left; by exists sub|].
  apply list_elem_of_singleton in Ho as ->. right. exists (rc_key r). by destruct (rc_delete r).
Qed.

Lemma txn_touches rev ops : ∀ i o, o ∈ txn_batch rev i ops → touches rev o.
Proof using.
  induction ops as [|x ops IH]; intros i o; cbn [txn_batch]; [by intros ?%not_elem_of_nil|].
  intros [Ho|Ho]%elem_of_app; [|by apply (IH (i + 1))].
  apply (write_touches (logKeyWithSub rev (u16 i)) rev (Some (u16 i)) (subop_record x));
    [reflexivity| |exact Ho].
  unfold valid_sub, u16. apply Z.mod_pos_bound. lia.
Qed.

Lemma entry_batch_touches e o : o ∈ entry_batch e → touches (e_Revision e) o.
Proof using.
  unfold entry_batch. case_match.
  - destruct (DecodeTxnOps _); [apply txn_touches|by intros ?%not_elem_of_nil].
  - by apply (write_touches _ _ None).
Qed.

Lemma applyEntry_batch b e : entry_ok e → applyEntry b e = Ok (b ++ entry_batch e).
Proof using.
  unfold entry_ok, applyEntry, applyTxnEntry, entry_batch. case_match; [|done].
  by destruct (DecodeTxnOps (e_Value e)).
Qed.

Lemma touches_not_meta rev o k :
  valid_rev rev → touches rev o → k ∈ [metaCurrentRevKey; metaCompactKey; metaLastSeqKey] →
  bop_key o ≠ k.
Proof using.
  intros Hv [(sub & _ & ->)|[key ->]] Hk <-.
  - apply meta_not_log in Hk. by apply Hk, lkey_in_log.
  - by apply (idxKey_not_meta _ key) in Hk.
Qed.

Lemma entry_batch_meta e m k :
  valid_rev (e_Revision e) → k ∈ [metaCurrentRevKey; metaCompactKey; metaLastSeqKey] →
  apply_batch (entry_batch e) m !! k = m !! k.
Proof using.
  intros Hv Hk. apply apply_batch_other. intros o Ho.
  by apply (touches_not_meta (e_Revision e)); [|apply entry_batch_touches|].
Qed.

Lemma entry_batch_old e m kv :
  valid_rev (e_Revision e) → kv ∈ plog (apply_batch (entry_batch e) m) →
  decodeLogKey kv.1 ≠ e_Revision e → kv ∈ plog m.
Proof using.
  destruct kv as [k v]. intros Hv Hin Hne. unfold plog in *.
  apply elem_of_range in Hin as (Hm & Hr). apply elem_of_range. split; [|done].
  rewrite <- Hm. symmetry. apply apply_batch_other. intros o Ho <-.
  destruct (entry_batch_touches e o Ho) as [(sub & _ & Hk)|[key Hk]]; rewrite Hk in *.
  - apply Hne. by apply decodeLogKey_lkey.
  - by apply (idxKey_not_log key).
Qed.

Lemma MI_entry e m H c :
  MI m H c → e_Op e ≠ OpCompact → entry_ok e → valid_rev (e_Revision e + 1) → 0 < e_Revision e →
  (∀ x, x ∈ H → x.1 < e_Revision e) →
  MI (apply_batch (entry_batch e) m) (H ++ entry_log e) c.
Proof using.
  intros Hmi Hne Hok Hv Hp HH. unfold entry_ok, entry_batch, entry_log in *.
  apply Z.eqb_neq in Hne. rewrite Hne.
  pose proof (log_below_intro m H c (e_Revision e) Hmi HH) as Hb.
  assert (valid_rev (e_Revision e)) by (unfold valid_rev in *; lia).
  destruct (e_Op e =? OpTxn).
  - destruct (DecodeTxnOps (e_Value e)) as [ops|]; [|done]. destruct Hok as (Hlen & Hwf & Hnd).
    apply MI_txn; try done. intros x Hx. specialize (HH x Hx). lia.
  - change (logKey (e_Revision e)) with (lkey (e_Revision e) None). apply MI_append; try done.
    + apply (log_below_lt m (e_Revision e) 0); [done|lia|by right|done].
    + intros x Hx. specialize (HH x Hx). lia.
Qed.

(** Deletions of superseded entries do not touch metadata. *)
Lemma deletes_meta m0 H c ks m k :
  (∀ x, x ∈ ks → superseded m0 H c x) →
  k ∈ [metaCurrentRevKey; metaCompactKey; metaLastSeqKey] →
  apply_batch (map BDel ks) m !! k = m !! k.
Proof using.
  intros Hks Hk. apply apply_batch_other. intros o Ho.
  apply (list_elem_of_fmap_1 BDel) in Ho as (x & -> & Hx). cbn. intros ->.
  destruct (Hks k Hx) as (rev & sub & r & (Hv & Hp & _ & _ & Heq%(f_equal fst)) & _). cbn [fst] in Heq.
  subst k. apply meta_not_log in Hk. apply Hk, lkey_in_log. unfold valid_rev in *. lia.
Qed.

Lemma loop_compact s0 H0 b mr mq s H c' q ks :
  Rel s0 H0 → loop_inv s0 H0 b mr mq s H →
  st_compactRev s ≤ c' → valid_rev (c' + 1) → Z.max (st_lastSeq s0) mq < q → valid_rev q →
  (∀ k, k ∈ ks → superseded (db_map (st_db s0)) H0 c' k) →
  loop_inv s0 H0 (b ++ [BSet metaCompactKey (encodeRev c')] ++ map BDel ks) mr q (set_compactRev c' s) H.
Proof using POk.
  intros HR [Hs Hc Hmi HH0 Hold Hcur Hmr Hmq Hle Hmc Hme] Hcle Hcv Hq Hvq Hks.
  set (mb := apply_batch b (db_map (st_db s0))) in *.
  assert (∀ b', apply_batch (b ++ [BSet metaCompactKey (encodeRev c')] ++ b') (db_map (st_db s0)) =
    apply_batch b' (apply_batch [BSet metaCompactKey (encodeRev c')] mb)) as Hb
    by (intros b'; by rewrite !apply_batch_app).
  set (mb1 := apply_batch [BSet metaCompactKey (encodeRev c')] mb).
  assert (plog mb1 = plog mb) as Hp1
    by (apply (plog_bop_other mb (BSet metaCompactKey (encodeRev c'))), meta_not_log; set_solver).
  assert (MI mb1 H c') as Hmi1.
  { apply (MI_meta mb H c' (BSet metaCompactKey (encodeRev c'))); [|set_solver].
    by apply (MI_raise _ _ (st_compactRev s)). }
  destruct (MI_deletes (db_map (st_db s0)) H0 H c' ks mb1) as [Hmi2 Hsub]; [done|done| |done|].
  { intros k v Hk Hin. apply Hold; [by rewrite <- Hp1|].
    destruct (Hks k Hk) as (rev & sub & r & He & Hin0 & _).
    destruct (plog_entry _ _ _ (re_mi _ _ HR) _ Hin0) as (rev' & sub' & r' & _ & Hd & HinH).
    apply (re_cur _ _ HR) in HinH. apply (f_equal fst) in Hd. cbn [decode_kv fst] in *. lia. }
  split; rewrite ?Hb; cbn [st_compactRev set_compactRev]; try done.
  - rewrite Hs. by destruct s0.
  - split; [lia|done].
  - intros kv Hkv Hrev. apply Hold; [|done]. rewrite <- Hp1. by apply Hsub.
  - right. split; [lia|done].
  - lia.
  - unfold meta_is. rewrite (deletes_meta _ _ _ _ _ _ Hks) by set_solver.
    unfold mb1. cbn. by rewrite lookup_insert_eq.
  - intros k Hk. rewrite (deletes_meta _ _ _ _ _ _ Hks) by set_solver. rewrite <- Hme by done.
    unfold mb1. cbn. apply lookup_insert_ne. intros <-.
    repeat (apply elem_of_cons in Hk as [Hk|Hk]; [discriminate Hk|]). by apply not_elem_of_nil in Hk.
Qed.

Lemma loop_entry s0 H0 b mr mq s H e :
  Rel s0 H0 → loop_inv s0 H0 b mr mq s H → e_Op e ≠ OpCompact → entry_ok e →
  Z.max (st_currentRev s0) mr < e_Revision e ≤ Sequence e → valid_rev (e_Revision e + 1) →
  Z.max (st_lastSeq s0) mq < Sequence e → valid_rev (Sequence e) →
  loop_inv s0 H0 (b ++ entry_batch e) (e_Revision e) (Sequence e) s (H ++ entry_log e).
Proof using.
  intros HR [Hs Hc Hmi HH0 Hold Hcur Hmr Hmq Hle Hmc Hme] Hne Hok Hrev Hv Hq Hvq.
  pose proof (re_bound _ _ HR) as [Hb0 Hb1].
  assert (valid_rev (e_Revision e)) as Hv' by (unfold valid_rev in *; lia).
  assert (apply_batch (b ++ entry_batch e) (db_map (st_db s0)) =
    apply_batch (entry_batch e) (apply_batch b (db_map (st_db s0)))) as Hb by apply apply_batch_app.
  split; rewrite ?Hb; try done.
  - apply MI_entry; try done; [lia|]. intros x Hx. specialize (Hcur x Hx). lia.
  - intros x Hx. apply elem_of_app. left. by apply HH0.
  - intros kv Hkv Hle'. apply Hold; [|done]. apply (entry_batch_old e _ _ Hv' Hkv). lia.
  - intros x [Hx|Hx]%elem_of_app; [specialize (Hcur x Hx); lia|].
    assert (x.1 = e_Revision e) as ->; [|lia].
    unfold entry_log in Hx. apply Z.eqb_neq in Hne. rewrite Hne in Hx. case_match.
    + destruct (DecodeTxnOps _); [|by apply not_elem_of_nil in Hx].
      by apply (list_elem_of_fmap_1 (λ o, (e_Revision e, subop_record o))) in Hx as (o & -> & _).
    + by apply list_elem_of_singleton in Hx as ->.
  - right. split; [lia|done].
  - right. split; [lia|done].
  - lia.
  - unfold meta_is in *. rewrite entry_batch_meta by (done || set_solver). done.
  - intros k Hk. rewrite entry_batch_meta by (done || set_solver). by apply Hme.
Qed.

Lemma bump_max_gt m x : m < x → bump_max m x = x.
Proof using. intros. unfold bump_max. destruct (Z.ltb_spec m x); lia. Qed.

(** One entry keeps the invariant, or fails without an effect. *)
Lemma apply_one_inv s0 H0 b mr mq s H e es r s' :
  Rel s0 H0 → loop_inv s0 H0 b mr mq s H →
  batch_ok (Z.max (st_currentRev s0) mr) (Z.max (st_lastSeq s0) mq) (st_compactRev s) (e :: es) →
  apply_one (b, mr, mq) e s = (r, s') →
  match r with
  | Ok (b', mr', mq') => loop_inv s0 H0 b' mr' mq' s' (H ++ entry_log e) ∧
      batch_ok (Z.max (st_currentRev s0) mr') (Z.max (st_lastSeq s0) mq') (st_compactRev s') es
  | Err _ => s' = s
  end.
Proof using POk.
  intros HR Hli (Hseq & Hvseq & Hb).
  pose proof (re_bound _ _ HR) as [Hb0 Hb1]. pose proof (re_compact _ _ HR) as [Hc0 Hc1].
  pose proof (li_c _ _ _ _ _ _ _ Hli) as [Hc Hcv].
  assert (bump_max mq (Sequence e) = Sequence e) as Hbump by (apply bump_max_gt; lia).
  unfold apply_one. unfold mbind, ST_bind, mret, ST_ret, from_result.
  destruct (e_Op e =? OpCompact) eqn:Eop; rewrite ?Hbump.
  - destruct Hb as (Hcle & Hcv' & Hb). destruct (applyCompact _ _ _) as [r1 s1] eqn:Ha.
    apply (applyCompact_spec s H0) in Ha; [|rewrite (li_s _ _ _ _ _ _ _ Hli)|lia..|done].
    2:{ cbn. apply (MI_raise _ _ (st_compactRev s0)); [apply HR|done]. }
    destruct r1 as [b'|er]; [|by intros [= <- <-]].
    destruct Ha as (-> & ks & -> & Hks). intros [= <- <-].
    replace (st_db s) with (st_db s0) in Hks by by rewrite (li_s _ _ _ _ _ _ _ Hli).
    unfold entry_log. rewrite Eop, app_nil_r. split; [by apply (loop_compact _ _ _ _ mq)|].
    cbn [set_compactRev st_compactRev]. by rewrite (Z.max_r _ (Sequence e)) by lia.
  - destruct Hb as (Hrev & Hv & Hok & Hb). rewrite applyEntry_batch by done.
    rewrite bump_max_gt by lia.
    intros [= <- <-]. split; [apply (loop_entry _ _ _ mr mq); try done; by apply Z.eqb_neq|].
    by rewrite !Z.max_r by lia.
Qed.

Lemma apply_loop_inv s0 H0 es : ∀ b mr mq s H r s',
  Rel s0 H0 → loop_inv s0 H0 b mr mq s H →
  batch_ok (Z.max (st_currentRev s0) mr) (Z.max (st_lastSeq s0) mq) (st_compactRev s) es →
  apply_loop es (b, mr, mq) s = (r, s') →
  match r with
  | Ok (b', mr', mq') => loop_inv s0 H0 b' mr' mq' s' (H ++ batch_log es)
  | Err _ => s' = set_compactRev (st_compactRev s') s0 ∧ st_compactRev s0 ≤ st_compactRev s'
  end.
Proof using POk.
  induction es as [|e es IH]; intros b mr mq s H r s' HR Hli Hb; cbn [apply_loop].
  { intros [= <- <-]. cbn. by rewrite app_nil_r. }
  unfold mbind, ST_bind. destruct (apply_one _ _ _) as [r1 s1] eqn:E1.
  apply (apply_one_inv s0 H0 _ _ _ _ H e es) in E1; [|done..].
  destruct r1 as [[[b' mr'] mq']|er].
  - destruct E1 as [Hli' Hb']. intros Hrest. unfold batch_log. cbn [flat_map]. rewrite app_assoc.
    by apply (IH b' mr' mq' s1 (H ++ entry_log e)).
  - intros [= <- <-]. subst s1. split; [apply Hli|apply Hli].
Qed.

(** ** Commit *)

Definition commit_batch (b : batch) (mr mq : Z) : batch :=
  b ++ (if 0 <? mr then [BSet metaCurrentRevKey (encodeRev mr)] else []) ++
       (if 0 <? mq then [BSet metaLastSeqKey (encodeRev mq)] else []).

Lemma commitBatch_unfold b mr mq sync s :
  commitBatch b mr mq sync s =
  let '(r, d) := db_commit sync (commit_batch b mr mq) (st_db s) in
  match r with
  | Ok _ => (Ok tt, set_revs (bump_max (st_currentRev s) mr) (bump_max (st_lastSeq s) mq) (set_db d s))
  | Err e => (Err e, set_db d s)
  end.
Proof using.
  unfold commitBatch, commit_batch.
  replace (if 0 <? mq then _ else _) with
    (b ++ (if 0 <? mr then [BSet metaCurrentRevKey (encodeRev mr)] else []) ++
       (if 0 <? mq then [BSet metaLastSeqKey (encodeRev mq)] else []))
    by (destruct (0 <? mr), (0 <? mq); cbn; by rewrite ?app_nil_r, <- ?app_assoc).
  unfold mbind, ST_bind, zoom, modify. by destruct (db_commit _ _ _) as [[[]|e] d].
Qed.

Lemma commit_map_spec s0 H0 b mr mq s H m' :
  Rel s0 H0 → loop_inv s0 H0 b mr mq s H →
  m' = apply_batch (commit_batch b mr mq) (db_map (st_db s0)) →
  MI m' H (st_compactRev s) ∧ meta_is m' metaCompactKey (st_compactRev s) ∧
  meta_is m' metaCurrentRevKey (bump_max (st_currentRev s0) mr) ∧
  meta_is m' metaLastSeqKey (bump_max (st_lastSeq s0) mq).
Proof using.
  intros HR [Hs Hc Hmi HH0 Hold Hcur Hmr Hmq Hle Hmc Hme] ->.
  pose proof (re_bound _ _ HR) as [Hb0 Hb1]. unfold commit_batch. rewrite !apply_batch_app.
  set (mb := apply_batch b (db_map (st_db s0))) in *.
  assert (bump_max (st_currentRev s0) mr = if 0 <? mr then mr else st_currentRev s0) as ->.
  { unfold bump_max. destruct (Z.ltb_spec (st_currentRev s0) mr), (Z.ltb_spec 0 mr); lia. }
  assert (bump_max (st_lastSeq s0) mq = if 0 <? mq then mq else st_lastSeq s0) as ->.
  { unfold bump_max. destruct (Z.ltb_spec (st_lastSeq s0) mq), (Z.ltb_spec 0 mq); lia. }
  pose proof (re_metar _ _ HR) as Hr. pose proof (re_metaq _ _ HR) as Hq. unfold meta_is in *.
  rewrite <- (Hme metaCurrentRevKey) in Hr by (by left).
  rewrite <- (Hme metaLastSeqKey) in Hq by (by right; left).
  split.
  - assert (∀ m k v, k ∈ [metaCurrentRevKey; metaCompactKey; metaLastSeqKey] →
      MI m H (st_compactRev s) → MI (apply_batch [BSet k v] m) H (st_compactRev s)) as Hset
      by (intros m k v Hk Hm; by apply (MI_meta m H _ (BSet k v))).
    destruct (0 <? mr), (0 <? mq); repeat (apply Hset; [set_solver|]); done.
  - destruct (0 <? mr), (0 <? mq); cbn;
      repeat first [rewrite lookup_insert_eq | rewrite lookup_insert_ne by discriminate]; done.
Qed.

Lemma Apply_unfold es s : es ≠ [] →
  Apply es s =
  match apply_loop es ([], 0, 0) s with
  | (Ok (b, mr, mq), s1) =>
      match commitBatch b mr mq false s1 with
      | (Ok _, s2) => (Ok tt, broadcast s2)
      | (Err e, s2) => (Err e, s2)
      end
  | (Err e, s1) => (Err e, s1)
  end.
Proof using.
  destruct es as [|e es]; [done|]. intros _. unfold Apply, mbind, ST_bind, modify.
  destruct (apply_loop _ _ _) as [[[[b mr] mq]|er] s1]; [|done]. cbv beta iota.
  by destruct (commitBatch _ _ _ _ _) as [[[]|er] s2].
Qed.
End Apply.
