(* ===== verification/StoreRead.v ===== *)
(** * Reads agree with the history

    Every read of the store, at the current revision or at an earlier one,
    returns what the history says, or fails; over a Pebble instance on which
    no call fails it does not fail. *)

From S2P Require Import Prelude Bytes WalEntry Os Pebble StoreKeys Store StoreSpec StoreInv.

(** ** Generic facts *)

Lemma encode_decodeRev rev : valid_rev rev → decodeRev (encodeRev rev) = rev.
Proof.
  intros Hv. unfold decodeRev, encodeRev. rewrite take_ge by (by rewrite length_be).
  apply i64_unbe_be_u64. unfold is_i64, valid_rev in *. lia.
Qed.

Lemma NoDup_fmap_inj_elem {A B} (f : A → B) (l : list A) x y :
  NoDup (map f l) → x ∈ l → y ∈ l → f x = f y → x = y.
Proof.
  intros Hnd Hx Hy Hf. induction l as [|z l IH]; [by apply not_elem_of_nil in Hx|].
  cbn in Hnd. apply NoDup_cons in Hnd as [Hni Hnd].
  apply elem_of_cons in Hx as [->|Hx], Hy as [->|Hy]; [done| | |by apply IH].
  - exfalso. apply Hni. rewrite Hf. by apply (list_elem_of_fmap_2 f).
  - exfalso. apply Hni. rewrite <- Hf. by apply (list_elem_of_fmap_2 f).
Qed.

Lemma drop_idxKey key : drop 1 (idxKey key) = key.
Proof. done. Qed.

Section Read.
Context {DB : Type} `{PI : Pebble DB} `{POk : !PebbleOk DB}.
Implicit Types s : Store DB.

(** The read returns [a], or fails because of the database. *)
Definition reads {A} s (res : result A) (a : A) : Prop :=
  match res with Ok x => x = a | Err _ => ¬ healthy (st_db s) end.

Lemma reads_ret {A} s (a : A) : reads s (Ok a) a.
Proof using. done. Qed.

Lemma reads_bind {A B} s (res : result A) (f : A → result B) a b :
  reads s res a → reads s (f a) b → reads s (res ≫= f) b.
Proof using. destruct res; cbn; [by intros ->|done]. Qed.

Lemma reads_healthy {A} s (res : result A) a : reads s res a → healthy (st_db s) → res = Ok a.
Proof using. destruct res; cbn; [by intros ->|done]. Qed.

Lemma reads_get s k : reads s (db_get k (st_db s)) (db_map (st_db s) !! k).
Proof using.
  destruct (db_get _ _) as [v|e] eqn:E; cbn.
  - symmetry. by apply db_get_law.
  - intros [Hg _]. rewrite Hg in E. done.
Qed.

(** An iterator yields its range, or stops early because of the database. *)
Definition iter_ok s (it : iterator) (l : list (bytes * bytes)) : Prop :=
  match it_err it with
  | None => it_fwd it = l ∧ it_bwd it = reverse l
  | Some _ => ¬ healthy (st_db s) ∧ it_fwd it `prefix_of` l ∧ it_bwd it `prefix_of` reverse l
  end.

Lemma iter_cases s lo hi :
  match db_iter lo hi (st_db s) with
  | Ok it => iter_ok s it (range lo hi (db_map (st_db s)))
  | Err _ => ¬ healthy (st_db s)
  end.
Proof using.
  destruct (db_iter _ _ _) as [it|e] eqn:E.
  - pose proof (db_iter_law _ _ _ _ E) as Hl. unfold iter_ok. destruct (it_err it) eqn:Ee; [|done].
    split; [|done]. intros [_ Hi]. rewrite Hi in E. injection E as <-. done.
  - intros [_ Hi]. rewrite Hi in E. done.
Qed.

(** A loop over a whole iterator followed by [iter.Error()]. *)
Lemma reads_iter {A} s lo hi (f : list (bytes * bytes) → result A) a :
  (∀ l, l = range lo hi (db_map (st_db s)) → reads s (f l) a) →
  reads s (it ← db_iter lo hi (st_db s); x ← f (it_fwd it); iter_end it x) a.
Proof using.
  intros Hf. pose proof (iter_cases s lo hi) as Hit. destruct (db_iter _ _ _) as [it|e]; [|done].
  unfold iter_ok in Hit. cbn. unfold iter_end. destruct (it_err it).
  - destruct (f _); cbn; apply Hit.
  - destruct Hit as [-> _]. specialize (Hf _ eq_refl). by destruct (f _).
Qed.

Section Rel.
Context (s : Store DB) (H : hist) (HR : Rel s H).
Local Notation m := (db_map (st_db s)).

Lemma log_values_decode (l : list (bytes * bytes)) kv :
  (∀ x, x ∈ l → x ∈ plog m) → kv ∈ l → ∃ rev sub r, log_entry kv rev sub r ∧ (rev, r) ∈ H ∧
    decode_kv kv = (rev, r) ∧ decodeLogKey kv.1 = rev ∧ unmarshalRecord kv.2 = Ok r.
Proof using HR.
  intros Hl Hin. destruct (plog_entry m H _ (re_mi _ _ HR) kv (Hl _ Hin)) as (rev & sub & r & He & Hd & HH).
  exists rev, sub, r. split_and!; [done..| |].
  - by apply (f_equal fst) in Hd.
  - destruct He as (_ & _ & _ & Hwf & ->). by apply unmarshal_marshalRecord.
Qed.

(** Records of the history with the same revision and key are equal. *)
Lemma hist_unique rev r r' : (rev, r) ∈ H → (rev, r') ∈ H → rc_key r = rc_key r' → r = r'.
Proof using HR.
  intros H1 H2 Hk. pose proof (mi_uniq _ _ _ (re_mi _ _ HR)) as Hnd.
  assert ((rev, r) = (rev, r')) as Heq; [|by injection Heq].
  apply (NoDup_fmap_inj_elem (λ x, (x.1, rc_key x.2)) H); [done..|]. cbn. by rewrite Hk.
Qed.

(** ** Point reads *)

Lemma find_subop_spec key rev (l : list (bytes * bytes)) :
  (∀ kv, kv ∈ l → kv ∈ plog m ∧ decodeLogKey kv.1 = rev) →
  (∀ kv, find_subop key rev l = Some kv → ∀ r, (rev, r) ∈ H → rc_key r = key → kv = recordToKV key rev r) ∧
  (∀ sub r, (lkey rev sub, marshalRecord r) ∈ l → wf_record r → rc_key r = key →
     is_Some (find_subop key rev l)).
Proof using HR.
  induction l as [|[k v] l IH]; intros Hl.
  { split; [done|]. by intros sub r ?%not_elem_of_nil. }
  destruct IH as [IH1 IH2]; [intros kv Hkv; apply Hl; by right|].
  destruct (Hl (k, v)) as [Hin Hrev]; [by left|].
  destruct (log_values_decode [(k, v)] (k, v)) as (rev' & sub' & r' & He & HinH & _ & Hd & Hu);
    [by intros x ->%list_elem_of_singleton|by left|]. cbn [fst snd] in *.
  assert (rev' = rev) as -> by congruence. cbn [find_subop]. rewrite Hu.
  case_bool_decide as Ek; split.
  - intros kv [= <-] r Hr Hrk. f_equal. apply (hist_unique rev); [done..|congruence].
  - by eauto.
  - done.
  - intros sub r [Heq%(f_equal snd)|Hr]%elem_of_cons Hwf Hk; [|by apply (IH2 sub r)].
    cbn [snd] in Heq. subst v. rewrite unmarshal_marshalRecord in Hu by done. congruence.
Qed.

Lemma getLogEntry_reads rev r :
  (rev, r) ∈ alog m → reads s (getLogEntry s (rc_key r) rev) (recordToKV (rc_key r) rev r).
Proof using HR.
  intros Hin. pose proof (re_mi _ _ HR) as Hmi.
  pose proof (mi_sub _ _ _ Hmi _ Hin) as HinH.
  destruct (alog_elem _ _ _ Hmi _ _ Hin) as (sub & Hp & Hv & Hp0 & Hs & Hwf & _).
  assert (valid_rev rev) as Hvr by (unfold valid_rev in *; lia).
  unfold getLogEntry. eapply reads_bind; [apply reads_get|].
  destruct (m !! logKey rev) as [v|] eqn:Ev.
  - assert ((lkey rev None, v) ∈ plog m) as Hv' by by apply plog_lkey.
    destruct sub as [i|]; [exfalso; by apply (mi_single _ _ _ Hmi rev i v (marshalRecord r))|].
    apply plog_lookup in Hp. cbn [lkey] in Hp. rewrite Ev in Hp. apply (inj Some) in Hp as ->.
    rewrite unmarshal_marshalRecord by done. apply reads_ret.
  - destruct sub as [i|]; [|apply plog_lookup in Hp; cbn [lkey] in Hp; congruence].
    rewrite i64_id by (unfold is_i64, valid_rev in *; lia).
    pose proof (iter_cases s (logKeyWithSub rev 0) (logKey (rev + 1))) as Hit.
    rewrite (range_subs _ H (st_compactRev s)) in Hit by (done || lia).
    destruct (db_iter _ _ _) as [it|e]; [|done]. unfold mbind, result_bind.
    set (l := filter _ (plog m)) in Hit.
    assert (∀ kv, kv ∈ l → kv ∈ plog m ∧ decodeLogKey kv.1 = rev) as Hl
      by (intros kv Hkv; apply list_elem_of_filter in Hkv; tauto).
    assert (∀ kv, kv ∈ it_fwd it → kv ∈ plog m ∧ decodeLogKey kv.1 = rev) as Hl'.
    { intros kv Hkv. apply Hl. unfold iter_ok in Hit. destruct (it_err it).
      - destruct Hit as (_ & [k ->] & _). apply elem_of_app. by left.
      - by destruct Hit as [<- _]. }
    destruct (find_subop_spec (rc_key r) rev (it_fwd it) Hl') as [Hf Hs'].
    destruct (find_subop _ _ _) as [kv|] eqn:Ef; [cbn; by apply Hf|]. cbn.
    intros Hh. unfold iter_ok in Hit. destruct (it_err it); [by apply Hit|]. destruct Hit as [Hfw _].
    destruct (Hs' (Some i) r) as [? [=]]; [|done..]. rewrite Hfw.
    apply list_elem_of_filter. split; [|done]. cbn [fst]. rewrite decodeLogKey_lkey by done.
    split; [done|]. intros Heq. apply (lkey_inj rev (Some i) rev None) in Heq as [_ [=]]; done.
Qed.

Lemma newest_alog key x : newest H key = Some x → x ∈ alog m.
Proof using HR.
  intros Hx. pose proof (re_mi _ _ HR) as Hmi.
  rewrite <- (last_at_newest H key (Z.max (st_currentRev s) (st_compactRev s))) in Hx.
  - rewrite <- (mi_last _ _ _ Hmi) in Hx by lia. by apply last_at_elem in Hx as (? & _).
  - intros y Hy. apply (re_cur _ _ HR) in Hy. lia.
Qed.

Lemma value_at_current key : value_at H key (st_currentRev s) = live (newest H key).
Proof using HR.
  unfold value_at. rewrite last_at_newest; [done|]. intros x Hx. apply (re_cur _ _ HR) in Hx. lia.
Qed.

Lemma getIdxRev_reads key :
  reads s (getIdxRev s key)
    (match newest H key with Some (rev, r) => if rc_delete r then 0 else rev | None => 0 end).
Proof using HR.
  unfold getIdxRev. eapply reads_bind; [apply reads_get|]. cbn.
  rewrite (mi_idx _ _ _ (re_mi _ _ HR)). unfold idx_of.
  destruct (newest H key) as [[rev r]|] eqn:E; [|done]. destruct (rc_delete r); [done|].
  apply newest_alog, (mi_sub _ _ _ (re_mi _ _ HR)), (re_cur _ _ HR) in E. cbn in E.
  pose proof (re_bound _ _ HR). apply encode_decodeRev. unfold valid_rev in *. lia.
Qed.

Lemma Get_reads key : reads s (Get s key) (value_at H key (st_currentRev s)).
Proof using HR.
  rewrite value_at_current. unfold Get. eapply reads_bind; [apply getIdxRev_reads|].
  destruct (newest H key) as [[rev r]|] eqn:E; [|done]. cbn [live].
  destruct (rc_delete r); [done|]. pose proof (newest_alog _ _ E) as Hin.
  assert (rc_key r = key) as <-.
  { unfold newest in E. apply last_Some_elem_of, list_elem_of_filter in E. apply E. }
  pose proof (re_cur _ _ HR _ (mi_sub _ _ _ (re_mi _ _ HR) _ Hin)) as Hc. cbn in Hc.
  destruct (Z.eqb_spec rev 0); [lia|].
  eapply reads_bind; [by apply getLogEntry_reads|]. done.
Qed.

(** ** Reads at an earlier revision *)

Lemma latest_record_spec key (l : list (bytes * bytes)) :
  (∀ kv, kv ∈ l → kv ∈ plog m) →
  latest_record key l =
  Ok (match head (filter (of_key key) (map decode_kv l)) with
      | Some x => Some (live (Some x)) | None => None end).
Proof using HR.
  induction l as [|[k v] l IH]; intros Hl; [done|].
  destruct (log_values_decode _ (k, v) Hl) as (rev & sub & r & _ & _ & Hd & Hk & Hu); [by left|].
  cbn [fst snd] in *. cbn [latest_record map]. rewrite Hu, Hd, Hk, filter_cons. unfold of_key at 1. cbn.
  case_bool_decide as E; [rewrite decide_True by done|rewrite decide_False by done].
  - cbn. by destruct (rc_delete r).
  - apply IH. intros kv Hkv. apply Hl. by right.
Qed.

(** The log entries at or before a revision above the watermark, as the
    history sees them. *)
Lemma log_upto key rev :
  st_compactRev s ≤ rev → valid_rev (rev + 1) →
  last (filter (of_key key) (map decode_kv (range logLower (logKey (rev + 1)) m))) = last_at H key rev.
Proof using HR.
  intros Hc Hv. pose proof (re_mi _ _ HR) as Hmi. rewrite <- (mi_last _ _ _ Hmi) by done.
  rewrite (range_below _ H (st_compactRev s)) by done. unfold last_at, alog. f_equal.
  rewrite !map_filter_comm, list_filter_filter. f_equal. apply list_filter_iff. intros kv.
  unfold of_key, at_or_before, decode_kv. cbn [fst snd]. intuition lia.
Qed.

Lemma getAtRevision_reads key rev :
  st_compactRev s ≤ rev → valid_rev (rev + 1) → reads s (getAtRevision s key rev) (value_at H key rev).
Proof using HR.
  intros Hc Hv. unfold getAtRevision. rewrite i64_id by (unfold is_i64, valid_rev in *; lia).
  pose proof (iter_cases s logLower (logKey (rev + 1))) as Hit.
  destruct (db_iter _ _ _) as [it|e]; [|done]. unfold mbind, result_bind.
  set (L := range logLower (logKey (rev + 1)) m) in *.
  assert (∀ kv, kv ∈ L → kv ∈ plog m) as HL.
  { intros kv. unfold L. rewrite (range_below _ H (st_compactRev s)) by (done || apply HR).
    rewrite list_elem_of_filter. tauto. }
  assert (∃ tl, reverse L = it_bwd it ++ tl ∧ (it_err it = None → tl = [])) as (tl & Htl & Htl').
  { unfold iter_ok in Hit. destruct (it_err it).
    - destruct Hit as (_ & _ & [k Hk]). by exists k.
    - destruct Hit as [_ ->]. exists []. by rewrite app_nil_r. }
  rewrite latest_record_spec.
  2:{ intros kv Hkv. apply HL, elem_of_reverse. rewrite Htl. apply elem_of_app. by left. }
  assert (head (filter (of_key key) (map decode_kv (reverse L))) = last_at H key rev) as Hlast.
  { rewrite <- (log_upto key rev) by done. fold L. rewrite <- head_reverse. f_equal.
    change (map decode_kv) with (fmap (M:=list) decode_kv). rewrite fmap_reverse. apply filter_reverse. }
  rewrite Htl, map_app, filter_app, head_app in Hlast.
  destruct (head (filter (of_key key) (map decode_kv (it_bwd it)))) as [x|].
  - cbn. unfold value_at. by rewrite <- Hlast.
  - unfold iter_end. unfold iter_ok in Hit. destruct (it_err it); cbn; [apply Hit|].
    rewrite Htl' in Hlast by done. unfold value_at. by rewrite <- Hlast.
Qed.

(** ** Resolving a revision *)

(** A read at [revision], 0 for the current one: the answer [a], or the error
    of a revision out of range. *)
Definition reads_at {A} (revision : Z) (res : result A) (a : A) : Prop :=
  if decide (revision < st_compactRev s) then res = Err ErrCompacted
  else if decide (st_currentRev s < revision) then res = Err ErrFutureRevision
  else reads s res a.

Lemma resolve_cases revision : 0 < revision →
  resolveReadRevision s revision =
  if decide (revision < st_compactRev s) then Err ErrCompacted
  else if decide (st_currentRev s < revision) then Err ErrFutureRevision else Ok revision.
Proof using.
  intros Hr. unfold resolveReadRevision.
  destruct (Z.eqb_spec revision 0); [lia|].
  destruct (Z.ltb_spec 0 (st_compactRev s)), (Z.ltb_spec revision (st_compactRev s)),
    (Z.ltb_spec (st_currentRev s) revision);
    repeat (case_decide; try lia); done.
Qed.

Lemma GetAt_reads key revision : 0 < revision →
  reads_at revision (GetAt s key revision) (value_at H key revision).
Proof using HR.
  intros Hr. unfold GetAt, reads_at. rewrite resolve_cases by done.
  repeat case_decide; [done..|]. cbn. destruct (Z.eqb_spec revision 0); [lia|].
  apply getAtRevision_reads; [lia|]. pose proof (re_bound _ _ HR). unfold valid_rev in *. lia.
Qed.

Lemma ExistsAt_reads key revision : 0 < revision →
  reads_at revision (ExistsAt s key revision) (bool_decide (is_Some (value_at H key revision))).
Proof using HR.
  intros Hr. unfold ExistsAt. pose proof (GetAt_reads key revision Hr) as Hg. unfold reads_at in *.
  destruct (Z.eqb_spec revision 0); [lia|].
  repeat case_decide; [by rewrite Hg..|]. by eapply reads_bind.
Qed.

Lemma Exists_reads key : reads s (Exists s key) (bool_decide (is_Some (value_at H key (st_currentRev s)))).
Proof using HR.
  rewrite value_at_current. unfold Exists. eapply reads_bind; [apply getIdxRev_reads|]. cbn.
  destruct (newest H key) as [[rev r]|] eqn:E; cbn [live]; [|by rewrite bool_decide_false by by intros []].
  destruct (rc_delete r); [by rewrite bool_decide_false by by intros []|].
  rewrite bool_decide_true by by eexists.
  apply newest_alog, (mi_sub _ _ _ (re_mi _ _ HR)), (re_cur _ _ HR) in E. cbn in E.
  by destruct (Z.eqb_spec rev 0); [lia|].
Qed.

(** ** The change log *)

(** The event of a record; its previous value is looked up in the log. *)
Definition event_of (withPrevKV : bool) (x : Z * record) : Event :=
  let r := x.2 in
  mkEvent (if rc_delete r then EventDelete else EventPut) (recordToKV (rc_key r) x.1 r)
    (if withPrevKV && (0 <? rc_prevRevision r) then
       match getLogEntry s (rc_key r) (rc_prevRevision r) with Ok p => Some p | Err _ => None end
     else None).

Lemma scan_loop_spec prefix w (l : list (bytes * bytes)) : ∀ evs n,
  (∀ kv, kv ∈ l → kv ∈ plog m) →
  scan_loop s prefix w l evs n =
  Ok (evs ++ map (event_of w) (filter (under prefix) (map decode_kv l)), n + zlen l).
Proof using HR.
  induction l as [|[k v] l IH]; intros evs n Hl.
  { cbn. rewrite app_nil_r. by rewrite Z.add_0_r. }
  destruct (log_values_decode _ (k, v) Hl) as (rev & sub & r & _ & _ & Hd & Hk & Hu); [by left|].
  assert (∀ kv, kv ∈ l → kv ∈ plog m) as Hl' by (intros kv Hkv; apply Hl; by right).
  cbn [fst snd] in *. cbn [scan_loop map]. rewrite Hu, Hd, Hk, filter_cons, zlen_cons.
  cbn [mbind result_bind]. destruct (decide (under prefix (rev, r))) as [E|E]; unfold under in E; cbn [snd] in E.
  - rewrite E. cbn [negb map]. rewrite IH by done. rewrite <- app_assoc. do 2 f_equal. lia.
  - apply not_true_is_false in E. rewrite E. cbn [negb]. rewrite IH by done. do 2 f_equal. lia.
Qed.

Lemma scanLog_reads prefix a b w :
  valid_rev a → valid_rev (b + 1) → 
  ∃ n, reads s (scanLog s prefix a b w)
    (map (event_of w) (filter (under prefix) (filter (λ x, a ≤ x.1 ≤ b) (alog m))), n).
Proof using HR.
  intros Ha Hb. unfold scanLog. rewrite i64_id by (unfold is_i64, valid_rev in *; lia).
  exists (zlen (range (logKey a) (logKey (b + 1)) m)).
  apply (reads_iter s (logKey a) (logKey (b + 1)) (λ l, scan_loop s prefix w l [] 0)).
  intros l ->. pose proof (re_mi _ _ HR) as Hmi.
  assert (map decode_kv (filter (λ kv, a ≤ decodeLogKey kv.1 < b + 1) (plog m)) =
    filter (λ x, a ≤ x.1 ≤ b) (alog m)) as Hw.
  { unfold alog. rewrite map_filter_comm. f_equal. apply list_filter_iff. intros kv.
    unfold decode_kv. cbn [fst]. lia. }
  rewrite scan_loop_spec; rewrite (range_revs _ H (st_compactRev s)) by done.
  - by rewrite Hw.
  - intros kv Hkv. apply list_elem_of_filter in Hkv. apply Hkv.
Qed.

Lemma alog_window a b : st_compactRev s ≤ a →
  filter (λ x, a ≤ x.1 ≤ b) (alog m) = filter (λ x, a ≤ x.1 ≤ b) H.
Proof using HR.
  intros Hc. pose proof (mi_tail _ _ _ (re_mi _ _ HR)) as Ht.
  assert (∀ l : hist, filter (λ x, a ≤ x.1 ≤ b) l =
    filter (λ x, a ≤ x.1 ≤ b) (filter (λ x, st_compactRev s ≤ x.1) l)) as Hf.
  { intros l. rewrite list_filter_filter. apply list_filter_iff. intros x. lia. }
  rewrite (Hf (alog m)), (Hf H). by rewrite Ht.
Qed.

Lemma window_clip (l : hist) a b :
  (∀ x, x ∈ l → x.1 ≤ st_currentRev s) →
  filter (λ x, a ≤ x.1 ≤ Z.min b (st_currentRev s)) l = filter (λ x, a ≤ x.1 ≤ b) l.
Proof using. intros Hl. apply filter_ext_in. intros x Hx. specialize (Hl x Hx). lia. Qed.

Lemma Changes_reads prefix a b :
  0 < a → a ≤ b → st_compactRev s ≤ a →
  reads s (Changes s prefix a b)
    (map (event_of true) (filter (under prefix) (filter (λ x, a ≤ x.1 ≤ b) H))).
Proof using HR.
  intros Ha Hab Hc. pose proof (re_bound _ _ HR) as [Hb0 Hb1].
  assert (∀ x, x ∈ H → x.1 ≤ st_currentRev s) as HH by (intros x Hx; apply (re_cur _ _ HR x Hx)).
  unfold Changes. destruct (Z.leb_spec a 0); [lia|]. destruct (Z.ltb_spec b a); [lia|].
  rewrite <- (window_clip H) by done.
  destruct ((st_currentRev s =? 0) || (st_currentRev s <? a)) eqn:E.
  - assert (filter (λ x, a ≤ x.1 ≤ Z.min b (st_currentRev s)) H = []) as ->; [|done].
    apply filter_nil_in. intros x _. apply orb_true_iff in E as [E|E]; lia.
  - apply orb_false_iff in E as [_ E].
    replace (if st_currentRev s <? b then st_currentRev s else b) with (Z.min b (st_currentRev s))
      by (destruct (Z.ltb_spec (st_currentRev s) b); lia).
    destruct (scanLog_reads prefix a (Z.min b (st_currentRev s)) true) as [n Hn];
      [unfold valid_rev in *; lia..|].
    eapply reads_bind; [exact Hn|]. cbn [fst]. by rewrite alog_window.
Qed.

(** The previous value of an event, when its record has not been compacted. *)
Lemma event_of_prev rev r r' :
  healthy (st_db s) → (rc_prevRevision r, r') ∈ H → rc_key r' = rc_key r → 0 < rc_prevRevision r →
  st_compactRev s ≤ rc_prevRevision r →
  ev_PrevKV (event_of true (rev, r)) = Some (recordToKV (rc_key r') (rc_prevRevision r) r').
Proof using HR.
  intros Hh Hin Hk Hp Hc. unfold event_of. cbn [snd fst ev_PrevKV andb].
  destruct (Z.ltb_spec 0 (rc_prevRevision r)); [|lia].
  assert ((rc_prevRevision r, r') ∈ alog m) as Ha.
  { assert ((rc_prevRevision r, r') ∈ filter (λ x, st_compactRev s ≤ x.1) (alog m)) as Hf.
    - rewrite (mi_tail _ _ _ (re_mi _ _ HR)). by apply list_elem_of_filter.
    - by apply list_elem_of_filter in Hf as [_ Hf]. }
  rewrite <- Hk. by rewrite (reads_healthy _ _ _ (getLogEntry_reads _ _ Ha) Hh).
Qed.

(** ** Range reads *)

(** The live pairs of the history at a revision under a prefix from a key on,
    in key order; there is one such list. *)
Definition listing (prefix fromKey : bytes) (rev : Z) (l : list KeyValue) : Prop :=
  StronglySorted (λ a b, bytes_lt (kv_Key a) (kv_Key b)) l ∧
  ∀ kv, kv ∈ l ↔ has_prefix prefix (kv_Key kv) = true ∧ bytes_le fromKey (kv_Key kv) ∧
                 value_at H (kv_Key kv) rev = Some kv.

Lemma value_at_key key rev kv : value_at H key rev = Some kv → kv_Key kv = key.
Proof using.
  unfold value_at. destruct (last_at H key rev) as [[q r]|] eqn:E; [|done]. cbn.
  destruct (rc_delete r); [done|]. intros [= <-]. by apply last_at_elem in E as (_ & _ & ?).
Qed.

Lemma fold_latest_lookup (xs : hist) key :
  fold_latest (map (event_of false) xs) !! key = live (newest xs key).
Proof using.
  unfold fold_latest. induction xs as [|x xs IH] using rev_ind; [done|].
  rewrite map_app, fold_left_app, newest_snoc. cbn [map fold_left].
  unfold event_of at 1. cbn [ev_Type ev_KV recordToKV kv_Key].
  destruct x as [rev r]. cbn [fst snd].
  case_bool_decide as E; destruct (rc_delete r) eqn:Ed; cbn [live]; rewrite ?Ed; try subst key.
  - apply lookup_delete_eq.
  - apply lookup_insert_eq.
  - by rewrite lookup_delete_ne.
  - by rewrite lookup_insert_ne.
Qed.

Lemma omap_take {A B} (f : A → option B) n (l : list A) :
  (∀ x, x ∈ l → is_Some (f x)) → omap f (take n l) = take n (omap f l).
Proof using.
  revert n. induction l as [|x l IH]; intros [|n] Hl; try done. cbn.
  destruct (Hl x) as [y ->]; [by left|]. cbn. f_equal. apply IH. intros z Hz. apply Hl. by right.
Qed.

Lemma select_latest_spec (fromKey : bytes) (limit : Z) (latest : gmap bytes KeyValue) :
  (∀ k kv, latest !! k = Some kv → kv_Key kv = k) →
  ∃ l : list KeyValue, select_latest fromKey limit latest = take_limit limit l ∧
    StronglySorted (λ a b, bytes_lt (kv_Key a) (kv_Key b)) l ∧
    ∀ kv, kv ∈ l ↔ bytes_le fromKey (kv_Key kv) ∧ latest !! kv_Key kv = Some kv.
Proof using.
  intros Hk. unfold select_latest.
  set (keys := filter _ _).
  assert (∀ k, k ∈ keys ↔ bytes_le fromKey k ∧ is_Some (latest !! k)) as Hkeys.
  { intros k. unfold keys. rewrite list_elem_of_filter, sort_bytes_perm.
    assert (k ∈ map fst (map_to_list latest) ↔ is_Some (latest !! k)) as ->.
    { change (map fst) with (fmap (M:=list) (@fst bytes KeyValue)). rewrite list_elem_of_fmap. split.
      - intros ([k' v] & -> & Hin%elem_of_map_to_list). by eexists.
      - intros [v Hv]. exists (k, v). by rewrite elem_of_map_to_list. }
    split; [|tauto]. intros [[->|?] ?]; [|done]. split; [by destruct k|done]. }
  assert (StronglySorted bytes_lt keys) as Hsorted.
  { apply StronglySorted_filter, sort_bytes_strict.
    change (map fst) with (fmap (M:=list) (@fst bytes KeyValue)). apply NoDup_fst_map_to_list. }
  exists (omap (λ k, latest !! k) keys). split_and!.
  - unfold take_limit. case_match; [|done]. apply omap_take. intros k Hin. by apply Hkeys.
  - clear Hkeys. induction Hsorted as [|k l Hl IH Hx]; [constructor|]. cbn.
    destruct (latest !! k) as [kv|] eqn:E; [|done]. constructor; [done|].
    apply Forall_forall. intros kv' Hin. apply list_elem_of_omap in Hin as (k' & Hin & E').
    rewrite (Hk _ _ E), (Hk _ _ E'). by apply (proj1 (Forall_forall _ _) Hx).
  - intros kv. rewrite list_elem_of_omap. split.
    + intros (k & Hin & E). rewrite (Hk _ _ E). split; [by apply Hkeys|done].
    + intros [Hle E]. exists (kv_Key kv). split; [|done]. by apply Hkeys.
Qed.

Lemma list_past_reads (prefix fromKey : bytes) (limit rev : Z) :
  0 < rev → st_compactRev s ≤ rev ≤ st_currentRev s →
  ∃ l : list KeyValue, listing prefix fromKey rev l ∧
    reads s (res ← scanLog s prefix 1 rev false;
             Ok (select_latest fromKey limit (fold_latest res.1))) (take_limit limit l).
Proof using HR.
  intros Hr Hc. pose proof (re_bound _ _ HR) as [Hb0 Hb1].
  destruct (scanLog_reads prefix 1 rev false) as [n Hn]; [unfold valid_rev in *; lia..|].
  set (xs := filter (under prefix) _) in Hn.
  assert (∀ key, live (newest xs key) =
    if has_prefix prefix key then value_at H key rev else None) as Hxs.
  { intros key. unfold newest, xs. rewrite !list_filter_filter.
    destruct (has_prefix prefix key) eqn:Ep.
    - unfold value_at. f_equal. rewrite <- (mi_last _ _ _ (re_mi _ _ HR)) by lia. unfold last_at. f_equal.
      apply filter_ext_in. intros x Hx%(mi_sub _ _ _ (re_mi _ _ HR))%(re_cur _ _ HR).
      unfold of_key, under, at_or_before. split.
      + intros ((Hk & _) & ?). split; [lia|done].
      + intros (? & Hk). split; [by rewrite Hk|lia].
    - rewrite filter_nil_in; [done|]. intros x _. unfold of_key, under. intros ((Hk & Hp) & _).
      rewrite Hk in Hp. congruence. }
  destruct (select_latest_spec fromKey limit (fold_latest (map (event_of false) xs))) as (l & Hl & Hs & He).
  { intros k kv. rewrite fold_latest_lookup, Hxs. case_match; [|done]. apply value_at_key. }
  exists l. split.
  - split; [done|]. intros kv. rewrite He, fold_latest_lookup, Hxs.
    destruct (has_prefix prefix (kv_Key kv)); intuition congruence.
  - eapply reads_bind; [exact Hn|]. cbn [fst]. by rewrite Hl.
Qed.

(** The index entries between the bounds of a prefix read. *)
Lemma idx_range_elem (prefix fromKey : bytes) k v :
  (k, v) ∈ range (idxBounds prefix fromKey).1 (idxBounds prefix fromKey).2 m ↔
  ∃ key, k = idxKey key ∧ has_prefix prefix key = true ∧ bytes_le fromKey key ∧ idx_of H key = Some v.
Proof using HR.
  rewrite elem_of_range.
  assert (bytes_le (idxBounds prefix fromKey).1 k ∧ bytes_lt k (idxBounds prefix fromKey).2 ↔
    ∃ key, k = idxKey key ∧ has_prefix prefix key = true ∧ bytes_le fromKey key) as ->.
  { assert (∀ a b, bytes_le (idxKey a) (idxKey b) ↔ bytes_le a b) as Hik.
    { intros a b. unfold idxKey. rewrite bytes_le_cons. split; [intros [?|[_ ?]]; [lia|done]|by right]. }
    trans (bytes_le fromKey (drop 1 k) ∧ bytes_le (idxKey prefix) k ∧ bytes_lt k (idxKeyUpper prefix)).
    - unfold idxBounds. destruct fromKey as [|b f]; cbn [fst snd].
      { split; [intros ?; split; [by destruct k as [|? []]|done]|tauto]. }
      split.
      + intros [Hl Hu].
        assert (bytes_le (idxKey prefix) k ∧ bytes_le (idxKey (b :: f)) k) as [Hp Hf].
        { destruct (bytes_ltb _ _) eqn:E.
          - apply bytes_ltb_lt in E. split; [|done]. apply bytes_le_lteq. left. by eapply bytes_lt_le_trans.
          - split; [done|]. transitivity (idxKey prefix); [|done].
            destruct (total bytes_le (idxKey (b :: f)) (idxKey prefix)) as [?|Hle]; [done|].
            apply bytes_le_lteq in Hle as [Hlt| ->]; [|apply bytes_le_lteq; by right].
            apply bytes_ltb_lt in Hlt. congruence. }
        assert (bytes_le (idxKey prefix) k ∧ bytes_lt k (idxKeyUpper prefix)) as Hpr by done.
        apply idx_prefix_range in Hpr as (key & -> & _). split; [|done]. cbn [drop idxKey]. by apply Hik.
      + intros (Hf & Hpr). pose proof Hpr as Hpr'. apply idx_prefix_range in Hpr' as (key & -> & _).
        split; [|apply Hpr]. destruct (bytes_ltb _ _); [by apply Hik|apply Hpr].
    - rewrite idx_prefix_range. split.
      + intros (Hf & key & -> & Hp). by exists key.
      + intros (key & -> & Hp & Hf). split; [done|]. by exists key. }
  split.
  - intros (Hm & key & -> & Hp & Hf). exists key. rewrite (mi_idx _ _ _ (re_mi _ _ HR)) in Hm. done.
  - intros (key & -> & Hp & Hf & Hi). rewrite (mi_idx _ _ _ (re_mi _ _ HR)). split; [done|]. by exists key.
Qed.

Definition idx_value (kv : bytes * bytes) : option KeyValue :=
  value_at H (drop 1 kv.1) (st_currentRev s).

Lemma idx_entry key v : idx_of H key = Some v ↔
  ∃ rev r, v = encodeRev rev ∧ decodeRev v = rev ∧ rc_key r = key ∧ (rev, r) ∈ alog m ∧
    value_at H key (st_currentRev s) = Some (recordToKV key rev r).
Proof using HR.
  rewrite value_at_current. unfold idx_of. destruct (newest H key) as [[rev r]|] eqn:E; cbn [live].
  2:{ split; [done|]. by intros (? & ? & _ & _ & _ & _ & ?). }
  destruct (rc_delete r); [split; [done|]; by intros (? & ? & _ & _ & _ & _ & ?)|].
  assert (rc_key r = key) as <-.
  { unfold newest in E. apply last_Some_elem_of, list_elem_of_filter in E. apply E. }
  pose proof (newest_alog _ _ E) as Hin.
  pose proof (re_cur _ _ HR _ (mi_sub _ _ _ (re_mi _ _ HR) _ Hin)) as Hc. cbn in Hc.
  pose proof (re_bound _ _ HR) as Hb.
  assert (decodeRev (encodeRev rev) = rev) as Hd by (apply encode_decodeRev; unfold valid_rev in *; lia).
  split.
  - intros Hv. apply (inj Some) in Hv as <-. exists rev, r. done.
  - intros (rev' & r' & -> & Hd' & _ & _ & Hkv). apply (inj Some) in Hkv.
    apply (f_equal kv_Revision) in Hkv. cbn [recordToKV kv_Revision] in Hkv. by rewrite Hkv.
Qed.

Lemma list_loop_reads (limit : Z) (l : list (bytes * bytes)) : ∀ out : list KeyValue,
  (∀ kv, kv ∈ l → ∃ key, kv.1 = idxKey key ∧ idx_of H key = Some kv.2) →
  limit ≤ 0 ∨ zlen out ≤ limit →
  reads s (list_loop s limit l out) (take_limit limit (out ++ omap idx_value l)).
Proof using HR.
  induction l as [|[k v] l IH]; intros out Hl Hlim; cbn [list_loop].
  { cbn. rewrite app_nil_r. unfold take_limit. destruct (Z.ltb_spec 0 limit); [|done].
    rewrite take_ge; [done|]. unfold zlen in Hlim. lia. }
  destruct (Hl (k, v)) as (key & Hk & Hi); [by left|]. cbn [fst snd] in *. subst k.
  apply idx_entry in Hi as (rev & r & -> & Hd & <- & Hin & Hv). rewrite Hd.
  destruct ((0 <? limit) && (limit <=? zlen out)) eqn:E.
  - apply andb_true_iff in E as [E1%Z.ltb_lt E2%Z.leb_le]. cbn. unfold take_limit.
    rewrite (proj2 (Z.ltb_lt 0 limit)) by done. rewrite take_app_length'; [done|].
    unfold zlen in *. lia.
  - rewrite drop_idxKey. eapply reads_bind; [by apply getLogEntry_reads|].
    cbn [omap list_omap]. unfold idx_value at 1. cbn [fst]. rewrite drop_idxKey. rewrite Hv.
    rewrite (cons_middle (recordToKV (rc_key r) rev r) out (omap idx_value l)), app_assoc. apply IH.
    + intros kv Hkv. apply Hl. by right.
    + rewrite zlen_app, zlen_cons. change (zlen (@nil KeyValue)) with 0.
      apply andb_false_iff in E as [E%Z.ltb_ge|E%Z.leb_gt]; lia.
Qed.

(** The values of the index entries of a prefix read are the listing at the
    current revision. *)
Lemma idx_listing prefix fromKey :
  listing prefix fromKey (st_currentRev s)
    (omap idx_value (range (idxBounds prefix fromKey).1 (idxBounds prefix fromKey).2 m)).
Proof using HR.
  set (R := range _ _ m).
  assert (∀ kv, kv ∈ R → ∃ key, kv.1 = idxKey key) as HRk.
  { intros [k v] Hin. apply idx_range_elem in Hin as (key & -> & _). by exists key. }
  split.
  - assert (StronglySorted kv_lt R) as Hs by apply range_sorted. clearbody R.
    induction Hs as [|x l Hl IH Hx]; [constructor|].
    assert (StronglySorted (λ a b, bytes_lt (kv_Key a) (kv_Key b)) (omap idx_value l)) as Hl'
      by (apply IH; intros kv Hkv; apply HRk; by right).
    cbn [omap list_omap]. destruct (idx_value x) as [kv|] eqn:E; [|done]. constructor; [done|].
    apply Forall_forall. intros kv' Hin. apply list_elem_of_omap in Hin as (y & Hy & E').
    pose proof (proj1 (Forall_forall _ _) Hx y Hy) as Hlt. unfold kv_lt in Hlt.
    destruct (HRk x) as [kx Hkx]; [by left|]. destruct (HRk y) as [ky Hky]; [by right|].
    unfold idx_value in E, E'. rewrite Hkx, Hky in *. rewrite drop_idxKey in E, E'.
    rewrite (value_at_key _ _ _ E), (value_at_key _ _ _ E').
    unfold idxKey in Hlt. apply bytes_lt_cons in Hlt as [?|[_ ?]]; [lia|done].
  - intros kv. rewrite list_elem_of_omap. split.
    + intros ([k v] & Hin & E). apply idx_range_elem in Hin as (key & -> & Hp & Hf & Hi).
      unfold idx_value in E. cbn [fst] in E. rewrite drop_idxKey in E. by rewrite (value_at_key _ _ _ E).
    + intros (Hp & Hf & Hv). rewrite value_at_current in Hv.
      assert (is_Some (idx_of H (kv_Key kv))) as [v Hi].
      { unfold idx_of. destruct (newest H (kv_Key kv)) as [[rev r]|]; [|done]. cbn in Hv.
        destruct (rc_delete r); [done|by eexists]. }
      exists (idxKey (kv_Key kv), v). split; [apply idx_range_elem; by exists (kv_Key kv)|].
      unfold idx_value. cbn [fst]. rewrite drop_idxKey. by rewrite value_at_current.
Qed.

Lemma listCurrent_reads prefix fromKey (limit : Z) :
  ∃ l : list KeyValue, listing prefix fromKey (st_currentRev s) l ∧
    reads s (listCurrent s prefix fromKey limit) (take_limit limit l).
Proof using HR.
  eexists. split; [apply idx_listing|]. unfold listCurrent.
  destruct (idxBounds prefix fromKey) as [lo hi] eqn:Eb.
  apply (reads_iter s lo hi (λ l, list_loop s limit l [])). intros l ->. cbn [fst snd].
  apply (list_loop_reads limit _ []); [|unfold zlen; cbn; lia].
  intros [k v] Hin. replace lo with (idxBounds prefix fromKey).1 in Hin by by rewrite Eb.
  replace hi with (idxBounds prefix fromKey).2 in Hin by by rewrite Eb.
  apply idx_range_elem in Hin as (key & -> & _ & _ & Hi). by exists key.
Qed.

Lemma countCurrent_reads prefix fromKey :
  ∃ l : list KeyValue, listing prefix fromKey (st_currentRev s) l ∧
    reads s (countCurrent s prefix fromKey) (zlen l).
Proof using HR.
  eexists. split; [apply idx_listing|]. unfold countCurrent.
  destruct (idxBounds prefix fromKey) as [lo hi] eqn:Eb. cbn [fst snd].
  assert (length (omap idx_value (range lo hi m)) = length (range lo hi m)) as Hlen.
  { assert (∀ kv, kv ∈ range lo hi m → is_Some (idx_value kv)) as Hall.
    { intros [k v] Hin. replace lo with (idxBounds prefix fromKey).1 in Hin by by rewrite Eb.
      replace hi with (idxBounds prefix fromKey).2 in Hin by by rewrite Eb.
      apply idx_range_elem in Hin as (key & -> & _ & _ & Hi).
      apply idx_entry in Hi as (rev & r & _ & _ & _ & _ & Hv). unfold idx_value. cbn [fst]. rewrite drop_idxKey.
      rewrite Hv. by eexists. }
    induction (range lo hi m) as [|x l IH]; [done|]. cbn [omap list_omap].
    destruct (Hall x) as [y ->]; [by left|]. cbn. f_equal. apply IH. intros kv Hkv. apply Hall. by right. }
  unfold zlen at 2. rewrite Hlen.
  pose proof (reads_iter s lo hi (λ l, Ok (zlen l)) (zlen (range lo hi m))) as Hi.
  apply Hi. intros l ->. done.
Qed.
End Rel.
End Read.
