(* ===== verification/StoreRefine.v ===== *)
(** * The store implements its history

    The theorems on store.go: a batch extends the history or leaves it, every
    read is a function of the history, snapshots above the compaction
    watermark do not change, reopening restores the counters, and a watcher
    sees every record once. *)

From S2P Require Import Prelude Bytes WalEntry Os Pebble StoreKeys Store StoreSpec StoreInv StoreApply StoreRead.

Section Refine.
Context {DB : Type} `{PI : Pebble DB} `{POk : !PebbleOk DB}.
Implicit Types s : Store DB.

(** ** Apply *)

Lemma loop_rel s0 H0 b mr mq s H d :
  Rel s0 H0 → loop_inv s0 H0 b mr mq s H →
  db_map d = apply_batch (commit_batch b mr mq) (db_map (st_db s0)) →
  Rel (set_revs (bump_max (st_currentRev s) mr) (bump_max (st_lastSeq s) mq) (set_db d s)) H.
Proof using POk.
  intros HR Hli Hd. destruct (commit_map_spec s0 H0 b mr mq s H (db_map d)) as (Hmi & Hmc & Hmr & Hmq);
    [done..|].
  pose proof (re_bound _ _ HR) as [Hb0 Hb1]. pose proof (re_seq _ _ HR) as Hq0.
  pose proof (re_compact _ _ HR) as [Hc0 Hc1].
  destruct Hli as [Hs Hc _ _ _ Hcur Hr Hq Hle _ _].
  assert (st_currentRev s = st_currentRev s0) as Ecur by by rewrite Hs.
  assert (st_lastSeq s = st_lastSeq s0) as Eseq by by rewrite Hs.
  assert (bump_max (st_currentRev s0) mr = Z.max (st_currentRev s0) mr) as Er
    by (unfold bump_max; destruct (Z.ltb_spec (st_currentRev s0) mr); lia).
  assert (bump_max (st_lastSeq s0) mq = Z.max (st_lastSeq s0) mq) as Eq
    by (unfold bump_max; destruct (Z.ltb_spec (st_lastSeq s0) mq); lia).
  split; cbn [set_revs set_db st_db st_currentRev st_compactRev st_lastSeq];
    rewrite ?Ecur, ?Eseq; rewrite ?Er, ?Eq in *; try done.
  - unfold valid_rev in *. lia.
  - unfold valid_rev in *. lia.
  - split; [apply Hc|lia].
Qed.

Lemma broadcast_rel s H : Rel s H → Rel (broadcast s) H.
Proof using. by intros []. Qed.

Lemma apply_loop_start s H es r s' :
  Rel s H → batch_ok (st_currentRev s) (st_lastSeq s) (st_compactRev s) es →
  apply_loop es ([], 0, 0) s = (r, s') →
  match r with
  | Ok (b, mr, mq) => loop_inv s H b mr mq s' (H ++ batch_log es)
  | Err _ => s' = set_compactRev (st_compactRev s') s ∧ st_compactRev s ≤ st_compactRev s'
  end.
Proof using POk.
  intros HR Hb. pose proof (re_bound _ _ HR). apply (apply_loop_inv s H es [] 0 0 s H r s' HR).
  - by apply loop_inv_init.
  - by rewrite !Z.max_l by lia.
Qed.

(** What a failed batch leaves: the history before or after it, under a
    watermark that has not gone down. *)
Definition all_or_nothing s (H K : hist) s' : Prop :=
  st_currentRev s' = st_currentRev s ∧ st_lastSeq s' = st_lastSeq s ∧
  st_compactRev s ≤ st_compactRev s' ∧
  (MI (db_map (st_db s')) H (st_compactRev s') ∨ MI (db_map (st_db s')) (H ++ K) (st_compactRev s')).

Lemma commit_step sync s H es b mr mq s1 r s' :
  Rel s H → loop_inv s H b mr mq s1 (H ++ batch_log es) →
  commitBatch b mr mq sync s1 = (r, s') →
  match r with
  | Ok _ => Rel s' (H ++ batch_log es)
  | Err _ => all_or_nothing s H (batch_log es) s'
  end.
Proof using POk.
  intros HR Hli. rewrite commitBatch_unfold.
  destruct (db_commit _ _ _) as [r1 d] eqn:Ec. apply db_commit_law in Ec.
  pose proof (li_s _ _ _ _ _ _ _ Hli) as Hs. pose proof (li_c _ _ _ _ _ _ _ Hli) as [Hc _].
  replace (st_db s1) with (st_db s) in Ec by by rewrite Hs.
  destruct r1 as [[]|e]; intros [= <- <-].
  - by apply (loop_rel s H b mr mq s1 _ d).
  - split; [by rewrite Hs|]. split; [by rewrite Hs|]. split; [done|].
    cbn [set_db st_db st_compactRev]. destruct Ec as [->|Ec].
    + left. apply (MI_raise _ _ (st_compactRev s)); [apply HR|done].
    + right. by apply (commit_map_spec s H b mr mq s1).
Qed.

Lemma Apply_refines s H es r s' :
  Rel s H → batch_ok (st_currentRev s) (st_lastSeq s) (st_compactRev s) es →
  Apply es s = (r, s') →
  match r with
  | Ok _ => Rel s' (H ++ batch_log es)
  | Err _ => all_or_nothing s H (batch_log es) s'
  end.
Proof using POk.
  intros HR Hb. destruct (decide (es = [])) as [->|Hne].
  { intros [= <- <-]. cbn. by rewrite app_nil_r. }
  rewrite Apply_unfold by done. destruct (apply_loop _ _ _) as [r1 s1] eqn:El.
  apply (apply_loop_start s H) in El; [|done..]. destruct r1 as [[[b mr] mq]|e].
  - destruct (commitBatch _ _ _ _ _) as [r2 s2] eqn:Ec.
    apply (commit_step false s H es) in Ec; [|done..].
    destruct r2 as [[]|e]; intros [= <- <-]; [by apply broadcast_rel|done].
  - intros [= <- <-]. destruct El as [-> Hc]. split; [done|]. split; [done|]. split; [done|].
    left. cbn. apply (MI_raise _ _ (st_compactRev s)); [apply HR|done].
Qed.

(** ** Progress *)

Lemma find_key_total (m : gmap bytes bytes) H c key (l : list (bytes * bytes)) :
  MI m H c → (∀ kv, kv ∈ l → kv ∈ plog m) → ∃ b, find_key key l = Ok b.
Proof using.
  intros Hmi. induction l as [|[k v] l IH]; intros Hl; [by exists false|].
  destruct (plog_entry m H c Hmi (k, v)) as (rev & sub & r & (_ & _ & _ & Hwf & Heq%(f_equal snd)) & _);
    [apply Hl; by left|].
  cbn [snd] in Heq. subst v. cbn [find_key]. rewrite unmarshal_marshalRecord by done.
  cbn [mbind result_bind]. case_bool_decide; [by exists true|]. apply IH. intros kv Hkv. apply Hl. by right.
Qed.

Lemma hasLater_total s H c key a b :
  healthy (st_db s) → MI (db_map (st_db s)) H c → valid_rev a → valid_rev (b + 1) →
  ∃ x, hasLaterRevisionAtOrBefore s key a b = Ok x.
Proof using.
  intros [_ Hi] Hmi Ha Hb. unfold hasLaterRevisionAtOrBefore. destruct (Z.leb_spec b a); [by exists false|].
  unfold valid_rev in *. rewrite Hi, !i64_id by (unfold is_i64; lia). cbn [mbind result_bind it_fwd].
  rewrite (range_revs _ H c) by (try done; unfold valid_rev; lia).
  destruct (find_key_total _ H c key (filter (λ kv, a + 1 ≤ decodeLogKey kv.1 < b + 1) (plog (db_map (st_db s)))) Hmi)
    as [x ->]; [intros kv Hkv; by apply list_elem_of_filter in Hkv as [_ ?]|].
  destruct x; [by exists true|by exists false].
Qed.

Lemma compact_loop_total s H c c' (l : list (bytes * bytes)) : ∀ b,
  healthy (st_db s) → MI (db_map (st_db s)) H c → valid_rev (c' + 1) →
  (∀ kv, kv ∈ l → kv ∈ plog (db_map (st_db s))) → ∃ b', compact_loop s c' b l = Ok b'.
Proof using.
  induction l as [|[k v] l IH]; intros b Hh Hmi Hv Hl; [by exists b|].
  destruct (plog_entry _ H c Hmi (k, v)) as (rev & sub & r & (Hr & Hr0 & _ & Hwf & Heq) & _);
    [apply Hl; by left|].
  pose proof (f_equal fst Heq) as Hk. pose proof (f_equal snd Heq) as Hvv. cbn [fst snd] in Hk, Hvv. subst k v.
  cbn [compact_loop]. rewrite unmarshal_marshalRecord by done. cbn [mbind result_bind].
  assert (valid_rev rev) by (unfold valid_rev in *; lia). rewrite decodeLogKey_lkey by done.
  destruct (hasLater_total s H c (rc_key r) rev c') as [x ->]; [done..|].
  apply IH; try done. intros kv Hkv. apply Hl. by right.
Qed.

Lemma applyCompact_total s H b c' :
  healthy (st_db s) → MI (db_map (st_db s)) H (st_compactRev s) →
  0 ≤ st_compactRev s ≤ c' → valid_rev (c' + 1) →
  ∃ b', applyCompact b c' s = (Ok b', set_compactRev c' s).
Proof using.
  intros Hh Hmi Hc Hv. pose proof Hh as [_ Hi].
  unfold applyCompact, mbind, ST_bind, get_st, from_result, modify, mret, ST_ret. rewrite Hi.
  cbn [it_fwd iter_end it_err].
  rewrite (range_revs _ H (st_compactRev s)) by (try done; unfold valid_rev in *; lia).
  destruct (compact_loop_total s H (st_compactRev s) c'
    (filter (λ kv, st_compactRev s ≤ decodeLogKey kv.1 < c') (plog (db_map (st_db s))))
    (b ++ [BSet metaCompactKey (encodeRev c')])) as [b' ->]; [done..| |by exists b'].
  intros kv Hkv. by apply list_elem_of_filter in Hkv as [_ ?].
Qed.

Lemma apply_loop_total s0 H0 es : ∀ acc s,
  healthy (st_db s0) → Rel s0 H0 → s = set_compactRev (st_compactRev s) s0 →
  st_compactRev s0 ≤ st_compactRev s →
  (∃ rev seq, batch_ok rev seq (st_compactRev s) es) → ∃ acc' s', apply_loop es acc s = (Ok acc', s').
Proof using.
  induction es as [|e es IH]; intros [[b mr] mq] s Hh HR Hs Hc (rev & seq & Hb); [by eexists _, _|].
  destruct Hb as (_ & _ & Hb). cbn [apply_loop]. unfold mbind, ST_bind, apply_one, mret, ST_ret, from_result.
  pose proof (re_compact _ _ HR) as [_ Hc0].
  destruct (e_Op e =? OpCompact).
  - destruct Hb as (Hle & Hv & Hb).
    destruct (applyCompact_total s H0 b (e_PrevRevision e)) as [b' Ha].
    + by rewrite Hs.
    + rewrite Hs. cbn. apply (MI_raise _ _ (st_compactRev s0)); [apply HR|done].
    + lia.
    + done.
    + unfold mbind, ST_bind. rewrite Ha. apply IH; try done; cbn.
      * rewrite Hs. apply set_compactRev_twice.
      * lia.
      * by eexists _, _.
  - destruct Hb as (_ & _ & Hok & Hb). unfold mbind, ST_bind. rewrite applyEntry_batch by done.
    apply IH; try done. by eexists _, _.
Qed.

Lemma Apply_total s H es :
  healthy (st_db s) → (∀ b, (db_commit false b (st_db s)).1 = Ok tt) →
  Rel s H → batch_ok (st_currentRev s) (st_lastSeq s) (st_compactRev s) es →
  ∃ s', Apply es s = (Ok tt, s') ∧ Rel s' (H ++ batch_log es).
Proof using POk.
  intros Hh Hcm HR Hb. cut (∃ s', Apply es s = (Ok tt, s')).
  { intros [s' Ha]. exists s'. split; [done|]. by apply (Apply_refines s H es (Ok tt)). }
  destruct (decide (es = [])) as [->|Hne]; [by exists s|]. rewrite Apply_unfold by done.
  destruct (apply_loop_total s H es ([], 0, 0) s) as ([[b mr] mq] & s1 & El); try done.
  { by destruct s. }
  { by eexists _, _. }
  pose proof El as Hli. apply (apply_loop_start s H) in Hli; [|done..]. rewrite El, commitBatch_unfold.
  replace (st_db s1) with (st_db s) by by rewrite (li_s _ _ _ _ _ _ _ Hli).
  specialize (Hcm (commit_batch b mr mq)). destruct (db_commit _ _ _) as [r d]. cbn in Hcm. subst r.
  by eexists.
Qed.

(** A successful batch does not move the current revision back. *)
Lemma Apply_cur s H es s' :
  Rel s H → batch_ok (st_currentRev s) (st_lastSeq s) (st_compactRev s) es →
  Apply es s = (Ok tt, s') → st_currentRev s ≤ st_currentRev s'.
Proof using POk.
  intros HR Hb. destruct (decide (es = [])) as [->|Hne]; [by intros [= <-]|].
  rewrite Apply_unfold by done. destruct (apply_loop _ _ _) as [r1 s1] eqn:El.
  apply (apply_loop_start s H) in El; [|done..]. destruct r1 as [[[b mr] mq]|e]; [|done].
  rewrite commitBatch_unfold. destruct (db_commit _ _ _) as [[[]|e] d]; [|done]. intros [= <-]. cbn.
  rewrite (li_s _ _ _ _ _ _ _ El). cbn. unfold bump_max. destruct (Z.ltb_spec (st_currentRev s) mr); lia.
Qed.

(** ** Recover *)

(** Nothing is stored at revisions above the current one, so there is nothing
    to clean up, whether or not the database answers. *)
Lemma cleanup_fresh s H e :
  Rel s H → st_currentRev s < e_Revision e → valid_rev (e_Revision e + 1) → cleanup s e = [].
Proof using.
  intros HR Hlt Hv. pose proof (re_bound _ _ HR) as [Hb0 Hb1].
  assert (valid_rev (e_Revision e)) as Hv' by (unfold valid_rev in *; lia).
  assert (∀ kv, kv ∈ plog (db_map (st_db s)) → decodeLogKey kv.1 ≤ st_currentRev s) as Hle.
  { intros kv Hkv. destruct (plog_entry _ _ _ (re_mi _ _ HR) _ Hkv) as (rev & sub & r & _ & Hd & Hin).
    apply (re_cur _ _ HR) in Hin. apply (f_equal fst) in Hd. cbn [decode_kv fst] in *. lia. }
  unfold cleanup. destruct (e_Op e =? OpTxn).
  - rewrite i64_id by (unfold is_i64, valid_rev in *; lia).
    destruct (db_iter _ _ _) as [it|] eqn:Ei; [|done].
    destruct (it_fwd it) as [|kv l] eqn:Ef; [done|exfalso].
    assert (kv ∈ it_fwd it) as Hkv by (rewrite Ef; by left).
    apply (iter_fwd_range _ _ _ _ _ Ei) in Hkv.
    rewrite (range_revs _ H (st_compactRev s)) in Hkv by (done || apply HR).
    apply list_elem_of_filter in Hkv as [Hr Hkv]. apply Hle in Hkv. lia.
  - destruct (db_get _ _) as [[v|]|] eqn:Eg; [exfalso|done..]. apply db_get_law in Eg.
    assert ((lkey (e_Revision e) None, v) ∈ plog (db_map (st_db s))) as Hkv by by apply plog_lkey.
    apply Hle in Hkv. cbn [fst] in Hkv. rewrite decodeLogKey_lkey in Hkv by done. lia.
Qed.

Lemma recover_loop_fresh s0 H es : ∀ acc s rev seq,
  Rel s0 H → s = set_compactRev (st_compactRev s) s0 → st_currentRev s0 ≤ rev →
  batch_ok rev seq (st_compactRev s) es → recover_loop es acc s = apply_loop es acc s.
Proof using POk.
  induction es as [|e es IH]; intros [[b mr] mq] s rev seq HR Hs Hrev Hb; [done|].
  destruct Hb as (_ & _ & Hb). cbn [recover_loop apply_loop].
  unfold recover_one, apply_one, mbind, ST_bind, get_st, from_result, mret, ST_ret.
  destruct (e_Op e =? OpCompact).
  - destruct Hb as (Hle & Hv & Hb).
    destruct (applyCompact b (e_PrevRevision e) s) as [[b'|er] s1] eqn:Ea; [|done].
    assert (s1 = set_compactRev (e_PrevRevision e) s) as ->.
    { revert Ea. unfold applyCompact, mbind, ST_bind, get_st, from_result, modify, mret, ST_ret.
      destruct (db_iter _ _ _); [|done]. destruct (compact_loop _ _ _ _); [|done].
      destruct (iter_end _ _); [|done]. by intros [= _ <-]. }
    apply (IH _ _ rev (Sequence e)); try done. cbn. rewrite Hs. apply set_compactRev_twice.
  - destruct Hb as (Hr & Hv & Hok & Hb).
    assert (cleanup s e = []) as ->.
    { replace (cleanup s e) with (cleanup s0 e) by by rewrite Hs. apply (cleanup_fresh s0 H); [done|lia|done]. }
    rewrite app_nil_r, applyEntry_batch by done. apply (IH _ _ (e_Revision e) (Sequence e)); try done. lia.
Qed.

Lemma Recover_refines s H es r s' :
  Rel s H → batch_ok (st_currentRev s) (st_lastSeq s) (st_compactRev s) es →
  Recover es s = (r, s') →
  match r with
  | Ok _ => Rel s' (H ++ batch_log es)
  | Err _ => all_or_nothing s H (batch_log es) s'
  end.
Proof using POk.
  intros HR Hb. destruct (decide (es = [])) as [->|Hne].
  { intros [= <- <-]. cbn. by rewrite app_nil_r. }
  assert (Recover es s = match recover_loop es ([], 0, 0) s with
    | (Ok (b, mr, mq), s1) => commitBatch b mr mq true s1 | (Err e, s1) => (Err e, s1) end) as ->.
  { destruct es; [done|]. unfold Recover, mbind, ST_bind.
    by destruct (recover_loop _ _ _) as [[[[b mr] mq]|er] s1]. }
  rewrite (recover_loop_fresh s H es _ s (st_currentRev s) (st_lastSeq s)); [|done|by destruct s|done|done].
  destruct (apply_loop _ _ _) as [r1 s1] eqn:El.
  apply (apply_loop_start s H) in El; [|done..]. destruct r1 as [[[b mr] mq]|e].
  - intros Hc. by apply (commit_step true s H es b mr mq s1).
  - intros [= <- <-]. destruct El as [-> Hc]. split; [done|]. split; [done|]. split; [done|].
    left. cbn. apply (MI_raise _ _ (st_compactRev s)); [apply HR|done].
Qed.

(** ** Reopening *)

Lemma loadMeta_reads s H s' :
  Rel s H → loadMeta (st_db s) = Ok s' →
  st_db s' = st_db s ∧ st_currentRev s' = st_currentRev s ∧ st_compactRev s' = st_compactRev s ∧
  st_lastSeq s' = st_lastSeq s ∧ Rel s' H.
Proof using POk.
  intros HR. pose proof (re_bound _ _ HR) as [Hb0 Hb1].
  assert (∀ k z v, meta_is (db_map (st_db s)) k z → valid_rev z → db_get k (st_db s) = Ok v →
    match v with Some w => decodeRev w | None => 0 end = z) as Hm.
  { intros k z v Hm Hz Hg%db_get_law. unfold meta_is in Hm. rewrite Hg in Hm.
    destruct v as [w|]; [|done]. subst w. by apply encode_decodeRev. }
  unfold loadMeta. intros (c & Hc & Hl)%bind_Ok. apply bind_Ok in Hl as (q & Hq & Hl).
  apply bind_Ok in Hl as (v & Hr & Hl).
  rewrite (Hm _ _ _ (re_metac _ _ HR)) in Hl; [|pose proof (re_compact _ _ HR); unfold valid_rev in *; lia|done].
  rewrite (Hm _ _ _ (re_metaq _ _ HR)) in Hl; [|apply HR|done].
  assert (match v with Some w => decodeRev w | None => 0 end = st_currentRev s) as Hcur.
  { apply (Hm _ _ _ (re_metar _ _ HR)); [unfold valid_rev in *; lia|done]. }
  assert (s' = mkStore (st_db s) (st_currentRev s) (st_compactRev s)
    (if st_lastSeq s <? st_currentRev s then st_currentRev s else st_lastSeq s) 0 false ∅) as ->.
  { destruct v as [w|]; [injection Hl as <-; by rewrite Hcur|].
    apply bind_Ok in Hl as (it & Hi & Hl). injection Hl as <-.
    assert (it_bwd it = []) as ->; [|by rewrite Hcur].
    apply db_iter_law in Hi. change (range logLower logUpper ?x) with (plog x) in Hi.
    assert (plog (db_map (st_db s)) = []) as Hp.
    { destruct (plog _) as [|kv l] eqn:E; [done|exfalso].
      assert (kv ∈ plog (db_map (st_db s))) as Hkv by (rewrite E; by left).
      destruct (plog_entry _ _ _ (re_mi _ _ HR) _ Hkv) as (rev & sub & r & _ & _ & Hin).
      apply (re_cur _ _ HR) in Hin. cbn in Hin. lia. }
    rewrite Hp in Hi. destruct (it_err it); [|apply Hi]. destruct Hi as [_ Hi].
    by apply prefix_nil_inv in Hi. }
  destruct (Z.ltb_spec (st_lastSeq s) (st_currentRev s)); [lia|]. cbn.
  split_and!; try done. by destruct HR.
Qed.

(** ** Range reads *)

Lemma value_at_in H key rev kv : value_at H key rev = Some kv → key ∈ map (λ x, rc_key x.2) H.
Proof using.
  unfold value_at. destruct (last_at H key rev) as [x|] eqn:E; [|done]. intros _.
  apply last_at_elem in E as (Hin & _ & <-). by apply (list_elem_of_fmap_2 (λ x, rc_key x.2)).
Qed.

Lemma list_at_listing H prefix fromKey rev : listing H prefix fromKey rev (list_at H prefix fromKey rev).
Proof using.
  unfold list_at. set (keys := filter _ _).
  assert (StronglySorted bytes_lt keys) as Hs.
  { apply StronglySorted_filter, sort_bytes_strict, NoDup_remove_dups. }
  assert (∀ k, k ∈ keys ↔ has_prefix prefix k = true ∧ bytes_le fromKey k ∧ k ∈ map (λ x, rc_key x.2) H) as Hk.
  { intros k. unfold keys. rewrite list_elem_of_filter, sort_bytes_perm, elem_of_remove_dups. tauto. }
  clearbody keys. split.
  - clear Hk. induction Hs as [|k l Hl IH Hx]; [constructor|]. cbn.
    destruct (value_at H k rev) as [kv|] eqn:E; [|done]. constructor; [done|].
    apply Forall_forall. intros kv' Hin. apply list_elem_of_omap in Hin as (k' & Hin & E').
    rewrite (value_at_key _ _ _ _ E), (value_at_key _ _ _ _ E'). by apply (proj1 (Forall_forall _ _) Hx).
  - intros kv. rewrite list_elem_of_omap. split.
    + intros (k & Hin & E). rewrite (value_at_key _ _ _ _ E). apply Hk in Hin as (? & ? & _). done.
    + intros (Hp & Hf & Hv). exists (kv_Key kv). split; [|done]. apply Hk. split_and!; [done..|].
      by apply (value_at_in H _ rev kv).
Qed.

Lemma kv_listing_unique H prefix fromKey rev (l k : list KeyValue) :
  listing H prefix fromKey rev l → listing H prefix fromKey rev k → l = k.
Proof using.
  intros [Hs1 H1] [Hs2 H2].
  apply (StronglySorted_ext (λ a b, bytes_lt (kv_Key a) (kv_Key b))); [| |done|done|].
  - intros x Hx. by apply bytes_lt_irrefl in Hx.
  - intros x y z. apply bytes_lt_trans.
  - intros kv. by rewrite H1, H2.
Qed.

Lemma ListRange_reads s H prefix opts :
  Rel s H → 0 ≤ ro_Revision opts →
  if ro_Revision opts =? 0
  then reads s (ListRange s prefix opts)
         (take_limit (ro_Limit opts) (list_at H prefix (ro_FromKey opts) (st_currentRev s)))
  else reads_at s (ro_Revision opts) (ListRange s prefix opts)
         (take_limit (ro_Limit opts) (list_at H prefix (ro_FromKey opts) (ro_Revision opts))).
Proof using POk.
  intros HR Hrev. unfold ListRange. destruct (Z.eqb_spec (ro_Revision opts) 0) as [E|E].
  - rewrite E. unfold resolveReadRevision. cbn [Z.eqb mbind result_bind].
    destruct (listCurrent_reads s H HR prefix (ro_FromKey opts) (ro_Limit opts)) as (l & Hl & Hr).
    by rewrite (kv_listing_unique _ _ _ _ _ _ (list_at_listing H _ _ _) Hl).
  - rewrite resolve_cases by lia. unfold reads_at. repeat case_decide; [done..|].
    cbn [mbind result_bind]. destruct (Z.eqb_spec (ro_Revision opts) 0); [lia|].
    destruct (list_past_reads s H HR prefix (ro_FromKey opts) (ro_Limit opts) (ro_Revision opts))
      as (l & Hl & Hr); [lia|lia|].
    by rewrite (kv_listing_unique _ _ _ _ _ _ (list_at_listing H _ _ _) Hl).
Qed.

Lemma CountRange_reads s H prefix opts :
  Rel s H → 0 ≤ ro_Revision opts →
  if ro_Revision opts =? 0
  then reads s (CountRange s prefix opts)
         (zlen (list_at H prefix (ro_FromKey opts) (st_currentRev s)))
  else reads_at s (ro_Revision opts) (CountRange s prefix opts)
         (zlen (list_at H prefix (ro_FromKey opts) (ro_Revision opts))).
Proof using POk.
  intros HR Hrev. unfold CountRange. destruct (Z.eqb_spec (ro_Revision opts) 0) as [E|E].
  - destruct (countCurrent_reads s H HR prefix (ro_FromKey opts)) as (l & Hl & Hr).
    by rewrite (kv_listing_unique _ _ _ _ _ _ (list_at_listing H _ _ _) Hl).
  - pose proof (ListRange_reads s H prefix (mkOpts (ro_Revision opts) (ro_FromKey opts) 0) HR Hrev) as Hl.
    cbn [ro_Revision ro_FromKey ro_Limit] in Hl. destruct (Z.eqb_spec (ro_Revision opts) 0); [lia|].
    unfold reads_at in *. repeat case_decide; [by rewrite Hl..|].
    eapply reads_bind; [exact Hl|done].
Qed.

(** ** Later batches do not change earlier revisions *)

Lemma batch_log_above rev seq c es : batch_ok rev seq c es → ∀ x, x ∈ batch_log es → rev < x.1.
Proof using.
  revert rev seq c. induction es as [|e es IH]; intros rev seq c Hb x; [by intros ?%not_elem_of_nil|].
  destruct Hb as (_ & _ & Hb). unfold batch_log. cbn [flat_map]. rewrite elem_of_app.
  fold (batch_log es). unfold entry_log. destruct (e_Op e =? OpCompact).
  - intros [?%not_elem_of_nil|Hx]; [done|]. destruct Hb as (_ & _ & Hb). by apply (IH _ _ _ Hb).
  - destruct Hb as ([Hr _] & _ & _ & Hb). intros [Hx|Hx].
    + assert (x.1 = e_Revision e) as ->; [|done]. case_match.
      * destruct (DecodeTxnOps _); [|by apply not_elem_of_nil in Hx].
        by apply (list_elem_of_fmap_1 (λ o, (e_Revision e, subop_record o))) in Hx as (o & -> & _).
      * by apply list_elem_of_singleton in Hx as ->.
    + specialize (IH _ _ _ Hb x Hx). lia.
Qed.

Lemma value_at_stable H K key rev : (∀ x, x ∈ K → rev < x.1) → value_at (H ++ K) key rev = value_at H key rev.
Proof using.
  intros HK. unfold value_at. rewrite last_at_app.
  assert (last_at K key rev = None) as ->; [|done]. unfold last_at. rewrite filter_nil_in; [done|].
  intros x Hx [Hle _]. specialize (HK x Hx). lia.
Qed.

Lemma list_at_stable H K prefix fromKey rev :
  (∀ x, x ∈ K → rev < x.1) → list_at (H ++ K) prefix fromKey rev = list_at H prefix fromKey rev.
Proof using.
  intros HK. apply (kv_listing_unique H prefix fromKey rev); [|apply list_at_listing].
  destruct (list_at_listing (H ++ K) prefix fromKey rev) as [Hs He]. split; [done|].
  intros kv. rewrite He. by rewrite value_at_stable.
Qed.
End Refine.
