(* ===== verification/StoreProps.v ===== *)
(** * Properties of the store

    The theorems on store.go that the rest of the system relies on, each with
    an instance on a concrete store over the reference database. *)

From S2P Require Import Prelude Bytes WalEntry Os Pebble StoreKeys Store StoreSpec StoreInv StoreApply StoreRead StoreRefine.

(** ** A watcher over a run of the store *)

Section Watch.
Context {DB : Type} `{PI : Pebble DB} `{POk : !PebbleOk DB}.
Implicit Types s : Store DB.

(** The loop of a watcher over the successive states of the store it wakes up
    in: the events it sends and the next revision it waits for. *)
Fixpoint watch_run (prefix : bytes) (withPrevKV : bool) (next : Z) (ss : list (Store DB))
    : result (list Event * Z) :=
  match ss with
  | [] => Ok ([], next)
  | s :: ss' =>
      match watchIteration s None prefix next withPrevKV with
      | None => watch_run prefix withPrevKV next ss'
      | Some (Err e) => Err e
      | Some (Ok (evs, next')) =>
          res ← watch_run prefix withPrevKV next' ss';
          Ok (evs ++ res.1, res.2)
      end
  end.

(** Successive states: each extends the history with records above the
    previous current revision, and compaction has not passed the watcher. *)
Fixpoint chain (cur : Z) (H : hist) (ss : list (Store DB)) (Hn : hist) : Prop :=
  match ss with
  | [] => Hn = H
  | s :: ss' => ∃ K, Rel s (H ++ K) ∧ (∀ x, x ∈ K → cur < x.1) ∧ cur ≤ st_currentRev s ∧
      st_compactRev s ≤ cur + 1 ∧ st_closed s = false ∧ healthy (st_db s) ∧
      chain (st_currentRev s) (H ++ K) ss' Hn
  end.

Definition put_of (x : Z * record) : KeyValue := recordToKV (rc_key x.2) x.1 x.2.

Lemma chain_extends ss : ∀ cur H Hn,
  chain cur H ss Hn → ∃ K, Hn = H ++ K ∧ ∀ x, x ∈ K → cur < x.1.
Proof using.
  induction ss as [|s ss IH]; intros cur H Hn; cbn.
  { intros ->. exists []. split; [by rewrite app_nil_r|]. by intros x ?%not_elem_of_nil. }
  intros (K & _ & HK & Hcur & _ & _ & _ & Hc). destruct (IH _ _ _ Hc) as (K' & -> & HK').
  exists (K ++ K'). split; [by rewrite app_assoc|].
  intros x [Hx|Hx]%elem_of_app; [by apply HK|]. specialize (HK' x Hx). lia.
Qed.

Lemma watchIteration_reads s H prefix w cur K :
  Rel s (H ++ K) → (∀ x, x ∈ H → x.1 ≤ cur) → (∀ x, x ∈ K → cur < x.1) → 0 ≤ cur ≤ st_currentRev s →
  st_compactRev s ≤ cur + 1 → st_closed s = false → healthy (st_db s) →
  match watchIteration s None prefix (cur + 1) w with
  | None => K = [] ∧ st_currentRev s = cur
  | Some res => res = Ok (map (event_of s w) (filter (under prefix) K), st_currentRev s + 1)
  end.
Proof using POk.
  intros HR HH HK Hcur Hc Hcl Hh. pose proof (re_bound _ _ HR) as [Hb0 Hb1].
  unfold watchIteration, WaitForRevision. rewrite Hcl. destruct (Z.leb_spec (cur + 1) (st_currentRev s)).
  - destruct (scanLog_reads s (H ++ K) HR prefix (cur + 1) (st_currentRev s) w) as [n Hn];
      [unfold valid_rev in *; lia..|].
    rewrite (reads_healthy _ _ _ Hn Hh). cbn. do 3 f_equal.
    rewrite (alog_window s (H ++ K) HR) by done. rewrite filter_app, (filter_nil_in _ H).
    + cbn [app]. rewrite (filter_all_in (λ x : Z * record, cur + 1 ≤ x.1 ≤ st_currentRev s)); [done|].
      intros x Hx. specialize (HK x Hx).
      assert (x ∈ H ++ K) as Hin by (apply elem_of_app; by right). apply (re_cur _ _ HR) in Hin. lia.
    + intros x Hx. specialize (HH x Hx). lia.
  - split; [|lia]. destruct K as [|x K]; [done|exfalso].
    assert (x ∈ H ++ x :: K) as Hx by (apply elem_of_app; right; by left).
    apply (re_cur _ _ HR) in Hx. specialize (HK x (list_elem_of_here _ _)). lia.
Qed.

Lemma watch_run_spec prefix w ss : ∀ cur H Hn,
  0 ≤ cur → (∀ x, x ∈ H → x.1 ≤ cur) → chain cur H ss Hn →
  ∃ evs n, watch_run prefix w (cur + 1) ss = Ok (evs, n) ∧
    map ev_KV evs = map put_of (filter (under prefix) (filter (λ x, cur < x.1) Hn)).
Proof using POk.
  induction ss as [|s ss IH]; intros cur H Hn Hcur HH; cbn [chain watch_run].
  { intros ->. exists [], (cur + 1). split; [done|]. rewrite (filter_nil_in (λ x : Z * record, cur < x.1)); [done|].
    intros x Hx. specialize (HH x Hx). lia. }
  intros (K & HR & HK & Hle & Hc & Hcl & Hh & Hch).
  destruct (chain_extends ss _ _ _ Hch) as (K' & HKn & HK').
  assert (∀ x, x ∈ H ++ K → x.1 ≤ st_currentRev s) as HHK by (intros x Hx; apply (re_cur _ _ HR x Hx)).
  assert (∀ c, (∀ x, x ∈ H ++ K → x.1 ≤ c) → c ≤ st_currentRev s →
    filter (λ x, c < x.1) Hn = K') as Hnew.
  { intros c Hc1 Hc2. rewrite HKn, filter_app, (filter_nil_in _ (H ++ K)), filter_all_in; [done| |].
    - intros x Hx. specialize (HK' x Hx). lia.
    - intros x Hx. specialize (Hc1 x Hx). lia. }
  pose proof (watchIteration_reads s H prefix w cur K HR HH HK (conj Hcur Hle) Hc Hcl Hh) as Hw.
  destruct (watchIteration _ _ _ _ _) as [res|].
  - subst res. destruct (IH (st_currentRev s) (H ++ K) Hn) as (evs & n & Hrun & Hevs); [lia|done|done|].
    rewrite Hrun. cbn [mbind result_bind fst snd]. eexists _, _. split; [done|].
    rewrite map_app, Hevs, (Hnew (st_currentRev s)) by (done || lia).
    rewrite HKn, !filter_app, (filter_nil_in _ H),
      !(filter_all_in (λ x : Z * record, cur < x.1)).
    + rewrite filter_nil. cbn [app]. rewrite !map_app, map_map. done.
    + intros x Hx. specialize (HK' x Hx). lia.
    + done.
    + intros x Hx. specialize (HH x Hx). lia.
  - destruct Hw as [-> Heq]. rewrite app_nil_r in *. rewrite Heq in *. by apply (IH cur H).
Qed.
End Watch.

(** ** A concrete store *)

Definition empty_store : Store (gmap bytes bytes) := mkStore ∅ 0 0 0 0 false ∅.

Lemma empty_rel : Rel empty_store [].
Proof.
  assert (plog (db_map (st_db empty_store)) = []) as Hp by by vm_compute.
  split; try done; try (unfold valid_rev; cbn; lia); [|by intros x ?%not_elem_of_nil].
  split; unfold alog; rewrite ?Hp; try done; try constructor.
  - by intros kv ?%not_elem_of_nil.
  - by intros rev i v w _ _ ?%not_elem_of_nil.
Qed.

Definition key_a : bytes := str "a".
Definition key_b : bytes := str "b".

Definition batch1 : list Entry :=
  [ mkEntry 1 1 1 OpCreate key_a (str "v1") 0 1 0 1;
    mkEntry 2 2 1 OpTxn [] (EncodeTxnOps
      [ mkSubOp OpCreate key_b (str "w1") 0 2 0 1; mkSubOp OpUpdate key_a (str "v2") 0 1 1 2 ]) 0 0 0 0 ].

Definition batch2 : list Entry :=
  [ mkEntry 3 3 1 OpDelete key_b [] 0 2 2 0; mkEntry 4 3 1 OpCompact [] [] 0 0 2 0 ].

Definition store1 : Store (gmap bytes bytes) := (Apply batch1 empty_store).2.
Definition store2 : Store (gmap bytes bytes) := (Apply batch2 store1).2.

Lemma batch1_ok : batch_ok 0 0 0 batch1.
Proof. apply (bool_decide_unpack _). by vm_compute. Qed.

Lemma batch2_ok : batch_ok 2 2 0 batch2.
Proof. apply (bool_decide_unpack _). by vm_compute. Qed.

Lemma store1_rel : Rel store1 (batch_log batch1).
Proof.
  apply (Apply_refines empty_store [] batch1 (Ok tt) store1 empty_rel batch1_ok).
  unfold store1. rewrite (surjective_pairing (Apply batch1 empty_store)) at 1. by f_equal.
Qed.

Lemma store2_rel : Rel store2 (batch_log batch1 ++ batch_log batch2).
Proof.
  apply (Apply_refines store1 (batch_log batch1) batch2 (Ok tt) store2 store1_rel batch2_ok).
  unfold store2. rewrite (surjective_pairing (Apply batch2 store1)) at 1. by f_equal.
Qed.

(** ** Theorems *)

Section Theorems.
Context {DB : Type} `{PI : Pebble DB} `{POk : !PebbleOk DB}.
Implicit Types s : Store DB.

(** C10. Applying a batch refines extending the history: when [Apply] succeeds
    the store implements the history with the records of the batch appended;
    when it fails, for whatever reason, the database holds the history before
    the batch or after it, never a part of it, and the in-memory counters have
    not moved. *)
Theorem apply_refines_history s H es r s' :
  Rel s H → batch_ok (st_currentRev s) (st_lastSeq s) (st_compactRev s) es →
  Apply es s = (r, s') →
  match r with
  | Ok _ => Rel s' (H ++ batch_log es)
  | Err _ => all_or_nothing s H (batch_log es) s'
  end.
Proof using POk. apply Apply_refines. Qed.

(** C38. [Apply] does not get stuck or refuse a well-formed batch: over a
    database that answers every call it succeeds. *)
Theorem apply_succeeds s H es :
  healthy (st_db s) → (∀ b, (db_commit false b (st_db s)).1 = Ok tt) →
  Rel s H → batch_ok (st_currentRev s) (st_lastSeq s) (st_compactRev s) es →
  ∃ s', Apply es s = (Ok tt, s') ∧ Rel s' (H ++ batch_log es).
Proof using POk. apply Apply_total. Qed.

(** Replaying entries above the current revision with [Recover] has the
    effect of [Apply]: the history grows by the batch, or by nothing. *)
Theorem recover_refines_history s H es r s' :
  Rel s H → batch_ok (st_currentRev s) (st_lastSeq s) (st_compactRev s) es →
  Recover es s = (r, s') →
  match r with
  | Ok _ => Rel s' (H ++ batch_log es)
  | Err _ => all_or_nothing s H (batch_log es) s'
  end.
Proof using POk. apply Recover_refines. Qed.

(** C26. Point reads, current or at a revision, return the newest record of the
    key at or before the revision, nothing for a deleted or unknown key, and
    [ErrCompacted] or [ErrFutureRevision] exactly outside the readable
    revisions; a faulty database can make them fail but never lie. *)
Theorem point_reads_correct s H key revision :
  Rel s H → 0 < revision →
  reads s (Get s key) (value_at H key (st_currentRev s)) ∧
  reads s (Exists s key) (bool_decide (is_Some (value_at H key (st_currentRev s)))) ∧
  reads_at s revision (GetAt s key revision) (value_at H key revision) ∧
  reads_at s revision (ExistsAt s key revision) (bool_decide (is_Some (value_at H key revision))).
Proof using POk.
  intros HR Hr. split; [by apply Get_reads|]. split; [by apply Exists_reads|].
  split; [by apply GetAt_reads|by apply ExistsAt_reads].
Qed.

(** C27. Range reads return the live keys under the prefix from [FromKey] on, in
    key order and cut at the limit, and counts are the length of that list;
    the index scan of the current revision and the log scan of an earlier one
    agree with the same reference [list_at]. *)
Theorem range_reads_correct s H prefix opts :
  Rel s H → 0 ≤ ro_Revision opts →
  let rev := if ro_Revision opts =? 0 then st_currentRev s else ro_Revision opts in
  let l := list_at H prefix (ro_FromKey opts) rev in
  if ro_Revision opts =? 0
  then reads s (ListRange s prefix opts) (take_limit (ro_Limit opts) l) ∧
       reads s (CountRange s prefix opts) (zlen l)
  else reads_at s rev (ListRange s prefix opts) (take_limit (ro_Limit opts) l) ∧
       reads_at s rev (CountRange s prefix opts) (zlen l).
Proof using POk.
  intros HR Hr. pose proof (ListRange_reads s H prefix opts HR Hr) as Hl.
  pose proof (CountRange_reads s H prefix opts HR Hr) as Hc. cbv zeta.
  by destruct (ro_Revision opts =? 0).
Qed.

(** [Changes] above the compaction watermark returns exactly the records of
    the requested revisions under the prefix, in order, and attaches the
    previous value of every key whose previous record is not compacted. *)
Theorem changes_complete s H prefix a b :
  Rel s H → healthy (st_db s) → 0 < a → a ≤ b → st_compactRev s ≤ a →
  Changes s prefix a b =
    Ok (map (event_of s true) (filter (under prefix) (filter (λ x, a ≤ x.1 ≤ b) H))) ∧
  ∀ rev r r', (rc_prevRevision r, r') ∈ H → rc_key r' = rc_key r → 0 < rc_prevRevision r →
    st_compactRev s ≤ rc_prevRevision r →
    ev_PrevKV (event_of s true (rev, r)) = Some (recordToKV (rc_key r') (rc_prevRevision r) r').
Proof using POk.
  intros HR Hh Ha Hab Hc. split.
  - apply (reads_healthy s); [|done]. by apply Changes_reads.
  - intros rev r r' Hin Hk Hp Hc'. by apply (event_of_prev s H).
Qed.

(** Snapshots are immutable: reads at a revision that is not compacted give
    the same answers before and after any further batch, compactions at or
    below the revision included. *)
Theorem snapshot_stable s H es s' key prefix fromKey limit rev :
  Rel s H → batch_ok (st_currentRev s) (st_lastSeq s) (st_compactRev s) es →
  Apply es s = (Ok tt, s') → healthy (st_db s) → healthy (st_db s') →
  0 < rev ≤ st_currentRev s → st_compactRev s ≤ rev → st_compactRev s' ≤ rev →
  GetAt s' key rev = GetAt s key rev ∧
  ListRange s' prefix (mkOpts rev fromKey limit) = ListRange s prefix (mkOpts rev fromKey limit).
Proof using POk.
  intros HR Hb Ha Hh Hh' Hrev Hc Hc'.
  pose proof (Apply_refines s H es (Ok tt) s' HR Hb Ha) as HR'. cbn in HR'.
  assert (st_currentRev s ≤ st_currentRev s') as Hcur by (by apply (Apply_cur s H es s')).
  assert (∀ x, x ∈ batch_log es → rev < x.1) as HK.
  { intros x Hx. apply (batch_log_above _ _ _ _ Hb) in Hx. lia. }
  assert (∀ {A} (t : Store DB) res (a : A), healthy (st_db t) → st_compactRev t ≤ rev → rev ≤ st_currentRev t →
    reads_at t rev res a → res = Ok a) as Hres.
  { intros A t res a Ht Htc Htr. unfold reads_at. repeat case_decide; [lia..|]. intros Hx. by apply (reads_healthy t). }
  assert ((rev =? 0) = false) as Ez by (apply Z.eqb_neq; lia).
  split.
  - rewrite (Hres _ s' _ _ Hh' Hc' ltac:(lia) (GetAt_reads s' _ HR' key rev (proj1 Hrev))).
    rewrite (Hres _ s _ _ Hh Hc ltac:(lia) (GetAt_reads s _ HR key rev (proj1 Hrev))).
    by rewrite value_at_stable.
  - pose proof (ListRange_reads s' _ prefix (mkOpts rev fromKey limit) HR' ltac:(cbn; lia)) as H1.
    pose proof (ListRange_reads s _ prefix (mkOpts rev fromKey limit) HR ltac:(cbn; lia)) as H2.
    cbn [ro_Revision ro_FromKey ro_Limit] in H1, H2. rewrite Ez in H1, H2.
    rewrite (Hres _ s' _ _ Hh' Hc' ltac:(lia) H1), (Hres _ s _ _ Hh Hc ltac:(lia) H2).
    by rewrite list_at_stable.
Qed.

(** Reopening the database restores the store: the counters read back by
    [loadMeta] are those in memory and the history is the same. *)
Theorem reopen_restores s H s' :
  Rel s H → loadMeta (st_db s) = Ok s' →
  st_db s' = st_db s ∧ st_currentRev s' = st_currentRev s ∧ st_compactRev s' = st_compactRev s ∧
  st_lastSeq s' = st_lastSeq s ∧ Rel s' H.
Proof using POk. apply loadMeta_reads. Qed.

(** A watcher that keeps up with compaction sees every record under its
    prefix exactly once and in order, however its wake-ups interleave with
    the batches. *)
Theorem watch_exactly_once prefix withPrevKV ss cur H Hn :
  0 ≤ cur → (∀ x, x ∈ H → x.1 ≤ cur) → chain cur H ss Hn →
  ∃ evs n, watch_run prefix withPrevKV (cur + 1) ss = Ok (evs, n) ∧
    map ev_KV evs = map put_of (filter (under prefix) (filter (λ x, cur < x.1) Hn)).
Proof using POk. apply watch_run_spec. Qed.

End Theorems.

(** ** Instances on the concrete store *)

Lemma apply_run (es : list Entry) (s : Store (gmap bytes bytes)) :
  (Apply es s).1 = Ok tt → Apply es s = (Ok tt, (Apply es s).2).
Proof. destruct (Apply es s) as [r s']. cbn. by intros ->. Qed.

Lemma apply_refines_history_witness : Rel store2 (batch_log batch1 ++ batch_log batch2).
Proof.
  apply (apply_refines_history store1 (batch_log batch1) batch2 (Ok tt) store2 store1_rel batch2_ok).
  apply apply_run. by vm_compute.
Defined.

Lemma apply_succeeds_witness :
  ∃ s', Apply batch1 empty_store = (Ok tt, s') ∧ Rel s' (batch_log batch1).
Proof.
  apply (apply_succeeds empty_store [] batch1); [apply mem_healthy|done|apply empty_rel|apply batch1_ok].
Defined.

Definition recovered1 : Store (gmap bytes bytes) := (Recover batch1 empty_store).2.

Lemma recover_refines_history_witness : Rel recovered1 (batch_log batch1).
Proof.
  apply (recover_refines_history empty_store [] batch1 (Ok tt) recovered1 empty_rel batch1_ok).
  unfold recovered1. rewrite (surjective_pairing (Recover batch1 empty_store)) at 1. by f_equal.
Defined.

Lemma point_reads_correct_witness :
  reads_at store2 2 (GetAt store2 key_b 2) (Some (mkKV key_b (str "w1") 2 2 0 1 0)) ∧
  reads store2 (Get store2 key_b) None.
Proof.
  destruct (point_reads_correct store2 _ key_b 2 store2_rel) as (H1 & _ & H2 & _); [done|].
  split; [exact H2|exact H1].
Defined.

Lemma range_reads_correct_witness :
  reads_at store2 2 (ListRange store2 [] (mkOpts 2 [] 1)) [mkKV key_a (str "v2") 2 1 1 2 0].
Proof.
  destruct (range_reads_correct store2 _ [] (mkOpts 2 [] 1) store2_rel) as [H1 _]; [done|].
  exact H1.
Defined.

Lemma changes_complete_witness :
  Changes store2 key_b 2 9 =
  Ok (map (event_of store2 true) (filter (under key_b) (filter (λ x, 2 ≤ x.1 ≤ 9) (batch_log batch1 ++ batch_log batch2)))).
Proof.
  apply (changes_complete store2 (batch_log batch1 ++ batch_log batch2) key_b 2 9 store2_rel); done.
Defined.

Lemma snapshot_stable_witness :
  GetAt store2 key_b 2 = GetAt store1 key_b 2 ∧
  ListRange store2 [] (mkOpts 2 [] 0) = ListRange store1 [] (mkOpts 2 [] 0).
Proof.
  apply (snapshot_stable store1 (batch_log batch1) batch2 store2 key_b [] [] 0 2 store1_rel batch2_ok);
    [apply apply_run; by vm_compute|apply mem_healthy|apply mem_healthy|done..].
Defined.

Definition reopened2 : Store (gmap bytes bytes) :=
  match loadMeta (st_db store2) with Ok s => s | Err _ => empty_store end.

Lemma reopened2_run : loadMeta (st_db store2) = Ok reopened2.
Proof.
  assert (match loadMeta (st_db store2) with Ok _ => true | Err _ => false end = true) as Hok by by vm_compute.
  unfold reopened2. by destruct (loadMeta (st_db store2)).
Qed.

Lemma reopen_restores_witness : st_currentRev reopened2 = 3 ∧ st_compactRev reopened2 = 2.
Proof.
  destruct (reopen_restores store2 _ reopened2 store2_rel) as (_ & H1 & H2 & _);
    [apply reopened2_run|].
  split; [rewrite H1; by vm_compute|rewrite H2; by vm_compute].
Defined.

Lemma watch_exactly_once_witness :
  ∃ evs n, watch_run key_b true 1 [store1; store1; store2] = Ok (evs, n) ∧
    map ev_KV evs = [mkKV key_b (str "w1") 2 2 0 1 0; mkKV key_b [] 3 2 2 1 0].
Proof.
  apply (watch_exactly_once key_b true [store1; store1; store2] 0 [] (batch_log batch1 ++ batch_log batch2));
    [done|by intros x ?%not_elem_of_nil|].
  exists (batch_log batch1). split_and!; [apply store1_rel| |by vm_compute|by vm_compute|by vm_compute|apply mem_healthy|].
  { intros x Hx. by apply (batch_log_above 0 0 0 batch1 batch1_ok). }
  exists []. rewrite app_nil_r. split_and!; [apply store1_rel|by intros x ?%not_elem_of_nil|by vm_compute|by vm_compute|by vm_compute|apply mem_healthy|].
  exists (batch_log batch2). split_and!; [apply store2_rel| |by vm_compute|by vm_compute|by vm_compute|apply mem_healthy|done].
  intros x Hx. assert (st_currentRev store1 = 2) as -> by by vm_compute.
  by apply (batch_log_above 2 2 0 batch2 batch2_ok).
Defined.

(** ** Behaviour outside the invariant *)

Definition key_c : bytes := str "c".

Definition old_term_txn : Entry :=
  mkEntry 1 1 1 OpTxn [] (EncodeTxnOps
    [ mkSubOp OpCreate key_a (str "v1") 0 1 0 1; mkSubOp OpCreate key_b (str "w1") 0 1 0 1 ]) 0 0 0 0.
Definition new_term_put : Entry := mkEntry 2 1 2 OpCreate key_c (str "x1") 0 1 0 1.

(** A conflict [Recover] does not clean up: when a newer term wrote a single
    key at a revision where an older term had a transaction, the sub-entries
    and index pointers of the transaction stay, and reading a key of the
    discarded transaction returns the value of the other key. *)
Theorem recover_conflict_over_txn :
  let s1 := (Recover [old_term_txn] empty_store).2 in
  let s2 := (Recover [new_term_put] s1).2 in
  Get s2 key_a = Ok (Some (mkKV key_a (str "x1") 1 1 0 1 0)) ∧
  Get s2 key_c = Ok (Some (mkKV key_c (str "x1") 1 1 0 1 0)).
Proof. by vm_compute. Qed.

Definition three_puts : list Entry :=
  [ mkEntry 1 1 1 OpCreate key_a (str "v1") 0 1 0 1;
    mkEntry 2 2 1 OpUpdate key_a (str "v2") 0 1 1 2;
    mkEntry 3 3 1 OpUpdate key_a (str "v3") 0 1 2 3 ].
Definition compact_at (seq target : Z) : Entry := mkEntry seq 3 1 OpCompact [] [] 0 0 target 0.

(** A compaction target below the watermark is accepted and moves the
    watermark back: revisions whose records are gone become readable again,
    and a read there returns nothing instead of [ErrCompacted]. *)
Theorem compact_lower_target :
  let s1 := (Apply three_puts empty_store).2 in
  let s2 := (Apply [compact_at 4 3] s1).2 in
  let s3 := (Apply [compact_at 5 1] s2).2 in
  GetAt s1 key_a 2 = Ok (Some (mkKV key_a (str "v2") 2 1 1 2 0)) ∧
  GetAt s2 key_a 2 = Err ErrCompacted ∧
  GetAt s3 key_a 2 = Ok None.
Proof. by vm_compute. Qed.

(** A record kept by one compaction as the newest of its key is below the
    range the next compaction scans, so it stays in the log for good although
    it is superseded and below the watermark. *)
Theorem compact_leaves_superseded :
  let s1 := (Apply three_puts empty_store).2 in
  let s2 := (Apply [mkEntry 4 4 1 OpCreate key_b (str "w") 0 4 0 1; compact_at 5 4] s1).2 in
  let s3 := (Apply [mkEntry 6 5 1 OpUpdate key_a (str "v4") 0 1 3 4; compact_at 7 5] s2).2 in
  st_compactRev s3 = 5 ∧ map fst (alog (st_db s3)) = [3; 4; 5].
Proof. by vm_compute. Qed.
