(* ===== verification/Peer.v ===== *)
(** * Peer messages

    internal/peer/peer.go: the messages of the leader's WAL stream and of
    write forwarding, the binary codec of the hot-path messages, and the
    conversions between log entries and stream messages.  Messages other than
    [WalEntryMsg] and [AckMsg] travel as JSON, in [PeerCodec]. *)

From S2P Require Import Prelude Bytes WalEntry Store.

(** ** Stream messages *)

Record WalEntryMsg := mkMsg {
  m_ID : Z;
  m_Revision : Z;
  m_Term : Z;
  m_Op : Z;
  m_Key : bytes;
  m_Value : bytes;
  m_Lease : Z;
  m_CreateRevision : Z;
  m_PrevRevision : Z;
  m_Version : Z;
  m_CommitRevision : Z;
  m_CommitStartRevision : Z;
  m_Commit : bool;
  m_Shutdown : bool }.

#[global] Instance WalEntryMsg_eq_dec : EqDecision WalEntryMsg.
Proof. solve_decision. Defined.

Record FollowRequest := mkFollow { fr_FromRevision : Z; fr_NodeID : bytes }.

Definition EntryToMsg (e : Entry) : WalEntryMsg :=
  mkMsg (Sequence e) (e_Revision e) (e_Term e) (e_Op e) (e_Key e) (e_Value e) (e_Lease e)
    (e_CreateRevision e) (e_PrevRevision e) (e_Version e) 0 0 false false.

Definition MsgToEntry (m : WalEntryMsg) : Entry :=
  mkEntry (m_ID m) (m_Revision m) (m_Term m) (m_Op m) (m_Key m) (m_Value m) (m_Lease m)
    (m_CreateRevision m) (m_PrevRevision m) (m_Version m).

(** ** The binary codec *)

Definition walEntryMsgFixedSize : nat := 84.

Definition msg_flags (m : WalEntryMsg) : Z :=
  Z.lor (if m_Shutdown m then 1 else 0) (if m_Commit m then Z.shiftl 1 1 else 0).

Definition marshalWalEntryMsg (m : WalEntryMsg) : bytes :=
  le 8 (u64 (m_Revision m)) ++
  le 8 (m_Term m) ++
  le 8 (u64 (m_CreateRevision m)) ++
  le 8 (u64 (m_PrevRevision m)) ++
  le 8 (u64 (m_Lease m)) ++
  [byte_of (m_Op m); byte_of (msg_flags m); x00; x00] ++
  le 4 (u32 (zlen (m_Key m))) ++
  le 8 (u64 (m_CommitRevision m)) ++
  le 8 (u64 (m_CommitStartRevision m)) ++
  le 8 (u64 (m_ID m)) ++
  le 8 (u64 (m_Version m)) ++
  m_Key m ++
  le 4 (u32 (zlen (m_Value m))) ++
  m_Value m.

Definition le64_at (i : nat) (b : bytes) : Z := unle (slice i (i + 8) b).
Definition le32_at (i : nat) (b : bytes) : Z := unle (slice i (i + 4) b).
Definition byte_at (i : nat) (b : bytes) : Z := byte_val (default x00 (b !! i)).

Definition unmarshalWalEntryMsg (data : bytes) : result WalEntryMsg :=
  if (length data <? walEntryMsgFixedSize)%nat then Err (ErrText "peer: WalEntryMsg too short")
  else
    let flags := byte_at 41 data in
    let kl := Z.to_nat (le32_at 44 data) in
    if (length data <? walEntryMsgFixedSize + kl)%nat then
      Err (ErrText "peer: WalEntryMsg truncated at key")
    else
      let vl := Z.to_nat (le32_at (80 + kl) data) in
      if (length data <? walEntryMsgFixedSize + kl + vl)%nat then
        Err (ErrText "peer: WalEntryMsg truncated at value")
      else
        Ok (mkMsg (i64 (le64_at 64 data)) (i64 (le64_at 0 data)) (le64_at 8 data) (byte_at 40 data)
              (slice 80 (80 + kl) data) (take vl (drop (84 + kl) data))
              (i64 (le64_at 32 data)) (i64 (le64_at 16 data)) (i64 (le64_at 24 data))
              (i64 (le64_at 72 data)) (i64 (le64_at 48 data)) (i64 (le64_at 56 data))
              (negb (Z.land flags (Z.shiftl 1 1) =? 0)) (negb (Z.land flags 1 =? 0))).

Definition marshalAckMsg (revision : Z) : bytes := le 8 (u64 revision).
Definition unmarshalAckMsg (data : bytes) : result Z :=
  if (length data <? 8)%nat then Err (ErrText "peer: AckMsg too short")
  else Ok (i64 (le64_at 0 data)).

(** ** Forwarded writes *)

Inductive ForwardOp :=
  | ForwardPut | ForwardCreate | ForwardUpdate | ForwardDeleteIfRevision | ForwardCompact
  | ForwardGetRevision | ForwardTxn.

Record TxnCondMsg := mkCondMsg {
  cm_Key : bytes;
  cm_Target : Z;
  cm_Result : Z;
  cm_ModRevision : Z;
  cm_CreateRevision : Z;
  cm_Version : Z;
  cm_Value : bytes;
  cm_Lease : Z }.

Record TxnOpMsg := mkOpMsg { om_Type : Z; om_Key : bytes; om_Value : bytes; om_Lease : Z }.

Record TxnReqMsg := mkTxnMsg {
  tm_Conditions : list TxnCondMsg;
  tm_Success : list TxnOpMsg;
  tm_Failure : list TxnOpMsg }.

(** The wire form of a key-value pair has the fields of [KeyValue]. *)
Record ForwardRequest := mkFwd {
  fw_Op : ForwardOp;
  fw_Key : bytes;
  fw_Value : bytes;
  fw_Revision : Z;
  fw_Lease : Z;
  fw_TxnReq : option TxnReqMsg }.

Record ForwardResponse := mkResp {
  fp_Revision : Z;
  fp_OldKV : option KeyValue;
  fp_Succeeded : bool;
  fp_ErrCode : bytes;
  fp_ErrMsg : string;
  fp_DeletedKeys : list bytes }.

(** ** The codec inverts *)

Definition wf_msg (m : WalEntryMsg) : Prop :=
  is_i64 (m_ID m) ∧ is_i64 (m_Revision m) ∧ is_u64 (m_Term m) ∧ is_u8 (m_Op m) ∧
  is_i64 (m_Lease m) ∧ is_i64 (m_CreateRevision m) ∧ is_i64 (m_PrevRevision m) ∧
  is_i64 (m_Version m) ∧ is_i64 (m_CommitRevision m) ∧ is_i64 (m_CommitStartRevision m) ∧
  is_u32 (zlen (m_Key m)) ∧ is_u32 (zlen (m_Value m)).

#[global] Instance wf_msg_dec m : Decision (wf_msg m).
Proof. unfold wf_msg; apply _. Defined.

Lemma length_marshalWalEntryMsg m :
  length (marshalWalEntryMsg m) = (84 + length (m_Key m) + length (m_Value m))%nat.
Proof.
  unfold marshalWalEntryMsg. rewrite !length_app, !length_le. cbn [length]. lia.
Qed.

Lemma i64_unle_le_u64 z : is_i64 z → i64 (unle (le 8 (u64 z))) = z.
Proof. intros Hz. rewrite unle_le_u64, !i64_u64. by apply i64_id. Qed.

Lemma unle_le_u32_id z : is_u32 z → unle (le 4 (u32 z)) = z.
Proof. intros Hz. rewrite (u32_id z), unle_le_u32 by done. by apply u32_id. Qed.

Lemma zlen_to_nat {A} (l : list A) : Z.to_nat (zlen l) = length l.
Proof. apply Nat2Z.id. Qed.

(** The bytes after the fixed header. *)
Definition msg_tail (m : WalEntryMsg) : bytes :=
  m_Key m ++ le 4 (u32 (zlen (m_Value m))) ++ m_Value m.

Lemma msg_tail_drop m : drop 80 (marshalWalEntryMsg m) = msg_tail m.
Proof. reflexivity. Qed.

Lemma slice_drop i j b : slice (80 + i) (80 + j) b = slice i j (drop 80 b).
Proof. unfold slice. rewrite drop_drop. done. Qed.

Lemma msg_value_len m :
  is_u32 (zlen (m_Value m)) →
  le32_at (80 + length (m_Key m)) (marshalWalEntryMsg m) = zlen (m_Value m).
Proof.
  intros Hvl. unfold le32_at.
  replace (80 + length (m_Key m) + 4)%nat with (80 + (length (m_Key m) + 4))%nat by lia.
  rewrite slice_drop, msg_tail_drop. unfold slice, msg_tail. rewrite drop_app_length.
  replace (length (m_Key m) + 4 - length (m_Key m))%nat with 4%nat by lia.
  change (take 4 (le 4 (u32 (zlen (m_Value m))) ++ m_Value m)) with (le 4 (u32 (zlen (m_Value m)))).
  by apply unle_le_u32_id.
Qed.

Lemma unmarshal_marshalWalEntryMsg m : wf_msg m → unmarshalWalEntryMsg (marshalWalEntryMsg m) = Ok m.
Proof.
  intros (Hid & Hrev & Hterm & Hop & Hl & Hc & Hp & Hv & Hcr & Hcs & Hk & Hvl).
  unfold unmarshalWalEntryMsg. rewrite length_marshalWalEntryMsg. cbv zeta.
  change (le32_at 44 (marshalWalEntryMsg m)) with (unle (le 4 (u32 (zlen (m_Key m))))).
  rewrite unle_le_u32_id by done. rewrite zlen_to_nat.
  rewrite msg_value_len by done.
  rewrite zlen_to_nat. unfold walEntryMsgFixedSize.
  rewrite !(proj2 (Nat.ltb_ge _ _)) by lia.
  change (le64_at 0 (marshalWalEntryMsg m)) with (unle (le 8 (u64 (m_Revision m)))).
  change (le64_at 8 (marshalWalEntryMsg m)) with (unle (le 8 (m_Term m))).
  change (le64_at 16 (marshalWalEntryMsg m)) with (unle (le 8 (u64 (m_CreateRevision m)))).
  change (le64_at 24 (marshalWalEntryMsg m)) with (unle (le 8 (u64 (m_PrevRevision m)))).
  change (le64_at 32 (marshalWalEntryMsg m)) with (unle (le 8 (u64 (m_Lease m)))).
  change (byte_at 40 (marshalWalEntryMsg m)) with (byte_val (byte_of (m_Op m))).
  change (byte_at 41 (marshalWalEntryMsg m)) with (byte_val (byte_of (msg_flags m))).
  change (le64_at 48 (marshalWalEntryMsg m)) with (unle (le 8 (u64 (m_CommitRevision m)))).
  change (le64_at 56 (marshalWalEntryMsg m)) with (unle (le 8 (u64 (m_CommitStartRevision m)))).
  change (le64_at 64 (marshalWalEntryMsg m)) with (unle (le 8 (u64 (m_ID m)))).
  change (le64_at 72 (marshalWalEntryMsg m)) with (unle (le 8 (u64 (m_Version m)))).
  rewrite !i64_unle_le_u64, unle_le_u64, u64_id, byte_val_of_u8 by done.
  assert (slice 80 (80 + length (m_Key m)) (marshalWalEntryMsg m) = m_Key m) as ->.
  { rewrite (slice_drop 0), msg_tail_drop. unfold slice, msg_tail. cbn [drop]. rewrite Nat.sub_0_r.
    apply take_app_length. }
  assert (drop (84 + length (m_Key m)) (marshalWalEntryMsg m) = m_Value m) as ->.
  { replace (84 + length (m_Key m))%nat with (80 + (length (m_Key m) + 4))%nat by lia.
    rewrite <- drop_drop, msg_tail_drop. unfold msg_tail. rewrite app_assoc, drop_app_length'; [done|].
    by rewrite length_app, length_le. }
  rewrite take_ge by done. destruct m as [? ? ? ? ? ? ? ? ? ? ? ? [] []]; reflexivity.
Qed.

(** A message cut short is refused. *)
Lemma unmarshal_truncated m n :
  wf_msg m → (n < length (marshalWalEntryMsg m))%nat →
  ∃ e, unmarshalWalEntryMsg (take n (marshalWalEntryMsg m)) = Err e.
Proof.
  intros Hwf Hn. pose proof Hwf as (_ & _ & _ & _ & _ & _ & _ & _ & _ & _ & Hk & Hvl).
  rewrite length_marshalWalEntryMsg in Hn.
  unfold unmarshalWalEntryMsg, walEntryMsgFixedSize. rewrite length_take, length_marshalWalEntryMsg.
  destruct (Nat.ltb_spec (n `min` (84 + length (m_Key m) + length (m_Value m)))%nat 84); [by eexists|].
  assert (∀ i j, (j ≤ n)%nat → slice i j (take n (marshalWalEntryMsg m)) = slice i j (marshalWalEntryMsg m)) as Hs.
  { intros i j Hj. unfold slice. rewrite skipn_firstn_comm, take_take. f_equal. lia. }
  cbv zeta.
  assert (le32_at 44 (take n (marshalWalEntryMsg m)) = zlen (m_Key m)) as ->.
  { unfold le32_at. rewrite Hs by lia.
    change (slice 44 (44 + 4) (marshalWalEntryMsg m)) with (le 4 (u32 (zlen (m_Key m)))).
    by apply unle_le_u32_id. }
  rewrite zlen_to_nat.
  destruct (Nat.ltb_spec (n `min` (84 + length (m_Key m) + length (m_Value m)))%nat (84 + length (m_Key m)));
    [by eexists|].
  assert (le32_at (80 + length (m_Key m)) (take n (marshalWalEntryMsg m)) = zlen (m_Value m)) as ->.
  { unfold le32_at. rewrite Hs by lia. fold (le32_at (80 + length (m_Key m)) (marshalWalEntryMsg m)).
    by apply msg_value_len. }
  rewrite zlen_to_nat. rewrite (proj2 (Nat.ltb_lt _ _)) by lia. by eexists.
Qed.

(** An entry streamed to a follower arrives as it is in the leader's log: the
    binary codec and the conversions give back the entry with its sequence as
    identity, and a message cut at any point is refused, not misread. *)
Theorem stream_entry_roundtrip e n :
  wf_entry e →
  let m := marshalWalEntryMsg (EntryToMsg e) in
  MsgToEntry <$> unmarshalWalEntryMsg m = Ok (with_sequence e) ∧
  ((n < length m)%nat → ∃ er, unmarshalWalEntryMsg (take n m) = Err er).
Proof.
  intros Hwf. assert (wf_msg (EntryToMsg e)) as Hm.
  { pose proof (Sequence_i64 e Hwf). destruct Hwf as (Hop & Hid & Hrev & Hterm & Hl & Hc & Hp & Hv & Hlen).
    pose proof (zlen_nonneg (e_Key e)). pose proof (zlen_nonneg (e_Value e)).
    unfold wf_msg, EntryToMsg. cbn. unfold is_u32. split_and!; try done; lia. }
  cbv zeta. split; [by rewrite unmarshal_marshalWalEntryMsg|]. by apply unmarshal_truncated.
Qed.

Lemma stream_entry_roundtrip_witness :
  MsgToEntry <$> unmarshalWalEntryMsg (marshalWalEntryMsg (EntryToMsg sample_entry)) =
  Ok (with_sequence sample_entry).
Proof. apply (stream_entry_roundtrip sample_entry 0). vm_compute. intuition congruence. Defined.
