(* ===== verification/Node.v ===== *)
(** * The write path of the node

    writes.go and the commit loop of leader.go.  A write prepares its WAL
    entry under the node's mutex, against the state it will be applied to
    (the in-flight writes in [pending], then the store), queues it, and waits;
    the commit loop takes a prefix of the queue, appends it to the WAL, sends
    it to the followers and applies it to the store.  A method is a function
    on the node that returns its answer, or the entry it waits for with what
    it does with the outcome, or the request it forwards to the leader. *)

From S2P Require Import Prelude Bytes WalEntry Os Wal Pebble StoreKeys Store Peer.

(** ** Transactions *)

Definition TxnCondMod : Z := 0.
Definition TxnCondVersion : Z := 1.
Definition TxnCondCreate : Z := 2.
Definition TxnCondValue : Z := 3.
Definition TxnCondLease : Z := 4.

Definition TxnCondEqual : Z := 0.
Definition TxnCondNotEqual : Z := 1.
Definition TxnCondGreater : Z := 2.
Definition TxnCondLess : Z := 3.

Record TxnCondition := mkCond {
  tc_Key : bytes;
  tc_Target : Z;
  tc_Result : Z;
  tc_ModRevision : Z;
  tc_CreateRevision : Z;
  tc_Version : Z;
  tc_Value : bytes;
  tc_Lease : Z }.

Definition TxnPut : Z := 0.
Definition TxnDelete : Z := 1.

Record TxnOp := mkOp { to_Type : Z; to_Key : bytes; to_Value : bytes; to_Lease : Z }.

Record TxnRequest := mkTxn {
  tr_Conditions : list TxnCondition;
  tr_Success : list TxnOp;
  tr_Failure : list TxnOp }.

Record TxnResponse := mkTxnResp {
  tp_Succeeded : bool;
  tp_Revision : Z;
  tp_DeletedKeys : list bytes }.

(** Conversions to and from the forwarded form. *)
Definition txnOpsToMsg (ops : list TxnOp) : list TxnOpMsg :=
  map (λ op, mkOpMsg (u8 (to_Type op)) (to_Key op) (to_Value op) (to_Lease op)) ops.

Definition txnToForwardRequest (req : TxnRequest) : ForwardRequest :=
  mkFwd ForwardTxn [] [] 0 0
    (Some (mkTxnMsg
       (map (λ c, mkCondMsg (tc_Key c) (u8 (tc_Target c)) (u8 (tc_Result c)) (tc_ModRevision c)
                    (tc_CreateRevision c) (tc_Version c) (tc_Value c) (tc_Lease c)) (tr_Conditions req))
       (txnOpsToMsg (tr_Success req)) (txnOpsToMsg (tr_Failure req)))).

Definition msgToTxnOps (msgs : list TxnOpMsg) : list TxnOp :=
  map (λ m, mkOp (om_Type m) (om_Key m) (om_Value m) (om_Lease m)) msgs.

Definition forwardMsgToTxnRequest (m : TxnReqMsg) : TxnRequest :=
  mkTxn
    (map (λ c, mkCond (cm_Key c) (cm_Target c) (cm_Result c) (cm_ModRevision c)
                 (cm_CreateRevision c) (cm_Version c) (cm_Value c) (cm_Lease c)) (tm_Conditions m))
    (msgToTxnOps (tm_Success m)) (msgToTxnOps (tm_Failure m)).

(** ** Errors on the wire *)

(** [err.Error()], up to the prefixes of wrapped errors; those of the etcd API
    are made after a response has been decoded and are not sent to peers. *)
Definition Error (e : err) : string :=
  match e with
  | ErrEOF => "EOF"
  | ErrUnexpectedEOF => "unexpected EOF"
  | ErrClosed => "t4: node is closed"
  | ErrCompacted => "store: requested revision has been compacted"
  | ErrFutureRevision => "store: requested revision is in the future"
  | ErrKeyExists => "t4: key already exists"
  | ErrNoLeader => "t4: no leader"
  | ErrNotFound => "object: not found"
  | ErrPreconditionFailed => "object: precondition failed"
  | ErrNotExist => "file does not exist"
  | ErrCanceled => "context canceled"
  | ErrDeadlineExceeded => "context deadline exceeded"
  | ErrResyncRequired => "resync_required"
  | ErrLeaderUnreachable => "leader_unreachable"
  | ErrLeaderShutdown => "leader_shutdown"
  | ErrGRPCNoLeader | ErrGRPCCompacted | ErrGRPCFutureRev => "rpctypes"
  | ErrStatus _ msg => msg
  | ErrText msg => msg
  end.

Definition encodeErr (e : option err) : bytes * string :=
  match e with
  | None => ([], ""%string)
  | Some ErrKeyExists => (str "key_exists", ""%string)
  | Some e => (str "error", Error e)
  end.

Definition decodeErr (code : bytes) (msg : string) : option err :=
  if bool_decide (code = []) then None
  else if bool_decide (code = str "key_exists") then Some ErrKeyExists
  else Some (ErrText msg).

(** ** Versions *)

Definition kvVersion (kv : option KeyValue) : Z :=
  match kv with
  | None => 0
  | Some kv => if 0 <? kv_Version kv then kv_Version kv else 1
  end.

Definition nextPutVersion (existing : option KeyValue) : Z :=
  match existing with None => 1 | Some _ => i64 (kvVersion existing + 1) end.

(** ** Conditions *)

Definition txnCondMatches (cond : TxnCondition) (existing : option KeyValue) : bool :=
  let modRev := match existing with Some kv => kv_Revision kv | None => 0 end in
  let createRev := match existing with Some kv => kv_CreateRevision kv | None => 0 end in
  let version := kvVersion existing in
  let lease := match existing with Some kv => kv_Lease kv | None => 0 end in
  let val := match existing with Some kv => kv_Value kv | None => [] end in
  let compare lhs rhs :=
    if tc_Result cond =? TxnCondEqual then lhs =? rhs
    else if tc_Result cond =? TxnCondNotEqual then negb (lhs =? rhs)
    else if tc_Result cond =? TxnCondGreater then rhs <? lhs
    else if tc_Result cond =? TxnCondLess then lhs <? rhs
    else false in
  if tc_Target cond =? TxnCondMod then compare modRev (tc_ModRevision cond)
  else if tc_Target cond =? TxnCondVersion then compare version (tc_Version cond)
  else if tc_Target cond =? TxnCondCreate then compare createRev (tc_CreateRevision cond)
  else if tc_Target cond =? TxnCondLease then compare lease (tc_Lease cond)
  else if tc_Target cond =? TxnCondValue then
    if tc_Result cond =? TxnCondEqual then bool_decide (val = tc_Value cond)
    else if tc_Result cond =? TxnCondNotEqual then negb (bool_decide (val = tc_Value cond))
    else false
  else false.

(** ** The node *)

Record pendingKV := mkPending { pd_rev : Z; pd_deleted : bool; pd_kv : option KeyValue }.

Inductive nodeRole := roleSingle | roleLeader | roleFollower.

#[global] Instance nodeRole_eq_dec : EqDecision nodeRole.
Proof. solve_decision. Defined.

(** What the commit loop uses of the WAL ([WALWriter] of config.go); the first
    argument is [ctx.Err()] at the call. *)
Class WALWriter (L : Type) : Type := {
  wal_AppendBatch : option err → list Entry → ST L () }.

(** The WAL of internal/wal is one. *)
#[global] Instance wal_writer {S : Type} (uploader : option (bytes → bytes → ST (world S) ()))
  : WALWriter (WAL * world S) := {| wal_AppendBatch := AppendBatch uploader |}.

(** What it uses of the peer server. *)
Class PeerServer (R : Type) : Type := {
  ps_Broadcast : Entry → R → R;
  ps_BroadcastCommit : Z → Z → R → R;
  ps_WaitForFollowers : Z → ST R () }.

Record Node (DB L R : Type) := mkNode {
  n_db : Store DB;
  n_wal : L;
  n_peerSrv : option R;
  n_term : Z;
  n_role : nodeRole;
  n_closed : bool;
  n_nextRev : Z;
  n_nextSeq : Z;
  n_pending : gmap bytes pendingKV;
  n_writeC : list Entry }.
Arguments mkNode {DB L R} _ _ _ _ _ _ _ _ _ _.
Arguments n_db {DB L R} _.
Arguments n_wal {DB L R} _.
Arguments n_peerSrv {DB L R} _.
Arguments n_term {DB L R} _.
Arguments n_role {DB L R} _.
Arguments n_closed {DB L R} _.
Arguments n_nextRev {DB L R} _.
Arguments n_nextSeq {DB L R} _.
Arguments n_pending {DB L R} _.
Arguments n_writeC {DB L R} _.

(** The answer of a method: at once, after the commit of an entry, or from the
    leader. *)
Inductive outcome (A : Type) :=
  | Done (a : A)
  | Wait (e : Entry) (after : result Z → A)
  | Forwarded (req : ForwardRequest) (after : result ForwardResponse → A).
Arguments Done {A} _.
Arguments Wait {A} _ _.
Arguments Forwarded {A} _ _.

Section Node.
Context {DB L R : Type} `{PI : Pebble DB} `{WI : WALWriter L} `{RI : PeerServer R}.
Local Notation Node := (Node DB L R).
Implicit Types n : Node.

Definition set_counters (rev seq : Z) n : Node :=
  mkNode (n_db n) (n_wal n) (n_peerSrv n) (n_term n) (n_role n) (n_closed n) rev seq
    (n_pending n) (n_writeC n).
Definition set_pending (p : gmap bytes pendingKV) n : Node :=
  mkNode (n_db n) (n_wal n) (n_peerSrv n) (n_term n) (n_role n) (n_closed n) (n_nextRev n)
    (n_nextSeq n) p (n_writeC n).
Definition set_writeC (q : list Entry) n : Node :=
  mkNode (n_db n) (n_wal n) (n_peerSrv n) (n_term n) (n_role n) (n_closed n) (n_nextRev n)
    (n_nextSeq n) (n_pending n) q.
Definition set_n_closed (c : bool) n : Node :=
  mkNode (n_db n) (n_wal n) (n_peerSrv n) (n_term n) (n_role n) c (n_nextRev n)
    (n_nextSeq n) (n_pending n) (n_writeC n).
Definition set_n_db (d : Store DB) n : Node :=
  mkNode d (n_wal n) (n_peerSrv n) (n_term n) (n_role n) (n_closed n) (n_nextRev n)
    (n_nextSeq n) (n_pending n) (n_writeC n).
Definition set_n_wal (l : L) n : Node :=
  mkNode (n_db n) l (n_peerSrv n) (n_term n) (n_role n) (n_closed n) (n_nextRev n)
    (n_nextSeq n) (n_pending n) (n_writeC n).
Definition set_peerSrv (r : option R) n : Node :=
  mkNode (n_db n) (n_wal n) r (n_term n) (n_role n) (n_closed n) (n_nextRev n)
    (n_nextSeq n) (n_pending n) (n_writeC n).

(** ** Preparing entries *)

Definition readKey n (key : bytes) : result (option KeyValue) :=
  match n_pending n !! key with
  | Some p => if pd_deleted p then Ok None else Ok (pd_kv p)
  | None => Get (n_db n) key
  end.

(** [n.nextRev++; n.nextSeq++]: the new revision and sequence. *)
Definition nextIds : ST Node (Z * Z) :=
  n ← get_st;
  let rev := i64 (n_nextRev n + 1) in
  let seq := i64 (n_nextSeq n + 1) in
  modify (set_counters rev seq);;
  mret (rev, seq).

Definition addPending (key : bytes) (p : pendingKV) : ST Node () :=
  modify (λ n, set_pending (<[key := p]> (n_pending n)) n).

Definition preparePut (key value : bytes) (lease : Z) : ST Node Entry :=
  n ← get_st;
  existing ← from_result (readKey n key);
  '(newRev, seq) ← nextIds;
  let '(op, createRev, prevRev) :=
    match existing with
    | None => (OpCreate, newRev, 0)
    | Some kv => (OpUpdate, kv_CreateRevision kv, kv_Revision kv)
    end in
  let version := nextPutVersion existing in
  addPending key (mkPending newRev false
    (Some (mkKV key value newRev createRev prevRev version lease)));;
  mret (mkEntry seq newRev (n_term n) op key value lease createRev prevRev version).

(** A zero entry when the key does not exist. *)
Definition zeroEntry : Entry := mkEntry 0 0 0 0 [] [] 0 0 0 0.

Definition prepareDelete (key : bytes) : ST Node Entry :=
  n ← get_st;
  existing ← from_result (readKey n key);
  match existing with
  | None => mret zeroEntry
  | Some kv =>
      '(newRev, seq) ← nextIds;
      addPending key (mkPending newRev true None);;
      mret (mkEntry seq newRev (n_term n) OpDelete key [] 0 (kv_CreateRevision kv)
              (kv_Revision kv) (kvVersion existing))
  end.

(** The conditions in order, up to the first that does not hold. *)
Fixpoint evalConds n (conds : list TxnCondition) : result bool :=
  match conds with
  | [] => Ok true
  | c :: conds' =>
      existing ← readKey n (tc_Key c);
      if txnCondMatches c existing then evalConds n conds' else Ok false
  end.

Record resolvedOp := mkResolved {
  ro_walOp : Z;
  ro_key : bytes;
  ro_value : bytes;
  ro_lease : Z;
  ro_createRevision : Z;
  ro_prevRevision : Z;
  ro_version : Z }.

(** Operations of other types are ignored; a delete of a missing key is
    skipped. *)
Definition resolveOp n (op : TxnOp) : result (option resolvedOp) :=
  existing ← readKey n (to_Key op);
  if to_Type op =? TxnPut then
    Ok (Some (match existing with
              | None => mkResolved OpCreate (to_Key op) (to_Value op) (to_Lease op) 0 0 1
              | Some kv => mkResolved OpUpdate (to_Key op) (to_Value op) (to_Lease op)
                             (kv_CreateRevision kv) (kv_Revision kv) (i64 (kvVersion existing + 1))
              end))
  else if to_Type op =? TxnDelete then
    Ok (match existing with
        | None => None
        | Some kv => Some (mkResolved OpDelete (to_Key op) [] 0 (kv_CreateRevision kv)
                             (kv_Revision kv) (kvVersion existing))
        end)
  else Ok None.

Fixpoint resolveOps n (ops : list TxnOp) : result (list resolvedOp) :=
  match ops with
  | [] => Ok []
  | op :: ops' =>
      r ← resolveOp n op;
      rs ← resolveOps n ops';
      Ok (match r with Some r => r :: rs | None => rs end)
  end.

(** The sub-operation and the pending entry of an active operation. *)
Definition subOp (newRev : Z) (r : resolvedOp) : TxnSubOp :=
  mkSubOp (ro_walOp r) (ro_key r) (ro_value r) (ro_lease r)
    (if ro_walOp r =? OpCreate then newRev else ro_createRevision r) (ro_prevRevision r) (ro_version r).

Definition pendingOf (newRev : Z) (r : resolvedOp) : pendingKV :=
  if ro_walOp r =? OpDelete then mkPending newRev true None
  else mkPending newRev false
    (Some (mkKV (ro_key r) (ro_value r) newRev
             (if ro_walOp r =? OpCreate then newRev else ro_createRevision r)
             (ro_prevRevision r) (ro_version r) (ro_lease r))).

Fixpoint addPendings (newRev : Z) (rs : list resolvedOp) : ST Node () :=
  match rs with
  | [] => mret tt
  | r :: rs' => addPending (ro_key r) (pendingOf newRev r);; addPendings newRev rs'
  end.

Definition prepareTxn (req : TxnRequest) : ST Node (Entry * bool * list bytes) :=
  n ← get_st;
  succeeded ← from_result (evalConds n (tr_Conditions req));
  let ops := if succeeded : bool then tr_Success req else tr_Failure req in
  match ops with
  | [] => mret (zeroEntry, succeeded, [])
  | _ =>
      active ← from_result (resolveOps n ops);
      match active with
      | [] => mret (zeroEntry, succeeded, [])
      | _ =>
          if 65535 <? zlen active then throw (ErrText "txn: too many ops")
          else if negb (bool_decide (NoDup (map ro_key active))) then
            throw (ErrText "txn: duplicate key in branch")
          else
            '(newRev, seq) ← nextIds;
            addPendings newRev active;;
            let deletedKeys := map ro_key (filter (λ r, ro_walOp r = OpDelete) active) in
            mret (mkEntry seq newRev (n_term n) OpTxn [] (EncodeTxnOps (map (subOp newRev) active))
                    0 0 0 0, succeeded, deletedKeys)
      end
  end.

(** [n.writeC <- req]. *)
Definition enqueueReq (e : Entry) : ST Node () := modify (λ n, set_writeC (n_writeC n ++ [e]) n).

(** ** Methods *)

(** A response from the leader: the RPC error, or what the leader answered. *)
Definition fromResponse {A} (f : ForwardResponse → A) (r : result ForwardResponse) : result A :=
  match r with
  | Err e => Err e
  | Ok resp =>
      match decodeErr (fp_ErrCode resp) (fp_ErrMsg resp) with
      | Some e => Err e
      | None => Ok (f resp)
      end
  end.

Definition Put (key value : bytes) (lease : Z) : ST Node (outcome (result Z)) :=
  n ← get_st;
  if n_closed n then mret (Done (Err ErrClosed))
  else if bool_decide (n_role n = roleFollower) then
    mret (Forwarded (mkFwd ForwardPut key value 0 lease None) (fromResponse fp_Revision))
  else
    r ← try (preparePut key value lease);
    match r with
    | Err e => mret (Done (Err e))
    | Ok e => enqueueReq e;; mret (Wait e id)
    end.

Definition Create (key value : bytes) (lease : Z) : ST Node (outcome (result Z)) :=
  n ← get_st;
  if bool_decide (n_role n = roleFollower) then
    mret (Forwarded (mkFwd ForwardCreate key value 0 lease None) (fromResponse fp_Revision))
  else if n_closed n then mret (Done (Err ErrClosed))
  else
    match readKey n key with
    | Err e => mret (Done (Err e))
    | Ok (Some _) => mret (Done (Err ErrKeyExists))
    | Ok None =>
        '(newRev, seq) ← nextIds;
        addPending key (mkPending newRev false (Some (mkKV key value newRev newRev 0 1 lease)));;
        let e := mkEntry seq newRev (n_term n) OpCreate key value lease newRev 0 1 in
        enqueueReq e;;
        mret (Wait e id)
    end.

(** The revision, the previous value and whether the comparison held. *)
Definition Update (key value : bytes) (revision lease : Z)
    : ST Node (outcome (result (Z * option KeyValue * bool))) :=
  n ← get_st;
  if bool_decide (n_role n = roleFollower) then
    mret (Forwarded (mkFwd ForwardUpdate key value revision lease None)
      (fromResponse (λ resp, (fp_Revision resp, fp_OldKV resp, fp_Succeeded resp))))
  else if n_closed n then mret (Done (Err ErrClosed))
  else
    match readKey n key with
    | Err e => mret (Done (Err e))
    | Ok existing =>
        match existing with
        | Some kv =>
            if kv_Revision kv =? revision then
              '(newRev, seq) ← nextIds;
              let version := i64 (kvVersion existing + 1) in
              addPending key (mkPending newRev false
                (Some (mkKV key value newRev (kv_CreateRevision kv) (kv_Revision kv) version lease)));;
              let e := mkEntry seq newRev (n_term n) OpUpdate key value lease
                         (kv_CreateRevision kv) (kv_Revision kv) version in
              enqueueReq e;;
              mret (Wait e (λ r, rev ← r; Ok (rev, existing, true)))
            else mret (Done (Ok (st_currentRev (n_db n), existing, false)))
        | None => mret (Done (Ok (st_currentRev (n_db n), None, false)))
        end
    end.

Definition Delete (key : bytes) : ST Node (outcome (result Z)) :=
  n ← get_st;
  if bool_decide (n_role n = roleFollower) then
    mret (Forwarded (mkFwd ForwardDeleteIfRevision key [] 0 0 None) (fromResponse fp_Revision))
  else if n_closed n then mret (Done (Err ErrClosed))
  else
    r ← try (prepareDelete key);
    match r with
    | Err e => mret (Done (Err e))
    | Ok e =>
        if bool_decide (e_Key e = []) then mret (Done (Ok 0))
        else enqueueReq e;; mret (Wait e id)
    end.

Definition DeleteIfRevision (key : bytes) (revision : Z)
    : ST Node (outcome (result (Z * option KeyValue * bool))) :=
  n ← get_st;
  if bool_decide (n_role n = roleFollower) then
    mret (Forwarded (mkFwd ForwardDeleteIfRevision key [] revision 0 None)
      (fromResponse (λ resp, (fp_Revision resp, fp_OldKV resp, fp_Succeeded resp))))
  else if n_closed n then mret (Done (Err ErrClosed))
  else
    match readKey n key with
    | Err e => mret (Done (Err e))
    | Ok None => mret (Done (Ok (st_currentRev (n_db n), None, false)))
    | Ok (Some kv) =>
        if negb (revision =? 0) && negb (kv_Revision kv =? revision) then
          mret (Done (Ok (st_currentRev (n_db n), Some kv, false)))
        else
          r ← try (prepareDelete key);
          match r with
          | Err e => mret (Done (Err e))
          | Ok e =>
              if bool_decide (e_Key e = []) then mret (Done (Ok (0, None, false)))
              else enqueueReq e;; mret (Wait e (λ r, rev ← r; Ok (rev, Some kv, true)))
          end
    end.

Definition Txn (req : TxnRequest) : ST Node (outcome (result TxnResponse)) :=
  n ← get_st;
  if n_closed n then mret (Done (Err ErrClosed))
  else if bool_decide (n_role n = roleFollower) then
    mret (Forwarded (txnToForwardRequest req)
      (fromResponse (λ resp, mkTxnResp (fp_Succeeded resp) (fp_Revision resp) (fp_DeletedKeys resp))))
  else
    r ← try (prepareTxn req);
    match r with
    | Err e => mret (Done (Err e))
    | Ok (e, succeeded, deletedKeys) =>
        if e_Op e =? 0 then mret (Done (Ok (mkTxnResp succeeded (st_currentRev (n_db n)) [])))
        else enqueueReq e;; mret (Wait e (λ r, rev ← r; Ok (mkTxnResp succeeded rev deletedKeys)))
    end.

Definition Compact (revision : Z) : ST Node (outcome (result ())) :=
  n ← get_st;
  if bool_decide (n_role n = roleFollower) then
    mret (Forwarded (mkFwd ForwardCompact [] [] revision 0 None) (fromResponse (λ _, tt)))
  else if n_closed n then mret (Done (Err ErrClosed))
  else
    let seq := i64 (n_nextSeq n + 1) in
    modify (set_counters (n_nextRev n) seq);;
    let e := mkEntry seq (n_nextRev n) (n_term n) OpCompact [] [] 0 0 revision 0 in
    enqueueReq e;;
    mret (Wait e (λ r, _ ← r; Ok tt)).

(** ** Waiting *)

(** Remove the in-flight entry of a key unless a newer write replaced it. *)
Definition dropPending (rev : Z) (p : gmap bytes pendingKV) (key : bytes) : gmap bytes pendingKV :=
  match p !! key with
  | Some q => if pd_rev q =? rev then delete key p else p
  | None => p
  end.

(** [await] when the commit loop answers: the in-flight entry is removed and
    the revision returned. *)
Definition await (key : bytes) (rev : Z) (res : result ()) : ST Node (result Z) :=
  modify (λ n, if bool_decide (key = []) then n else set_pending (dropPending rev (n_pending n) key) n);;
  mret (_ ← res; Ok rev).

Definition clearPendingEntry (p : gmap bytes pendingKV) (e : Entry) : gmap bytes pendingKV :=
  if e_Op e =? OpTxn then
    match DecodeTxnOps (e_Value e) with
    | Ok ops => fold_left (dropPending (e_Revision e)) (map so_Key ops) p
    | Err _ => p
    end
  else if bool_decide (e_Key e = []) then p
  else dropPending (e_Revision e) p (e_Key e).

Definition clearPendingBatch (batch : list Entry) : ST Node () :=
  modify (λ n, set_pending (fold_left clearPendingEntry batch (n_pending n)) n).

(** ** The commit loop *)

(** Appending the batch to the WAL, and, with followers, sending it to them
    and waiting for their acknowledgements. *)
Definition replicateBatch (ctxErr : option err) (batch : list Entry) : ST Node () :=
  n ← get_st;
  r ← try (zoom n_wal set_n_wal (wal_AppendBatch ctxErr batch));
  match n_peerSrv n with
  | None => from_result r
  | Some srv =>
      let srv := fold_left (λ s e, ps_Broadcast e s) batch srv in
      match r, batch with
      | Ok _, e0 :: _ =>
          let startRev := Sequence e0 in
          let maxRev := Sequence (List.last batch e0) in
          let '(w, srv) := ps_WaitForFollowers maxRev (ps_BroadcastCommit startRev maxRev srv) in
          modify (set_peerSrv (Some srv));;
          from_result w
      | _, _ =>
          modify (set_peerSrv (Some srv));;
          from_result r
      end
  end.

(** A batch that failed because its callers gave up does not stop the loop. *)
Definition isCancellation (e : err) : bool :=
  match e with ErrCanceled | ErrDeadlineExceeded => true | _ => false end.

(** The end of the loop: the node is fenced and the queue answered with
    [ErrClosed]. *)
Definition stopLoop : ST Node (list Entry) :=
  n ← get_st;
  modify (λ n, set_writeC [] (set_n_closed true n));;
  mret (n_writeC n).

(** One iteration: the batch, what its callers are told, and, when the loop
    ends, the requests that are answered with [ErrClosed]. *)
Definition commitStep (k : nat) (ctxErr : option err) : ST Node (list Entry * result () * list Entry) :=
  n ← get_st;
  let batch := take k (n_writeC n) in
  modify (set_writeC (drop k (n_writeC n)));;
  res ← try (replicateBatch ctxErr batch;; zoom n_db set_n_db (Apply batch));
  clearPendingBatch batch;;
  match res with
  | Ok _ => mret (batch, Ok tt, [])
  | Err e =>
      if isCancellation e then mret (batch, Err e, [])
      else drained ← stopLoop; mret (batch, Err e, drained)
  end.

(** ** Forwarded writes on the leader *)

Definition outcome_map {A B} (f : A → B) (o : outcome A) : outcome B :=
  match o with
  | Done a => Done (f a)
  | Wait e k => Wait e (λ r, f (k r))
  | Forwarded req k => Forwarded req (λ r, f (k r))
  end.

Definition err_of {A} (r : result A) : option err := match r with Ok _ => None | Err e => Some e end.
Definition okb {A} (r : result A) : bool := match r with Ok _ => true | Err _ => false end.

Definition revResponse (r : result Z) : result ForwardResponse :=
  let '(code, msg) := encodeErr (err_of r) in
  Ok (mkResp (match r with Ok rev => rev | Err _ => 0 end) None (okb r) code msg []).

Definition casResponse (r : result (Z * option KeyValue * bool)) : result ForwardResponse :=
  let '(code, msg) := encodeErr (err_of r) in
  let '(rev, old, ok) := match r with Ok x => x | Err _ => (0, None, false) end in
  Ok (mkResp rev old ok code msg []).

Definition HandleForward (req : ForwardRequest) : ST Node (outcome (result ForwardResponse)) :=
  match fw_Op req with
  | ForwardPut => o ← Put (fw_Key req) (fw_Value req) (fw_Lease req); mret (outcome_map revResponse o)
  | ForwardCreate => o ← Create (fw_Key req) (fw_Value req) (fw_Lease req); mret (outcome_map revResponse o)
  | ForwardUpdate =>
      o ← Update (fw_Key req) (fw_Value req) (fw_Revision req) (fw_Lease req);
      mret (outcome_map casResponse o)
  | ForwardDeleteIfRevision =>
      o ← DeleteIfRevision (fw_Key req) (fw_Revision req);
      mret (outcome_map casResponse o)
  | ForwardCompact =>
      o ← Compact (fw_Revision req);
      mret (outcome_map (λ r, let '(code, msg) := encodeErr (err_of r) in
              Ok (mkResp 0 None (okb r) code msg [])) o)
  | ForwardGetRevision =>
      n ← get_st;
      mret (Done (Ok (mkResp (n_nextRev n) None true [] "" [])))
  | ForwardTxn =>
      match fw_TxnReq req with
      | None => mret (Done (Err (ErrText "t4: ForwardTxn missing TxnReq")))
      | Some m =>
          o ← Txn (forwardMsgToTxnRequest m);
          mret (outcome_map (λ r,
            match r with
            | Err e => let '(code, msg) := encodeErr (Some e) in Ok (mkResp 0 None false code msg [])
            | Ok resp => Ok (mkResp (tp_Revision resp) None (tp_Succeeded resp) [] "" (tp_DeletedKeys resp))
            end) o)
      end
  end.

End Node.
