(* ===== verification/NodeSpec.v ===== *)
(** * Sequential specification of the write path

    Seen by its clients the node is a sequential store: every write is decided
    on the history of all writes accepted before it, committed or not.
    [spec_op] gives, for each operation, the records it adds to that history
    and its answer.  [NI] is the invariant that ties the node to it: the store
    implements the committed part, the queue holds the rest, and [pending]
    is an index of the part that is not yet applied. *)

From S2P Require Import Prelude Bytes WalEntry Os Wal Pebble StoreKeys Store StoreSpec StoreInv StoreApply StoreRead StoreRefine Peer Node.

(** ** Operations and answers *)

Inductive cop :=
  | CPut (key value : bytes) (lease : Z)
  | CCreate (key value : bytes) (lease : Z)
  | CUpdate (key value : bytes) (revision lease : Z)
  | CDelete (key : bytes)
  | CDeleteIfRevision (key : bytes) (revision : Z)
  | CTxn (req : TxnRequest)
  | CCompact (revision : Z).

Record answer := mkAns {
  an_Revision : Z;
  an_OldKV : option KeyValue;
  an_Succeeded : bool;
  an_DeletedKeys : list bytes }.

(** The newest value of a key in a history. *)
Definition vlive (V : hist) (key : bytes) : option KeyValue := live (newest V key).

Definition put_record (V : hist) (rev : Z) (key value : bytes) (lease : Z) : record :=
  match vlive V key with
  | None => mkRecord key value rev 0 1 lease true false
  | Some kv => mkRecord key value (kv_CreateRevision kv) (kv_Revision kv)
                 (kvVersion (Some kv) + 1) lease false false
  end.

Definition delete_record (key : bytes) (kv : KeyValue) : record :=
  mkRecord key [] (kv_CreateRevision kv) (kv_Revision kv) (kvVersion (Some kv)) 0 false true.

(** The record of a transaction operation; none for a delete of a missing key
    or an unknown type. *)
Definition op_record (V : hist) (rev : Z) (op : TxnOp) : option record :=
  if to_Type op =? TxnPut then Some (put_record V rev (to_Key op) (to_Value op) (to_Lease op))
  else if to_Type op =? TxnDelete then delete_record (to_Key op) <$> vlive V (to_Key op)
  else None.

Definition at_rev (rev : Z) (rs : list record) : hist := map (λ r, (rev, r)) rs.

(** [cur] is the committed revision, [rev] the one the next write gets. *)
Definition spec_op (V : hist) (cur rev : Z) (op : cop) : hist * result answer :=
  match op with
  | CPut key value lease => (at_rev rev [put_record V rev key value lease], Ok (mkAns rev None true []))
  | CCreate key value lease =>
      match vlive V key with
      | Some _ => ([], Err ErrKeyExists)
      | None => (at_rev rev [put_record V rev key value lease], Ok (mkAns rev None true []))
      end
  | CUpdate key value revision lease =>
      match vlive V key with
      | Some kv =>
          if kv_Revision kv =? revision
          then (at_rev rev [put_record V rev key value lease], Ok (mkAns rev (Some kv) true []))
          else ([], Ok (mkAns cur (Some kv) false []))
      | None => ([], Ok (mkAns cur None false []))
      end
  | CDelete key =>
      match vlive V key with
      | Some kv => (at_rev rev [delete_record key kv], Ok (mkAns rev None true []))
      | None => ([], Ok (mkAns 0 None true []))
      end
  | CDeleteIfRevision key revision =>
      match vlive V key with
      | Some kv =>
          if (revision =? 0) || (kv_Revision kv =? revision)
          then (at_rev rev [delete_record key kv], Ok (mkAns rev (Some kv) true []))
          else ([], Ok (mkAns cur (Some kv) false []))
      | None => ([], Ok (mkAns cur None false []))
      end
  | CTxn req =>
      let succeeded := forallb (λ c, txnCondMatches c (vlive V (tc_Key c))) (tr_Conditions req) in
      let recs := omap (op_record V rev) (if succeeded then tr_Success req else tr_Failure req) in
      if bool_decide (recs = []) then ([], Ok (mkAns cur None succeeded []))
      else if 65535 <? zlen recs then ([], Err (ErrText "txn: too many ops"))
      else if negb (bool_decide (NoDup (map rc_key recs))) then
        ([], Err (ErrText "txn: duplicate key in branch"))
      else (at_rev rev recs,
            Ok (mkAns rev None succeeded (map rc_key (filter (λ r, rc_delete r = true) recs))))
  | CCompact _ => ([], Ok (mkAns 0 None true []))
  end.

(** ** The end of a batch *)

Fixpoint end_rev (rev : Z) (es : list Entry) : Z :=
  match es with
  | [] => rev
  | e :: es' => end_rev (if e_Op e =? OpCompact then rev else e_Revision e) es'
  end.
Fixpoint end_seq (seq : Z) (es : list Entry) : Z :=
  match es with [] => seq | e :: es' => end_seq (Sequence e) es' end.
Fixpoint end_c (c : Z) (es : list Entry) : Z :=
  match es with
  | [] => c
  | e :: es' => end_c (if e_Op e =? OpCompact then e_PrevRevision e else c) es'
  end.

Lemma batch_ok_app es : ∀ es' rev seq c,
  batch_ok rev seq c (es ++ es') ↔
  batch_ok rev seq c es ∧ batch_ok (end_rev rev es) (end_seq seq es) (end_c c es) es'.
Proof.
  induction es as [|e es IH]; intros es' rev seq c; [cbn; tauto|]. cbn.
  destruct (e_Op e =? OpCompact); rewrite IH; tauto.
Qed.

Lemma batch_log_app es es' : batch_log (es ++ es') = batch_log es ++ batch_log es'.
Proof. apply flat_map_app. Qed.

Lemma newest_app V K key :
  newest (V ++ K) key = match newest K key with Some x => Some x | None => newest V key end.
Proof. unfold newest. rewrite filter_app, last_app. by destruct (last (filter _ K)). Qed.

Lemma newest_elem V key x : newest V key = Some x → x ∈ V ∧ rc_key x.2 = key.
Proof. unfold newest. intros Hx%last_Some_elem_of. by apply list_elem_of_filter in Hx as [? ?]. Qed.

Lemma newest_None V key : (∀ x, x ∈ V → rc_key x.2 ≠ key) → newest V key = None.
Proof.
  intros Hn. unfold newest. rewrite filter_nil_in; [done|]. intros x Hx. unfold of_key. by apply Hn.
Qed.

(** ** The counters of the store after a batch *)

Section Counters.
Context {DB : Type} `{PI : Pebble DB}.
Implicit Types s : Store DB.

Lemma applyCompact_state s b c r s' :
  applyCompact b c s = (r, s') → match r with Ok _ => s' = set_compactRev c s | Err _ => s' = s end.
Proof using.
  unfold applyCompact, mbind, ST_bind, get_st, from_result, modify, mret, ST_ret.
  destruct (db_iter _ _ _); [|by intros [= <- <-]]. destruct (compact_loop _ _ _ _); [|by intros [= <- <-]].
  destruct (iter_end _ _); by intros [= <- <-].
Qed.

Lemma apply_loop_counters cur seq es : ∀ b mr mq s b' mr' mq' s',
  batch_ok (Z.max cur mr) (Z.max seq mq) (st_compactRev s) es → 0 ≤ cur → 0 ≤ seq →
  apply_loop es (b, mr, mq) s = (Ok (b', mr', mq'), s') →
  Z.max cur mr' = end_rev (Z.max cur mr) es ∧ Z.max seq mq' = end_seq (Z.max seq mq) es ∧
  s' = set_compactRev (end_c (st_compactRev s) es) s.
Proof using.
  induction es as [|e es IH]; intros b mr mq s b' mr' mq' s' Hb Hc Hq; cbn [apply_loop].
  { intros [= <- <- <- <-]. cbn. by destruct s. }
  destruct Hb as (Hsq & Hvq & Hb). unfold mbind, ST_bind, apply_one, mret, ST_ret, from_result.
  assert (bump_max mq (Sequence e) = Sequence e) as Hbq by (apply bump_max_gt; lia).
  cbn [end_rev end_seq end_c]. rewrite Hbq. destruct (e_Op e =? OpCompact).
  - destruct Hb as (_ & _ & Hb). unfold mbind, ST_bind.
    destruct (applyCompact b (e_PrevRevision e) s) as [[b1|er] s1] eqn:Ea; [|done].
    apply applyCompact_state in Ea. subst s1. intros Hrest.
    apply IH in Hrest as (H1 & H2 & H3); [|by rewrite (Z.max_r seq) by lia|done|done].
    rewrite (Z.max_r seq (Sequence e)) in H2 by lia. split_and!; [done..|]. rewrite H3. cbn. by destruct s.
  - destruct Hb as (Hr & _ & Hok & Hb). unfold mbind, ST_bind. rewrite applyEntry_batch by done.
    rewrite bump_max_gt by lia. intros Hrest.
    apply IH in Hrest as (H1 & H2 & H3); [|by rewrite !Z.max_r by lia|done|done].
    rewrite (Z.max_r cur (e_Revision e)) in H1 by lia. by rewrite (Z.max_r seq (Sequence e)) in H2 by lia.
Qed.

Lemma Apply_counters s es s' :
  batch_ok (st_currentRev s) (st_lastSeq s) (st_compactRev s) es →
  0 ≤ st_currentRev s → 0 ≤ st_lastSeq s → Apply es s = (Ok tt, s') →
  st_currentRev s' = end_rev (st_currentRev s) es ∧ st_lastSeq s' = end_seq (st_lastSeq s) es ∧
  st_compactRev s' = end_c (st_compactRev s) es.
Proof using.
  intros Hb Hc Hq. destruct (decide (es = [])) as [->|Hne]; [by intros [= <-]|].
  rewrite Apply_unfold by done. destruct (apply_loop _ _ _) as [[[[b mr] mq]|er] s1] eqn:El; [|done].
  apply (apply_loop_counters (st_currentRev s) (st_lastSeq s)) in El as (H1 & H2 & ->);
    [|by rewrite !Z.max_l by lia|done|done].
  rewrite (Z.max_l (st_currentRev s) 0) in H1 by lia. rewrite (Z.max_l (st_lastSeq s) 0) in H2 by lia.
  rewrite commitBatch_unfold. destruct (db_commit _ _ _) as [[[]|e] d]; [|done]. intros [= <-]. cbn.
  unfold bump_max. rewrite <- H1, <- H2.
  destruct (Z.ltb_spec (st_currentRev s) mr), (Z.ltb_spec (st_lastSeq s) mq); lia.
Qed.
End Counters.
