(* ===== verification/NodeInv.v ===== *)
(** * The write path implements its specification

    The invariant [NI] of the node and its preservation by every client
    operation and by the stages of the commit loop, which interleave with the
    operations at any point. *)

From S2P Require Import Prelude Bytes WalEntry Os Wal Pebble StoreKeys Store StoreSpec StoreInv StoreApply StoreRead StoreRefine Peer Node NodeSpec.

#[local] Arguments recordVersion _ : simpl never.
#[local] Arguments kvVersion _ : simpl never.
#[local] Arguments versionRecordHeaderLooksValid _ _ _ _ : simpl never.

(** ** Records *)

(** Live records carry the revision of their creation and a version that can
    be reached by updates since then. *)
Definition rec_ok (x : Z * record) : Prop :=
  rc_delete x.2 = false →
  0 < rc_createRevision x.2 ≤ x.1 ∧ 1 ≤ recordVersion x.2 ≤ x.1 - rc_createRevision x.2 + 1.

Lemma recordVersion_pos r : 0 < rc_version r → recordVersion r = rc_version r.
Proof. intros Hv. unfold recordVersion. destruct (Z.ltb_spec 0 (rc_version r)); lia. Qed.

Definition VInv (V : hist) : Prop := ∀ x, x ∈ V → rec_ok x.

Lemma VInv_app V K : VInv V → VInv K → VInv (V ++ K).
Proof. intros HV HK x [Hx|Hx]%elem_of_app; [by apply HV|by apply HK]. Qed.

Lemma vlive_inv V key kv :
  VInv V → vlive V key = Some kv →
  ∃ rev r, newest V key = Some (rev, r) ∧ rc_delete r = false ∧ kv = recordToKV key rev r ∧
    (rev, r) ∈ V ∧ kvVersion (Some kv) = recordVersion r ∧ 0 < rc_createRevision r ≤ rev ∧
    1 ≤ recordVersion r ≤ rev - rc_createRevision r + 1.
Proof.
  intros HV. unfold vlive. destruct (newest V key) as [[rev r]|] eqn:E; [|done]. cbn.
  destruct (rc_delete r) eqn:Ed; [done|]. intros [= <-].
  apply newest_elem in E as [Hin Hk]. cbn in Hk. destruct (HV _ Hin) as [Hc Hv]; [done|]. cbn in Hc, Hv.
  exists rev, r. split_and!; try done; try lia; [by rewrite Hk|].
  unfold kvVersion. cbn [recordToKV kv_Version]. destruct (Z.ltb_spec 0 (recordVersion r)); lia.
Qed.

(** Keys, values and leases within their widths. *)
Definition fits (key value : bytes) (lease : Z) : Prop :=
  is_u32 (zlen key) ∧ is_u32 (zlen value) ∧ is_i64 lease.

Lemma put_record_ok V rev key value lease :
  VInv V → (∀ x, x ∈ V → x.1 < rev) → 0 < rev → valid_rev (rev + 1) → fits key value lease →
  wf_record (put_record V rev key value lease) ∧ rec_ok (rev, put_record V rev key value lease).
Proof.
  intros HV Hlt Hp Hv (Hk & _ & Hl). unfold put_record. destruct (vlive V key) as [kv|] eqn:E.
  - destruct (vlive_inv V key kv HV E) as (q & r & _ & _ & -> & Hin & -> & Hc & Hver).
    specialize (Hlt _ Hin). cbn in Hlt. unfold valid_rev, is_i64 in *. split.
    + unfold wf_record. cbn. unfold is_i64. split_and!; try lia; try done.
      unfold versionRecordHeaderLooksValid. cbn [negb].
      destruct (Z.leb_spec (recordVersion r + 1) 0); [lia|]. destruct (Z.eqb_spec q 0); [lia|].
      rewrite !i64_id by (rewrite ?i64_id; unfold is_i64; lia).
      apply andb_true_iff. split; [apply Z.ltb_lt|apply Z.leb_le]; lia.
    + intros _. cbn. split; [lia|]. rewrite recordVersion_pos by (cbn; lia). cbn. lia.
  - unfold valid_rev, is_i64 in *. split.
    + unfold wf_record. cbn. unfold is_i64. split_and!; try lia; done.
    + intros _. cbn. rewrite recordVersion_pos by done. cbn. lia.
Qed.

Lemma delete_record_ok V rev key kv :
  VInv V → vlive V key = Some kv → (∀ x, x ∈ V → x.1 < rev) → valid_rev (rev + 1) →
  is_u32 (zlen key) →
  wf_record (delete_record key kv) ∧ rec_ok (rev, delete_record key kv).
Proof.
  intros HV E Hlt Hv Hk. destruct (vlive_inv V key kv HV E) as (q & r & _ & _ & -> & Hin & Hkv & Hc & Hver).
  specialize (Hlt _ Hin). cbn in Hlt. unfold valid_rev in *. split; [|done].
  unfold wf_record, delete_record. rewrite Hkv. cbn. unfold is_i64. split_and!; try lia; try done.
  unfold versionRecordHeaderLooksValid. cbn [negb].
  destruct (Z.leb_spec (recordVersion r) 0); [lia|]. destruct (Z.eqb_spec q 0); [lia|].
  rewrite !i64_id by (unfold is_i64; lia).
  apply andb_true_iff. split; [apply Z.ltb_lt|apply Z.leb_le]; lia.
Qed.

Lemma batch_log_le es : ∀ rev seq c,
  batch_ok rev seq c es →
  rev ≤ end_rev rev es ∧ seq ≤ end_seq seq es ∧ ∀ x, x ∈ batch_log es → x.1 ≤ end_rev rev es.
Proof.
  induction es as [|e es IH]; intros rev seq c Hb; cbn; [split_and!; [lia|lia|by intros x ?%not_elem_of_nil]|].
  destruct Hb as (Hs & _ & Hb). unfold entry_log. destruct (e_Op e =? OpCompact).
  - destruct Hb as (_ & _ & Hb). apply IH in Hb as (H1 & H2 & H3). split_and!; [lia|lia|done].
  - destruct Hb as (Hr & _ & _ & Hb). apply IH in Hb as (H1 & H2 & H3). split_and!; [lia|lia|].
    intros x [Hx|Hx]%elem_of_app; [|by apply H3].
    assert (x.1 = e_Revision e) as ->; [|lia]. case_match.
    + destruct (DecodeTxnOps _); [|by apply not_elem_of_nil in Hx].
      by apply (list_elem_of_fmap_1 (λ o, (e_Revision e, subop_record o))) in Hx as (o & -> & _).
    + by apply list_elem_of_singleton in Hx as ->.
Qed.

(** ** The invariant *)

(** The in-flight entry of a key is its newest record; a key without one has
    its newest record in the store. *)
Definition pend_ok (V H : hist) (key : bytes) (o : option pendingKV) : Prop :=
  match o with
  | Some p => ∃ r, newest V key = Some (pd_rev p, r) ∧ pd_deleted p = rc_delete r ∧
      (rc_delete r = false → pd_kv p = Some (recordToKV key (pd_rev p) r))
  | None => newest V key = newest H key
  end.

Section Inv.
Context {DB L R : Type} `{PI : Pebble DB} `{POk : !PebbleOk DB} `{WI : WALWriter L} `{RI : PeerServer R}.
Local Notation Node := (Node DB L R).
Implicit Types n : Node.

(** The entries that are not yet applied: the batch [B] the commit loop has
    taken and the queue. *)
Definition unapplied n (B : list Entry) : list Entry := B ++ n_writeC n.

(** All accepted writes: the history of the store and the entries in flight. *)
Definition accepted n (H : hist) (B : list Entry) : hist := H ++ batch_log (unapplied n B).

Record NI n (H : hist) (B : list Entry) : Prop := {
  ni_rel : Rel (n_db n) H;
  ni_ok : batch_ok (st_currentRev (n_db n)) (st_lastSeq (n_db n)) (st_compactRev (n_db n)) (unapplied n B);
  ni_rev : end_rev (st_currentRev (n_db n)) (unapplied n B) ≤ n_nextRev n ≤ n_nextSeq n;
  ni_seq : end_seq (st_lastSeq (n_db n)) (unapplied n B) ≤ n_nextSeq n;
  ni_ckey : ∀ e, e ∈ unapplied n B → e_Op e = OpCompact → e_Key e = [];
  ni_ver : VInv (accepted n H B);
  ni_pend : ∀ key, pend_ok (accepted n H B) H key (n_pending n !! key) }.

Section Facts.
Context n (H : hist) (B : list Entry) (HN : NI n H B).
Local Notation V := (accepted n H B).

Lemma ni_below : ∀ x, x ∈ V → x.1 ≤ n_nextRev n.
Proof using HN.
  intros x Hx. pose proof (ni_rev _ _ _ HN) as Hr.
  pose proof (batch_log_le _ _ _ _ (ni_ok _ _ _ HN)) as (H1 & _ & H3).
  apply elem_of_app in Hx as [Hx|Hx].
  - apply (re_cur _ _ (ni_rel _ _ _ HN)) in Hx. lia.
  - specialize (H3 x Hx). lia.
Qed.

Lemma ni_nonneg : 0 ≤ n_nextRev n ∧ 0 ≤ n_nextSeq n.
Proof using HN.
  pose proof (batch_log_le _ _ _ _ (ni_ok _ _ _ HN)) as (H1 & H2 & _).
  pose proof (re_bound _ _ (ni_rel _ _ _ HN)). pose proof (ni_rev _ _ _ HN). pose proof (ni_seq _ _ _ HN). lia.
Qed.

(** What a write sees of a key is the newest accepted value. *)
Lemma readKey_reads key : reads (n_db n) (readKey n key) (vlive V key).
Proof using HN.
  unfold readKey, vlive. pose proof (ni_pend _ _ _ HN key) as Hp.
  destruct (n_pending n !! key) as [p|]; cbn in Hp.
  - destruct Hp as (r & Hnew & -> & Hkv). rewrite Hnew. cbn. destruct (rc_delete r) eqn:Ed; [done|].
    rewrite Hkv by done. cbn. apply newest_elem in Hnew as [_ Hk]. cbn in Hk. by rewrite Hk.
  - rewrite Hp. rewrite <- (value_at_current (n_db n) H (ni_rel _ _ _ HN)). apply Get_reads, HN.
Qed.

(** Room for one more write before the counters overflow. *)
Definition room : Prop := valid_rev (n_nextRev n + 2) ∧ valid_rev (n_nextSeq n + 1).

Definition accept (e : Entry) (p : gmap bytes pendingKV) : Node :=
  set_writeC (n_writeC n ++ [e]) (set_pending p (set_counters (n_nextRev n + 1) (n_nextSeq n + 1) n)).

(** Accepting an entry at the next revision, with its keys in [pending]. *)
Lemma NI_accept e p :
  room → e_Op e ≠ OpCompact → entry_ok e → e_Revision e = n_nextRev n + 1 → e_ID e = n_nextSeq n + 1 →
  VInv (entry_log e) → (∀ key, pend_ok (V ++ entry_log e) H key (p !! key)) →
  NI (accept e p) H B ∧ accepted (accept e p) H B = V ++ entry_log e.
Proof using HN.
  intros [Hr1 Hr2] Hop Hok Hrev Hid Hver Hpend. pose proof ni_nonneg as [Hn1 Hn2].
  assert (Sequence e = n_nextSeq n + 1) as Hseq.
  { unfold Sequence. rewrite Hid. destruct (Z.eqb_spec (n_nextSeq n + 1) 0); [lia|done]. }
  assert (unapplied (accept e p) B = unapplied n B ++ [e]) as Hu by (unfold unapplied; cbn; by rewrite app_assoc).
  assert (accepted (accept e p) H B = V ++ entry_log e) as HV.
  { unfold accepted. rewrite Hu, batch_log_app, app_assoc. cbn. by rewrite app_nil_r. }
  split; [|done]. pose proof (ni_rev _ _ _ HN) as Hrv. pose proof (ni_seq _ _ _ HN) as Hsq.
  assert (∀ es, batch_ok (st_currentRev (n_db n)) (st_lastSeq (n_db n)) (st_compactRev (n_db n)) es →
    end_rev (st_currentRev (n_db n)) (es ++ [e]) = e_Revision e ∧
    end_seq (st_lastSeq (n_db n)) (es ++ [e]) = Sequence e) as Hend.
  { intros es _. apply Z.eqb_neq in Hop. split.
    - generalize (st_currentRev (n_db n)). induction es as [|x es IH]; intros z; cbn; [by rewrite Hop|apply IH].
    - generalize (st_lastSeq (n_db n)). induction es as [|x es IH]; intros z; cbn; [done|apply IH]. }
  destruct (Hend _ (ni_ok _ _ _ HN)) as [Hend1 Hend2].
  split; rewrite ?HV, ?Hu; cbn [accept n_db n_nextRev n_nextSeq n_pending set_writeC set_pending set_counters].
  - apply HN.
  - apply batch_ok_app. split; [apply HN|]. cbn. apply Z.eqb_neq in Hop. rewrite Hop, Hseq, Hrev.
    unfold valid_rev in *. split_and!; try done; try lia.
  - rewrite Hend1. lia.
  - rewrite Hend2. lia.
  - intros x [Hx| ->%list_elem_of_singleton]%elem_of_app; [by apply (ni_ckey _ _ _ HN)|done].
  - apply VInv_app; [apply HN|done].
  - done.
Qed.

(** The case of one record. *)
Lemma NI_accept_one op key value lease r pd :
  room → op ≠ OpCompact → op ≠ OpTxn →
  let e := mkEntry (n_nextSeq n + 1) (n_nextRev n + 1) (n_term n) op key value lease
             (rc_createRevision r) (rc_prevRevision r) (rc_version r) in
  entry_record e = r → wf_record r → rec_ok (n_nextRev n + 1, r) →
  pd = mkPending (n_nextRev n + 1) (rc_delete r)
         (if rc_delete r then None else Some (recordToKV key (n_nextRev n + 1) r)) →
  NI (accept e (<[key := pd]> (n_pending n))) H B ∧
  accepted (accept e (<[key := pd]> (n_pending n))) H B = V ++ [(n_nextRev n + 1, r)] ∧
  batch_log [e] = [(n_nextRev n + 1, r)].
Proof using HN.
  intros Hroom Hc Ht e He Hwf Hok ->.
  assert (entry_log e = [(n_nextRev n + 1, r)]) as Hlog.
  { unfold entry_log. change (e_Op e) with op. apply Z.eqb_neq in Hc, Ht. rewrite Hc, Ht. by rewrite He. }
  assert (entry_ok e) as Heok.
  { unfold entry_ok. change (e_Op e) with op. apply Z.eqb_neq in Ht. rewrite Ht. by rewrite He. }
  rewrite <- Hlog at 1.
  destruct (NI_accept e (<[key := mkPending (n_nextRev n + 1) (rc_delete r)
         (if rc_delete r then None else Some (recordToKV key (n_nextRev n + 1) r))]> (n_pending n)))
    as [HN' HV]; try done.
  - rewrite Hlog. intros x ->%list_elem_of_singleton. done.
  - intros k. rewrite Hlog. assert (rc_key r = key) as Hkey by by rewrite <- He.
    destruct (decide (key = k)) as [<-|Hne].
    + rewrite lookup_insert_eq. exists r. rewrite newest_snoc, bool_decide_true by done.
      cbn. split_and!; [done..|]. by intros ->.
    + rewrite lookup_insert_ne by done. unfold pend_ok.
      rewrite newest_snoc, bool_decide_false by (cbn; congruence). apply (ni_pend _ _ _ HN k).
  - split; [done|]. split; [done|]. unfold batch_log. cbn [flat_map]. by rewrite Hlog.
Qed.

Lemma nextIds_run : room →
  nextIds n = (Ok (n_nextRev n + 1, n_nextSeq n + 1), set_counters (n_nextRev n + 1) (n_nextSeq n + 1) n).
Proof using HN.
  intros [Hr1 Hr2]. pose proof ni_nonneg. unfold valid_rev in *.
  unfold nextIds, mbind, ST_bind, get_st, modify, mret, ST_ret.
  by rewrite !i64_id by (unfold is_i64; lia).
Qed.

(** ** Operations *)

Definition run (op : cop) : ST Node (outcome (result answer)) :=
  match op with
  | CPut key value lease =>
      o ← Put key value lease; mret (outcome_map (λ r, rev ← r; Ok (mkAns rev None true [])) o)
  | CCreate key value lease =>
      o ← Create key value lease; mret (outcome_map (λ r, rev ← r; Ok (mkAns rev None true [])) o)
  | CUpdate key value revision lease =>
      o ← Update key value revision lease;
      mret (outcome_map (λ r, '(rev, old, ok) ← r; Ok (mkAns rev old ok [])) o)
  | CDelete key =>
      o ← Delete key; mret (outcome_map (λ r, rev ← r; Ok (mkAns rev None true [])) o)
  | CDeleteIfRevision key revision =>
      o ← DeleteIfRevision key revision;
      mret (outcome_map (λ r, '(rev, old, ok) ← r; Ok (mkAns rev old ok [])) o)
  | CTxn req =>
      o ← Txn req;
      mret (outcome_map (λ r, resp ← r;
        Ok (mkAns (tp_Revision resp) None (tp_Succeeded resp) (tp_DeletedKeys resp))) o)
  | CCompact revision =>
      o ← Compact revision; mret (outcome_map (λ r, _ ← r; Ok (mkAns 0 None true [])) o)
  end.

(** Operations within the widths of the format; keys to delete are not empty,
    and compaction targets do not go down. *)
Definition op_ok (op : cop) : Prop :=
  match op with
  | CPut key value lease | CCreate key value lease | CUpdate key value _ lease => fits key value lease
  | CDelete key | CDeleteIfRevision key _ => key ≠ [] ∧ is_u32 (zlen key)
  | CTxn req => Forall (λ o, fits (to_Key o) (to_Value o) (to_Lease o)) (tr_Success req ++ tr_Failure req)
  | CCompact c => end_c (st_compactRev (n_db n)) (unapplied n B) ≤ c ∧ valid_rev (c + 1)
  end.

(** The outcome and the new state are those of the specification. *)
Definition refines_op (op : cop) (o : outcome (result answer)) (n' : Node) : Prop :=
  let '(recs, ans) := spec_op V (st_currentRev (n_db n)) (n_nextRev n + 1) op in
  NI n' H B ∧ accepted n' H B = V ++ recs ∧
  match o with
  | Done a => recs = [] ∧ n_writeC n' = n_writeC n ∧ a = ans
  | Wait e k => n_writeC n' = n_writeC n ++ [e] ∧ batch_log [e] = recs ∧ k (Ok (e_Revision e)) = ans
  | Forwarded _ _ => False
  end.

(** The database failed, and nothing happened. *)
Definition refused (o : outcome (result answer)) (n' : Node) : Prop :=
  ¬ healthy (st_db (n_db n)) ∧ n' = n ∧ ∃ e, o = Done (Err e).

Lemma refines_none op a : 
  spec_op V (st_currentRev (n_db n)) (n_nextRev n + 1) op = ([], a) → refines_op op (Done a) n.
Proof using HN. intros Hs. unfold refines_op. rewrite Hs, app_nil_r. done. Qed.

Context (Hcl : n_closed n = false) (Hro : n_role n ≠ roleFollower).

Lemma below_next : ∀ x, x ∈ V → x.1 < n_nextRev n + 1.
Proof using HN. intros x Hx. apply ni_below in Hx. lia. Qed.

Definition put_entry (key value : bytes) (lease : Z) (r : record) : Entry :=
  mkEntry (n_nextSeq n + 1) (n_nextRev n + 1) (n_term n) (if rc_create r then OpCreate else OpUpdate)
    key value lease (rc_createRevision r) (rc_prevRevision r) (rc_version r).

Definition put_pending (key value : bytes) (lease : Z) (r : record) : pendingKV :=
  mkPending (n_nextRev n + 1) false
    (Some (mkKV key value (n_nextRev n + 1) (rc_createRevision r) (rc_prevRevision r) (rc_version r) lease)).

Lemma accept_put key value lease :
  room → fits key value lease →
  let r := put_record V (n_nextRev n + 1) key value lease in
  let n' := accept (put_entry key value lease r) (<[key := put_pending key value lease r]> (n_pending n)) in
  NI n' H B ∧ accepted n' H B = V ++ [(n_nextRev n + 1, r)] ∧
  batch_log [put_entry key value lease r] = [(n_nextRev n + 1, r)].
Proof using HN.
  intros Hroom Hfit r. pose proof ni_nonneg as [Hn1 Hn2]. pose proof Hroom as [Hr _].
  destruct (put_record_ok V (n_nextRev n + 1) key value lease) as [Hwf Hok];
    [apply HN|apply below_next|lia|by replace (n_nextRev n + 1 + 1) with (n_nextRev n + 2) by lia|done|].
  fold r in Hwf, Hok.
  assert (rc_key r = key ∧ rc_value r = value ∧ rc_lease r = lease ∧ rc_delete r = false ∧
    0 < rc_version r) as (Hk & Hv & Hl & Hd & Hver).
  { unfold r, put_record. destruct (vlive V key) as [kv|] eqn:E; cbn; [|done].
    destruct (vlive_inv V key kv (ni_ver _ _ _ HN) E) as (q & r0 & _ & _ & _ & _ & -> & _ & ?).
    split_and!; try done. lia. }
  apply (NI_accept_one (if rc_create r then OpCreate else OpUpdate) key value lease r); try done.
  - by destruct (rc_create r).
  - by destruct (rc_create r).
  - unfold entry_record, entryVersion. cbn. rewrite (proj2 (Z.ltb_lt 0 (rc_version r))) by done.
    destruct r as [k v c p ver l cr de]; cbn in *. subst. by destruct cr.
  - unfold put_pending, recordToKV. rewrite Hd, recordVersion_pos by done. by rewrite Hv, Hl.
Qed.

(** The fields of the put record, as the code computes them. *)
Lemma put_record_fields rev key value lease :
  room → let r := put_record V rev key value lease in
  rc_createRevision r = match vlive V key with None => rev | Some kv => kv_CreateRevision kv end ∧
  rc_prevRevision r = match vlive V key with None => 0 | Some kv => kv_Revision kv end ∧
  rc_version r = nextPutVersion (vlive V key) ∧
  rc_create r = match vlive V key with None => true | Some _ => false end.
Proof using HN.
  intros [Hr _]. unfold put_record, nextPutVersion. destruct (vlive V key) as [kv|] eqn:E; cbn; [|done].
  destruct (vlive_inv V key kv (ni_ver _ _ _ HN) E) as (q & r0 & _ & _ & _ & Hin & -> & ? & ?).
  apply below_next in Hin. cbn in Hin. unfold valid_rev in Hr.
  by rewrite i64_id by (unfold is_i64; lia).
Qed.

Ltac run_node := unfold mbind, ST_bind, get_st, try, from_result, mret, ST_ret; rewrite ?Hcl;
  rewrite ?bool_decide_false by done; cbv beta iota.

Lemma refused_intro (A : Prop) er n0 :
  ¬ healthy (st_db (n_db n)) → n0 = n → A ∨ refused (Done (Err er)) n0.
Proof using. intros Hh ->. right. split; [done|]. split; [done|]. by exists er. Qed.

Lemma put_run key value lease o n' :
  room → fits key value lease →
  run (CPut key value lease) n = (Ok o, n') →
  refines_op (CPut key value lease) o n' ∨ refused o n'.
Proof using All.
  intros Hroom Hfit. pose proof (readKey_reads key) as Hread.
  unfold run, Put, preparePut. run_node.
  destruct (readKey n key) as [existing|er]; cbn in Hread.
  2:{ intros [= <- <-]. by apply refused_intro. }
  subst existing. rewrite nextIds_run by done. intros Hrun. left. revert Hrun.
  destruct (accept_put key value lease Hroom Hfit) as (HN' & HV' & Hlog).
  pose proof (put_record_fields (n_nextRev n + 1) key value lease Hroom) as (H1 & H2 & H3 & H4).
  cbv zeta in *. unfold refines_op. cbn [spec_op].
  unfold put_entry, put_pending in *. rewrite H1, H2, H3, H4 in HN', HV', Hlog.
  destruct (vlive V key) as [kv|]; cbv beta iota;
    unfold addPending, enqueueReq, modify, mbind, ST_bind; intros [= <- <-]; done.
Qed.

Lemma create_run key value lease o n' :
  room → fits key value lease →
  run (CCreate key value lease) n = (Ok o, n') →
  refines_op (CCreate key value lease) o n' ∨ refused o n'.
Proof using All.
  intros Hroom Hfit. pose proof (readKey_reads key) as Hread.
  unfold run, Create. run_node.
  destruct (readKey n key) as [existing|er]; cbn in Hread.
  2:{ intros [= <- <-]. by apply refused_intro. }
  subst existing. destruct (vlive V key) as [kv|] eqn:Ev; intros Hrun; left; revert Hrun.
  { intros [= <- <-]. apply refines_none. cbn. by rewrite Ev. }
  rewrite nextIds_run by done. cbv beta iota.
  destruct (accept_put key value lease Hroom Hfit) as (HN' & HV' & Hlog).
  pose proof (put_record_fields (n_nextRev n + 1) key value lease Hroom) as (H1 & H2 & H3 & H4).
  cbv zeta in *. unfold refines_op. cbn [spec_op].
  unfold put_entry, put_pending in *. rewrite H1, H2, H3, H4 in HN', HV', Hlog. rewrite Ev in *.
  unfold addPending, enqueueReq, modify, mbind, ST_bind. intros [= <- <-]. done.
Qed.

Lemma update_run key value revision lease o n' :
  room → fits key value lease →
  run (CUpdate key value revision lease) n = (Ok o, n') →
  refines_op (CUpdate key value revision lease) o n' ∨ refused o n'.
Proof using All.
  intros Hroom Hfit. pose proof (readKey_reads key) as Hread.
  unfold run, Update. run_node.
  destruct (readKey n key) as [existing|er]; cbn in Hread.
  2:{ intros [= <- <-]. by apply refused_intro. }
  subst existing. destruct (vlive V key) as [kv|] eqn:Ev; intros Hrun; left; revert Hrun.
  2:{ intros [= <- <-]. apply refines_none. cbn. by rewrite Ev. }
  destruct (kv_Revision kv =? revision) eqn:Er.
  2:{ intros [= <- <-]. apply refines_none. cbn. by rewrite Ev, Er. }
  rewrite nextIds_run by done. cbv beta iota.
  destruct (accept_put key value lease Hroom Hfit) as (HN' & HV' & Hlog).
  pose proof (put_record_fields (n_nextRev n + 1) key value lease Hroom) as (H1 & H2 & H3 & H4).
  cbv zeta in *. unfold refines_op. cbn [spec_op].
  unfold put_entry, put_pending in *. rewrite H1, H2, H3, H4 in HN', HV', Hlog. rewrite Ev, ?Er in *.
  unfold addPending, enqueueReq, modify, mbind, ST_bind. intros [= <- <-]. done.
Qed.

(** ** Deletes *)

Definition delete_entry (key : bytes) (kv : KeyValue) : Entry :=
  mkEntry (n_nextSeq n + 1) (n_nextRev n + 1) (n_term n) OpDelete key [] 0 (kv_CreateRevision kv)
    (kv_Revision kv) (kvVersion (Some kv)).

Lemma prepareDelete_run key kv :
  room → is_u32 (zlen key) → vlive V key = Some kv → readKey n key = Ok (Some kv) →
  let n1 := set_pending (<[key := mkPending (n_nextRev n + 1) true None]> (n_pending n))
              (set_counters (n_nextRev n + 1) (n_nextSeq n + 1) n) in
  prepareDelete key n = (Ok (delete_entry key kv), n1) ∧
  let n' := accept (delete_entry key kv) (<[key := mkPending (n_nextRev n + 1) true None]> (n_pending n)) in
  NI n' H B ∧ accepted n' H B = V ++ [(n_nextRev n + 1, delete_record key kv)] ∧
  batch_log [delete_entry key kv] = [(n_nextRev n + 1, delete_record key kv)].
Proof using HN.
  intros Hroom Hk Hv Hread. pose proof ni_nonneg as [Hn1 Hn2]. pose proof Hroom as [Hr _]. split.
  - unfold prepareDelete, mbind, ST_bind, get_st, from_result. rewrite Hread. cbv beta iota.
    by rewrite nextIds_run by done.
  - destruct (delete_record_ok V (n_nextRev n + 1) key kv) as [Hwf Hok]; [apply HN|done|apply below_next| |done|].
    { by replace (n_nextRev n + 1 + 1) with (n_nextRev n + 2) by lia. }
    destruct (vlive_inv V key kv (ni_ver _ _ _ HN) Hv) as (q & r0 & _ & _ & _ & _ & Hver & _ & Hver').
    apply (NI_accept_one OpDelete key [] 0 (delete_record key kv)); try done.
    unfold entry_record, entryVersion, delete_record. cbn. rewrite Hver.
    by rewrite (proj2 (Z.ltb_lt 0 (recordVersion r0))) by lia.
Qed.

Lemma delete_run key o n' :
  room → key ≠ [] → is_u32 (zlen key) →
  run (CDelete key) n = (Ok o, n') → refines_op (CDelete key) o n' ∨ refused o n'.
Proof using All.
  intros Hroom Hne Hk. pose proof (readKey_reads key) as Hread.
  unfold run, Delete. run_node.
  destruct (readKey n key) as [existing|er] eqn:Erd; cbn in Hread.
  2:{ unfold prepareDelete. unfold mbind, ST_bind, get_st, from_result. rewrite Erd.
      intros [= <- <-]. by apply refused_intro. }
  subst existing. destruct (vlive V key) as [kv|] eqn:Ev; intros Hrun; left; revert Hrun.
  2:{ unfold prepareDelete, mbind, ST_bind, get_st, from_result. rewrite Erd. cbn.
      intros [= <- <-]. apply refines_none. cbn. by rewrite Ev. }
  destruct (prepareDelete_run key kv Hroom Hk Ev Erd) as (-> & HN' & HV' & Hlog).
  cbn [e_Key delete_entry]. rewrite bool_decide_false by done. cbv beta iota.
  unfold refines_op. cbn [spec_op]. rewrite Ev. intros [= <- <-]. done.
Qed.

Lemma deleteIf_run key revision o n' :
  room → key ≠ [] → is_u32 (zlen key) →
  run (CDeleteIfRevision key revision) n = (Ok o, n') →
  refines_op (CDeleteIfRevision key revision) o n' ∨ refused o n'.
Proof using All.
  intros Hroom Hne Hk. pose proof (readKey_reads key) as Hread.
  unfold run, DeleteIfRevision. run_node.
  destruct (readKey n key) as [existing|er] eqn:Erd; cbn in Hread.
  2:{ intros [= <- <-]. by apply refused_intro. }
  subst existing. destruct (vlive V key) as [kv|] eqn:Ev; intros Hrun; left; revert Hrun.
  2:{ intros [= <- <-]. apply refines_none. cbn. by rewrite Ev. }
  rewrite <- negb_orb. destruct ((revision =? 0) || (kv_Revision kv =? revision)) eqn:Er; cbn [negb].
  2:{ intros [= <- <-]. apply refines_none. cbn. by rewrite Ev, Er. }
  destruct (prepareDelete_run key kv Hroom Hk Ev Erd) as (-> & HN' & HV' & Hlog).
  cbn [e_Key delete_entry]. rewrite bool_decide_false by done. cbv beta iota.
  unfold refines_op. cbn [spec_op]. rewrite Ev, Er. intros [= <- <-]. done.
Qed.

(** ** Compaction *)

Lemma compact_run c o n' :
  room → end_c (st_compactRev (n_db n)) (unapplied n B) ≤ c → valid_rev (c + 1) →
  run (CCompact c) n = (Ok o, n') → refines_op (CCompact c) o n' ∨ refused o n'.
Proof using All.
  intros [Hr1 Hr2] Hc Hcv. pose proof ni_nonneg as [Hn1 Hn2].
  unfold run, Compact. run_node. unfold modify, enqueueReq, modify, mbind, ST_bind.
  rewrite i64_id by (unfold is_i64, valid_rev in *; lia). intros Hrun. left. revert Hrun.
  set (e := mkEntry (n_nextSeq n + 1) (n_nextRev n) (n_term n) OpCompact [] [] 0 0 c 0).
  intros [= <- <-].
  set (n1 := set_writeC (n_writeC n ++ [e]) (set_counters (n_nextRev n) (n_nextSeq n + 1) n)).
  change (set_writeC _ _) with n1.
  assert (Sequence e = n_nextSeq n + 1) as Hseq
    by (unfold Sequence; cbn; destruct (Z.eqb_spec (n_nextSeq n + 1) 0); [lia|done]).
  assert (unapplied n1 B = unapplied n B ++ [e]) as Hu by (unfold unapplied; cbn; by rewrite app_assoc).
  assert (accepted n1 H B = V) as HV.
  { unfold accepted. rewrite Hu, batch_log_app. cbn. by rewrite app_nil_r. }
  pose proof (ni_rev _ _ _ HN) as Hrv. pose proof (ni_seq _ _ _ HN) as Hsq.
  assert (∀ es z, end_rev z (es ++ [e]) = end_rev z es) as He1.
  { intros es. induction es as [|x es IH]; intros z; [done|]. cbn. apply IH. }
  assert (∀ es z, end_seq z (es ++ [e]) = Sequence e) as He2.
  { intros es. induction es as [|x es IH]; intros z; [done|]. cbn. apply IH. }
  unfold refines_op. cbn [spec_op]. rewrite HV, app_nil_r. split; [|done].
  split; rewrite ?HV, ?Hu; cbn [n_db n_nextRev n_nextSeq n_pending n1 set_writeC set_counters].
  - apply HN.
  - apply batch_ok_app. split; [apply HN|]. cbn. rewrite Hseq. split_and!; try done. lia.
  - rewrite He1. lia.
  - rewrite He2, Hseq. lia.
  - intros x [Hx| ->%list_elem_of_singleton]%elem_of_app; [by apply (ni_ckey _ _ _ HN)|done].
  - apply HN.
  - apply HN.
Qed.

(** ** Transactions *)

Lemma evalConds_reads conds :
  reads (n_db n) (evalConds n conds) (forallb (λ c, txnCondMatches c (vlive V (tc_Key c))) conds).
Proof using HN.
  induction conds as [|c conds IH]; [done|]. cbn. eapply reads_bind; [apply readKey_reads|].
  by destruct (txnCondMatches c (vlive V (tc_Key c))).
Qed.

(** The resolved form of an operation, as a function of the accepted history. *)
Definition rop (op : TxnOp) : option resolvedOp :=
  let existing := vlive V (to_Key op) in
  if to_Type op =? TxnPut then
    Some (match existing with
          | None => mkResolved OpCreate (to_Key op) (to_Value op) (to_Lease op) 0 0 1
          | Some kv => mkResolved OpUpdate (to_Key op) (to_Value op) (to_Lease op)
                         (kv_CreateRevision kv) (kv_Revision kv) (kvVersion existing + 1)
          end)
  else if to_Type op =? TxnDelete then
    match existing with
    | None => None
    | Some kv => Some (mkResolved OpDelete (to_Key op) [] 0 (kv_CreateRevision kv)
                         (kv_Revision kv) (kvVersion existing))
    end
  else None.

Lemma resolveOp_reads op : room → reads (n_db n) (resolveOp n op) (rop op).
Proof using HN.
  intros [Hr _]. unfold resolveOp. eapply reads_bind; [apply readKey_reads|]. unfold rop.
  destruct (to_Type op =? TxnPut); [|by destruct (to_Type op =? TxnDelete)].
  destruct (vlive V (to_Key op)) as [kv|] eqn:E; [|done].
  destruct (vlive_inv V _ kv (ni_ver _ _ _ HN) E) as (q & r0 & _ & _ & _ & Hin & -> & ? & ?).
  apply below_next in Hin. cbn in Hin. unfold valid_rev in Hr.
  by rewrite i64_id by (unfold is_i64; lia).
Qed.

Lemma resolveOps_reads ops : room → reads (n_db n) (resolveOps n ops) (omap rop ops).
Proof using HN.
  intros Hroom. induction ops as [|op ops IH]; [done|]. cbn [resolveOps].
  eapply reads_bind; [by apply resolveOp_reads|]. eapply reads_bind; [exact IH|].
  cbn. by destruct (rop op).
Qed.

(** The record of a resolved operation. *)
Definition rrec (r : resolvedOp) : record := subop_record (subOp (n_nextRev n + 1) r).

Lemma op_record_rop op :
  op_record V (n_nextRev n + 1) op = match rop op with Some r => Some (rrec r) | None => None end.
Proof using HN.
  unfold op_record, rop, put_record, delete_record.
  destruct (vlive V (to_Key op)) as [kv|] eqn:E.
  - destruct (vlive_inv V _ kv (ni_ver _ _ _ HN) E) as (q & r0 & _ & _ & _ & _ & Hv & _ & ?).
    destruct (to_Type op =? TxnPut); [|destruct (to_Type op =? TxnDelete); [|done]].
    + unfold rrec, subop_record, entryVersion. cbn. rewrite Hv.
      by rewrite (proj2 (Z.ltb_lt 0 (recordVersion r0 + 1))) by lia.
    + unfold rrec, subop_record, entryVersion. cbn. rewrite Hv.
      by rewrite (proj2 (Z.ltb_lt 0 (recordVersion r0))) by lia.
  - destruct (to_Type op =? TxnPut); [done|]. by destruct (to_Type op =? TxnDelete).
Qed.

Lemma op_records ops : omap (op_record V (n_nextRev n + 1)) ops = map rrec (omap rop ops).
Proof using HN.
  induction ops as [|op ops IH]; [done|]. cbn. rewrite op_record_rop. destruct (rop op); cbn; by rewrite IH.
Qed.

Lemma pend_ok_snoc (V0 : hist) (rev : Z) (r : record) (p : gmap bytes pendingKV) (pd : pendingKV) :
  (∀ key, pend_ok V0 H key (p !! key)) →
  pd_rev pd = rev → pd_deleted pd = rc_delete r →
  (rc_delete r = false → pd_kv pd = Some (recordToKV (rc_key r) rev r)) →
  ∀ key, pend_ok (V0 ++ [(rev, r)]) H key (<[rc_key r := pd]> p !! key).
Proof using.
  intros Hp Hrev Hdel Hkv key. destruct (decide (rc_key r = key)) as [<-|Hne].
  - rewrite lookup_insert_eq. exists r. rewrite newest_snoc, bool_decide_true by done. by rewrite Hrev.
  - rewrite lookup_insert_ne by done. unfold pend_ok.
    rewrite newest_snoc, bool_decide_false by done. apply (Hp key).
Qed.

(** A resolved operation: its record is well formed, its sub-operation fits the
    encoding, and its in-flight entry matches. *)
Record rop_ok (r : resolvedOp) : Prop := {
  rk_wf : wf_record (rrec r);
  rk_rec : rec_ok (n_nextRev n + 1, rrec r);
  rk_sub : wf_subop (subOp (n_nextRev n + 1) r);
  rk_key : rc_key (rrec r) = ro_key r;
  rk_del : rc_delete (rrec r) = (ro_walOp r =? OpDelete);
  rk_kv : rc_delete (rrec r) = false →
    pd_kv (pendingOf (n_nextRev n + 1) r) = Some (recordToKV (ro_key r) (n_nextRev n + 1) (rrec r)) }.

Lemma rop_rop_ok op r :
  room → fits (to_Key op) (to_Value op) (to_Lease op) → rop op = Some r → rop_ok r.
Proof using HN.
  intros Hroom Hfit Hop. pose proof ni_nonneg as [Hn1 Hn2]. pose proof Hroom as [Hr _].
  pose proof (op_record_rop op) as Hrec. rewrite Hop in Hrec.
  assert (valid_rev (n_nextRev n + 1 + 1)) as Hv by (by replace (n_nextRev n + 1 + 1) with (n_nextRev n + 2) by lia).
  assert (wf_record (rrec r) ∧ rec_ok (n_nextRev n + 1, rrec r)) as [Hwf Hok].
  { unfold op_record in Hrec. destruct (to_Type op =? TxnPut).
    - apply (inj Some) in Hrec as <-. apply put_record_ok; [apply HN|apply below_next|lia|done|done].
    - destruct (to_Type op =? TxnDelete); [|done]. destruct (vlive V (to_Key op)) as [kv|] eqn:E; [|done].
      cbn in Hrec. apply (inj Some) in Hrec as <-.
      apply (delete_record_ok V); [apply HN|done|apply below_next|done|apply Hfit]. }
  assert (0 < ro_version r ∧ is_i64 (ro_version r)) as [Hver Hver'].
  { destruct Hwf as (_ & _ & _ & Hw & _). unfold rop in Hop. destruct (vlive V (to_Key op)) as [kv|] eqn:E.
    - destruct (vlive_inv V _ kv (ni_ver _ _ _ HN) E) as (q & r0 & _ & _ & _ & Hin & Hv0 & ? & ?).
      apply below_next in Hin. cbn in Hin. rewrite Hv0 in Hop. unfold is_i64, valid_rev in *.
      destruct (to_Type op =? TxnPut); [injection Hop as <-; cbn; lia|].
      destruct (to_Type op =? TxnDelete); [injection Hop as <-; cbn; lia|done].
    - destruct (to_Type op =? TxnPut); [injection Hop as <-; cbn; unfold is_i64; lia|].
      by destruct (to_Type op =? TxnDelete). }
  assert ((ro_walOp r = OpCreate ∨ ro_walOp r = OpUpdate ∨ ro_walOp r = OpDelete) ∧ fits (ro_key r) (ro_value r) (ro_lease r)) as [Hw Hf].
  { unfold rop in Hop. destruct Hfit as (Hf1 & Hf2 & Hf3). unfold fits.
    destruct (vlive V (to_Key op)) as [kv|]; destruct (to_Type op =? TxnPut); try (injection Hop as <-; cbn);
      try (split; [tauto|done]); destruct (to_Type op =? TxnDelete); try done; injection Hop as <-; cbn.
    split; [tauto|]. split_and!; done. }
  assert (rrec r = mkRecord (ro_key r) (ro_value r) (so_CreateRevision (subOp (n_nextRev n + 1) r))
    (ro_prevRevision r) (ro_version r) (ro_lease r) (ro_walOp r =? OpCreate) (ro_walOp r =? OpDelete)) as Hr0.
  { unfold rrec, subop_record, entryVersion. cbn. by rewrite (proj2 (Z.ltb_lt 0 (ro_version r))) by done. }
  split; [done|done| | | |].
  - destruct Hwf as (Hw1 & Hw2 & Hw3 & Hw4 & Hw5 & _). rewrite Hr0 in Hw1, Hw2. cbn in Hw1, Hw2.
    destruct Hf as (Hf1 & Hf2 & Hf3). unfold wf_subop. cbn. split_and!; try done.
    destruct Hw as [->|[->| ->]]; unfold is_u8, OpCreate, OpUpdate, OpDelete; lia.
  - by rewrite Hr0.
  - by rewrite Hr0.
  - rewrite Hr0. cbn. intros Hd. unfold pendingOf. rewrite Hd. cbn. unfold recordToKV.
    by rewrite recordVersion_pos by done.
Qed.

Definition txn_pending (rs : list resolvedOp) (p : gmap bytes pendingKV) : gmap bytes pendingKV :=
  fold_left (λ p r, <[ro_key r := pendingOf (n_nextRev n + 1) r]> p) rs p.

Lemma addPendings_run (rs : list resolvedOp) : ∀ m : Node,
  addPendings (n_nextRev n + 1) rs m = (Ok tt, set_pending (txn_pending rs (n_pending m)) m).
Proof using.
  induction rs as [|r rs IH]; intros m; cbn; [by destruct m|].
  unfold mbind, ST_bind, addPending, modify. rewrite IH. by destruct m.
Qed.

Lemma pend_txn (rs : list resolvedOp) : ∀ (V0 : hist) (p : gmap bytes pendingKV),
  Forall rop_ok rs → (∀ key, pend_ok V0 H key (p !! key)) →
  ∀ key, pend_ok (V0 ++ at_rev (n_nextRev n + 1) (map rrec rs)) H key (txn_pending rs p !! key).
Proof using.
  induction rs as [|r rs IH]; intros V0 p Hrs Hp; cbn [map at_rev txn_pending fold_left].
  { by rewrite app_nil_r. }
  inversion_clear Hrs as [|? ? Hr Hrs']. destruct Hr as [_ _ _ Hk Hd Hkv].
  rewrite (cons_middle _ V0), app_assoc. apply IH; [done|]. rewrite <- Hk.
  apply pend_ok_snoc; [done| | |by rewrite Hk].
  - unfold pendingOf. by destruct (_ =? OpDelete).
  - rewrite Hd. unfold pendingOf. by destruct (_ =? OpDelete).
Qed.

Lemma rops_ok ops :
  room → Forall (λ o, fits (to_Key o) (to_Value o) (to_Lease o)) ops → Forall rop_ok (omap rop ops).
Proof using HN.
  intros Hroom Hops. apply Forall_forall. intros r Hr. apply list_elem_of_omap in Hr as (op & Hin & Hop).
  apply (rop_rop_ok op r Hroom); [|done]. by apply (proj1 (Forall_forall _ _) Hops).
Qed.

Definition txn_entry (active : list resolvedOp) : Entry :=
  mkEntry (n_nextSeq n + 1) (n_nextRev n + 1) (n_term n) OpTxn []
    (EncodeTxnOps (map (subOp (n_nextRev n + 1)) active)) 0 0 0 0.

(** Accepting a transaction. *)
Lemma accept_txn active :
  room → Forall rop_ok active → zlen active ≤ 65535 → NoDup (map ro_key active) →
  let n' := accept (txn_entry active) (txn_pending active (n_pending n)) in
  NI n' H B ∧ accepted n' H B = V ++ at_rev (n_nextRev n + 1) (map rrec active) ∧
  batch_log [txn_entry active] = at_rev (n_nextRev n + 1) (map rrec active).
Proof using HN.
  intros Hroom Hact Hlen Hnd.
  assert (DecodeTxnOps (e_Value (txn_entry active)) = Ok (map (subOp (n_nextRev n + 1)) active)) as Hdec.
  { unfold txn_entry, e_Value. rewrite <- (app_nil_r (EncodeTxnOps _)). apply Decode_EncodeTxnOps.
    - apply Forall_forall. intros o Ho. apply (list_elem_of_fmap_1 (subOp (n_nextRev n + 1))) in Ho as (r & -> & Hr).
      apply (rk_sub r). by apply (proj1 (Forall_forall _ _) Hact).
    - unfold zlen in *. rewrite length_map. lia. }
  assert (entry_log (txn_entry active) = at_rev (n_nextRev n + 1) (map rrec active)) as Hlog.
  { unfold entry_log. change (e_Op (txn_entry active) =? OpCompact) with false.
    change (e_Op (txn_entry active) =? OpTxn) with true. cbv beta iota. rewrite Hdec.
    unfold at_rev. by rewrite !map_map. }
  assert (entry_ok (txn_entry active)) as Hok.
  { unfold entry_ok. change (e_Op (txn_entry active) =? OpTxn) with true. cbv beta iota. rewrite Hdec.
    split; [unfold zlen in *; rewrite length_map; lia|]. split.
    - apply Forall_forall. intros o Ho. apply (list_elem_of_fmap_1 (subOp (n_nextRev n + 1))) in Ho as (r & -> & Hr).
      apply (rk_wf r). by apply (proj1 (Forall_forall _ _) Hact).
    - by rewrite map_map. }
  cbv zeta. rewrite <- Hlog.
  destruct (NI_accept (txn_entry active) (txn_pending active (n_pending n))) as [HN' HV'];
    [exact Hroom|discriminate|exact Hok|reflexivity|reflexivity| | |].
  - rewrite Hlog. intros x Hx. unfold at_rev in Hx. rewrite map_map in Hx.
    apply (list_elem_of_fmap_1 (λ r, (n_nextRev n + 1, rrec r))) in Hx as (r & -> & Hr).
    apply (rk_rec r). by apply (proj1 (Forall_forall _ _) Hact).
  - rewrite Hlog. apply pend_txn; [done|]. apply HN.
  - split; [done|]. split; [done|]. unfold batch_log. cbn [flat_map]. by rewrite app_nil_r.
Qed.

Lemma rrec_keys active : Forall rop_ok active → map rc_key (map rrec active) = map ro_key active.
Proof using.
  induction 1 as [|r rs Hr Hrs IH]; [done|]. cbn [map]. rewrite IH. by rewrite (rk_key r Hr).
Qed.

Lemma rrec_deleted active :
  Forall rop_ok active →
  map rc_key (filter (λ r, rc_delete r = true) (map rrec active)) =
  map ro_key (filter (λ r, ro_walOp r = OpDelete) active).
Proof using.
  induction 1 as [|r rs Hr Hrs IH]; [done|]. cbn [map]. rewrite !filter_cons.
  pose proof (rk_del r Hr) as Hd. pose proof (rk_key r Hr) as Hk.
  destruct (Z.eqb_spec (ro_walOp r) OpDelete) as [E|E].
  - rewrite decide_True, (decide_True (P := ro_walOp r = OpDelete)) by done. cbn [map]. by rewrite IH, Hk.
  - rewrite decide_False, (decide_False (P := ro_walOp r = OpDelete)) by (done || congruence). done.
Qed.

Lemma txn_run req o n' :
  room → op_ok (CTxn req) → run (CTxn req) n = (Ok o, n') →
  refines_op (CTxn req) o n' ∨ refused o n'.
Proof using All.
  intros Hroom Hops. cbn in Hops. apply Forall_app in Hops as [Hsuc Hfail].
  unfold run, Txn, prepareTxn. run_node.
  pose proof (evalConds_reads (tr_Conditions req)) as Hc.
  destruct (evalConds n (tr_Conditions req)) as [ok|er]; cbn in Hc.
  2:{ intros [= <- <-]. by apply refused_intro. }
  set (ops := if ok then tr_Success req else tr_Failure req).
  assert (Forall (λ o, fits (to_Key o) (to_Value o) (to_Lease o)) ops) as Hfit by (unfold ops; by destruct ok).
  assert (∀ a, spec_op V (st_currentRev (n_db n)) (n_nextRev n + 1) (CTxn req) = a ↔
    (let recs := map rrec (omap rop ops) in
      if bool_decide (recs = []) then ([], Ok (mkAns (st_currentRev (n_db n)) None ok []))
      else if 65535 <? zlen recs then ([], Err (ErrText "txn: too many ops"))
      else if negb (bool_decide (NoDup (map rc_key recs))) then
        ([], Err (ErrText "txn: duplicate key in branch"))
      else (at_rev (n_nextRev n + 1) recs,
            Ok (mkAns (n_nextRev n + 1) None ok (map rc_key (filter (λ r, rc_delete r = true) recs))))) = a) as Hspec.
  { intros a. cbn [spec_op]. rewrite <- Hc. fold ops. by rewrite op_records. }
  pose proof (rops_ok ops Hroom Hfit) as Hact. pose proof (resolveOps_reads ops Hroom) as Hres.
  destruct ops as [|op0 ops'] eqn:Eops.
  { intros [= <- <-]. left. by apply refines_none, Hspec. }
  rewrite <- Eops in *. clear Eops op0 ops'.
  destruct (resolveOps n ops) as [active|er]; cbn in Hres.
  2:{ intros [= <- <-]. by apply refused_intro. }
  rewrite <- Hres in Hspec, Hact. clear Hres.
  destruct active as [|r0 rs] eqn:Ea.
  { intros [= <- <-]. left. by apply refines_none, Hspec. }
  rewrite <- Ea in *.
  assert (map rrec active ≠ []) as Hne by by rewrite Ea. clear Ea r0 rs.
  assert (zlen (map rrec active) = zlen active) as Hz by (unfold zlen; by rewrite length_map).
  intros Hrun. left. revert Hrun. cbv zeta in Hspec. rewrite bool_decide_false in Hspec by done.
  rewrite (rrec_keys active Hact), (rrec_deleted active Hact), Hz in Hspec.
  destruct (Z.ltb_spec 65535 (zlen active)).
  { intros [= <- <-]. by apply refines_none, Hspec. }
  destruct (decide (NoDup (map ro_key active))) as [Hnd|Hnd].
  2:{ rewrite (bool_decide_false (NoDup _)) in * by done. intros [= <- <-]. by apply refines_none, Hspec. }
  rewrite (bool_decide_true (NoDup _)) in * by done. cbn [negb] in *.
  rewrite nextIds_run by done. cbv beta iota. rewrite addPendings_run. cbv beta iota.
  destruct (accept_txn active Hroom Hact ltac:(lia) Hnd) as (HN' & HV' & Hlog).
  unfold refines_op. rewrite (proj2 (Hspec _) eq_refl). intros [= <- <-]. done.
Qed.

(** Every operation does what the specification says, or is refused by a
    failing database without an effect. *)
Lemma run_refines op :
  room → op_ok op → ∃ o n', run op n = (Ok o, n') ∧ (refines_op op o n' ∨ refused o n').
Proof using All.
  intros Hroom Hop. destruct (run op n) as [[o|e] n'] eqn:Er.
  - exists o, n'. split; [done|]. destruct op.
    + by apply put_run.
    + by apply create_run.
    + by apply update_run.
    + destruct Hop. by apply delete_run.
    + destruct Hop. by apply deleteIf_run.
    + by apply txn_run.
    + destruct Hop. by apply compact_run.
  - exfalso. revert Er. destruct op; unfold run, Put, Create, Update, Delete, DeleteIfRevision, Txn, Compact;
      unfold enqueueReq, addPending, nextIds, modify, mbind, ST_bind, get_st, try, mret, ST_ret;
      repeat case_match; simplify_eq; done.
Qed.
End Facts.
End Inv.
