(* ===== verification/NodeProps.v ===== *)
(** * Properties of the write path

    The commit loop interleaved with client operations as a step relation, its
    invariant, and the behaviour of cancelled batches and empty keys. *)

From S2P Require Import Prelude Bytes WalEntry Os Wal Pebble StoreKeys Store StoreSpec StoreInv StoreApply StoreRead StoreRefine Peer Node NodeSpec NodeInv.

(** ** Histories in two parts *)

(** Records above all of a history do not hide it unless they are the newest. *)
Lemma newest_high H K key cur :
  (∀ x, x ∈ H → x.1 ≤ cur) → (∀ x, x ∈ K → cur < x.1) → newest (H ++ K) key = newest H key →
  newest K key = None.
Proof.
  intros HH HK Heq. rewrite newest_app in Heq. destruct (newest K key) as [x|] eqn:E; [|done].
  symmetry in Heq. apply newest_elem in Heq as [Hin _], E as [Hk _]. specialize (HH x Hin). specialize (HK x Hk). lia.
Qed.

Section Steps.
Context {DB L R : Type} `{PI : Pebble DB} `{POk : !PebbleOk DB} `{WI : WALWriter L} `{RI : PeerServer R}.
Local Notation Node := (Node DB L R).
Implicit Types n : Node.

(** ** Stages of the commit loop *)

Lemma replicate_frame ctxErr batch n r n' :
  replicateBatch ctxErr batch n = (r, n') →
  n_db n' = n_db n ∧ n_pending n' = n_pending n ∧ n_writeC n' = n_writeC n ∧
  n_nextRev n' = n_nextRev n ∧ n_nextSeq n' = n_nextSeq n ∧ n_closed n' = n_closed n ∧
  n_role n' = n_role n ∧ n_term n' = n_term n.
Proof using.
  unfold replicateBatch, mbind, ST_bind, get_st, try, zoom, from_result, modify.
  destruct (wal_AppendBatch ctxErr batch (n_wal n)) as [r1 l]. cbn.
  destruct (n_peerSrv n) as [srv|]; [|by intros [= <- <-]].
  destruct r1 as [[]|e], batch as [|e0 b]; cbn; try (by intros [= <- <-]).
  destruct (ps_WaitForFollowers _ _) as [w srv']. by intros [= <- <-].
Qed.

(** Taking a batch from the queue. *)
Lemma NI_take n H k : NI n H [] → NI (set_writeC (drop k (n_writeC n)) n) H (take k (n_writeC n)).
Proof using.
  intros HN. assert (unapplied (set_writeC (drop k (n_writeC n)) n) (take k (n_writeC n)) = unapplied n []) as Hu.
  { unfold unapplied. cbn. apply take_drop. }
  destruct HN. split; unfold accepted in *; rewrite ?Hu; done.
Qed.

(** Applying the batch that was taken. *)
Lemma NI_apply n H B s' :
  NI n H B → Apply B (n_db n) = (Ok tt, s') → NI (set_n_db s' n) (H ++ batch_log B) [].
Proof using POk.
  intros HN Ha. pose proof HN as [Hrel Hok Hrev Hseq Hck Hver Hpend].
  unfold unapplied in *. apply batch_ok_app in Hok as [Hok1 Hok2].
  pose proof (re_bound _ _ Hrel) as [Hb0 Hb1].
  pose proof (Apply_refines _ H B (Ok tt) s' Hrel Hok1 Ha) as Hrel'.
  destruct (Apply_counters _ B s' Hok1 ltac:(lia) ltac:(lia) Ha) as (Hc1 & Hc2 & Hc3).
  assert (∀ es a z, end_rev z (a ++ es) = end_rev (end_rev z a) es) as He1.
  { intros es a. induction a as [|x a IH]; intros z; [done|]. cbn. apply IH. }
  assert (∀ es a z, end_seq z (a ++ es) = end_seq (end_seq z a) es) as He2.
  { intros es a. induction a as [|x a IH]; intros z; [done|]. cbn. apply IH. }
  assert (accepted (set_n_db s' n) (H ++ batch_log B) [] = accepted n H B) as HV.
  { unfold accepted, unapplied. cbn. by rewrite batch_log_app, app_assoc. }
  split; rewrite ?HV; unfold unapplied; cbn [n_db set_n_db n_writeC n_nextRev n_nextSeq n_pending app].
  - done.
  - by rewrite Hc1, Hc2, Hc3.
  - by rewrite Hc1, <- He1.
  - by rewrite Hc2, <- He2.
  - intros e He. apply Hck. apply elem_of_app. by right.
  - done.
  - intros key. specialize (Hpend key). destruct (n_pending n !! key) as [p|]; [done|]. cbn in *.
    assert (newest (batch_log (B ++ n_writeC n)) key = None) as Hnone.
    { apply (newest_high H _ key (st_currentRev (n_db n))); [| |done].
      - intros x Hx. apply (re_cur _ _ Hrel x Hx).
      - apply (batch_log_above _ (st_lastSeq (n_db n)) (st_compactRev (n_db n))). apply batch_ok_app. done. }
    rewrite batch_log_app, newest_app in Hnone. destruct (newest (batch_log (n_writeC n)) key); [done|].
    rewrite Hpend, newest_app. by rewrite Hnone.
Qed.

(** Removing in-flight entries at applied revisions. *)
Lemma pend_drop (V H : hist) (p : gmap bytes pendingKV) (cur rev : Z) (k : bytes) :
  (∀ key, pend_ok V H key (p !! key)) → rev ≤ cur →
  (∃ K, V = H ++ K ∧ ∀ x, x ∈ K → cur < x.1) →
  ∀ key, pend_ok V H key (dropPending rev p k !! key).
Proof using.
  intros Hp Hrev (K & -> & HK) key. unfold dropPending. destruct (p !! k) as [q|] eqn:E; [|done].
  destruct (Z.eqb_spec (pd_rev q) rev) as [Hq|]; [|done].
  destruct (decide (k = key)) as [->|Hne]; [|by rewrite lookup_delete_ne].
  rewrite lookup_delete_eq. cbn. specialize (Hp key). rewrite E in Hp. destruct Hp as (r & Hnew & _).
  rewrite newest_app. destruct (newest K key) as [x|] eqn:Ek; [|done]. exfalso.
  rewrite newest_app, Ek in Hnew. injection Hnew as ->. apply newest_elem in Ek as [Hin _].
  specialize (HK _ Hin). cbn in HK. lia.
Qed.

Lemma pend_clear (V H : hist) (cur : Z) (es : list Entry) : ∀ p : gmap bytes pendingKV,
  (∀ key, pend_ok V H key (p !! key)) →
  (∀ e, e ∈ es → e_Revision e ≤ cur ∨ (e_Op e = OpCompact ∧ e_Key e = [])) →
  (∃ K, V = H ++ K ∧ ∀ x, x ∈ K → cur < x.1) →
  ∀ key, pend_ok V H key (fold_left clearPendingEntry es p !! key).
Proof using.
  induction es as [|e es IH]; intros p Hp Hes HV; [done|]. cbn [fold_left].
  apply IH; [|intros x Hx; apply Hes; by right|done].
  unfold clearPendingEntry. destruct (Hes e) as [Hrev|[Hop Hkey]]; [by left| |].
  - destruct (e_Op e =? OpTxn).
    + destruct (DecodeTxnOps _) as [ops|]; [|done]. generalize (map so_Key ops). intros ks.
      revert p Hp. induction ks as [|k ks IHk]; intros p Hp; [done|]. cbn.
      apply IHk. by apply (pend_drop V H p cur).
    + case_bool_decide; [done|]. by apply (pend_drop V H p cur).
  - rewrite Hop, Hkey. change (OpCompact =? OpTxn) with false. by rewrite bool_decide_true.
Qed.

(** What remains in flight after a batch was cleared was in flight before, at
    another revision than the batch wrote the key at. *)
Lemma dropPending_spec (rev : Z) (p : gmap bytes pendingKV) (k key : bytes) q :
  dropPending rev p k !! key = Some q → p !! key = Some q ∧ (k = key → pd_rev q ≠ rev).
Proof using.
  unfold dropPending. destruct (p !! k) as [x|] eqn:E.
  - destruct (Z.eqb_spec (pd_rev x) rev) as [Hx|Hx].
    + intros [Hne Hq]%lookup_delete_Some. done.
    + intros Hq. split; [done|]. intros ->. congruence.
  - intros Hq. split; [done|]. intros ->. congruence.
Qed.

Lemma dropPendings_spec (rev : Z) (ks : list bytes) : ∀ (p : gmap bytes pendingKV) (key : bytes) q,
  fold_left (dropPending rev) ks p !! key = Some q → p !! key = Some q ∧ (key ∈ ks → pd_rev q ≠ rev).
Proof using.
  induction ks as [|k ks IH]; intros p key q; cbn.
  { intros Hq. split; [done|]. by intros ?%not_elem_of_nil. }
  intros [Hq Hks]%IH. apply dropPending_spec in Hq as [Hq Hk]. split; [done|].
  intros [->|Hin]%elem_of_cons; [by apply Hk|by apply Hks].
Qed.

Lemma clearPendingEntry_spec (p : gmap bytes pendingKV) (e : Entry) (key : bytes) q :
  e_Key e ≠ [] ∨ e_Op e = OpTxn ∨ e_Op e = OpCompact →
  clearPendingEntry p e !! key = Some q →
  p !! key = Some q ∧ ∀ x, x ∈ entry_log e → rc_key x.2 = key → pd_rev q ≠ x.1.
Proof using.
  intros He. unfold clearPendingEntry, entry_log.
  destruct (Z.eqb_spec (e_Op e) OpTxn) as [Ht|Ht].
  - rewrite Ht. change (OpTxn =? OpCompact) with false. cbv iota. destruct (DecodeTxnOps _) as [ops|].
    + intros [Hq Hks]%dropPendings_spec. split; [done|]. intros x Hx Hk.
      apply (list_elem_of_fmap_1 (λ o, (e_Revision e, subop_record o))) in Hx as (o & -> & Ho).
      apply Hks. rewrite <- Hk. cbn. by apply (list_elem_of_fmap_2 so_Key).
    + intros Hq. split; [done|]. by intros x ?%not_elem_of_nil.
  - destruct (Z.eqb_spec (e_Op e) OpCompact) as [Hc|Hc].
    + case_bool_decide; [intros Hq|intros [Hq _]%dropPending_spec]; (split; [done|]); by intros x ?%not_elem_of_nil.
    + rewrite bool_decide_false by (destruct He as [?|[?|?]]; done). intros [Hq Hk]%dropPending_spec.
      split; [done|]. intros x ->%list_elem_of_singleton Hkey. by apply Hk.
Qed.

Lemma clearPending_spec (es : list Entry) : ∀ (p : gmap bytes pendingKV) (key : bytes) q,
  Forall (λ e, e_Key e ≠ [] ∨ e_Op e = OpTxn ∨ e_Op e = OpCompact) es →
  fold_left clearPendingEntry es p !! key = Some q →
  p !! key = Some q ∧ ∀ x, x ∈ batch_log es → rc_key x.2 = key → pd_rev q ≠ x.1.
Proof using.
  induction es as [|e es IH]; intros p key q Hes; cbn.
  { intros Hq. split; [done|]. by intros x ?%not_elem_of_nil. }
  inversion_clear Hes as [|? ? He Hes']. intros [Hq Hx]%IH; [|done].
  apply clearPendingEntry_spec in Hq as [Hq Hy]; [|done]. split; [done|].
  intros x [Hin|Hin]%elem_of_app Hk; [by apply Hy|by apply Hx].
Qed.

(** Giving up a batch with nothing queued behind it. *)
Lemma NI_cancel n H B :
  NI n H B → n_writeC n = [] →
  Forall (λ e, e_Key e ≠ [] ∨ e_Op e = OpTxn ∨ e_Op e = OpCompact) B →
  NI (set_pending (fold_left clearPendingEntry B (n_pending n)) n) H [].
Proof using.
  intros HN Hq HB. destruct HN as [Hrel Hok Hrev Hseq Hck Hver Hpend].
  unfold accepted, unapplied in *. cbn in *. rewrite Hq, app_nil_r in *.
  pose proof (batch_log_le _ _ _ _ Hok) as (H1 & H2 & _). split; unfold accepted, unapplied; cbn; rewrite ?Hq.
  - done.
  - done.
  - cbn. lia.
  - cbn. lia.
  - by intros e ?%not_elem_of_nil.
  - cbn. rewrite app_nil_r. intros x Hx. apply Hver. apply elem_of_app. by left.
  - cbn. rewrite app_nil_r. intros key.
    destruct (fold_left clearPendingEntry B (n_pending n) !! key) as [q|] eqn:E; [|done].
    apply clearPending_spec in E as [E Hne]; [|done]. specialize (Hpend key). rewrite E in Hpend.
    destruct Hpend as (r & Hnew & Hrest). exists r. split; [|done].
    rewrite newest_app in Hnew. destruct (newest (batch_log B) key) as [x|] eqn:Ex; [|done].
    injection Hnew as ->. apply newest_elem in Ex as [Hin Hk]. by destruct (Hne _ Hin Hk).
Qed.

(** Clearing a batch that was applied. *)
Lemma NI_clear n H A :
  NI n H [] →
  (∀ e, e ∈ A → e_Revision e ≤ st_currentRev (n_db n) ∨ (e_Op e = OpCompact ∧ e_Key e = [])) →
  NI (set_pending (fold_left clearPendingEntry A (n_pending n)) n) H [].
Proof using.
  intros HN HA. pose proof HN as [Hrel Hok Hrev Hseq Hck Hver Hpend]. split; try done.
  intros key. apply (pend_clear (accepted n H []) H (st_currentRev (n_db n)) A (n_pending n) Hpend HA).
  exists (batch_log (unapplied n [])). split; [done|].
  exact (batch_log_above _ _ _ _ Hok).
Qed.

End Steps.
