(* ===== verification/NodeSteps.v ===== *)
(** * The write path as a state machine

    Client operations interleaved with the stages of the commit loop: a step
    relation on nodes, its inductive invariant, and the simulation by the
    sequential store of [spec_op].  The stages are those of [commitStep]; a
    client operation, which runs under the mutex of the node, can fall between
    any two of them, and so can the goroutines of the WAL and of the peer
    server, which change nothing else of the node. *)

From S2P Require Import Prelude Bytes WalEntry Os Wal Pebble StoreKeys Store StoreSpec StoreInv StoreApply StoreRead StoreRefine Peer Node NodeSpec NodeInv NodeProps.

(** ** The sequential store *)

(** What clients can know of the node: the committed history, all accepted
    writes, and the committed revision. *)
Record aview := mkView { av_done : hist; av_all : hist; av_cur : Z }.

(** One operation of a client with its answer, or none. *)
Definition label : Type := option (cop * result answer).

Inductive astep : aview → label → aview → Prop :=
  | as_op H V cur rev op recs ans :
      (∀ x, x ∈ V → x.1 < rev) → spec_op V cur rev op = (recs, ans) →
      astep (mkView H V cur) (Some (op, ans)) (mkView H (V ++ recs) cur)
  | as_refuse v op e : astep v (Some (op, Err e)) v
  | as_commit H K T cur cur' :
      cur ≤ cur' → (∀ x, x ∈ H ++ K → x.1 ≤ cur') → (∀ x, x ∈ T → cur' < x.1) →
      astep (mkView H (H ++ K ++ T) cur) None (mkView (H ++ K) (H ++ K ++ T) cur')
  | as_cancel H K cur : astep (mkView H (H ++ K) cur) None (mkView H H cur)
  | as_tau v : astep v None v.

(** ** The node *)

(** Where the commit loop is: waiting, with a batch it has taken, with a batch
    it has applied, or stopped, at shutdown or by the failure of a batch with
    these records. *)
Inductive phase := Idle | Taken (B : list Entry) | Applied (A : list Entry) | Stopped (K : hist).

Definition taken (ph : phase) : list Entry := match ph with Taken B => B | _ => [] end.

(** The answer of an outcome, once the entry it waits for is committed. *)
Definition promised {A} (o : outcome (result A)) : result A :=
  match o with
  | Done a => a
  | Wait e k => k (Ok (e_Revision e))
  | Forwarded _ k => k (Err ErrNoLeader)
  end.

(** A key of the batch that [clearPendingBatch] would not look at. *)
Definition keyed (e : Entry) : Prop := e_Key e ≠ [] ∨ e_Op e = OpTxn ∨ e_Op e = OpCompact.

Section Machine.
Context {DB L R : Type} `{PI : Pebble DB} `{POk : !PebbleOk DB} `{WI : WALWriter L} `{RI : PeerServer R}.
Local Notation Node := (Node DB L R).
Implicit Types n : Node.

Definition state : Type := Node * hist * phase.

Definition persist (ctxErr : option err) (B : list Entry) : ST Node () :=
  replicateBatch ctxErr B;; zoom n_db set_n_db (Apply B).

Inductive nstep : state → label → state → Prop :=
  | ns_op n H ph op o n' :
      n_role n ≠ roleFollower → room n → op_ok n (taken ph) op → run op n = (Ok o, n') →
      nstep (n, H, ph) (Some (op, promised o)) (n', H, ph)
  | ns_take n H k :
      nstep (n, H, Idle) None (set_writeC (drop k (n_writeC n)) n, H, Taken (take k (n_writeC n)))
  | ns_persist n H B ctxErr n' :
      persist ctxErr B n = (Ok tt, n') →
      nstep (n, H, Taken B) None (n', H ++ batch_log B, Applied B)
  | ns_clear n H A n' :
      clearPendingBatch A n = (Ok tt, n') → nstep (n, H, Applied A) None (n', H, Idle)
  | ns_cancel n H B ctxErr e n' :
      replicateBatch ctxErr B n = (Err e, n') → isCancellation e = true →
      n_writeC n = [] → Forall keyed B →
      nstep (n, H, Taken B) None ((clearPendingBatch B n').2, H, Idle)
  | ns_fail n H B ctxErr e n' :
      persist ctxErr B n = (Err e, n') → isCancellation e = false →
      nstep (n, H, Taken B) None ((stopLoop (clearPendingBatch B n').2).2, H, Stopped (batch_log B))
  | ns_shutdown n H :
      nstep (n, H, Idle) None ((stopLoop n).2, H, Stopped [])
  | ns_background n H ph l p :
      nstep (n, H, ph) None (set_peerSrv p (set_n_wal l n), H, ph).

(** A node that just opened its store. *)
Definition initial (st : state) : Prop :=
  let '(n, H, ph) := st in
  ph = Idle ∧ Rel (n_db n) H ∧ VInv H ∧ n_pending n = ∅ ∧ n_writeC n = [] ∧ n_closed n = false ∧
  st_currentRev (n_db n) ≤ n_nextRev n ≤ n_nextSeq n ∧ st_lastSeq (n_db n) ≤ n_nextSeq n.

Inductive reachable : state → Prop :=
  | reach_init st : initial st → reachable st
  | reach_step st l st' : reachable st → nstep st l st' → reachable st'.

(** ** The invariant *)

Definition stable (n : Node) (A : list Entry) : Prop :=
  ∀ e, e ∈ A → e_Revision e ≤ st_currentRev (n_db n) ∨ (e_Op e = OpCompact ∧ e_Key e = []).

Definition inv (st : state) : Prop :=
  let '(n, H, ph) := st in
  match ph with
  | Idle => n_closed n = false ∧ NI n H []
  | Taken B => n_closed n = false ∧ NI n H B
  | Applied A => n_closed n = false ∧ NI n H [] ∧ stable n A
  | Stopped K =>
      n_closed n = true ∧ n_writeC n = [] ∧
      (MI (db_map (st_db (n_db n))) H (st_compactRev (n_db n)) ∨
       MI (db_map (st_db (n_db n))) (H ++ K) (st_compactRev (n_db n)))
  end.

Lemma inv_open n H ph :
  inv (n, H, ph) → n_closed n = false → NI n H (taken ph).
Proof using. intros Hinv Hc. destruct ph; cbn in *; [apply Hinv..|]. destruct Hinv. congruence. Qed.

(** A closed node refuses every operation and does not change. *)
Lemma run_closed op n :
  n_closed n = true → n_role n ≠ roleFollower → run op n = (Ok (Done (Err ErrClosed)), n).
Proof using.
  intros Hc Hr. destruct op; unfold run, Put, Create, Update, Delete, DeleteIfRevision, Txn, Compact, mbind,
    ST_bind, get_st; rewrite Hc, ?(bool_decide_false (n_role n = roleFollower)) by done; done.
Qed.

(** The entries of a batch are at most at its last revision. *)
Lemma end_rev_le es : ∀ rev seq c e,
  batch_ok rev seq c es → e ∈ es → e_Op e ≠ OpCompact → e_Revision e ≤ end_rev rev es.
Proof using.
  induction es as [|x es IH]; intros rev seq c e Hb; [by intros ?%not_elem_of_nil|].
  cbn [end_rev]. destruct Hb as (_ & _ & Hb). destruct (Z.eqb_spec (e_Op x) OpCompact) as [Hx|Hx].
  - destruct Hb as (_ & _ & Hb). intros [->|He]%elem_of_cons Hop; [done|]. by apply (IH _ _ _ _ Hb).
  - destruct Hb as (_ & _ & _ & Hb). intros [->|He]%elem_of_cons Hop; [|by apply (IH _ _ _ _ Hb)].
    by apply (batch_log_le es _ _ _ Hb).
Qed.

(** Persisting a batch applies it to the store and leaves the rest. *)
Lemma persist_run ctxErr B n r n' :
  persist ctxErr B n = (r, n') →
  ∃ n1 r1, replicateBatch ctxErr B n = (r1, n1) ∧
  match r1 with
  | Err e => r = Err e ∧ n' = n1
  | Ok _ => ∃ s', Apply B (n_db n1) = (r, s') ∧ n' = set_n_db s' n1
  end.
Proof using.
  unfold persist, mbind, ST_bind. destruct (replicateBatch ctxErr B n) as [[[]|e] n1] eqn:E.
  - unfold zoom. destruct (Apply B (n_db n1)) as [r2 s'] eqn:Ea. intros [= <- <-].
    exists n1, (Ok tt). split; [done|]. by exists s'.
  - intros [= <- <-]. by exists n1, (Err e).
Qed.

(** The invariant does not depend on the WAL, the peers and the role. *)
Lemma NI_frame n n' H B :
  n_db n' = n_db n ∧ n_pending n' = n_pending n ∧ n_writeC n' = n_writeC n ∧
  n_nextRev n' = n_nextRev n ∧ n_nextSeq n' = n_nextSeq n → NI n H B → NI n' H B.
Proof using.
  intros (Hd & Hp & Hq & Hr & Hs) [H1 H2 H3 H4 H5 H6 H7].
  assert (unapplied n' B = unapplied n B) as Hu by (unfold unapplied; by rewrite Hq).
  assert (accepted n' H B = accepted n H B) as HV by (unfold accepted; by rewrite Hu).
  split; rewrite ?HV, ?Hu, ?Hd, ?Hp, ?Hr, ?Hs; done.
Qed.

Lemma stable_frame n n' A : n_db n' = n_db n → stable n A → stable n' A.
Proof using. unfold stable. by intros ->. Qed.

(** Operations do not touch the store, close the node or change its role. *)
Lemma run_db op n o n' :
  run op n = (Ok o, n') → n_db n' = n_db n ∧ n_closed n' = n_closed n.
Proof using.
  assert (∀ rev rs (m : Node), ∃ p, addPendings rev rs m = (Ok tt, set_pending p m)) as Hadd.
  { intros rev rs. induction rs as [|x rs IH]; intros m; cbn.
    - exists (n_pending m). by destruct m.
    - unfold mbind, ST_bind, addPending, modify. destruct (IH (set_pending (<[ro_key x := pendingOf rev x]> (n_pending m)) m)) as [p ->].
      exists p. by destruct m. }
  destruct op; unfold run, Put, Create, Update, Delete, DeleteIfRevision, Txn, Compact, preparePut, prepareDelete,
    prepareTxn, nextIds, enqueueReq, addPending, modify, throw, from_result, mbind, ST_bind, get_st, try, mret, ST_ret;
    try (repeat case_match; intros; simplify_eq; done).
  destruct (n_closed n) eqn:Ec; [intros [= <- <-]; done|].
  case_bool_decide; [intros [= <- <-]; done|].
  destruct (evalConds n _) as [ok|]; [|intros [= <- <-]; done].
  destruct (if ok then _ else _) as [|op0 ops]; [intros [= <- <-]; done|].
  destruct (resolveOps n _) as [[|r rs]|]; [intros [= <- <-]; done| |intros [= <- <-]; done].
  destruct (_ <? _); [intros [= <- <-]; done|]. destruct (negb _); [intros [= <- <-]; done|].
  destruct (Hadd (i64 (n_nextRev n + 1)) (r :: rs)
    (set_counters (i64 (n_nextRev n + 1)) (i64 (n_nextSeq n + 1)) n)) as [p ->].
  intros [= <- <-]. done.
Qed.

Definition view (st : state) : aview :=
  let '(n, H, ph) := st in mkView H (accepted n H (taken ph)) (st_currentRev (n_db n)).

Definition running (st : state) : Prop := match st.2 with Stopped _ => False | _ => True end.

Lemma inv_init st : initial st → inv st.
Proof using.
  destruct st as [[n H] ph]. intros (-> & Hrel & HV & Hp & Hq & Hc & Hr & Hs). split; [done|].
  split; unfold accepted, unapplied; rewrite ?Hq; cbn; rewrite ?app_nil_r; try done; try lia.
  - by intros e ?%not_elem_of_nil.
  - intros key. rewrite Hp, lookup_empty. done.
Qed.

Lemma op_sim n H ph op o n' :
  inv (n, H, ph) → n_role n ≠ roleFollower → room n → op_ok n (taken ph) op → run op n = (Ok o, n') →
  inv (n', H, ph) ∧ astep (view (n, H, ph)) (Some (op, promised o)) (view (n', H, ph)).
Proof using All.
  intros Hinv Hro Hroom Hok Hrun. destruct (n_closed n) eqn:Hcl.
  { rewrite run_closed in Hrun by done. injection Hrun as <- <-. split; [done|]. apply as_refuse. }
  pose proof (inv_open n H ph Hinv Hcl) as HN. pose proof (run_db op n o n' Hrun) as [Hdb Hcl'].
  destruct (run_refines n H (taken ph) HN Hcl Hro op Hroom Hok) as (o1 & n1 & Hrun' & Href).
  rewrite Hrun in Hrun'. injection Hrun' as <- <-. destruct Href as [Href|(_ & -> & e & ->)].
  2:{ split; [done|]. apply as_refuse. }
  unfold refines_op in Href.
  destruct (spec_op (accepted n H (taken ph)) (st_currentRev (n_db n)) (n_nextRev n + 1) op) as [recs ans] eqn:Es.
  destruct Href as (HN' & HV & Ho). split.
  - destruct ph; cbn in *; rewrite ?Hcl'; try tauto.
    + destruct Hinv as (_ & _ & Hst). split_and!; [done..|]. by apply (stable_frame n).
    + destruct Hinv. congruence.
  - assert (promised o = ans) as -> by (destruct o; cbn in *; [apply Ho|apply Ho|done]).
    unfold view. rewrite HV, Hdb. apply (as_op _ _ _ (n_nextRev n + 1)); [|done].
    intros x Hx. apply (ni_below n H (taken ph) HN) in Hx. lia.
Qed.

Lemma persist_sim n H B ctxErr n' :
  n_closed n = false → NI n H B → persist ctxErr B n = (Ok tt, n') →
  inv (n', H ++ batch_log B, Applied B) ∧
  astep (view (n, H, Taken B)) None (view (n', H ++ batch_log B, Applied B)).
Proof using All.
  intros Hcl HN Hp. apply persist_run in Hp as (n1 & [[]|e] & Hrep & Hap); [|by destruct Hap].
  destruct Hap as (s' & Hap & ->). apply replicate_frame in Hrep as (Hd & Hpn & Hq & Hr & Hs & Hc & _).
  pose proof (NI_frame n n1 H B ltac:(done) HN) as HN1.
  pose proof (NI_apply n1 H B s' HN1 Hap) as HN2.
  pose proof (ni_ok _ _ _ HN1) as Hok. unfold unapplied in Hok. apply batch_ok_app in Hok as [Hok Hok2].
  pose proof (re_bound _ _ (ni_rel _ _ _ HN1)) as [Hb0 Hb1].
  destruct (Apply_counters _ B s' Hok ltac:(lia) ltac:(lia) Hap) as (Hc1 & _).
  pose proof (batch_log_le _ _ _ _ Hok) as (Hle & _ & Hbl). split.
  - split; [by rewrite <- Hcl, <- Hc|]. split; [done|]. intros e He. cbn. rewrite Hc1.
    destruct (decide (e_Op e = OpCompact)) as [Ho|Ho].
    + right. split; [done|]. apply (ni_ckey _ _ _ HN1); [|done]. apply elem_of_app. by left.
    + left. by apply (end_rev_le B _ (st_lastSeq (n_db n1)) (st_compactRev (n_db n1))).
  - unfold view, accepted, unapplied. cbn [taken app set_n_db n_writeC n_db].
    rewrite <- Hq, <- Hd, batch_log_app. rewrite <- (app_assoc H). rewrite Hc1. apply as_commit; [done| |].
    + intros x [Hx|Hx]%elem_of_app; [|by apply Hbl].
      apply (re_cur _ _ (ni_rel _ _ _ HN1)) in Hx. lia.
    + exact (batch_log_above _ _ _ _ Hok2).
Qed.

Lemma fail_inv n H B ctxErr e n' :
  NI n H B → persist ctxErr B n = (Err e, n') →
  inv ((stopLoop (clearPendingBatch B n').2).2, H, Stopped (batch_log B)).
Proof using All.
  intros HN Hp. apply persist_run in Hp as (n1 & r1 & Hrep & Hap).
  apply replicate_frame in Hrep as (Hd & Hpn & Hq & Hr & Hs & Hc & _).
  pose proof (NI_frame n n1 H B ltac:(done) HN) as HN1.
  pose proof (ni_ok _ _ _ HN1) as Hok. unfold unapplied in Hok. apply batch_ok_app in Hok as [Hok _].
  cbn. split_and!; [done..|]. destruct r1 as [[]|e1].
  - destruct Hap as (s' & Hap & ->). cbn.
    by apply (Apply_refines _ H B _ _ (ni_rel _ _ _ HN1) Hok) in Hap as (_ & _ & _ & Hm).
  - destruct Hap as [_ ->]. left. apply HN1.
Qed.

(** Every step keeps the invariant and is a step of the sequential store. *)
Lemma step_sim st l st' :
  inv st → nstep st l st' → inv st' ∧ (running st' → astep (view st) l (view st')).
Proof using All.
  intros Hinv Hstep. destruct Hstep as [n H ph op o n' Hro Hroom Hok Hrun|n H k|n H B ctxErr n' Hp
    |n H A n' Hclr|n H B ctxErr e n' Hrep He Hq Hkey|n H B ctxErr e n' Hp He|n H|n H ph l p].
  - destruct (op_sim n H ph op o n') as [H1 H2]; done.
  - destruct Hinv as [Hc HN]. split; [split; [done|by apply NI_take]|]. intros _.
    assert (∀ v v', v = v' → astep v None v') as Htau by (intros v v' ->; apply as_tau).
    apply Htau. unfold view, accepted, unapplied. cbn. by rewrite take_drop.
  - destruct Hinv as [Hc HN]. destruct (persist_sim n H B ctxErr n') as [H1 H2]; done.
  - destruct Hinv as (Hc & HN & Hst). injection Hclr as <-. split; [split; [done|by apply NI_clear]|].
    intros _. apply as_tau.
  - destruct Hinv as [Hc HN]. apply replicate_frame in Hrep as (Hd & Hpn & Hq' & Hr & Hs & Hc' & _).
    pose proof (NI_frame n n' H B ltac:(done) HN) as HN1. rewrite <- Hq' in Hq. split.
    + split; [cbn; congruence|]. by apply NI_cancel.
    + intros _. unfold view, accepted, unapplied. cbn. rewrite <- Hq', Hq, Hd, app_nil_r.
      cbn. rewrite app_nil_r. apply as_cancel.
  - destruct Hinv as [Hc HN]. split; [|done]. by apply (fail_inv n H B ctxErr e).
  - destruct Hinv as [Hc HN]. split; [|done]. cbn. split_and!; [done..|]. left. apply HN.
  - split; [|intros _; apply as_tau].
    assert (∀ B, NI n H B → NI (set_peerSrv p (set_n_wal l n)) H B) as HN by (intros B; by apply NI_frame).
    destruct ph; cbn in *; naive_solver.
Qed.

Lemma reachable_inv st : reachable st → inv st.
Proof using All. induction 1 as [st Hi|st l st' _ IH Hs]; [by apply inv_init|]. by apply (step_sim st l). Qed.
End Machine.
