(* ===== verification/Server.v ===== *)
(** * The leader's peer server

    internal/peer/server.go: the ring buffer of committed entries, fan-out to
    the followers' channels, the [Follow] stream of one follower, and the wait
    for acknowledgements.  Channels live in a store of their own, addressed by
    number, because a follower's registration and the goroutine that serves it
    share one and compare it by identity.  The methods run under the server's
    mutex; the [Follow] goroutine is cut at the points where it takes it. *)

From S2P Require Import Prelude Bytes WalEntry Os Wal Store Peer Node.

(** ** The ring buffer *)

Record entryBuffer := mkBuf { eb_entries : list Entry; eb_cap : nat }.

Definition newEntryBuffer (cap : nat) : entryBuffer := mkBuf [] cap.

Definition push (e : Entry) (b : entryBuffer) : entryBuffer :=
  let es := eb_entries b ++ [e] in
  mkBuf (if (eb_cap b <? length es)%nat then drop (length es - eb_cap b) es else es) (eb_cap b).

Fixpoint since_loop (fromRev : Z) (es : list Entry) : list Entry :=
  match es with
  | [] => []
  | e :: es' => if fromRev <=? Sequence e then e :: es' else since_loop fromRev es'
  end.

Definition since (b : entryBuffer) (fromRev : Z) : list Entry * bool :=
  match eb_entries b with
  | [] => ([], true)
  | e0 :: _ => if fromRev <? Sequence e0 then ([], false) else (since_loop fromRev (eb_entries b), true)
  end.

(** ** State *)

Inductive WaitMode := WaitNone | WaitQuorum | WaitAll | WaitOther.

Record chan := mkChan { ch_msgs : list WalEntryMsg; ch_closed : bool }.

Record Server := mkServer {
  sv_buf : entryBuffer;
  sv_pending : list Entry;
  sv_followers : gmap bytes nat;
  sv_chans : gmap nat chan;
  sv_followerAckRevs : gmap bytes Z;
  sv_maxBroadcastRev : Z;
  sv_ackNotify : bool;
  sv_startRev : Z;
  sv_gracefulGoodbyes : gset bytes;
  sv_shutdownC : bool;
  sv_DisconnectC : bool }.

Definition NewServer (cap : nat) : Server :=
  mkServer (newEntryBuffer cap) [] ∅ ∅ ∅ 0 false 0 ∅ false false.

Definition set_buf (b : entryBuffer) (p : list Entry) (m : Z) (s : Server) : Server :=
  mkServer b p (sv_followers s) (sv_chans s) (sv_followerAckRevs s) m (sv_ackNotify s)
    (sv_startRev s) (sv_gracefulGoodbyes s) (sv_shutdownC s) (sv_DisconnectC s).
Definition set_chans (f : gmap bytes nat) (c : gmap nat chan) (s : Server) : Server :=
  mkServer (sv_buf s) (sv_pending s) f c (sv_followerAckRevs s) (sv_maxBroadcastRev s) (sv_ackNotify s)
    (sv_startRev s) (sv_gracefulGoodbyes s) (sv_shutdownC s) (sv_DisconnectC s).
Definition set_acks (a : gmap bytes Z) (s : Server) : Server :=
  mkServer (sv_buf s) (sv_pending s) (sv_followers s) (sv_chans s) a (sv_maxBroadcastRev s) (sv_ackNotify s)
    (sv_startRev s) (sv_gracefulGoodbyes s) (sv_shutdownC s) (sv_DisconnectC s).
Definition set_notify (b : bool) (s : Server) : Server :=
  mkServer (sv_buf s) (sv_pending s) (sv_followers s) (sv_chans s) (sv_followerAckRevs s)
    (sv_maxBroadcastRev s) b (sv_startRev s) (sv_gracefulGoodbyes s) (sv_shutdownC s) (sv_DisconnectC s).
Definition set_goodbyes (g : gset bytes) (d : bool) (s : Server) : Server :=
  mkServer (sv_buf s) (sv_pending s) (sv_followers s) (sv_chans s) (sv_followerAckRevs s)
    (sv_maxBroadcastRev s) (sv_ackNotify s) (sv_startRev s) g (sv_shutdownC s) d.

Definition ConnectedFollowers (s : Server) : nat := size (sv_followers s).

Definition SetStartRev (rev : Z) (s : Server) : Server :=
  mkServer (sv_buf s) (sv_pending s) (sv_followers s) (sv_chans s) (sv_followerAckRevs s)
    (sv_maxBroadcastRev s) (sv_ackNotify s) rev (sv_gracefulGoodbyes s) (sv_shutdownC s) (sv_DisconnectC s).

(** ** Fan-out *)

(** The capacity of a follower's channel. *)
Definition chanCap : nat := 512.

(** [select { case ch <- msg: default: kick }] for one follower. *)
Definition offer1 (msg : WalEntryMsg) (acc : gmap nat chan * list bytes) (idc : bytes * nat)
    : gmap nat chan * list bytes :=
  let '(chans, toKick) := acc in
  match chans !! idc.2 with
  | Some ch =>
      if (chanCap <=? length (ch_msgs ch))%nat then (chans, toKick ++ [idc.1])
      else (<[idc.2 := mkChan (ch_msgs ch ++ [msg]) (ch_closed ch)]> chans, toKick)
  | None => acc
  end.

(** [close(s.followers[id]); delete(s.followers, id)]. *)
Definition kick1 (s : Server) (id : bytes) : Server :=
  match sv_followers s !! id with
  | Some c =>
      set_chans (delete id (sv_followers s))
        (alter (λ ch, mkChan (ch_msgs ch) true) c (sv_chans s)) s
  | None => s
  end.

Definition offer (msg : WalEntryMsg) (s : Server) : Server :=
  let '(chans, toKick) := fold_left (offer1 msg) (map_to_list (sv_followers s)) (sv_chans s, []) in
  fold_left kick1 toKick (set_chans (sv_followers s) chans s).

Definition Broadcast (e : Entry) (s : Server) : Server :=
  offer (EntryToMsg e) (set_buf (sv_buf s) (sv_pending s ++ [e]) (sv_maxBroadcastRev s) s).

(** The committed range moves to the ring buffer, older entries are dropped. *)
Definition commit1 (startRev rev : Z) (acc : entryBuffer * list Entry * Z) (e : Entry)
    : entryBuffer * list Entry * Z :=
  let '(buf, keep, mx) := acc in
  if Sequence e <? startRev then acc
  else if Sequence e <=? rev then (push e buf, keep, if mx <? Sequence e then Sequence e else mx)
  else (buf, keep ++ [e], mx).

Definition commitMsg (startRev rev : Z) : WalEntryMsg :=
  mkMsg 0 0 0 0 [] [] 0 0 0 0 rev startRev true false.

Definition BroadcastCommit (startRev rev : Z) (s : Server) : Server :=
  let '(buf, keep, mx) :=
    fold_left (commit1 startRev rev) (sv_pending s) (sv_buf s, [], sv_maxBroadcastRev s) in
  offer (commitMsg startRev rev) (set_buf buf keep mx s).

Definition notifyACK (s : Server) : Server := set_notify true s.

(** ** One follower's stream *)

Record session := mkSess { se_NodeID : bytes; se_ch : nat; se_maxSent : Z }.

(** Registration: the snapshot of the buffer and a fresh channel. *)
Definition followOpen (req : FollowRequest) (s : Server) : result (session * list Entry) * Server :=
  if (0 <? sv_startRev s) && (fr_FromRevision req <? sv_startRev s) then (Err ErrResyncRequired, s)
  else
    let '(snapshot, ok) := since (sv_buf s) (fr_FromRevision req) in
    if negb ok then (Err ErrResyncRequired, s)
    else
      let c := fresh (dom (sv_chans s)) in
      let maxSent :=
        if bool_decide (snapshot = []) then i64 (fr_FromRevision req - 1)
        else Sequence (List.last snapshot zeroEntry) in
      (Ok (mkSess (fr_NodeID req) c maxSent, snapshot),
       set_chans (<[fr_NodeID req := c]> (sv_followers s)) (<[c := mkChan [] false]> (sv_chans s)) s).

(** The catch-up messages. *)
Definition snapshotMsgs (snapshot : list Entry) : list WalEntryMsg :=
  map EntryToMsg snapshot ++
  match snapshot with
  | [] => []
  | e0 :: _ => [commitMsg (Sequence e0) (Sequence (List.last snapshot e0))]
  end.

(** What the goroutine does with one message of its channel: [None] when it
    would block, an error when the channel was closed, or the message it sends
    (an entry the snapshot already had is skipped). *)
Definition followStep (se : session) (s : Server) : option (result (session * list WalEntryMsg) * Server) :=
  ch ← sv_chans s !! se_ch se;
  match ch_msgs ch with
  | [] => if ch_closed ch then Some (Err (ErrText "follower stream closed: too slow, reconnect required"), s) else None
  | msg :: rest =>
      let s' := set_chans (sv_followers s) (<[se_ch se := mkChan rest (ch_closed ch)]> (sv_chans s)) s in
      if m_Commit msg then Some (Ok (se, [msg]), s')
      else if m_ID msg <=? se_maxSent se then Some (Ok (se, []), s')
      else Some (Ok (mkSess (se_NodeID se) (se_ch se) (m_ID msg), [msg]), s')
  end.

Definition shutdownMsg : WalEntryMsg := mkMsg 0 0 0 0 [] [] 0 0 0 0 0 0 false true.

(** The shutdown case of the same [select]. *)
Definition followShutdown (s : Server) : option (list WalEntryMsg) :=
  if sv_shutdownC s then Some [shutdownMsg] else None.

(** The deferred clean-up. *)
Definition followDefer (se : session) (s : Server) : Server :=
  match sv_followers s !! se_NodeID se with
  | Some c =>
      if bool_decide (c = se_ch se) then
        let graceful := bool_decide (se_NodeID se ∈ sv_gracefulGoodbyes s) in
        let s := set_chans (delete (se_NodeID se) (sv_followers s)) (sv_chans s) s in
        let s := set_acks (delete (se_NodeID se) (sv_followerAckRevs s)) s in
        let s := if graceful
                 then set_goodbyes (sv_gracefulGoodbyes s ∖ {[se_NodeID se]}) (sv_DisconnectC s) s
                 else set_goodbyes (sv_gracefulGoodbyes s) true s in
        notifyACK s
      else s
  | None => s
  end.

(** An acknowledgement read from the stream; [false] ends the reader. *)
Definition recvAck (se : session) (revision : Z) (s : Server) : bool * Server :=
  if bool_decide (sv_followers s !! se_NodeID se = Some (se_ch se)) then
    let cur := default 0 (sv_followerAckRevs s !! se_NodeID se) in
    let s := if cur <? revision
             then set_acks (<[se_NodeID se := revision]> (sv_followerAckRevs s)) s else s in
    (true, notifyACK s)
  else (false, s).

Definition GoodBye (id : bytes) (s : Server) : Server :=
  set_goodbyes ({[id]} ∪ sv_gracefulGoodbyes s) (sv_DisconnectC s) s.

Definition BroadcastShutdown (s : Server) : Server :=
  mkServer (sv_buf s) (sv_pending s) (sv_followers s) (sv_chans s) (sv_followerAckRevs s)
    (sv_maxBroadcastRev s) (sv_ackNotify s) (sv_startRev s) (sv_gracefulGoodbyes s) true (sv_DisconnectC s).

Definition MinFollowerAppliedRev (s : Server) : Z :=
  map_fold (λ id _ m, Z.min (default 0 (sv_followerAckRevs s !! id)) m) max_int64 (sv_followers s).

(** A write forwarded by a follower, before or after the handler is set. *)
Definition Forward {N A} (h : option (ForwardRequest → ST N (outcome (result A)))) (req : ForwardRequest)
    : ST N (outcome (result A)) :=
  match h with
  | None => mret (Done (Err (ErrText "leader not ready")))
  | Some h => h req
  end.

(** ** Waiting for acknowledgements *)

Definition requiredFollowerACKs (connected : nat) (mode : WaitMode) : nat :=
  match mode with
  | WaitNone => 0
  | WaitAll => connected
  | WaitQuorum => (connected + 1) / 2
  | WaitOther => (connected + 1) / 2
  end%nat.

(** The followers of [required] that are still connected, with and without an
    acknowledgement of [rev]. *)
Definition ackedOf (required : gset bytes) (rev : Z) (s : Server) : gset bytes :=
  filter (λ id, is_Some (sv_followers s !! id) ∧ rev ≤ default 0 (sv_followerAckRevs s !! id)) required.
Definition pendingOfAck (required : gset bytes) (rev : Z) (s : Server) : gset bytes :=
  filter (λ id, is_Some (sv_followers s !! id) ∧ default 0 (sv_followerAckRevs s !! id) < rev) required.

(** One pass over the required followers: whether to stop waiting. *)
Definition waitCheck (required : gset bytes) (target : nat) (rev : Z) (s : Server) : bool :=
  (target <=? size (ackedOf required rev s))%nat || bool_decide (pendingOfAck required rev s = ∅).

(** What other goroutines do while the commit loop waits; [EvWake] is the wait
    itself taking the notification. *)
Inductive peerEvent :=
  | EvAck (se : session) (revision : Z)
  | EvDefer (se : session)
  | EvOpen (req : FollowRequest)
  | EvStep (se : session)
  | EvGoodBye (id : bytes)
  | EvShutdown
  | EvWake.

Definition peerStep (ev : peerEvent) (s : Server) : Server :=
  match ev with
  | EvAck se rev => (recvAck se rev s).2
  | EvDefer se => followDefer se s
  | EvOpen req => (followOpen req s).2
  | EvStep se => match followStep se s with Some (_, s') => s' | None => s end
  | EvGoodBye id => GoodBye id s
  | EvShutdown => BroadcastShutdown s
  | EvWake => set_notify false s
  end.

(** The wait: a wake-up re-checks; when nothing more happens the context of
    the node ends it. *)
Fixpoint waitLoop (required : gset bytes) (target : nat) (rev : Z) (ctxErr : err)
    (evs : list peerEvent) (s : Server) : result () * Server * list peerEvent :=
  let s1 := if sv_ackNotify s then set_notify false s else s in
  if sv_ackNotify s && waitCheck required target rev s1 then (Ok tt, s1, evs)
  else
    match evs with
    | [] => (Err ctxErr, s1, [])
    | ev :: evs' => waitLoop required target rev ctxErr evs' (peerStep ev s1)
    end.

Definition WaitForFollowers (mode : WaitMode) (rev : Z) (ctxErr : err) (evs : list peerEvent) (s : Server)
    : result () * Server * list peerEvent :=
  if bool_decide (sv_followers s = ∅) then (Ok tt, s, evs)
  else
    let target := requiredFollowerACKs (size (sv_followers s)) mode in
    let required := dom (sv_followers s) in
    if bool_decide (target = 0%nat) then (Ok tt, s, evs)
    else if waitCheck required target rev s then (Ok tt, s, evs)
    else waitLoop required target rev ctxErr evs s.

(** The server as the commit loop sees it: with the events that happen during
    its waits. *)
Record peerEnv := mkEnv { pe_srv : Server; pe_mode : WaitMode; pe_ctxErr : err; pe_events : list peerEvent }.

#[global] Instance peerEnv_server : PeerServer peerEnv := {|
  ps_Broadcast e p := mkEnv (Broadcast e (pe_srv p)) (pe_mode p) (pe_ctxErr p) (pe_events p);
  ps_BroadcastCommit startRev rev p :=
    mkEnv (BroadcastCommit startRev rev (pe_srv p)) (pe_mode p) (pe_ctxErr p) (pe_events p);
  ps_WaitForFollowers rev p :=
    let '(r, s, evs) := WaitForFollowers (pe_mode p) rev (pe_ctxErr p) (pe_events p) (pe_srv p) in
    (r, mkEnv s (pe_mode p) (pe_ctxErr p) evs) |}.

(** ** Quorum *)

Lemma waitCheck_spec required target rev s :
  waitCheck required target rev s = true ↔
  (target ≤ size (ackedOf required rev s))%nat ∨ pendingOfAck required rev s = ∅.
Proof. unfold waitCheck. rewrite orb_true_iff, Nat.leb_le, bool_decide_eq_true. done. Qed.

Lemma waitLoop_spec required target rev ctxErr evs : ∀ s s' evs',
  waitLoop required target rev ctxErr evs s = (Ok tt, s', evs') →
  waitCheck required target rev s' = true.
Proof.
  induction evs as [|ev evs IH]; intros s s' evs'; cbn [waitLoop].
  - destruct (sv_ackNotify s); cbn [andb]; [|done]. by destruct (waitCheck _ _ _ _) eqn:E; [intros [= <- <-]|].
  - destruct (sv_ackNotify s); cbn [andb]; [|by apply IH].
    destruct (waitCheck _ _ _ _) eqn:E; [by intros [= <- <-]|]. by apply IH.
Qed.
