(* ===== verification/Follower.v ===== *)
(** * The follower

    internal/peer/client.go, [Follow] and [followOnce], and the callbacks and
    the loop of follower.go that append the leader's committed batches to the
    local WAL and apply them to the local store.  A connection is the list of
    messages the receiver goroutine hands over before the stream ends, and the
    error it ends with. *)

From S2P Require Import Prelude Bytes WalEntry Os Wal Pebble StoreKeys Store Peer Node.

(** ** One connection *)

Section FollowOnce.
Context {F : Type} (walFn applyFn : list Entry → ST F ()) (sendAck : Z → ST F ()).

(** After a message the loop goes on with [fromRev] and the staged entries, or
    the connection ends with the next sequence to request and an error. *)
Inductive progress :=
  | Continue (fromRev : Z) (staged : list Entry)
  | Return (next : Z) (e : err).

Fixpoint dropBelow (startRev : Z) (staged : list Entry) : list Entry :=
  match staged with
  | e :: staged' => if Sequence e <? startRev then dropBelow startRev staged' else staged
  | [] => []
  end.

Fixpoint cutAt (rev : Z) (staged : list Entry) : list Entry * list Entry :=
  match staged with
  | e :: staged' =>
      if Sequence e <=? rev then let '(batch, rest) := cutAt rev staged' in (e :: batch, rest)
      else ([], staged)
  | [] => ([], [])
  end.

(** [e.Sequence() == start + i] for every entry. *)
Fixpoint contiguous (start : Z) (es : list Entry) : bool :=
  match es with
  | [] => true
  | e :: es' => (Sequence e =? start) && contiguous (i64 (start + 1)) es'
  end.

Definition lastSequence (batch : list Entry) : Z := Sequence (List.last batch zeroEntry).

(** A batch that passed the checks. *)
Definition commitBatchMsg (fromRev startRev : Z) (batch rest : list Entry) : ST F progress :=
  r ← try (walFn batch);
  match r with
  | Err e => mret (Return startRev e)
  | Ok _ =>
      let next := i64 (lastSequence batch + 1) in
      let fromRev := if fromRev <? next then next else fromRev in
      a ← try (sendAck (lastSequence batch));
      match a with
      | Err e => mret (Return fromRev e)
      | Ok _ =>
          p ← try (applyFn batch);
          match p with
          | Err e => mret (Return fromRev e)
          | Ok _ => mret (Continue fromRev rest)
          end
      end
  end.

Definition followMsg (fromRev : Z) (staged : list Entry) (msg : WalEntryMsg) : ST F progress :=
  if negb (m_Commit msg) then mret (Continue fromRev (staged ++ [MsgToEntry msg]))
  else
    let startRev := if m_CommitStartRevision msg =? 0 then m_CommitRevision msg else m_CommitStartRevision msg in
    if m_CommitRevision msg <? fromRev then mret (Continue fromRev staged)
    else
      let staged := dropBelow startRev staged in
      let '(batch, rest) := cutAt (m_CommitRevision msg) staged in
      match batch with
      | [] => mret (Return fromRev ErrResyncRequired)
      | e0 :: _ =>
          if negb (Sequence e0 =? startRev) || negb (lastSequence batch =? m_CommitRevision msg)
          then mret (Return fromRev ErrResyncRequired)
          else if negb (contiguous startRev batch) then mret (Return fromRev ErrResyncRequired)
          else commitBatchMsg fromRev startRev batch rest
      end.

(** The loop of [followOnce] over the messages of one connection. *)
Fixpoint followMsgs (fromRev : Z) (staged : list Entry) (msgs : list WalEntryMsg) (recvErr : err)
    : ST F (Z * err) :=
  match msgs with
  | [] => mret (fromRev, recvErr)
  | msg :: msgs' =>
      if m_Shutdown msg then mret (fromRev, ErrLeaderShutdown)
      else
        p ← followMsg fromRev staged msg;
        match p with
        | Return next e => mret (next, e)
        | Continue fromRev staged => followMsgs fromRev staged msgs' recvErr
        end
  end.

Definition followOnce (fromRev : Z) (msgs : list WalEntryMsg) (recvErr : err) : ST F (Z * err) :=
  followMsgs fromRev [] msgs recvErr.

(** ** Reconnecting *)

(** A connection attempt: the messages and the error it ends with, which is the
    error of connecting when it failed; what the server sends depends on the
    sequence requested. *)
Definition attempt : Type := Z → list WalEntryMsg * err.

(** The loop ends with the context when the attempts are used up. *)
Fixpoint Follow (maxRetries : nat) (fromRev : Z) (failures : nat) (attempts : list attempt) : ST F err :=
  match attempts with
  | [] => mret ErrCanceled
  | a :: attempts' =>
      let '(msgs, recvErr) := a fromRev in
      '(nextSeq, e) ← followOnce fromRev msgs recvErr;
      if bool_decide (e = ErrResyncRequired) then mret e
      else if bool_decide (e = ErrLeaderShutdown) then mret e
      else
        let failures := if fromRev <? nextSeq then 0%nat else S failures in
        if (0 <? maxRetries)%nat && (maxRetries <=? failures)%nat then mret ErrLeaderUnreachable
        else Follow maxRetries nextSeq failures attempts'
  end.
End FollowOnce.

(** ** The callbacks of the follow loop *)

Record Follower (DB L : Type) := mkFollower {
  fl_fromRev : Z;
  fl_wal : L;
  fl_db : Store DB;
  fl_term : Z;
  fl_acks : list Z }.
Arguments mkFollower {DB L} _ _ _ _ _.
Arguments fl_fromRev {DB L} _.
Arguments fl_wal {DB L} _.
Arguments fl_db {DB L} _.
Arguments fl_term {DB L} _.
Arguments fl_acks {DB L} _.

Section Callbacks.
Context {DB L : Type} `{Pebble DB} `{WALWriter L}.
Local Notation Follower := (Follower DB L).

Definition set_fl_wal (l : L) (f : Follower) : Follower :=
  mkFollower (fl_fromRev f) l (fl_db f) (fl_term f) (fl_acks f).
Definition set_fl_db (d : Store DB) (f : Follower) : Follower :=
  mkFollower (fl_fromRev f) (fl_wal f) d (fl_term f) (fl_acks f).
Definition set_fl_pos (from term : Z) (f : Follower) : Follower :=
  mkFollower from (fl_wal f) (fl_db f) term (fl_acks f).

Definition walFn (entries : list Entry) : ST Follower () :=
  f ← get_st;
  if contiguous (fl_fromRev f) entries then zoom fl_wal set_fl_wal (wal_AppendBatch None entries)
  else throw ErrResyncRequired.

Definition observeTerm (term : Z) (cur : Z) : Z := if cur <? term then term else cur.

Definition applyFn (entries : list Entry) : ST Follower () :=
  zoom fl_db set_fl_db (Apply entries);;
  modify (λ f, set_fl_pos (i64 (lastSequence entries + 1))
                 (observeTerm (e_Term (List.last entries zeroEntry)) (fl_term f)) f).

(** [stream.SendAck]; the stream may have failed. *)
Definition sendAck (ok : bool) (rev : Z) : ST Follower () :=
  if ok then modify (λ f, mkFollower (fl_fromRev f) (fl_wal f) (fl_db f) (fl_term f) (fl_acks f ++ [rev]))
  else throw ErrEOF.
End Callbacks.
