(* ===== verification/Replication.v ===== *)
(** * Replication

    The leader's server and its followers together.  The leader broadcasts the
    entries of a batch, then commits or abandons it ([replicateBatch]); the
    streams of the followers run in between.  Whatever a stream delivers, a
    follower only ever applies committed entries, in order and without gaps:
    its history is a prefix of the leader's. *)

From S2P Require Import Prelude Bytes WalEntry Os Wal Pebble StoreKeys Store StoreSpec StoreInv StoreApply StoreRead StoreRefine Peer Node NodeSpec NodeInv Server Follower.

(** ** The leader and its streams *)

(** [ls_committed] and [ls_batch] are the entries committed so far and those of
    the batch in progress; [ls_out] is what each stream has sent, by channel. *)
Record lsys := mkSys {
  ls_srv : Server;
  ls_committed : list Entry;
  ls_batch : list Entry;
  ls_hi : Z;
  ls_out : gmap nat (list WalEntryMsg) }.

Definition sent (s : lsys) (c : nat) : list WalEntryMsg := default [] (ls_out s !! c).

Definition send (c : nat) (ms : list WalEntryMsg) (s : lsys) : gmap nat (list WalEntryMsg) :=
  <[c := sent s c ++ ms]> (ls_out s).

Definition quiet (ev : peerEvent) : Prop :=
  match ev with EvOpen _ | EvStep _ => False | _ => True end.

Inductive lstep : lsys → lsys → Prop :=
  | L_broadcast s e :
      ls_hi s < Sequence e →
      lstep s (mkSys (Broadcast e (ls_srv s)) (ls_committed s) (ls_batch s ++ [e]) (Sequence e) (ls_out s))
  | L_commit s e0 P :
      ls_batch s = e0 :: P →
      lstep s (mkSys (BroadcastCommit (Sequence e0) (Sequence (List.last (e0 :: P) e0)) (ls_srv s))
                 (ls_committed s ++ e0 :: P) [] (ls_hi s) (ls_out s))
  | L_abandon s :
      lstep s (mkSys (ls_srv s) (ls_committed s) [] (ls_hi s) (ls_out s))
  | L_open s req se snap srv' :
      followOpen req (ls_srv s) = (Ok (se, snap), srv') →
      lstep s (mkSys srv' (ls_committed s) (ls_batch s) (ls_hi s)
                 (<[se_ch se := snapshotMsgs snap]> (ls_out s)))
  | L_stream s se se' ms srv' :
      followStep se (ls_srv s) = Some (Ok (se', ms), srv') →
      lstep s (mkSys srv' (ls_committed s) (ls_batch s) (ls_hi s) (send (se_ch se) ms s))
  | L_bye s se ms :
      followShutdown (ls_srv s) = Some ms →
      lstep s (mkSys (ls_srv s) (ls_committed s) (ls_batch s) (ls_hi s) (send (se_ch se) ms s))
  | L_event s ev :
      quiet ev →
      lstep s (mkSys (peerStep ev (ls_srv s)) (ls_committed s) (ls_batch s) (ls_hi s) (ls_out s)).

Definition lsys_init (cap : nat) (hi startRev : Z) : lsys :=
  mkSys (SetStartRev startRev (NewServer cap)) [] [] hi ∅.

(** ** The invariant *)

(** Everything a stream has sent or will send. *)
Definition queued (srv : Server) (c : nat) : list WalEntryMsg :=
  match sv_chans srv !! c with Some ch => ch_msgs ch | None => [] end.

Definition stream (s : lsys) (c : nat) : list WalEntryMsg := sent s c ++ queued (ls_srv s) c.

Definition is_entry (m : WalEntryMsg) : Prop := m_Commit m = false ∧ m_Shutdown m = false.

(** The first sequence a commit message covers, as the follower reads it. *)
Definition startOf (m : WalEntryMsg) : Z :=
  if m_CommitStartRevision m =? 0 then m_CommitRevision m else m_CommitStartRevision m.

Definition below (P : list Entry) (z : Z) : Prop := ∀ p, p ∈ P → z < Sequence p.

(** An entry of the stream: of the batch in progress, or older than it. *)
Definition entry_inv (s : lsys) (m : WalEntryMsg) : Prop :=
  is_entry m → m_ID m ≤ ls_hi s ∧
    ((∃ p, p ∈ ls_batch s ∧ m = EntryToMsg p) ∨ below (ls_batch s) (m_ID m)).

Definition commit_inv (s : lsys) (T : list WalEntryMsg) (k : WalEntryMsg) : Prop :=
  m_Commit k = true →
  m_CommitRevision k ≤ ls_hi s ∧ below (ls_batch s) (m_CommitRevision k) ∧
  ∀ m, m ∈ T → is_entry m → startOf k ≤ m_ID m ≤ m_CommitRevision k →
    ∃ e, e ∈ ls_committed s ∧ m = EntryToMsg e.

Definition seq_lt (a b : Entry) : Prop := Sequence a < Sequence b.

Record linv (s : lsys) : Prop := {
  li_sorted : StronglySorted seq_lt (ls_committed s ++ ls_batch s);
  li_hi : ∀ e, e ∈ ls_committed s ++ ls_batch s → Sequence e ≤ ls_hi s;
  li_buf : ∀ e, e ∈ eb_entries (sv_buf (ls_srv s)) → e ∈ ls_committed s;
  li_pend : ∀ e, e ∈ sv_pending (ls_srv s) →
    Sequence e ≤ ls_hi s ∧ (e ∈ ls_batch s ∨ below (ls_batch s) (Sequence e));
  li_entry : ∀ c m, m ∈ stream s c → entry_inv s m;
  li_commit : ∀ c k, k ∈ stream s c → commit_inv s (stream s c) k;
  li_msg : ∀ c m, m ∈ stream s c → is_entry m → m_ID m = Sequence (MsgToEntry m) }.

Lemma Sequence_MsgToEntry e : Sequence (MsgToEntry (EntryToMsg e)) = Sequence e.
Proof. apply (Sequence_with_sequence e). Qed.

(** ** What the server operations do to the channels *)

Lemma offer1_queue msg (chans : gmap nat chan) kick idc chans' kick' c ch' :
  offer1 msg (chans, kick) idc = (chans', kick') → chans' !! c = Some ch' →
  ∃ ch, chans !! c = Some ch ∧ ∀ m, m ∈ ch_msgs ch' → m ∈ ch_msgs ch ∨ m = msg.
Proof.
  unfold offer1. destruct (chans !! idc.2) as [ch|] eqn:E.
  - case_match; intros [= <- <-] Hc; [by exists ch'; split; [|left]|].
    destruct (decide (idc.2 = c)) as [<-|Hne].
    + rewrite lookup_insert_eq in Hc. injection Hc as <-. exists ch. split; [done|].
      cbn. intros m [Hm|Hm%list_elem_of_singleton]%elem_of_app; [by left|by right].
    + rewrite lookup_insert_ne in Hc by done. by exists ch'; split; [|left].
  - intros [= <- <-] Hc. by exists ch'; split; [|left].
Qed.

Lemma offers_queue msg l : ∀ (chans : gmap nat chan) kick chans' kick' c ch',
  fold_left (offer1 msg) l (chans, kick) = (chans', kick') → chans' !! c = Some ch' →
  ∃ ch, chans !! c = Some ch ∧ ∀ m, m ∈ ch_msgs ch' → m ∈ ch_msgs ch ∨ m = msg.
Proof.
  induction l as [|idc l IH]; intros chans kick chans' kick' c ch'; cbn [fold_left].
  { intros [= <- <-] Hc. by exists ch'; split; [|left]. }
  destruct (offer1 msg (chans, kick) idc) as [chans1 kick1] eqn:E1. intros Hf Hc.
  destruct (IH _ _ _ _ _ _ Hf Hc) as (ch1 & Hc1 & Hm1).
  destruct (offer1_queue _ _ _ _ _ _ _ _ E1 Hc1) as (ch & Hch & Hm). exists ch. split; [done|].
  intros m [Hm'|Hm']%Hm1; [by apply Hm|by right].
Qed.

(** Disconnecting a follower leaves the contents of the channels. *)
Definition same_but_chans (s s' : Server) : Prop :=
  sv_buf s' = sv_buf s ∧ sv_pending s' = sv_pending s.

Lemma kicks_queue l : ∀ s c, queued (fold_left kick1 l s) c = queued s c ∧ same_but_chans s (fold_left kick1 l s).
Proof.
  induction l as [|id l IH]; intros s c; [done|]. cbn [fold_left].
  destruct (IH (kick1 s id) c) as [-> [H1 H2]]. unfold same_but_chans. rewrite H1, H2.
  unfold kick1. destruct (sv_followers s !! id) as [c1|]; [|done]. split; [|done].
  unfold queued. cbn. destruct (decide (c1 = c)) as [<-|Hne].
  - rewrite lookup_alter_eq. by destruct (sv_chans s !! c1).
  - by rewrite lookup_alter_ne.
Qed.

Lemma offer_queue msg s c m :
  m ∈ queued (offer msg s) c → m ∈ queued s c ∨ m = msg.
Proof.
  unfold offer. destruct (fold_left (offer1 msg) _ _) as [chans kick] eqn:E.
  rewrite (proj1 (kicks_queue _ _ c)). unfold queued. cbn.
  destruct (chans !! c) as [ch'|] eqn:Ec; [|by intros ?%not_elem_of_nil].
  destruct (offers_queue _ _ _ _ _ _ _ _ E Ec) as (ch & -> & Hm). apply Hm.
Qed.

Lemma offer_same msg s : same_but_chans s (offer msg s).
Proof.
  unfold offer. destruct (fold_left (offer1 msg) _ _) as [chans kick].
  destruct (kicks_queue kick (set_chans (sv_followers s) chans s) 0%nat) as [_ H]. done.
Qed.

(** ** Preservation *)

(** Streams that lose or keep messages. *)
Lemma linv_shrink s s' :
  linv s → ls_committed s' = ls_committed s → ls_hi s' = ls_hi s →
  ls_batch s' = ls_batch s →
  sv_buf (ls_srv s') = sv_buf (ls_srv s) → sv_pending (ls_srv s') = sv_pending (ls_srv s) →
  (∀ c m, m ∈ stream s' c → m ∈ stream s c ∨ m = shutdownMsg) → linv s'.
Proof.
  intros [H1 H2 H3 H4 H5 H6 H7] Hc Hh Hb Hbuf Hp Hs.
  split; rewrite ?Hc, ?Hh, ?Hb, ?Hbuf, ?Hp; try done.
  - intros c m Hm He. destruct (Hs c m Hm) as [Hm'| ->]; [|by destruct He].
    destruct (H5 c m Hm' He). unfold entry_inv. by rewrite Hh, Hb.
  - intros c k Hk Hkc. destruct (Hs c k Hk) as [Hk'| ->]; [|done].
    destruct (H6 c k Hk' Hkc) as (Ha & Hb' & Hr). unfold commit_inv. rewrite Hh, Hb, Hc.
    split; [done|]. split; [done|]. intros m Hm He Hrange.
    destruct (Hs c m Hm) as [Hm'| ->]; [|by destruct He]. by apply Hr.
  - intros c m Hm He. destruct (Hs c m Hm) as [Hm'| ->]; [|by destruct He]. by apply (H7 c).
Qed.

Lemma sorted_snoc_lt (l : list Entry) e hi :
  StronglySorted seq_lt l → (∀ x, x ∈ l → Sequence x ≤ hi) → hi < Sequence e → StronglySorted seq_lt (l ++ [e]).
Proof. intros Hs Hl He. apply StronglySorted_snoc; [done|]. intros y Hy. unfold seq_lt. specialize (Hl y Hy). lia. Qed.

Lemma linv_broadcast s e :
  linv s → ls_hi s < Sequence e →
  linv (mkSys (Broadcast e (ls_srv s)) (ls_committed s) (ls_batch s ++ [e]) (Sequence e) (ls_out s)).
Proof.
  intros [H1 H2 H3 H4 H5 H6 H7] He. set (s' := mkSys _ _ _ _ _).
  destruct (offer_same (EntryToMsg e) (set_buf (sv_buf (ls_srv s)) (sv_pending (ls_srv s) ++ [e])
    (sv_maxBroadcastRev (ls_srv s)) (ls_srv s))) as [Hbuf Hpend].
  assert (∀ c m, m ∈ stream s' c → m ∈ stream s c ∨ m = EntryToMsg e) as Hst.
  { intros c m [Hm|Hm]%elem_of_app; [left; apply elem_of_app; by left|].
    apply offer_queue in Hm as [Hm|Hm]; [|by right]. left. apply elem_of_app. by right. }
  split; cbn [ls_committed ls_batch ls_hi ls_srv s'].
  - rewrite app_assoc. by apply (sorted_snoc_lt _ e (ls_hi s)).
  - intros x. rewrite app_assoc. intros [Hx| ->%list_elem_of_singleton]%elem_of_app; [|done].
    specialize (H2 x Hx). lia.
  - unfold Broadcast. by rewrite Hbuf.
  - unfold Broadcast. rewrite Hpend. cbn. intros x [Hx| ->%list_elem_of_singleton]%elem_of_app.
    + destruct (H4 x Hx) as [Hle Hb]. split; [lia|]. destruct Hb as [Hb|Hb]; [left; apply elem_of_app; by left|].
      right. intros p [Hp| ->%list_elem_of_singleton]%elem_of_app; [by apply Hb|lia].
    + split; [done|]. left. apply elem_of_app. right. by left.
  - intros c m [Hm| ->]%Hst Hent.
    + destruct (H5 c m Hm Hent) as [Hle [(p & Hp & ->)|Hb]]; cbn in *.
      * split; [lia|]. left. exists p. split; [apply elem_of_app; by left|done].
      * split; [lia|]. right. intros p [Hp| ->%list_elem_of_singleton]%elem_of_app; [by apply Hb|lia].
    + cbn. split; [done|]. left. exists e. split; [apply elem_of_app; right; by left|done].
  - intros c k [Hk| ->]%Hst Hkc; [|done]. destruct (H6 c k Hk Hkc) as (Ha & Hb & Hr). cbn.
    split; [lia|]. split.
    + intros p [Hp| ->%list_elem_of_singleton]%elem_of_app; [by apply Hb|lia].
    + intros m [Hm| ->]%Hst Hent Hrange; [by apply Hr|]. cbn in Hrange. lia.
  - intros c m [Hm| ->]%Hst Hent; [by apply (H7 c)|]. by rewrite Sequence_MsgToEntry.
Qed.

Lemma commit1_spec startRev rev l : ∀ buf keep mx buf' keep' mx',
  fold_left (commit1 startRev rev) l (buf, keep, mx) = (buf', keep', mx') →
  (∀ e, e ∈ eb_entries buf' → e ∈ eb_entries buf ∨ (e ∈ l ∧ startRev ≤ Sequence e ≤ rev)) ∧
  (∀ e, e ∈ keep' → e ∈ keep ∨ (e ∈ l ∧ rev < Sequence e ∧ startRev ≤ Sequence e)).
Proof.
  induction l as [|x l IH]; intros buf keep mx buf' keep' mx'; cbn [fold_left].
  { intros [= <- <- <-]. split; by left. }
  unfold commit1 at 2. destruct (Z.ltb_spec (Sequence x) startRev).
  { intros [Hb Hk]%IH. split; intros e He;
      [destruct (Hb e He) as [?|[? ?]]|destruct (Hk e He) as [?|[? ?]]]; [by left|right; split; [by right|done]..|by left|right; split; [by right|done]]. }
  destruct (Z.leb_spec (Sequence x) rev).
  - intros [Hb Hk]%IH. split; intros e He.
    + destruct (Hb e He) as [Hpush|[? ?]]; [|right; split; [by right|done]].
      unfold push in Hpush. cbn in Hpush.
      assert (e ∈ eb_entries buf ++ [x]) as Hin by (case_match; [by eapply elem_of_drop_in|done]).
      apply elem_of_app in Hin as [?| ->%list_elem_of_singleton]; [by left|]. right. split; [by left|lia].
    + destruct (Hk e He) as [?|[? ?]]; [by left|]. right. split; [by right|done].
  - intros [Hb Hk]%IH. split; intros e He.
    + destruct (Hb e He) as [?|[? ?]]; [by left|]. right. split; [by right|done].
    + destruct (Hk e He) as [Hin|[? ?]]; [|right; split; [by right|done]].
      apply elem_of_app in Hin as [?| ->%list_elem_of_singleton]; [by left|]. right. split; [by left|lia].
Qed.

(** A strictly sorted list lies between its ends. *)
Lemma sorted_ends e0 P x :
  StronglySorted seq_lt (e0 :: P) → x ∈ e0 :: P → Sequence e0 ≤ Sequence x ≤ Sequence (List.last (e0 :: P) e0).
Proof.
  intros Hs. assert (∀ l y d, StronglySorted seq_lt (y :: l) → ∀ x, x ∈ y :: l →
    Sequence y ≤ Sequence x ≤ Sequence (List.last (y :: l) d)) as Hgen; [|by apply Hgen].
  clear. intros l. induction l as [|z l IH]; intros y d Hs x.
  - intros ->%list_elem_of_singleton. cbn. lia.
  - inversion_clear Hs as [|? ? Hs' Hf]. rewrite Forall_forall in Hf.
    assert (Sequence y < Sequence z) as Hyz by (apply (Hf z); by left).
    change (List.last (y :: z :: l) d) with (List.last (z :: l) d).
    intros [->|Hx]%elem_of_cons; [pose proof (IH z d Hs' z ltac:(by left)); lia|].
    pose proof (IH z d Hs' x Hx). lia.
Qed.

Lemma linv_commit s e0 P :
  linv s → ls_batch s = e0 :: P →
  linv (mkSys (BroadcastCommit (Sequence e0) (Sequence (List.last (e0 :: P) e0)) (ls_srv s))
          (ls_committed s ++ e0 :: P) [] (ls_hi s) (ls_out s)).
Proof.
  intros [H1 H2 H3 H4 H5 H6 H7] HP. set (sq := Sequence e0). set (r := Sequence (List.last (e0 :: P) e0)).
  rewrite HP in *. set (s' := mkSys _ _ _ _ _).
  assert (∀ x, x ∈ e0 :: P → sq ≤ Sequence x ≤ r) as Hends.
  { intros x Hx. apply sorted_ends; [|done]. by apply StronglySorted_app_1_r in H1. }
  assert (r ≤ ls_hi s) as Hr.
  { destruct (Hends e0 ltac:(by left)). apply H2, elem_of_app. right.
    destruct (exists_last (l := e0 :: P)) as (l' & z & Hz); [done|].
    rewrite Hz, List.last_last. apply elem_of_app. right. by left. }
  destruct (fold_left (commit1 sq r) (sv_pending (ls_srv s)) (sv_buf (ls_srv s), [], sv_maxBroadcastRev (ls_srv s)))
    as [[buf keep] mx] eqn:Ec.
  pose proof (commit1_spec _ _ _ _ _ _ _ _ _ Ec) as [Hbuf Hkeep].
  assert (ls_srv s' = offer (commitMsg sq r) (set_buf buf keep mx (ls_srv s))) as Hsrv.
  { cbn. unfold BroadcastCommit. fold sq r. by rewrite Ec. }
  destruct (offer_same (commitMsg sq r) (set_buf buf keep mx (ls_srv s))) as [Hb1 Hp1].
  assert (∀ c m, m ∈ stream s' c → m ∈ stream s c ∨ m = commitMsg sq r) as Hst.
  { intros c m [Hm|Hm]%elem_of_app; [left; apply elem_of_app; by left|]. rewrite Hsrv in Hm.
    apply offer_queue in Hm as [Hm|Hm]; [|by right]. left. apply elem_of_app. by right. }
  split; rewrite ?Hsrv, ?Hb1, ?Hp1; cbn [ls_committed ls_batch ls_hi s' set_buf sv_buf sv_pending]; rewrite ?app_nil_r.
  - done.
  - done.
  - intros e He. apply elem_of_app. destruct (Hbuf e He) as [Hin|[Hin Hrange]]; [left; by apply H3|].
    right. destruct (H4 e Hin) as [_ [?|Hb]]; [done|]. specialize (Hb e0 ltac:(by left)). lia.
  - intros e He. destruct (Hkeep e He) as [?%not_elem_of_nil|(Hin & Hgt & _)]; [done|]. exfalso.
    destruct (H4 e Hin) as [_ [Hb|Hb]]; [apply Hends in Hb; lia|]. specialize (Hb e0 ltac:(by left)).
    destruct (Hends e0 ltac:(by left)). lia.
  - intros c m [Hm| ->]%Hst Hent; [|by destruct Hent]. destruct (H5 c m Hm Hent) as [Hle _].
    split; [done|]. right. by intros p ?%not_elem_of_nil.
  - intros c k [Hk| ->]%Hst Hkc.
    + destruct (H6 c k Hk Hkc) as (Ha & Hb & Hrec). split; [done|]. split; [by intros p ?%not_elem_of_nil|].
      intros m [Hm| ->]%Hst Hent Hrange; [|by destruct Hent]. destruct (Hrec m Hm Hent Hrange) as (e & He & ->).
      exists e. split; [apply elem_of_app; by left|done].
    + split; [done|]. split; [by intros p ?%not_elem_of_nil|].
      intros m [Hm| ->]%Hst Hent Hrange; [|by destruct Hent].
      assert (sq ≤ m_ID m ≤ r) as Hrange'.
      { unfold startOf in Hrange. cbn in Hrange. destruct (Z.eqb_spec sq 0); [|done].
        destruct (Hends e0 ltac:(by left)). lia. }
      destruct (H5 c m Hm Hent) as [_ [(p & Hp & ->)|Hb]].
      * exists p. rewrite HP in Hp. split; [apply elem_of_app; by right|done].
      * rewrite HP in Hb. specialize (Hb e0 ltac:(by left)). fold sq in Hb. lia.
  - intros c m [Hm| ->]%Hst Hent; [by apply (H7 c)|]. by destruct Hent.
Qed.

Lemma since_loop_sub from e l : e ∈ since_loop from l → e ∈ l.
Proof. induction l as [|x l IH]; cbn; [done|]. case_match; [done|]. intros Hx. right. by apply IH. Qed.

Lemma since_sub b from snap ok e : since b from = (snap, ok) → e ∈ snap → e ∈ eb_entries b.
Proof.
  unfold since. destruct (eb_entries b) as [|e0 es]; [by intros [= <- <-] ?%not_elem_of_nil|].
  destruct (from <? Sequence e0); [by intros [= <- <-] ?%not_elem_of_nil|].
  intros [= <- <-]. apply (since_loop_sub from e (e0 :: es)).
Qed.

Lemma list_last_in {A} (l : list A) d : l ≠ [] → List.last l d ∈ l.
Proof.
  intros Hl. destruct (exists_last Hl) as (k & z & ->). rewrite List.last_last. apply elem_of_app. right. by left.
Qed.

Lemma linv_open s req se snap srv' :
  linv s → followOpen req (ls_srv s) = (Ok (se, snap), srv') →
  linv (mkSys srv' (ls_committed s) (ls_batch s) (ls_hi s) (<[se_ch se := snapshotMsgs snap]> (ls_out s))).
Proof.
  intros [H1 H2 H3 H4 H5 H6 H7] Ho. unfold followOpen in Ho.
  destruct (_ && _); [done|]. destruct (since _ _) as [snap0 ok] eqn:Es. destruct (negb ok); [done|].
  injection Ho as <- <- <-. set (c0 := fresh (dom (sv_chans (ls_srv s)))). set (s' := mkSys _ _ _ _ _).
  assert (∀ e, e ∈ snap0 → e ∈ ls_committed s) as Hsnap by (intros e He; by apply H3, (since_sub _ _ _ _ _ Es)).
  assert (∀ e, e ∈ snap0 → Sequence e ≤ ls_hi s ∧ below (ls_batch s) (Sequence e)) as Hlow.
  { intros e He%Hsnap. split; [apply H2, elem_of_app; by left|]. intros p Hp.
    by apply (StronglySorted_app_1_elem_of seq_lt _ _ e p H1). }
  assert (∀ c, stream s' c = if decide (c = c0) then snapshotMsgs snap0 else stream s c) as Hst.
  { intros c. unfold stream, sent, queued. cbn. destruct (decide (c = c0)) as [->|Hne].
    - rewrite !lookup_insert_eq. cbn. by rewrite app_nil_r.
    - by rewrite !lookup_insert_ne by done. }
  assert (∀ m, m ∈ snapshotMsgs snap0 → (∃ e, e ∈ snap0 ∧ m = EntryToMsg e) ∨
    (∃ a b, a ∈ snap0 ∧ b ∈ snap0 ∧ m = commitMsg (Sequence a) (Sequence b))) as Hmsg.
  { intros m [Hm|Hm]%elem_of_app.
    - left. apply (list_elem_of_fmap_1 EntryToMsg) in Hm as (e & -> & He). by exists e.
    - right. destruct snap0 as [|e0 sn]; [by apply not_elem_of_nil in Hm|].
      apply list_elem_of_singleton in Hm as ->. exists e0, (List.last (e0 :: sn) e0).
      split; [by left|]. split; [by apply list_last_in|done]. }
  split; cbn [ls_committed ls_batch ls_hi ls_srv s' set_chans sv_buf sv_pending]; try done.
  - intros c m. rewrite Hst. destruct (decide (c = c0)) as [->|_]; [|apply H5].
    intros [(e & He & ->)|(a & b & _ & _ & ->)]%Hmsg Hent; [|by destruct Hent].
    destruct (Hlow e He). split; [done|]. by right.
  - intros c k. rewrite Hst. destruct (decide (c = c0)) as [->|_]; [|apply H6].
    intros [(e & He & ->)|(a & b & Ha & Hb & ->)]%Hmsg Hkc; [done|].
    destruct (Hlow b Hb). split; [done|]. split; [done|]. intros m Hm Hent _.
    apply Hmsg in Hm as [(e & He & ->)|(? & ? & _ & _ & ->)]; [|by destruct Hent]. exists e. split; [by apply Hsnap|done].
  - intros c m. rewrite Hst. destruct (decide (c = c0)) as [->|_]; [|apply H7].
    intros [(e & He & ->)|(a & b & _ & _ & ->)]%Hmsg Hent; [|by destruct Hent]. by rewrite Sequence_MsgToEntry.
Qed.

Lemma linv_stream s se se' ms srv' :
  linv s → followStep se (ls_srv s) = Some (Ok (se', ms), srv') →
  linv (mkSys srv' (ls_committed s) (ls_batch s) (ls_hi s) (send (se_ch se) ms s)).
Proof.
  intros Hinv Hs. unfold followStep in Hs.
  destruct (sv_chans (ls_srv s) !! se_ch se) as [ch|] eqn:Ec; [|done]. cbn in Hs.
  destruct (ch_msgs ch) as [|msg rest] eqn:Em; [by destruct (ch_closed ch)|].
  assert (srv' = set_chans (sv_followers (ls_srv s)) (<[se_ch se := mkChan rest (ch_closed ch)]> (sv_chans (ls_srv s)))
    (ls_srv s) ∧ ∀ m, m ∈ ms → m = msg) as [-> Hms].
  { destruct (m_Commit msg); [|destruct (_ <=? _)]; injection Hs as <- <- <-; (split; [done|]);
      intros m Hm; first [by apply list_elem_of_singleton in Hm|by apply not_elem_of_nil in Hm]. }
  apply (linv_shrink s); try done. intros c m Hm. left. revert Hm. unfold stream, sent, send, queued. cbn.
  destruct (decide (se_ch se = c)) as [<-|Hne].
  - rewrite !lookup_insert_eq, Ec, Em. cbn. rewrite !elem_of_app, elem_of_cons.
    intros [[Hm|Hm]|Hm]; [by left| |by right; right]. right; left. by apply Hms.
  - by rewrite !lookup_insert_ne by done.
Qed.

Lemma linv_event s ev :
  linv s → quiet ev →
  linv (mkSys (peerStep ev (ls_srv s)) (ls_committed s) (ls_batch s) (ls_hi s) (ls_out s)).
Proof.
  intros Hinv Hq. apply (linv_shrink s); try done.
  - destruct ev; cbn; try done; unfold recvAck, followDefer; repeat case_match; done.
  - destruct ev; cbn; try done; unfold recvAck, followDefer; repeat case_match; done.
  - intros c m Hm. left. revert Hm. unfold stream, queued.
    assert (sv_chans (peerStep ev (ls_srv s)) = sv_chans (ls_srv s)) as Heq.
    { destruct ev; cbn; try done; unfold recvAck, followDefer; repeat case_match; done. }
    cbn. by rewrite Heq.
Qed.

Lemma linv_step s s' : linv s → lstep s s' → linv s'.
Proof.
  intros Hinv Hstep. destruct Hstep as [s e He|s e0 P HP|s|s req se snap srv' Ho|s se se' ms srv' Hs|s se ms Hs|s ev Hq].
  - by apply linv_broadcast.
  - by apply linv_commit.
  - destruct Hinv as [H1 H2 H3 H4 H5 H6 H7]. split; cbn; rewrite ?app_nil_r; try done.
    + by apply StronglySorted_app_1_l in H1.
    + intros e He. apply H2, elem_of_app. by left.
    + intros e He. destruct (H4 e He) as [? _]. split; [done|]. right. by intros p ?%not_elem_of_nil.
    + intros c m Hm Hent. destruct (H5 c m Hm Hent) as [? _]. split; [done|]. right. by intros p ?%not_elem_of_nil.
    + intros c k Hk Hkc. destruct (H6 c k Hk Hkc) as (? & _ & ?). split; [done|]. split; [by intros p ?%not_elem_of_nil|done].
  - by apply (linv_open s req).
  - by apply (linv_stream s se se').
  - apply (linv_shrink s); try done. intros c m. unfold followShutdown in Hs.
    destruct (sv_shutdownC (ls_srv s)); [|done]. injection Hs as <-.
    unfold stream, sent, send. cbn. destruct (decide (se_ch se = c)) as [<-|Hne].
    + rewrite lookup_insert_eq. cbn. rewrite !elem_of_app, list_elem_of_singleton.
      intros [[Hm|Hm]|Hm]; [by left; left|by right|by left; right].
    + rewrite lookup_insert_ne by done. by left.
  - by apply linv_event.
Qed.

Lemma linv_init cap hi startRev : linv (lsys_init cap hi startRev).
Proof.
  split; cbn; try (by intros ? ?%not_elem_of_nil).
  - constructor.
  - intros c m. unfold stream, sent, queued. cbn. rewrite !lookup_empty. by intros ?%not_elem_of_nil.
  - intros c m. unfold stream, sent, queued. cbn. rewrite !lookup_empty. by intros ?%not_elem_of_nil.
  - intros c m. unfold stream, sent, queued. cbn. rewrite !lookup_empty. by intros ?%not_elem_of_nil.
Qed.

Lemma linv_reachable cap hi startRev s : rtc lstep (lsys_init cap hi startRev) s → linv s.
Proof.
  intros Hr. remember (lsys_init cap hi startRev) as s0 eqn:E0.
  assert (linv s0) as H0 by (rewrite E0; apply linv_init). clear E0.
  induction Hr as [|s0 s1 s2 H1 _ IH]; [done|]. apply IH. by apply (linv_step s0).
Qed.
