(* ===== verification/ReplicationProps.v ===== *)
(** * Followers hold a prefix of the leader's history

    A proof rule for one connection of a follower, its instance for the
    callbacks of the follow loop, and the properties of replication. *)

From S2P Require Import Prelude Bytes WalEntry Os Wal Pebble StoreKeys Store StoreSpec StoreInv StoreApply StoreRead StoreRefine StoreProps Peer Node NodeSpec NodeInv Server Follower Replication.

(** ** A rule for one connection *)

Lemma dropBelow_sub z l e : e ∈ dropBelow z l → e ∈ l.
Proof. induction l as [|x l IH]; cbn; [done|]. case_match; [|done]. intros He. right. by apply IH. Qed.

Lemma cutAt_spec z l : ∀ batch rest,
  cutAt z l = (batch, rest) → l = batch ++ rest ∧ ∀ e, e ∈ batch → Sequence e ≤ z.
Proof.
  induction l as [|x l IH]; intros batch rest; cbn.
  { intros [= <- <-]. split; [done|]. by intros e ?%not_elem_of_nil. }
  destruct (Z.leb_spec (Sequence x) z).
  - destruct (cutAt z l) as [b r]. intros [= <- <-]. destruct (IH b r eq_refl) as [-> Hb]. split; [done|].
    intros e [->|He]%elem_of_cons; [done|by apply Hb].
  - intros [= <- <-]. split; [done|]. by intros e ?%not_elem_of_nil.
Qed.

Lemma contiguous_le es : ∀ start hi,
  contiguous start es = true → (∀ e, e ∈ es → Sequence e ≤ hi) → hi < max_int64 →
  ∀ e, e ∈ es → start ≤ Sequence e.
Proof.
  induction es as [|x es IH]; intros start hi Hc Hle Hhi e; [by intros ?%not_elem_of_nil|].
  cbn in Hc. apply andb_true_iff in Hc as [Hx%Z.eqb_eq Hc].
  assert (Sequence x ≤ hi) as Hx1 by (apply Hle; by left).
  assert (start ≤ i64 (start + 1)) as Hnext.
  { pose proof (i64_range (start + 1)) as Hr. destruct (decide (is_i64 (start + 1))) as [Hi|Hi].
    - rewrite i64_id by done. lia.
    - unfold is_i64, max_int64 in *. lia. }
  intros [->|He]%elem_of_cons; [lia|].
  assert (i64 (start + 1) ≤ Sequence e); [|lia].
  apply (IH _ hi); [done| |lia|done]. intros y Hy. apply Hle. by right.
Qed.

Section Rule.
Context {F : Type} (walFn applyFn : list Entry → ST F ()) (sendAck : Z → ST F ()).
Context (Inv Fin : F → Prop) (Mid : list Entry → F → Prop) (allowed : Entry → Prop).
Context (T : list WalEntryMsg) (hi : Z).

(** What the stream guarantees. *)
Hypothesis Hmsg : ∀ m, m ∈ T → is_entry m → m_ID m = Sequence (MsgToEntry m).
Hypothesis Hhi : ∀ k, k ∈ T → m_Commit k = true → m_CommitRevision k ≤ hi.
Hypothesis Hmax : hi < max_int64.
Hypothesis Hcom : ∀ k m, k ∈ T → m ∈ T → m_Commit k = true → is_entry m →
  startOf k ≤ m_ID m ≤ m_CommitRevision k → allowed (MsgToEntry m).

(** What the callbacks guarantee. *)
Hypothesis Hwal : ∀ batch f r f', batch ≠ [] → Forall allowed batch → Inv f → walFn batch f = (r, f') →
  match r with Ok _ => Mid batch f' | Err _ => Inv f' end.
Hypothesis Hack : ∀ batch z f r f', Mid batch f → sendAck z f = (r, f') → Mid batch f'.
Hypothesis Happly : ∀ batch f r f', Mid batch f → applyFn batch f = (r, f') →
  match r with Ok _ => Inv f' | Err _ => Fin f' end.
Hypothesis HInv : ∀ f, Inv f → Fin f.
Hypothesis HMid : ∀ batch f, Mid batch f → Fin f.

Definition staged_ok (staged : list Entry) : Prop :=
  ∀ e, e ∈ staged → ∃ m, m ∈ T ∧ is_entry m ∧ e = MsgToEntry m.

Lemma commitBatchMsg_rule from start batch rest f r f' :
  batch ≠ [] → Forall allowed batch → staged_ok rest → Inv f →
  commitBatchMsg walFn applyFn sendAck from start batch rest f = (r, f') →
  match r with
  | Ok (Continue _ staged') => Inv f' ∧ staged_ok staged'
  | Ok (Return _ _) => Fin f'
  | Err _ => False
  end.
Proof using Happly Hwal Hack HInv HMid.
  intros Hne Hall Hrest Hi. unfold commitBatchMsg, mbind, ST_bind, try, mret, ST_ret.
  destruct (walFn batch f) as [[[]|e] f1] eqn:E1; pose proof (Hwal _ _ _ _ Hne Hall Hi E1) as H1; cbn in H1.
  2:{ intros [= <- <-]. by apply HInv. }
  destruct (sendAck _ f1) as [[[]|e] f2] eqn:E2; pose proof (Hack _ _ _ _ _ H1 E2) as H2.
  2:{ intros [= <- <-]. by apply (HMid batch). }
  destruct (applyFn batch f2) as [[[]|e] f3] eqn:E3; pose proof (Happly _ _ _ _ H2 E3) as H3; cbn in H3.
  2:{ by intros [= <- <-]. }
  by intros [= <- <-].
Qed.

Lemma followMsg_rule from staged m f r f' :
  m ∈ T → m_Shutdown m = false → staged_ok staged → Inv f →
  followMsg walFn applyFn sendAck from staged m f = (r, f') →
  match r with
  | Ok (Continue _ staged') => Inv f' ∧ staged_ok staged'
  | Ok (Return _ _) => Fin f'
  | Err _ => False
  end.
Proof using All.
  intros Hm Hsh Hst Hi. unfold followMsg. destruct (m_Commit m) eqn:Ec; cbn [negb].
  2:{ intros [= <- <-]. split; [done|]. intros e [He| ->%list_elem_of_singleton]%elem_of_app; [by apply Hst|].
      by exists m. }
  fold (startOf m). destruct (_ <? from); [by intros [= <- <-]|].
  destruct (cutAt (m_CommitRevision m) (dropBelow (startOf m) staged)) as [batch rest] eqn:Ecut.
  apply cutAt_spec in Ecut as [Heq Hle].
  assert (staged_ok (batch ++ rest)) as Hst'.
  { intros e He. rewrite <- Heq in He. by apply Hst, (dropBelow_sub (startOf m)). }
  destruct batch as [|e0 b] eqn:Eb; [intros [= <- <-]; by apply HInv|]. rewrite <- Eb in *.
  destruct (_ || _); [intros [= <- <-]; by apply HInv|].
  destruct (contiguous (startOf m) batch) eqn:Econ; cbn [negb]; [|intros [= <- <-]; by apply HInv].
  pose proof (Hhi m Hm Ec) as Hrev.
  apply commitBatchMsg_rule; [by rewrite Eb| | |done].
  - apply Forall_forall. intros e He. destruct (Hst' e) as (x & Hx & Hent & ->); [apply elem_of_app; by left|].
    apply (Hcom m x); try done. rewrite (Hmsg x Hx Hent). split; [|by apply Hle].
    apply (contiguous_le batch _ (m_CommitRevision m)); try done. lia.
  - intros e He. apply Hst', elem_of_app. by right.
Qed.

Lemma followMsgs_rule msgs recvErr : ∀ from staged f r f',
  (∀ m, m ∈ msgs → m ∈ T) → staged_ok staged → Inv f →
  followMsgs walFn applyFn sendAck from staged msgs recvErr f = (r, f') → is_ok r ∧ Fin f'.
Proof using All.
  induction msgs as [|m msgs IH]; intros from staged f r f' Hin Hst Hi; cbn [followMsgs].
  { intros [= <- <-]. split; [done|]. by apply HInv. }
  destruct (m_Shutdown m) eqn:Esh; [intros [= <- <-]; split; [done|by apply HInv]|].
  unfold mbind, ST_bind. destruct (followMsg walFn applyFn sendAck from staged m f) as [r1 f1] eqn:E1.
  apply followMsg_rule in E1; [|by apply Hin; left|done..].
  destruct r1 as [[from' staged'|z e]|e]; [|by intros [= <- <-]|done].
  destruct E1 as [Hi' Hst'']. apply IH; [|done..]. intros x Hx. apply Hin. by right.
Qed.
End Rule.

(** ** Batches of the stream are runs of the log *)

Lemma batch_log_with_sequence es : batch_log (map with_sequence es) = batch_log es.
Proof.
  induction es as [|e es IH]; [done|].
  change (entry_log (with_sequence e) ++ batch_log (map with_sequence es) = entry_log e ++ batch_log es).
  by rewrite IH.
Qed.

Lemma batch_ok_with_sequence es : ∀ rev seq c,
  batch_ok rev seq c (map with_sequence es) ↔ batch_ok rev seq c es.
Proof.
  induction es as [|e es IH]; intros rev seq c; [done|]. cbn [map batch_ok].
  rewrite Sequence_with_sequence. change (e_Op (with_sequence e)) with (e_Op e).
  change (e_PrevRevision (with_sequence e)) with (e_PrevRevision e).
  change (e_Revision (with_sequence e)) with (e_Revision e).
  change (entry_ok (with_sequence e)) with (entry_ok e). destruct (e_Op e =? OpCompact); by rewrite IH.
Qed.

Lemma batch_ok_seq es : ∀ rev seq c, batch_ok rev seq c es → StronglySorted seq_lt es ∧ ∀ e, e ∈ es → seq < Sequence e.
Proof.
  induction es as [|x es IH]; intros rev seq c Hb.
  { split; [constructor|]. by intros e ?%not_elem_of_nil. }
  destruct Hb as (Hs & _ & Hb).
  assert (∃ r c', batch_ok r (Sequence x) c' es) as (r & c' & Hb').
  { destruct (e_Op x =? OpCompact); [destruct Hb as (_ & _ & Hb)|destruct Hb as (_ & _ & _ & Hb)]; eauto. }
  apply IH in Hb' as [Hso Hgt]. split.
  - constructor; [done|]. apply Forall_forall. intros y Hy. by apply Hgt.
  - intros e [->|He]%elem_of_cons; [done|]. specialize (Hgt e He). lia.
Qed.

(** Entries of a strictly sorted log with consecutive sequences from the first
    possible one are its beginning. *)
Lemma contiguous_run D : ∀ start batch,
  StronglySorted seq_lt D → (∀ e, e ∈ D → start ≤ Sequence e < max_int64) → is_i64 start →
  contiguous start batch = true → (∀ b, b ∈ batch → ∃ x, x ∈ D ∧ b = with_sequence x) →
  batch = map with_sequence (take (length batch) D).
Proof.
  intros start batch. revert D start.
  induction batch as [|b batch IH]; intros D start Hs Hge Hi Hc Hin; [done|].
  cbn in Hc. apply andb_true_iff in Hc as [Hb%Z.eqb_eq Hc].
  destruct (Hin b ltac:(by left)) as (x & Hx & ->). rewrite Sequence_with_sequence in Hb.
  destruct D as [|d D']; [by apply not_elem_of_nil in Hx|]. inversion_clear Hs as [|? ? Hs' Hf].
  rewrite Forall_forall in Hf. pose proof (Hge d ltac:(by left)) as Hd. unfold max_int64, is_i64 in *.
  assert (x = d) as ->.
  { apply elem_of_cons in Hx as [->|Hx]; [done|]. specialize (Hf x Hx). unfold seq_lt in Hf. lia. }
  cbn [length take map]. f_equal. rewrite i64_id in Hc by (unfold is_i64; lia).
  apply (IH D' (start + 1)); [done| |lia|done|].
  - intros e He. specialize (Hf e He). specialize (Hge e ltac:(by right)). unfold seq_lt in Hf. lia.
  - intros e He. destruct (Hin e ltac:(by right)) as (y & Hy & ->). exists y. split; [|done].
    apply elem_of_cons in Hy as [->|Hy]; [|done]. exfalso.
    assert (start + 1 ≤ Sequence (with_sequence d)); [|rewrite Sequence_with_sequence in *; lia].
    apply (contiguous_le batch (start + 1) (2 ^ 63 - 2)); [done| |unfold max_int64; lia|done].
    intros z Hz. destruct (Hin z ltac:(by right)) as (w & Hw & ->). rewrite Sequence_with_sequence.
    specialize (Hge w Hw). lia.
Qed.

(** ** The follow loop *)

Section Follow.
Context {DB L : Type} `{PI : Pebble DB} `{POk : !PebbleOk DB} `{WI : WALWriter L}.
Local Notation Follower := (Follower DB L).
Implicit Types f : Follower.
Context (H0 : hist) (C : list Entry).

(** The history after the first [k] entries of the leader's log. *)
Definition upto (k : nat) : hist := H0 ++ batch_log (take k C).

(** The follower has applied the first [k] entries, and asks for the next. *)
Definition follows (k : nat) f : Prop :=
  Rel (fl_db f) (upto k) ∧ fl_fromRev f = st_lastSeq (fl_db f) + 1 ∧
  batch_ok (st_currentRev (fl_db f)) (st_lastSeq (fl_db f)) (st_compactRev (fl_db f)) (drop k C) ∧
  ∀ e, e ∈ take k C → Sequence e ≤ st_lastSeq (fl_db f).

Definition in_step f : Prop := ∃ k, follows k f.

(** The store of the follower refused a batch: its database holds the log up
    to that batch, or with it. *)
Definition apply_failed f : Prop :=
  ∃ k n s e, Rel s (upto k) ∧ Apply (map with_sequence (take n (drop k C))) s = (Err e, fl_db f) ∧
    (MI (db_map (st_db (fl_db f))) (upto k) (st_compactRev (fl_db f)) ∨
     MI (db_map (st_db (fl_db f))) (upto (k + n)) (st_compactRev (fl_db f))).

Definition allowed (e : Entry) : Prop := ∃ x, x ∈ C ∧ e = with_sequence x.

Definition mid (batch : list Entry) f : Prop :=
  ∃ k, follows k f ∧ batch ≠ [] ∧ batch = map with_sequence (take (length batch) (drop k C)).

Context (Hmax : ∀ e, e ∈ C → Sequence e < max_int64).

Lemma upto_app k n : upto (k + n) = upto k ++ batch_log (take n (drop k C)).
Proof using. unfold upto. by rewrite <- app_assoc, <- batch_log_app, take_take_drop. Qed.

Lemma walFn_step batch f r f' :
  batch ≠ [] → Forall allowed batch → in_step f → walFn batch f = (r, f') →
  match r with Ok _ => mid batch f' | Err _ => in_step f' end.
Proof using Hmax.
  intros Hne Hall (k & Hrel & Hfrom & Hok & Hlow). unfold walFn, mbind, ST_bind, get_st.
  destruct (contiguous (fl_fromRev f) batch) eqn:Ec.
  2:{ intros [= <- <-]. by exists k. }
  unfold zoom. destruct (wal_AppendBatch None batch (fl_wal f)) as [r1 l1]. intros [= <- <-].
  assert (follows k (set_fl_wal l1 f)) as Hf by done. destruct r1 as [[]|e]; [|by exists k].
  exists k. split; [done|]. split; [done|]. pose proof (re_bound _ _ Hrel) as [Hb0 Hb1].
  destruct (batch_ok_seq _ _ _ _ Hok) as [Hso Hgt].
  assert (is_i64 (fl_fromRev f)) as Hi64.
  { destruct batch as [|b bs]; [done|]. cbn in Ec. apply andb_true_iff in Ec as [Eb%Z.eqb_eq _].
    destruct (proj1 (Forall_forall _ _) Hall b ltac:(by left)) as (y & Hy & ->).
    rewrite Sequence_with_sequence in Eb. pose proof (Hmax y Hy). unfold is_i64, max_int64 in *. lia. }
  apply (contiguous_run (drop k C) (fl_fromRev f)); [done| | |done|].
  - intros e He. pose proof (Hgt e He). pose proof (Hmax e ltac:(by eapply elem_of_drop_in)). lia.
  - exact Hi64.
  - intros b Hb. destruct (proj1 (Forall_forall _ _) Hall b Hb) as (x & Hx & ->). exists x. split; [|done].
    rewrite <- (take_drop k C) in Hx. apply elem_of_app in Hx as [Hx|Hx]; [exfalso|done].
    specialize (Hlow x Hx).
    assert (fl_fromRev f ≤ Sequence (with_sequence x)); [|rewrite Sequence_with_sequence in *; lia].
    apply (contiguous_le batch _ (max_int64 - 1)); [done| |lia|done].
    intros e He. destruct (proj1 (Forall_forall _ _) Hall e He) as (y & Hy & ->). rewrite Sequence_with_sequence.
    pose proof (Hmax y Hy). lia.
Qed.

Lemma sendAck_step ok batch z f r f' : mid batch f → sendAck ok z f = (r, f') → mid batch f'.
Proof using. unfold sendAck. destruct ok; intros Hm [= <- <-]; exact Hm. Qed.

Lemma end_seq_last es : ∀ seq, es ≠ [] → end_seq seq es = Sequence (List.last es zeroEntry).
Proof using.
  induction es as [|e es IH]; intros seq Hne; [done|]. cbn [end_seq].
  destruct es as [|e' es']; [done|]. by rewrite IH.
Qed.

Lemma ends_with_sequence es : ∀ rev seq c,
  end_rev rev (map with_sequence es) = end_rev rev es ∧
  end_seq seq (map with_sequence es) = end_seq seq es ∧
  end_c c (map with_sequence es) = end_c c es.
Proof using.
  induction es as [|x es IH]; intros rev seq c; [done|]. cbn [map end_rev end_seq end_c].
  rewrite Sequence_with_sequence. apply IH.
Qed.

Lemma end_seq_ge es : ∀ rev seq c x, batch_ok rev seq c es → x ∈ es → Sequence x ≤ end_seq seq es.
Proof using.
  induction es as [|y es IH]; intros rev seq c x Hb; [by intros ?%not_elem_of_nil|].
  destruct Hb as (_ & _ & Hb). cbn [end_seq].
  assert (∃ rv cc, batch_ok rv (Sequence y) cc es) as (rv & cc & Hb').
  { destruct (e_Op y =? OpCompact); [destruct Hb as (_ & _ & Hb)|destruct Hb as (_ & _ & _ & Hb)]; eauto. }
  intros [->|Hx]%elem_of_cons; [by apply (batch_log_le _ _ _ _ Hb')|]. by apply (IH rv _ cc).
Qed.

Lemma applyFn_step batch f r f' :
  mid batch f → applyFn batch f = (r, f') →
  match r with Ok _ => in_step f' | Err _ => apply_failed f' end.
Proof using Hmax POk.
  intros (k & (Hrel & Hfrom & Hok & Hlow) & Hne & Heq). set (n := length batch) in *.
  unfold applyFn, mbind, ST_bind, zoom, modify.
  rewrite <- (take_drop n (drop k C)) in Hok. apply batch_ok_app in Hok as [Hok1 Hok2].
  apply batch_ok_with_sequence in Hok1. rewrite <- Heq in Hok1.
  destruct (Apply batch (fl_db f)) as [r1 s'] eqn:Ea.
  pose proof (Apply_refines _ _ _ _ _ Hrel Hok1 Ea) as Hrel'.
  pose proof (re_bound _ _ Hrel) as [Hb0 Hb1].
  destruct r1 as [[]|e]; intros [= <- <-]; cbn in Hrel'.
  - assert (batch_log batch = batch_log (take n (drop k C))) as Hlog by by rewrite Heq, batch_log_with_sequence.
    rewrite Hlog, <- upto_app in Hrel'.
    destruct (Apply_counters _ batch s' Hok1 ltac:(lia) ltac:(lia) Ea) as (Hc1 & Hc2 & Hc3).
    exists (k + n)%nat. unfold follows.
    cbn [set_fl_pos set_fl_db fl_db fl_fromRev fl_term fl_wal fl_acks]. split; [done|]. split; [|split].
    + rewrite Hc2, end_seq_last by done. unfold lastSequence.
      pose proof (list_last_in batch zeroEntry Hne) as Hl. rewrite Heq in Hl at 2.
      apply (list_elem_of_fmap_1 with_sequence) in Hl as (x & Hx & Hxin). rewrite Hx, Sequence_with_sequence.
      apply elem_of_take_in in Hxin. destruct (batch_ok_seq _ _ _ _ Hok1) as [_ Hgt].
      pose proof (Hgt _ (list_last_in batch zeroEntry Hne)) as Hpos. rewrite Hx, Sequence_with_sequence in Hpos.
      pose proof (Hmax x ltac:(by eapply elem_of_drop_in)).
      apply i64_id. unfold is_i64, max_int64 in *. lia.
    + rewrite Hc1, Hc2, Hc3, Heq, <- drop_drop. destruct (ends_with_sequence (take n (drop k C))
        (st_currentRev (fl_db f)) (st_lastSeq (fl_db f)) (st_compactRev (fl_db f))) as (-> & -> & ->). done.
    + intros e. rewrite <- (take_take_drop C k n). intros [He|He]%elem_of_app.
      * specialize (Hlow e He). pose proof (batch_log_le _ _ _ _ Hok1) as (_ & Hle & _). rewrite Hc2. lia.
      * rewrite Hc2. rewrite <- (Sequence_with_sequence e).
        apply (end_seq_ge batch (st_currentRev (fl_db f)) _ (st_compactRev (fl_db f))); [done|].
        rewrite Heq. by apply (list_elem_of_fmap_2 with_sequence).
  - exists k, n, (fl_db f), e. rewrite <- Heq. split; [done|]. split; [done|].
    destruct Hrel' as (_ & _ & _ & Hm). cbn. rewrite upto_app, <- (batch_log_with_sequence (take n _)), <- Heq. done.
Qed.
End Follow.

(** ** Catch-up *)

Lemma push_suffix (cap : nat) (C : list Entry) e b :
  eb_cap b = cap → eb_entries b = drop (length C - cap) C →
  eb_cap (push e b) = cap ∧ eb_entries (push e b) = drop (length (C ++ [e]) - cap) (C ++ [e]).
Proof.
  intros Hc Hb. unfold push. cbn [eb_cap eb_entries]. rewrite Hb, Hc. split; [done|].
  rewrite <- (drop_app_le C [e]) by lia. rewrite length_drop, length_app. cbn [length].
  destruct (Nat.ltb_spec cap (length C + 1 - (length C - cap))).
  - rewrite drop_drop. f_equal. lia.
  - f_equal. lia.
Qed.

Lemma commit1_suffix (cap : nat) startRev rev P : ∀ C b keep mx b' keep' mx',
  (∀ e, e ∈ P → startRev ≤ Sequence e ≤ rev) →
  eb_cap b = cap → eb_entries b = drop (length C - cap) C →
  fold_left (commit1 startRev rev) P (b, keep, mx) = (b', keep', mx') →
  eb_cap b' = cap ∧ eb_entries b' = drop (length (C ++ P) - cap) (C ++ P) ∧ keep' = keep.
Proof.
  induction P as [|e P IH]; intros C b keep mx b' keep' mx' HP Hc Hb; cbn [fold_left].
  { intros [= <- <- <-]. by rewrite app_nil_r. }
  destruct (HP e ltac:(by left)) as [H1 H2]. unfold commit1 at 2.
  rewrite (proj2 (Z.ltb_ge _ _)), (proj2 (Z.leb_le _ _)) by done. intros Hf.
  destruct (push_suffix cap C e b Hc Hb) as [Hc' Hb'].
  apply (IH (C ++ [e])) in Hf; [|intros x Hx; apply HP; by right|done..]. by rewrite <- app_assoc in Hf.
Qed.

Lemma commit1_skip startRev rev X acc :
  (∀ e, e ∈ X → Sequence e < startRev) → fold_left (commit1 startRev rev) X acc = acc.
Proof.
  revert acc. induction X as [|e X IH]; intros [[b k] m] HX; [done|]. cbn [fold_left commit1].
  rewrite (proj2 (Z.ltb_lt _ _)) by (apply HX; by left). apply IH. intros x Hx. apply HX. by right.
Qed.

(** The buffer holds the last entries of the log, and the entries waiting for
    their commit end with the batch in progress. *)
Definition buffered (cap : nat) (s : lsys) : Prop :=
  eb_cap (sv_buf (ls_srv s)) = cap ∧
  eb_entries (sv_buf (ls_srv s)) = drop (length (ls_committed s) - cap) (ls_committed s) ∧
  ∃ X, sv_pending (ls_srv s) = X ++ ls_batch s ∧ ∀ x, x ∈ X → below (ls_batch s) (Sequence x).

Lemma buffered_step cap s s' : linv s → buffered cap s → lstep s s' → buffered cap s'.
Proof.
  intros Hinv (Hc & Hb & X & Hp & HX) Hstep.
  destruct Hstep as [s e He|s e0 P HP|s|s req se snap srv' Ho|s se se' ms srv' Hs|s se ms Hs|s ev Hq].
  - destruct (offer_same (EntryToMsg e) (set_buf (sv_buf (ls_srv s)) (sv_pending (ls_srv s) ++ [e])
      (sv_maxBroadcastRev (ls_srv s)) (ls_srv s))) as [H1 H2].
    unfold buffered. cbn. unfold Broadcast. rewrite H1, H2. cbn. split; [done|]. split; [done|].
    exists X. rewrite Hp, app_assoc. split; [done|]. intros x Hx p [Hin| ->%list_elem_of_singleton]%elem_of_app.
    + by apply HX.
    + destruct (li_pend s Hinv x); [|lia]. rewrite Hp. apply elem_of_app. by left.
  - unfold buffered. cbn. set (sq := Sequence e0). set (r := Sequence _). unfold BroadcastCommit.
    assert (∀ x, x ∈ e0 :: P → sq ≤ Sequence x ≤ r) as Hends.
    { intros x Hx. apply sorted_ends; [|done]. rewrite <- HP. eapply StronglySorted_app_1_r, li_sorted, Hinv. }
    rewrite Hp, fold_left_app, (commit1_skip sq r X), HP.
    2:{ intros x Hx. apply (HX x Hx). rewrite HP. by left. }
    destruct (fold_left (commit1 sq r) (e0 :: P) _) as [[b k] m] eqn:Ef.
    destruct (commit1_suffix cap sq r (e0 :: P) (ls_committed s) _ _ _ _ _ _ Hends Hc Hb Ef) as (H1 & H2 & ->).
    destruct (offer_same (commitMsg sq r) (set_buf b [] m (ls_srv s))) as [H3 H4]. rewrite H3, H4. cbn.
    split; [done|]. split; [done|]. exists []. split; [done|]. by intros x ?%not_elem_of_nil.
  - split; [done|]. split; [done|]. exists (X ++ ls_batch s). rewrite app_nil_r. split; [done|].
    by intros x _ p ?%not_elem_of_nil.
  - unfold followOpen in Ho. destruct (_ && _); [done|]. destruct (since _ _) as [sn ok]. destruct (negb ok); [done|].
    injection Ho as _ _ <-. split; [done|]. split; [done|]. by exists X.
  - unfold followStep in Hs. destruct (sv_chans (ls_srv s) !! se_ch se) as [ch|]; [|done]. cbn in Hs.
    destruct (ch_msgs ch) as [|msg rest]; [by destruct (ch_closed ch)|].
    assert (sv_buf srv' = sv_buf (ls_srv s) ∧ sv_pending srv' = sv_pending (ls_srv s)) as [H1 H2].
    { destruct (m_Commit msg); [|destruct (_ <=? _)]; injection Hs as _ _ <-; done. }
    unfold buffered. cbn. rewrite H1, H2. split; [done|]. split; [done|]. by exists X.
  - split; [done|]. split; [done|]. by exists X.
  - assert (sv_buf (peerStep ev (ls_srv s)) = sv_buf (ls_srv s) ∧
      sv_pending (peerStep ev (ls_srv s)) = sv_pending (ls_srv s)) as [H1 H2].
    { destruct ev; cbn; try done; unfold recvAck, followDefer; repeat case_match; done. }
    unfold buffered. cbn. rewrite H1, H2. split; [done|]. split; [done|]. by exists X.
Qed.

Lemma buffered_reachable cap hi startRev s : rtc lstep (lsys_init cap hi startRev) s → buffered cap s.
Proof.
  intros Hr. remember (lsys_init cap hi startRev) as s0 eqn:E0.
  assert (linv s0 ∧ buffered cap s0) as [H0 H1].
  { rewrite E0. split; [apply linv_init|]. split; [done|]. split; [done|]. exists []. split; [done|]. by intros x ?%not_elem_of_nil. }
  clear E0. revert H0 H1. induction Hr as [|s0 s1 s2 Hs _ IH]; intros H0 H1; [done|].
  apply IH; [by apply (linv_step s0)|by apply (buffered_step cap s0)].
Qed.

(** On a sorted list the scan from the first entry at [from] is a filter. *)
Lemma since_loop_filter from l :
  StronglySorted seq_lt l → since_loop from l = filter (λ e, from ≤ Sequence e) l.
Proof.
  induction 1 as [|e l Hl IH Hf]; [done|]. cbn [since_loop]. rewrite filter_cons.
  destruct (Z.leb_spec from (Sequence e)); [|by rewrite decide_False by lia].
  rewrite decide_True by done. f_equal. symmetry. apply filter_all_in. intros x Hx.
  apply (proj1 (Forall_forall _ _) Hf) in Hx. unfold seq_lt in Hx. lia.
Qed.

(** ** Theorems *)

(** C4. What a follower applies is the leader's log: run the leader's server
    through any sequence of broadcasts, commits, abandoned batches, follower
    registrations, stream steps, acknowledgements and disconnects, and give
    the follower any messages its stream sent, whatever was lost, repeated or
    reordered.  After the connection the follower's history is the leader's
    initial history and the first entries of its committed log, with no gap
    and nothing uncommitted; if its store refused a batch, the database holds
    the log up to that batch or including it. *)
Theorem follower_prefix {DB L : Type} `{PI : Pebble DB} `{POk : !PebbleOk DB} `{WI : WALWriter L}
    cap hi startRev s c msgs recvErr ackOk from (H0 : hist) (f : Follower DB L) r f' :
  rtc lstep (lsys_init cap hi startRev) s → ls_hi s < max_int64 →
  (∀ m, m ∈ msgs → m ∈ sent s c) → in_step H0 (ls_committed s) f →
  followOnce walFn applyFn (sendAck ackOk) from msgs recvErr f = (r, f') →
  is_ok r ∧ (in_step H0 (ls_committed s) f' ∨ apply_failed H0 (ls_committed s) f').
Proof.
  intros Hr Hhi Hmsgs Hf Hrun. pose proof (linv_reachable _ _ _ _ Hr) as Hinv.
  assert (∀ e, e ∈ ls_committed s → Sequence e < max_int64) as Hmax.
  { intros e He. pose proof (li_hi s Hinv e ltac:(apply elem_of_app; by left)). lia. }
  assert (∀ m, m ∈ sent s c → m ∈ stream s c) as Hsub by (intros m Hm; apply elem_of_app; by left).
  revert Hrun. apply (followMsgs_rule walFn applyFn (sendAck ackOk)
    (in_step H0 (ls_committed s)) (λ f, in_step H0 (ls_committed s) f ∨ apply_failed H0 (ls_committed s) f)
    (mid H0 (ls_committed s)) (allowed (ls_committed s)) (sent s c) (ls_hi s)).
  - intros m Hm. by apply (li_msg s Hinv c), Hsub.
  - intros k Hk Hkc. by apply (li_commit s Hinv c k (Hsub k Hk) Hkc).
  - done.
  - intros k m Hk Hm Hkc Hent Hrange.
    destruct (li_commit s Hinv c k (Hsub k Hk) Hkc) as (_ & _ & Hc).
    destruct (Hc m (Hsub m Hm) Hent Hrange) as (e & He & ->). by exists e.
  - intros batch f0 r0 f1. by apply walFn_step.
  - intros batch z f0 r0 f1. apply sendAck_step.
  - intros batch f0 r0 f1 Hm Hrun. pose proof (applyFn_step H0 (ls_committed s) Hmax batch f0 r0 f1 Hm Hrun).
    destruct r0; [done|]. by right.
  - by left.
  - intros batch f0 (k & Hk & _). left. by exists k.
  - done.
  - by intros e ?%not_elem_of_nil.
  - done.
Qed.

(** C24. A follower that is accepted catches up completely: with a buffer of
    positive capacity the snapshot it is sent holds every committed entry from
    the sequence it asked for, in order, and a follower whose entries have
    left the buffer, or were written before this leader, is told to resync. *)
Theorem catchup_complete cap hi startRev s req :
  rtc lstep (lsys_init cap hi startRev) s → (0 < cap)%nat →
  match followOpen req (ls_srv s) with
  | (Ok (_, snap), _) => snap = filter (λ e, fr_FromRevision req ≤ Sequence e) (ls_committed s)
  | (Err e, srv') => e = ErrResyncRequired ∧ srv' = ls_srv s ∧
      (fr_FromRevision req < sv_startRev (ls_srv s) ∨
       ∃ x, x ∈ ls_committed s ∧ fr_FromRevision req < Sequence x)
  end.
Proof.
  intros Hr Hcap. pose proof (linv_reachable _ _ _ _ Hr) as Hinv.
  destruct (buffered_reachable _ _ _ _ Hr) as (_ & Hb & _).
  set (C := ls_committed s) in *. set (from := fr_FromRevision req).
  assert (StronglySorted seq_lt C) as HsC by (eapply StronglySorted_app_1_l, li_sorted, Hinv).
  unfold followOpen. fold from. destruct ((0 <? _) && (from <? _)) eqn:Est.
  { split; [done|]. split; [done|]. left. apply andb_true_iff in Est as [_ ?%Z.ltb_lt]. done. }
  unfold since. rewrite Hb. set (j := (length C - cap)%nat).
  destruct (drop j C) as [|e0 es] eqn:Ed.
  { cbn. assert (C = []) as ->; [|done]. apply (f_equal length) in Ed. rewrite length_drop in Ed. cbn in Ed.
    destruct C; [done|]. unfold j in Ed. cbn in Ed. lia. }
  rewrite <- Ed. assert (e0 ∈ C) as He0 by (apply (elem_of_drop_in _ j); rewrite Ed; by left).
  destruct (Z.ltb_spec from (Sequence e0)); cbn.
  { split; [done|]. split; [done|]. right. by exists e0. }
  rewrite <- (take_drop j C) in HsC. rewrite since_loop_filter by by eapply StronglySorted_app_1_r.
  rewrite <- (take_drop j C) at 2. rewrite filter_app, (filter_nil_in _ (take j C)); [done|].
  intros x Hx. pose proof (StronglySorted_app_1_elem_of _ _ _ x e0 HsC Hx) as Hlt. rewrite Ed in Hlt.
  specialize (Hlt ltac:(by left)). unfold seq_lt in Hlt. lia.
Qed.

(** C25. The commit wait is a quorum: when it ends without the node shutting
    down, the required number of followers connected at the call have
    acknowledged the sequence, in the default mode a majority of them and the
    leader together, unless every one of those followers that is still
    connected has acknowledged it. *)
Theorem wait_quorum mode rev ctxErr evs s s' evs' :
  WaitForFollowers mode rev ctxErr evs s = (Ok tt, s', evs') →
  let n := size (sv_followers s) in
  let acked := ackedOf (dom (sv_followers s)) rev s' in
  ((requiredFollowerACKs n mode ≤ size acked)%nat ∧
   (mode ≠ WaitNone → mode ≠ WaitAll → (n + 1 < 2 * (1 + size acked))%nat)) ∨
  (∀ id, id ∈ dom (sv_followers s) → is_Some (sv_followers s' !! id) →
     rev ≤ default 0 (sv_followerAckRevs s' !! id)).
Proof.
  intros Hw. cbv zeta. set (n := size (sv_followers s)). set (R := dom (sv_followers s)).
  assert ((requiredFollowerACKs n mode ≤ size (ackedOf R rev s'))%nat ∨ pendingOfAck R rev s' = ∅) as [Hn|Hn].
  { unfold WaitForFollowers in Hw. fold n R in Hw. case_bool_decide as He.
    { left. unfold n. rewrite He, map_size_empty. destruct mode; cbn; lia. }
    case_bool_decide as Hz; [left; lia|]. apply waitCheck_spec.
    destruct (waitCheck R _ rev s) eqn:Ec; [by injection Hw as <- _|]. by apply waitLoop_spec in Hw. }
  - left. split; [done|]. intros H1 H2.
    assert (requiredFollowerACKs n mode = (n + 1) / 2)%nat as Hq by by destruct mode.
    rewrite Hq in Hn. pose proof (Nat.div_mod (n + 1) 2). pose proof (Nat.mod_upper_bound (n + 1) 2). lia.
  - right. intros id Hid Hcon. destruct (decide (rev ≤ default 0 (sv_followerAckRevs s' !! id))); [done|exfalso].
    assert (id ∈ pendingOfAck R rev s') as Hin; [|rewrite Hn in Hin; set_solver].
    apply elem_of_filter. split; [|done]. split; [done|lia].
Qed.

(** ** A run *)

(** A log kept in memory. *)
#[global] Instance mem_wal : WALWriter (list Entry) := {|
  wal_AppendBatch ctxErr batch l :=
    match ctxErr with Some e => (Err e, l) | None => (Ok tt, l ++ batch) end |}.

Definition do_broadcast (s : lsys) (e : Entry) : lsys :=
  mkSys (Broadcast e (ls_srv s)) (ls_committed s) (ls_batch s ++ [e]) (Sequence e) (ls_out s).
Definition do_commit (s : lsys) : lsys :=
  match ls_batch s with
  | [] => s
  | e0 :: P => mkSys (BroadcastCommit (Sequence e0) (Sequence (List.last (e0 :: P) e0)) (ls_srv s))
                 (ls_committed s ++ e0 :: P) [] (ls_hi s) (ls_out s)
  end.
Definition do_open (s : lsys) (req : FollowRequest) : lsys :=
  match followOpen req (ls_srv s) with
  | (Ok (se, snap), srv') => mkSys srv' (ls_committed s) (ls_batch s) (ls_hi s)
                               (<[se_ch se := snapshotMsgs snap]> (ls_out s))
  | _ => s
  end.

Lemma do_commit_steps s : rtc lstep s (do_commit s).
Proof. unfold do_commit. destruct (ls_batch s) eqn:E; [done|]. by apply rtc_once, L_commit. Qed.

Lemma do_open_steps s req : rtc lstep s (do_open s req).
Proof.
  unfold do_open. destruct (followOpen req (ls_srv s)) as [[[se snap]|e] srv'] eqn:E; [|done].
  by eapply rtc_once, L_open.
Qed.

Lemma do_broadcast_steps s es :
  StronglySorted seq_lt es → (∀ e, e ∈ es → ls_hi s < Sequence e) →
  rtc lstep s (fold_left do_broadcast es s).
Proof.
  revert s. induction es as [|e es IH]; intros s Hs Hlt; [done|]. inversion_clear Hs as [|? ? Hs' Hf].
  eapply rtc_l; [apply (L_broadcast s e), Hlt; by left|]. apply IH; [done|].
  intros x Hx. cbn. by apply (proj1 (Forall_forall _ _) Hf).
Qed.

Definition req1 : FollowRequest := mkFollow 1 (str "f1").

(** The leader commits [batch1], then a follower connects from the start. *)
Definition sys1 : lsys := do_commit (fold_left do_broadcast batch1 (lsys_init 4 0 1)).
Definition sys2 : lsys := do_open sys1 req1.

Lemma batch1_sorted : StronglySorted seq_lt batch1.
Proof. apply (batch_ok_seq batch1 0 0 0 batch1_ok). Qed.

Lemma sys1_reach : rtc lstep (lsys_init 4 0 1) sys1.
Proof.
  etrans; [|apply do_commit_steps]. apply do_broadcast_steps; [apply batch1_sorted|].
  intros e He. by apply (batch_ok_seq batch1 0 0 0 batch1_ok).
Qed.

Lemma sys2_reach : rtc lstep (lsys_init 4 0 1) sys2.
Proof. etrans; [apply sys1_reach|apply do_open_steps]. Qed.

Definition follower0 : Follower (gmap bytes bytes) (list Entry) := mkFollower 1 [] empty_store 0 [].

Lemma follower0_in_step : in_step [] (ls_committed sys2) follower0.
Proof.
  exists 0%nat. split; [exact empty_rel|]. split; [done|]. split; [|by intros e ?%not_elem_of_nil].
  change (drop 0 (ls_committed sys2)) with batch1. exact batch1_ok.
Qed.

Definition connection1 := followOnce walFn applyFn (sendAck true) 1 (sent sys2 0) ErrEOF follower0.

Lemma follower_prefix_witness :
  (fl_acks connection1.2, fl_fromRev connection1.2, fl_wal connection1.2) = ([2], 3, batch1) ∧
  (in_step [] (ls_committed sys2) connection1.2 ∨ apply_failed [] (ls_committed sys2) connection1.2).
Proof.
  split; [by vm_compute|].
  apply (follower_prefix 4 0 1 sys2 0 (sent sys2 0) ErrEOF true 1 [] follower0 connection1.1 connection1.2);
    [apply sys2_reach|by vm_compute|done|apply follower0_in_step|apply surjective_pairing].
Defined.

Lemma catchup_complete_witness :
  ∃ se srv', followOpen req1 (ls_srv sys1) = (Ok (se, batch1), srv') ∧
    batch1 = filter (λ e, 1 ≤ Sequence e) (ls_committed sys1).
Proof.
  pose proof (catchup_complete 4 0 1 sys1 req1 sys1_reach ltac:(lia)) as Hc.
  assert (match followOpen req1 (ls_srv sys1) with (Ok (_, snap), _) => snap | _ => [] end = batch1) as E by by vm_compute.
  destruct (followOpen req1 (ls_srv sys1)) as [[[se snap]|e] srv']; [|done].
  exists se, srv'. rewrite E in Hc |- *. by split.
Defined.

(** A follower acknowledges while the leader waits. *)
Definition srv_ack : Server :=
  (WaitForFollowers WaitQuorum 2 ErrCanceled [EvAck (mkSess (str "f1") 0 2) 2] (ls_srv sys2)).1.2.

Lemma wait_quorum_witness :
  (requiredFollowerACKs 1 WaitQuorum ≤ size (ackedOf (dom (sv_followers (ls_srv sys2))) 2 srv_ack))%nat ∨
  (∀ id, id ∈ dom (sv_followers (ls_srv sys2)) → is_Some (sv_followers srv_ack !! id) →
     2 ≤ default 0 (sv_followerAckRevs srv_ack !! id)).
Proof.
  destruct (wait_quorum WaitQuorum 2 ErrCanceled [EvAck (mkSess (str "f1") 0 2) 2] (ls_srv sys2) srv_ack [])
    as [[H1 _]|H2]; [by vm_compute|left; exact H1|right; exact H2].
Defined.

(** ** Two windows *)

(** The entry is broadcast, the follower registers, the entry is committed. *)
Definition late_entry : Entry := mkEntry 1 1 1 OpCreate key_a [] 0 1 0 1.
Definition late_sys : lsys := do_commit (do_open (do_broadcast (lsys_init 4 0 1) late_entry) req1).
Definition late_live : list WalEntryMsg :=
  match followStep (mkSess (str "f1") 0 0) (ls_srv late_sys) with
  | Some (Ok (_, ms), _) => ms
  | _ => []
  end.

(** A follower that registers between the broadcast of a batch and its commit
    is not served the batch, neither in its snapshot nor on its channel, and
    the commit message that follows makes it give up the stream and resync,
    although the leader has every entry it asked for. *)
Theorem register_before_commit_resyncs :
  sent late_sys 0 ++ late_live = [commitMsg 1 1] ∧
  followOnce walFn applyFn (sendAck true) 1 [commitMsg 1 1] ErrEOF follower0 =
    (Ok (1, ErrResyncRequired), follower0) ∧
  eb_entries (sv_buf (ls_srv late_sys)) = [late_entry].
Proof. split; [by vm_compute|]. split; [reflexivity|by vm_compute]. Qed.

(** A follower that is disconnected because its channel is full leaves its
    acknowledgement behind, and, unlike any other unexpected disconnect, does
    not signal [DisconnectC], on which the leader relies to fence itself. *)
Theorem kicked_follower_silent s e se ch :
  sv_followers s = {[se_NodeID se := se_ch se]} → sv_chans s !! se_ch se = Some ch →
  (chanCap ≤ length (ch_msgs ch))%nat →
  let s' := followDefer se (Broadcast e s) in
  sv_followers s' = ∅ ∧ sv_followerAckRevs s' = sv_followerAckRevs s ∧ sv_DisconnectC s' = sv_DisconnectC s.
Proof.
  intros Hf Hc Hfull. cbv zeta. unfold Broadcast, offer.
  cbn [sv_followers sv_chans set_buf]. rewrite Hf, map_to_list_singleton.
  cbn [fold_left offer1 fst snd]. rewrite Hc, (proj2 (Nat.leb_le _ _)) by done.
  cbn [fold_left app]. unfold kick1. cbn [sv_followers set_chans]. rewrite lookup_singleton_eq.
  unfold followDefer. cbn [sv_followers set_chans]. rewrite delete_singleton_eq, lookup_empty. done.
Qed.
