(* ===== verification/NodeClaims.v ===== *)
(** * Correctness of the write path

    The theorems on the write path, one iteration of the commit loop against
    the state machine, the composition with the durability of the log, and two
    behaviours outside the machine: a cancelled batch with a write queued
    behind it, and the empty key. *)

From S2P Require Import Prelude Bytes WalEntry Os WalSegment Object Wal WalDurable Pebble StoreKeys Store StoreSpec StoreInv StoreApply StoreRead StoreRefine StoreProps Peer Node NodeSpec NodeInv NodeProps NodeSteps Server Follower Replication ReplicationProps.

Section Claims.
Context {DB L R : Type} `{PI : Pebble DB} `{POk : !PebbleOk DB} `{WI : WALWriter L} `{RI : PeerServer R}.
Local Notation Node := (Node DB L R).
Implicit Types n : Node.

(** One iteration of the loop is the steps of the machine in a row. *)
Lemma commitStep_unfold k ctxErr n r n' :
  commitStep k ctxErr n = (r, n') →
  let B := take k (n_writeC n) in
  let n1 := set_writeC (drop k (n_writeC n)) n in
  ∃ res n2, persist ctxErr B n1 = (res, n2) ∧
  let n3 := (clearPendingBatch B n2).2 in
  match res with
  | Ok _ => r = Ok (B, Ok tt, []) ∧ n' = n3
  | Err e =>
      if isCancellation e then r = Ok (B, Err e, []) ∧ n' = n3
      else r = Ok (B, Err e, n_writeC n3) ∧ n' = (stopLoop n3).2
  end.
Proof using.
  unfold commitStep, mbind, ST_bind, get_st, modify, try. cbn [n_writeC].
  fold (persist ctxErr (take k (n_writeC n))).
  destruct (persist ctxErr (take k (n_writeC n)) (set_writeC (drop k (n_writeC n)) n)) as [res n2] eqn:Ep.
  unfold persist, mbind, ST_bind in Ep. cbn in Ep.
  intros Hc. exists res, n2. split; [done|]. revert Hc. rewrite Ep. cbn.
  destruct res as [[]|e]; [by intros [= <- <-]|]. destruct (isCancellation e); by intros [= <- <-].
Qed.



End Claims.

(** ** With the log of internal/wal *)

Section Durable.
Context {DB R S : Type} `{PI : Pebble DB} `{POk : !PebbleOk DB} `{RI : PeerServer R} `{OI : ObjectStore S} `{OOk : !ObjectStoreOk S}.
Context (dir : bytes) (uploader : option (bytes → bytes → ST (world S) ())).
Local Notation Node := (Node DB (WAL * world S) R).

Lemma replicate_wal ctxErr B (n : Node) r n' :
  replicateBatch (WI := wal_writer uploader) ctxErr B n = (Ok r, n') →
  AppendBatch uploader ctxErr B (n_wal n) = (Ok tt, n_wal n').
Proof using.
  unfold replicateBatch, mbind, ST_bind, get_st, try, zoom, from_result, modify.
  change (wal_AppendBatch (WALWriter := wal_writer uploader) ctxErr B (n_wal n)) with (AppendBatch uploader ctxErr B (n_wal n)).
  destruct (AppendBatch uploader ctxErr B (n_wal n)) as [[[]|e] l]; cbn.
  - destruct (n_peerSrv n) as [srv|]; [|by intros [= <- <-]]. destruct B as [|e0 b]; cbn; [by intros [= <- <-]|].
    destruct (ps_WaitForFollowers _ _) as [w srv']. destruct w; by intros [= <- <-].
  - destruct (n_peerSrv n); cbn; [|done]. by destruct B.
Qed.

(** The node, its log with the entries it has acknowledged, and the entries
    committed so far. *)
Definition csys : Type := state (DB := DB) (L := WAL * world S) (R := R) * wstate (S := S) * list Entry.

Definition node_of (st : state (DB := DB) (L := WAL * world S) (R := R)) : Node := st.1.1.

(** Steps of the node that leave the log alone, a batch persisted, and the
    background goroutines of the log. *)
Inductive cstep : csys → csys → Prop :=
  | cs_node st l st' ws D :
      nstep (WI := wal_writer uploader) st l st' → n_wal (node_of st') = n_wal (node_of st) →
      st'.1.2 = st.1.2 → cstep (st, ws, D) (st', ws, D)
  | cs_persist n H B n' ws l' w' sw D :
      persist (WI := wal_writer uploader) None B n = (Ok tt, n') →
      ws_fenced ws = false → B ≠ [] → Forall wf_entry B → wal_active (ws_wal ws) = Some sw →
      nextRev sw + zlen B < 2 ^ 63 → n_wal n' = (l', w') →
      cstep (n, H, Taken B, ws, D)
            (n', H ++ batch_log B, Applied B,
             mkWS (acks B (here sw) ++ ws_acked ws) false l' w', D ++ B)
  | cs_background n H ph ws ws' D :
      ((∃ r, rotationTick uploader (ws_wal ws, ws_world ws) = (r, (ws_wal ws', ws_world ws'))) ∨
       (∃ c r, uploadStep uploader c (ws_wal ws, ws_world ws) = (r, (ws_wal ws', ws_world ws'))) ∨
       (∃ r, retryStep (ws_wal ws, ws_world ws) = (r, (ws_wal ws', ws_world ws')))) →
      ws_acked ws' = ws_acked ws → ws_fenced ws' = ws_fenced ws →
      cstep (n, H, ph, ws, D) (set_n_wal (ws_wal ws', ws_world ws') n, H, ph, ws', D).

Definition c_init (H0 : hist) (s : csys) : Prop :=
  let '(st, ws, D) := s in
  initial st ∧ st.1.2 = H0 ∧ D = [] ∧ n_wal (node_of st) = (ws_wal ws, ws_world ws) ∧ wal_init dir ws.

Record cinv (H0 : hist) (s : csys) : Prop := {
  ci_reach : reachable (WI := wal_writer uploader) s.1.1;
  ci_wal : n_wal (node_of s.1.1) = (ws_wal s.1.2, ws_world s.1.2);
  ci_winv : winv dir s.1.2;
  ci_hist : s.1.1.1.2 = H0 ++ batch_log s.2;
  ci_acked : ∀ e, e ∈ s.2 → ∃ p, (e, p) ∈ ws_acked s.1.2 }.

Context (Hup : ∀ up, uploader = Some up → upload_law up).

Lemma cinv_step H0 s s' : cinv H0 s → cstep s s' → cinv H0 s'.
Proof using All.
  intros [H1 H2 H3 H4 H5] Hstep. destruct Hstep as [st l st' ws D Hs Hw Hh|n H B n' ws l' w' sw D Hp Hf Hne Hwf Hact Hb Hn'
    |n H ph ws ws' D Hbg Ha Hfe]; cbn in *.
  - split; cbn; [by eapply reach_step|congruence|done|congruence|done].
  - pose proof Hp as Hp'. apply persist_run in Hp' as (n1 & [[]|e] & Hrep & Hap); [|by destruct Hap].
    destruct Hap as (s1 & _ & ->). pose proof (replicate_wal _ _ _ _ _ Hrep) as Hap.
    cbn in Hn'. rewrite H2, Hn' in Hap.
    pose proof (WS_batch uploader ws B (Ok tt) l' w' Hf Hne Hwf) as Hws. rewrite Hact in Hws.
    specialize (Hws ltac:(by intros ? [= <-]) Hap).
    split; cbn.
    + eapply reach_step; [exact H1|by eapply ns_persist].
    + done.
    + by apply (winv_step dir uploader Hup ws).
    + by rewrite H4, batch_log_app, app_assoc.
    + intros e [He|He]%elem_of_app.
      * destruct (H5 e He) as [p Hpe]. exists p. apply elem_of_app. by right.
      * exists (here sw). apply elem_of_app. left. unfold acks.
        by apply (list_elem_of_fmap_2 (λ e, (e, here sw))).
  - split; cbn; [|done| |done|by rewrite Ha].
    + eapply reach_step; [exact H1|]. pose proof (ns_background (WI := wal_writer uploader) n H ph (ws_wal ws', ws_world ws') (n_peerSrv n)) as Hb.
      by destruct n.
    + assert (ws' = upd ws (ws_wal ws') (ws_world ws')) as Hupd.
      { destruct ws, ws'. cbn in *. by subst. }
      apply (winv_step dir uploader Hup ws); [done|]. rewrite Hupd.
      destruct Hbg as [(r & E)|[(c & r & E)|(r & E)]];
        [by eapply WS_tick|by eapply WS_upload|by eapply WS_retry].
Qed.

End Durable.

(** ** A run *)

Definition put_a : cop := CPut key_a (str "v") 0.
Definition entry_a : Entry := mkEntry 1 1 1 OpCreate key_a (str "v") 0 1 0 1.

(** A node over an empty store and any log, and the node after one put. *)
Section First.
Context {L : Type} `{WI : WALWriter L} (wal : L).

Definition first_node : Node (gmap bytes bytes) L peerEnv :=
  mkNode empty_store wal None 1 roleSingle false 0 0 ∅ [].
Definition second_node : Node (gmap bytes bytes) L peerEnv := (run put_a first_node).2.

Lemma first_initial : initial (first_node, [], Idle).
Proof using. split_and!; try done. exact empty_rel. by intros x ?%not_elem_of_nil. Qed.

Lemma put_a_step : nstep (first_node, [], Idle) (Some (put_a, Ok (mkAns 1 None true []))) (second_node, [], Idle).
Proof using.
  assert (run put_a first_node = (Ok (Wait entry_a (λ r, rev ← r; Ok (mkAns rev None true []))), second_node)) as E
    by reflexivity.
  pose proof (ns_op first_node [] Idle put_a _ second_node ltac:(done) ltac:(split; unfold valid_rev; cbn; lia)
    ltac:(split_and!; unfold is_u32, is_i64; vm_compute; done) E) as Hs. exact Hs.
Qed.

Lemma second_wal : n_wal second_node = wal.
Proof using. reflexivity. Qed.

Lemma second_queue : n_writeC second_node = [entry_a].
Proof using. reflexivity. Qed.
End First.

Section Sample.
#[local] Notation Node := (Node (gmap bytes bytes) (list Entry) peerEnv).

Definition node0 : Node := first_node [].
Definition node1 : Node := second_node [].
Definition node3 : Node := (commitStep 1 None node1).2.

Lemma node1_reachable : reachable (node1, [], Idle).
Proof. eapply reach_step; [apply reach_init, first_initial|apply put_a_step]. Qed.



End Sample.

(** The same write over the log of internal/wal with the in-memory object
    store: committed, then its segment rotated and uploaded. *)
Section DurableSample.
#[local] Notation Node := (Node (gmap bytes bytes) (WAL * world Mem) peerEnv).
Let up := Some (makeUploader (S := Mem)).
Let dir := str "data/wal".

Definition wal_open1 : wstate (S := Mem) :=
  let '(_, (l, w)) := Open dir 2 9 (New 1000000 false, mkWorld ∅ ∅ []) in mkWS [] false l w.
Definition dnode0 : Node := first_node (ws_wal wal_open1, ws_world wal_open1).
Definition dnode1 : Node := second_node (ws_wal wal_open1, ws_world wal_open1).
Definition dnode2 : Node := set_writeC [] dnode1.
Definition dnode3 : Node := (persist (WI := wal_writer up) None [entry_a] dnode2).2.
Definition wal_seg1 : SegmentWriter := default (mkSW (mkFile [] 0 false) [] 0 0 0 0 false) (wal_active (ws_wal wal_open1)).
Definition wal2 : wstate (S := Mem) :=
  mkWS (acks [entry_a] (here wal_seg1)) false (n_wal dnode3).1 (n_wal dnode3).2.
Definition wal3 : wstate (S := Mem) :=
  let '(_, (l, w)) := rotationTick up (ws_wal wal2, ws_world wal2) in upd wal2 l w.
Definition wal4 : wstate (S := Mem) :=
  let '(_, (l, w)) := uploadStep up false (ws_wal wal3, ws_world wal3) in upd wal3 l w.

Lemma dnode0_init : c_init dir [] (dnode0, [], Idle, wal_open1, []).
Proof.
  split; [|split_and!; try done].
  - apply first_initial.
  - exists (New 1000000 false), (mkWorld ∅ ∅ []), 2, 9. split_and!; try done. by intros ? ? ? Hin%not_elem_of_nil.
Qed.

Lemma dnode_persist :
  cstep up (dnode2, [], Taken [entry_a], wal_open1, []) (dnode3, batch_log [entry_a], Applied [entry_a], wal2, [entry_a]).
Proof.
  apply (cs_persist up dnode2 [] [entry_a] dnode3 wal_open1 (n_wal dnode3).1 (n_wal dnode3).2 wal_seg1 []).
  - unfold dnode3. rewrite (surjective_pairing (persist None [entry_a] dnode2)) at 1. by f_equal.
  - by vm_compute.
  - done.
  - repeat constructor; vm_compute; congruence.
  - by vm_compute.
  - by vm_compute.
  - by destruct (n_wal dnode3).
Qed.

End DurableSample.

(** ** A cancelled batch with a write behind it *)

Section Cancelled.
#[local] Notation Node := (Node (gmap bytes bytes) (list Entry) peerEnv).

(** A put is taken by the commit loop; a second put of the same key arrives;
    the first caller gives up before the append, so the batch is dropped and
    the loop goes on with the second. *)
Definition cancelled_run : ST Node (list Entry * result () * list Entry) :=
  _ ← run (CPut key_a (str "v1") 0);
  n ← get_st;
  let B := take 1 (n_writeC n) in
  modify (set_writeC (drop 1 (n_writeC n)));;
  _ ← run (CPut key_a (str "v2") 0);
  _ ← try (persist (Some ErrCanceled) B);
  clearPendingBatch B;;
  commitStep 1 None.

Definition cancelled_node : Node := (cancelled_run node0).2.

(** After a cancelled batch the write queued behind it is committed on top of
    a value that was never stored: the only version of the key the store has
    says it was created at revision 1, updated once and previously modified
    at revision 1, where no such key exists, and the log starts with sequence
    2. *)
Theorem cancelled_batch_phantom :
  (cancelled_run node0).1 = Ok ([mkEntry 2 2 1 OpUpdate key_a (str "v2") 0 1 1 2], Ok tt, []) ∧
  Get (n_db cancelled_node) key_a = Ok (Some (mkKV key_a (str "v2") 2 1 1 2 0)) ∧
  GetAt (n_db cancelled_node) key_a 1 = Ok None ∧
  map e_ID (n_wal cancelled_node) = [2].
Proof. split_and!; by vm_compute. Qed.

(** ** The empty key *)

(** The empty key is stored, then deleted, then created. *)
Definition empty_run : ST Node (outcome (result Z) * outcome (result Z)) :=
  _ ← run (CPut [] (str "v") 0);
  _ ← commitStep 1 None;
  d ← Delete [];
  c ← Create [] (str "w") 0;
  mret (d, c).

Definition empty_node : Node := (empty_run node0).2.

(** Deleting the empty key answers that it does not exist, and leaves it in
    the store, but consumes a revision and hides the key from later writes:
    a create of the same key is then accepted. *)
Theorem delete_empty_key :
  match (empty_run node0).1 with
  | Ok (d, c) =>
      d = Done (Ok 0) ∧
      match c with Wait e _ => (e_Op e, e_Revision e, e_PrevRevision e) = (OpCreate, 3, 0) | _ => False end
  | Err _ => False
  end ∧
  Get (n_db empty_node) [] = Ok (Some (mkKV [] (str "v") 1 1 0 1 0)).
Proof. split; by vm_compute. Qed.
End Cancelled.
