(* ===== verification/WalReplay.v ===== *)
(** * Replaying the log from object storage

    wal_replay.go: the per-term cutoffs that resolve leader changes, the merge
    of the uploaded segments, the check that no sequence is missing, and the
    replay into the store.  The state is the object store and the database. *)

From S2P Require Import Prelude Bytes Decimal WalEntry Os WalSegment Object Pebble StoreKeys Store.

(** ** Keys *)

Definition slash : byte := x2f.

(** [strings.SplitN(key, "/", 3)] when it has three parts. *)
Definition splitN3 (key : bytes) : option (bytes * bytes * bytes) :=
  '(a, rest) ← cut_byte slash key;
  '(b, c) ← cut_byte slash rest;
  Some (a, b, c).

Definition parseWALKey (key : bytes) : Z * Z :=
  match splitN3 key with
  | Some (_, t, r) => ((ParseUint (trim_zeros t)).1, (ParseInt (trim_zeros r)).1)
  | None => (0, 0)
  end.

(** ** Cutoffs *)

Definition minFirst1 (m : gmap Z Z) (key : bytes) : gmap Z Z :=
  let '(term, firstRev) := parseWALKey key in
  match m !! term with
  | Some existing => if firstRev <? existing then <[term := firstRev]> m else m
  | None => <[term := firstRev]> m
  end.

Definition minFirstRev (keys : list bytes) : gmap Z Z := fold_left minFirst1 keys ∅.

Definition cutoffOf (m : gmap Z Z) (term : Z) : Z :=
  map_fold (λ t fr c, if (term <? t) && (fr <? c) then fr else c) max_int64 m.

Definition walTermCutoffs (keys : list bytes) : gmap Z Z :=
  let m := minFirstRev keys in map_imap (λ term _, Some (cutoffOf m term)) m.

(** ** Merging *)

(** [sort.Slice] by sequence, then by term. *)
Definition entry_le (a b : Entry) : Prop :=
  Sequence a < Sequence b ∨ Sequence a = Sequence b ∧ e_Term a ≤ e_Term b.

#[global] Instance entry_le_dec : RelDecision entry_le.
Proof. unfold entry_le. intros a b. apply _. Defined.

Definition sortEntries (all : list Entry) : list Entry := merge_sort entry_le all.

(** The loop over the sorted entries, with the merged list reversed. *)
Definition merge1 (merged : list Entry) (e : Entry) : list Entry :=
  match merged with
  | l :: merged' =>
      if Sequence l =? Sequence e then if e_Term l <=? e_Term e then e :: merged' else merged
      else e :: merged
  | [] => [e]
  end.

Definition mergeEntries (all : list Entry) : list Entry := rev (fold_left merge1 (sortEntries all) []).

Fixpoint checkSequence (expected : Z) (es : list Entry) : result () :=
  match es with
  | [] => Ok tt
  | e :: es' =>
      if negb (Sequence e =? expected) then Err (ErrText "replayRemote: missing sequence(s)")
      else checkSequence (i64 (expected + 1)) es'
  end.

(** ** Replay *)

(** The entries of a segment; a read error after the header ends it early. *)
Definition segmentEntries (rd : reader) : result (list Entry) :=
  sr ← newSegmentReader rd; Ok (ReadAll sr).1.

Section Replay.
Context {S DB : Type} `{OI : ObjectStore S} `{PI : Pebble DB}.

Fixpoint fetchSegments (cutoff : gmap Z Z) (afterSeq : Z) (keys : list bytes) : ST S (list Entry) :=
  match keys with
  | [] => mret []
  | key :: keys' =>
      let termCutoff := default 0 (cutoff !! (parseWALKey key).1) in
      rd ← obj_Get key;
      entries ← from_result (segmentEntries rd);
      rest ← fetchSegments cutoff afterSeq keys';
      mret (filter (λ e, afterSeq < Sequence e ∧ Sequence e < termCutoff) entries ++ rest)
  end.

Definition replayRemote (afterSeq : Z) : ST (S * Store DB) () :=
  keys ← zoom fst (λ s st, (s, st.2)) (obj_List (str "wal/"));
  all ← zoom fst (λ s st, (s, st.2)) (fetchSegments (walTermCutoffs keys) afterSeq keys);
  match all with
  | [] => mret tt
  | _ =>
      let merged := mergeEntries all in
      from_result (checkSequence (i64 (afterSeq + 1)) merged);;
      zoom snd (λ d st, (st.1, d)) (Recover merged)
  end.

(** [replayPinned]: the segments of a restore point at fixed versions, one
    [Recover] per segment. *)
Context (getVersioned : bytes → bytes → ST S reader).

Fixpoint replayPinned (segs : list (bytes * bytes)) (afterSeq : Z) : ST (S * Store DB) () :=
  match segs with
  | [] => mret tt
  | (key, version) :: segs' =>
      rd ← zoom fst (λ s st, (s, st.2)) (getVersioned key version);
      entries ← from_result (segmentEntries rd);
      match filter (λ e, afterSeq < Sequence e) entries with
      | [] => mret tt
      | applicable => zoom snd (λ d st, (st.1, d)) (Recover applicable)
      end;;
      replayPinned segs' afterSeq
  end.
End Replay.
