(* ===== verification/WalReplayProps.v ===== *)
(** * Remote replay recovers a prefix of the log

    Reading part of a segment gives the first entries of it; the merge keeps
    one entry per sequence, of the highest term; and a replay that succeeds
    has applied the log without a gap. *)

From S2P Require Import Prelude Bytes Decimal WalEntry Os WalSegment Object Wal Pebble StoreKeys Store StoreSpec StoreInv StoreApply StoreRead StoreRefine StoreProps Peer Node NodeSpec NodeInv NodeSteps Server Follower Replication ReplicationProps NodeClaims WalReplay.

(** ** Reading part of a segment *)

Lemma read_full_more n p e1 b r1 q e2 :
  read_full n (mkReader p e1) = (Ok b, r1) →
  ∃ p', r1 = mkReader p' e1 ∧ read_full n (mkReader (p ++ q) e2) = (Ok b, mkReader (p' ++ q) e2).
Proof.
  unfold read_full. cbn. destruct (Nat.leb_spec n (length p)); [|done]. intros [= <- <-].
  exists (drop n p). split; [done|]. rewrite length_app. destruct (Nat.leb_spec n (length p + length q)); [|lia].
  by rewrite take_app_le, drop_app_le by lia.
Qed.

Lemma ReadEntryVersion_more p e1 v e r1 q e2 :
  ReadEntryVersion (mkReader p e1) v = (Ok e, r1) →
  ∃ p', r1 = mkReader p' e1 ∧ ReadEntryVersion (mkReader (p ++ q) e2) v = (Ok e, mkReader (p' ++ q) e2).
Proof.
  unfold ReadEntryVersion. destruct (read_full 8 (mkReader p e1)) as [[hdr|er] r] eqn:E1; [|by destruct er].
  apply (read_full_more 8 p e1 hdr r q e2) in E1 as (p1 & -> & ->).
  destruct (read_full _ (mkReader p1 e1)) as [[pl|er] r] eqn:E2; [|done].
  apply (read_full_more _ p1 e1 pl r q e2) in E2 as (p2 & -> & ->).
  destruct (negb _); [done|]. intros [= -> <-]. by exists p2.
Qed.

Lemma read_all_app f : ∀ sr acc, ∃ l, (read_all f sr acc).1 = acc ++ l.
Proof.
  induction f as [|f IH]; intros sr acc; cbn; [exists []; by rewrite app_nil_r|].
  destruct (Next sr) as [[e|er] sr'].
  - destruct (IH sr' (acc ++ [e])) as [l ->]. exists (e :: l). by rewrite <- app_assoc.
  - exists []. rewrite app_nil_r. by destruct er.
Qed.

Lemma read_all_more f : ∀ g p e1 q e2 t fr v acc,
  (length (p ++ q) < g)%nat →
  (read_all f (mkSR (mkReader p e1) t fr v) acc).1
    `prefix_of` (read_all g (mkSR (mkReader (p ++ q) e2) t fr v) acc).1.
Proof.
  induction f as [|f IH]; intros g p e1 q e2 t fr v acc Hg.
  { cbn. destruct (read_all_app g (mkSR (mkReader (p ++ q) e2) t fr v) acc) as [l ->]. by apply prefix_app_r. }
  destruct g as [|g]; [lia|]. cbn [read_all]. unfold Next at 1. cbn [sr_r sr_version].
  destruct (ReadEntryVersion (mkReader p e1) v) as [[e|er] r1] eqn:E.
  - apply (ReadEntryVersion_more p e1 v e r1 q e2) in E as (p' & -> & E'). unfold Next. cbn [sr_r sr_version].
    rewrite E'. cbn [sr_Term sr_FirstRev]. apply ReadEntryVersion_length in E'. cbn in E'. apply IH. lia.
  - assert (acc `prefix_of` (read_all (S g) (mkSR (mkReader (p ++ q) e2) t fr v) acc).1) as Hp.
    { destruct (read_all_app (S g) (mkSR (mkReader (p ++ q) e2) t fr v) acc) as [l ->]. by apply prefix_app_r. }
    cbn [read_all] in Hp. by destruct er.
Qed.

(** The entries of a whole segment. *)
Definition entries_of (content : bytes) : list Entry :=
  match segmentEntries (mkReader content ErrEOF) with Ok es => es | Err _ => [] end.

Lemma segmentEntries_body rd content es :
  body_of rd content → segmentEntries rd = Ok es →
  es `prefix_of` entries_of content ∧ (r_err rd = ErrEOF → es = entries_of content).
Proof.
  destruct rd as [p e1]. intros [[q ->] Heof] Hes. cbn in *. split.
  - unfold entries_of, segmentEntries in *. unfold newSegmentReader in *.
    destruct (read_full segHeaderLen (mkReader p e1)) as [[hdr|er] r1] eqn:E1; [|done].
    apply (read_full_more _ p e1 hdr r1 q ErrEOF) in E1 as (p1 & -> & ->). simp_res.
    destruct (_ || _); [done|]. destruct (_ || _); [done|]. simp_res. injection Hes as <-.
    apply read_all_more. cbn. lia.
  - intros ->. specialize (Heof eq_refl). unfold entries_of. rewrite <- Heof, Hes. done.
Qed.

(** ** Merging *)

Lemma entry_le_total : Total entry_le.
Proof. intros a b. unfold entry_le. lia. Qed.
Lemma entry_le_trans : Transitive entry_le.
Proof. intros a b c. unfold entry_le. lia. Qed.

Lemma sortEntries_spec all : StronglySorted entry_le (sortEntries all) ∧ sortEntries all ≡ₚ all.
Proof.
  pose proof entry_le_total. pose proof entry_le_trans.
  split; [apply StronglySorted_merge_sort; apply _|apply merge_sort_Permutation].
Qed.

(** The reversed accumulator: strictly decreasing sequences, and one entry of
    the highest term for every sequence seen. *)
Record merge_inv (seen acc : list Entry) : Prop := {
  mv_sub : ∀ e, e ∈ acc → e ∈ seen;
  mv_sorted : StronglySorted (flip seq_lt) acc;
  mv_cover : ∀ e, e ∈ seen → ∃ m, m ∈ acc ∧ Sequence m = Sequence e ∧ e_Term e ≤ e_Term m }.

Lemma merge1_inv seen acc e :
  merge_inv seen acc → (∀ x, x ∈ seen → entry_le x e) → merge_inv (seen ++ [e]) (merge1 acc e).
Proof.
  intros [H1 H2 H3] Hle. unfold merge1. destruct acc as [|l acc'].
  - split; [intros x ->%list_elem_of_singleton; apply elem_of_app; right; by left|repeat constructor|].
    intros x [Hx| ->%list_elem_of_singleton]%elem_of_app; [|exists e; by split; [left|]].
    destruct (H3 x Hx) as (m & ?%not_elem_of_nil & _). done.
  - inversion_clear H2 as [|? ? H2' Hf]. rewrite Forall_forall in Hf.
    assert (l ∈ seen) as Hl by (apply H1; by left). pose proof (Hle l Hl) as Hlle.
    destruct (Z.eqb_spec (Sequence l) (Sequence e)) as [Heq|Hne].
    + rewrite (proj2 (Z.leb_le _ _)) by (unfold entry_le in Hlle; lia). split.
      * intros x [->|Hx]%elem_of_cons; apply elem_of_app; [right; by left|left; apply H1; by right].
      * constructor; [done|]. apply Forall_forall. intros x Hx. specialize (Hf x Hx).
        unfold flip, seq_lt in *. lia.
      * intros x [Hx| ->%list_elem_of_singleton]%elem_of_app; [|exists e; by split; [left|]].
        destruct (H3 x Hx) as (m & [->|Hm]%elem_of_cons & Hs & Ht).
        -- exists e. split; [by left|]. split; [lia|]. unfold entry_le in Hlle. lia.
        -- exists m. split; [by right|done].
    + split.
      * intros x [->|Hx]%elem_of_cons; apply elem_of_app; [right; by left|left; by apply H1].
      * constructor; [by constructor; [|apply Forall_forall]|]. apply Forall_forall.
        intros x Hx. pose proof (Hle x (H1 x Hx)) as Hxe. unfold flip, seq_lt, entry_le in *.
        apply elem_of_cons in Hx as [->|Hx]; [lia|]. specialize (Hf x Hx). cbn in Hf. lia.
      * intros x [Hx| ->%list_elem_of_singleton]%elem_of_app; [|exists e; by split; [left|]].
        destruct (H3 x Hx) as (m & Hm & Hs). exists m. split; [by right|done].
Qed.

Lemma merge_fold es : ∀ seen acc,
  merge_inv seen acc → StronglySorted entry_le es → (∀ x e, x ∈ seen → e ∈ es → entry_le x e) →
  merge_inv (seen ++ es) (fold_left merge1 es acc).
Proof.
  induction es as [|e es IH]; intros seen acc Hinv Hs Hle; cbn; [by rewrite app_nil_r|].
  inversion_clear Hs as [|? ? Hs' Hf]. rewrite Forall_forall in Hf.
  rewrite (cons_middle e seen es), app_assoc. apply IH; [|done|].
  - apply merge1_inv; [done|]. intros x Hx. apply Hle; [done|by left].
  - intros x y [Hx| ->%list_elem_of_singleton]%elem_of_app Hy; [apply Hle; [done|by right]|by apply Hf].
Qed.

Lemma rev_sorted {A} (R : relation A) (l : list A) : StronglySorted (flip R) l → StronglySorted R (rev l).
Proof.
  induction 1 as [|x l Hl IH Hf]; [constructor|]. cbn. apply StronglySorted_snoc; [done|].
  intros y Hy. rewrite Forall_forall in Hf. apply (Hf y). by apply list_elem_of_In, in_rev, list_elem_of_In.
Qed.

Lemma mergeEntries_spec all :
  StronglySorted seq_lt (mergeEntries all) ∧ (∀ e, e ∈ mergeEntries all → e ∈ all) ∧
  ∀ e, e ∈ all → ∃ m, m ∈ mergeEntries all ∧ Sequence m = Sequence e ∧ e_Term e ≤ e_Term m.
Proof.
  destruct (sortEntries_spec all) as [Hs Hp].
  destruct (merge_fold (sortEntries all) [] []) as [H1 H2 H3]; [|done|by intros x e ?%not_elem_of_nil|].
  { split; [by intros e ?%not_elem_of_nil|constructor|by intros e ?%not_elem_of_nil]. }
  assert (∀ e l, e ∈ rev l ↔ e ∈ (l : list Entry)) as Hrev
    by (intros e l; rewrite !list_elem_of_In; symmetry; apply in_rev).
  cbn in *. unfold mergeEntries. split; [by apply rev_sorted|]. split.
  - intros e He%Hrev%H1. by rewrite Hp in He.
  - intros e He. rewrite <- Hp in He. destruct (H3 e He) as (m & Hm & Hr). exists m. split; [by apply Hrev|done].
Qed.

(** A strictly sorted list with consecutive sequences, taken from a strictly
    sorted log that starts no earlier, is the beginning of the log. *)
Lemma checkSequence_run D : ∀ start l,
  StronglySorted seq_lt D → (∀ e, e ∈ D → start ≤ Sequence e < max_int64) → is_i64 start →
  checkSequence start l = Ok tt → StronglySorted seq_lt l → (∀ e, e ∈ l → e ∈ D) → l = take (length l) D.
Proof.
  intros start l. revert D start. induction l as [|b l IH]; intros D start Hs Hge Hi Hc Hl Hin; [done|].
  cbn in Hc. destruct (Z.eqb_spec (Sequence b) start) as [Hb|]; [|done]. cbn [negb] in Hc.
  pose proof (Hin b ltac:(by left)) as Hx. destruct D as [|d D']; [by apply not_elem_of_nil in Hx|].
  inversion_clear Hs as [|? ? Hs' Hf]. inversion_clear Hl as [|? ? Hl' Hfl]. rewrite Forall_forall in Hf, Hfl.
  pose proof (Hge d ltac:(by left)) as Hd. unfold max_int64, is_i64, seq_lt in *.
  assert (b = d) as ->.
  { apply elem_of_cons in Hx as [->|Hx]; [done|]. specialize (Hf b Hx). lia. }
  cbn [length take]. f_equal. rewrite i64_id in Hc by (unfold is_i64; lia).
  apply (IH D' (start + 1)); [done| |lia|done|done|].
  - intros e He. specialize (Hf e He). specialize (Hge e ltac:(by right)). lia.
  - intros e He. specialize (Hin e ltac:(by right)). apply elem_of_cons in Hin as [->|?]; [|done].
    specialize (Hfl d He). lia.
Qed.

(** ** Fetching *)

Section Fetch.
Context {S DB : Type} `{OI : ObjectStore S} `{OOk : !ObjectStoreOk S} `{PI : Pebble DB} `{POk : !PebbleOk DB}.

(** The entries of an uploaded segment that the replay uses. *)
Definition survives (o : gmap bytes bytes) (keys : list bytes) (afterSeq : Z) (e : Entry) : Prop :=
  ∃ key content, key ∈ keys ∧ o !! key = Some content ∧ e ∈ entries_of content ∧
    afterSeq < Sequence e < default 0 (walTermCutoffs keys !! (parseWALKey key).1).

(** Every body is delivered completely. *)
Definition reliable : Prop := ∀ k s rd s', obj_Get (S := S) k s = (Ok rd, s') → r_err rd = ErrEOF.

Lemma fetch_spec (cutoff : gmap Z Z) afterSeq keys : ∀ s r s',
  fetchSegments cutoff afterSeq keys s = (r, s') →
  objects s' = objects s ∧
  match r with
  | Err _ => True
  | Ok all =>
      (∀ e, e ∈ all → ∃ key content, key ∈ keys ∧ objects s !! key = Some content ∧ e ∈ entries_of content ∧
         afterSeq < Sequence e < default 0 (cutoff !! (parseWALKey key).1)) ∧
      (reliable → ∀ e key content, key ∈ keys → objects s !! key = Some content → e ∈ entries_of content →
         afterSeq < Sequence e < default 0 (cutoff !! (parseWALKey key).1) → e ∈ all)
  end.
Proof using OOk.
  induction keys as [|key keys IH]; intros s r s'; cbn [fetchSegments].
  { intros [= <- <-]. split; [done|]. split; [by intros e ?%not_elem_of_nil|].
    by intros _ e key content ?%not_elem_of_nil. }
  unfold mbind, ST_bind, from_result, mret, ST_ret. destruct (obj_Get key s) as [[rd|er] s1] eqn:E1.
  2:{ intros [= <- <-]. apply obj_Get_law in E1 as [-> _]. done. }
  pose proof E1 as E1'. apply obj_Get_law in E1 as (Ho1 & content & Hc & Hbody).
  destruct (segmentEntries rd) as [es|er] eqn:Ese; [|by intros [= <- <-]].
  destruct (segmentEntries_body rd content es Hbody Ese) as [Hpre Hall].
  destruct (fetchSegments cutoff afterSeq keys s1) as [r2 s2] eqn:E2. apply IH in E2 as [Ho2 Hr2].
  rewrite Ho1 in Ho2, Hr2. destruct r2 as [rest|er]; intros [= <- <-]; [|done]. split; [done|].
  destruct Hr2 as [Hs1 Hs2]. split.
  - intros e [He|He]%elem_of_app.
    + apply list_elem_of_filter in He as [Hrange He]. exists key, content. split; [by left|]. split; [done|].
      split; [|done]. destruct Hpre as [k ->]. apply elem_of_app. by left.
    + destruct (Hs1 e He) as (key' & c' & ? & ?). exists key', c'. split; [by right|done].
  - intros Hrel e key' c' [->|Hk]%elem_of_cons Hc' He Hrange; apply elem_of_app.
    + left. apply list_elem_of_filter. split; [done|]. rewrite Hc in Hc'. injection Hc' as <-.
      rewrite Hall; [done|]. by apply (Hrel key s rd s1).
    + right. by apply (Hs2 Hrel e key' c').
Qed.

Lemma batch_ok_take rev seq c C k : batch_ok rev seq c C → batch_ok rev seq c (take k C).
Proof using. intros Hb. rewrite <- (take_drop k C) in Hb. by apply batch_ok_app in Hb as [? _]. Qed.

(** What a run of [replayRemote] does, step by step. *)
Lemma replayRemote_run afterSeq s (db : Store DB) r s' db' :
  replayRemote afterSeq (s, db) = (r, (s', db')) →
  objects s' = objects s ∧
  (db' = db ∧ is_ok r = false ∨
   ∃ keys all, Object.listing (str "wal/") (objects s) keys ∧
     (∀ e, e ∈ all → survives (objects s) keys afterSeq e) ∧
     (reliable → ∀ e, survives (objects s) keys afterSeq e → e ∈ all) ∧
     (all = [] ∧ r = Ok tt ∧ db' = db ∨
      checkSequence (i64 (afterSeq + 1)) (mergeEntries all) = Ok tt ∧ Recover (mergeEntries all) db = (r, db'))).
Proof using OOk.
  unfold replayRemote, mbind, ST_bind, zoom, from_result, mret, ST_ret. cbn [fst snd].
  destruct (obj_List (str "wal/") s) as [[keys|e] s1] eqn:E1; apply obj_List_law in E1 as [Ho1 Hl].
  2:{ intros [= <- <- <-]. split; [done|]. by left. }
  cbn [fst snd]. destruct (fetchSegments (walTermCutoffs keys) afterSeq keys s1) as [[all|e] s2] eqn:E2; apply fetch_spec in E2 as [Ho2 Hf]; rewrite Ho1 in Ho2.
  2:{ cbn [fst snd]. intros [= <- <- <-]. split; [done|]. by left. }
  rewrite Ho1 in Hf. destruct Hf as [Hf1 Hf2]. cbn [fst snd].
  assert (∀ e, e ∈ all → survives (objects s) keys afterSeq e) as Hs1 by exact Hf1.
  assert (reliable → ∀ e, survives (objects s) keys afterSeq e → e ∈ all) as Hs2.
  { intros Hrel e (key & content & Hk & Hc & He & Hr). by apply (Hf2 Hrel e key content). }
  destruct all as [|e0 es] eqn:Ea.
  { intros [= <- <- <-]. split; [done|]. right. exists keys, []. split_and!; try done. by left. }
  rewrite <- Ea in *. cbn [fst snd]. destruct (checkSequence _ (mergeEntries all)) as [[]|e] eqn:Ec.
  2:{ intros [= <- <- <-]. split; [done|]. by left. }
  destruct (Recover (mergeEntries all) db) as [r3 db3] eqn:Er. intros [= <- <- <-]. split; [done|].
  right. exists keys, all. split_and!; try done. right. done.
Qed.

Section Exact.
Context (H : hist) (C : list Entry) (db : Store DB) (s : S).
Context (Hrel : Rel db H) (HC : batch_ok (st_currentRev db) (st_lastSeq db) (st_compactRev db) C).
Context (Hmax : ∀ e, e ∈ C → Sequence e < max_int64).
Context (Hlog : ∀ keys e, Object.listing (str "wal/") (objects s) keys → survives (objects s) keys (st_lastSeq db) e → e ∈ C).

Lemma merged_prefix all keys :
  Object.listing (str "wal/") (objects s) keys → (∀ e, e ∈ all → survives (objects s) keys (st_lastSeq db) e) → all ≠ [] →
  checkSequence (i64 (st_lastSeq db + 1)) (mergeEntries all) = Ok tt →
  mergeEntries all = take (length (mergeEntries all)) C ∧ ∀ e, e ∈ all → e ∈ mergeEntries all.
Proof using Hrel HC Hmax Hlog.
  intros Hl Hall Hne Hc. destruct (mergeEntries_spec all) as (Hs & Hsub & Hcov).
  destruct (batch_ok_seq _ _ _ _ HC) as [HsC Hgt]. pose proof (re_bound _ _ Hrel) as [Hb0 Hb1].
  assert (∀ e, e ∈ all → e ∈ C) as HallC by (intros e He; apply (Hlog keys); [done|by apply Hall]).
  destruct all as [|e0 es] eqn:Ea; [done|]. rewrite <- Ea in *.
  assert (e0 ∈ C) as He0 by (apply HallC; rewrite Ea; by left).
  pose proof (Hmax e0 He0). pose proof (Hgt e0 He0). unfold max_int64 in *.
  rewrite i64_id in Hc by (unfold is_i64; lia). split.
  - apply (checkSequence_run C (st_lastSeq db + 1)); try done; [|unfold is_i64; lia|].
    + intros e He. pose proof (Hgt e He). pose proof (Hmax e He). unfold max_int64 in *. lia.
    + intros e He. by apply HallC, Hsub.
  - intros e He. destruct (Hcov e He) as (m & Hm & Hseq & _). assert (m = e) as <-; [|done].
    assert (m ∈ C) as HmC by by apply HallC, Hsub. apply HallC in He.
    clear -HsC Hseq HmC He. induction HsC as [|x l Hl IH Hf]; [by apply not_elem_of_nil in He|].
    rewrite Forall_forall in Hf. unfold seq_lt in Hf.
    apply elem_of_cons in HmC as [->|Hm]; apply elem_of_cons in He as [->|He]; try done.
    + specialize (Hf e He). lia.
    + specialize (Hf m Hm). lia.
    + by apply IH.
Qed.

(** C13. A remote replay extends the history by a beginning of the log: if the
    uploaded entries that the term cutoffs leave belong to one log continuing
    the store, then a replay that succeeds has applied its first entries
    without a gap, all of the uploaded ones when every body arrived complete,
    and a replay that fails has left the database as it was or with a
    beginning of the log. *)
Theorem replay_remote_prefix r s' db' :
  replayRemote (st_lastSeq db) (s, db) = (r, (s', db')) →
  objects s' = objects s ∧
  match r with
  | Ok _ => ∃ k, Rel db' (H ++ batch_log (take k C)) ∧
      (reliable → ∀ keys e, Object.listing (str "wal/") (objects s) keys →
         survives (objects s) keys (st_lastSeq db) e → e ∈ take k C)
  | Err _ => db' = db ∨ ∃ k, all_or_nothing db H (batch_log (take k C)) db'
  end.
Proof using All.
  intros Hr. apply replayRemote_run in Hr as [Ho Hr]. split; [done|].
  destruct Hr as [[-> Hf]|(keys & all & Hl & Hall & Hback & Hr)]; [destruct r; [done|by left]|].
  assert (∀ keys', Object.listing (str "wal/") (objects s) keys' → keys' = keys) as Huniq
    by (intros keys' Hl'; by apply (Object.listing_unique (str "wal/") (objects s))).
  destruct Hr as [(-> & -> & ->)|[Hc Hrec]].
  { exists 0%nat. cbn. rewrite app_nil_r. split; [done|]. intros Hre keys' e Hl' He. rewrite (Huniq keys' Hl') in He.
    by apply (Hback Hre). }
  destruct (decide (all = [])) as [->|Hne].
  { change (mergeEntries []) with (@nil Entry) in *. injection Hrec as <- <-. exists 0%nat. cbn. rewrite app_nil_r. split; [done|].
    intros Hre keys' e Hl' He. rewrite (Huniq keys' Hl') in He. by apply (Hback Hre). }
  destruct (merged_prefix all keys Hl Hall Hne Hc) as [Hm Hin]. set (k := length (mergeEntries all)) in *.
  rewrite Hm in Hrec. pose proof (Recover_refines db H (take k C) r db' Hrel (batch_ok_take _ _ _ _ k HC) Hrec) as Href.
  destruct r as [[]|e]; [|right; by exists k]. exists k. split; [done|].
  intros Hre keys' e Hl' He. rewrite (Huniq keys' Hl') in He. rewrite <- Hm. by apply Hin, (Hback Hre).
Qed.
End Exact.
End Fetch.

(** ** A leader change, a hole and a broken body *)

Section Samples.
#[local] Notation DBM := (gmap bytes bytes).

Definition seg_object (term firstRev : Z) (es : list Entry) : Mem → Mem :=
  insert (ObjectKey term firstRev) (mkMemObj (seg_content term firstRev es) []).

(** Term 1 wrote sequences 1 to 3; term 2 took over after sequence 2. *)
Definition old_entries : list Entry :=
  [ mkEntry 1 1 1 OpCreate key_a (str "v1") 0 1 0 1; mkEntry 2 2 1 OpUpdate key_a (str "v2") 0 1 1 2;
    mkEntry 3 3 1 OpUpdate key_a (str "lost") 0 1 2 3 ].
Definition new_entries : list Entry := [ mkEntry 3 3 2 OpCreate key_b (str "w1") 0 3 0 1 ].
Definition two_terms : Mem := seg_object 1 1 old_entries (seg_object 2 3 new_entries ∅).
Definition merged_log : list Entry := take 2 old_entries ++ new_entries.

Lemma merged_log_ok : batch_ok 0 0 0 merged_log.
Proof using. apply (bool_decide_unpack _). by vm_compute. Qed.

Lemma two_terms_keys keys :
  Object.listing (str "wal/") (objects two_terms) keys → keys = [ObjectKey 1 1; ObjectKey 2 3].
Proof using.
  intros Hl. rewrite (Object.listing_unique _ _ _ _ Hl (mem_listing (str "wal/") two_terms)). by vm_compute.
Qed.

Lemma two_terms_survivors keys e :
  Object.listing (str "wal/") (objects two_terms) keys → survives (objects two_terms) keys 0 e → e ∈ merged_log.
Proof using.
  intros ->%two_terms_keys (key & content & Hk & Hc & He & Hr).
  apply elem_of_cons in Hk as [->|Hk]; [|apply list_elem_of_singleton in Hk as ->].
  all: vm_compute in Hc; injection Hc as <-.
  all: match type of He with _ ∈ ?l => let v := eval vm_compute in l in change l with v in He end.
  all: match type of Hr with _ < _ < ?c => let v := eval vm_compute in c in change c with v in Hr end.
  all: repeat (apply elem_of_cons in He as [->|He]); try by apply not_elem_of_nil in He.
  all: try (vm_compute in Hr; by destruct Hr as [_ Hr]; discriminate Hr).
  all: apply (bool_decide_unpack _); by vm_compute.
Qed.

Lemma mem_reliable : reliable (S := Mem).
Proof using. intros k s rd s'. cbn. unfold mem_Get. destruct (s !! k); [|done]. by intros [= <- <-]. Qed.

Lemma run_split {A B C} (x : A * (B * C)) (a : A) : x.1 = a → x = (a, (x.2.1, x.2.2)).
Proof using. by destruct x as [? [? ?]]; cbn; intros ->. Qed.

(** The witness: the replay over both terms ends with term 2's entry, and the
    superseded one is gone. *)
Lemma replay_remote_prefix_witness :
  ∃ (s' : Mem) (db' : Store DBM) k, replayRemote 0 (two_terms, empty_store) = (Ok tt, (s', db')) ∧
    Rel db' (batch_log (take k merged_log)) ∧ last new_entries = last (take k merged_log).
Proof using.
  assert (∀ e, e ∈ merged_log → Sequence e < max_int64) as Hmax
    by (apply Forall_forall; apply (bool_decide_unpack _); by vm_compute).
  assert ((replayRemote 0 (two_terms, (empty_store : Store DBM))).1 = Ok tt) as Hok by by vm_compute.
  apply run_split in Hok as Hr.
  destruct (replay_remote_prefix [] merged_log empty_store two_terms empty_rel merged_log_ok Hmax
    two_terms_survivors (Ok tt) _ _ Hr) as [_ (k & Hrel & Hall)].
  eexists _, _, k. split; [exact Hr|]. split; [exact Hrel|].
  specialize (Hall mem_reliable _ (hd entry_a new_entries) (mem_listing (str "wal/") two_terms)).
  assert (hd entry_a new_entries ∈ take k merged_log) as Hin.
  { apply Hall. exists (ObjectKey 2 3), (seg_content 2 3 new_entries). split; [|split; [by vm_compute|split]].
    - rewrite (two_terms_keys _ (mem_listing (str "wal/") two_terms)). right. by left.
    - apply (bool_decide_unpack _). by vm_compute.
    - rewrite (two_terms_keys _ (mem_listing (str "wal/") two_terms)). split; vm_compute; reflexivity. }
  destruct k as [|[|[|k]]]; [| | |by rewrite (take_ge merged_log) by (change (length merged_log) with 3%nat; lia)].
  all: exfalso; revert Hin; apply (bool_decide_unpack _); by vm_compute.
Defined.

(** A cancelled batch (see [cancelled_batch_phantom]) leaves a sequence that
    no entry has: a fresh node cannot replay the uploaded log, however complete. *)
Theorem cancelled_batch_blocks_replay :
  let log := n_wal cancelled_node in
  map Sequence log = [2] ∧
  (replayRemote 0 (seg_object 1 1 log ∅, (empty_store : Store DBM))).1
    = Err (ErrText "replayRemote: missing sequence(s)").
Proof using. split; vm_compute; reflexivity. Qed.

(** An object store whose bodies break off after [n] bytes. *)
Section Broken.
Context (n : nat).
Definition broken_Get (key : bytes) : ST Mem reader := λ m,
  match m !! key with
  | Some o => (Ok (mkReader (take n (mo_data o)) (ErrText "connection reset by peer")), m)
  | None => (Err ErrNotFound, m)
  end.
Definition broken_store : ObjectStore Mem :=
  {| obj_Put := mem_Put; obj_Get := broken_Get; obj_Delete := mem_Delete;
     obj_DeleteMany := mem_DeleteMany; obj_List := mem_List |}.
End Broken.

(** A body that breaks off inside the last segment loses its last entries and
    the replay still succeeds: the store ends two revisions short. *)
Theorem replay_broken_body :
  let up := seg_object 1 1 old_entries ∅ in
  let run := replayRemote (OI := broken_store 100) 0 (up, (empty_store : Store DBM)) in
  run.1 = Ok tt ∧ st_currentRev run.2.2 = 1 ∧
  st_currentRev (replayRemote 0 (up, (empty_store : Store DBM))).2.2 = 3.
Proof using. split; [|split]; vm_compute; reflexivity. Qed.
End Samples.
