(* ===== verification/WalGc.v ===== *)
(** * Garbage collection of the log and replay

    Deleting the uploaded segments a checkpoint covers changes nothing for a
    replay that starts at the checkpoint, also across leader changes, where
    segments of different terms overlap and the term cutoffs of the replay are
    computed from the segments that are left. *)

From S2P Require Import Prelude Bytes Decimal WalEntry Os WalSegment Object Wal WalRecovery Pebble StoreKeys Store WalReplay WalReplayProps.

(** ** Object keys *)

Definition seg_ok (t f : Z) : Prop := 0 ≤ t < 10 ^ 10 ∧ 0 ≤ f < 2 ^ 63.

Lemma ObjectKey_digits t f : seg_ok t f → ObjectKey t f = str "wal/" ++ digits 10 t ++ str "/" ++ digits 20 f.
Proof. intros [Ht Hf]. unfold ObjectKey. by rewrite !fmt_pad_digits by (cbn; lia). Qed.

Lemma ObjectKey_lt t f t' f' :
  seg_ok t f → seg_ok t' f' → bytes_lt (ObjectKey t f) (ObjectKey t' f') → t < t' ∨ t = t' ∧ f < f'.
Proof.
  intros H H'. rewrite !ObjectKey_digits by done. destruct H as [Ht Hf], H' as [Ht' Hf']. unfold bytes_lt.
  rewrite <- (app_nil_r (digits 20 f)), <- (app_nil_r (digits 20 f')). rewrite bytes_cmp_two_fields by (cbn; lia).
  destruct (Z.compare_spec t t') as [->| |]; [|by left|done]. intros Hlt. right. split; [done|]. by apply Z.compare_lt_iff.
Qed.

Lemma ParseUint_trim_digits n z : 0 ≤ z < 10 ^ Z.of_nat n → z ≤ max_uint64 → (ParseUint (trim_zeros (digits n z))).1 = z.
Proof.
  intros Hz Hm.
  assert (parse_digits (trim_zeros (digits n z)) 0 = (z, None)) as Hp.
  { rewrite <- (Z.add_0_l z) at 2. rewrite <- (Z.mul_0_l (10 ^ Z.of_nat n)). rewrite <- parse_digits_digits by lia.
    induction (digits n z) as [|b s IH]; [done|]. cbn [trim_zeros]. case_bool_decide as Hb; [|done]. subst b. cbn. by rewrite IH. }
  unfold ParseUint. destruct (trim_zeros (digits n z)) as [|b s]; [cbn in Hp; by injection Hp as <-|by rewrite Hp].
Qed.

Lemma parseWALKey_ObjectKey t f : seg_ok t f → parseWALKey (ObjectKey t f) = (t, f).
Proof.
  intros H. unfold parseWALKey, splitN3. rewrite ObjectKey_digits by done. destruct H as [Ht Hf].
  change (str "wal/" ++ ?x) with (str "wal" ++ slash :: x). rewrite cut_byte_first by (repeat constructor; done).
  cbn [mbind option_bind]. change (str "/" ++ ?x) with (slash :: x). rewrite cut_byte_first by apply digits_no_slash.
  cbn [mbind option_bind]. rewrite ParseUint_trim_digits by (unfold max_uint64; cbn; lia).
  by rewrite ParseInt_trim_digits by (cbn; lia).
Qed.

(** ** Cutoffs *)

Lemma minFirstRev_spec keys : ∀ m t,
  (∀ k, k ∈ keys → (parseWALKey k).1 = t → ∃ f, fold_left minFirst1 keys m !! t = Some f ∧ f ≤ (parseWALKey k).2) ∧
  (∀ f0, m !! t = Some f0 → ∃ f, fold_left minFirst1 keys m !! t = Some f ∧ f ≤ f0) ∧
  (∀ f, fold_left minFirst1 keys m !! t = Some f → m !! t = Some f ∨ ∃ k, k ∈ keys ∧ parseWALKey k = (t, f)).
Proof.
  induction keys as [|k keys IH]; intros m t; cbn [fold_left].
  { split; [by intros k ?%not_elem_of_nil|]. split; [intros f0 H; by exists f0|intros f H; by left]. }
  destruct (IH (minFirst1 m k) t) as (H1 & H2 & H3). destruct (parseWALKey k) as [tk fk] eqn:Ek.
  assert (∀ f0, m !! t = Some f0 → ∃ f, minFirst1 m k !! t = Some f ∧ f ≤ f0) as Hup.
  { intros f0 Hf0. unfold minFirst1. rewrite Ek. destruct (decide (t = tk)) as [<-|Hne].
    - rewrite Hf0. destruct (Z.ltb_spec fk f0); [exists fk|exists f0]; by rewrite ?lookup_insert_eq; auto with lia.
    - exists f0. destruct (m !! tk); [destruct (_ <? _)|]; rewrite ?lookup_insert_ne by done; auto with lia. }
  assert (tk = t → ∃ f, minFirst1 m k !! t = Some f ∧ f ≤ fk) as Hnew.
  { intros <-. unfold minFirst1. rewrite Ek. destruct (m !! tk) as [f0|] eqn:Em.
    - destruct (Z.ltb_spec fk f0); [exists fk; by rewrite lookup_insert_eq|exists f0; split; [done|lia]].
    - exists fk. by rewrite lookup_insert_eq. }
  split; [|split].
  - intros k' [->|Hk']%elem_of_cons Ht; [|by apply H1]. rewrite Ek in *. cbn in *.
    destruct (Hnew Ht) as (f1 & Hf1 & Hle). destruct (H2 f1 Hf1) as (f & Hf & Hle'). exists f. split; [done|lia].
  - intros f0 Hf0. destruct (Hup f0 Hf0) as (f1 & Hf1 & Hle). destruct (H2 f1 Hf1) as (f & Hf & Hle'). exists f. split; [done|lia].
  - intros f Hf. destruct (H3 f Hf) as [Hm|(k' & Hk' & Hp)]; [|right; exists k'; split; [by right|done]].
    revert Hm. unfold minFirst1. rewrite Ek. destruct (m !! tk) as [f0|] eqn:Em; [destruct (_ <? _)|];
      rewrite ?lookup_insert_Some; intros Hm; try (by left); (destruct Hm as [[<- <-]|[_ Hm]]; [right|by left]);
      exists k; (split; [by left|done]).
Qed.

Lemma cutoffOf_spec m t x :
  x < cutoffOf m t ↔ x < max_int64 ∧ ∀ t' f, m !! t' = Some f → t < t' → x < f.
Proof.
  unfold cutoffOf. apply (map_fold_weak_ind (λ c (m : gmap Z Z), x < c ↔ x < max_int64 ∧ ∀ t' f, m !! t' = Some f → t < t' → x < f)).
  - split; [|by intros [? _]]. intros Hx. split; [done|]. intros t' f Hf. by rewrite lookup_empty in Hf.
  - intros i f0 m' c Hi IH. destruct (Z.ltb_spec t i) as [Hlt|Hge]; cbn [andb].
    + assert (x < (if f0 <? c then f0 else c) ↔ x < f0 ∧ x < c) as -> by (destruct (Z.ltb_spec f0 c); lia).
      rewrite IH. split.
      * intros (Hf0 & Hmax & Hall). split; [done|]. intros t' f. rewrite lookup_insert_Some. intros [[<- <-]|[_ Hf]]; [done|by eapply Hall].
      * intros [Hmax Hall]. split; [eapply Hall; [apply lookup_insert_eq|done]|]. split; [done|].
        intros t' f Hf. apply Hall. rewrite lookup_insert_ne; [done|]. by intros <-; rewrite Hi in Hf.
    + rewrite IH. split; intros [Hmax Hall]; (split; [done|]); intros t' f.
      * rewrite lookup_insert_Some. intros [[<- <-]|[_ Hf]] Ht'; [lia|by eapply Hall].
      * intros Hf. apply Hall. rewrite lookup_insert_ne; [done|]. by intros <-; rewrite Hi in Hf.
Qed.

(** An entry of a segment is used by a replay if it precedes the first sequence
    of every segment of a later term. *)
Lemma cutoff_spec keys key x :
  key ∈ keys →
  x < default 0 (walTermCutoffs keys !! (parseWALKey key).1) ↔
  x < max_int64 ∧ ∀ k', k' ∈ keys → (parseWALKey key).1 < (parseWALKey k').1 → x < (parseWALKey k').2.
Proof.
  intros Hkey. unfold walTermCutoffs. rewrite map_lookup_imap.
  destruct (minFirstRev_spec keys ∅ (parseWALKey key).1) as (H1 & _ & _). destruct (H1 key Hkey eq_refl) as (f & Hf & _).
  fold (minFirstRev keys) in Hf. rewrite Hf. cbn [mbind option_bind from_option]. unfold id. rewrite cutoffOf_spec. apply and_iff_compat_l. split.
  - intros Hall k' Hk' Ht. destruct (minFirstRev_spec keys ∅ (parseWALKey k').1) as (H1' & _ & _).
    destruct (H1' k' Hk' eq_refl) as (f' & Hf' & Hle). specialize (Hall _ _ Hf' Ht). lia.
  - intros Hall t' f' Hf' Ht. destruct (minFirstRev_spec keys ∅ t') as (_ & _ & H3).
    destruct (H3 f' Hf') as [He|(k' & Hk' & Hp)]; [by rewrite lookup_empty in He|].
    specialize (Hall k' Hk'). rewrite Hp in Hall. by apply Hall.
Qed.

(** ** Collection *)

Lemma sorted_lookup_lt {A} (R : relation A) (l : list A) : StronglySorted R l → ∀ i j x y,
  l !! i = Some x → l !! j = Some y → (i < j)%nat → R x y.
Proof.
  induction 1 as [|z l Hl IH Hf]; intros i j x y Hi Hj Hij; [done|]. destruct j as [|j]; [lia|]. destruct i as [|i].
  - injection Hi as <-. rewrite Forall_forall in Hf. apply Hf. by eapply list_elem_of_lookup_2.
  - eapply (IH i j); [done|done|lia].
Qed.

Section Gc.
Context {S : Type} `{OI : ObjectStore S} `{OOk : !ObjectStoreOk S}.

Lemma GCSegments_deletes cp (s : S) res s' :
  GCSegments cp s = (res, s') →
  ∀ l, Object.listing (str "wal/") (objects s) l →
  ∀ k, objects s' !! k = objects s !! k ∨ k ∈ gc_select l cp ∧ objects s' !! k = None.
Proof using OOk.
  unfold GCSegments. intros Hgc l Hl k. revert Hgc. intros [(l0 & s1 & E1 & E)|(e & E1 & _)]%ST_bind_run;
    apply obj_List_law in E1 as [Ho Hl0]; [|by left; rewrite Ho].
  assert (l0 = l) as -> by (by apply (Object.listing_unique (str "wal/") (objects s))).
  destruct (_ <? _)%nat; [injection E as <- <-; left; by rewrite Ho|].
  destruct (gc_select l cp) as [|k0 ks] eqn:Esel; [injection E as <- <-; left; by rewrite Ho|]. rewrite <- Esel in *.
  destruct (obj_DeleteMany (gc_select l cp) s1) as [r2 s2] eqn:E2. rewrite (try_bind _ _ _ _ _ E2) in E.
  pose proof (obj_DeleteMany_law _ _ _ _ E2 k) as [Hout Hin]. rewrite Ho in *.
  assert (s2 = s') as <- by (destruct r2; by injection E as _ <-).
  destruct (decide (k ∈ gc_select l cp)) as [Hk|Hk]; [|left; by apply Hout]. destruct (Hin Hk) as [?|[_ ?]]; auto.
Qed.

Section Replay.
Context (o o' : gmap bytes bytes) (keys keys' : list bytes) (cp : Z).
Context (Hl : Object.listing (str "wal/") o keys) (Hl' : Object.listing (str "wal/") o' keys').
Context (Hdel : ∀ k, o' !! k = o !! k ∨ k ∈ gc_select keys cp ∧ o' !! k = None).
Context (Hkeys : ∀ k, k ∈ keys → ∃ t f, k = ObjectKey t f ∧ seg_ok t f).
(** The segments of one term follow each other. *)
Context (Hseg : ∀ t f f' c e, seg_ok t f → seg_ok t f' → ObjectKey t f ∈ keys → ObjectKey t f' ∈ keys → f < f' →
  o !! ObjectKey t f = Some c → e ∈ entries_of c → Sequence e < f').

Lemma kept_key k : k ∈ keys' → k ∈ keys ∧ o' !! k = o !! k.
Proof using Hl Hl' Hdel.
  destruct Hl as [_ Hin], Hl' as [_ Hin']. rewrite Hin, Hin'. intros [Hp [c Hc]]. destruct (Hdel k) as [Heq|[_ Hn]]; [|by rewrite Hn in Hc].
  split; [|done]. split; [done|]. rewrite <- Heq. by exists c.
Qed.

Lemma deleted_key k : k ∈ keys → k ∉ keys' →
  ∃ i k', keys !! i = Some k ∧ keys !! Datatypes.S i = Some k' ∧ (parseWALKey k').2 ≤ cp + 1.
Proof using Hl Hl' Hdel Hkeys.
  intros Hk Hnk. destruct (Hdel k) as [Heq|[Hsel _]].
  { destruct Hl as [_ Hin], Hl' as [_ Hin']. exfalso. apply Hnk, Hin'. rewrite Heq. by apply Hin. }
  destruct (gc_select_spec keys cp k Hsel) as (i & k' & Hi & Hi' & Hle). exists i, k'. split; [done|]. split; [done|].
  destruct (Hkeys k') as (t & f & -> & Hok); [by eapply list_elem_of_lookup_2|]. rewrite parseWALKey_ObjectKey by done.
  destruct Hok as [Ht Hf]. rewrite parseFirstRev_ObjectKey in Hle by (unfold is_u64; lia). rewrite i64_id in Hle by (unfold is_i64; lia). cbn. lia.
Qed.

Lemma key_order i j k k' : keys !! i = Some k → keys !! j = Some k' → (i < j)%nat →
  (parseWALKey k).1 < (parseWALKey k').1 ∨ (parseWALKey k).1 = (parseWALKey k').1 ∧ (parseWALKey k).2 < (parseWALKey k').2.
Proof using Hl Hkeys.
  intros Hi Hj Hij. destruct Hl as [Hs _]. pose proof (sorted_lookup_lt _ _ Hs i j k k' Hi Hj Hij) as Hlt.
  destruct (Hkeys k) as (t & f & -> & Hok); [by eapply list_elem_of_lookup_2|].
  destruct (Hkeys k') as (t' & f' & -> & Hok'); [by eapply list_elem_of_lookup_2|].
  rewrite !parseWALKey_ObjectKey by done. cbn. by apply ObjectKey_lt.
Qed.

(** After a deleted segment comes one that is kept and starts at the
    checkpoint at the latest. *)
Lemma next_kept n : ∀ i k, (length keys - i = n)%nat → keys !! i = Some k → k ∉ keys' →
  ∃ j k', (i < j)%nat ∧ keys !! j = Some k' ∧ k' ∈ keys' ∧ (parseWALKey k').2 ≤ cp + 1.
Proof using Hl Hl' Hdel Hkeys.
  induction n as [|n IH]; intros i k Hn Hi Hk; [apply lookup_lt_Some in Hi; lia|].
  destruct (deleted_key k) as (i' & k' & Hi' & Hnext & Hle); [by eapply list_elem_of_lookup_2|done|].
  assert (i' = i) as ->. { destruct Hl as [Hs _]. apply sorted_NoDup in Hs. by eapply NoDup_lookup. }
  destruct (decide (k' ∈ keys')) as [Hin|Hout]; [exists (Datatypes.S i), k'; split; [lia|done]|].
  destruct (IH (Datatypes.S i) k') as (j & k2 & ? & ? & ? & ?); [lia|done|done|]. exists j, k2. split; [lia|done].
Qed.

Lemma survives_gc afterSeq e : cp ≤ afterSeq → survives o keys afterSeq e ↔ survives o' keys' afterSeq e.
Proof using Hl Hl' Hdel Hkeys Hseg.
  intros Hcp. split.
  - intros (key & c & Hk & Hc & He & Hgt & Hcut). apply cutoff_spec in Hcut as [Hmax Hcut]; [|done].
    assert (key ∈ keys') as Hk'.
    { destruct (decide (key ∈ keys')) as [?|Hout]; [done|exfalso]. destruct (deleted_key key Hk Hout) as (i & k' & Hi & Hi' & Hle).
      assert (k' ∈ keys) as Hkn by (by eapply list_elem_of_lookup_2).
      destruct (key_order i (Datatypes.S i) key k' Hi Hi') as [Hlt|[Heq Hlt]]; [lia|specialize (Hcut k' Hkn Hlt); lia|].
      destruct (Hkeys key Hk) as (t & f & -> & Hok), (Hkeys k' Hkn) as (t' & f' & -> & Hok').
      rewrite !parseWALKey_ObjectKey in * by done. cbn in *. subst t'. specialize (Hseg t f f' c e Hok Hok' Hk Hkn Hlt Hc He). lia. }
    destruct (kept_key key Hk') as [_ Heq]. exists key, c. split; [done|]. split; [by rewrite Heq|]. do 2 (split; [done|]).
    apply cutoff_spec; [done|]. split; [done|]. intros k' Hin. apply Hcut. by apply kept_key.
  - intros (key & c & Hk & Hc & He & Hgt & Hcut). apply cutoff_spec in Hcut as [Hmax Hcut]; [|done].
    destruct (kept_key key Hk) as [Hkk Heq]. exists key, c. split; [done|]. split; [by rewrite <- Heq|]. do 2 (split; [done|]).
    apply cutoff_spec; [done|]. split; [done|]. intros k' Hin Hlt. destruct (decide (k' ∈ keys')) as [?|Hout]; [by apply Hcut|exfalso].
    apply list_elem_of_lookup_1 in Hin as [i Hi]. destruct (next_kept _ i k' eq_refl Hi Hout) as (j & k2 & Hij & Hj & Hk2 & Hle).
    destruct (key_order i j k' k2 Hi Hj Hij) as [Ho|[Ho _]]; specialize (Hcut k2 Hk2); lia.
Qed.
End Replay.

(** C17. Garbage collection of the log is invisible to replays: whatever deletion
    fails, a replay that starts at the checkpoint's sequence or later uses the
    same entries before and after [GCSegments], although the term cutoffs are
    computed from fewer segments; nothing outside wal/ is touched.  Segments
    of one term follow each other, segments of different terms may overlap. *)
Theorem gc_replay_unchanged cp (s : S) res s' keys keys' afterSeq e :
  GCSegments cp s = (res, s') →
  Object.listing (str "wal/") (objects s) keys → Object.listing (str "wal/") (objects s') keys' →
  (∀ k, k ∈ keys → ∃ t f, k = ObjectKey t f ∧ seg_ok t f) →
  (∀ t f f' c e, seg_ok t f → seg_ok t f' → ObjectKey t f ∈ keys → ObjectKey t f' ∈ keys → f < f' →
     objects s !! ObjectKey t f = Some c → e ∈ entries_of c → Sequence e < f') →
  cp ≤ afterSeq →
  (survives (objects s) keys afterSeq e ↔ survives (objects s') keys' afterSeq e) ∧
  ∀ k, has_prefix (str "wal/") k = false → objects s' !! k = objects s !! k.
Proof using OOk.
  intros Hgc Hl Hl' Hkeys Hseg Hcp. pose proof (GCSegments_deletes cp s res s' Hgc keys Hl) as Hdel. split.
  - by eapply survives_gc.
  - intros k Hk. destruct (Hdel k) as [?|[Hsel _]]; [done|]. destruct (gc_select_spec keys cp k Hsel) as (i & ? & Hi & _).
    apply list_elem_of_lookup_2 in Hi. destruct Hl as [_ Hin]. apply Hin in Hi as [Hp _]. by rewrite Hp in Hk.
Qed.
End Gc.

(** The segment of the old term is deleted; a replay from sequence 2 does not
    miss it. *)
Lemma gc_replay_unchanged_witness :
  let s' := (GCSegments 2 two_terms).2 in
  (GCSegments 2 two_terms).1 = Ok 1 ∧
  ∀ e keys', Object.listing (str "wal/") (objects s') keys' →
    survives (objects two_terms) [ObjectKey 1 1; ObjectKey 2 3] 2 e ↔ survives (objects s') keys' 2 e.
Proof.
  split; [vm_compute; reflexivity|]. intros e keys' Hl'.
  pose proof (mem_listing (str "wal/") two_terms) as Hl. rewrite (two_terms_keys _ Hl) in Hl.
  destruct (GCSegments 2 two_terms) as [r s'] eqn:E.
  refine (proj1 (gc_replay_unchanged 2 two_terms r s' [ObjectKey 1 1; ObjectKey 2 3] keys' 2 e E Hl Hl' _ _ (Z.le_refl 2))).
  - intros k Hk. apply list_elem_of_In in Hk. destruct Hk as [<-|[<-|[]]]; eexists _, _; (split; [reflexivity|]); unfold seg_ok; lia.
  - intros t f f' c e0 Hok Hok' Hk Hk' Hlt. exfalso.
    assert (∀ g, seg_ok t g → ObjectKey t g ∈ [ObjectKey 1 1; ObjectKey 2 3] → g = 2 * t - 1) as Hone; [|rewrite (Hone f), (Hone f') in Hlt by done; lia].
    intros g Hg Hin. apply list_elem_of_In in Hin. pose proof (parseWALKey_ObjectKey t g Hg) as Hp.
    destruct Hin as [Hin|[Hin|[]]]; rewrite <- Hin, parseWALKey_ObjectKey in Hp by (unfold seg_ok; lia); injection Hp as <- <-; reflexivity.
Defined.
