(* ===== verification/Election.v ===== *)
(** * Leader election

    internal/election/election.go: the lock object, its JSON record, and the
    operations of [Lock] over an object store.  The clock is an argument. *)

From S2P Require Import Prelude Bytes WalEntry Os Json Object.

Definition LockKey : bytes := str "leader-lock".

Record LockRecord := mkLock {
  lk_NodeID : bytes;
  lk_Term : Z;
  lk_LeaderAddr : bytes;
  lk_LastSeenNano : Z;
  lk_CommittedRev : Z }.

#[global] Instance LockRecord_eq_dec : EqDecision LockRecord.
Proof. solve_decision. Defined.

(** ** The record as JSON *)

Definition lock_json (r : LockRecord) : jval :=
  JObj [ (str "node_id", JStr (lk_NodeID r)); (str "term", jint (lk_Term r));
         (str "leader_addr", JStr (lk_LeaderAddr r)); (str "last_seen_nano", jint (lk_LastSeenNano r));
         (str "committed_rev", jint (lk_CommittedRev r)) ].

Definition zero_lock : LockRecord := mkLock [] 0 [] 0 0.

Definition lock_fields : list (field LockRecord) :=
  [ mk_field "node_id" as_string (λ x r, mkLock x (lk_Term r) (lk_LeaderAddr r) (lk_LastSeenNano r) (lk_CommittedRev r));
    mk_field "term" (as_uint (2 ^ 64 - 1)) (λ x r, mkLock (lk_NodeID r) x (lk_LeaderAddr r) (lk_LastSeenNano r) (lk_CommittedRev r));
    mk_field "leader_addr" as_string (λ x r, mkLock (lk_NodeID r) (lk_Term r) x (lk_LastSeenNano r) (lk_CommittedRev r));
    mk_field "last_seen_nano" as_int (λ x r, mkLock (lk_NodeID r) (lk_Term r) (lk_LeaderAddr r) x (lk_CommittedRev r));
    mk_field "committed_rev" as_int (λ x r, mkLock (lk_NodeID r) (lk_Term r) (lk_LeaderAddr r) (lk_LastSeenNano r) x) ].

Definition marshal_lock (r : LockRecord) : bytes := print (lock_json r).

(** [json.NewDecoder(body).Decode(&rec)]. *)
Definition decode_lock (rd : reader) : result LockRecord := Decode lock_fields zero_lock rd.

(** [bytes.NewReader(b)]. *)
Definition bytes_reader (b : bytes) : reader := mkReader b ErrEOF.

(** ** The lock *)

(** [l_conditional]: the store implements [ConditionalStore]. *)
Record Lock := NewLock { l_nodeID : bytes; l_advertiseAddr : bytes; l_conditional : bool }.

(** A record and the ETag it was read with; no record when the object is
    absent. *)
Record lockWithETag := mkObserved { ob_rec : option LockRecord; ob_etag : bytes }.

Section Lock.
Context {S : Type} `{OI : ObjectStore S} `{CI : !ConditionalStore S}.
Implicit Types l : Lock.

Definition readWithETag l : ST S lockWithETag :=
  if l_conditional l then
    res ← try (obj_GetETag LockKey);
    match res with
    | Err ErrNotFound => mret (mkObserved None [])
    | Err _ => throw (ErrText "election: read lock")
    | Ok (body, etag) =>
        match decode_lock body with
        | Ok rec => mret (mkObserved (Some rec) etag)
        | Err _ => throw (ErrText "election: decode lock")
        end
    end
  else
    res ← try (obj_Get LockKey);
    match res with
    | Err ErrNotFound => mret (mkObserved None [])
    | Err _ => throw (ErrText "election: read lock")
    | Ok body =>
        match decode_lock body with
        | Ok rec => mret (mkObserved (Some rec) [])
        | Err _ => throw (ErrText "election: decode lock")
        end
    end.

Definition Read l : ST S (option LockRecord) := cur ← readWithETag l; mret (ob_rec cur).

Definition ReadETag l : ST S (option LockRecord * bytes) := cur ← readWithETag l; mret (ob_rec cur, ob_etag cur).

(** The term of a new leader. *)
Definition newTerm (floorTerm : Z) (cur : option LockRecord) : Z :=
  let t := u64 (floorTerm + 1) in
  match cur with
  | Some rec => if t <=? lk_Term rec then u64 (lk_Term rec + 1) else t
  | None => t
  end.

(** The write of a candidate that observed [observed]: the record the lock
    holds afterwards, and whether it is the candidate's. *)
Definition writeAtomic l (now term committedRev : Z) (observed : lockWithETag) : ST S (option LockRecord * bool) :=
  let rec := mkLock (l_nodeID l) term (l_advertiseAddr l) now committedRev in
  let b := marshal_lock rec in
  if l_conditional l then
    putErr ← try (match ob_rec observed with
                  | None => obj_PutIfAbsent LockKey (bytes_reader b)
                  | Some _ => obj_PutIfMatch LockKey (bytes_reader b) (ob_etag observed)
                  end);
    match putErr with
    | Ok _ => mret (Some rec, true)
    | Err ErrPreconditionFailed => winner ← Read l; mret (winner, false)
    | Err _ => throw (ErrText "election: conditional write")
    end
  else
    putErr ← try (obj_Put LockKey (bytes_reader b));
    match putErr with
    | Err _ => throw (ErrText "election: write lock")
    | Ok _ =>
        verify ← Read l;
        match verify with
        | Some v =>
            if negb (bool_decide (lk_NodeID v = l_nodeID l)) || negb (lk_Term v =? term) then mret (verify, false)
            else mret (Some rec, true)
        | None => mret (verify, false)
        end
    end.

(** What a candidate does with the lock it read: follow the owner, or write. *)
Definition held_by_other l (cur : option LockRecord) : option LockRecord :=
  match cur with
  | Some rec => if negb (bool_decide (lk_NodeID rec = l_nodeID l)) then Some rec else None
  | None => None
  end.

Definition blocks_takeover l (floorTerm committedRev : Z) (cur : option LockRecord) : option LockRecord :=
  match held_by_other l cur with
  | Some rec => if (floorTerm <? lk_Term rec) || (committedRev <? lk_CommittedRev rec) then Some rec else None
  | None => None
  end.

Definition TryAcquire l (now floorTerm committedRev : Z) : ST S (option LockRecord * bool) :=
  cur ← readWithETag l;
  match held_by_other l (ob_rec cur) with
  | Some rec => mret (Some rec, false)
  | None => writeAtomic l now (newTerm floorTerm (ob_rec cur)) committedRev cur
  end.

Definition TakeOver l (now floorTerm committedRev : Z) : ST S (option LockRecord * bool) :=
  cur ← readWithETag l;
  match blocks_takeover l floorTerm committedRev (ob_rec cur) with
  | Some rec => mret (Some rec, false)
  | None => writeAtomic l now (newTerm floorTerm (ob_rec cur)) committedRev cur
  end.

Definition Release l : ST S () := obj_Delete LockKey.

Definition write (rec : LockRecord) : ST S () :=
  r ← try (obj_Put LockKey (bytes_reader (marshal_lock rec)));
  match r with Ok _ => mret tt | Err _ => throw (ErrText "election: write lock") end.

Definition Touch l (now term : Z) (leaderAddr : bytes) (committedRev : Z) : ST S () :=
  write (mkLock (l_nodeID l) term leaderAddr now committedRev).

Definition TouchIfMatch l (now term : Z) (leaderAddr etag : bytes) (committedRev : Z) : ST S () :=
  if negb (l_conditional l) || bool_decide (etag = []) then Touch l now term leaderAddr committedRev
  else obj_PutIfMatch LockKey (bytes_reader (marshal_lock (mkLock (l_nodeID l) term leaderAddr now committedRev))) etag.
End Lock.
