(* ===== verification/ElectionProps.v ===== *)
(** * One winner per term

    The lock record round-trips through JSON; each operation of [Lock] is
    specified against the object store; and candidates and leaders that
    interleave at every call of the store win elections with strictly
    increasing terms, as long as distinct contents of the lock have distinct
    ETags.  The unconditional touch of a leader that shuts down breaks this. *)

From S2P Require Import Prelude Bytes Decimal WalEntry Os Md5 Json JsonProps Object Election.

(** ** The record *)

Record lock_ok (r : LockRecord) : Prop := {
  lo_id : valid_utf8 (lk_NodeID r) = true;
  lo_term : is_u64 (lk_Term r);
  lo_addr : valid_utf8 (lk_LeaderAddr r) = true;
  lo_seen : is_i64 (lk_LastSeenNano r);
  lo_rev : is_i64 (lk_CommittedRev r) }.

Lemma lock_json_wf r : lock_ok r → jwf maxNestingDepth (lock_json r).
Proof. intros []. unfold lock_json. solve_jwf. Qed.

Lemma lock_decode_val r : lock_ok r → decode_val lock_fields zero_lock (lock_json r) = Some r.
Proof. intros []. unfold decode_val, lock_json. store_fields. by destruct r. Qed.

Lemma decode_marshal r : lock_ok r → decode_lock (bytes_reader (marshal_lock r)) = Ok r.
Proof. intros Hr. apply Decode_print; [by apply lock_json_wf|by apply lock_decode_val]. Qed.

Lemma decode_body r rd r' : lock_ok r → body_of rd (marshal_lock r) → decode_lock rd = Ok r' → r' = r.
Proof.
  intros Hr [Hp _]. apply (Decode_prefix lock_fields zero_lock (lock_json r));
    [by apply lock_json_wf|by apply lock_decode_val|done].
Qed.

(** ** The operations *)

Section Ops.
Context {S : Type} `{OI : ObjectStore S} `{CI : !ConditionalStore S} `{OOk : !ObjectStoreOk S} `{COk : !ConditionalStoreOk S}.
Implicit Types (s : S) (l : Lock).

(** The lock object: absent, or the encoding of a record. *)
Definition lock_at s : option bytes := objects s !! LockKey.
Definition lock_is s (o : option LockRecord) : Prop :=
  match o with Some r => lock_ok r ∧ lock_at s = Some (marshal_lock r) | None => lock_at s = None end.

Lemma lock_is_inj s r r' : lock_is s (Some r) → lock_is s (Some r') → r = r'.
Proof.
  intros [Hr Hc] [Hr' Hc']. assert (marshal_lock r = marshal_lock r') as He by congruence.
  pose proof (decode_marshal r Hr) as Hd. rewrite He, (decode_marshal r' Hr') in Hd. by injection Hd.
Qed.

(** What was read is what the lock holds, with its ETag. *)
Lemma readWithETag_spec l s r s' o :
  l_conditional l = true → lock_is s o → readWithETag l s = (r, s') →
  objects s' = objects s ∧ (∀ k, etag_at s' k = etag_at s k) ∧
  match r with
  | Ok cur => ob_rec cur = o ∧ (is_Some o → etag_at s LockKey = Some (ob_etag cur))
  | Err _ => True
  end.
Proof using COk.
  intros Hc Ho. unfold readWithETag, mbind, ST_bind, try. rewrite Hc.
  destruct (obj_GetETag LockKey s) as [res s1] eqn:E. apply obj_GetETag_law in E as (Ho1 & He & Hres).
  destruct res as [[rd e]|er].
  - destruct Hres as (Het & d & Hd & Hb). destruct (decode_lock rd) as [rec|er] eqn:Ed; intros [= <- <-]; [|done].
    split; [done|]. split; [done|]. cbn. unfold lock_is, lock_at in Ho. destruct o as [r0|]; [|congruence].
    destruct Ho as [Hok Hl]. rewrite Hl in Hd. injection Hd as <-. split; [|done]. f_equal. by apply (decode_body r0 rd).
  - assert (er = ErrNotFound ∨ er ≠ ErrNotFound) as [->|Hne] by (destruct (decide (er = ErrNotFound)); tauto).
    + intros [= <- <-]. split; [done|]. split; [done|]. cbn. unfold lock_is, lock_at in Ho.
      destruct o as [r0|]; [destruct Ho; congruence|]. split; [done|]. by intros [? ?].
    + destruct er; try done; intros [= <- <-]; done.
Qed.

Lemma Read_spec l s r s' o :
  l_conditional l = true → lock_is s o → Read l s = (r, s') →
  objects s' = objects s ∧ (∀ k, etag_at s' k = etag_at s k) ∧ match r with Ok cur => cur = o | Err _ => True end.
Proof using COk.
  intros Hc Ho. unfold Read, mbind, ST_bind. destruct (readWithETag l s) as [[cur|e] s1] eqn:E;
    apply (readWithETag_spec l s _ s1 o Hc Ho) in E as (? & ? & ?); intros [= <- <-]; naive_solver.
Qed.

(** The lock after a conditional write by a candidate that observed [observed]:
    unchanged, or the candidate's record over exactly what was observed. *)
Lemma writeAtomic_spec l now term rev observed s r s' o :
  l_conditional l = true → lock_is s o → lock_ok (mkLock (l_nodeID l) term (l_advertiseAddr l) now rev) →
  writeAtomic l now term rev observed s = (r, s') →
  let rec := mkLock (l_nodeID l) term (l_advertiseAddr l) now rev in
  let matched := match ob_rec observed with
                 | None => o = None
                 | Some _ => is_Some o ∧ etag_at s LockKey = Some (ob_etag observed)
                 end in
  (∀ k, k ≠ LockKey → objects s' !! k = objects s !! k) ∧
  match r with
  | Ok (w, true) => w = Some rec ∧ matched ∧ lock_is s' (Some rec)
  | Ok (w, false) => lock_is s' o ∧ w = o
  | Err _ => lock_is s' o ∨ matched ∧ lock_is s' (Some rec)
  end.
Proof using COk.
  intros Hc Ho Hok. cbv zeta. set (rec := mkLock _ _ _ _ _). unfold writeAtomic. fold rec. rewrite Hc. cbv zeta.
  set (b := bytes_reader (marshal_lock rec)).
  set (matched := match ob_rec observed with None => o = None | Some _ => _ ∧ _ end).
  set (put := match ob_rec observed with None => obj_PutIfAbsent _ _ | Some _ => obj_PutIfMatch _ _ _ end).
  unfold mbind, ST_bind, try. destruct (put s) as [res s1] eqn:E.
  assert (match res with
    | Ok _ => matched ∧ objects s1 = <[LockKey := marshal_lock rec]> (objects s)
    | Err ErrPreconditionFailed => objects s1 = objects s
    | Err _ => objects s1 = objects s ∨ matched ∧ objects s1 = <[LockKey := marshal_lock rec]> (objects s)
    end) as Hput.
  { subst put matched. destruct (ob_rec observed).
    - apply obj_PutIfMatch_law in E. assert (is_Some (objects s !! LockKey) → is_Some o) as Hso.
      { unfold lock_is, lock_at in Ho. destruct o; [by eexists|]. rewrite Ho. by intros []. }
      destruct res as [[]|er]; [naive_solver|]. destruct er; naive_solver.
    - apply obj_PutIfAbsent_law in E. assert (objects s !! LockKey = None → o = None) as Hso.
      { unfold lock_is, lock_at in Ho. destruct o; [|done]. destruct Ho; congruence. }
      destruct res as [[]|er]; [naive_solver|]. destruct er; naive_solver. }
  assert (∀ s2 : S, objects s2 = objects s → lock_is s2 o) as Hsame.
  { intros s2 H2. unfold lock_is, lock_at in *. by rewrite H2. }
  assert (∀ s2 : S, objects s2 = <[LockKey := marshal_lock rec]> (objects s) →
    (∀ k, k ≠ LockKey → objects s2 !! k = objects s !! k) ∧ lock_is s2 (Some rec)) as Hnew.
  { intros s2 H2. split; [intros k Hk; by rewrite H2, lookup_insert_ne|]. split; [done|].
    unfold lock_at. by rewrite H2, lookup_insert_eq. }
  destruct res as [[]|er].
  { destruct Hput as [Hm Hs1]. intros [= <- <-]. destruct (Hnew s1 Hs1) as [? ?]. done. }
  destruct (decide (er = ErrPreconditionFailed)) as [->|Hne].
  - destruct (Read l s1) as [[w|e] s2] eqn:Er; apply (Read_spec l s1 _ s2 o Hc (Hsame s1 Hput)) in Er as (Hr1 & _ & Hw);
      intros [= <- <-]; (split; [intros k _; by rewrite Hr1, Hput|]).
    + split; [|done]. apply Hsame. by rewrite Hr1.
    + left. apply Hsame. by rewrite Hr1.
  - assert (objects s1 = objects s ∨ matched ∧ objects s1 = <[LockKey := marshal_lock rec]> (objects s)) as Hp
      by (destruct er; done).
    intros Heq. assert (s' = s1 ∧ is_ok r = false) as [-> Hr] by (destruct er; try done; by injection Heq as <- <-).
    destruct r as [[]|]; [done|]. destruct Hp as [Hp|[Hm Hp]].
    + split; [intros k _; by rewrite Hp|]. left. by apply Hsame.
    + destruct (Hnew s1 Hp) as [? ?]. split; [done|]. by right.
Qed.

Lemma TouchIfMatch_spec l now term addr etag rev s r s' :
  l_conditional l = true → etag ≠ [] → lock_ok (mkLock (l_nodeID l) term addr now rev) →
  TouchIfMatch l now term addr etag rev s = (r, s') →
  let rec := mkLock (l_nodeID l) term addr now rev in
  (∀ k, k ≠ LockKey → objects s' !! k = objects s !! k) ∧
  match r with
  | Ok _ => etag_at s LockKey = Some etag ∧ is_Some (lock_at s) ∧ lock_is s' (Some rec)
  | Err _ => objects s' = objects s ∨ etag_at s LockKey = Some etag ∧ is_Some (lock_at s) ∧ lock_is s' (Some rec)
  end.
Proof using COk.
  intros Hc He Hok. cbv zeta. set (rec := mkLock _ _ _ _ _). unfold TouchIfMatch. rewrite Hc, bool_decide_eq_false_2 by done.
  cbn [negb orb]. fold rec. intros Hp. apply obj_PutIfMatch_law in Hp.
  assert (∀ s2 : S, objects s2 = <[LockKey := marshal_lock rec]> (objects s) →
    (∀ k, k ≠ LockKey → objects s2 !! k = objects s !! k) ∧ lock_is s2 (Some rec)) as Hnew.
  { intros s2 H2. split; [intros k Hk; by rewrite H2, lookup_insert_ne|]. split; [done|].
    unfold lock_at. by rewrite H2, lookup_insert_eq. }
  destruct r as [[]|er].
  - destruct Hp as (? & ? & ? & Hs'). destruct (Hnew s' Hs'). done.
  - assert (objects s' = objects s ∨ etag_at s LockKey = Some etag ∧ is_Some (lock_at s) ∧
      objects s' = <[LockKey := marshal_lock rec]> (objects s)) as [Hs'|(? & ? & Hs')].
    { destruct er; unfold lock_at; naive_solver. }
    + split; [intros k _; by rewrite Hs'|]. by left.
    + destruct (Hnew s' Hs'). split; [done|]. by right.
Qed.
End Ops.

(** ** Interleaved candidates and leaders *)

Section System.
Context {S : Type} `{OI : ObjectStore S} `{CI : !ConditionalStore S} `{OOk : !ObjectStoreOk S} `{COk : !ConditionalStoreOk S}.
Implicit Types (s : S) (l : Lock).

(** An operation between its read and its write. *)
Inductive intent :=
  | Campaign (l : Lock) (term rev : Z) (observed : lockWithETag)
  | Touching (l : Lock) (term : Z) (etag : bytes).

(** The store, the operations under way, the elections won (latest first), and
    every content of the lock with the ETag it had. *)
Record esys := mkEsys {
  es_store : S;
  es_pending : list intent;
  es_won : list (Z * bytes);
  es_hist : list (bytes * bytes) }.

Definition record_lock s (h : list (bytes * bytes)) : list (bytes * bytes) :=
  match lock_at s, etag_at s LockKey with
  | Some c, Some e => (c, e) :: h
  | _, _ => h
  end.

Definition esys_next (s' : S) (p : list intent) (w : list (Z * bytes)) (y : esys) : esys :=
  mkEsys s' p w (record_lock s' (es_hist y)).

(** Terms stay below the largest 64-bit number. *)
Definition no_wrap (floor : Z) (cur : lockWithETag) : Prop :=
  0 ≤ floor < 2 ^ 64 - 1 ∧ ∀ rec, ob_rec cur = Some rec → lk_Term rec < 2 ^ 64 - 1.

Inductive estep : esys → esys → Prop :=
  | e_try y l floor rev cur s' :
      l_conditional l = true → readWithETag l (es_store y) = (Ok cur, s') →
      held_by_other l (ob_rec cur) = None → no_wrap floor cur →
      estep y (esys_next s' (Campaign l (newTerm floor (ob_rec cur)) rev cur :: es_pending y) (es_won y) y)
  | e_takeover y l floor rev cur s' :
      l_conditional l = true → readWithETag l (es_store y) = (Ok cur, s') →
      blocks_takeover l floor rev (ob_rec cur) = None → no_wrap floor cur →
      estep y (esys_next s' (Campaign l (newTerm floor (ob_rec cur)) rev cur :: es_pending y) (es_won y) y)
  | e_write y p l term rev cur q now r s' :
      es_pending y = p ++ Campaign l term rev cur :: q → l_conditional l = true →
      lock_ok (mkLock (l_nodeID l) term (l_advertiseAddr l) now rev) →
      writeAtomic l now term rev cur (es_store y) = (r, s') →
      estep y (esys_next s' (p ++ q)
        (match r with Ok (_, true) => [(term, l_nodeID l)] | _ => [] end ++ es_won y) y)
  | e_touch_read y l rec etag s' :
      l_conditional l = true → ReadETag l (es_store y) = (Ok (Some rec, etag), s') → etag ≠ [] →
      estep y (esys_next s' (Touching l (lk_Term rec) etag :: es_pending y) (es_won y) y)
  | e_touch y p l term etag q now addr rev r s' :
      es_pending y = p ++ Touching l term etag :: q → l_conditional l = true →
      lock_ok (mkLock (l_nodeID l) term addr now rev) →
      TouchIfMatch l now term addr etag rev (es_store y) = (r, s') →
      estep y (esys_next s' (p ++ q) (es_won y) y)
  | e_other y s' :
      lock_at s' = lock_at (es_store y) →
      estep y (esys_next s' (es_pending y) (es_won y) y).

Definition es_init s : esys := mkEsys s [] [] (record_lock s []).

Definition no_collision (h : list (bytes * bytes)) : Prop :=
  ∀ c c' e, (c, e) ∈ h → (c', e) ∈ h → c = c'.

(** An operation under way saw a record the lock once held. *)
Definition intent_ok (h : list (bytes * bytes)) (i : intent) : Prop :=
  match i with
  | Campaign l term rev cur =>
      ∀ rec, ob_rec cur = Some rec → lock_ok rec ∧ (marshal_lock rec, ob_etag cur) ∈ h ∧ lk_Term rec < term
  | Touching l term etag => ∃ rec, lock_ok rec ∧ (marshal_lock rec, etag) ∈ h ∧ lk_Term rec = term ∧ etag ≠ []
  end.

Record einv (y : esys) : Prop := {
  ei_lock : ∃ o, lock_is (es_store y) o ∧
    match o with None => es_won y = [] | Some r => ∀ w, w ∈ es_won y → w.1 ≤ lk_Term r end;
  ei_cur : ∀ c e, lock_at (es_store y) = Some c → etag_at (es_store y) LockKey = Some e → (c, e) ∈ es_hist y;
  ei_pending : ∀ i, i ∈ es_pending y → intent_ok (es_hist y) i;
  ei_sorted : StronglySorted (λ a b, b.1 < a.1) (es_won y) }.

Lemma newTerm_gt floor cur : no_wrap floor cur →
  floor < newTerm floor (ob_rec cur) < 2 ^ 64 ∧ ∀ rec, ob_rec cur = Some rec → lk_Term rec < newTerm floor (ob_rec cur).
Proof using.
  intros [Hf Hr]. unfold newTerm. rewrite u64_id by (unfold is_u64; lia). destruct (ob_rec cur) as [rec|].
  - specialize (Hr rec eq_refl). destruct (Z.leb_spec (floor + 1) (lk_Term rec)).
    + rewrite u64_id by (unfold is_u64; lia). split; [lia|]. intros ? [= <-]. lia.
    + split; [lia|]. intros ? [= <-]. lia.
  - split; [lia|done].
Qed.

Lemma record_lock_hist s h x : x ∈ h → x ∈ record_lock s h.
Proof using. unfold record_lock. repeat case_match; try done. intros. by right. Qed.

Lemma record_lock_cur s h c e : lock_at s = Some c → etag_at s LockKey = Some e → (c, e) ∈ record_lock s h.
Proof using. unfold record_lock. intros -> ->. by left. Qed.

Lemma intent_ok_mono h h' i : (∀ x, x ∈ h → x ∈ h') → intent_ok h i → intent_ok h' i.
Proof using. destruct i; cbn; naive_solver. Qed.

(** A step that leaves the lock as it is. *)
Lemma einv_same y s' p :
  einv y → (∀ o, lock_is (es_store y) o → lock_is s' o) →
  (∀ i, i ∈ p → intent_ok (record_lock s' (es_hist y)) i) →
  einv (esys_next s' p (es_won y) y).
Proof using.
  intros [(o & Hl & Hw) Hc Hp Hs] Hlock Hpend. split; [|intros c e; apply record_lock_cur|done|done].
  exists o. split; [by apply Hlock|done].
Qed.

(** A step that writes a record whose term is no smaller. *)
Lemma einv_write y s' p o r won :
  einv y → lock_is (es_store y) o → lock_is s' (Some r) →
  (∀ r0, o = Some r0 → lk_Term r0 ≤ lk_Term r) →
  (∀ w, w ∈ won → w.1 = lk_Term r ∧ ∀ r0, o = Some r0 → lk_Term r0 < lk_Term r) → (length won ≤ 1)%nat →
  (∀ i, i ∈ p → intent_ok (record_lock s' (es_hist y)) i) →
  einv (esys_next s' p (won ++ es_won y) y).
Proof using.
  intros [(o' & Hl' & Hw) Hc Hp Hs] Hl Hl2 Hle Hwon Hlen Hpend.
  assert (o' = o) as ->.
  { destruct o, o'; [f_equal; by apply (lock_is_inj (es_store y))|..|done];
      cbn in *; [destruct Hl; congruence|destruct Hl'; congruence]. }
  assert (∀ w, w ∈ es_won y → w.1 ≤ lk_Term r ∧ (won ≠ [] → w.1 < lk_Term r)) as Hold.
  { intros w Hin. destruct o as [r0|]; [|rewrite Hw in Hin; by apply not_elem_of_nil in Hin].
    specialize (Hw w Hin). specialize (Hle r0 eq_refl). split; [lia|]. intros Hne. destruct won as [|w0 won]; [done|].
    destruct (Hwon w0 ltac:(by left)) as [_ H0]. specialize (H0 r0 eq_refl). lia. }
  split; [|intros c e; apply record_lock_cur|done|].
  - exists (Some r). split; [done|]. intros w [Hin|Hin]%elem_of_app; [|by apply Hold].
    destruct (Hwon w Hin) as [-> _]. lia.
  - cbn. destruct won as [|w0 [|w1 won]]; [done| |cbn in Hlen; lia]. constructor; [done|].
    apply Forall_forall. intros w Hin. destruct (Hwon w0 ltac:(by left)) as [-> _]. by apply Hold.
Qed.

Lemma einv_step y y' : einv y → estep y y' → no_collision (es_hist y') → einv y'.
Proof using COk.
  intros Hinv Hstep. pose proof Hinv as [(o & Hl & Hw) Hcur Hp Hs].
  assert (∀ s' h i, intent_ok h i → intent_ok (record_lock s' h) i) as Hmono
    by (intros s' h i; apply intent_ok_mono, record_lock_hist).
  assert (∀ s', objects s' = objects (es_store y) → ∀ o, lock_is (es_store y) o → lock_is s' o) as Hsame
    by (intros s' Ho o'; unfold lock_is, lock_at; by rewrite Ho).
  assert (∀ l cur s', l_conditional l = true → readWithETag l (es_store y) = (Ok cur, s') →
    objects s' = objects (es_store y) ∧ ob_rec cur = o ∧
    ∀ rec, ob_rec cur = Some rec → lock_ok rec ∧ (marshal_lock rec, ob_etag cur) ∈ es_hist y) as Hread.
  { intros l cur s' Hc Hr. apply (readWithETag_spec l _ _ _ o Hc Hl) in Hr as (Ho & _ & Hrec & Het).
    split; [done|]. split; [done|]. intros rec He. rewrite Hrec in He. rewrite He in Hl. destruct Hl as [Hok Hlk].
    split; [done|]. apply Hcur; [done|]. apply Het. by exists rec. }
  destruct Hstep as [y l floor rev cur s' Hc Hr Hb Hnw|y l floor rev cur s' Hc Hr Hb Hnw
    |y p l term rev cur q now r s' Hpend Hc Hok Hr|y l rec etag s' Hc Hr He|y p l term etag q now addr rev r s' Hpend Hc Hok Hr|y s' Hsm];
    cbn [es_hist esys_next]; intros Hnc.
  1, 2: destruct (Hread l cur s' Hc Hr) as (Ho & Hrec & Hin); destruct (newTerm_gt floor cur Hnw) as [_ Hgt];
    apply einv_same; [done|by apply Hsame|]; intros i [->|Hi]%elem_of_cons; [|by apply Hmono, Hp];
    apply Hmono; intros rec Heq; destruct (Hin rec Heq); auto.
  - destruct (writeAtomic_spec l now term rev cur _ r s' o Hc Hl Hok Hr) as [_ Hr']. clear Hr. rename Hr' into Hr.
    assert (∀ i, i ∈ p ++ q → intent_ok (record_lock s' (es_hist y)) i) as Hpq.
    { intros i Hi. apply Hmono, Hp. rewrite Hpend. apply elem_of_app in Hi as [?|?]; apply elem_of_app; [by left|by right; right]. }
    assert (intent_ok (es_hist y) (Campaign l term rev cur)) as Hint.
    { apply Hp. rewrite Hpend. apply elem_of_app. right. by left. }
    assert (match ob_rec cur with None => o = None | Some _ => is_Some o ∧ etag_at (es_store y) LockKey = Some (ob_etag cur) end →
      ∀ r0, o = Some r0 → lk_Term r0 < term) as Hlt.
    { intros Hm r0 ->. destruct (ob_rec cur) as [rc|] eqn:Erc; [|done]. destruct Hm as [_ Het].
      destruct (Hint rc Erc) as (Hrc & Hh & Ht). destruct Hl as [Hok0 Hl0].
      assert (marshal_lock r0 = marshal_lock rc) as Heq.
      { apply (Hnc _ _ (ob_etag cur)); apply record_lock_hist; [by apply Hcur|done]. }
      rewrite (lock_is_inj (es_store y) r0 rc); [done|done|]. split; [done|]. by rewrite <- Heq. }
    set (rec := mkLock _ _ _ _ _) in *.
    assert (∀ won, won = [] ∨ won = [(term, l_nodeID l)] → (∀ r0, o = Some r0 → lk_Term r0 < term) → lock_is s' (Some rec) →
      einv (esys_next s' (p ++ q) (won ++ es_won y) y)) as Hnew.
    { intros won Hwon Hlt' Hl'. apply (einv_write y s' (p ++ q) o rec won); try done.
      - intros r0 Hr0. specialize (Hlt' r0 Hr0). cbn. lia.
      - intros w Hwin. destruct Hwon as [->| ->]; [by apply not_elem_of_nil in Hwin|].
        apply list_elem_of_singleton in Hwin as ->. done.
      - destruct Hwon as [->| ->]; cbn; lia. }
    assert (lock_is s' o → einv (esys_next s' (p ++ q) (es_won y) y)) as Hold.
    { intros Hl'. apply einv_same; [done| |done]. intros o' Ho'. destruct o as [r0|], o' as [r1|]; cbn in *.
      - by rewrite <- (lock_is_inj (es_store y) r0 r1).
      - destruct Hl; congruence.
      - destruct Ho'; congruence.
      - done. }
    destruct r as [[w []]|e].
    + destruct Hr as (_ & Hm & Hl'). apply Hnew; [by right|by apply Hlt|done].
    + apply Hold, Hr.
    + destruct Hr as [Hl'|[Hm Hl']]; [by apply Hold|]. apply (Hnew []); [by left|by apply Hlt|done].
  - unfold ReadETag, mbind, ST_bind in Hr. destruct (readWithETag l (es_store y)) as [[cur|er] s1] eqn:E; [|done].
    injection Hr as Hr1 Hr2 <-. destruct (Hread l cur s1 Hc E) as (Ho & Hrec & Hin).
    apply einv_same; [done|by apply Hsame|]. intros i [->|Hi]%elem_of_cons; [|by apply Hmono, Hp].
    apply Hmono. destruct (Hin rec Hr1) as [Hok Hh]. exists rec. subst etag. done.
  - assert (∀ i, i ∈ p ++ q → intent_ok (record_lock s' (es_hist y)) i) as Hpq.
    { intros i Hi. apply Hmono, Hp. rewrite Hpend. apply elem_of_app in Hi as [?|?]; apply elem_of_app; [by left|by right; right]. }
    assert (intent_ok (es_hist y) (Touching l term etag)) as (rec & Hrok & Hh & Ht & Hne).
    { apply Hp. rewrite Hpend. apply elem_of_app. right. by left. }
    destruct (TouchIfMatch_spec l now term addr etag rev _ r s' Hc Hne Hok Hr) as [_ Hr']. clear Hr. rename Hr' into Hr.
    assert (etag_at (es_store y) LockKey = Some etag → is_Some (lock_at (es_store y)) → lock_is s' (Some (mkLock (l_nodeID l) term addr now rev)) →
      einv (esys_next s' (p ++ q) (es_won y) y)) as Hnew.
    { intros Het [c Hc0] Hl'. apply (einv_write y s' (p ++ q) o (mkLock (l_nodeID l) term addr now rev) []); try done; [|by intros w ?%not_elem_of_nil|cbn; lia].
      intros r0 ->. destruct Hl as [Hok0 Hl0]. cbn.
      assert (marshal_lock r0 = marshal_lock rec) as Heq.
      { apply (Hnc _ _ etag); apply record_lock_hist; [by apply Hcur|done]. }
      rewrite (lock_is_inj (es_store y) r0 rec); [lia|done|]. split; [done|]. by rewrite <- Heq. }
    destruct r as [[]|e].
    + destruct Hr as (Het & Hls & Hl'). by apply Hnew.
    + destruct Hr as [Hs'|(Het & Hls & Hl')]; [|by apply Hnew]. apply einv_same; [done|by apply Hsame|done].
  - apply einv_same; [done| |by intros i Hi; apply Hmono, Hp]. intros o'. unfold lock_is. by rewrite Hsm.
Qed.

Lemma estep_hist y y' x : estep y y' → x ∈ es_hist y → x ∈ es_hist y'.
Proof using. destruct 1; apply record_lock_hist. Qed.

Lemma einv_reachable s0 o y :
  lock_is s0 o → rtc estep (es_init s0) y → no_collision (es_hist y) → einv y.
Proof using COk.
  intros Hl Hr. revert y Hr. apply (rtc_ind_r (λ y, no_collision (es_hist y) → einv y)).
  - intros _. split; [|intros c e; apply record_lock_cur|by intros i ?%not_elem_of_nil|constructor].
    exists o. split; [done|]. destruct o; [by intros w ?%not_elem_of_nil|done].
  - intros y y' Hr Hstep IH Hnc. eapply einv_step; [|done|done]. apply IH. intros c c' e H1 H2.
    apply (Hnc c c' e); by eapply estep_hist.
Qed.


(** C12. A takeover never discards what the old leader committed: a node that wins
    by [TakeOver] found the lock free, its own, or held at a term it had
    observed by a leader whose committed revision is not above its own; its
    term is above the one it replaces and above its own, and the lock is now
    its record.  A node that loses is told who holds the lock, which is
    unchanged. *)
Theorem takeover_fenced l now floor rev s o r s' :
  l_conditional l = true → lock_is s o → no_wrap floor (mkObserved o []) →
  valid_utf8 (l_nodeID l) = true → valid_utf8 (l_advertiseAddr l) = true → is_i64 now → is_i64 rev →
  TakeOver l now floor rev s = (r, s') →
  match r with
  | Ok (w, true) => ∃ rec, w = Some rec ∧ lock_is s' w ∧ lk_NodeID rec = l_nodeID l ∧ floor < lk_Term rec ∧
      lk_CommittedRev rec = rev ∧
      ∀ old, o = Some old → lk_Term old < lk_Term rec ∧
        (lk_NodeID old ≠ l_nodeID l → lk_Term old ≤ floor ∧ lk_CommittedRev old ≤ rev)
  | Ok (w, false) => lock_is s' o ∧ w = o
  | Err _ => lock_is s' o ∨ ∃ rec, lock_is s' (Some rec) ∧ lk_NodeID rec = l_nodeID l ∧ ∀ old, o = Some old → lk_Term old < lk_Term rec
  end.
Proof using COk.
  intros Hc Hl Hnw Hid Haddr Hnow Hrev. unfold TakeOver, mbind, ST_bind.
  destruct (readWithETag l s) as [[cur|e] s1] eqn:E;
    destruct (readWithETag_spec l s _ s1 o Hc Hl E) as (Ho & _ & Hcur).
  2:{ intros [= <- <-]. left. unfold lock_is, lock_at in *. by rewrite Ho. }
  destruct Hcur as [Hrec _]. assert (lock_is s1 o) as Hl1 by (unfold lock_is, lock_at in *; by rewrite Ho).
  rewrite Hrec. destruct (blocks_takeover l floor rev o) as [old|] eqn:Eb.
  { intros [= <- <-]. split; [done|]. unfold blocks_takeover, held_by_other in Eb.
    destruct o as [r0|]; [|done]. repeat case_match; congruence. }
  destruct (newTerm_gt floor (mkObserved o []) Hnw) as [Ht Hgt]. cbn [ob_rec] in Ht, Hgt. destruct Hnw as [Hf _].
  intros Hw. apply (writeAtomic_spec l now (newTerm floor o) rev cur s1 r s' o Hc Hl1) in Hw as [_ Hw].
  2:{ split; cbn; try done. unfold is_u64. lia. }
  destruct r as [[w []]|e]; [|done|].
  - destruct Hw as (-> & _ & Hl'). eexists. split; [done|]. split; [done|]. cbn. split; [done|]. split; [lia|]. split; [done|].
    intros old ->. split; [by apply Hgt|]. intros Hne. unfold blocks_takeover, held_by_other in Eb.
    rewrite bool_decide_eq_false_2 in Eb by done. cbn [negb] in Eb.
    destruct (_ || _) eqn:Eor; [done|]. apply orb_false_iff in Eor as [?%Z.ltb_ge ?%Z.ltb_ge]. lia.
  - destruct Hw as [Hw|[_ Hw]]; [by left|]. right. eexists. split; [done|]. by cbn.
Qed.
End System.

(** ** Two candidates over the in-memory store *)

Section Samples.
Definition lock_a : Lock := NewLock (str "a") (str "a:1") true.
Definition lock_b : Lock := NewLock (str "b") (str "b:1") true.
Definition lock_c : Lock := NewLock (str "c") (str "c:1") true.

#[local] Notation sys := (esys (S := Mem)).

Definition read_of (l : Lock) (y : sys) : lockWithETag :=
  match (readWithETag l (es_store y)).1 with Ok cur => cur | Err _ => mkObserved None [] end.
Definition run_read (l : Lock) (floor : Z) (y : sys) : sys :=
  esys_next (readWithETag l (es_store y)).2
    (Campaign l (newTerm floor (ob_rec (read_of l y))) 0 (read_of l y) :: es_pending y) (es_won y) y.

(** Both candidates find no lock; [a] writes first, [b] loses, then takes over. *)
Definition ey0 : sys := es_init ∅.
Definition ey1 : sys := run_read lock_a 0 ey0.
Definition ey2 : sys := run_read lock_b 0 ey1.
Definition run_write (l : Lock) (now term : Z) (cur : lockWithETag) (p : list intent) (y : sys) : sys :=
  let r := writeAtomic l now term 0 cur (es_store y) in
  esys_next r.2 p (match r.1 with Ok (_, true) => [(term, l_nodeID l)] | _ => [] end ++ es_won y) y.
Definition ey3 : sys := run_write lock_a 7 1 (mkObserved None []) [Campaign lock_b 1 0 (mkObserved None [])] ey2.
Definition ey4 : sys := run_write lock_b 8 1 (mkObserved None []) [] ey3.
Definition ey5 : sys := run_read lock_b 1 ey4.
Definition ey6 : sys := run_write lock_b 9 2 (read_of lock_b ey4) [] ey5.

Lemma ok_pair {A B} (x : result A * B) (a : A) : x.1 = Ok a → x = (Ok a, x.2).
Proof using. by destruct x; cbn; intros ->. Qed.

Lemma try_step (l : Lock) (floor : Z) (y : sys) :
  l_conditional l = true → (readWithETag l (es_store y)).1 = Ok (read_of l y) →
  held_by_other l (ob_rec (read_of l y)) = None → no_wrap floor (read_of l y) → estep y (run_read l floor y).
Proof using. intros Hc Hr Hh Hn. by apply (e_try y l floor 0 (read_of l y)), Hn; [|apply ok_pair|]. Qed.

Lemma takeover_step (l : Lock) (floor : Z) (y : sys) :
  l_conditional l = true → (readWithETag l (es_store y)).1 = Ok (read_of l y) →
  blocks_takeover l floor 0 (ob_rec (read_of l y)) = None → no_wrap floor (read_of l y) → estep y (run_read l floor y).
Proof using. intros Hc Hr Hh Hn. by apply (e_takeover y l floor 0 (read_of l y)), Hn; [|apply ok_pair|]. Qed.

Lemma write_step (l : Lock) (now term : Z) (cur : lockWithETag) (p q : list intent) (y : sys) :
  es_pending y = p ++ Campaign l term 0 cur :: q → l_conditional l = true →
  lock_ok (mkLock (l_nodeID l) term (l_advertiseAddr l) now 0) → estep y (run_write l now term cur (p ++ q) y).
Proof using.
  intros Hp Hc Hok. unfold run_write. eapply (e_write y p l term 0 cur q now); [done..|]. apply surjective_pairing.
Qed.

Lemma sample_lock_ok id now term addr :
  valid_utf8 id = true → valid_utf8 addr = true → 0 ≤ now < 100 → 0 ≤ term < 100 → lock_ok (mkLock id term addr now 0).
Proof using. intros. split; cbn; try done; unfold is_u64, is_i64; lia. Qed.

Definition collision_free (h : list (bytes * bytes)) : Prop :=
  Forall (λ x, Forall (λ y, x.2 = y.2 → x.1 = y.1) h) h.
Lemma collision_free_spec h : collision_free h → no_collision h.
Proof using.
  intros Hf c c' e H1 H2. unfold collision_free in Hf. rewrite Forall_forall in Hf. specialize (Hf _ H1).
  rewrite Forall_forall in Hf. by apply (Hf _ H2).
Qed.


Definition rec_a : LockRecord := mkLock (str "a") 1 (str "a:1") 7 0.

Lemma takeover_fenced_witness :
  ∃ rec s', TakeOver lock_b 9 1 0 (es_store ey3) = (Ok (Some rec, true), s') ∧
    lk_Term rec_a < lk_Term rec ∧ lk_CommittedRev rec_a ≤ 0.
Proof using.
  assert (lock_is (es_store ey3) (Some rec_a)) as Hl
    by (split; [by apply sample_lock_ok|vm_compute; reflexivity]).
  assert (no_wrap 1 (mkObserved (Some rec_a) [])) as Hn by (split; [lia|]; intros rec [= <-]; by vm_compute).
  assert (∃ rec, (TakeOver lock_b 9 1 0 (es_store ey3)).1 = Ok (Some rec, true)) as [rec Hr]
    by (eexists; vm_compute; reflexivity).
  apply ok_pair in Hr. exists rec, (TakeOver lock_b 9 1 0 (es_store ey3)).2. split; [exact Hr|].
  destruct (takeover_fenced lock_b 9 1 0 (es_store ey3) (Some rec_a) _ _ eq_refl Hl Hn eq_refl eq_refl
    ltac:(unfold is_i64; lia) ltac:(unfold is_i64; lia) Hr) as (rec' & [= <-] & _ & _ & _ & _ & Hold).
  destruct (Hold rec_a eq_refl) as [Ht Hf]. split; [exact Ht|]. apply Hf. vm_compute. discriminate.
Defined.

(** A leader that was deposed and then shuts down touches the lock without
    reading it: it puts its own old term back, and the next candidate wins a
    term that already has a leader. *)
Definition deposed_run : ST Mem (list (option Z)) :=
  let won (x : option LockRecord * bool) := if x.2 then lk_Term <$> x.1 else None in
  a ← TryAcquire lock_a 1 0 0;
  b ← TakeOver lock_b 2 1 0;
  Touch lock_a 3 1 (str "a:1") 0;;
  c ← TakeOver lock_c 4 1 0;
  mret [won a; won b; won c].

Theorem shutdown_touch_reuses_term : (deposed_run ∅).1 = Ok [Some 1; Some 2; Some 2].
Proof using. vm_compute. reflexivity. Qed.
End Samples.
