(* ===== verification/Sha256.v ===== *)
(** * SHA-256

    [crypto/sha256] of the Go standard library: checkpoints name SST files by
    the hash of their content (internal/checkpoint/checkpoint.go). *)

From S2P Require Import Prelude Bytes Md5.

(** The round constants and the initial state as FIPS 180-4 defines them: the
    first 32 bits of the fractional parts of the cube roots of the first 64
    primes, and of the square roots of the first 8. *)
Definition is_prime (n : nat) : bool := forallb (λ d, negb (n mod d =? 0)%nat) (seq 2 (n - 2)).
Definition primes : list Z := Eval vm_compute in map Z.of_nat (List.filter is_prime (seq 2 310)).

(** The integer cube root, bit by bit from [2 ^ i]. *)
Fixpoint icbrt (i : nat) (r n : Z) : Z :=
  let r' := r + 2 ^ Z.of_nat i in
  let r := if r' * r' * r' <=? n then r' else r in
  match i with O => r | S i' => icbrt i' r n end.

Definition sha_K : list Z := Eval vm_compute in map (λ p, u32 (icbrt 35 0 (p * 2 ^ 96))) primes.
Definition sha_H : list Z := Eval vm_compute in map (λ p, u32 (Z.sqrt (p * 2 ^ 64))) (take 8 primes).

Definition rotr32 (x s : Z) : Z := u32 (Z.lor (Z.shiftr x s) (Z.shiftl x (32 - s))).
Definition xor3 (a b c : Z) : Z := Z.lxor a (Z.lxor b c).

(** The message schedule, latest word first. *)
Definition sha_next (ws : list Z) : list Z :=
  let w i := default 0 (ws !! i) in
  let s0 := xor3 (rotr32 (w 14%nat) 7) (rotr32 (w 14%nat) 18) (Z.shiftr (w 14%nat) 3) in
  let s1 := xor3 (rotr32 (w 1%nat) 17) (rotr32 (w 1%nat) 19) (Z.shiftr (w 1%nat) 10) in
  u32 (w 15%nat + s0 + w 6%nat + s1) :: ws.

Definition sha_schedule (block : bytes) : list Z :=
  rev (Nat.iter 48 sha_next (rev (map (λ i, unbe (slice (4 * i) (4 * i + 4) block)) (seq 0 16)))).

Definition sha_round (st : list Z) (kw : Z * Z) : list Z :=
  match st with
  | [a; b; c; d; e; f; g; h] =>
      let s1 := xor3 (rotr32 e 6) (rotr32 e 11) (rotr32 e 25) in
      let ch := Z.lxor (Z.land e f) (Z.land (not32 e) g) in
      let t1 := u32 (h + s1 + ch + kw.1 + kw.2) in
      let s0 := xor3 (rotr32 a 2) (rotr32 a 13) (rotr32 a 22) in
      let maj := xor3 (Z.land a b) (Z.land a c) (Z.land b c) in
      [u32 (t1 + u32 (s0 + maj)); a; b; c; u32 (d + t1); e; f; g]
  | _ => st
  end.

Definition sha_block (st : list Z) (block : bytes) : list Z :=
  zip_with (λ x y, u32 (x + y)) st (fold_left sha_round (zip sha_K (sha_schedule block)) st).

Fixpoint sha_blocks (n : nat) (st : list Z) (data : bytes) : list Z :=
  match n with
  | O => st
  | S m => sha_blocks m (sha_block st (take 64 data)) (drop 64 data)
  end.

Definition sha_pad (data : bytes) : bytes :=
  data ++ [x80] ++ replicate ((119 - length data mod 64) mod 64) x00 ++ be 8 (8 * zlen data).

Definition sha256 (data : bytes) : bytes :=
  let p := sha_pad data in concat (map (be 4) (sha_blocks (length p / 64) sha_H p)).

Example sha256_empty :
  hex (sha256 []) = str "e3b0c44298fc1c149afbf4c8996fb92427ae41e4649b934ca495991b7852b855".
Proof. vm_compute. reflexivity. Qed.

Example sha256_abc :
  hex (sha256 (str "abc")) = str "ba7816bf8f01cfea414140de5dae2223b00361a396177a9cb410ff61f20015ad".
Proof. vm_compute. reflexivity. Qed.

Example sha256_two_blocks :
  hex (sha256 (str "abcdbcdecdefdefgefghfghighijhijkijkljklmklmnlmnomnopnopq"))
    = str "248d6a61d20638b8e5c026930c3e6039a33ce45964ff2167f6ecedd419db06c1".
Proof. vm_compute. reflexivity. Qed.
