(* ===== verification/Checkpoint.v ===== *)
(** * Checkpoints in object storage

    internal/checkpoint (checkpoint.go, branch.go) and fork.go: the manifest
    and the index of a checkpoint, writing a checkpoint, restoring it, listing
    and garbage collection, and branches.

    The state is the world (local files and the object store) and, for branch
    nodes, the store of the ancestor.  The files that a Pebble checkpoint puts
    in a directory come from the engine and are an argument.  An error that the
    code wraps is represented by its cause, which is what [errors.Is] sees. *)

From S2P Require Import Prelude Bytes Decimal WalEntry Os Md5 Json Object Sha256.

(** ** Keys *)

Definition CheckpointFormatVersion : Z := 1.
Definition ManifestKey : bytes := str "manifest/latest".

Definition CheckpointKey (term revision : Z) : bytes :=
  str "checkpoint/" ++ fmt_pad 10 term ++ str "/" ++ fmt_pad 20 revision.
Definition CheckpointIndexKey (term revision : Z) : bytes := CheckpointKey term revision ++ str "/manifest.json".
Definition metaKey (term revision : Z) (name : bytes) : bytes := CheckpointKey term revision ++ str "/" ++ name.

Definition sst_key (content name : bytes) : bytes :=
  str "sst/" ++ hex (take 8 (sha256 content)) ++ str "/" ++ name.

(** [filepath.Base] of a path that does not end in a slash: what follows the
    last one. *)
Fixpoint base_name (p : bytes) : bytes :=
  match p with
  | [] => []
  | b :: p' => if bool_decide (x2f ∈ p') then base_name p' else if bool_decide (b = x2f) then p' else p
  end.

(** [key[:strings.LastIndex(key, "/")+1]]. *)
Definition dir_prefix (key : bytes) : bytes :=
  if bool_decide (x2f ∈ key) then take (length key - length (base_name key)) key else [].

(** [strings.TrimSuffix]. *)
Definition trim_suffix (suf s : bytes) : bytes := if has_suffix suf s then take (length s - length suf) s else s.

(** ** The manifest and the index *)

Record Manifest := mkManifest {
  mf_FormatVersion : Z;
  mf_CheckpointKey : bytes;
  mf_Revision : Z;
  mf_LastSequence : Z;
  mf_Term : Z;
  mf_LastWALKey : bytes }.

Definition manifest_json (m : Manifest) : jval :=
  JObj (omitempty "format_version" (mf_FormatVersion m =? 0) (jint (mf_FormatVersion m)) ++
        [(str "checkpoint_key", JStr (mf_CheckpointKey m)); (str "revision", jint (mf_Revision m))] ++
        omitempty "last_sequence" (mf_LastSequence m =? 0) (jint (mf_LastSequence m)) ++
        [(str "term", jint (mf_Term m))] ++
        omitempty "last_wal_key" (bool_decide (mf_LastWALKey m = [])) (JStr (mf_LastWALKey m))).

Definition zero_manifest : Manifest := mkManifest 0 [] 0 0 0 [].

Definition manifest_fields : list (field Manifest) :=
  [ mk_field "format_version" (as_uint (2 ^ 32 - 1)) (λ x m, mkManifest x (mf_CheckpointKey m) (mf_Revision m) (mf_LastSequence m) (mf_Term m) (mf_LastWALKey m));
    mk_field "checkpoint_key" as_string (λ x m, mkManifest (mf_FormatVersion m) x (mf_Revision m) (mf_LastSequence m) (mf_Term m) (mf_LastWALKey m));
    mk_field "revision" as_int (λ x m, mkManifest (mf_FormatVersion m) (mf_CheckpointKey m) x (mf_LastSequence m) (mf_Term m) (mf_LastWALKey m));
    mk_field "last_sequence" as_int (λ x m, mkManifest (mf_FormatVersion m) (mf_CheckpointKey m) (mf_Revision m) x (mf_Term m) (mf_LastWALKey m));
    mk_field "term" (as_uint (2 ^ 64 - 1)) (λ x m, mkManifest (mf_FormatVersion m) (mf_CheckpointKey m) (mf_Revision m) (mf_LastSequence m) x (mf_LastWALKey m));
    mk_field "last_wal_key" as_string (λ x m, mkManifest (mf_FormatVersion m) (mf_CheckpointKey m) (mf_Revision m) (mf_LastSequence m) (mf_Term m) x) ].

Record CheckpointIndex := mkIndex {
  ix_FormatVersion : Z;
  ix_Term : Z;
  ix_Revision : Z;
  ix_LastSequence : Z;
  ix_SSTFiles : list bytes;
  ix_AncestorSSTFiles : list bytes;
  ix_PebbleMeta : list bytes }.

Definition index_json (i : CheckpointIndex) : jval :=
  JObj (omitempty "format_version" (ix_FormatVersion i =? 0) (jint (ix_FormatVersion i)) ++
        [(str "term", jint (ix_Term i)); (str "revision", jint (ix_Revision i))] ++
        omitempty "last_sequence" (ix_LastSequence i =? 0) (jint (ix_LastSequence i)) ++
        [(str "sst_files", jstrings (ix_SSTFiles i))] ++
        omitempty "ancestor_sst_files" (bool_decide (ix_AncestorSSTFiles i = [])) (jstrings (ix_AncestorSSTFiles i)) ++
        [(str "pebble_meta", jstrings (ix_PebbleMeta i))]).

Definition zero_index : CheckpointIndex := mkIndex 0 0 0 0 [] [] [].

Definition index_fields : list (field CheckpointIndex) :=
  [ mk_field "format_version" (as_uint (2 ^ 32 - 1)) (λ x i, mkIndex x (ix_Term i) (ix_Revision i) (ix_LastSequence i) (ix_SSTFiles i) (ix_AncestorSSTFiles i) (ix_PebbleMeta i));
    mk_field "term" (as_uint (2 ^ 64 - 1)) (λ x i, mkIndex (ix_FormatVersion i) x (ix_Revision i) (ix_LastSequence i) (ix_SSTFiles i) (ix_AncestorSSTFiles i) (ix_PebbleMeta i));
    mk_field "revision" as_int (λ x i, mkIndex (ix_FormatVersion i) (ix_Term i) x (ix_LastSequence i) (ix_SSTFiles i) (ix_AncestorSSTFiles i) (ix_PebbleMeta i));
    mk_field "last_sequence" as_int (λ x i, mkIndex (ix_FormatVersion i) (ix_Term i) (ix_Revision i) x (ix_SSTFiles i) (ix_AncestorSSTFiles i) (ix_PebbleMeta i));
    mk_field "sst_files" as_strings (λ x i, mkIndex (ix_FormatVersion i) (ix_Term i) (ix_Revision i) (ix_LastSequence i) x (ix_AncestorSSTFiles i) (ix_PebbleMeta i));
    mk_field "ancestor_sst_files" as_strings (λ x i, mkIndex (ix_FormatVersion i) (ix_Term i) (ix_Revision i) (ix_LastSequence i) (ix_SSTFiles i) x (ix_PebbleMeta i));
    mk_field "pebble_meta" as_strings (λ x i, mkIndex (ix_FormatVersion i) (ix_Term i) (ix_Revision i) (ix_LastSequence i) (ix_SSTFiles i) (ix_AncestorSSTFiles i) x) ].

(** [LastSequence == 0] was written by a version without the field. *)
Definition manifest_default (m : Manifest) : Manifest :=
  if mf_LastSequence m =? 0
  then mkManifest (mf_FormatVersion m) (mf_CheckpointKey m) (mf_Revision m) (mf_Revision m) (mf_Term m) (mf_LastWALKey m) else m.
Definition index_default (i : CheckpointIndex) : CheckpointIndex :=
  if ix_LastSequence i =? 0
  then mkIndex (ix_FormatVersion i) (ix_Term i) (ix_Revision i) (ix_Revision i) (ix_SSTFiles i) (ix_AncestorSSTFiles i) (ix_PebbleMeta i) else i.

Definition errFormat : err := ErrText "checkpoint: format_version is newer than supported".

(** ** Manifest and index objects *)

Section Store.
Context {S : Type} `{OI : ObjectStore S}.

Definition ReadManifest : ST S (option Manifest) :=
  r ← try (obj_Get ManifestKey);
  match r with
  | Err ErrNotFound => mret None
  | Err e => throw e
  | Ok rc =>
      m ← from_result (Decode manifest_fields zero_manifest rc);
      if CheckpointFormatVersion <? mf_FormatVersion m then throw errFormat
      else mret (Some (manifest_default m))
  end.

Definition WriteManifest (m : Manifest) : ST S () :=
  obj_Put ManifestKey (mkReader (print (manifest_json m)) ErrEOF).

Definition ReadCheckpointIndex (key : bytes) : ST S CheckpointIndex :=
  rc ← obj_Get key;
  i ← from_result (Decode index_fields zero_index rc);
  if CheckpointFormatVersion <? ix_FormatVersion i then throw errFormat
  else mret (index_default i).

Definition writeIndex (term revision sequence : Z) (lastWALKey : bytes)
    (sstFiles ancestorSSTFiles metaFiles : list bytes) : ST S () :=
  let indexKey := CheckpointIndexKey term revision in
  let idx := mkIndex CheckpointFormatVersion term revision sequence sstFiles ancestorSSTFiles metaFiles in
  obj_Put indexKey (mkReader (print (index_json idx)) ErrEOF);;
  WriteManifest (mkManifest CheckpointFormatVersion indexKey revision sequence term lastWALKey).

Definition listSSTSet : ST S (gset bytes) := keys ← obj_List (str "sst/"); mret (list_to_set keys).

(** ** Listing *)

Definition ListRemote : ST S (list bytes) :=
  keys ← obj_List (str "checkpoint/");
  mret (sort_bytes (filter (λ k, has_suffix (str "/manifest.json") k = true) keys)).

(** ** Branches *)

Record BranchEntry := mkBranch { br_AncestorCheckpointKey : bytes }.

Definition branch_json (e : BranchEntry) : jval :=
  JObj [(str "ancestor_checkpoint_key", JStr (br_AncestorCheckpointKey e))].
Definition branch_fields : list (field BranchEntry) :=
  [ mk_field "ancestor_checkpoint_key" as_string (λ x _, mkBranch x) ].

Definition branchKey (id : bytes) : bytes := str "branches/" ++ id.

Definition RegisterBranch (id ancestorCheckpointKey : bytes) : ST S () :=
  obj_Put (branchKey id) (mkReader (print (branch_json (mkBranch ancestorCheckpointKey))) ErrEOF).

Definition UnregisterBranch (id : bytes) : ST S () := obj_Delete (branchKey id).

Fixpoint readBranches (keys : list bytes) : ST S (gmap bytes BranchEntry) :=
  match keys with
  | [] => mret ∅
  | k :: keys' =>
      r ← try (obj_Get k);
      match r with
      | Err ErrNotFound => readBranches keys'
      | Err e => throw e
      | Ok rc =>
          e ← from_result (Decode branch_fields (mkBranch []) rc);
          rest ← readBranches keys';
          mret (<[drop (length (str "branches/")) k := e]> rest)
      end
  end.

Definition ReadBranchEntries : ST S (gmap bytes BranchEntry) :=
  keys ← obj_List (str "branches/"); readBranches keys.

Definition Fork (branchID : bytes) : ST S bytes :=
  manifest ← ReadManifest;
  match manifest with
  | None => throw (ErrText "fork: no checkpoint found in source store")
  | Some m => RegisterBranch branchID (mf_CheckpointKey m);; mret (mf_CheckpointKey m)
  end.

Definition Unfork (branchID : bytes) : ST S () := UnregisterBranch branchID.

(** ** Garbage collection *)

(** What [GCCheckpoints] returns: it reports what it has done also when it
    fails. *)
Record gcResult := mkGC { gc_deleted : Z; gc_orphans : gset bytes; gc_err : option err }.

(** The SSTs of the checkpoints [keys]; an index that cannot be read is
    skipped. *)
Fixpoint liveSSTs (keys : list bytes) : ST S (gset bytes) :=
  match keys with
  | [] => mret ∅
  | k :: keys' =>
      r ← try (ReadCheckpointIndex k);
      rest ← liveSSTs keys';
      mret (match r with Ok idx => list_to_set (ix_SSTFiles idx) ∪ rest | Err _ => rest end)
  end.

Definition deleteCheckpoint (key : bytes) : ST S () :=
  subkeys ← obj_List (dir_prefix key);
  obj_DeleteMany subkeys.

Fixpoint gcLoop (manifest : option Manifest) (pinned live : gset bytes) (keys : list bytes) (acc : gcResult) : ST S gcResult :=
  match keys with
  | [] => mret acc
  | k :: keys' =>
      if bool_decide (mf_CheckpointKey <$> manifest = Some k) then gcLoop manifest pinned live keys' acc
      else if bool_decide (k ∈ pinned) then gcLoop manifest pinned live keys' acc
      else
        r ← try (ReadCheckpointIndex k);
        let orphans := match r with
                       | Ok idx => list_to_set (ix_SSTFiles idx) ∖ live ∪ gc_orphans acc
                       | Err _ => gc_orphans acc
                       end in
        d ← try (deleteCheckpoint k);
        match d with
        | Err e => mret (mkGC (gc_deleted acc) orphans (Some e))
        | Ok _ => gcLoop manifest pinned live keys' (mkGC (gc_deleted acc + 1) orphans None)
        end
  end.

Definition pinnedKeys (branches : gmap bytes BranchEntry) : gset bytes :=
  list_to_set (filter (λ k, k ≠ []) (map (λ p, br_AncestorCheckpointKey p.2) (map_to_list branches))).

Definition gcFailed (e : err) : gcResult := mkGC 0 ∅ (Some e).

Definition GCCheckpoints (keep : Z) : ST S gcResult :=
  let keep := Z.to_nat (Z.max 1 keep) in
  rm ← try ReadManifest;
  match rm with
  | Err e => mret (gcFailed e)
  | Ok manifest =>
      rb ← try ReadBranchEntries;
      match rb with
      | Err e => mret (gcFailed e)
      | Ok branches =>
          let pinned := pinnedKeys branches in
          rk ← try ListRemote;
          match rk with
          | Err e => mret (gcFailed e)
          | Ok keys =>
              if (length keys <=? keep)%nat then mret (mkGC 0 ∅ None)
              else
                live1 ← liveSSTs (drop (length keys - keep) keys);
                live2 ← liveSSTs (elements pinned);
                gcLoop manifest pinned (live1 ∪ live2) (take (length keys - keep) keys) (mkGC 0 ∅ None)
          end
      end
  end.

Definition GCOrphanSSTs (candidates : gset bytes) : ST S Z :=
  if bool_decide (candidates = ∅) then mret 0
  else obj_DeleteMany (elements candidates);; mret (Z.of_nat (size candidates)).

(** The collection that [maybeCheckpoint] runs after a checkpoint: SSTs are
    deleted also when deleting the checkpoints failed half way. *)
Definition gcCheckpointsAndSSTs : ST S (gcResult * option (result Z)) :=
  g ← GCCheckpoints 2;
  if (0 <? gc_deleted g) && negb (bool_decide (gc_orphans g = ∅)) then
    r ← try (GCOrphanSSTs (gc_orphans g)); mret (g, Some r)
  else mret (g, None).
End Store.

(** ** Local directories *)

(** [os.RemoveAll]. *)
Definition os_removeall {S : Type} (dir : bytes) : ST (world S) () :=
  syscall;; modify (λ w, set_files (filter (λ f, has_prefix (dir ++ str "/") f.1 = false) (w_files w)) w).

(** The files [filepath.Walk] visits, in lexical order. *)
Definition walk {S : Type} (dir : bytes) : ST (world S) (list bytes) :=
  syscall;; w ← get_st;
  mret (sort_bytes (filter (λ p, has_prefix (dir ++ str "/") p = true) (map fst (map_to_list (w_files w))))).

(** ** Writing and restoring *)

Section Files.
Context {S T : Type} `{OI : ObjectStore S} `{AI : ObjectStore T}.

(** The world of the node, and the ancestor's store when there is one. *)
Notation CM := (ST (world S * option T)).

Definition on_world {A} (m : ST (world S) A) : CM A := zoom fst (λ w st, (w, st.2)) m.
Definition on_store {A} (m : ST S A) : CM A := on_world (zoom w_obj (λ o w, set_obj o w) m).

(** A call on the ancestor's store, or on the node's own if there is none. *)
Definition on_ancestor_or {A} (anc : ST T A) (own : ST S A) : CM A := λ st,
  match st.2 with
  | Some t => let '(r, t') := anc t in (r, (st.1, Some t'))
  | None => on_store own st
  end.

Definition contentSSTKey (path name : bytes) : CM bytes :=
  f ← on_world (os_open_read path);
  match r_err f with
  | ErrEOF => mret (sst_key (r_data f) name)
  | e => throw e
  end.

(** [store.Put(key, f)] of a local file. *)
Definition putFile (key path : bytes) : CM () :=
  f ← on_world (os_open_read path);
  on_store (obj_Put key f).

(** The lists a walk collects: SSTs, SSTs of the ancestor, metadata files. *)
Definition filesAcc : Type := list bytes * list bytes * list bytes.

Definition uploadMeta (term revision : Z) (path name : bytes) (acc : filesAcc) : CM filesAcc :=
  let '(sst, anc, meta) := acc in
  putFile (metaKey term revision name) path;; mret (sst, anc, meta ++ [name]).

(** The walk function of [WriteAtSequence]. *)
Definition visit (localSSTs ancestorSSTs : gset bytes) (term revision : Z) (path : bytes) (acc : filesAcc) : CM filesAcc :=
  let '(sst, anc, meta) := acc in
  let name := base_name path in
  if has_suffix (str ".sst") name then
    sstKey ← contentSSTKey path name;
    if bool_decide (sstKey ∈ localSSTs) then mret (sst ++ [sstKey], anc, meta)
    else if bool_decide (sstKey ∈ ancestorSSTs) then mret (sst, anc ++ [sstKey], meta)
    else putFile sstKey path;; mret (sst ++ [sstKey], anc, meta)
  else uploadMeta term revision path name acc.

(** The walk function of [WriteWithRegistryAtSequence]. *)
Definition visitRegistry (localRegistry inheritedRegistry : gmap bytes bytes) (term revision : Z) (path : bytes) (acc : filesAcc) : CM filesAcc :=
  let '(sst, anc, meta) := acc in
  let name := base_name path in
  if has_suffix (str ".sst") name then
    match inheritedRegistry !! name with
    | Some key => mret (sst, anc ++ [key], meta)
    | None =>
        key ← match localRegistry !! name with
              | Some key => mret key
              | None => key ← contentSSTKey path name; putFile key path;; mret key
              end;
        mret (sst ++ [key], anc, meta)
    end
  else uploadMeta term revision path name acc.

Fixpoint walkLoop (f : bytes → filesAcc → CM filesAcc) (paths : list bytes) (acc : filesAcc) : CM filesAcc :=
  match paths with
  | [] => mret acc
  | p :: paths' => acc' ← f p acc; walkLoop f paths' acc'
  end.

Definition knownSSTSets : CM (gset bytes * gset bytes) :=
  rm ← try (on_store ReadManifest);
  sets ← match rm with
         | Ok (Some m) =>
             ri ← try (on_store (ReadCheckpointIndex (mf_CheckpointKey m)));
             mret (match ri with
                   | Ok idx => (list_to_set (ix_SSTFiles idx) : gset bytes, list_to_set (ix_AncestorSSTFiles idx) : gset bytes)
                   | Err _ => (∅, ∅)
                   end)
         | _ => mret (∅, ∅)
         end;
  st ← get_st;
  match st.2 with
  | Some _ =>
      if bool_decide (sets.2 = ∅) then
        anc ← on_ancestor_or listSSTSet listSSTSet; mret (sets.1, anc)
      else mret sets
  | None => mret sets
  end.

(** [defer os.RemoveAll(tmpDir)]. *)
Definition with_tmp {A} (tmpDir : bytes) (m : CM A) : CM A :=
  r ← try m; _ ← try (on_world (os_removeall tmpDir)); from_result r.

(** [db.Checkpoint(dir)]: what Pebble does to the directory. *)
Context (pebble_Checkpoint : bytes → ST (world S) ()).

Definition WriteAtSequence (tmpDir : bytes) (term revision sequence : Z) (lastWALKey : bytes) : CM () :=
  on_world syscall;;
  with_tmp tmpDir (
    let cpDir := path_join tmpDir (str "cp") in
    on_world (pebble_Checkpoint cpDir);;
    known ← knownSSTSets;
    paths ← on_world (walk cpDir);
    lists ← walkLoop (visit known.1 known.2 term revision) paths ([], [], []);
    let '(sst, anc, meta) := lists in
    on_store (writeIndex term revision sequence lastWALKey sst anc meta)).

Definition Write (tmpDir : bytes) (term revision : Z) (lastWALKey : bytes) : CM () :=
  WriteAtSequence tmpDir term revision revision lastWALKey.

Definition WriteWithRegistryAtSequence (tmpDir : bytes) (term revision sequence : Z) (lastWALKey : bytes)
    (localRegistry inheritedRegistry : gmap bytes bytes) : CM () :=
  on_world syscall;;
  with_tmp tmpDir (
    let cpDir := path_join tmpDir (str "cp") in
    on_world (pebble_Checkpoint cpDir);;
    paths ← on_world (walk cpDir);
    lists ← walkLoop (visitRegistry localRegistry inheritedRegistry term revision) paths ([], [], []);
    let '(sst, anc, meta) := lists in
    on_store (writeIndex term revision sequence lastWALKey sst anc meta)).

Definition WriteWithRegistry (tmpDir : bytes) (term revision : Z) (lastWALKey : bytes)
    (localRegistry inheritedRegistry : gmap bytes bytes) : CM () :=
  WriteWithRegistryAtSequence tmpDir term revision revision lastWALKey localRegistry inheritedRegistry.

(** *** Restoring *)

(** [os.Create] and [io.Copy]; errors of closing are dropped. *)
Definition streamToFile (rc : reader) (dest : bytes) : CM () :=
  f ← on_world (os_create dest);
  on_world (λ w, let '(r, (_, w')) := os_write (r_data rc) (f, w) in (r, w'));;
  _ ← try (on_world syscall);
  match r_err rc with ErrEOF => mret tt | e => throw e end.

Definition downloadFile (key dest : bytes) : CM () := rc ← on_store (obj_Get key); streamToFile rc dest.

Definition downloadAncestor (key dest : bytes) : CM () :=
  rc ← on_ancestor_or (obj_Get key) (obj_Get key); streamToFile rc dest.

Fixpoint downloadAll (get : bytes → bytes → CM ()) (files : list (bytes * bytes)) : CM () :=
  match files with
  | [] => mret tt
  | (key, dest) :: files' => get key dest;; downloadAll get files'
  end.

(** The object key and the destination of each file. *)
Definition sst_dest (targetDir key : bytes) : bytes * bytes := (key, path_join targetDir (base_name key)).
Definition meta_dest (prefix targetDir name : bytes) : bytes * bytes := (prefix ++ name, path_join targetDir name).

Definition errIndexKey : err := ErrText "checkpoint: index key must end with manifest.json".

Definition restoreFromIndex (indexKey targetDir : bytes) : CM (Z * Z) :=
  if negb (has_suffix (str "manifest.json") indexKey) then throw errIndexKey
  else
    idx ← on_store (ReadCheckpointIndex indexKey);
    on_world syscall;;
    downloadAll downloadFile (map (sst_dest targetDir) (ix_SSTFiles idx));;
    downloadAll downloadAncestor (map (sst_dest targetDir) (ix_AncestorSSTFiles idx));;
    downloadAll downloadFile (map (meta_dest (trim_suffix (str "manifest.json") indexKey) targetDir) (ix_PebbleMeta idx));;
    mret (ix_Term idx, ix_Revision idx).

(** [Restore] has no ancestor store. *)
Definition Restore (objKey targetDir : bytes) : CM (Z * Z) := λ st,
  let '(r, (w, _)) := restoreFromIndex objKey targetDir (st.1, None) in (r, (w, st.2)).

Definition RestoreBranch (objKey targetDir : bytes) : CM (Z * Z) := restoreFromIndex objKey targetDir.

(** [object.VersionedStore.GetVersioned]. *)
Context (getVersioned : bytes → bytes → ST S reader).

Definition downloadVersionedOrLive (versions : gmap bytes bytes) (key dest : bytes) : CM () :=
  match versions !! key with
  | Some ((_ :: _) as versionID) => rc ← on_store (getVersioned key versionID); streamToFile rc dest
  | _ => downloadFile key dest
  end.

Definition errPinned : err := ErrText "checkpoint: pinned versions missing a file referenced by the index".

Definition RestoreVersioned (objKey versionID : bytes) (checkpointFileVersions : gmap bytes bytes) (targetDir : bytes) : CM (Z * Z) :=
  if negb (has_suffix (str "manifest.json") objKey) then throw errIndexKey
  else
    rc ← on_store (getVersioned objKey versionID);
    idx ← from_result (Decode index_fields zero_index rc);
    let metaPrefix := trim_suffix (str "manifest.json") objKey in
    let referenced := ix_SSTFiles idx ++ map (app metaPrefix) (ix_PebbleMeta idx) in
    if negb (bool_decide (checkpointFileVersions = ∅)) &&
       negb (forallb (λ k, bool_decide (is_Some (checkpointFileVersions !! k))) referenced) then throw errPinned
    else
      on_world syscall;;
      downloadAll (downloadVersionedOrLive checkpointFileVersions) (map (sst_dest targetDir) (ix_SSTFiles idx));;
      downloadAll (downloadVersionedOrLive checkpointFileVersions) (map (meta_dest metaPrefix targetDir) (ix_PebbleMeta idx));;
      mret (ix_Term idx, ix_Revision idx).
End Files.
