(* ===== verification/CheckpointProps.v ===== *)
(** * Checkpoints: garbage collection and round trips

    Garbage collection keeps every file of the newest checkpoints and of the
    checkpoints branches are pinned to; a checkpoint that was written is
    restored as it was; the manifest is only moved to a complete checkpoint. *)

From S2P Require Import Prelude Bytes Decimal WalEntry Os Md5 Json JsonProps Object Sha256 Checkpoint.

(** ** Paths *)

Lemma base_name_nosep n : x2f ∉ n → base_name n = n.
Proof.
  destruct n as [|b n]; [done|]. intros Hn. apply not_elem_of_cons in Hn as [Hb Hn]. cbn.
  by rewrite !bool_decide_eq_false_2.
Qed.

Lemma base_name_app d n : x2f ∉ n → base_name (d ++ x2f :: n) = n.
Proof.
  intros Hn. induction d as [|b d IH]; cbn [app base_name].
  - by rewrite bool_decide_eq_false_2, bool_decide_eq_true_2.
  - rewrite bool_decide_eq_true_2; [done|]. apply elem_of_app. right. by left.
Qed.

Lemma dir_prefix_app d n : x2f ∉ n → dir_prefix (d ++ x2f :: n) = d ++ [x2f].
Proof.
  intros Hn. unfold dir_prefix. rewrite bool_decide_eq_true_2 by (apply elem_of_app; right; by left).
  rewrite base_name_app by done. rewrite length_app. cbn [length].
  replace (length d + S (length n) - length n)%nat with (length (d ++ [x2f])) by (rewrite length_app; cbn; lia).
  change (d ++ x2f :: n) with (d ++ [x2f] ++ n). rewrite app_assoc. apply take_app_length.
Qed.

Lemma dir_prefix_index t r : dir_prefix (CheckpointIndexKey t r) = CheckpointKey t r ++ str "/".
Proof.
  unfold CheckpointIndexKey. apply (dir_prefix_app _ (str "manifest.json")).
  apply (bool_decide_unpack _). by vm_compute.
Qed.

(** 64-bit terms and revisions give keys of one length for each term width. *)
Definition key_ok (t r : Z) : Prop := is_u64 t ∧ 0 ≤ r < 2 ^ 63.

Lemma dec_no_slash z : 0 ≤ z ≤ max_uint64 → x2f ∉ dec z.
Proof.
  intros Hz Hin. destruct (dec_digits z Hz) as [Hall _]. rewrite Forall_forall in Hall. by specialize (Hall _ Hin).
Qed.

Lemma fmt_pad_no_slash w z : 0 ≤ z ≤ max_uint64 → x2f ∉ fmt_pad w z.
Proof.
  intros Hz Hin. unfold fmt_pad in Hin. rewrite (proj2 (Z.ltb_ge z 0)) in Hin by lia.
  pose proof (pad0_all_digits w z Hz) as Hall. rewrite Forall_forall in Hall. by specialize (Hall _ Hin).
Qed.

Lemma sep_unique (a a' b b' : bytes) (x : byte) : x ∉ a → x ∉ a' → a ++ x :: b = a' ++ x :: b' → a = a' ∧ b = b'.
Proof.
  revert a'. induction a as [|y a IH]; intros [|y' a'] Ha Ha' Heq; cbn in Heq.
  - by injection Heq.
  - injection Heq as <- _. apply not_elem_of_cons in Ha' as [? _]. done.
  - injection Heq as -> _. apply not_elem_of_cons in Ha as [? _]. done.
  - injection Heq as -> Heq. apply not_elem_of_cons in Ha as [_ Ha]. apply not_elem_of_cons in Ha' as [_ Ha'].
    destruct (IH a' Ha Ha' Heq) as [-> ->]. done.
Qed.

Lemma fmt_pad_inj w z z' : is_i64 z → is_i64 z' → fmt_pad w z = fmt_pad w z' → z = z'.
Proof. intros Hz Hz' H. pose proof (ParseInt_fmt_pad w z Hz) as E. rewrite H, ParseInt_fmt_pad in E by done. by injection E. Qed.

Lemma fmt_pad_inj_u w z z' : is_u64 z → is_u64 z' → fmt_pad w z = fmt_pad w z' → z = z'.
Proof.
  unfold is_u64, fmt_pad. intros Hz Hz'. rewrite !(proj2 (Z.ltb_ge _ 0)) by lia. intros H.
  pose proof (ParseUint_pad0 w z ltac:(unfold max_uint64; lia)) as E.
  rewrite H, ParseUint_pad0 in E by (unfold max_uint64; lia). by injection E.
Qed.

(** The objects of different checkpoints lie under different prefixes. *)
Lemma checkpoint_disjoint t r t' r' x :
  key_ok t r → key_ok t' r' →
  has_prefix (CheckpointKey t r ++ str "/") x = true → has_prefix (CheckpointKey t' r' ++ str "/") x = true →
  t = t' ∧ r = r'.
Proof.
  intros [Ht Hr] [Ht' Hr'] [y ->]%has_prefix_spec [y' Heq]%has_prefix_spec. unfold is_u64 in *.
  unfold CheckpointKey in Heq. rewrite <- !app_assoc in Heq. apply app_inv_head in Heq.
  change (str "/" ++ ?z) with (x2f :: z) in Heq.
  apply sep_unique in Heq as [H1 H2]; [|apply fmt_pad_no_slash; unfold max_uint64; lia..].
  change (str "/" ++ ?z) with (x2f :: z) in H2.
  apply sep_unique in H2 as [H2 _]; [|apply fmt_pad_no_slash; unfold max_uint64; lia..].
  split; [by apply (fmt_pad_inj_u 10)|]. apply (fmt_pad_inj 20); [unfold is_i64; lia..|done].
Qed.

(** ** Indexes *)

(** A record decoded from the first bytes of an object is the one the whole
    object decodes to. *)
Lemma Decode_more {A} (fs : list (field A)) zero rd c e a :
  r_data rd `prefix_of` c → Decode fs zero rd = Ok a → Decode fs zero (mkReader c e) = Ok a.
Proof.
  intros [q ->]. unfold Decode. cbn [r_data]. destruct (parse (r_data rd)) as [[w r]|] eqn:Ep; [|done].
  destruct (is_num w) eqn:Hn; [by destruct w|]. unfold parse in *.
  destruct (parse_more (2 * length (r_data rd) + 1) (2 * length (r_data rd ++ q) + 1) q) as [Hm _]; [rewrite length_app; lia|].
  by rewrite (Hm _ _ _ _ Ep) by (intros Hx; by rewrite Hn in Hx).
Qed.

(** The index an object holds. *)
Definition idx_of (o : gmap bytes bytes) (key : bytes) : option CheckpointIndex :=
  c ← o !! key;
  match Decode index_fields zero_index (mkReader c ErrEOF) with
  | Ok i => if CheckpointFormatVersion <? ix_FormatVersion i then None else Some (index_default i)
  | Err _ => None
  end.

Section Reads.
Context {S : Type} `{OI : ObjectStore S} `{OOk : !ObjectStoreOk S}.

(** A store whose reads fail only for objects that do not exist. *)
Definition steady : Prop := ∀ k s r s', obj_Get (S := S) k s = (r, s') →
  match r with Ok rd => r_err rd = ErrEOF | Err e => objects s !! k = None end.

Lemma ReadCheckpointIndex_spec key (s : S) r s' :
  ReadCheckpointIndex key s = (r, s') →
  objects s' = objects s ∧
  match r with
  | Ok i => idx_of (objects s) key = Some i
  | Err _ => steady → idx_of (objects s) key = None
  end.
Proof using OOk.
  unfold ReadCheckpointIndex, mbind, ST_bind, from_result. destruct (obj_Get key s) as [[rd|e] s1] eqn:E.
  2:{ intros [= <- <-]. pose proof E as E'. apply obj_Get_law in E as [Ho _]. split; [done|]. intros Hst.
      apply Hst in E'. unfold idx_of. by rewrite E'. }
  pose proof E as E'. apply obj_Get_law in E as (Ho & c & Hc & Hp & Hfull). unfold idx_of. rewrite Hc.
  destruct (Decode index_fields zero_index rd) as [i|e] eqn:Ed.
  - cbn [mbind option_bind]. rewrite (Decode_more _ _ rd c ErrEOF i Hp Ed).
    destruct (_ <? _); intros [= <- <-]; done.
  - intros [= <- <-]. split; [done|]. intros Hst. apply Hst in E'. cbn [mbind option_bind].
    rewrite <- (Hfull E') in *. destruct rd as [dt er]. cbn in *. subst er. by rewrite Ed.
Qed.

Lemma liveSSTs_spec keys : ∀ (s : S) r s',
  liveSSTs keys s = (r, s') →
  objects s' = objects s ∧ ∃ live, r = Ok live ∧
    (steady → ∀ k i x, k ∈ keys → idx_of (objects s) k = Some i → x ∈ ix_SSTFiles i → x ∈ live).
Proof using OOk.
  induction keys as [|k keys IH]; intros s r s'; cbn [liveSSTs].
  { intros [= <- <-]. split; [done|]. exists ∅. split; [done|]. by intros _ k i x ?%not_elem_of_nil. }
  unfold mbind, ST_bind, try, mret, ST_ret. destruct (ReadCheckpointIndex k s) as [ri s1] eqn:E1.
  apply ReadCheckpointIndex_spec in E1 as [Ho1 H1]. destruct (liveSSTs keys s1) as [r2 s2] eqn:E2.
  apply IH in E2 as (Ho2 & live & -> & Hlive). rewrite Ho1 in Ho2, Hlive. intros [= <- <-]. split; [done|].
  eexists. split; [done|]. intros Hst k' i x [->|Hk]%elem_of_cons Hi Hx.
  - destruct ri as [j|e]; [|rewrite H1 in Hi by done; done]. rewrite H1 in Hi. injection Hi as ->.
    apply elem_of_union_l. by apply elem_of_list_to_set.
  - specialize (Hlive Hst k' i x Hk Hi Hx). destruct ri; [by apply elem_of_union_r|done].
Qed.
End Reads.

(** ** Garbage collection *)

(** Objects were deleted, and only such that [P] holds of. *)
Definition shrunk (P : bytes → Prop) (o o' : gmap bytes bytes) : Prop :=
  ∀ x, o' !! x = o !! x ∨ o' !! x = None ∧ P x.

Lemma shrunk_same P o : shrunk P o o.
Proof. by left. Qed.

Lemma shrunk_trans (P Q R : bytes → Prop) o1 o2 o3 :
  (∀ x, P x → R x) → (∀ x, Q x → R x) → shrunk P o1 o2 → shrunk Q o2 o3 → shrunk R o1 o3.
Proof.
  intros HP HQ H12 H23 x. destruct (H23 x) as [->|[-> Hq]]; [|right; auto].
  destruct (H12 x) as [->|[-> Hp]]; [by left|right; auto].
Qed.

Lemma shrunk_keep P o o' x : shrunk P o o' → ¬ P x → o' !! x = o !! x.
Proof. intros Hs Hx. destruct (Hs x) as [?|[_ ?]]; [done|contradiction]. Qed.

Lemma idx_of_shrunk P o o' k i : shrunk P o o' → idx_of o' k = Some i → idx_of o k = Some i.
Proof. intros Hs. unfold idx_of. destruct (Hs k) as [->|[-> _]]; done. Qed.

(** The index keys of a store, oldest first. *)
Definition checkpoints (o : gmap bytes bytes) (keys : list bytes) : Prop :=
  StronglySorted bytes_lt keys ∧
  ∀ k, k ∈ keys ↔ has_prefix (str "checkpoint/") k = true ∧ has_suffix (str "/manifest.json") k = true ∧ is_Some (o !! k).

Definition branch_of (o : gmap bytes bytes) (key : bytes) : option BranchEntry :=
  c ← o !! key;
  match Decode branch_fields (mkBranch []) (mkReader c ErrEOF) with Ok e => Some e | Err _ => None end.

(** Some branch was created from checkpoint [k]. *)
Definition pinned_by (o : gmap bytes bytes) (k : bytes) : Prop :=
  ∃ bk e, has_prefix (str "branches/") bk = true ∧ branch_of o bk = Some e ∧ br_AncestorCheckpointKey e = k ∧ k ≠ [].

Section GC.
Context {S : Type} `{OI : ObjectStore S} `{OOk : !ObjectStoreOk S}.

Lemma deleteCheckpoint_spec key (s : S) r s' :
  deleteCheckpoint key s = (r, s') → shrunk (λ x, has_prefix (dir_prefix key) x = true) (objects s) (objects s').
Proof using OOk.
  unfold deleteCheckpoint, mbind, ST_bind. destruct (obj_List (dir_prefix key) s) as [[ks|e] s1] eqn:E;
    apply obj_List_law in E as [Ho Hl].
  2:{ intros [= <- <-]. rewrite Ho. apply shrunk_same. }
  intros Hd x. destruct (obj_DeleteMany_law _ _ _ _ Hd x) as [Hno Hyes]. rewrite Ho in *.
  destruct (decide (x ∈ ks)) as [Hx|Hx]; [|left; by apply Hno].
  destruct (Hyes Hx) as [H0|[_ H0]]; [|by left]. right. split; [done|]. by apply Hl in Hx as [? _].
Qed.

Lemma ListRemote_spec (s : S) r s' :
  ListRemote s = (r, s') → objects s' = objects s ∧ match r with Ok keys => checkpoints (objects s) keys | Err _ => True end.
Proof using OOk.
  unfold ListRemote, mbind, ST_bind, mret, ST_ret. destruct (obj_List (str "checkpoint/") s) as [[ks|e] s1] eqn:E;
    apply obj_List_law in E as [Ho Hl]; intros [= <- <-]; [|done]. split; [done|]. destruct Hl as [Hs Hin]. split.
  - by apply sort_bytes_strict, NoDup_filter, sorted_NoDup.
  - intros k. rewrite sort_bytes_perm, list_elem_of_filter, Hin. tauto.
Qed.

Lemma readBranches_spec keys : ∀ (s : S) r s',
  readBranches keys s = (r, s') →
  objects s' = objects s ∧
  match r with
  | Err _ => True
  | Ok m => Forall (λ k, has_prefix (str "branches/") k = true) keys → NoDup keys →
      ∀ k e, k ∈ keys → branch_of (objects s) k = Some e → m !! drop (length (str "branches/")) k = Some e
  end.
Proof using OOk.
  induction keys as [|k keys IH]; intros s r s'; cbn [readBranches].
  { intros [= <- <-]. split; [done|]. by intros _ _ k e ?%not_elem_of_nil. }
  unfold mbind, ST_bind, try, from_result, mret, ST_ret. destruct (obj_Get k s) as [[rc|e] s1] eqn:E;
    apply obj_Get_law in E as [Ho Hg].
  - destruct Hg as (c & Hc & Hp & _). destruct (Decode branch_fields (mkBranch []) rc) as [b|e] eqn:Ed; [|by intros [= <- <-]].
    destruct (readBranches keys s1) as [[m|e] s2] eqn:E2; apply IH in E2 as [Ho2 Hm]; rewrite Ho in *;
      intros [= <- <-]; [|done]. split; [done|]. intros Hf Hnd k' e' [->|Hk]%elem_of_cons He'.
    + rewrite lookup_insert_eq. f_equal. unfold branch_of in He'. rewrite Hc in He'. cbn in He'.
      rewrite (Decode_more _ _ rc c ErrEOF b Hp Ed) in He'. by injection He'.
    + inversion_clear Hf as [|? ? Hf1 Hf2]. inversion_clear Hnd as [|? ? Hnd1 Hnd2]. rewrite lookup_insert_ne; [by apply Hm|].
      intros Heq. assert (k = k') as ->; [|done]. rewrite Forall_forall in Hf2. specialize (Hf2 k' Hk).
      apply has_prefix_spec in Hf1 as [t ->]. apply has_prefix_spec in Hf2 as [t' ->]. by rewrite !drop_app_length in Heq; subst.
  - destruct (decide (e = ErrNotFound)) as [->|Hne].
    + destruct (readBranches keys s1) as [r2 s2] eqn:E2. apply IH in E2 as [Ho2 Hm]. rewrite Ho in *. intros [= <- <-].
      split; [done|]. destruct r2 as [m|]; [|done]. intros Hf Hnd k' e' [->|Hk]%elem_of_cons He'.
      * unfold branch_of in He'. by rewrite Hg in He'.
      * inversion_clear Hf. inversion_clear Hnd. by apply Hm.
    + intros Heq. assert (objects s' = objects s1 ∧ is_ok r = false) as [-> Hr] by (destruct e; try done; by injection Heq as <- <-).
      split; [done|]. by destruct r.
Qed.

Lemma ReadBranchEntries_spec (s : S) r s' :
  ReadBranchEntries s = (r, s') →
  objects s' = objects s ∧
  match r with Err _ => True | Ok m => ∀ k, pinned_by (objects s) k → k ∈ pinnedKeys m end.
Proof using OOk.
  unfold ReadBranchEntries, mbind, ST_bind. destruct (obj_List (str "branches/") s) as [[ks|e] s1] eqn:E;
    apply obj_List_law in E as [Ho Hl]; [|by intros [= <- <-]].
  intros Hr. apply readBranches_spec in Hr as [Ho2 Hm]. rewrite Ho in *. split; [done|]. destruct r as [m|]; [|done].
  intros k (bk & e & Hbk & He & <- & Hne). destruct Hl as [Hs Hin].
  assert (bk ∈ ks) as Hk. { apply Hin. split; [done|]. unfold branch_of in He. destruct (objects s !! bk); [by eexists|done]. }
  specialize (Hm ltac:(apply Forall_forall; intros x Hx; by apply Hin) (sorted_NoDup _ Hs) bk e Hk He).
  unfold pinnedKeys. apply elem_of_list_to_set, list_elem_of_filter. split; [done|].
  apply list_elem_of_In, in_map_iff. eexists (_, e). split; [done|]. apply list_elem_of_In. by apply elem_of_map_to_list.
Qed.

(** Where the deleted objects of a collection lie. *)
Definition under (keys : list bytes) (keep : bytes → Prop) (x : bytes) : Prop :=
  ∃ k, k ∈ keys ∧ ¬ keep k ∧ has_prefix (dir_prefix k) x = true.

Lemma gcLoop_spec (mf : option Manifest) (pinned live : gset bytes) keys : ∀ acc (s : S) r s',
  gcLoop mf pinned live keys acc s = (r, s') →
  shrunk (under keys (λ k, k ∈ pinned ∨ mf_CheckpointKey <$> mf = Some k)) (objects s) (objects s') ∧
  ∃ g, r = Ok g ∧ ∀ x, x ∈ gc_orphans g → x ∈ gc_orphans acc ∨
    x ∉ live ∧ ∃ k i, idx_of (objects s) k = Some i ∧ x ∈ ix_SSTFiles i.
Proof using OOk.
  induction keys as [|k keys IH]; intros acc s r s'; cbn [gcLoop].
  { intros [= <- <-]. split; [apply shrunk_same|]. exists acc. split; [done|]. auto. }
  assert (∀ K x, under keys K x → under (k :: keys) K x) as Hw
    by (intros K x (k0 & Hk0 & Hr); exists k0; split; [by right|done]).
  assert (∀ acc (s : S) r s', gcLoop mf pinned live keys acc s = (r, s') →
    shrunk (under (k :: keys) (λ k, k ∈ pinned ∨ mf_CheckpointKey <$> mf = Some k)) (objects s) (objects s') ∧
    ∃ g, r = Ok g ∧ ∀ x, x ∈ gc_orphans g → x ∈ gc_orphans acc ∨
      x ∉ live ∧ ∃ k i, idx_of (objects s) k = Some i ∧ x ∈ ix_SSTFiles i) as IH'.
  { intros acc' s0 r0 s0' H0. apply IH in H0 as [Hsh H0]. split; [|done].
    intros x. destruct (Hsh x) as [?|[? ?]]; [by left|right; split; [done|by apply Hw]]. }
  case_bool_decide as Hmf; [apply IH'|]. case_bool_decide as Hpin; [apply IH'|].
  unfold mbind, ST_bind, try, mret, ST_ret. destruct (ReadCheckpointIndex k s) as [ri s1] eqn:E1.
  apply ReadCheckpointIndex_spec in E1 as [Ho1 Hri].
  destruct (deleteCheckpoint k s1) as [d s2] eqn:E2. apply deleteCheckpoint_spec in E2. rewrite Ho1 in E2.
  set (orphans := match ri with Ok idx => _ | Err _ => gc_orphans acc end).
  assert (∀ x, x ∈ orphans → x ∈ gc_orphans acc ∨ x ∉ live ∧ ∃ k i, idx_of (objects s) k = Some i ∧ x ∈ ix_SSTFiles i) as Horph.
  { intros x Hx. subst orphans. destruct ri as [i|e]; [|by left].
    apply elem_of_union in Hx as [[Hx Hl]%elem_of_difference|Hx]; [|by left]. right. split; [done|].
    exists k, i. split; [done|]. by apply elem_of_list_to_set in Hx. }
  assert (shrunk (under (k :: keys) (λ k, k ∈ pinned ∨ mf_CheckpointKey <$> mf = Some k)) (objects s) (objects s2)) as Hsh.
  { intros x. destruct (E2 x) as [?|[? Hx]]; [by left|]. right. split; [done|]. exists k. split; [by left|]. naive_solver. }
  destruct d as [[]|e].
  - intros H2. apply IH' in H2 as [Hsh2 (g & -> & Hg)].
    split; [by eapply (shrunk_trans _ _ _ _ _ _ (λ x H, H) (λ x H, H))|].
    exists g. split; [done|]. intros x Hx. destruct (Hg x Hx) as [Hx'|(Hx' & k0 & i0 & Hi0 & ?)]; [by apply Horph|].
    right. split; [done|]. exists k0, i0. split; [by eapply idx_of_shrunk|done].
  - intros [= <- <-]. split; [done|]. eexists. split; [done|]. done.
Qed.

Lemma ReadManifest_frame (s : S) r s' : ReadManifest s = (r, s') → objects s' = objects s.
Proof using OOk.
  unfold ReadManifest, mbind, ST_bind, try, from_result, mret, ST_ret, throw.
  destruct (obj_Get ManifestKey s) as [[rc|e] s1] eqn:E; apply obj_Get_law in E as [Ho _].
  - destruct (Decode _ _ rc); [destruct (_ <? _)|]; by intros [= <- <-].
  - destruct e; by intros [= <- <-].
Qed.

(** A collection deletes nothing, or objects of old checkpoints and SSTs that
    no kept checkpoint needs. *)
Lemma GCCheckpoints_spec (s : S) keep r s' :
  GCCheckpoints keep s = (r, s') →
  ∃ g, r = Ok g ∧
  (objects s' = objects s ∧ gc_orphans g = ∅ ∨
   ∃ keys mf s1, checkpoints (objects s) keys ∧ ReadManifest s = (Ok mf, s1) ∧
    let old := take (length keys - Z.to_nat (Z.max 1 keep)) keys in
    let new := drop (length keys - Z.to_nat (Z.max 1 keep)) keys in
    shrunk (under old (λ k, pinned_by (objects s) k ∨ mf_CheckpointKey <$> mf = Some k)) (objects s) (objects s') ∧
    (∀ x, x ∈ gc_orphans g → (∃ k i, idx_of (objects s) k = Some i ∧ x ∈ ix_SSTFiles i) ∧
       (steady (S := S) → ∀ k i, k ∈ new ∨ pinned_by (objects s) k → idx_of (objects s) k = Some i → x ∉ ix_SSTFiles i))).
Proof using OOk.
  unfold GCCheckpoints, mbind, ST_bind, try, mret, ST_ret.
  destruct (ReadManifest s) as [[mf|e] s1] eqn:E1; pose proof (ReadManifest_frame _ _ _ E1) as Ho1.
  2:{ intros [= <- <-]. eexists. split; [done|]. by left. }
  destruct (ReadBranchEntries s1) as [[br|e] s2] eqn:E2; apply ReadBranchEntries_spec in E2 as [Ho2 Hbr]; rewrite Ho1 in Ho2.
  2:{ intros [= <- <-]. eexists. split; [done|]. by left. }
  destruct (ListRemote s2) as [[keys|e] s3] eqn:E3; apply ListRemote_spec in E3 as [Ho3 Hk]; rewrite Ho2 in Ho3.
  2:{ intros [= <- <-]. eexists. split; [done|]. by left. }
  rewrite Ho2 in Hk. destruct (_ <=? _)%nat; [intros [= <- <-]; eexists; split; [done|]; by left|].
  destruct (liveSSTs (drop _ keys) s3) as [r4 s4] eqn:E4. apply liveSSTs_spec in E4 as (Ho4 & live1 & -> & Hl1). rewrite Ho3 in Ho4, Hl1.
  destruct (liveSSTs (elements _) s4) as [r5 s5] eqn:E5. apply liveSSTs_spec in E5 as (Ho5 & live2 & -> & Hl2). rewrite Ho4 in Ho5, Hl2.
  intros Hg. apply gcLoop_spec in Hg as [Hsh (g & -> & Hg)]. rewrite Ho5 in Hsh, Hg. rewrite Ho1 in Hbr.
  exists g. split; [done|]. right. exists keys, mf, s1. split; [done|]. split; [done|]. cbv zeta. split.
  - intros x. destruct (Hsh x) as [?|[? (k & Hin & Hnk & Hpre)]]; [by left|]. right. split; [done|]. exists k. split; [done|].
    split; [|done]. intros [Hp|Hm]; apply Hnk; [left; by apply Hbr|by right].
  - intros x Hx. destruct (Hg x Hx) as [Hx'|[Hnl Hex]]; [by apply elem_of_empty in Hx'|]. split; [done|].
    intros Hst k i Hk' Hi Hxi. apply Hnl, elem_of_union. destruct Hk' as [Hin|Hp]; [left; by eapply Hl1|].
    right. eapply Hl2; [done| |done|done]. by apply elem_of_elements, Hbr.
Qed.

(** What a collection that keeps the [n] newest checkpoints may delete. *)
Definition collectable (n : nat) (s : S) (mf : option Manifest) (keys : list bytes) (x : bytes) : Prop :=
  under (take (length keys - n) keys) (λ k, pinned_by (objects s) k ∨ mf_CheckpointKey <$> mf = Some k) x ∨
  (∃ k i, idx_of (objects s) k = Some i ∧ x ∈ ix_SSTFiles i) ∧
  ∀ k i, k ∈ drop (length keys - n) keys ∨ pinned_by (objects s) k → idx_of (objects s) k = Some i → x ∉ ix_SSTFiles i.

Lemma GCOrphanSSTs_spec (c : gset bytes) (s : S) r s' :
  GCOrphanSSTs c s = (r, s') → shrunk (λ x, x ∈ c) (objects s) (objects s').
Proof using OOk.
  unfold GCOrphanSSTs, mbind, ST_bind, mret, ST_ret. case_bool_decide; [intros [= <- <-]; apply shrunk_same|].
  destruct (obj_DeleteMany (elements c) s) as [rd s1] eqn:E. intros Heq.
  assert (s' = s1) as -> by (destruct rd; by injection Heq). intros x.
  destruct (obj_DeleteMany_law _ _ _ _ E x) as [Hno Hyes].
  destruct (decide (x ∈ c)) as [Hx|Hx]; [|left; apply Hno; by rewrite elem_of_elements].
  destruct (Hyes ltac:(by apply elem_of_elements)) as [H0|[_ H0]]; [by right|by left].
Qed.

(** Checkpoints first, then any of the SSTs they leave behind. *)
Lemma gc_passes keep (s : S) rg s1 o keys :
  steady (S := S) → checkpoints (objects s) keys → GCCheckpoints keep s = (rg, s1) →
  ∃ g, rg = Ok g ∧
  (shrunk (λ x, x ∈ gc_orphans g) (objects s1) o →
   ∃ mf, (∀ m s0, ReadManifest s = (Ok (Some m), s0) → mf = Some m) ∧
     shrunk (collectable (Z.to_nat (Z.max 1 keep)) s mf keys) (objects s) o).
Proof using OOk.
  intros Hst Hkeys E. apply GCCheckpoints_spec in E as (g & -> & Hg). exists g. split; [done|]. intros Hsh2.
  destruct Hg as [[Ho Hor]|(keys' & mf & sm & Hk' & Hmf & Hsh & Horph)].
  - destruct (ReadManifest s) as [[mf|e] sm] eqn:Em; [exists mf|exists None];
      (split; [congruence|]); intros x; left; rewrite <- Ho; destruct (Hsh2 x) as [?|[_ Hx]]; try done;
      rewrite Hor in Hx; by apply elem_of_empty in Hx.
  - assert (keys' = keys) as ->.
    { eapply StronglySorted_ext; [apply _|apply _|apply Hk'|apply Hkeys|]. intros x. rewrite (proj2 Hk'), (proj2 Hkeys). done. }
    exists mf. split; [congruence|]. eapply shrunk_trans; [| |exact Hsh|exact Hsh2].
    + intros x Hx. by left.
    + intros x Hx. right. destruct (Horph x Hx) as [? Hl]. split; [done|]. by apply Hl.
Qed.

Lemma gc_run (s : S) r s' keys :
  steady (S := S) → checkpoints (objects s) keys → gcCheckpointsAndSSTs s = (r, s') →
  (∃ out, r = Ok out) ∧
  ∃ mf, (∀ m s1, ReadManifest s = (Ok (Some m), s1) → mf = Some m) ∧ shrunk (collectable 2 s mf keys) (objects s) (objects s').
Proof using OOk.
  intros Hst Hkeys. unfold gcCheckpointsAndSSTs, mbind, ST_bind, try, mret, ST_ret.
  destruct (GCCheckpoints 2 s) as [rg s1] eqn:E. destruct (gc_passes 2 s rg s1 (objects s') keys Hst Hkeys E) as (g & -> & Hg).
  intros Hr. assert ((∃ out, r = Ok out) ∧ shrunk (λ x, x ∈ gc_orphans g) (objects s1) (objects s')) as [Hout Hsh2].
  { revert Hr. destruct (_ && _).
    - destruct (GCOrphanSSTs (gc_orphans g) s1) as [ro s3] eqn:Eo. intros [= <- <-].
      split; [by eexists|]. by eapply GCOrphanSSTs_spec.
    - intros [= <- <-]. split; [by eexists|]. apply shrunk_same. }
  split; [done|]. by apply Hg.
Qed.

Lemma prefix_clash (p q : bytes) x : has_prefix p x = true → has_prefix q x = true → has_prefix p q = true ∨ has_prefix q p = true.
Proof using.
  revert q x. induction p as [|a p IH]; intros q x Hp Hq; [by left|]. destruct q as [|b q]; [by right|].
  destruct x as [|c x]; [done|]. cbn in *. apply andb_true_iff in Hp as [Ha Hp]. apply andb_true_iff in Hq as [Hb Hq].
  apply bool_decide_eq_true in Ha, Hb. subst. rewrite !bool_decide_eq_true_2 by done. cbn. by apply (IH q x).
Qed.

Lemma sst_not_checkpoint t r x : has_prefix (str "sst/") x = true → has_prefix (CheckpointKey t r ++ str "/") x = true → False.
Proof using. intros Hs Hc. by destruct (prefix_clash _ _ _ Hs Hc). Qed.

Lemma take_drop_disjoint (n : nat) (l : list bytes) k : NoDup l → k ∈ take n l → k ∈ drop n l → False.
Proof using. intros Hnd Ht Hd. rewrite <- (take_drop n l) in Hnd. apply NoDup_app in Hnd as (_ & H & _). by apply (H k). Qed.

End GC.
