(* ===== verification/CheckpointWrite.v ===== *)
(** * Writing and restoring a checkpoint

    A checkpoint whose write succeeded holds every file of the Pebble
    checkpoint, the manifest only ever moves to such a checkpoint, and
    restoring it gives the files back. *)

From S2P Require Import Prelude Bytes Decimal WalEntry Os Md5 Json JsonProps Object Sha256 Checkpoint CheckpointProps.

(** ** ASCII names *)

#[global] Instance ascii_dec s : Decision (ascii s).
Proof. unfold ascii. apply _. Defined.

Lemma ascii_app a b : ascii a → ascii b → ascii (a ++ b).
Proof. apply Forall_app_2. Qed.

Lemma hex_ascii l : ascii (hex l).
Proof.
  unfold hex, ascii. apply Forall_concat, Forall_map, Forall_forall. intros b _. pose proof (byte_val_range b).
  assert (∀ d, 0 ≤ d < 16 → byte_val (hex_digit d) < 128) as Hd.
  { intros d Hd. unfold hex_digit. rewrite byte_val_of. unfold u8. destruct (d <? 10); rewrite Z.mod_small; lia. }
  repeat constructor; apply Hd; [split; [apply Z.div_pos; lia|apply Z.div_lt_upper_bound; lia]|apply Z.mod_pos_bound; lia].
Qed.

Lemma sst_key_ascii c n : ascii n → ascii (sst_key c n).
Proof.
  intros Hn. unfold sst_key. repeat apply ascii_app; try done; [|apply hex_ascii|];
    apply (bool_decide_unpack _); by vm_compute.
Qed.

(** ** Keys determine names *)

Lemma hex_length l : length (hex l) = (2 * length l)%nat.
Proof. unfold hex. induction l as [|b l IH]; [done|]. cbn in *. lia. Qed.

Lemma sha_round_length st kw : length (sha_round st kw) = length st.
Proof. unfold sha_round. by repeat case_match. Qed.

Lemma sha256_length d : length (sha256 d) = 32%nat.
Proof.
  unfold sha256. assert (∀ n st data, length st = 8%nat → length (sha_blocks n st data) = 8%nat) as Hb.
  { induction n as [|n IH]; intros st data Hst; [done|]. cbn. apply IH. unfold sha_block.
    assert (∀ l st0, length (fold_left sha_round l st0) = length st0) as Hf
      by (induction l as [|k l IHl]; intros st0; [done|]; cbn; by rewrite IHl, sha_round_length).
    rewrite length_zip_with, Hf. lia. }
  specialize (Hb (length (sha_pad d) / 64)%nat sha_H (sha_pad d) eq_refl).
  destruct (sha_blocks _ _ _) as [|x0 [|x1 [|x2 [|x3 [|x4 [|x5 [|x6 [|x7 [|]]]]]]]]]; try discriminate Hb.
  cbn [map concat]. rewrite !length_app, !length_be. done.
Qed.

Lemma sst_key_inj c n c' n' : sst_key c n = sst_key c' n' → n = n'.
Proof.
  unfold sst_key. intros H. apply app_inv_head in H. apply app_inj_1 in H as [_ H]; [by apply app_inv_head in H|].
  rewrite !hex_length, !length_take, !sha256_length. done.
Qed.

Lemma sst_key_base c n : x2f ∉ n → base_name (sst_key c n) = n.
Proof. intros Hn. unfold sst_key. rewrite app_assoc. by apply base_name_app. Qed.

Lemma sst_key_prefix c n : has_prefix (str "sst/") (sst_key c n) = true.
Proof. apply has_prefix_spec. by eexists. Qed.

Lemma metaKey_prefix t r n : has_prefix (CheckpointKey t r ++ str "/") (metaKey t r n) = true.
Proof. apply has_prefix_spec. exists n. unfold metaKey. by rewrite app_assoc. Qed.

Lemma metaKey_inj t r n n' : metaKey t r n = metaKey t r n' → n = n'.
Proof. unfold metaKey. intros H. by apply app_inv_head, app_inv_head in H. Qed.

(** Where the file [p] of the checkpoint directory goes. *)
Definition is_sst (p : bytes) : bool := has_suffix (str ".sst") (base_name p).
Definition target (t r : Z) (p c : bytes) : bytes :=
  if is_sst p then sst_key c (base_name p) else metaKey t r (base_name p).

Lemma target_name t r p c p' c' : target t r p c = target t r p' c' → base_name p = base_name p'.
Proof.
  unfold target. intros H. destruct (is_sst p), (is_sst p').
  - by eapply sst_key_inj.
  - exfalso. eapply (sst_not_checkpoint t r); [apply sst_key_prefix|]. rewrite H. apply metaKey_prefix.
  - exfalso. eapply (sst_not_checkpoint t r); [apply sst_key_prefix|]. rewrite <- H. apply metaKey_prefix.
  - by eapply metaKey_inj.
Qed.

(** The files of the directory: plain ASCII names, none of them the index. *)
Definition flat_name (n : bytes) : Prop := x2f ∉ n ∧ ascii n ∧ n ≠ str "manifest.json".
Definition flat_dir (dir : bytes) (paths : list bytes) : Prop :=
  ∀ p, p ∈ paths → ∃ n, p = path_join dir n ∧ flat_name n.

Lemma flat_base dir n : flat_name n → base_name (path_join dir n) = n.
Proof. intros [Hn _]. unfold path_join. by apply base_name_app. Qed.

Lemma flat_inj dir paths p p' : flat_dir dir paths → p ∈ paths → p' ∈ paths → base_name p = base_name p' → p = p'.
Proof.
  intros Hf Hp Hp' Heq. destruct (Hf p Hp) as (n & -> & Hn). destruct (Hf p' Hp') as (n' & -> & Hn').
  rewrite !flat_base in Heq by done. by subst.
Qed.

(** ** Uploading *)

Section Write.
Context {S T : Type} `{OI : ObjectStore S} `{OOk : !ObjectStoreOk S} `{AI : ObjectStore T} `{AOk : !ObjectStoreOk T}.
#[local] Notation state := (world S * option T)%type.
Implicit Types st : state.

Definition own st : gmap bytes bytes := objects (w_obj st.1).
Definition anc st : gmap bytes bytes := match st.2 with Some t => objects t | None => ∅ end.
Definition files st : gmap bytes bytes := w_files st.1.

Lemma syscall_frame (w : world S) r w' : syscall w = (r, w') → w_files w' = w_files w ∧ w_obj w' = w_obj w.
Proof using. unfold syscall, next_fault. repeat case_match; intros [= <- <-]; simplify_eq; done. Qed.

Lemma open_read_spec (w : world S) path c r w' :
  w_files w !! path = Some c → os_open_read path w = (r, w') →
  w_files w' = w_files w ∧ w_obj w' = w_obj w ∧
  match r with Ok rd => r_data rd `prefix_of` c ∧ (source_ended rd → r_data rd = c) | Err _ => True end.
Proof using.
  intros Hc. unfold os_open_read, source_ended. rewrite Hc. destruct (syscall w) as [[[]|e] w1] eqn:E; apply syscall_frame in E as [Hf Ho].
  2:{ by intros [= <- <-]. }
  unfold next_fault. destruct (w_faults w1) as [|f fs]; intros [= <- <-]; cbn; (split; [done|]); (split; [done|]); [done|].
  destruct f as [[e n]|]; [|done]. destruct e; cbn; try done; (split; [apply prefix_take|naive_solver]).
Qed.

Lemma on_world_run {A} (m : ST (world S) A) st r st' :
  on_world (T := T) m st = (r, st') → m st.1 = (r, st'.1) ∧ st'.2 = st.2.
Proof using. unfold on_world, zoom. destruct (m st.1) as [r1 w1]. by intros [= <- <-]. Qed.

Lemma on_store_run {A} (m : ST S A) st r st' :
  on_store (T := T) m st = (r, st') → m (w_obj st.1) = (r, w_obj st'.1) ∧ files st' = files st ∧ st'.2 = st.2.
Proof using.
  unfold on_store. intros [H H2]%on_world_run. unfold zoom in H. destruct (m (w_obj st.1)) as [r1 o1].
  injection H as <- Hw. unfold files. rewrite <- Hw. done.
Qed.

(** An upload writes the whole file or nothing, also when it fails. *)
Lemma putFile_spec key path c st r st' :
  files st !! path = Some c → putFile (T := T) key path st = (r, st') →
  files st' = files st ∧ st'.2 = st.2 ∧
  (own st' = <[key := c]> (own st) ∨ own st' = own st ∧ r ≠ Ok tt).
Proof using OOk.
  intros Hc. unfold putFile, mbind, ST_bind. destruct (on_world (os_open_read path) st) as [[f|e] st1] eqn:E1;
    apply on_world_run in E1 as [E1 Ht1]; apply (open_read_spec _ _ c) in E1 as (Hf1 & Ho1 & Hr); try done.
  2:{ intros [= <- <-]. split; [done|]. split; [done|]. right. unfold own. by rewrite Ho1. }
  intros E2. apply on_store_run in E2 as (E2 & Hf2 & Ht2). apply obj_Put_law in E2.
  split; [unfold files in *; congruence|]. split; [congruence|]. destruct Hr as [_ Hfull]. unfold own in *. rewrite Ho1 in E2.
  destruct r as [[]|e].
  - destruct E2 as [He E2]. left. by rewrite E2, (Hfull He).
  - destruct E2 as [E2|[He E2]]; [by right|left; by rewrite E2, (Hfull He)].
Qed.

Lemma contentSSTKey_spec path name c st r st' :
  files st !! path = Some c → contentSSTKey (T := T) path name st = (r, st') →
  files st' = files st ∧ st'.2 = st.2 ∧ own st' = own st ∧ match r with Ok k => k = sst_key c name | Err _ => True end.
Proof using.
  intros Hc. unfold contentSSTKey, mbind, ST_bind, mret, ST_ret, throw. destruct (on_world (os_open_read path) st) as [[f|e] st1] eqn:E1;
    apply on_world_run in E1 as [E1 Ht1]; apply (open_read_spec _ _ c) in E1 as (Hf1 & Ho1 & Hr); try done.
  - destruct Hr as [_ Hfull]. assert (own st1 = own st) as Ho by (unfold own; by rewrite Ho1).
    destruct (r_err f) eqn:Ef; intros [= <- <-]; try done. by rewrite (Hfull (or_introl Ef)).
  - intros [= <- <-]. unfold own. by rewrite Ho1.
Qed.

(** The files of the checkpoint directory, and where they belong. *)
Section Walk.
Context (term revision : Z) (dir : bytes) (paths : list bytes) (F : gmap bytes bytes).
Context (Hflat : flat_dir dir paths) (HF : ∀ p, p ∈ paths → is_Some (F !! p)).

(** Every change of the store puts a file where it belongs. *)
Definition only_uploads (o o' : gmap bytes bytes) : Prop :=
  ∀ k, o' !! k = o !! k ∨ ∃ p c, p ∈ paths ∧ F !! p = Some c ∧ k = target term revision p c ∧ o' !! k = Some c.

(** [p] is recorded in the lists. *)
Definition covered (acc : filesAcc) (p : bytes) : Prop :=
  ∃ c, F !! p = Some c ∧
    if is_sst p then sst_key c (base_name p) ∈ acc.1.1 ∨ sst_key c (base_name p) ∈ acc.1.2
    else base_name p ∈ acc.2.

(** The lists name files of the directory only, and these are stored. *)
Record lists_ok (o oa : gmap bytes bytes) (acc : filesAcc) : Prop := {
  li_own k : k ∈ acc.1.1 → ∃ p c, p ∈ paths ∧ F !! p = Some c ∧ is_sst p = true ∧ k = sst_key c (base_name p) ∧ o !! k = Some c;
  li_anc k : k ∈ acc.1.2 → ∃ p c, p ∈ paths ∧ F !! p = Some c ∧ is_sst p = true ∧ k = sst_key c (base_name p) ∧ oa !! k = Some c;
  li_meta n : n ∈ acc.2 → ∃ p c, p ∈ paths ∧ F !! p = Some c ∧ is_sst p = false ∧ n = base_name p ∧ o !! metaKey term revision n = Some c }.

Lemma only_uploads_refl o : only_uploads o o.
Proof using. by left. Qed.

Lemma target_unique p c p' c' :
  p ∈ paths → p' ∈ paths → F !! p = Some c → F !! p' = Some c' → target term revision p c = target term revision p' c' → c = c'.
Proof using Hflat.
  intros Hp Hp' Hc Hc' Heq. apply target_name in Heq.
  rewrite (flat_inj dir paths p p' Hflat Hp Hp' Heq) in Hc. congruence.
Qed.

Lemma only_uploads_trans o1 o2 o3 : only_uploads o1 o2 → only_uploads o2 o3 → only_uploads o1 o3.
Proof using.
  intros H12 H23 k. destruct (H23 k) as [->|?]; [apply H12|by right].
Qed.

Lemma only_uploads_put o p c : p ∈ paths → F !! p = Some c → only_uploads o (<[target term revision p c := c]> o).
Proof using.
  intros Hp Hc k. destruct (decide (k = target term revision p c)) as [->|Hne].
  - right. exists p, c. rewrite lookup_insert_eq. done.
  - left. by rewrite lookup_insert_ne.
Qed.

(** A stored file stays stored. *)
Lemma stored_stable o o' p c :
  p ∈ paths → F !! p = Some c → only_uploads o o' → o !! target term revision p c = Some c → o' !! target term revision p c = Some c.
Proof using Hflat.
  intros Hp Hc Hu Hs. destruct (Hu (target term revision p c)) as [->|(p' & c' & Hp' & Hc' & Heq & ->)]; [done|].
  by rewrite (target_unique p c p' c').
Qed.

Lemma covered_mono acc acc' p : acc.1.1 ⊆ acc'.1.1 → acc.1.2 ⊆ acc'.1.2 → acc.2 ⊆ acc'.2 → covered acc p → covered acc' p.
Proof using.
  intros H1 H2 H3 (c & Hc & Hcov). exists c. split; [done|]. destruct (is_sst p); [|by apply H3].
  destruct Hcov; [left; by apply H1|right; by apply H2].
Qed.

Lemma lists_ok_stable o o' oa acc : only_uploads o o' → lists_ok o oa acc → lists_ok o' oa acc.
Proof using Hflat.
  intros Hu [H1 H2 H3]. split; [|done|].
  - intros k Hk. destruct (H1 k Hk) as (p & c & Hp & Hc & Hs & -> & Ho). exists p, c. do 4 (split; [done|]).
    pose proof (stored_stable o o' p c Hp Hc Hu) as Hst. unfold target in Hst. rewrite Hs in Hst. auto.
  - intros n Hn. destruct (H3 n Hn) as (p & c & Hp & Hc & Hs & -> & Ho). exists p, c. do 4 (split; [done|]).
    pose proof (stored_stable o o' p c Hp Hc Hu) as Hst. unfold target in Hst. rewrite Hs in Hst. auto.
Qed.

(** What the walk needs of the sets of known SSTs: a known file is stored. *)
Definition known_ok (known_own known_anc : gset bytes) (o oa : gmap bytes bytes) : Prop :=
  ∀ p c, p ∈ paths → F !! p = Some c → is_sst p = true →
    (sst_key c (base_name p) ∈ known_own → o !! sst_key c (base_name p) = Some c) ∧
    (sst_key c (base_name p) ∈ known_anc → oa !! sst_key c (base_name p) = Some c).

Lemma known_ok_stable k1 k2 o o' oa : known_ok k1 k2 o oa → only_uploads o o' → known_ok k1 k2 o' oa.
Proof using Hflat.
  intros Hk Hu p c Hp Hc Hs. destruct (Hk p c Hp Hc Hs) as [H1 H2]. split; [|done]. intros Hin.
  pose proof (stored_stable o o' p c Hp Hc Hu) as Hst. unfold target in Hst. rewrite Hs in Hst. auto.
Qed.

(** One file of the walk. *)
Definition visited st acc p (r : result filesAcc) st' : Prop :=
  files st' = files st ∧ st'.2 = st.2 ∧ only_uploads (own st) (own st') ∧
  match r with
  | Ok acc' => acc.1.1 ⊆ acc'.1.1 ∧ acc.1.2 ⊆ acc'.1.2 ∧ acc.2 ⊆ acc'.2 ∧
      covered acc' p ∧ (lists_ok (own st) (anc st) acc → lists_ok (own st') (anc st) acc')
  | Err _ => True
  end.

Lemma lists_ok_own o oa sst an meta p c :
  p ∈ paths → F !! p = Some c → is_sst p = true → o !! sst_key c (base_name p) = Some c →
  lists_ok o oa (sst, an, meta) → lists_ok o oa (sst ++ [sst_key c (base_name p)], an, meta).
Proof using.
  intros Hp Hc Hs Ho [H1 H2 H3]. split; [|done|done]. intros k Hk.
  apply elem_of_app in Hk as [Hk| ->%list_elem_of_singleton]; [by apply H1|by exists p, c].
Qed.

Lemma lists_ok_anc o oa sst an meta p c :
  p ∈ paths → F !! p = Some c → is_sst p = true → oa !! sst_key c (base_name p) = Some c →
  lists_ok o oa (sst, an, meta) → lists_ok o oa (sst, an ++ [sst_key c (base_name p)], meta).
Proof using.
  intros Hp Hc Hs Ho [H1 H2 H3]. split; [done| |done]. intros k Hk.
  apply elem_of_app in Hk as [Hk| ->%list_elem_of_singleton]; [by apply H2|by exists p, c].
Qed.

Lemma uploadMeta_spec p c acc st r st' :
  p ∈ paths → F !! p = Some c → files st !! p = Some c → is_sst p = false →
  uploadMeta (T := T) term revision p (base_name p) acc st = (r, st') → visited st acc p r st'.
Proof using OOk Hflat.
  intros Hp Hc Hf Hs. destruct acc as [[sst an] meta]. unfold uploadMeta, mbind, ST_bind, mret, ST_ret.
  assert (target term revision p c = metaKey term revision (base_name p)) as Ht by (unfold target; by rewrite Hs).
  pose proof (only_uploads_put (own st) p c Hp Hc) as Hput. rewrite Ht in Hput.
  destruct (putFile _ p st) as [[[]|e] st1] eqn:E; apply (putFile_spec _ _ c) in E as (Hf1 & Ht1 & Ho); try done;
    intros [= <- <-]; (split; [done|]); (split; [done|]).
  - destruct Ho as [Ho|[_ ?]]; [|done]. rewrite Ho. split; [done|]. cbn [fst snd].
    split; [done|]. split; [done|]. split; [intros x Hx; apply elem_of_app; by left|]. split.
    + exists c. rewrite Hs. split; [done|]. cbn [snd]. apply elem_of_app. right. by left.
    + intros Hl. apply (lists_ok_stable _ _ _ _ Hput) in Hl as [H1 H2 H3]. split; [done|done|]. intros n Hn.
      apply elem_of_app in Hn as [Hn| ->%list_elem_of_singleton]; [by apply H3|].
      exists p, c. do 4 (split; [done|]). apply lookup_insert_eq.
  - split; [|done]. destruct Ho as [->|[-> _]]; [done|apply only_uploads_refl].
Qed.

(** An SST that is uploaded and recorded. *)
Lemma upload_sst_visited p c acc st st1 st' (r : result ()) :
  p ∈ paths → F !! p = Some c → files st1 !! p = Some c → is_sst p = true →
  files st1 = files st → st1.2 = st.2 → own st1 = own st →
  putFile (T := T) (sst_key c (base_name p)) p st1 = (r, st') →
  visited st acc p (match r with Ok _ => Ok (acc.1.1 ++ [sst_key c (base_name p)], acc.1.2, acc.2) | Err e => Err e end) st'.
Proof using OOk Hflat.
  intros Hp Hc Hf Hs Hf1 Ht1 Ho1 E. apply (putFile_spec _ _ c) in E as (Hf2 & Ht2 & Ho2); [|done].
  assert (target term revision p c = sst_key c (base_name p)) as Ht by (unfold target; by rewrite Hs).
  pose proof (only_uploads_put (own st) p c Hp Hc) as Hput. rewrite Ht in Hput. rewrite Ho1 in Ho2.
  split; [congruence|]. split; [congruence|]. destruct r as [[]|e].
  - destruct Ho2 as [Ho2|[_ ?]]; [|done]. rewrite Ho2. split; [done|]. cbn [fst snd].
    split; [intros x Hx; apply elem_of_app; by left|]. split; [done|]. split; [done|]. split.
    + exists c. rewrite Hs. split; [done|]. left. cbn [fst]. apply elem_of_app. right. by left.
    + intros Hl. destruct acc as [[? ?] ?]. apply lists_ok_own; [done..|apply lookup_insert_eq|]. by apply (lists_ok_stable _ _ _ _ Hput).
  - split; [|done]. destruct Ho2 as [->|[-> _]]; [done|apply only_uploads_refl].
Qed.

(** An SST that is already stored and is only recorded. *)
Lemma record_sst_visited p c acc st st' (ancestor : bool) :
  p ∈ paths → F !! p = Some c → is_sst p = true → files st' = files st → st'.2 = st.2 → own st' = own st →
  (if ancestor then anc st else own st) !! sst_key c (base_name p) = Some c →
  visited st acc p (Ok (if ancestor then (acc.1.1, acc.1.2 ++ [sst_key c (base_name p)], acc.2)
                        else (acc.1.1 ++ [sst_key c (base_name p)], acc.1.2, acc.2))) st'.
Proof using.
  intros Hp Hc Hs Hf Ht Ho Hst. split; [done|]. split; [done|]. rewrite Ho. split; [apply only_uploads_refl|].
  assert (∀ l : list bytes, l ⊆ l ++ [sst_key c (base_name p)]) as Hsub by (intros l x Hx; apply elem_of_app; by left).
  assert (∀ l : list bytes, sst_key c (base_name p) ∈ l ++ [sst_key c (base_name p)]) as Hin by (intros l; apply elem_of_app; right; by left).
  destruct acc as [[sst an] meta], ancestor; cbn [fst snd]; split_and!; try done.
  - exists c. rewrite Hs. split; [done|]. right. cbn [fst snd]. auto.
  - intros Hl. by apply lists_ok_anc.
  - exists c. rewrite Hs. split; [done|]. left. cbn [fst snd]. auto.
  - intros Hl. by apply lists_ok_own.
Qed.

Lemma visit_spec known_own known_anc p acc st r st' :
  p ∈ paths → files st !! p = F !! p → known_ok known_own known_anc (own st) (anc st) →
  visit (T := T) known_own known_anc term revision p acc st = (r, st') → visited st acc p r st'.
Proof using OOk HF Hflat.
  intros Hp Hf Hk. destruct (HF p Hp) as [c Hc]. rewrite Hc in Hf. destruct acc as [[sst an] meta]. unfold visit.
  destruct (has_suffix (str ".sst") (base_name p)) eqn:Hs; [|intros H; by eapply uploadMeta_spec].
  unfold mbind, ST_bind, mret, ST_ret. destruct (contentSSTKey p (base_name p) st) as [[k|e] st1] eqn:E1;
    apply (contentSSTKey_spec _ _ c) in E1 as (Hf1 & Ht1 & Ho1 & Hkey); try done.
  2:{ intros [= <- <-]. split; [done|]. split; [done|]. rewrite Ho1. split; [apply only_uploads_refl|done]. }
  subst k. destruct (Hk p c Hp Hc Hs) as [Hk1 Hk2]. case_bool_decide as Hb1.
  { intros [= <- <-]. by apply (record_sst_visited p c (sst, an, meta) st st1 false); auto. }
  case_bool_decide as Hb2.
  { intros [= <- <-]. by apply (record_sst_visited p c (sst, an, meta) st st1 true); auto. }
  destruct (putFile _ p st1) as [rp st2] eqn:E2. intros Heq.
  assert (files st1 !! p = Some c) as Hf' by congruence.
  pose proof (upload_sst_visited p c (sst, an, meta) st st1 st2 rp Hp Hc Hf' Hs Hf1 Ht1 Ho1 E2) as Hv.
  destruct rp as [[]|e]; by injection Heq as <- <-.
Qed.

(** What the walk with registries needs of them. *)
Definition registry_ok (localRegistry inheritedRegistry : gmap bytes bytes) (o oa : gmap bytes bytes) : Prop :=
  ∀ p c, p ∈ paths → F !! p = Some c → is_sst p = true →
    (∀ k, inheritedRegistry !! base_name p = Some k → k = sst_key c (base_name p) ∧ oa !! k = Some c) ∧
    (∀ k, localRegistry !! base_name p = Some k → k = sst_key c (base_name p) ∧ o !! k = Some c).

Lemma registry_ok_stable l i o o' oa : registry_ok l i o oa → only_uploads o o' → registry_ok l i o' oa.
Proof using Hflat.
  intros Hk Hu p c Hp Hc Hs. destruct (Hk p c Hp Hc Hs) as [H1 H2]. split; [done|]. intros k Hin.
  destruct (H2 k Hin) as [-> Ho]. split; [done|].
  pose proof (stored_stable o o' p c Hp Hc Hu) as Hst. unfold target in Hst. rewrite Hs in Hst. auto.
Qed.

Lemma visitRegistry_spec localRegistry inheritedRegistry p acc st r st' :
  p ∈ paths → files st !! p = F !! p → registry_ok localRegistry inheritedRegistry (own st) (anc st) →
  visitRegistry (T := T) localRegistry inheritedRegistry term revision p acc st = (r, st') → visited st acc p r st'.
Proof using OOk HF Hflat.
  intros Hp Hf Hk. destruct (HF p Hp) as [c Hc]. rewrite Hc in Hf. destruct acc as [[sst an] meta]. unfold visitRegistry.
  destruct (has_suffix (str ".sst") (base_name p)) eqn:Hs; [|intros H; by eapply uploadMeta_spec].
  destruct (Hk p c Hp Hc Hs) as [Hk1 Hk2]. destruct (inheritedRegistry !! base_name p) as [k|] eqn:Ei.
  { destruct (Hk1 k eq_refl) as [-> Ho]. intros [= <- <-]. by apply (record_sst_visited p c (sst, an, meta) st st true). }
  unfold mbind, ST_bind, mret, ST_ret. destruct (localRegistry !! base_name p) as [k|] eqn:El.
  { destruct (Hk2 k eq_refl) as [-> Ho]. intros [= <- <-]. by apply (record_sst_visited p c (sst, an, meta) st st false). }
  destruct (contentSSTKey p (base_name p) st) as [[k|e] st1] eqn:E1;
    apply (contentSSTKey_spec _ _ c) in E1 as (Hf1 & Ht1 & Ho1 & Hkey); try done.
  2:{ intros [= <- <-]. split; [done|]. split; [done|]. rewrite Ho1. split; [apply only_uploads_refl|done]. }
  subst k. destruct (putFile _ p st1) as [rp st2] eqn:E2. intros Heq.
  assert (files st1 !! p = Some c) as Hf' by congruence.
  pose proof (upload_sst_visited p c (sst, an, meta) st st1 st2 rp Hp Hc Hf' Hs Hf1 Ht1 Ho1 E2) as Hv.
  destruct rp as [[]|e]; by injection Heq as <- <-.
Qed.

(** The whole walk, for either of the two visitors. *)
Lemma walkLoop_spec (f : bytes → filesAcc → ST state filesAcc) (K : gmap bytes bytes → gmap bytes bytes → Prop) :
  (∀ p acc st r st', p ∈ paths → files st !! p = F !! p → K (own st) (anc st) → f p acc st = (r, st') → visited st acc p r st') →
  (∀ o o' oa, K o oa → only_uploads o o' → K o' oa) →
  ∀ ps acc st r st', ps ⊆ paths → (∀ p, p ∈ paths → files st !! p = F !! p) → K (own st) (anc st) →
  walkLoop f ps acc st = (r, st') →
  files st' = files st ∧ st'.2 = st.2 ∧ only_uploads (own st) (own st') ∧
  match r with
  | Ok acc' => acc.1.1 ⊆ acc'.1.1 ∧ acc.1.2 ⊆ acc'.1.2 ∧ acc.2 ⊆ acc'.2 ∧
      (∀ p, p ∈ ps → covered acc' p) ∧ (lists_ok (own st) (anc st) acc → lists_ok (own st') (anc st) acc')
  | Err _ => True
  end.
Proof using Hflat.
  clear HF. intros Hf HK ps. induction ps as [|p ps IH]; intros acc st r st' Hps Hfiles Hk; cbn [walkLoop].
  { intros [= <- <-]. split; [done|]. split; [done|]. split; [apply only_uploads_refl|].
    do 3 (split; [done|]). split; [by intros p ?%not_elem_of_nil|done]. }
  assert (p ∈ paths) as Hp by (apply Hps; by left). assert (ps ⊆ paths) as Hps' by (intros x Hx; apply Hps; by right).
  unfold mbind, ST_bind. destruct (f p acc st) as [[acc1|e] st1] eqn:E; apply Hf in E as (Hf1 & Ht1 & Hu1 & Hv); auto.
  2:{ intros [= <- <-]. done. }
  destruct Hv as (Ha & Hb & Hm & Hcov & Hl). intros Hw.
  assert (anc st1 = anc st) as Hanc by (unfold anc; by rewrite Ht1).
  apply IH in Hw as (Hf2 & Ht2 & Hu2 & Hr); [|done|intros x Hx; rewrite Hf1; by apply Hfiles|rewrite Hanc; by eapply HK].
  split; [congruence|]. split; [congruence|]. split; [by eapply only_uploads_trans|].
  destruct r as [acc2|]; [|done]. destruct Hr as (Ha2 & Hb2 & Hm2 & Hcov2 & Hl2). rewrite Hanc in Hl2.
  split; [by etrans|]. split; [by etrans|]. split; [by etrans|]. split; [|auto].
  intros x [->|Hx]%elem_of_cons; [|by apply Hcov2]. by eapply covered_mono.
Qed.
End Walk.

(** ** The manifest and the index *)

Record index_ok (i : CheckpointIndex) : Prop := {
  io_version : is_u32 (ix_FormatVersion i);
  io_term : is_u64 (ix_Term i);
  io_rev : is_i64 (ix_Revision i);
  io_seq : is_i64 (ix_LastSequence i);
  io_sst : Forall (λ s, valid_utf8 s = true) (ix_SSTFiles i);
  io_anc : Forall (λ s, valid_utf8 s = true) (ix_AncestorSSTFiles i);
  io_meta : Forall (λ s, valid_utf8 s = true) (ix_PebbleMeta i) }.

Lemma index_json_wf i : index_ok i → jwf maxNestingDepth (index_json i).
Proof using.
  intros []. unfold index_json, omitempty. apply wf_obj; [done|].
  destruct (ix_FormatVersion i =? 0), (ix_LastSequence i =? 0), (bool_decide (ix_AncestorSSTFiles i = []));
    cbn [app]; solve_jwf; (left; unfold is_i64, is_u32 in *; lia) || (right; unfold is_u64, is_u32 in *; lia) || done.
Qed.

Lemma index_decode_val i : index_ok i → decode_val index_fields zero_index (index_json i) = Some i.
Proof using.
  intros [Hv Ht Hr Hs _ _ _]. unfold index_json, omitempty, decode_val.
  assert (is_u64 (ix_FormatVersion i)) by (unfold is_u32, is_u64 in *; lia).
  destruct (Z.eqb_spec (ix_FormatVersion i) 0) as [E1|E1]; destruct (Z.eqb_spec (ix_LastSequence i) 0) as [E2|E2];
    case_bool_decide as E3; cbn [app];
    store_fields_by ltac:(cbn [ix_FormatVersion ix_Term ix_Revision ix_LastSequence ix_SSTFiles ix_AncestorSSTFiles ix_PebbleMeta zero_index]);
    destruct i; cbn in E1, E2, E3; by subst.
Qed.

Lemma idx_of_index o key i :
  index_ok i → ix_FormatVersion i ≤ CheckpointFormatVersion → o !! key = Some (print (index_json i)) →
  idx_of o key = Some (index_default i).
Proof using.
  intros Hok Hv Ho. unfold idx_of. rewrite Ho. cbn [mbind option_bind].
  rewrite (Decode_print index_fields zero_index (index_json i) i) by (auto using index_json_wf, index_decode_val).
  by rewrite (proj2 (Z.ltb_ge _ _)) by done.
Qed.

(** The manifest an object store holds. *)
Definition manifest_of (o : gmap bytes bytes) : option Manifest :=
  c ← o !! ManifestKey;
  match Decode manifest_fields zero_manifest (mkReader c ErrEOF) with
  | Ok m => if CheckpointFormatVersion <? mf_FormatVersion m then None else Some (manifest_default m)
  | Err _ => None
  end.

Lemma ReadManifest_spec (s : S) r s' :
  ReadManifest s = (r, s') →
  objects s' = objects s ∧
  match r with Ok (Some m) => manifest_of (objects s) = Some m | Ok None => objects s !! ManifestKey = None | Err _ => True end.
Proof using OOk.
  unfold ReadManifest, mbind, ST_bind, try, from_result, mret, ST_ret, throw.
  destruct (obj_Get ManifestKey s) as [[rc|e] s1] eqn:E; apply obj_Get_law in E as [Ho Hg].
  - destruct Hg as (c & Hc & Hp & _). destruct (Decode _ _ rc) as [m|e] eqn:Ed; [|by intros [= <- <-]].
    unfold manifest_of. rewrite Hc. cbn [mbind option_bind]. rewrite (Decode_more _ _ rc c ErrEOF m Hp Ed).
    destruct (_ <? _); by intros [= <- <-].
  - destruct e; by intros [= <- <-].
Qed.

Record manifest_ok (m : Manifest) : Prop := {
  mo_version : is_u32 (mf_FormatVersion m);
  mo_key : valid_utf8 (mf_CheckpointKey m) = true;
  mo_rev : is_i64 (mf_Revision m);
  mo_seq : is_i64 (mf_LastSequence m);
  mo_term : is_u64 (mf_Term m);
  mo_wal : valid_utf8 (mf_LastWALKey m) = true }.

Lemma manifest_of_manifest o m :
  manifest_ok m → mf_FormatVersion m ≤ CheckpointFormatVersion → o !! ManifestKey = Some (print (manifest_json m)) →
  manifest_of o = Some (manifest_default m).
Proof using.
  intros [Hv Hk Hr Hs Ht Hw] Hver Ho. unfold manifest_of. rewrite Ho. cbn [mbind option_bind].
  assert (is_u64 (mf_FormatVersion m)) by (unfold is_u32, is_u64 in *; lia).
  rewrite (Decode_print manifest_fields zero_manifest (manifest_json m) m).
  - by rewrite (proj2 (Z.ltb_ge _ _)) by done.
  - unfold manifest_json, omitempty. apply wf_obj; [done|].
    destruct (mf_FormatVersion m =? 0), (mf_LastSequence m =? 0), (bool_decide (mf_LastWALKey m = []));
      cbn [app]; solve_jwf; (left; unfold is_i64, is_u32 in *; lia) || (right; unfold is_u64, is_u32 in *; lia) || done.
  - unfold manifest_json, omitempty, decode_val.
    destruct (Z.eqb_spec (mf_FormatVersion m) 0) as [E1|]; destruct (Z.eqb_spec (mf_LastSequence m) 0) as [E2|];
      case_bool_decide as E3; cbn [app]; store_fields; destruct m; cbn in *; by subst.
Qed.

Lemma writeIndex_spec term revision sequence wk sst an meta (s : S) r s' :
  writeIndex term revision sequence wk sst an meta s = (r, s') →
  let ikey := CheckpointIndexKey term revision in
  let o1 := <[ikey := print (index_json (mkIndex CheckpointFormatVersion term revision sequence sst an meta))]> (objects s) in
  let m := mkManifest CheckpointFormatVersion ikey revision sequence term wk in
  objects s' = <[ManifestKey := print (manifest_json m)]> o1 ∨ r ≠ Ok tt ∧ (objects s' = o1 ∨ objects s' = objects s).
Proof using OOk.
  unfold writeIndex, mbind, ST_bind. destruct (obj_Put (CheckpointIndexKey term revision) _ s) as [[[]|e] s1] eqn:E1;
    apply obj_Put_law in E1.
  - destruct E1 as [_ E1]. cbn [r_data] in E1. unfold WriteManifest. intros E2. apply obj_Put_law in E2. cbn [r_data] in E2.
    rewrite E1 in E2. destruct r as [[]|e]; [left; by destruct E2|]. destruct E2 as [E2|[_ E2]]; [right; auto|by left].
  - intros [= <- <-]. right. split; [done|]. destruct E1 as [E1|[_ E1]]; cbn [r_data] in E1; auto.
Qed.

Lemma knownSSTSets_spec st r st' :
  knownSSTSets (S := S) (T := T) st = (r, st') →
  files st' = files st ∧ own st' = own st ∧ anc st' = anc st ∧
  match r with
  | Ok known =>
      (∀ k, k ∈ known.1 → ∃ m i, manifest_of (own st) = Some m ∧ idx_of (own st) (mf_CheckpointKey m) = Some i ∧ k ∈ ix_SSTFiles i) ∧
      (∀ k, k ∈ known.2 → (∃ m i, manifest_of (own st) = Some m ∧ idx_of (own st) (mf_CheckpointKey m) = Some i ∧ k ∈ ix_AncestorSSTFiles i) ∨
         is_Some (anc st !! k))
  | Err _ => True
  end.
Proof using OOk AOk.
  unfold knownSSTSets. unfold mbind at 1. unfold ST_bind at 1, try at 1.
  destruct (on_store ReadManifest st) as [rm st1] eqn:E1. apply on_store_run in E1 as (E1 & Hf1 & Ht1).
  apply ReadManifest_spec in E1 as [Ho1 Hm]. fold (own st) (own st1) in *.
  unfold mbind at 1, ST_bind at 1.
  set (M := match rm with Ok (Some m) => _ | _ => _ end).
  destruct (M st1) as [rs st2] eqn:E2.
  assert (files st2 = files st ∧ own st2 = own st ∧ st2.2 = st.2 ∧ ∃ sets, rs = Ok sets ∧
    (∀ k, k ∈ sets.1 → ∃ m i, manifest_of (own st) = Some m ∧ idx_of (own st) (mf_CheckpointKey m) = Some i ∧ k ∈ ix_SSTFiles i) ∧
    (∀ k, k ∈ sets.2 → ∃ m i, manifest_of (own st) = Some m ∧ idx_of (own st) (mf_CheckpointKey m) = Some i ∧ k ∈ ix_AncestorSSTFiles i))
    as (Hf2 & Ho2 & Ht2 & sets & -> & Hs1 & Hs2).
  { subst M. assert (files st1 = files st ∧ own st1 = own st ∧ st1.2 = st.2) as (Hf & Ho & Ht) by done.
    destruct rm as [[m|]|e]; [|injection E2 as <- <-; split_and!; try done; exists (∅, ∅); set_solver..].
    unfold mbind, ST_bind, try, mret, ST_ret in E2.
    destruct (on_store (ReadCheckpointIndex (mf_CheckpointKey m)) st1) as [ri st3] eqn:E3. injection E2 as <- <-.
    apply on_store_run in E3 as (E3 & Hf3 & Ht3). apply ReadCheckpointIndex_spec in E3 as [Ho3 Hi]. fold (own st1) (own st3) in *.
    split; [congruence|]. split; [congruence|]. split; [congruence|]. eexists. split; [done|].
    destruct ri as [i|e]; [|cbn; set_solver]. rewrite Ho in Hi. cbn [fst snd].
    split; intros k Hk%elem_of_list_to_set; exists m, i; done. }
  assert (anc st2 = anc st) as Ha2 by (unfold anc; by rewrite Ht2).
  unfold mbind at 1, ST_bind at 1, get_st at 1. destruct st2.2 as [t|] eqn:Et.
  - case_bool_decide as Hemp.
    + unfold on_ancestor_or. unfold mbind, ST_bind, mret, ST_ret. rewrite Et.
      destruct (listSSTSet t) as [rl t'] eqn:El.
      assert (objects t' = objects t ∧ match rl with Ok l => ∀ k, k ∈ l → is_Some (objects t !! k) | Err _ => True end) as [Hot Hl].
      { unfold listSSTSet, mbind, ST_bind, mret, ST_ret in El. destruct (obj_List (str "sst/") t) as [[ks|e] t1] eqn:Els;
          apply obj_List_law in Els as [Hot Hin]; injection El as <- <-; (split; [done|]); [|done].
        intros k Hk%elem_of_list_to_set. by apply Hin in Hk as [_ ?]. }
      assert (anc st = objects t) as Hanc by (rewrite <- Ha2; unfold anc; by rewrite Et).
      destruct rl as [l|e]; intros [= <- <-]; cbn [fst snd]; unfold files, own, anc in *; cbn [fst snd];
        (split; [done|]); (split; [done|]); (split; [by rewrite Hot|]); [|done].
      rewrite Hanc. split; [done|]. intros k Hk. right. by apply Hl.
    + unfold mret, ST_ret. intros [= <- <-]. split_and!; auto.
  - unfold mret, ST_ret. intros [= <- <-]. split_and!; auto.
Qed.

(** ** Publishing *)

Definition sst_name (n : bytes) : bool := has_suffix (str ".sst") n.

(** The store holds every file of [image], under the keys that [idx] lists, and
    [idx] lists nothing else. *)
Record holds (term revision : Z) (image o oa : gmap bytes bytes) (idx : CheckpointIndex) : Prop := {
  ho_sst n c : image !! n = Some c → sst_name n = true → sst_key c n ∈ ix_SSTFiles idx ∨ sst_key c n ∈ ix_AncestorSSTFiles idx;
  ho_meta n c : image !! n = Some c → sst_name n = false → n ∈ ix_PebbleMeta idx;
  ho_own k : k ∈ ix_SSTFiles idx → ∃ n c, image !! n = Some c ∧ sst_name n = true ∧ k = sst_key c n ∧ o !! k = Some c;
  ho_anc k : k ∈ ix_AncestorSSTFiles idx → ∃ n c, image !! n = Some c ∧ sst_name n = true ∧ k = sst_key c n ∧ oa !! k = Some c;
  ho_only_meta n : n ∈ ix_PebbleMeta idx → ∃ c, image !! n = Some c ∧ sst_name n = false ∧ o !! metaKey term revision n = Some c }.

(** The manifest names the checkpoint and the checkpoint is complete. *)
Definition published (term revision : Z) (image o oa : gmap bytes bytes) : Prop :=
  ∃ m idx, manifest_of o = Some m ∧ mf_CheckpointKey m = CheckpointIndexKey term revision ∧ mf_Revision m = revision ∧
    idx_of o (CheckpointIndexKey term revision) = Some idx ∧ ix_Term idx = term ∧ ix_Revision idx = revision ∧
    holds term revision image o oa idx.

(** What Pebble's [Checkpoint] does: it fills a directory with the files of the
    database, with plain names. *)
Record pebble_law (pebble_Checkpoint : bytes → ST (world S) ()) (image : gmap bytes bytes) : Prop := {
  pl_frame dir w r w' : pebble_Checkpoint dir w = (r, w') → w_obj w' = w_obj w;
  pl_files dir w w' n c : pebble_Checkpoint dir w = (Ok tt, w') → image !! n = Some c → w_files w' !! path_join dir n = Some c;
  pl_only dir w w' p : pebble_Checkpoint dir w = (Ok tt, w') → has_prefix (dir ++ str "/") p = true → is_Some (w_files w' !! p) →
    ∃ n, p = path_join dir n ∧ is_Some (image !! n);
  pl_names n : is_Some (image !! n) → flat_name n }.

(** SSTs are addressed by content, and the current checkpoint has all of its
    SSTs. *)
Record addressed (image o oa : gmap bytes bytes) : Prop := {
  ad_own n c c' : image !! n = Some c → o !! sst_key c n = Some c' → c' = c;
  ad_anc n c c' : image !! n = Some c → oa !! sst_key c n = Some c' → c' = c;
  ad_index m i k : manifest_of o = Some m → idx_of o (mf_CheckpointKey m) = Some i →
    (k ∈ ix_SSTFiles i → is_Some (o !! k)) ∧ (k ∈ ix_AncestorSSTFiles i → is_Some (oa !! k)) }.

Section Publish.
Context (pebble_Checkpoint : bytes → ST (world S) ()) (image : gmap bytes bytes).
Context (Hpebble : pebble_law pebble_Checkpoint image).
Context (term revision sequence : Z) (wk : bytes).
Context (Hterm : is_u64 term) (Hrev : 0 ≤ revision < 2 ^ 63) (Hseq : is_i64 sequence) (Hwk : valid_utf8 wk = true).

Lemma ckey_ascii : ascii (CheckpointIndexKey term revision).
Proof using Hterm Hrev.
  unfold CheckpointIndexKey, CheckpointKey, is_u64 in *.
  assert (∀ w z, 0 ≤ z ≤ max_uint64 → ascii (fmt_pad w z)) as Hpad.
  { intros w z Hz. unfold fmt_pad. rewrite (proj2 (Z.ltb_ge z 0)) by lia.
    eapply Forall_impl; [by apply pad0_all_digits|]. intros b Hb. unfold is_digit in Hb.
    rewrite andb_true_iff, !Z.leb_le in Hb. lia. }
  repeat apply ascii_app; try (apply Hpad; unfold max_uint64; lia); apply (bool_decide_unpack _); by vm_compute.
Qed.

(** Once the walk has covered the directory, the store after any outcome of
    [writeIndex] has the old manifest, or the new one and a complete checkpoint. *)
Lemma publish dir paths F o oa acc (s : S) r s' :
  flat_dir dir paths → (∀ n c, image !! n = Some c → path_join dir n ∈ paths) →
  (∀ p, p ∈ paths → ∃ n c, p = path_join dir n ∧ image !! n = Some c ∧ F !! p = Some c ∧ flat_name n) →
  objects s = o → (∀ p, p ∈ paths → covered F acc p) → lists_ok term revision paths F o oa acc →
  writeIndex term revision sequence wk acc.1.1 acc.1.2 acc.2 s = (r, s') →
  (r ≠ Ok tt ∧ objects s' !! ManifestKey = o !! ManifestKey) ∨ published term revision image (objects s') oa.
Proof using OOk Hterm Hrev Hseq Hwk Hpebble.
  intros Hflat Himg HF Ho Hcov [Hl1 Hl2 Hl3] Hw. apply writeIndex_spec in Hw. cbv zeta in Hw. rewrite Ho in Hw.
  set (idx := mkIndex CheckpointFormatVersion term revision sequence acc.1.1 acc.1.2 acc.2) in *.
  set (m := mkManifest CheckpointFormatVersion (CheckpointIndexKey term revision) revision sequence term wk) in *.
  assert (ManifestKey ≠ CheckpointIndexKey term revision) as Hkey by (unfold ManifestKey, CheckpointIndexKey, CheckpointKey; cbn; discriminate).
  destruct Hw as [Hs'|[Hr [Hs'|Hs']]]; [|left; split; [done|]; rewrite Hs'; by rewrite ?lookup_insert_ne..].
  right. rewrite Hs'.
  assert (∀ p, p ∈ paths → ascii (base_name p)) as Hasc.
  { intros p Hp. destruct (HF p Hp) as (n & c' & -> & _ & _ & Hn). rewrite (flat_base dir n Hn). apply Hn. }
  assert (index_ok idx) as Hok.
  { split; cbn; try done; [unfold is_i64; lia|apply Forall_forall; intros k Hk..].
    - destruct (Hl1 k Hk) as (p & c & Hp & _ & _ & -> & _). by apply ascii_valid, sst_key_ascii, Hasc.
    - destruct (Hl2 k Hk) as (p & c & Hp & _ & _ & -> & _). by apply ascii_valid, sst_key_ascii, Hasc.
    - destruct (Hl3 k Hk) as (p & c & Hp & _ & _ & -> & _). by apply ascii_valid, Hasc. }
  assert (manifest_ok m) as Hmok.
  { subst m. split; cbn [mf_FormatVersion mf_CheckpointKey mf_Revision mf_LastSequence mf_Term mf_LastWALKey]; try done;
      [apply ascii_valid, ckey_ascii|unfold is_i64; lia]. }
  exists (manifest_default m), (index_default idx).
  split; [apply manifest_of_manifest; [done|done|by rewrite lookup_insert_eq]|].
  split; [unfold manifest_default; by case_match|]. split; [unfold manifest_default; by case_match|].
  split; [apply idx_of_index; [done|done|]; rewrite lookup_insert_ne by done; apply lookup_insert_eq|].
  split; [unfold index_default; by case_match|]. split; [unfold index_default; by case_match|].
  assert (ix_SSTFiles (index_default idx) = acc.1.1 ∧ ix_AncestorSSTFiles (index_default idx) = acc.1.2 ∧
    ix_PebbleMeta (index_default idx) = acc.2) as (Es & Ea & Em) by (unfold index_default; by case_match).
  assert (∀ n c, image !! n = Some c → covered F acc (path_join dir n) ∧ F !! path_join dir n = Some c ∧ flat_name n) as Hall.
  { intros n c Hn. pose proof (Himg n c Hn) as Hp. split; [by apply Hcov|].
    destruct (HF _ Hp) as (n' & c' & Heq & Hc' & HFc & Hfn). apply app_inv_head, app_inv_head in Heq as <-.
    rewrite Hn in Hc'. by injection Hc' as <-. }
  assert (∀ k, has_prefix (str "sst/") k = true → k ≠ ManifestKey ∧ k ≠ CheckpointIndexKey term revision) as Hsk
    by (intros k Hk; split; intros ->; cbn in Hk; discriminate Hk).
  assert (∀ n c, image !! n = Some c → ∃ c', F !! path_join dir n = Some c' ∧ c' = c ∧ base_name (path_join dir n) = n ∧ covered F acc (path_join dir n)) as Hcv.
  { intros n c Hn. destruct (Hall n c Hn) as (Hc & HFc & Hfn). exists c. by rewrite (flat_base dir n Hfn). }
  assert (∀ p c, p ∈ paths → F !! p = Some c → image !! base_name p = Some c ∧ flat_name (base_name p)) as Hback.
  { intros p c Hp Hc. destruct (HF p Hp) as (n & c' & -> & Hn & HFc & Hfn). rewrite (flat_base dir n Hfn). by rewrite HFc in Hc; injection Hc as <-. }
  split.
  - intros n c Hn Hs. rewrite Es, Ea. destruct (Hcv n c Hn) as (? & HFc & -> & Hb & (c' & Hc' & Hcase)).
    rewrite HFc in Hc'. injection Hc' as <-. unfold is_sst in Hcase. rewrite Hb in Hcase. unfold sst_name in Hs. by rewrite Hs in Hcase.
  - intros n c Hn Hs. rewrite Em. destruct (Hcv n c Hn) as (? & HFc & -> & Hb & (c' & Hc' & Hcase)).
    unfold is_sst in Hcase. rewrite Hb in Hcase. unfold sst_name in Hs. by rewrite Hs in Hcase.
  - intros k. rewrite Es. intros Hk. destruct (Hl1 k Hk) as (p & c & Hp & HFc & Hs & -> & Hst). destruct (Hback p c Hp HFc) as [Hn Hfn].
    exists (base_name p), c. do 3 (split; [done|]). destruct (Hsk _ (sst_key_prefix c (base_name p))) as [H1 H2]. by rewrite !lookup_insert_ne by done.
  - intros k. rewrite Ea. intros Hk. destruct (Hl2 k Hk) as (p & c & Hp & HFc & Hs & -> & Hst). destruct (Hback p c Hp HFc) as [Hn Hfn].
    exists (base_name p), c. done.
  - intros n. rewrite Em. intros Hk. destruct (Hl3 n Hk) as (p & c & Hp & HFc & Hs & -> & Hst). destruct (Hback p c Hp HFc) as [Hn Hfn].
    exists c. do 2 (split; [done|]). rewrite !lookup_insert_ne; [done| |].
    + intros Heq. apply (metaKey_inj term revision (str "manifest.json") (base_name p)) in Heq. by destruct Hfn as (_ & _ & ?).
    + intros Heq. pose proof (metaKey_prefix term revision (base_name p)) as Hx. rewrite <- Heq in Hx. cbn in Hx. discriminate Hx.
Qed.

Lemma with_tmp_run {A} tmpDir (m : ST state A) st r st' :
  with_tmp tmpDir m st = (r, st') → ∃ st1, m st = (r, st1) ∧ own st' = own st1 ∧ st'.2 = st1.2.
Proof using.
  unfold with_tmp, mbind, ST_bind, try, from_result. destruct (m st) as [r1 st1].
  destruct (on_world (os_removeall tmpDir) st1) as [r2 st2] eqn:E. intros [= <- <-]. exists st1. split; [done|].
  apply on_world_run in E as [E Ht]. split; [|done]. unfold own. f_equal. revert E.
  unfold os_removeall, mbind, ST_bind, modify. destruct (syscall st1.1) as [[[]|e] w1] eqn:Es;
    apply syscall_frame in Es as [_ Ho]; intros [= <- Hw]; by rewrite <- Hw.
Qed.

Lemma walk_run dir (w : world S) r w' :
  walk dir w = (r, w') → w_files w' = w_files w ∧ w_obj w' = w_obj w ∧
  match r with Ok ps => ∀ p, p ∈ ps ↔ has_prefix (dir ++ str "/") p = true ∧ is_Some (w_files w !! p) | Err _ => True end.
Proof using.
  unfold walk, mbind, ST_bind, get_st, mret, ST_ret. destruct (syscall w) as [[[]|e] w1] eqn:E; apply syscall_frame in E as [Hf Ho];
    intros [= <- <-]; [|done]. split; [done|]. split; [done|]. intros p.
  rewrite sort_bytes_perm, list_elem_of_filter, Hf. apply and_iff_compat_l. rewrite list_elem_of_In, in_map_iff. split.
  - intros ([k c] & <- & H). apply list_elem_of_In, elem_of_map_to_list in H. by eexists.
  - intros [c Hc]. exists (p, c). split; [done|]. by apply list_elem_of_In, elem_of_map_to_list.
Qed.

(** What the write of a checkpoint changes in the store. *)
Definition only_checkpoint (o o' : gmap bytes bytes) : Prop :=
  ∀ k, o' !! k = o !! k ∨ k = ManifestKey ∨ has_prefix (CheckpointKey term revision ++ str "/") k = true ∨
    ∃ n c, image !! n = Some c ∧ k = sst_key c n ∧ o' !! k = Some c.

Lemma other_checkpoint o o' oa t' r' image' idx :
  addressed image o oa → only_checkpoint o o' → key_ok t' r' → (t', r') ≠ (term, revision) →
  holds t' r' image' o oa idx → holds t' r' image' o' oa idx.
Proof using Hterm Hrev.
  intros Had Hch Hok Hne [H1 H2 H3 H4 H5].
  assert (∀ k c, (has_prefix (str "sst/") k = true ∨ has_prefix (CheckpointKey t' r' ++ str "/") k = true) →
    o !! k = Some c → o' !! k = Some c) as Hkeep.
  { intros k c Hk Hc. destruct (Hch k) as [->|[->|[Hp|(n & c' & Hn & -> & Ho')]]]; [done|exfalso..|].
    - destruct Hk as [Hk|Hk]; cbn in Hk; discriminate Hk.
    - destruct Hk as [Hk|Hk]; [by eapply sst_not_checkpoint|].
      destruct (checkpoint_disjoint t' r' term revision k Hok) as [-> ->]; try done.
    - rewrite Ho'. f_equal. symmetry. by apply (ad_own _ _ _ Had n c'). }
  split; try done.
  - intros k Hk. destruct (H3 k Hk) as (n & c & Hn & Hs & -> & Ho). exists n, c. do 3 (split; [done|]).
    apply Hkeep; [left; apply sst_key_prefix|done].
  - intros n Hk. destruct (H5 n Hk) as (c & Hn & Hs & Ho). exists c. do 2 (split; [done|]).
    apply Hkeep; [right; apply metaKey_prefix|done].
Qed.

(** The outcome of a checkpoint write. *)
Definition write_outcome st (r : result ()) st' : Prop :=
  (r ≠ Ok tt ∧ own st' !! ManifestKey = own st !! ManifestKey ∨ published term revision image (own st') (anc st)) ∧
  only_checkpoint (own st) (own st').

(** The walk and the publication, for either visitor. *)
Lemma walk_publish (f : bytes → filesAcc → ST state filesAcc) dir paths st r st' (w0 w1 : world S) :
  pebble_Checkpoint dir w0 = (Ok tt, w1) → files st = w_files w1 →
  (∀ p, p ∈ paths ↔ has_prefix (dir ++ str "/") p = true ∧ is_Some (files st !! p)) →
  (flat_dir dir paths →
   (∀ p, p ∈ paths → ∃ n c, p = path_join dir n ∧ image !! n = Some c ∧ files st !! p = Some c ∧ flat_name n) →
   ∀ r0 st1, walkLoop f paths ([], [], []) st = (r0, st1) →
     files st1 = files st ∧ st1.2 = st.2 ∧ only_uploads term revision paths (files st) (own st) (own st1) ∧
     match r0 with
     | Ok acc' => (∀ p, p ∈ paths → covered (files st) acc' p) ∧
         lists_ok term revision paths (files st) (own st1) (anc st) acc'
     | Err _ => True
     end) →
  (lists ← walkLoop f paths ([], [], []);
   let '(sst, anc, meta) := lists in
   on_store (writeIndex term revision sequence wk sst anc meta)) st = (r, st') →
  write_outcome st r st'.
Proof using OOk Hterm Hrev Hseq Hwk Hpebble.
  intros Hpc Hfw Hpaths Hloop.
  assert (∀ p, p ∈ paths → ∃ n c, p = path_join dir n ∧ image !! n = Some c ∧ files st !! p = Some c ∧ flat_name n) as HF.
  { intros p [Hp Hin]%Hpaths. rewrite Hfw in *. destruct (pl_only _ _ Hpebble _ _ _ p Hpc Hp Hin) as (n & -> & [c Hc]). exists n, c.
    split; [done|]. split; [done|]. split; [by eapply (pl_files _ _ Hpebble)|]. apply (pl_names _ _ Hpebble). by eexists. }
  assert (flat_dir dir paths) as Hflat by (intros p Hp; destruct (HF p Hp) as (n & c & -> & _ & _ & Hn); by exists n).
  assert (∀ o o', only_uploads term revision paths (files st) o o' → only_checkpoint o o' ∧ o' !! ManifestKey = o !! ManifestKey) as Hup.
  { intros o o' Hu. split.
    - intros k. destruct (Hu k) as [->|(p & c & Hp & Hc & -> & Ho')]; [by left|]. right. right. unfold target in *.
      destruct (HF p Hp) as (n & c' & -> & Hn & HFc & Hfn). rewrite (flat_base dir n Hfn) in *.
      destruct (is_sst _); [right; exists n, c; split; [congruence|done]|left; apply metaKey_prefix].
    - destruct (Hu ManifestKey) as [?|(p & c & _ & _ & Hk & _)]; [done|]. unfold target in Hk.
      destruct (is_sst p); [pose proof (sst_key_prefix c (base_name p)) as Hx|pose proof (metaKey_prefix term revision (base_name p)) as Hx];
        rewrite <- Hk in Hx; cbn in Hx; discriminate Hx. }
  unfold mbind, ST_bind. destruct (walkLoop f paths ([], [], []) st) as [[acc|e] st1] eqn:E1;
    destruct (Hloop Hflat HF _ _ eq_refl) as (Hf1 & Ht1 & Hu1 & Hr); destruct (Hup _ _ Hu1) as [Hoc Hmf].
  2:{ intros [= <- <-]. split; [|done]. by left. }
  destruct Hr as [Hcov Hl]. destruct acc as [[sst an] meta]. intros E2. apply on_store_run in E2 as (E2 & _ & _).
  split.
  - destruct (publish dir paths (files st) (own st1) (anc st) (sst, an, meta) (w_obj st1.1) r (w_obj st'.1)) as [[Hne Hm]|Hp]; try done.
    + intros n c Hn. apply Hpaths. split; [|rewrite Hfw; exists c; by eapply (pl_files _ _ Hpebble)]. apply has_prefix_spec. exists n.
      unfold path_join. by rewrite app_assoc.
    + left. split; [done|]. unfold own in *. by rewrite Hm.
    + by right.
  - apply writeIndex_spec in E2. cbv zeta in E2. fold (own st1) (own st') in *. intros k. destruct (Hoc k) as [<-|[?|[?|(n & c & Hn & -> & Ho)]]]; [|by auto..|].
    + destruct (decide (k = ManifestKey)) as [->|Hk1]; [auto|]. destruct (decide (k = CheckpointIndexKey term revision)) as [->|Hk2].
      { right. right. left. apply has_prefix_spec. eexists (str "manifest.json"). unfold CheckpointIndexKey. by rewrite <- app_assoc. }
      left. destruct E2 as [->|[_ [->| ->]]]; by rewrite ?lookup_insert_ne.
    + right. right. right. exists n, c. split; [done|]. split; [done|].
      assert (sst_key c n ≠ ManifestKey ∧ sst_key c n ≠ CheckpointIndexKey term revision) as [Hk1 Hk2]
        by (split; intros Hk; pose proof (sst_key_prefix c n) as Hx; rewrite Hk in Hx; cbn in Hx; discriminate Hx).
      destruct E2 as [->|[_ [->| ->]]]; by rewrite ?lookup_insert_ne.
Qed.

Lemma addressed_known paths F known_own known_anc o oa dir :
  addressed image o oa → (∀ p, p ∈ paths → ∃ n c, p = path_join dir n ∧ image !! n = Some c ∧ F !! p = Some c ∧ flat_name n) →
  (∀ k, k ∈ known_own → ∃ m i, manifest_of o = Some m ∧ idx_of o (mf_CheckpointKey m) = Some i ∧ k ∈ ix_SSTFiles i) →
  (∀ k, k ∈ known_anc → (∃ m i, manifest_of o = Some m ∧ idx_of o (mf_CheckpointKey m) = Some i ∧ k ∈ ix_AncestorSSTFiles i) ∨ is_Some (oa !! k)) →
  known_ok paths F known_own known_anc o oa.
Proof using.
  intros [Ho Ha Hi] HF Hk1 Hk2 p c Hp Hc Hs. destruct (HF p Hp) as (n & c' & -> & Hn & HFc & Hfn).
  rewrite (flat_base dir n Hfn) in *. rewrite HFc in Hc. injection Hc as <-. split; intros Hin.
  - destruct (Hk1 _ Hin) as (m & i & Hm & Hidx & Hki). destruct (Hi m i (sst_key c' n) Hm Hidx) as [H1 _].
    destruct (H1 Hki) as [x Hx]. rewrite Hx. f_equal. by apply (Ho n).
  - assert (is_Some (oa !! sst_key c' n)) as [x Hx].
    { destruct (Hk2 _ Hin) as [(m & i & Hm & Hidx & Hki)|?]; [|done]. by apply (Hi m i (sst_key c' n) Hm Hidx). }
    rewrite Hx. f_equal. by apply (Ha n).
Qed.

Lemma outcome_start st st1 (r : result ()) st' :
  own st1 = own st → anc st1 = anc st → write_outcome st1 r st' → write_outcome st r st'.
Proof using. unfold write_outcome. by intros -> ->. Qed.

Lemma outcome_end st (r : result ()) st1 st' : own st' = own st1 → write_outcome st r st1 → write_outcome st r st'.
Proof using. unfold write_outcome. by intros ->. Qed.

Lemma outcome_failed st (e : err) st' : own st' = own st → write_outcome st (Err e) st'.
Proof using. intros Ho. split; [left; by rewrite Ho|]. intros k. left. by rewrite Ho. Qed.

Lemma walk_loop_start (K : gmap bytes bytes → gmap bytes bytes → Prop) (f : bytes → filesAcc → ST state filesAcc) dir paths st :
  flat_dir dir paths →
  (∀ p acc s0 r0 s1, p ∈ paths → files s0 !! p = files st !! p → K (own s0) (anc s0) → f p acc s0 = (r0, s1) →
     visited term revision paths (files st) s0 acc p r0 s1) →
  (∀ o o' oa, K o oa → only_uploads term revision paths (files st) o o' → K o' oa) → K (own st) (anc st) →
  ∀ r0 st1, walkLoop f paths ([], [], []) st = (r0, st1) →
  files st1 = files st ∧ st1.2 = st.2 ∧ only_uploads term revision paths (files st) (own st) (own st1) ∧
  match r0 with
  | Ok acc' => (∀ p, p ∈ paths → covered (files st) acc' p) ∧ lists_ok term revision paths (files st) (own st1) (anc st) acc'
  | Err _ => True
  end.
Proof using.
  intros Hflat Hf HK Hk r0 st1 Hw.
  apply (walkLoop_spec term revision dir paths (files st) Hflat f K Hf HK) in Hw as (? & ? & ? & Hr); try done.
  split; [done|]. split; [done|]. split; [done|]. destruct r0; [|done]. destruct Hr as (_ & _ & _ & Hc & Hl). split; [done|].
  apply Hl. split; by intros k ?%not_elem_of_nil.
Qed.

(** A write fails before the manifest moves, or publishes the checkpoint; it
    changes nothing else. *)
Lemma WriteAtSequence_outcome tmpDir st r st' :
  addressed image (own st) (anc st) →
  WriteAtSequence pebble_Checkpoint tmpDir term revision sequence wk st = (r, st') → write_outcome st r st'.
Proof using OOk AOk Hterm Hrev Hseq Hwk Hpebble.
  intros Had Hw.
  revert Hw. unfold WriteAtSequence. set (body := with_tmp tmpDir _). unfold mbind, ST_bind.
  destruct (on_world syscall st) as [[[]|e] st0] eqn:E0; apply on_world_run in E0 as [E0 Ht0]; apply syscall_frame in E0 as [_ Ho0];
    assert (own st0 = own st ∧ anc st0 = anc st) as [Hown0 Hanc0] by (unfold own, anc; by rewrite Ho0, Ht0).
  2:{ intros [= <- <-]. by apply outcome_failed. }
  subst body. intros (st9 & Hb & Ho9 & _)%with_tmp_run. eapply outcome_end; [done|]. eapply outcome_start; [done..|]. clear st' Ho9.
  revert Hb. set (dir := path_join tmpDir (str "cp")). unfold mbind at 1. unfold ST_bind at 1.
  destruct (on_world (pebble_Checkpoint dir) st0) as [[[]|e] st1] eqn:E1; apply on_world_run in E1 as [E1 Ht1];
    pose proof (pl_frame _ _ Hpebble _ _ _ _ E1) as Ho1; assert (own st1 = own st0 ∧ anc st1 = anc st0) as [Hown1 Hanc1] by (unfold own, anc; by rewrite Ho1, Ht1).
  2:{ intros [= <- <-]. by apply outcome_failed. }
  unfold mbind at 1. unfold ST_bind at 1.
  destruct (knownSSTSets st1) as [[known|e] st2] eqn:E2; apply knownSSTSets_spec in E2 as (Hf2 & Hown2 & Hanc2 & Hk).
  2:{ intros [= <- <-]. apply outcome_failed. congruence. }
  destruct Hk as [Hk1 Hk2]. unfold mbind at 1. unfold ST_bind at 1.
  destruct (on_world (walk dir) st2) as [[paths|e] st3] eqn:E3; apply on_world_run in E3 as [E3 Ht3]; apply walk_run in E3 as (Hf3 & Ho3 & Hp);
    assert (own st3 = own st2 ∧ anc st3 = anc st2) as [Hown3 Hanc3] by (unfold own, anc; by rewrite Ho3, Ht3).
  2:{ intros [= <- <-]. apply outcome_failed. congruence. }
  intros Hrest. apply (outcome_start st0 st3); [congruence..|].
  apply (walk_publish (visit known.1 known.2 term revision) dir paths st3 r st9 st0.1 st1.1); [done| | |intros Hflat HF|done].
  - unfold files in *. congruence.
  - unfold files in *. by rewrite Hf3.
  - apply (walk_loop_start (known_ok paths (files st3) known.1 known.2) _ dir); [done| | |].
    + intros p acc s0 r0 s1 Hin Hfs Hkn. by eapply (visit_spec term revision dir paths (files st3)); [done|intros q Hq; destruct (HF q Hq) as (? & c & _ & _ & ? & _); by exists c|..].
    + intros o o' oa. by apply known_ok_stable with dir.
    + eapply addressed_known; [|done|..].
      * rewrite Hown3, Hanc3, Hown2, Hanc2, Hown1, Hanc1, Hown0, Hanc0. done.
      * rewrite Hown3, Hown2. done.
      * rewrite Hown3, Hanc3, Hown2, Hanc2. done.
Qed.

(** The registries of the SST uploader name files that are stored. *)
Definition registered (localRegistry inheritedRegistry o oa : gmap bytes bytes) : Prop :=
  ∀ n c, image !! n = Some c → sst_name n = true →
    (∀ k, inheritedRegistry !! n = Some k → k = sst_key c n ∧ oa !! k = Some c) ∧
    (∀ k, localRegistry !! n = Some k → k = sst_key c n ∧ o !! k = Some c).

(** The same for the write that takes the SSTs from the registries. *)
Lemma registry_published tmpDir localRegistry inheritedRegistry st r st' :
  registered localRegistry inheritedRegistry (own st) (anc st) →
  WriteWithRegistryAtSequence pebble_Checkpoint tmpDir term revision sequence wk localRegistry inheritedRegistry st = (r, st') →
  write_outcome st r st'.
Proof using OOk AOk Hterm Hrev Hseq Hwk Hpebble.
  intros Hreg. unfold WriteWithRegistryAtSequence. set (body := with_tmp tmpDir _). unfold mbind, ST_bind.
  destruct (on_world syscall st) as [[[]|e] st0] eqn:E0; apply on_world_run in E0 as [E0 Ht0]; apply syscall_frame in E0 as [_ Ho0];
    assert (own st0 = own st ∧ anc st0 = anc st) as [Hown0 Hanc0] by (unfold own, anc; by rewrite Ho0, Ht0).
  2:{ intros [= <- <-]. by apply outcome_failed. }
  subst body. intros (st9 & Hb & Ho9 & _)%with_tmp_run. eapply outcome_end; [done|]. eapply outcome_start; [done..|]. clear st' Ho9.
  revert Hb. set (dir := path_join tmpDir (str "cp")). unfold mbind at 1. unfold ST_bind at 1.
  destruct (on_world (pebble_Checkpoint dir) st0) as [[[]|e] st1] eqn:E1; apply on_world_run in E1 as [E1 Ht1];
    pose proof (pl_frame _ _ Hpebble _ _ _ _ E1) as Ho1; assert (own st1 = own st0 ∧ anc st1 = anc st0) as [Hown1 Hanc1] by (unfold own, anc; by rewrite Ho1, Ht1).
  2:{ intros [= <- <-]. by apply outcome_failed. }
  unfold mbind at 1. unfold ST_bind at 1.
  destruct (on_world (walk dir) st1) as [[paths|e] st3] eqn:E3; apply on_world_run in E3 as [E3 Ht3]; apply walk_run in E3 as (Hf3 & Ho3 & Hp);
    assert (own st3 = own st1 ∧ anc st3 = anc st1) as [Hown3 Hanc3] by (unfold own, anc; by rewrite Ho3, Ht3).
  2:{ intros [= <- <-]. apply outcome_failed. congruence. }
  intros Hrest. apply (outcome_start st0 st3); [congruence..|].
  apply (walk_publish (visitRegistry localRegistry inheritedRegistry term revision) dir paths st3 r st9 st0.1 st1.1); [done| | |intros Hflat HF|done].
  - unfold files in *. congruence.
  - unfold files in *. by rewrite Hf3.
  - apply (walk_loop_start (registry_ok paths (files st3) localRegistry inheritedRegistry) _ dir); [done| | |].
    + intros p acc s0 r0 s1 Hin Hfs Hkn. by eapply (visitRegistry_spec term revision dir paths (files st3)); [done|intros q Hq; destruct (HF q Hq) as (? & c & _ & _ & ? & _); by exists c|..].
    + intros o o' oa. by apply registry_ok_stable with dir.
    + rewrite Hown3, Hanc3, Hown1, Hanc1, Hown0, Hanc0. intros p c Hin Hc Hs.
      destruct (HF p Hin) as (n & c' & -> & Hn & HFc & Hfn). unfold is_sst in Hs. rewrite (flat_base dir n Hfn) in *.
      rewrite HFc in Hc. injection Hc as <-. by apply Hreg.
Qed.
End Publish.
End Write.
