(* ===== verification/CheckpointRestore.v ===== *)
(** * Restoring a checkpoint

    The files a restore writes are those of the
    Pebble checkpoint that was written. *)
From S2P Require Import Prelude Bytes Decimal WalEntry Os Md5 Json JsonProps Object Sha256 Checkpoint CheckpointProps CheckpointWrite.

Lemma has_suffix_app s d : has_suffix s (d ++ s) = true.
Proof. unfold has_suffix. rewrite reverse_app. apply has_prefix_spec. by eexists. Qed.

Lemma trim_suffix_app s d : trim_suffix s (d ++ s) = d.
Proof.
  unfold trim_suffix. rewrite has_suffix_app. rewrite length_app, Nat.add_sub. by rewrite take_app_length.
Qed.

Section Restore.
Context {S T : Type} `{OI : ObjectStore S} `{OOk : !ObjectStoreOk S} `{AI : ObjectStore T} `{AOk : !ObjectStoreOk T}.
#[local] Notation state := (world S * option T)%type.
Implicit Types st : state.

(** Where [downloadAncestor] reads: the ancestor store if there is one. *)
Definition anc_or_own st : gmap bytes bytes := match st.2 with Some t => objects t | None => own st end.

Definition same_stores st st' : Prop := own st' = own st ∧ anc st' = anc st ∧ anc_or_own st' = anc_or_own st.

Lemma same_stores_trans st1 st2 st3 : same_stores st1 st2 → same_stores st2 st3 → same_stores st1 st3.
Proof using. unfold same_stores. intuition congruence. Qed.

Lemma same_stores_world st st' : w_obj st'.1 = w_obj st.1 → st'.2 = st.2 → same_stores st st'.
Proof using. unfold same_stores, anc_or_own, anc, own. by intros -> ->. Qed.

(** What a download may do to the local files. *)
Definition downloaded (src : gmap bytes bytes) (key dest : bytes) st (r : result ()) st' : Prop :=
  same_stores st st' ∧ (∀ p, p ≠ dest → files st' !! p = files st !! p) ∧
  (r = Ok tt → ∃ c, src !! key = Some c ∧ files st' !! dest = Some c).

Lemma create_write (w w1 w2 : world S) path f b r f' :
  os_create path w = (Ok f, w1) → os_write b (f, w1) = (r, (f', w2)) →
  w_obj w2 = w_obj w ∧ (∀ p, p ≠ path → w_files w2 !! p = w_files w !! p) ∧ (r = Ok tt → w_files w2 !! path = Some b).
Proof using.
  intros (-> & Hf & Ho)%os_create_ok. unfold os_write. cbn [f_open negb].
  destruct (next_fault w1) as [flt w3] eqn:E. apply next_fault_files in E as [Ef Eo].
  assert (∀ b0, (raw_write (mkFile path 0 true) b0 w3).2 = set_files (<[path := b0]> (w_files w)) w3) as Hraw.
  { intros b0. unfold raw_write. rewrite Ef, Hf. cbn [f_path f_pos]. rewrite lookup_insert_eq.
    pose proof (write_at_end b0 []) as Hw. cbn [length app] in Hw. cbn [snd]. by rewrite Hw, insert_insert_eq. }
  assert (∀ b0, w_obj (raw_write (mkFile path 0 true) b0 w3).2 = w_obj w ∧
    (∀ p, p ≠ path → w_files (raw_write (mkFile path 0 true) b0 w3).2 !! p = w_files w !! p) ∧
    w_files (raw_write (mkFile path 0 true) b0 w3).2 !! path = Some b0) as Hall.
  { intros b0. rewrite Hraw. cbn. split; [congruence|]. split; [intros p Hp; by rewrite lookup_insert_ne|apply lookup_insert_eq]. }
  destruct flt as [[e n]|]; intros [<- Hw]%pair_eq; [set (b0 := take _ b) in Hw|set (b0 := b) in Hw];
    destruct (Hall b0) as (H1 & H2 & H3); rewrite Hw in H1, H2, H3; cbn [snd] in *; (split; [done|]); (split; [done|]); done.
Qed.

Lemma streamToFile_spec rc dest st r st' :
  streamToFile (T := T) rc dest st = (r, st') →
  same_stores st st' ∧ (∀ p, p ≠ dest → files st' !! p = files st !! p) ∧
  (r = Ok tt → r_err rc = ErrEOF ∧ files st' !! dest = Some (r_data rc)).
Proof using.
  unfold streamToFile, mbind, ST_bind, mret, ST_ret, try, throw.
  destruct (on_world (os_create dest) st) as [[f|e] st1] eqn:E1; apply on_world_run in E1 as [E1 Ht1].
  2:{ apply os_create_err in E1 as [Hf Ho]. intros [= <- <-]. split; [by apply same_stores_world|]. unfold files. by rewrite Hf. }
  destruct (on_world _ st1) as [r2 st2] eqn:E2. apply on_world_run in E2 as [E2 Ht2].
  destruct (os_write (r_data rc) (f, st1.1)) as [r3 [f' w3]] eqn:E3. injection E2 as -> ->.
  destruct (create_write _ _ _ _ _ _ _ _ E1 E3) as (Ho & Hp & Hd).
  destruct r2 as [[]|e].
  2:{ intros [= <- <-]. split; [apply same_stores_world; congruence|done]. }
  destruct (on_world syscall st2) as [r4 st4] eqn:E4. apply on_world_run in E4 as [E4 Ht4]. apply syscall_files in E4 as [Hf4 Ho4].
  assert (same_stores st st4) as Hs by (apply same_stores_world; congruence).
  assert (∀ p, p ≠ dest → files st4 !! p = files st !! p) as Hp4 by (intros p Hne; unfold files; rewrite Hf4; by apply Hp).
  destruct (r_err rc); intros [= <- <-]; try done. split; [done|]. split; [done|]. intros _. split; [done|].
  unfold files. rewrite Hf4. by apply Hd.
Qed.

Lemma downloadFile_spec key dest st r st' :
  downloadFile (T := T) key dest st = (r, st') → downloaded (own st) key dest st r st'.
Proof using OOk.
  unfold downloadFile, mbind, ST_bind. destruct (on_store (obj_Get key) st) as [[rc|e] st1] eqn:E1;
    apply on_store_run in E1 as (E1 & Hf1 & Ht1); apply obj_Get_law in E1 as [Ho1 Hr];
    assert (same_stores st st1) as Hs1 by (unfold same_stores, anc_or_own, anc, own; by rewrite Ho1, Ht1).
  2:{ intros [= <- <-]. split; [done|]. split; [by rewrite Hf1|done]. }
  intros (Hs & Hp & Hd)%streamToFile_spec. split; [by eapply same_stores_trans|]. split; [intros p Hne; rewrite <- Hf1; by apply Hp|].
  intros Hok. destruct Hr as (d & Hd' & _ & Hfull). destruct (Hd Hok) as [He Hfd]. exists d. by rewrite Hfd, (Hfull He).
Qed.

Lemma on_ancestor_get key st r st' :
  on_ancestor_or (obj_Get key) (obj_Get key) st = (r, st') →
  same_stores st st' ∧ files st' = files st ∧
  match r with Ok rd => ∃ d, anc_or_own st !! key = Some d ∧ body_of rd d | Err _ => True end.
Proof using OOk AOk.
  unfold on_ancestor_or. destruct st as [w [t|]]; cbn [fst snd].
  - destruct (obj_Get key t) as [r1 t1] eqn:E. apply obj_Get_law in E as [Ho Hr]. intros [= <- <-].
    unfold same_stores, anc_or_own, anc, own, files. cbn. rewrite Ho. split; [done|]. split; [done|]. by destruct r1.
  - intros E. apply on_store_run in E as (E & Hf & Ht). apply obj_Get_law in E as [Ho Hr]. cbn [fst snd] in *.
    unfold same_stores, anc_or_own, anc, own. rewrite Ho, Ht. cbn [fst snd]. split; [done|]. split; [done|]. by destruct r.
Qed.

Lemma downloadAncestor_spec key dest st r st' :
  downloadAncestor key dest st = (r, st') → downloaded (anc_or_own st) key dest st r st'.
Proof using OOk AOk.
  unfold downloadAncestor, mbind, ST_bind. destruct (on_ancestor_or _ _ st) as [[rc|e] st1] eqn:E1;
    apply on_ancestor_get in E1 as (Hs1 & Hf1 & Hr).
  2:{ intros [= <- <-]. split; [done|]. split; [by rewrite Hf1|done]. }
  intros (Hs & Hp & Hd)%streamToFile_spec. split; [by eapply same_stores_trans|]. split; [intros p Hne; rewrite <- Hf1; by apply Hp|].
  intros Hok. destruct Hr as (d & Hd' & _ & Hfull). destruct (Hd Hok) as [He Hfd]. exists d. by rewrite Hfd, (Hfull He).
Qed.

(** The files of [image] below [targetDir] that have been restored so far; the
    rest of the disk is as in [F0]. *)
Definition restoring (targetDir : bytes) (image F0 F : gmap bytes bytes) : Prop :=
  ∀ p, F !! p = F0 !! p ∨ ∃ n, p = path_join targetDir n ∧ is_Some (image !! n).

Definition names_file (targetDir : bytes) (image src : gmap bytes bytes) (kd : bytes * bytes) : Prop :=
  ∃ n c, kd.2 = path_join targetDir n ∧ image !! n = Some c ∧ src !! kd.1 = Some c.

Lemma path_join_inj d n n' : path_join d n = path_join d n' → n = n'.
Proof using. unfold path_join. intros H. by apply app_inv_head, app_inv_head in H. Qed.

Lemma downloadAll_spec (get : bytes → bytes → ST state ()) (src : state → gmap bytes bytes) targetDir image F0 l st r st' :
  (∀ key dest s r0 s', get key dest s = (r0, s') → downloaded (src s) key dest s r0 s') →
  (∀ s s', same_stores s s' → src s' = src s) →
  Forall (names_file targetDir image (src st)) l → restoring targetDir image F0 (files st) →
  downloadAll get l st = (r, st') →
  same_stores st st' ∧ restoring targetDir image F0 (files st') ∧
  (r = Ok tt → ∀ n c, image !! n = Some c →
     (files st !! path_join targetDir n = Some c ∨ path_join targetDir n ∈ map snd l) → files st' !! path_join targetDir n = Some c).
Proof using.
  intros Hget Hsrc. revert st. induction l as [|[key dest] l IH]; intros st Hl Hr; cbn [downloadAll].
  { intros [= <- <-]. split; [done|]. split; [done|]. intros _ n c Hn [?|Hin]; [done|]. by apply not_elem_of_nil in Hin. }
  apply Forall_cons in Hl as [(n & c & Hdest & Hn & Hc) Hl]. cbn [fst snd] in *.
  unfold mbind, ST_bind. destruct (get key dest st) as [r1 st1] eqn:E. apply Hget in E as (Hs1 & Hp1 & Hd1).
  assert (restoring targetDir image F0 (files st1)) as Hr1.
  { intros p. destruct (decide (p = dest)) as [->|Hne]; [right; exists n; eauto|]. rewrite Hp1 by done. apply Hr. }
  destruct r1 as [[]|e]; [|by intros [= <- <-]]. destruct (Hd1 eq_refl) as (c1 & Hc1 & Hf1). rewrite Hc in Hc1. injection Hc1 as <-.
  intros H. apply IH in H as (Hs2 & Hr2 & Hall); [|by rewrite (Hsrc _ _ Hs1)|done].
  split; [by eapply same_stores_trans|]. split; [done|]. intros Hok n' c' Hn' Hor. apply (Hall Hok n' c' Hn').
  destruct (decide (path_join targetDir n' = dest)) as [Heq|Hne].
  - left. rewrite Heq, Hf1. rewrite Hdest in Heq. apply path_join_inj in Heq as ->. congruence.
  - destruct Hor as [Hor|Hin]; [left; by rewrite Hp1|right]. cbn [map] in Hin. apply elem_of_cons in Hin as [?|?]; done.
Qed.

Lemma restoreFromIndex_spec term revision image idx targetDir st r st' :
  idx_of (own st) (CheckpointIndexKey term revision) = Some idx → holds term revision image (own st) (anc st) idx →
  (∀ n, is_Some (image !! n) → flat_name n) →
  restoreFromIndex (CheckpointIndexKey term revision) targetDir st = (r, st') →
  same_stores st st' ∧ restoring targetDir image (files st) (files st') ∧
  (∀ t' r', r = Ok (t', r') → t' = ix_Term idx ∧ r' = ix_Revision idx ∧
    ∀ n c, image !! n = Some c → files st' !! path_join targetDir n = Some c).
Proof using OOk AOk.
  intros Hidx [H1 H2 H3 H4 H5] Hnames. unfold restoreFromIndex.
  assert (CheckpointIndexKey term revision = (CheckpointKey term revision ++ str "/") ++ str "manifest.json") as Hkey
    by (unfold CheckpointIndexKey; by rewrite <- app_assoc).
  assert (has_suffix (str "manifest.json") (CheckpointIndexKey term revision) = true) as Hsuf by (rewrite Hkey; apply has_suffix_app).
  rewrite Hsuf. cbn [negb].
  replace (trim_suffix _ _) with (CheckpointKey term revision ++ str "/") by (by rewrite Hkey, trim_suffix_app).
  assert (restoring targetDir image (files st) (files st)) as Hr0 by (by left).
  assert (∀ s s' : state, same_stores s s' → own s' = own s) as Hown by (by intros s s' [? _]).
  assert (∀ s s' : state, same_stores s s' → anc_or_own s' = anc_or_own s) as Hanc by (by intros s s' (_ & _ & ?)).
  unfold mbind, ST_bind. destruct (on_store (ReadCheckpointIndex _) st) as [[idx0|e] st1] eqn:E1;
    apply on_store_run in E1 as (E1 & Hf1 & Ht1); apply ReadCheckpointIndex_spec in E1 as [Ho1 Hi];
    assert (same_stores st st1) as Hs1 by (unfold same_stores, anc_or_own, anc, own; by rewrite Ho1, Ht1).
  2:{ intros [= <- <-]. split; [done|]. by rewrite Hf1. }
  unfold own in Hidx. rewrite Hidx in Hi. injection Hi as <-.
  destruct (on_world syscall st1) as [[[]|e] st2] eqn:E2; apply on_world_run in E2 as [E2 Ht2]; apply syscall_files in E2 as [Hf2 Ho2];
    assert (same_stores st st2) as Hs2 by (eapply same_stores_trans; [done|by apply same_stores_world]);
    assert (files st2 = files st) as Hfs2 by (unfold files in *; congruence).
  2:{ intros [= <- <-]. split; [done|]. by rewrite Hfs2. }
  rewrite <- Hfs2 in Hr0 at 2.
  destruct (downloadAll downloadFile _ st2) as [r3 st3] eqn:E3.
  eapply (downloadAll_spec _ own) in E3 as (Hs3 & Hr3 & Hd3); [|apply downloadFile_spec|done| |done].
  2:{ rewrite (Hown _ _ Hs2). apply Forall_map, Forall_forall. intros k Hk. destruct (H3 k Hk) as (n & c & Hn & _ & -> & Hst).
      exists n, c. unfold sst_dest. cbn [fst snd]. rewrite sst_key_base; [done|]. by apply Hnames. }
  pose proof (same_stores_trans _ _ _ Hs2 Hs3) as Hs23. destruct r3 as [[]|e]; [|by intros [= <- <-]].
  destruct (downloadAll downloadAncestor _ st3) as [r4 st4] eqn:E4.
  eapply (downloadAll_spec _ anc_or_own) in E4 as (Hs4 & Hr4 & Hd4); [|apply downloadAncestor_spec|done| |done].
  2:{ rewrite (Hanc _ _ Hs23). apply Forall_map, Forall_forall. intros k Hk. destruct (H4 k Hk) as (n & c & Hn & _ & -> & Hst).
      exists n, c. unfold sst_dest. cbn [fst snd]. rewrite sst_key_base by (by apply Hnames). do 2 (split; [done|]).
      unfold anc in Hst. unfold anc_or_own. destruct (st.2); [done|]. by rewrite lookup_empty in Hst. }
  pose proof (same_stores_trans _ _ _ Hs23 Hs4) as Hs24. destruct r4 as [[]|e]; [|by intros [= <- <-]].
  destruct (downloadAll downloadFile _ st4) as [r5 st5] eqn:E5.
  eapply (downloadAll_spec _ own) in E5 as (Hs5 & Hr5 & Hd5); [|apply downloadFile_spec|done| |done].
  2:{ rewrite (Hown _ _ Hs24). apply Forall_map, Forall_forall. intros n Hk. destruct (H5 n Hk) as (c & Hn & _ & Hst).
      exists n, c. unfold meta_dest. cbn [fst snd]. unfold metaKey in Hst. by rewrite <- app_assoc. }
  pose proof (same_stores_trans _ _ _ Hs24 Hs5) as Hs25. destruct r5 as [[]|e]; intros [= <- <-]; [|done].
  split; [done|]. split; [done|]. intros t' r' [= <- <-]. split; [done|]. split; [done|]. intros n c Hn.
  assert (x2f ∉ n) as Hfl by (by apply Hnames).
  assert (∀ k l, k ∈ l → path_join targetDir (base_name k) ∈ map snd (map (sst_dest targetDir) l)) as Hmem.
  { intros k l Hk. rewrite map_map. apply list_elem_of_In, in_map_iff. exists k. split; [done|by apply list_elem_of_In]. }
  apply (Hd5 eq_refl n c Hn). destruct (sst_name n) eqn:Hsn.
  - left. apply (Hd4 eq_refl n c Hn). destruct (H1 n c Hn Hsn) as [Hin|Hin]; apply Hmem in Hin; rewrite sst_key_base in Hin by done; [left|by right].
    apply (Hd3 eq_refl n c Hn). by right.
  - right. apply H2 in Hn as Hin; [|done]. rewrite map_map. apply list_elem_of_In, in_map_iff. exists n. split; [done|by apply list_elem_of_In].
Qed.
End Restore.
