(* ===== verification/CheckpointClaims.v ===== *)
(** * Checkpoints: publication, restore and garbage collection

    The properties of [internal/checkpoint] and the runs that show where the
    code stops short of them. *)

From S2P Require Import Prelude Bytes Decimal WalEntry Os Md5 Json JsonProps Object Sha256 Checkpoint CheckpointProps CheckpointWrite CheckpointRestore.

Section Claims.
Context {S T : Type} `{OI : ObjectStore S} `{OOk : !ObjectStoreOk S} `{AI : ObjectStore T} `{AOk : !ObjectStoreOk T}.
Context (pebble_Checkpoint : bytes → ST (world S) ()) (image : gmap bytes bytes).
Context (Hpebble : pebble_law pebble_Checkpoint image).
Context (term revision sequence : Z) (wk : bytes).
Context (Hterm : is_u64 term) (Hrev : 0 ≤ revision < 2 ^ 63) (Hseq : is_i64 sequence) (Hwk : valid_utf8 wk = true).
Implicit Types st : world S * option T.

(** C14. A checkpoint is published whole or not at all: after any outcome of
    [WriteAtSequence], the store has the manifest it had before, and the call
    has failed, or the manifest names the new checkpoint and every file of the
    Pebble checkpoint is stored under the keys its index lists; and every other
    checkpoint that was complete still is. *)
Theorem checkpoint_published tmpDir st r st' :
  addressed image (own st) (anc st) →
  WriteAtSequence pebble_Checkpoint tmpDir term revision sequence wk st = (r, st') →
  (r ≠ Ok tt ∧ own st' !! ManifestKey = own st !! ManifestKey ∨ published term revision image (own st') (anc st)) ∧
  ∀ t' r' image' idx, key_ok t' r' → (t', r') ≠ (term, revision) →
    holds t' r' image' (own st) (anc st) idx → holds t' r' image' (own st') (anc st) idx.
Proof using OOk AOk Hterm Hrev Hseq Hwk Hpebble.
  intros Had Hw. destruct (WriteAtSequence_outcome _ _ Hpebble _ _ _ _ Hterm Hrev Hseq Hwk _ _ _ _ Had Hw) as [H1 H2].
  split; [done|]. intros t' r' image' idx Hok Hne Hh. by eapply other_checkpoint.
Qed.

(** C15. Restore undoes the write of a checkpoint: on any machine that sees the
    store a successful [WriteAtSequence] left, a restore of that checkpoint
    that succeeds returns its term and revision, the files of the Pebble
    checkpoint are in the target directory with their contents, and no other
    file has changed. *)
Theorem checkpoint_roundtrip tmpDir targetDir st st1 st2 t r st3 :
  addressed image (own st) (anc st) →
  WriteAtSequence pebble_Checkpoint tmpDir term revision sequence wk st = (Ok tt, st1) →
  own st2 = own st1 → anc st2 = anc st →
  RestoreBranch (CheckpointIndexKey term revision) targetDir st2 = (Ok (t, r), st3) →
  t = term ∧ r = revision ∧ own st3 = own st2 ∧
  (∀ n c, image !! n = Some c → files st3 !! path_join targetDir n = Some c) ∧
  (∀ p, files st3 !! p = files st2 !! p ∨ ∃ n, p = path_join targetDir n ∧ is_Some (image !! n)).
Proof using OOk AOk Hterm Hrev Hseq Hwk Hpebble.
  intros Had Hw Hown Hanc Hr. destruct (WriteAtSequence_outcome _ _ Hpebble _ _ _ _ Hterm Hrev Hseq Hwk _ _ _ _ Had Hw) as [[[Hne _]|Hpub] _]; [done|].
  destruct Hpub as (m & idx & _ & _ & _ & Hidx & Ht & Hrv & Hh). rewrite <- Hown, <- Hanc in *.
  apply (restoreFromIndex_spec term revision image idx) in Hr as ((Ho3 & _) & Hrest & Hall); [|done|done|apply Hpebble].
  destruct (Hall t r eq_refl) as (-> & -> & Hfiles). done.
Qed.
End Claims.

Section GC.
Context {S : Type} `{OI : ObjectStore S} `{OOk : !ObjectStoreOk S}.

(** What is kept when only collectable objects are deleted. *)
Definition kept_by_gc (n : nat) (s : S) (keys : list bytes) (o : gmap bytes bytes) : Prop :=
  (∀ t r, key_ok t r → let k := CheckpointIndexKey t r in
     k ∈ drop (length keys - n) keys ∨ pinned_by (objects s) k →
     (∀ x, has_prefix (dir_prefix k) x = true → o !! x = objects s !! x) ∧
     ∀ i x, idx_of (objects s) k = Some i → x ∈ ix_SSTFiles i → o !! x = objects s !! x) ∧
  (∀ m s1 t r, ReadManifest s = (Ok (Some m), s1) → key_ok t r → mf_CheckpointKey m = CheckpointIndexKey t r →
     ∀ x, has_prefix (CheckpointKey t r ++ str "/") x = true → o !! x = objects s !! x) ∧
  (∀ x, has_prefix (str "checkpoint/") x = false → has_prefix (str "sst/") x = false → o !! x = objects s !! x).

Lemma collectable_kept n (s : S) mf keys o :
  checkpoints (objects s) keys →
  (∀ k, k ∈ keys → ∃ t r, key_ok t r ∧ k = CheckpointIndexKey t r) →
  (∀ k i x, idx_of (objects s) k = Some i → x ∈ ix_SSTFiles i → has_prefix (str "sst/") x = true) →
  (∀ m s1, ReadManifest s = (Ok (Some m), s1) → mf = Some m) →
  shrunk (collectable n s mf keys) (objects s) o → kept_by_gc n s keys o.
Proof using.
  intros Hkeys Hwf Hsst Hmf Hsh.
  assert (∀ k0 x, k0 ∈ take (length keys - n) keys → has_prefix (dir_prefix k0) x = true →
    ∃ t r, key_ok t r ∧ k0 = CheckpointIndexKey t r ∧ has_prefix (CheckpointKey t r ++ str "/") x = true) as Hold.
  { intros k0 x Hin Hx. destruct (Hwf k0 (elem_of_take_in _ _ _ Hin)) as (t & r0 & Hok & ->). rewrite dir_prefix_index in Hx. eauto. }
  split; [|split].
  - intros t r0 Hok k Hprot. split.
    + intros x Hx. apply (shrunk_keep _ _ _ _ Hsh). subst k. rewrite dir_prefix_index in Hx. intros [(k0 & Hin & Hnk & Hp)|[(k0 & i0 & Hi & Hxi) _]].
      * destruct (Hold k0 x Hin Hp) as (t' & r' & Hok' & -> & Hp').
        destruct (checkpoint_disjoint t r0 t' r' x Hok Hok' Hx Hp') as [<- <-].
        destruct Hprot as [Hd|Hpin]; [|apply Hnk; by left]. by eapply take_drop_disjoint; [apply sorted_NoDup, Hkeys|..].
      * eapply sst_not_checkpoint; [by eapply Hsst|done].
    + intros i x Hi Hx. apply (shrunk_keep _ _ _ _ Hsh). intros [(k0 & Hin & Hnk & Hp)|[_ Hlive]].
      * destruct (Hold k0 x Hin Hp) as (t' & r' & Hok' & -> & Hp'). eapply sst_not_checkpoint; [by eapply Hsst|done].
      * by eapply Hlive.
  - intros m s1 t r0 Hm Hok Hkey x Hx. apply (shrunk_keep _ _ _ _ Hsh).
    intros [(k0 & Hin & Hnk & Hp)|[(k0 & i0 & Hi & Hxi) _]]; [|eapply sst_not_checkpoint; [by eapply Hsst|done]].
    destruct (Hold k0 x Hin Hp) as (t' & r' & Hok' & -> & Hp').
    destruct (checkpoint_disjoint t r0 t' r' x Hok Hok' Hx Hp') as [<- <-]. apply Hnk. right.
    rewrite (Hmf m s1 Hm). cbn. by rewrite Hkey.
  - intros x Hc Hs. apply (shrunk_keep _ _ _ _ Hsh). intros [(k0 & Hin & Hnk & Hp)|[(k0 & i0 & Hi & Hxi) _]].
    + destruct (Hold k0 x Hin Hp) as (t' & r' & Hok' & -> & Hp'). apply has_prefix_spec in Hp' as [y ->].
      unfold CheckpointKey in Hc. rewrite <- !app_assoc in Hc.
      rewrite (proj2 (has_prefix_spec (str "checkpoint/") _)) in Hc by (eexists; reflexivity). done.
    + rewrite (Hsst _ _ _ Hi Hxi) in Hs. done.
Qed.

(** C16. Garbage collection after a checkpoint keeps what a restore needs: over a
    store that answers reads, every object of the two newest checkpoints and of
    every checkpoint a branch is pinned to is still there, with all the SST
    files their indexes list, whatever deletions fail; so is every object of
    the checkpoint the manifest names; and nothing outside checkpoints and SST
    files is touched. *)
Theorem gc_keeps_checkpoints (s : S) r s' keys :
  steady (S := S) → checkpoints (objects s) keys →
  (∀ k, k ∈ keys → ∃ t r, key_ok t r ∧ k = CheckpointIndexKey t r) →
  (∀ k i x, idx_of (objects s) k = Some i → x ∈ ix_SSTFiles i → has_prefix (str "sst/") x = true) →
  gcCheckpointsAndSSTs s = (r, s') →
  (∃ out, r = Ok out) ∧ kept_by_gc 2 s keys (objects s').
Proof using OOk.
  intros Hst Hkeys Hwf Hsst Hr. destruct (gc_run s r s' keys Hst Hkeys Hr) as [Hout (mf & Hmf & Hsh)]. split; [done|].
  by eapply collectable_kept.
Qed.
End GC.

(** ** Runs over the in-memory store *)

Definition mem_of (l : list (bytes * bytes)) : Mem := list_to_map (map (λ p, (p.1, mkMemObj p.2 [])) l).

Lemma mem_of_lookup l k d : objects (mem_of l) !! k = Some d → (k, d) ∈ l.
Proof.
  cbn. rewrite mem_objects_lookup. unfold mem_of. intros H. apply fmap_Some in H as (o & Ho & ->).
  apply elem_of_list_to_map_2, list_elem_of_In, in_map_iff in Ho as ([k' d'] & [= -> <-] & Hin). by apply list_elem_of_In.
Qed.

Lemma mem_steady : steady (S := Mem).
Proof.
  intros k s r s'. cbn. unfold mem_Get. rewrite mem_objects_lookup. by destruct (s !! k); intros [= <- <-].
Qed.

Definition sstA : bytes := sst_key (str "a") (str "1.sst").
Definition sstB : bytes := sst_key (str "b") (str "2.sst").
Definition current (t r : Z) : bytes * bytes := (metaKey t r (str "CURRENT"), str "c").
Definition index_at (t r : Z) (ssts ancestor : list bytes) : bytes * bytes :=
  (CheckpointIndexKey t r, print (index_json (mkIndex CheckpointFormatVersion t r r ssts ancestor [str "CURRENT"]))).
Definition manifest_at (t r : Z) : bytes * bytes :=
  (ManifestKey, print (manifest_json (mkManifest CheckpointFormatVersion (CheckpointIndexKey t r) r r t []))).

(** Three checkpoints, the oldest of them pinned by no branch. *)
Definition gc_sample : list (bytes * bytes) :=
  [ (sstA, str "a"); (sstB, str "b"); manifest_at 1 5;
    index_at 1 3 [sstA] []; current 1 3; index_at 1 4 [sstA; sstB] []; current 1 4; index_at 1 5 [sstB] []; current 1 5 ].
Definition gc_sample_keys : list bytes := [CheckpointIndexKey 1 3; CheckpointIndexKey 1 4; CheckpointIndexKey 1 5].

Definition ssts_of (p : bytes * bytes) : list bytes :=
  match Decode index_fields zero_index (mkReader p.2 ErrEOF) with Ok i => ix_SSTFiles i | Err _ => [] end.

Lemma idx_of_mem l k i x : idx_of (objects (mem_of l)) k = Some i → x ∈ ix_SSTFiles i → ∃ p, p ∈ l ∧ x ∈ ssts_of p.
Proof.
  unfold idx_of. destruct (objects (mem_of l) !! k) as [c|] eqn:E; [|done]. apply mem_of_lookup in E. cbn [mbind option_bind].
  intros H Hx. exists (k, c). split; [done|]. unfold ssts_of. cbn [snd]. destruct (Decode _ _ _) as [i0|]; [|done].
  destruct (_ <? _); [done|]. injection H as <-. unfold index_default in Hx. by destruct (_ =? 0).
Qed.

Lemma gc_keeps_checkpoints_witness :
  (gc_deleted ∘ fst) <$> (gcCheckpointsAndSSTs (mem_of gc_sample)).1 = Ok 1 ∧
  objects (gcCheckpointsAndSSTs (mem_of gc_sample)).2 !! sstA = objects (mem_of gc_sample) !! sstA.
Proof.
  split; [vm_compute; reflexivity|].
  destruct (gcCheckpointsAndSSTs (mem_of gc_sample)) as [r s'] eqn:E.
  refine (proj2 (proj1 (proj2 (gc_keeps_checkpoints (mem_of gc_sample) r s' gc_sample_keys mem_steady _ _ _ E)) 1 4 _ _) _ _ _ _).
  - destruct (ListRemote (mem_of gc_sample)) as [rk sk] eqn:El. pose proof (ListRemote_spec _ _ _ El) as [_ Hk].
    assert ((ListRemote (mem_of gc_sample)).1 = Ok gc_sample_keys) as Hl by (vm_compute; reflexivity). rewrite El in Hl. cbn in Hl. by subst rk.
  - intros k Hk. apply list_elem_of_In in Hk. unfold gc_sample_keys in Hk.
    destruct Hk as [<-|[<-|[<-|[]]]]; eexists _, _; (split; [|reflexivity]); unfold key_ok, is_u64; lia.
  - intros k i x Hi Hx. destruct (idx_of_mem _ _ _ _ Hi Hx) as (p & Hp & Hxp).
    assert (Forall (λ p, Forall (λ x, has_prefix (str "sst/") x = true) (ssts_of p)) gc_sample) as Hall by (apply (bool_decide_unpack _); vm_compute; reflexivity).
    rewrite Forall_forall in Hall. specialize (Hall p Hp). rewrite Forall_forall in Hall. by apply Hall.
  - unfold key_ok, is_u64. lia.
  - left. apply list_elem_of_In. left. reflexivity.
  - instantiate (1 := mkIndex CheckpointFormatVersion 1 4 4 [sstA; sstB] [] [str "CURRENT"]). vm_compute. reflexivity.
  - apply list_elem_of_In. left. reflexivity.
Defined.

(** A Pebble whose checkpoint has the files of [image]. *)
Definition fill {S : Type} (image : gmap bytes bytes) (dir : bytes) : ST (world S) () := λ w,
  (Ok tt, set_files (kmap (path_join dir) image ∪ filter (λ p, has_prefix (dir ++ str "/") p.1 = false) (w_files w)) w).

#[local] Instance path_join_Inj d : Inj (=) (=) (path_join d).
Proof. intros n n'. apply path_join_inj. Qed.

Lemma fill_law {S : Type} `{OI : ObjectStore S} `{OOk : !ObjectStoreOk S} (image : gmap bytes bytes) :
  (∀ n, is_Some (image !! n) → flat_name n) → pebble_law (S := S) (fill image) image.
Proof.
  intros Hn. split; [by intros dir w r w' [= <- <-]| | |done].
  - intros dir w w' n c [= <-] Hc. cbn [w_files set_files]. apply lookup_union_Some_l. by rewrite (lookup_kmap (path_join dir)).
  - intros dir w w' p [= <-] Hp [c Hc]. cbn [w_files set_files] in Hc. apply lookup_union_Some_raw in Hc as [Hc|[_ Hc]].
    + apply lookup_kmap_Some in Hc as (n & -> & Hc); [|apply _]. exists n. split; [done|]. by exists c.
    + apply map_lookup_filter_Some in Hc as [_ Hc]. cbn [fst] in Hc. by rewrite Hp in Hc.
Qed.

Definition cp_image : gmap bytes bytes := {[str "1.sst" := str "a"; str "CURRENT" := str "c"]}.

Lemma cp_law : pebble_law (S := Mem) (fill cp_image) cp_image.
Proof.
  apply fill_law. intros n [c Hc]. unfold cp_image in Hc. rewrite lookup_insert_Some, lookup_singleton_Some in Hc.
  destruct Hc as [[<- _]|[_ [<- _]]]; (split; [|split]); try done; apply (bool_decide_unpack _); vm_compute; reflexivity.
Qed.

Definition cp_start : world Mem * option Mem := (mkWorld ∅ ∅ [], None).

Lemma cp_start_addressed : addressed cp_image (own cp_start) (anc cp_start).
Proof. by split. Qed.

Definition cp_written : result () * (world Mem * option Mem) :=
  WriteAtSequence (fill cp_image) (str "tmp") 1 7 9 [] cp_start.

Lemma cp_written_ok : cp_written.1 = Ok tt.
Proof. vm_compute. reflexivity. Qed.

Lemma checkpoint_published_witness : published 1 7 cp_image (own cp_written.2) ∅.
Proof.
  pose proof cp_written_ok as Hok. unfold cp_written in *.
  destruct (WriteAtSequence (fill cp_image) (str "tmp") 1 7 9 [] cp_start) as [r st'] eqn:E. cbn [fst snd] in *.
  destruct (checkpoint_published (fill cp_image) cp_image cp_law 1 7 9 [] ltac:(unfold is_u64; lia) ltac:(lia) ltac:(unfold is_i64; lia)
    eq_refl (str "tmp") cp_start r st' cp_start_addressed E) as [[[Hne _]|Hp] _]; [by destruct Hne|exact Hp].
Defined.

(** Another machine restores it. *)
Definition cp_restored : result (Z * Z) * (world Mem * option Mem) :=
  RestoreBranch (CheckpointIndexKey 1 7) (str "db") (mkWorld ∅ (w_obj cp_written.2.1) [], None).

Lemma cp_restored_ok : cp_restored.1 = Ok (1, 7).
Proof. vm_compute. reflexivity. Qed.

Lemma checkpoint_roundtrip_witness :
  cp_restored.1 = Ok (1, 7) ∧ files cp_restored.2 !! path_join (str "db") (str "1.sst") = Some (str "a").
Proof.
  split; [exact cp_restored_ok|]. pose proof cp_restored_ok as Hrok. pose proof cp_written_ok as Hwok. unfold cp_restored, cp_written in *.
  destruct (WriteAtSequence (fill cp_image) (str "tmp") 1 7 9 [] cp_start) as [r st1] eqn:E. cbn [fst snd] in *. subst r.
  set (st2 := (mkWorld ∅ (w_obj st1.1) [], None : option Mem)) in *.
  destruct (RestoreBranch (CheckpointIndexKey 1 7) (str "db") st2) as [r st3] eqn:E2. cbn [fst snd] in *. subst r.
  apply (checkpoint_roundtrip (fill cp_image) cp_image cp_law 1 7 9 [] ltac:(unfold is_u64; lia) ltac:(lia) ltac:(unfold is_i64; lia)
    eq_refl (str "tmp") (str "db") cp_start st1 st2 1 7 st3 cp_start_addressed E eq_refl eq_refl E2).
  vm_compute. reflexivity.
Defined.

(** The manifest's checkpoint is kept, but not its SSTs: one it shares with a
    checkpoint that is deleted is deleted too, and the restore fails. *)
Definition gc_old_manifest : list (bytes * bytes) :=
  [ (sstA, str "a"); (sstB, str "b"); manifest_at 1 5; index_at 1 4 [sstA] []; current 1 4; index_at 1 5 [sstA; sstB] []; current 1 5;
    index_at 2 6 [sstB] []; current 2 6; index_at 2 7 [sstB] []; current 2 7 ].

Theorem gc_manifest_loses_sst :
  let s' := (gcCheckpointsAndSSTs (mem_of gc_old_manifest)).2 in
  (∃ m, (ReadManifest s').1 = Ok (Some m) ∧ mf_CheckpointKey m = CheckpointIndexKey 1 5) ∧
  (Restore (T := Mem) (CheckpointIndexKey 1 5) (str "db") (mkWorld ∅ (mem_of gc_old_manifest) [], None)).1 = Ok (1, 5) ∧
  (Restore (T := Mem) (CheckpointIndexKey 1 5) (str "db") (mkWorld ∅ s' [], None)).1 = Err ErrNotFound.
Proof.
  split; [|split; vm_compute; reflexivity]. eexists. split; [vm_compute; reflexivity|]. vm_compute. reflexivity.
Qed.

(** A branch's own checkpoint lists SSTs of its ancestor: without the ancestor
    store, as [Open] restores, it cannot be restored; [RestoreVersioned]
    restores it without them and reports success. *)
Definition branch_store : list (bytes * bytes) := [ (sstB, str "b"); index_at 1 5 [sstB] [sstA]; current 1 5 ].

Theorem branch_restore_needs_ancestor :
  let w : world Mem := mkWorld ∅ (mem_of branch_store) [] in
  (Restore (CheckpointIndexKey 1 5) (str "db") (w, Some (mem_of [(sstA, str "a")]))).1 = Err ErrNotFound ∧
  (RestoreBranch (CheckpointIndexKey 1 5) (str "db") (w, Some (mem_of [(sstA, str "a")]))).1 = Ok (1, 5).
Proof. split; vm_compute; reflexivity. Qed.

Theorem restore_versioned_skips_ancestor :
  let w : world Mem := mkWorld ∅ (mem_of branch_store) [] in
  let run := RestoreVersioned (λ k _, mem_Get k) (CheckpointIndexKey 1 5) (str "v1") ∅ (str "db") (w, Some (mem_of [(sstA, str "a")])) in
  run.1 = Ok (1, 5) ∧ w_files run.2.1 !! str "db/1.sst" = None ∧ w_files run.2.1 !! str "db/2.sst" = Some (str "b").
Proof. split_and!; vm_compute; reflexivity. Qed.
