(* ===== verification/SstUploader.v ===== *)
(** * The SST uploader

    internal/store/sstuploader.go: SST files are uploaded as Pebble finishes
    them, and a registry maps the names of the uploaded files to their object
    keys, so that a checkpoint need not upload them.  Uploads run in
    goroutines, counted by a wait group; the methods are functions on the
    uploader and the world, cut where goroutines interleave. *)

From S2P Require Import Prelude Bytes WalEntry Os Object Sha256 Checkpoint.

Record SSTUploader := mkUploader {
  su_pebbleDir : bytes;
  su_local : gmap bytes bytes;
  su_inherited : gmap bytes bytes;
  su_pending : Z;
  su_uploadC : list bytes;
  su_stopped : bool }.

Definition uploadC_cap : nat := 512.

Definition NewSSTUploader (pebbleDir : bytes) : SSTUploader := mkUploader pebbleDir ∅ ∅ 0 [] false.

Definition su_register (name key : bytes) (u : SSTUploader) : SSTUploader :=
  mkUploader (su_pebbleDir u) (<[name := key]> (su_local u)) (su_inherited u) (su_pending u) (su_uploadC u) (su_stopped u).
Definition su_count (d : Z) (u : SSTUploader) : SSTUploader :=
  mkUploader (su_pebbleDir u) (su_local u) (su_inherited u) (su_pending u + d) (su_uploadC u) (su_stopped u).
Definition su_queue (q : list bytes) (u : SSTUploader) : SSTUploader :=
  mkUploader (su_pebbleDir u) (su_local u) (su_inherited u) (su_pending u) q (su_stopped u).
Definition su_stop (u : SSTUploader) : SSTUploader :=
  mkUploader (su_pebbleDir u) (su_local u) (su_inherited u) (su_pending u) (su_uploadC u) true.

Definition SetInherited (filenames : gmap bytes bytes) (u : SSTUploader) : SSTUploader :=
  mkUploader (su_pebbleDir u) (su_local u) (filenames ∪ su_inherited u) (su_pending u) (su_uploadC u) (su_stopped u).

(** Snapshots of the registries. *)
Definition Registry (u : SSTUploader) : gmap bytes bytes := su_local u.
Definition InheritedRegistry (u : SSTUploader) : gmap bytes bytes := su_inherited u.

Section Uploader.
Context {S : Type} `{OI : ObjectStore S}.
Notation UM := (ST (world S * SSTUploader)).

Definition on_w {A} (m : ST (world S) A) : UM A := zoom fst (λ w st, (w, st.2)) m.
Definition on_u (f : SSTUploader → SSTUploader) : UM () := modify (λ st, (st.1, f st.2)).

Definition contentSSTKey (path name : bytes) : UM bytes :=
  f ← on_w (os_open_read path);
  match r_err f with
  | ErrEOF => mret (sst_key (r_data f) name)
  | e => throw e
  end.

(** [os.IsNotExist]: the file was compacted away, there is nothing to upload. *)
Definition unless_gone {A} (m : UM A) (k : A → UM ()) : UM () :=
  r ← try m;
  match r with
  | Err ErrNotExist => mret tt
  | Err e => throw e
  | Ok a => k a
  end.

Definition uploadOne (path : bytes) : UM () :=
  let name := base_name path in
  st ← get_st;
  match su_local st.2 !! name with
  | Some _ => mret tt
  | None =>
      unless_gone (contentSSTKey path name) (λ s3Key,
      unless_gone (on_w (os_open_read path)) (λ f,
      on_w (zoom w_obj (λ o w, set_obj o w) (obj_Put s3Key f));;
      on_u (su_register name s3Key)))
  end.

Fixpoint reconcileLoop (names : list bytes) : UM () :=
  match names with
  | [] => mret tt
  | path :: names' =>
      let name := base_name path in
      if negb (has_suffix (str ".sst") name) then reconcileLoop names'
      else
        info ← try (on_w syscall);
        st ← get_st;
        if match info with Ok _ => false | Err _ => true end || bool_decide (default [] (w_files st.1 !! path) = []) then reconcileLoop names'
        else if bool_decide (is_Some (su_local st.2 !! name)) || bool_decide (is_Some (su_inherited st.2 !! name))
        then reconcileLoop names'
        else uploadOne path;; reconcileLoop names'
  end.

Definition Reconcile : UM () :=
  st ← get_st;
  paths ← on_w (os_readdir (su_pebbleDir st.2));
  reconcileLoop paths.

(** [queueTable], up to the release of [stopMu]: [true] if the file is counted. *)
Definition queueBegin : UM bool :=
  st ← get_st;
  if su_stopped st.2 then mret false else on_u (su_count 1);; mret true.

(** The rest of [queueTable]: into the channel, or uploaded at once when it is
    full. *)
Definition queueSend (path : bytes) : UM () :=
  st ← get_st;
  if (length (su_uploadC st.2) <? uploadC_cap)%nat then on_u (su_queue (su_uploadC st.2 ++ [path]))
  else _ ← try (uploadOne path); on_u (su_count (-1)).

(** The goroutine of one upload. *)
Definition uploadGo (path : bytes) : UM () := _ ← try (uploadOne path); on_u (su_count (-1)).

End Uploader.
