(* ===== verification/SstUploaderProps.v ===== *)
(** * The SST uploader: its registry and its wait group

    [ustep] interleaves the callbacks of Pebble, the goroutine of [Start], the
    uploads it spawns, [Reconcile] and what Pebble does to its directory. *)

From S2P Require Import Prelude Bytes Decimal WalEntry Os Md5 Json JsonProps Object Sha256 Checkpoint CheckpointProps CheckpointWrite CheckpointRestore CheckpointClaims SstUploader.

(** The goroutine of [Start]. *)
Inductive loopState := NotStarted | Running | Draining | Exited.

(** [us_adding]: calls of [queueTable] that have counted their file and not
    sent it yet; [us_flying]: uploads in progress; [us_done]: the names of the
    files Pebble has finished. *)
Record uploads (S : Type) := mkUploads {
  us_st : world S * SSTUploader;
  us_adding : list bytes;
  us_flying : list bytes;
  us_loop : loopState;
  us_done : gset bytes }.
Arguments mkUploads {S} _ _ _ _ _.
Arguments us_st {S} _.
Arguments us_adding {S} _.
Arguments us_flying {S} _.
Arguments us_loop {S} _.
Arguments us_done {S} _.

Section Frames.
Context {S : Type}.

(** What an upload leaves alone. *)
Definition kept (st st' : world S * SSTUploader) : Prop :=
  w_files st'.1 = w_files st.1 ∧ su_pebbleDir st'.2 = su_pebbleDir st.2 ∧ su_inherited st'.2 = su_inherited st.2 ∧
  su_pending st'.2 = su_pending st.2 ∧ su_uploadC st'.2 = su_uploadC st.2 ∧ su_stopped st'.2 = su_stopped st.2.

Lemma kept_refl st : kept st st.
Proof using. done. Qed.

Lemma kept_trans st1 st2 st3 : kept st1 st2 → kept st2 st3 → kept st1 st3.
Proof using. unfold kept. intuition congruence. Qed.

Lemma on_w_run {A} (m : ST (world S) A) st r st' : on_w m st = (r, st') → m st.1 = (r, st'.1) ∧ st'.2 = st.2.
Proof using. unfold on_w, zoom. destruct (m st.1) as [r1 w1]. by intros [= <- <-]. Qed.

Lemma open_read_missing (w : world S) path r w' :
  os_open_read path w = (r, w') → w_files w' = w_files w ∧ w_obj w' = w_obj w ∧
  match r with Ok rd => ∃ c, w_files w !! path = Some c ∧ (source_ended rd → r_data rd = c) | Err _ => True end.
Proof using.
  intros Hr. destruct (w_files w !! path) as [c|] eqn:E.
  - destruct (open_read_spec w path c r w' E Hr) as (H1 & H2 & H3). split; [done|]. split; [done|]. destruct r; [|done]. exists c. naive_solver.
  - revert Hr. unfold os_open_read. rewrite E. by intros [= <- <-].
Qed.

Lemma contentSSTKey_run path name (st : world S * SSTUploader) r st' :
  SstUploader.contentSSTKey path name st = (r, st') →
  w_files st'.1 = w_files st.1 ∧ w_obj st'.1 = w_obj st.1 ∧ st'.2 = st.2 ∧
  match r with Ok k => ∃ c, w_files st.1 !! path = Some c ∧ k = sst_key c name | Err _ => True end.
Proof using.
  unfold SstUploader.contentSSTKey, mbind, ST_bind, mret, ST_ret, throw.
  destruct (on_w (os_open_read path) st) as [[f|e] st1] eqn:E1; apply on_w_run in E1 as [E1 H2]; apply open_read_missing in E1 as (Hf & Ho & Hr).
  2:{ by intros [= <- <-]. }
  destruct Hr as (c & Hc & Hfull). destruct (r_err f) eqn:Ee; intros [= <- <-]; try done.
  do 3 (split; [done|]). exists c. by rewrite (Hfull (or_introl Ee)).
Qed.

End Frames.

Section Steps.
Context {S : Type} `{OI : ObjectStore S} `{OOk : !ObjectStoreOk S}.
(** Pebble writes an SST file once: its name determines its content. *)
Context (dir : bytes) (content : bytes → bytes).
Implicit Types s : uploads S.

(** An SST file is missing, just created, or complete; a finished one is not
    created again. *)
Definition dir_ok (done : gset bytes) (F : gmap bytes bytes) : Prop :=
  ∀ n c, has_suffix (str ".sst") n = true → x2f ∉ n → F !! path_join dir n = Some c →
    c = content n ∨ c = [] ∧ n ∉ done.

Inductive ustep : uploads S → uploads S → Prop :=
  | U_pebble st st' add fly l done : (* Pebble creates, fills and removes files *)
      dir_ok done (w_files st'.1) →
      st'.2 = st.2 → (∀ k c, objects (w_obj st.1) !! k = Some c → objects (w_obj st'.1) !! k = Some c) →
      ustep (mkUploads st add fly l done) (mkUploads st' add fly l done)
  | U_event st r st' add fly l done n : (* a flush or compaction has finished the file [n] *)
      has_suffix (str ".sst") n = true → x2f ∉ n → dir_ok ({[n]} ∪ done) (w_files st.1) →
      queueBegin st = (Ok r, st') →
      ustep (mkUploads st add fly l done)
            (mkUploads st' (if r : bool then add ++ [path_join dir n] else add) fly l ({[n]} ∪ done))
  | U_send st r st' a1 p a2 fly l done :
      queueSend p st = (r, st') →
      ustep (mkUploads st (a1 ++ p :: a2) fly l done) (mkUploads st' (a1 ++ a2) fly l done)
  | U_start st add fly done : ustep (mkUploads st add fly NotStarted done) (mkUploads st add fly Running done)
  | U_recv w u add fly l done p q :
      l = Running ∨ l = Draining → su_uploadC u = p :: q →
      ustep (mkUploads (w, u) add fly l done) (mkUploads (w, su_queue q u) add (fly ++ [p]) l done)
  | U_stop w u add fly done :
      ustep (mkUploads (w, u) add fly Running done) (mkUploads (w, su_stop u) add fly Draining done)
  | U_exit w u add fly done :
      su_uploadC u = [] →
      ustep (mkUploads (w, u) add fly Draining done) (mkUploads (w, u) add fly Exited done)
  | U_upload st r st' add f1 p f2 l done :
      uploadGo p st = (r, st') →
      ustep (mkUploads st add (f1 ++ p :: f2) l done) (mkUploads st' add (f1 ++ f2) l done)
  | U_reconcile st r st' add fly l done :
      Reconcile st = (r, st') → ustep (mkUploads st add fly l done) (mkUploads st' add fly l done).

(** ** The registry *)

(** A registered file is stored under the key of its content. *)
Definition registry_ok (st : world S * SSTUploader) : Prop :=
  ∀ n k, su_local st.2 !! n = Some k → k = sst_key (content n) n ∧ objects (w_obj st.1) !! k = Some (content n).

(** A file that may be uploaded. *)
Definition complete (F : gmap bytes bytes) (p : bytes) : Prop :=
  ∃ n, p = path_join dir n ∧ x2f ∉ n ∧ has_suffix (str ".sst") n = true ∧ ∀ c, F !! p = Some c → c = content n.

(** Storing a file under the key of its content breaks no registration. *)
Lemma registry_put st n w' :
  (objects (w_obj w') = objects (w_obj st.1) ∨ objects (w_obj w') = <[sst_key (content n) n := content n]> (objects (w_obj st.1))) →
  registry_ok st → registry_ok (w', st.2).
Proof using.
  intros Hw Hreg m k Hk. destruct (Hreg m k Hk) as [-> Ho]. split; [done|]. cbn [fst]. destruct Hw as [->|Hw]; [done|].
  rewrite Hw. apply lookup_insert_Some. destruct (decide (sst_key (content n) n = sst_key (content m) m)) as [Heq|?]; [left|by right].
  split; [done|]. by apply sst_key_inj in Heq as ->.
Qed.

Lemma uploadOne_spec p st r st' :
  complete (w_files st.1) p → registry_ok st → uploadOne p st = (r, st') → kept st st' ∧ registry_ok st'.
Proof using OOk.
  intros (n & Hp & Hfl & Hs & Hc) Hreg. unfold uploadOne.
  assert (base_name p = n) as -> by (subst p; unfold path_join; by apply base_name_app).
  unfold mbind at 1, ST_bind at 1, get_st. destruct (su_local st.2 !! n) eqn:El; [by intros [= <- <-]|].
  unfold unless_gone at 1, try, mbind, ST_bind. destruct (SstUploader.contentSSTKey p n st) as [r1 st1] eqn:E1.
  apply contentSSTKey_run in E1 as (Hf1 & Ho1 & Hu1 & Hr1).
  assert (kept st st1) as Hk1 by (unfold kept; by rewrite Hf1, Hu1).
  assert (registry_ok st1) as Hg1 by (intros m k; rewrite Ho1, Hu1; apply Hreg).
  destruct r1 as [key|e]; [|destruct e; by intros [= <- <-]].
  destruct Hr1 as (c & Hfc & ->). apply Hc in Hfc as Hcc. subst c.
  unfold unless_gone, try, mbind, ST_bind. destruct (on_w (os_open_read p) st1) as [r2 st2] eqn:E2.
  apply on_w_run in E2 as [E2 Hu2]. apply open_read_missing in E2 as (Hf2 & Ho2 & Hr2).
  assert (kept st st2) as Hk2 by (eapply kept_trans; [done|]; unfold kept; by rewrite Hf2, Hu2).
  assert (registry_ok st2) as Hg2 by (intros m k; rewrite Ho2, Hu2; apply Hg1).
  destruct r2 as [f|e]; [|destruct e; by intros [= <- <-]].
  destruct Hr2 as (c & Hfc2 & Hfull). rewrite Hf1 in Hfc2. rewrite Hfc in Hfc2. injection Hfc2 as <-.
  destruct (on_w _ st2) as [r3 st3] eqn:E3. apply on_w_run in E3 as [E3 Hu3]. unfold zoom in E3.
  destruct (obj_Put _ f (w_obj st2.1)) as [r4 o4] eqn:E4. injection E3 as <- Hw3. apply obj_Put_law in E4.
  assert (w_files st3.1 = w_files st2.1 ∧ w_obj st3.1 = o4) as [Hf3 Ho3] by (rewrite <- Hw3; done).
  assert (kept st st3) as Hk3 by (eapply kept_trans; [done|]; unfold kept; by rewrite Hf3, Hu3).
  assert (registry_ok st3) as Hg3.
  { destruct st3 as [w3 u3]. cbn [fst snd] in *. subst u3. apply (registry_put st2 n); [|done]. rewrite Ho3.
    destruct r4; [destruct E4 as [He E4]|destruct E4 as [E4|[He E4]]]; rewrite E4; auto; right; by rewrite (Hfull He). }
  destruct r4 as [[]|e]; [|by intros [= <- <-]].
  intros [= <- <-]. split; [done|]. destruct E4 as [He E4]. rewrite (Hfull He) in E4. rewrite <- Ho3 in E4.
  intros m k. cbn [snd fst]. unfold su_register, su_local at 1. rewrite lookup_insert_Some. intros [[<- <-]|[_ Hk]]; [|by apply Hg3].
  split; [done|]. rewrite E4. apply lookup_insert_eq.
Qed.

Lemma reconcile_spec paths : ∀ st r st',
  (∀ p, p ∈ paths → ∃ n, p = path_join dir n ∧ x2f ∉ n) → (∃ done, dir_ok done (w_files st.1)) → registry_ok st →
  reconcileLoop paths st = (r, st') → kept st st' ∧ registry_ok st'.
Proof using OOk.
  induction paths as [|p paths IH]; intros st r st' Hp Hdir Hreg; cbn [reconcileLoop]; [by intros [= <- <-]|].
  assert (∀ q, q ∈ paths → ∃ n, q = path_join dir n ∧ x2f ∉ n) as Hp' by (intros q Hq; apply Hp; by right).
  destruct (Hp p ltac:(by left)) as (n & Hpn & Hfl). assert (base_name p = n) as -> by (subst p; unfold path_join; by apply base_name_app).
  destruct (has_suffix (str ".sst") n) eqn:Hs; cbn [negb]; [|by apply IH].
  unfold mbind at 1, ST_bind at 1, try. destruct (on_w syscall st) as [info st1] eqn:E1. apply on_w_run in E1 as [E1 Hu1].
  apply syscall_frame in E1 as [Hf1 Ho1].
  assert (kept st st1) as Hk1 by (unfold kept; by rewrite Hf1, Hu1).
  assert (registry_ok st1) as Hg1 by (intros m k; rewrite Ho1, Hu1; apply Hreg).
  assert (∃ done, dir_ok done (w_files st1.1)) as Hd1 by (by rewrite Hf1).
  assert (∀ r st', reconcileLoop paths st1 = (r, st') → kept st st' ∧ registry_ok st') as IH1.
  { intros r0 st0 H0. apply IH in H0 as [? ?]; try done. split; [by eapply kept_trans|done]. }
  unfold mbind at 1, ST_bind at 1, get_st. destruct info as [[]|e]; cbn [orb]; [|apply IH1].
  case_bool_decide as Hne; [apply IH1|]. case_bool_decide; cbn [orb]; [apply IH1|]. case_bool_decide; cbn [orb]; [apply IH1|].
  unfold mbind, ST_bind. destruct (uploadOne p st1) as [r2 st2] eqn:E2.
  apply uploadOne_spec in E2 as [Hk2 Hg2]; [| |done].
  2:{ exists n. do 3 (split; [done|]). intros c Hc. rewrite Hc in Hne. cbn [default] in Hne. destruct Hd1 as [done Hd1].
      subst p. destruct (Hd1 n c Hs Hfl Hc) as [?|[-> _]]; [done|by destruct Hne]. }
  assert (kept st st2) as Hk by (by eapply kept_trans). destruct r2 as [[]|]; [|by intros [= <- <-]].
  intros Hrest. apply IH in Hrest as [? ?]; [|done| |done]; [split; [by eapply kept_trans|done]|]. destruct Hk2 as [-> _]. done.
Qed.

Lemma Reconcile_spec st r st' :
  su_pebbleDir st.2 = dir → (∃ done, dir_ok done (w_files st.1)) → registry_ok st →
  Reconcile st = (r, st') → kept st st' ∧ registry_ok st'.
Proof using OOk.
  intros Hdir Hd Hreg. unfold Reconcile, mbind at 1, ST_bind at 1, get_st. rewrite Hdir. unfold mbind, ST_bind.
  destruct (on_w (os_readdir dir) st) as [r1 st1] eqn:E1. apply on_w_run in E1 as [E1 Hu1].
  assert (w_files st1.1 = w_files st.1 ∧ w_obj st1.1 = w_obj st.1 ∧
    match r1 with Ok paths => ∀ p, p ∈ paths → in_dir dir p = true | Err _ => True end) as (Hf1 & Ho1 & Hr1).
  { revert E1. unfold os_readdir, mbind, ST_bind, get_st, mret, ST_ret. destruct (syscall st.1) as [[[]|e] w1] eqn:Es; apply syscall_frame in Es as [Hf Ho];
      intros [= <- <-]; (split; [done|]); (split; [done|]); [|done].
    intros p Hp. rewrite sort_bytes_perm in Hp. by apply list_elem_of_filter in Hp as [? _]. }
  assert (kept st st1) as Hk1 by (unfold kept; by rewrite Hf1, Hu1).
  assert (registry_ok st1) as Hg1 by (intros m k; rewrite Ho1, Hu1; apply Hreg).
  destruct r1 as [paths|e]; [|by intros [= <- <-]].
  intros H. apply reconcile_spec in H as [? ?]; try done; [split; [by eapply kept_trans|done]| |by rewrite Hf1].
  intros p Hp. apply Hr1 in Hp. unfold in_dir in Hp. apply andb_true_iff in Hp as [Hp1 Hp2]. apply has_prefix_spec in Hp1 as [n ->].
  exists n. unfold path_join. rewrite <- app_assoc. split; [done|]. intros Hin. rewrite <- app_assoc in Hp2.
  replace (length dir + 1)%nat with (length (dir ++ str "/")) in Hp2 by (rewrite length_app; reflexivity).
  rewrite app_assoc, drop_app_length in Hp2. rewrite forallb_forall in Hp2. apply list_elem_of_In in Hin. apply Hp2 in Hin. done.
Qed.

(** ** The invariant *)

Record uinv s : Prop := {
  ui_dir : su_pebbleDir (us_st s).2 = dir;
  ui_files : dir_ok (us_done s) (w_files (us_st s).1);
  ui_registry : registry_ok (us_st s);
  ui_paths p : p ∈ us_adding s ++ su_uploadC (us_st s).2 ++ us_flying s →
    ∃ n, p = path_join dir n ∧ x2f ∉ n ∧ has_suffix (str ".sst") n = true ∧ n ∈ us_done s;
  ui_count : su_pending (us_st s).2 = Z.of_nat (length (us_adding s) + length (su_uploadC (us_st s).2) + length (us_flying s));
  ui_stopped : su_stopped (us_st s).2 = true ↔ us_loop s = Draining ∨ us_loop s = Exited }.

Lemma done_complete s p :
  uinv s → p ∈ us_adding s ++ su_uploadC (us_st s).2 ++ us_flying s → complete (w_files (us_st s).1) p.
Proof using.
  intros Hi Hp. destruct (ui_paths _ Hi p Hp) as (n & -> & Hfl & Hs & Hd). exists n. do 3 (split; [done|]). intros c Hc.
  by destruct (ui_files _ Hi n c Hs Hfl Hc) as [?|[_ ?]].
Qed.

Lemma try_run {St A} (m : ST St A) st : try m st = let '(r, st') := m st in (Ok r, st').
Proof using. unfold try. by destruct (m st). Qed.

Lemma uploadGo_spec p st r st' :
  complete (w_files st.1) p → registry_ok st → uploadGo p st = (r, st') →
  registry_ok st' ∧ kept (st.1, su_count (-1) st.2) st'.
Proof using OOk.
  intros Hc Hreg. unfold uploadGo, mbind, ST_bind. rewrite try_run. destruct (uploadOne p st) as [r1 st1] eqn:E.
  apply uploadOne_spec in E as [Hk Hg]; [|done..]. intros [= <- <-]. split; [done|].
  destruct Hk as (H1 & H2 & H3 & H4 & H5 & H6). unfold kept. cbn [fst snd]. unfold su_count. cbn.
  by rewrite H1, H2, H3, H4, H5, H6.
Qed.

Lemma queueSend_spec p st r st' :
  complete (w_files st.1) p → registry_ok st → queueSend p st = (r, st') →
  registry_ok st' ∧ w_files st'.1 = w_files st.1 ∧ su_pebbleDir st'.2 = su_pebbleDir st.2 ∧ su_stopped st'.2 = su_stopped st.2 ∧
  (su_uploadC st'.2 = su_uploadC st.2 ++ [p] ∧ su_pending st'.2 = su_pending st.2 ∨
   su_uploadC st'.2 = su_uploadC st.2 ∧ su_pending st'.2 = su_pending st.2 - 1).
Proof using OOk.
  intros Hc Hreg. unfold queueSend, mbind at 1, ST_bind at 1, get_st. destruct (_ <? _)%nat.
  - intros [= <- <-]. cbn. split; [exact Hreg|]. do 3 (split; [done|]). by left.
  - intros H. apply (uploadGo_spec p st r st') in H as [Hg (H1 & H2 & _ & H4 & H5 & H6)]; try done. cbn in *.
    rewrite H1, H2, H4, H5, H6. split; [done|]. do 3 (split; [done|]). right. split; [done|lia].
Qed.

Lemma uinv_step s s' : uinv s → ustep s s' → uinv s'.
Proof using OOk.
  intros Hi Hstep. pose proof (done_complete s) as Hcomp.
  destruct Hstep as [st st' add fly l done Hd Hu Ho|st r st' add fly l done n Hs Hfl Hd Hq|st r st' a1 p a2 fly l done Hq|st add fly done
    |w u add fly l done p q Hl Hq|w u add fly done|w u add fly done Hq|st r st' add f1 p f2 l done Hq|st r st' add fly l done Hq];
    pose proof Hi as [I1 I2 I3 I4 I5 I6]; cbn [us_st us_adding us_flying us_loop us_done] in *.
  - split; cbn; rewrite ?Hu; try done. intros n k Hk. rewrite Hu in Hk. destruct (I3 n k Hk) as [-> Hn]. split; [done|]. by apply Ho.
  - revert Hq. unfold queueBegin, mbind at 1, ST_bind at 1, get_st. destruct (su_stopped st.2) eqn:Est.
    + intros [= <- <-]. split; cbn; rewrite ?Est; try done. intros p Hp. destruct (I4 p Hp) as (m & ? & ? & ? & ?). exists m. set_solver.
    + intros [= <- <-]. split; cbn; rewrite ?Est; try done.
      * intros p Hp. rewrite <- app_assoc in Hp. apply elem_of_app in Hp as [Hp|Hp].
        { destruct (I4 p) as (m & ? & ? & ? & ?); [apply elem_of_app; by left|]. exists m. set_solver. }
        apply elem_of_app in Hp as [->%list_elem_of_singleton|Hp]; [exists n; set_solver|].
        destruct (I4 p) as (m & ? & ? & ? & ?); [apply elem_of_app; by right|]. exists m. set_solver.
      * rewrite length_app. cbn [length]. lia.
  - assert (p ∈ (a1 ++ p :: a2) ++ su_uploadC st.2 ++ fly) as Hin by (apply elem_of_app; left; apply elem_of_app; right; by left).
    apply queueSend_spec in Hq as (Hg & Hf & Hdir & Hst & Hor); [|by apply (Hcomp p Hi)|done].
    split; cbn; rewrite ?Hf, ?Hdir, ?Hst; try done.
    + intros p' Hp'. apply I4. destruct Hor as [[Hor _]|[Hor _]]; rewrite Hor in Hp'; set_solver.
    + rewrite !length_app in *. cbn [length] in *. destruct Hor as [[-> ->]|[-> ->]]; rewrite ?length_app; cbn [length]; lia.
  - split; cbn; try done. naive_solver.
  - split; cbn in *; try done.
    + intros p' Hp'. apply I4. rewrite Hq. set_solver.
    + rewrite I5, Hq, length_app. cbn [length]. lia.
  - split; cbn in *; try done. naive_solver.
  - split; cbn in *; try done. naive_solver.
  - assert (p ∈ add ++ su_uploadC st.2 ++ f1 ++ p :: f2) as Hin by set_solver.
    apply uploadGo_spec in Hq as [Hg (Hf & Hdir & _ & Hpe & Hqu & Hst)]; [|by apply (Hcomp p Hi)|done]. cbn in *.
    split; cbn; rewrite ?Hf, ?Hdir, ?Hst, ?Hqu; try done.
    + intros p' Hp'. apply I4. set_solver.
    + rewrite Hpe, I5. rewrite !length_app. cbn [length]. lia.
  - apply Reconcile_spec in Hq as [(Hf & Hdir & _ & Hpe & Hqu & Hst) Hg]; [|done|by exists done|done].
    split; cbn; rewrite ?Hf, ?Hdir, ?Hst, ?Hqu, ?Hpe; done.
Qed.

Definition ustart (w : world S) : uploads S := mkUploads (w, NewSSTUploader dir) [] [] NotStarted ∅.

Lemma uinv_start w : dir_ok ∅ (w_files w) → uinv (ustart w).
Proof using.
  intros Hd. split; cbn; try done.
  - by intros p ?%not_elem_of_nil.
  - split; [done|]. by intros [?|?].
Qed.

Lemma uinv_reachable w s : dir_ok ∅ (w_files w) → rtc ustep (ustart w) s → uinv s.
Proof using OOk.
  intros Hd. revert s. apply (rtc_ind_r (λ s, uinv s)); [by apply uinv_start|]. intros y z _ Hyz Hy. by eapply uinv_step.
Qed.

(** ** Composition with the checkpoint writer *)

Section Publish.
Context {T : Type} `{AI : ObjectStore T} `{AOk : !ObjectStoreOk T}.
Context (pebble_Checkpoint : bytes → ST (world S) ()) (image : gmap bytes bytes).
Context (Hpebble : pebble_law pebble_Checkpoint image).
(** The SSTs of the checkpoint are those of the directory. *)
Context (Himage : ∀ n c, image !! n = Some c → sst_name n = true → c = content n).

End Publish.

(** ** The wait group *)

Lemma exited_step s s' p : ustep s s' → us_loop s = Exited → p ∈ su_uploadC (us_st s).2 → registry_ok (us_st s) → uinv s →
  us_loop s' = Exited ∧ p ∈ su_uploadC (us_st s').2.
Proof using OOk.
  intros Hstep Hl Hp Hreg Hi. pose proof (done_complete s) as Hcomp.
  destruct Hstep as [st st' add fly l done Hd Hu Ho|st r st' add fly l done n Hs Hfl Hd Hq|st r st' a1 q a2 fly l done Hq|st add fly done
    |w u add fly l done q0 q Hl' Hq|w u add fly done|w u add fly done Hq|st r st' add f1 q f2 l done Hq|st r st' add fly l done Hq];
    cbn [us_st us_adding us_flying us_loop us_done] in *; try done.
  - by rewrite Hu.
  - split; [done|]. revert Hq. unfold queueBegin, mbind at 1, ST_bind at 1, get_st. by destruct (su_stopped st.2); intros [= <- <-].
  - split; [done|]. apply queueSend_spec in Hq as (_ & _ & _ & _ & [[-> _]|[-> _]]); [apply elem_of_app; by left|done|apply (Hcomp q Hi); set_solver|done].
  - discriminate Hl.
  - subst l. destruct Hl' as [Hl'|Hl']; discriminate Hl'.
  - discriminate Hl.
  - discriminate Hl.
  - split; [done|]. apply uploadGo_spec in Hq as [_ (_ & _ & _ & _ & -> & _)]; [done|apply (Hcomp q Hi); set_solver|done].
  - split; [done|]. apply Reconcile_spec in Hq as [(_ & _ & _ & _ & -> & _) _]; [done|apply Hi|exists done; apply Hi|done].
Qed.

Lemma exited_stuck s s' p : rtc ustep s s' → us_loop s = Exited → p ∈ su_uploadC (us_st s).2 → uinv s → 0 < su_pending (us_st s').2.
Proof using OOk.
  intros Hr. revert s Hr. apply (rtc_ind_l (λ s, us_loop s = Exited → p ∈ su_uploadC (us_st s).2 → uinv s → 0 < su_pending (us_st s').2)).
  - intros _ Hp Hi. rewrite (ui_count _ Hi). apply list_elem_of_split in Hp as (? & ? & ->). rewrite length_app. cbn [length]. lia.
  - intros x y Hxy _ IH Hl Hp Hi. destruct (exited_step x y p Hxy Hl Hp (ui_registry _ Hi) Hi) as [Hl' Hp']. apply IH; [done|done|]. by eapply uinv_step.
Qed.
End Steps.

(** ** Runs over the in-memory store *)

Definition sst_content (n : bytes) : bytes := str "a".
Definition db_empty : world Mem := mkWorld ∅ ∅ [].

Lemma db_empty_ok done : dir_ok (str "db") sst_content done (w_files db_empty).
Proof. intros n c _ _ Hc. cbn in Hc. by rewrite lookup_empty in Hc. Qed.

Lemma sst1_name : has_suffix (str ".sst") (str "1.sst") = true ∧ x2f ∉ str "1.sst".
Proof. split; [done|]. apply (bool_decide_unpack _). by vm_compute. Qed.

(** [Wait] can block for ever: [queueTable] counts a file under [stopMu] but
    sends it to the channel after releasing it; if [Start] drains the channel
    and exits in between, nobody ever takes the file from the channel, and the
    wait group never reaches zero. *)
Theorem uploader_wait_stuck :
  ∃ s, rtc (ustep (str "db") sst_content) (ustart (str "db") db_empty) s ∧
    ∀ s', rtc (ustep (str "db") sst_content) s s' → 0 < su_pending (us_st s').2.
Proof.
  destruct sst1_name as [Hs Hfl]. set (p := path_join (str "db") (str "1.sst")).
  eassert (rtc (ustep (str "db") sst_content) (ustart (str "db") db_empty) (mkUploads _ [] [] Exited ({[str "1.sst"]} ∪ ∅))) as Hr.
  { eapply rtc_l; [by eapply (U_event _ _ (db_empty, NewSSTUploader (str "db")) true _ [] [] NotStarted ∅ (str "1.sst") Hs Hfl (db_empty_ok _))|].
    eapply rtc_l; [apply U_start|]. eapply rtc_l; [apply U_stop|]. eapply rtc_l; [by apply U_exit|].
    eapply rtc_l; [by eapply (U_send _ _ _ (Ok tt) _ [] p [])|]. apply rtc_refl. }
  eexists. split; [exact Hr|]. intros s' Hs'.
  pose proof (uinv_reachable _ _ _ _ (db_empty_ok ∅) Hr) as Hi. eapply (exited_stuck _ _ _ s' p Hs'); [done| |done]. cbn. by left.
Qed.


(** The registry goes by file name and survives an in-place restore: a node that
    has registered its [1.sst] and replaces its database by a checkpoint with
    another [1.sst] publishes a checkpoint with the old file. *)
Definition replaced_db : world Mem * SSTUploader :=
  let start := (mkWorld {[path_join (str "db") (str "1.sst") := str "old"]} (w_obj cp_written.2.1) [], NewSSTUploader (str "db")) in
  let registered := (Reconcile start).2 in
  let removed := (os_removeall (str "db") registered.1).2 in
  let restored := (Restore (T := Mem) (CheckpointIndexKey 1 7) (str "db") (removed, None)).2 in
  (Reconcile (restored.1, registered.2)).2.

Theorem stale_registry_checkpoint :
  let written := WriteWithRegistryAtSequence (T := Mem) (fill cp_image) (str "tmp") 2 9 9 []
    (Registry replaced_db.2) (InheritedRegistry replaced_db.2) (replaced_db.1, None) in
  let restored := Restore (CheckpointIndexKey 2 9) (str "new") written.2 in
  w_files replaced_db.1 !! path_join (str "db") (str "1.sst") = Some (str "a") ∧ cp_image !! str "1.sst" = Some (str "a") ∧
  written.1 = Ok tt ∧ restored.1 = Ok (2, 9) ∧ files restored.2 !! path_join (str "new") (str "1.sst") = Some (str "old").
Proof. split_and!; vm_compute; reflexivity. Qed.

(** A follower registers at start-up the SSTs of the checkpoint it was restored
    from.  When the leader's garbage collection has deleted one of them and
    the follower is promoted, [Reconcile] takes it for uploaded and the first
    checkpoint it publishes refers to an object that does not exist. *)
Definition leader_store : list (bytes * bytes) :=
  [ (sstA, str "a"); (sstB, str "b"); manifest_at 1 6; index_at 1 4 [sstA] []; current 1 4; index_at 1 5 [sstB] []; current 1 5;
    index_at 1 6 [sstB] []; current 1 6 ].

Definition promoted_follower : world Mem * SSTUploader :=
  let restored := (Restore (T := Mem) (CheckpointIndexKey 1 4) (str "db") (mkWorld ∅ (mem_of leader_store) [], None)).2 in
  let started := (Reconcile (restored.1, NewSSTUploader (str "db"))).2 in
  let collected := (gcCheckpointsAndSSTs (w_obj started.1)).2 in
  (Reconcile (set_obj collected started.1, started.2)).2.

Theorem promoted_registry_missing_sst :
  let written := WriteWithRegistryAtSequence (T := Mem) (fill cp_image) (str "tmp") 2 7 7 []
    (Registry promoted_follower.2) (InheritedRegistry promoted_follower.2) (promoted_follower.1, None) in
  written.1 = Ok tt ∧
  match (ReadManifest (w_obj written.2.1)).1 with Ok (Some m) => mf_CheckpointKey m = CheckpointIndexKey 2 7 | _ => False end ∧
  (Restore (CheckpointIndexKey 2 7) (str "new") written.2).1 = Err ErrNotFound.
Proof. split_and!; vm_compute; reflexivity. Qed.
