(* ===== verification/Lifecycle.v ===== *)
(** * Roles of a node

    The parts of node.go, leader.go, follower.go and wal_replay.go that change
    the role of a running node: winning and losing elections, taking over from
    a leader, the in-place restore from a checkpoint, the watch over the lock,
    checkpoints, and shutting down.  A method is a function on [Life]: the
    node of [Node], its log and its world, and what only these methods use.
    Pebble is given by its operations; [others] is what other nodes do to the
    object store while this one sleeps. *)

From S2P Require Import Prelude Bytes Decimal WalEntry Os WalSegment Json Object Wal WalRecovery Pebble StoreKeys Store Peer Node Server Follower WalReplay Election Sha256 Checkpoint SstUploader.

(** ** Configuration *)

Record Config := mkConfig {
  cf_DataDir : bytes;
  cf_SegmentMaxSize : Z;
  cf_WALSyncUpload : option bool;
  cf_CheckpointInterval : Z;
  cf_NodeID : bytes;
  cf_PeerListenAddr : bytes;
  cf_AdvertisePeerAddr : bytes;
  cf_LeaderWatchInterval : Z;
  cf_FollowerMaxRetries : Z;
  cf_FollowerWaitMode : option WaitMode;
  cf_PeerBufferSize : Z }.

(** Durations in nanoseconds. *)
Definition second : Z := 1000000000.
Definition minute : Z := 60 * second.

Definition or_default (d z : Z) : Z := if z =? 0 then d else z.
Definition or_bytes (d s : bytes) : bytes := match s with [] => d | _ => s end.

(** [setDefaults]; [hostname] is the result of [os.Hostname]. *)
Definition setDefaults (hostname : result bytes) (c : Config) : Config :=
  mkConfig (cf_DataDir c)
    (or_default (Z.shiftl 50 20) (cf_SegmentMaxSize c))
    (Some (default true (cf_WALSyncUpload c)))
    (or_default (15 * minute) (cf_CheckpointInterval c))
    (or_bytes (match hostname with Ok h => h | Err _ => str "node-0" end) (cf_NodeID c))
    (cf_PeerListenAddr c)
    (or_bytes (cf_PeerListenAddr c) (cf_AdvertisePeerAddr c))
    (or_default (5 * minute) (cf_LeaderWatchInterval c))
    (or_default 5 (cf_FollowerMaxRetries c))
    (Some (default WaitQuorum (cf_FollowerWaitMode c)))
    (or_default 10000 (cf_PeerBufferSize c)).

Definition FollowerRetryInterval : Z := 2 * second.
Definition LeaderLivenessTTL : Z := 3 * FollowerRetryInterval.

(** ** The running node *)

(** Goroutines started with [go]. *)
Inductive goroutine := GoCommitLoop | GoCheckpointLoop | GoWatchLoop (term : Z) | GoServe | GoFollowLoop | GoUploader | GoWAL.

Record Life (S T DB : Type) := mkLife {
  lf_node : Node DB (WAL * world S) peerEnv;
  lf_leaderCli : option bytes;            (* the address of the leader the node forwards to *)
  lf_canceled : bool;                     (* [bgCtx] is cancelled *)
  lf_serving : bool;                      (* the peer gRPC server runs *)
  lf_uploader : option SSTUploader;
  lf_ancestor : option T;
  lf_entriesSince : Z;                    (* [entriesSinceCheckpoint] *)
  lf_spawned : list goroutine }.
Arguments mkLife {S T DB} _ _ _ _ _ _ _ _.
Arguments lf_node {S T DB} _.
Arguments lf_leaderCli {S T DB} _.
Arguments lf_canceled {S T DB} _.
Arguments lf_serving {S T DB} _.
Arguments lf_uploader {S T DB} _.
Arguments lf_ancestor {S T DB} _.
Arguments lf_entriesSince {S T DB} _.
Arguments lf_spawned {S T DB} _.

Section Lifecycle.
Context {S T DB : Type} `{OI : ObjectStore S} `{CI : !ConditionalStore S} `{AI : ObjectStore T} `{PI : Pebble DB}.
Local Notation Node := (Node DB (WAL * world S) peerEnv).
Local Notation Life := (Life S T DB).
Notation LM := (ST Life).
Implicit Types (l : Life) (n : Node).

Context (cfg : Config).
Context (pebble_Open : bytes → ST (world S) DB) (pebble_Close pebble_Flush : DB → ST (world S) ()).
Context (pebble_Checkpoint : DB → bytes → ST (world S) ()).
Context (others : S → S) (lockRetries : nat).

(** The object store implements [ConditionalStore]. *)
Definition node_lock : Lock := NewLock (cf_NodeID cfg) (cf_AdvertisePeerAddr cfg) true.
Definition walDir : bytes := path_join (cf_DataDir cfg) (str "wal").
Definition pebbleDir : bytes := path_join (cf_DataDir cfg) (str "db").

Definition set_node n l : Life :=
  mkLife n (lf_leaderCli l) (lf_canceled l) (lf_serving l) (lf_uploader l) (lf_ancestor l) (lf_entriesSince l) (lf_spawned l).
Definition set_leaderCli (a : option bytes) l : Life :=
  mkLife (lf_node l) a (lf_canceled l) (lf_serving l) (lf_uploader l) (lf_ancestor l) (lf_entriesSince l) (lf_spawned l).
Definition set_canceled l : Life :=
  mkLife (lf_node l) (lf_leaderCli l) true (lf_serving l) (lf_uploader l) (lf_ancestor l) (lf_entriesSince l) (lf_spawned l).
Definition set_serving (b : bool) l : Life :=
  mkLife (lf_node l) (lf_leaderCli l) (lf_canceled l) b (lf_uploader l) (lf_ancestor l) (lf_entriesSince l) (lf_spawned l).
Definition set_uploader (u : option SSTUploader) l : Life :=
  mkLife (lf_node l) (lf_leaderCli l) (lf_canceled l) (lf_serving l) u (lf_ancestor l) (lf_entriesSince l) (lf_spawned l).
Definition set_ancestor (a : option T) l : Life :=
  mkLife (lf_node l) (lf_leaderCli l) (lf_canceled l) (lf_serving l) (lf_uploader l) a (lf_entriesSince l) (lf_spawned l).
Definition set_entriesSince (c : Z) l : Life :=
  mkLife (lf_node l) (lf_leaderCli l) (lf_canceled l) (lf_serving l) (lf_uploader l) (lf_ancestor l) c (lf_spawned l).
Definition go (g : goroutine) l : Life :=
  mkLife (lf_node l) (lf_leaderCli l) (lf_canceled l) (lf_serving l) (lf_uploader l) (lf_ancestor l) (lf_entriesSince l) (lf_spawned l ++ [g]).

Definition set_term (t : Z) n : Node :=
  mkNode (n_db n) (n_wal n) (n_peerSrv n) t (n_role n) (n_closed n) (n_nextRev n) (n_nextSeq n) (n_pending n) (n_writeC n).
Definition set_role (r : nodeRole) n : Node :=
  mkNode (n_db n) (n_wal n) (n_peerSrv n) (n_term n) r (n_closed n) (n_nextRev n) (n_nextSeq n) (n_pending n) (n_writeC n).

Definition upd_node (f : Node → Node) : LM () := modify (λ l, set_node (f (lf_node l)) l).
Definition l_world l : world S := (n_wal (lf_node l)).2.
Definition set_world (w : world S) l : Life := set_node (set_n_wal ((n_wal (lf_node l)).1, w) (lf_node l)) l.

Definition on_wd {A} (m : ST (world S) A) : LM A := zoom l_world set_world m.
Definition on_os {A} (m : ST S A) : LM A := on_wd (zoom w_obj (λ o w, set_obj o w) m).
Definition on_log {A} (m : ST (WAL * world S) A) : LM A :=
  zoom (λ l, n_wal (lf_node l)) (λ x l, set_node (set_n_wal x (lf_node l)) l) m.
Definition on_st {A} (m : ST (Store DB) A) : LM A :=
  zoom (λ l, n_db (lf_node l)) (λ d l, set_node (set_n_db d (lf_node l)) l) m.
Definition on_cp {A} (m : ST (world S * option T) A) : LM A :=
  zoom (λ l, (l_world l, lf_ancestor l)) (λ x l, set_ancestor x.2 (set_world x.1 l)) m.
Definition on_replay {A} (m : ST (S * Store DB) A) : LM A :=
  zoom (λ l, (w_obj (l_world l), n_db (lf_node l)))
    (λ x l, set_node (set_n_db x.2 (lf_node l)) (set_world (set_obj x.1 (l_world l)) l)) m.
Definition the_db : LM (Store DB) := l ← get_st; mret (n_db (lf_node l)).

(** [time.Sleep]: meanwhile other nodes use the object store. *)
Definition sleep_w : ST (world S) () := modify (λ w, set_obj (others (w_obj w)) w).
Definition sleep : LM () := on_wd sleep_w.

(** ** Opening the store *)

(** [os.Rename] of a directory. *)
Definition os_rename_dir (old new : bytes) : ST (world S) () :=
  syscall;;
  modify (λ w, set_files
    (list_to_map (map (λ p, (if has_prefix (old ++ str "/") p.1 then new ++ drop (length old) p.1 else p.1, p.2))
                      (map_to_list (w_files w)))) w).

(** [strings.Contains]. *)
Fixpoint contains (p s : bytes) : bool :=
  has_prefix p s || match s with [] => false | _ :: s' => contains p s' end.

Definition isPebbleLockError (e : err) : bool := contains (str "LOCK") (str (Error e)).

(** [istore.Open]: [tries] more attempts fit before the deadline when another
    process holds the lock. *)
Fixpoint openLoop (tries : nat) (dir : bytes) : ST (world S) (Store DB) :=
  r ← try (pebble_Open dir);
  match r with
  | Ok d =>
      match loadMeta d with
      | Err e => _ ← try (pebble_Close d); throw e
      | Ok s => mret s
      end
  | Err e =>
      if negb (isPebbleLockError e) then throw e
      else match tries with
           | O => throw e
           | Datatypes.S tries' => sleep_w;; openLoop tries' dir
           end
  end.

Definition storeOpen (dir : bytes) : ST (world S) (Store DB) := openLoop lockRetries dir.

(** ** In-place restore (wal_replay.go) *)

Definition errManifestGone : err := ErrText "manifest disappeared during restore".

(** The retry loop of the download; [left] attempts remain. *)
Fixpoint restoreAttempts (left : nat) (manifest : Manifest) (tmpDir : bytes) : LM Z :=
  _ ← try (on_wd (os_removeall tmpDir));
  r ← try (on_cp (Restore (mf_CheckpointKey manifest) tmpDir));
  match r with
  | Ok (t, _) => mret t
  | Err e =>
      match left with
      | O => _ ← try (on_wd (os_removeall tmpDir)); throw e
      | Datatypes.S left' =>
          if negb (bool_decide (e = ErrNotFound)) then _ ← try (on_wd (os_removeall tmpDir)); throw e
          else
            sleep;;
            m ← try (on_os ReadManifest);
            match m with
            | Err e => _ ← try (on_wd (os_removeall tmpDir)); throw e
            | Ok None => _ ← try (on_wd (os_removeall tmpDir)); throw errManifestGone
            | Ok (Some manifest) => restoreAttempts left' manifest tmpDir
            end
      end
  end.

(** The swap of the database directories. *)
Definition swapDatabase (tmpDir : bytes) (newTerm : Z) : LM () :=
  on_st SignalClose;;
  db ← the_db;
  r ← try (on_wd (pebble_Close (st_db db)));
  match r with Err e => _ ← try (on_wd (os_removeall tmpDir)); throw e | Ok _ => mret tt end;;
  r ← try (on_wd (os_removeall pebbleDir));
  match r with Err e => _ ← try (on_wd (os_removeall tmpDir)); throw e | Ok _ => mret tt end;;
  r ← try (on_wd (os_rename_dir tmpDir pebbleDir));
  match r with Err e => _ ← try (on_wd (os_removeall tmpDir)); throw e | Ok _ => mret tt end;;
  newDB ← on_wd (storeOpen pebbleDir);
  upd_node (set_n_db newDB);;
  upd_node (set_term newTerm).

Definition restoreDBIfBehindCheckpoint : LM bool :=
  manifest ← on_os ReadManifest;
  db ← the_db;
  match manifest with
  | None => mret false
  | Some m =>
      if mf_Revision m <=? st_currentRev db then mret false
      else
        let tmpDir := pebbleDir ++ str ".resync" in
        newTerm ← restoreAttempts 4 m tmpDir;
        swapDatabase tmpDir newTerm;;
        mret true
  end.

(** ** Becoming leader (leader.go) *)

Fixpoint uploadSegments (inS3 : list bytes) (paths : list bytes) : ST (world S) () :=
  match paths with
  | [] => mret tt
  | path :: paths' =>
      match ParseSegmentName (base_name path) with
      | None => mret tt
      | Some (term, firstRev) =>
          let objKey := ObjectKey term firstRev in
          if bool_decide (objKey ∈ inS3) then mret tt else _ ← try (makeUploader path objKey); mret tt
      end;;
      uploadSegments inS3 paths'
  end.

Definition uploadLocalWALSegments (walDir : bytes) : ST (world S) () :=
  r ← try (LocalSegments walDir);
  match r with
  | Err _ | Ok [] => mret tt
  | Ok paths =>
      s3Keys ← try (zoom w_obj (λ o w, set_obj o w) (obj_List (str "wal/")));
      uploadSegments (match s3Keys with Ok ks => ks | Err _ => [] end) paths
  end.

(** [wal.MaxSequence]: the partial maximum counts also when there was an error. *)
Definition maxSeqOf (dir : bytes) : ST (world S) Z := λ w, let '((m, _), w') := MaxSequence dir w in (Ok m, w').

(** The log of a leader, with an uploader. *)
Definition leaderUploader : option (bytes → bytes → ST (world S) ()) := Some makeUploader.

(** [n.wal] is replaced by [w2], which stays in the world of the node. *)
Definition openLeaderWAL (term startRev : Z) : LM WAL :=
  l ← get_st;
  let '(r, (w2, w)) := Open walDir term startRev (New (cf_SegmentMaxSize cfg) false, l_world l) in
  modify (set_world w);; from_result r;; mret w2.

(** The log of a follower has no uploader. *)
Definition becomeLeader (rec : LockRecord) : LM () :=
  _ ← try (on_log (WalClose None));
  on_wd (uploadLocalWALSegments walDir);;
  _ ← restoreDBIfBehindCheckpoint;
  db ← the_db;
  on_replay (replayRemote (st_lastSeq db));;
  db ← the_db;
  maxSeq ← on_wd (maxSeqOf walDir);
  let nextSeq := if st_lastSeq db <? maxSeq then maxSeq else st_lastSeq db in
  w2 ← openLeaderWAL (lk_Term rec) (i64 (nextSeq + 1));
  r ← try (on_wd syscall);                     (* net.Listen *)
  match r with
  | Err e =>
      l ← get_st;
      let '(_, (_, w)) := WalClose leaderUploader (w2, l_world l) in
      modify (set_world w);; throw e
  | Ok _ => mret tt
  end;;
  let srv := SetStartRev (i64 (st_lastSeq db + 1)) (NewServer (Z.to_nat (cf_PeerBufferSize cfg))) in
  modify (λ l,
    let n := lf_node l in
    set_leaderCli None (set_serving true (set_node
      (mkNode (n_db n) (w2, (n_wal n).2)
         (Some (mkEnv srv (default WaitQuorum (cf_FollowerWaitMode cfg)) ErrCanceled []))
         (lk_Term rec) roleLeader (n_closed n) (st_currentRev (n_db n)) nextSeq ∅ (n_writeC n)) l)));;
  modify (go GoServe);;
  modify (go (GoWatchLoop (lk_Term rec))).

(** ** Watching the lock (leader.go) *)

(** Stepping down: cancel, then stop the peer server. *)
Definition stepDown : LM () := modify (λ l, set_serving false (set_canceled l)).

(** [fencedCheck]; [now] is the clock at the touch.  [false] ends the loop. *)
Definition fencedCheck (now term : Z) (touch : bool) : LM bool :=
  l ← get_st;
  if n_closed (lf_node l) then mret false
  else
    r ← try (on_os (ReadETag node_lock));
    match r with
    | Err _ => mret true
    | Ok (rec, etag) =>
        if match rec with
           | None => true
           | Some rec => negb (lk_Term rec =? term) || negb (bool_decide (lk_NodeID rec = cf_NodeID cfg))
           end
        then stepDown;; mret false
        else if touch && bool_decide (is_Some (n_peerSrv (lf_node l))) then
          db ← the_db;
          t ← try (on_os (TouchIfMatch node_lock now term (cf_AdvertisePeerAddr cfg) etag (st_currentRev db)));
          match t with
          | Err ErrPreconditionFailed => stepDown;; mret false
          | _ => mret true
          end
        else mret true
    end.

(** What wakes the loop up, with the clock; [WPoll] only while polling. *)
Inductive watchEvent := WTick | WDisconnect (now : Z) | WPoll (now : Z) | WDone.

(** One turn of the loop: whether it goes on, and whether it polls. *)
Definition watchStep (term : Z) (polling : bool) (ev : watchEvent) : LM (option bool) :=
  match ev with
  | WTick => ok ← fencedCheck 0 term false; mret (if ok : bool then Some polling else None)
  | WDisconnect now => ok ← fencedCheck now term true; mret (if ok : bool then Some true else None)
  | WPoll now =>
      if negb polling then mret (Some polling)
      else
        ok ← fencedCheck now term true;
        if negb ok then mret None
        else
          l ← get_st;
          mret (Some (match n_peerSrv (lf_node l) with
                      | Some p => if (0 <? ConnectedFollowers (pe_srv p))%nat then false else polling
                      | None => polling
                      end))
  | WDone => mret None
  end.

Fixpoint watchTurns (term : Z) (polling : bool) (evs : list watchEvent) : LM () :=
  match evs with
  | [] => mret tt
  | ev :: evs' =>
      p ← watchStep term polling ev;
      match p with Some polling => watchTurns term polling evs' | None => mret tt end
  end.

Definition watchLoop (term : Z) (evs : list watchEvent) : LM () :=
  l ← get_st;
  watchTurns term (bool_decide (is_Some (n_peerSrv (lf_node l)))) evs.

(** After a fatal commit error. *)
Definition stepDownOnFatalCommitError : LM () :=
  l ← get_st;
  if negb (bool_decide (n_role (lf_node l) = roleLeader)) then mret tt else stepDown.

(** ** Checkpoints (leader.go) *)

(** What the upload goroutines do until the wait group is empty. *)
Context (settle : world S * SSTUploader → world S * SSTUploader).
Context (mkTmp : bytes).

Definition writeCheckpoint (rev seq : Z) : LM () :=
  on_log (SealAndFlush leaderUploader (i64 (seq + 1)));;
  db ← the_db;
  on_wd (pebble_Flush (st_db db));;
  l ← get_st;
  let term := n_term (lf_node l) in
  match lf_uploader l with
  | Some u =>
      let '(w, u) := settle (l_world l, u) in
      modify (λ l, set_uploader (Some u) (set_world w l));;
      on_cp (WriteWithRegistryAtSequence (pebble_Checkpoint (st_db db)) mkTmp term rev seq [] (Registry u) (InheritedRegistry u))
  | None => on_cp (WriteAtSequence (pebble_Checkpoint (st_db db)) mkTmp term rev seq [])
  end.

Definition forceCheckpoint : LM () :=
  db ← the_db;
  let rev := st_currentRev db in
  if rev =? 0 then mret tt
  else
    r ← try (writeCheckpoint rev (st_lastSeq db));
    match r with Err _ => mret tt | Ok _ => modify (set_entriesSince 0) end.

Definition maybeCheckpoint : LM () :=
  l ← get_st;
  if lf_entriesSince l =? 0 then mret tt
  else
    db ← the_db;
    let rev := st_currentRev db in
    if rev =? 0 then mret tt
    else
      let seq := st_lastSeq db in
      r ← try (writeCheckpoint rev seq);
      match r with
      | Err _ => mret tt
      | Ok _ =>
          modify (set_entriesSince 0);;
          l ← get_st;
          let gcSeq := match n_peerSrv (lf_node l) with
                       | Some p => Z.min seq (MinFollowerAppliedRev (pe_srv p))
                       | None => seq
                       end in
          _ ← try (on_os (GCSegments gcSeq));
          _ ← try (on_os gcCheckpointsAndSSTs);
          mret tt
      end.

(** [checkpointLoop]: [true] for a tick or a trigger; the list ends when the
    context is cancelled. *)
Definition checkpointLoop (ticks : nat) : LM () :=
  forceCheckpoint;; Nat.iter ticks (λ m, maybeCheckpoint;; m) (mret tt).

(** ** Elections *)

Definition observe (term : Z) : LM () := upd_node (λ n, set_term (observeTerm term (n_term n)) n).

(** [electAndStart] (node.go): without a record there is no leader to follow,
    and the code dereferences nil. *)
Definition electAndStart (now : Z) : LM () :=
  l ← get_st;
  db ← the_db;
  res ← on_os (TryAcquire node_lock now (n_term (lf_node l)) (st_currentRev db));
  match res with
  | (Some rec, true) => becomeLeader rec
  | (Some rec, false) =>
      observe (lk_Term rec);;
      upd_node (set_role roleFollower);;
      modify (set_leaderCli (Some (lk_LeaderAddr rec)))
  | (None, _) => throw (ErrText "nil pointer dereference")
  end.

(** The follower's answer to an election it did not win: the address of the
    leader to follow, if any. *)
Definition followOther (rec : LockRecord) : LM (option bytes * bool) :=
  match lk_LeaderAddr rec with
  | [] => mret (None, false)
  | addr => observe (lk_Term rec);; mret (Some addr, false)
  end.

(** What the winner of [TakeOver] does. *)
Definition promote (rec : LockRecord) : LM (option bytes * bool) :=
  r ← try (becomeLeader rec);
  match r with
  | Err _ => mret (None, false)
  | Ok _ =>
      modify (go GoCommitLoop);;
      (if 0 <? cf_CheckpointInterval cfg then modify (go GoCheckpointLoop) else mret tt);;
      l ← get_st;
      match lf_uploader l with
      | Some u =>
          let '(_, (w, u)) := Reconcile (l_world l, u) in
          modify (λ l, set_uploader (Some u) (set_world w l));; modify (go GoUploader)
      | None => mret tt
      end;;
      (if 0 <? cf_CheckpointInterval cfg then forceCheckpoint else mret tt);;
      mret (None, true)
  end.

(** The takeover itself, for a node that is not behind. *)
Definition takeOver (now : Z) : LM (option bytes * bool) :=
  l ← get_st;
  db ← the_db;
  r ← try (on_os (TakeOver node_lock now (n_term (lf_node l)) (st_currentRev db)));
  match r with
  | Err _ => mret (None, false)
  | Ok (Some rec, true) => promote rec
  | Ok (Some rec, false) => followOther rec
  | Ok (None, _) => mret (None, false)
  end.

(** [attemptPromotion] (follower.go): the address of another leader, and
    whether this node was promoted. *)
Definition attemptPromotion (now : Z) (graceful : bool) : LM (option bytes * bool) :=
  r ← try (on_os (Read node_lock));
  match r with
  | Err _ => mret (None, false)
  | Ok None => takeOver now
  | Ok (Some existing) =>
      if negb graceful && (0 <? lk_LastSeenNano existing) && (now - lk_LastSeenNano existing <? LeaderLivenessTTL)
      then followOther existing
      else
        db ← the_db;
        if st_currentRev db <? lk_CommittedRev existing then
          if graceful then
            r ← try (on_replay (replayRemote (st_lastSeq db)));
            match r with
            | Err _ => mret (None, false)
            | Ok _ =>
                db ← the_db;
                if st_currentRev db <? lk_CommittedRev existing then mret (None, false) else takeOver now
            end
          else followOther existing
        else takeOver now
  end.

(** ** Following (follower.go) *)

Definition resyncFromCheckpoint : LM () :=
  restored ← restoreDBIfBehindCheckpoint;
  if negb restored then mret tt
  else
    db ← the_db;
    let newRev := st_currentRev db in
    _ ← try (on_log (WalClose None));
    _ ← try (on_wd (os_removeall walDir));
    l ← get_st;
    let '(r, (newWal, w)) := Open walDir (n_term (lf_node l)) (i64 (newRev + 1)) (New (cf_SegmentMaxSize cfg) false, l_world l) in
    modify (set_world w);; from_result r;;
    upd_node (λ n, set_counters newRev (n_nextSeq n) (set_n_wal (newWal, (n_wal n).2) n)).

(** [cli.Follow] with the callbacks of the loop; the streams are [attempts]. *)
Definition follow (fromRev : Z) (acksOk : bool) (attempts : list attempt) : LM (Z * err) := λ l,
  let n := lf_node l in
  let f0 := mkFollower fromRev (n_wal n) (n_db n) (n_term n) [] in
  let '(r, f) := @Follow (Follower DB (WAL * world S))
                   (walFn (H0 := wal_writer None)) applyFn (sendAck acksOk)
                   (Z.to_nat (cf_FollowerMaxRetries cfg)) fromRev 0 attempts f0 in
  (match r with Ok e => Ok (fl_fromRev f, e) | Err e => Err e end,
   set_node (set_term (fl_term f) (set_n_db (fl_db f) (set_n_wal (fl_wal f) n))) l).

(** One round of [followLoop]: it returns, or goes on from a sequence. *)
Inductive followNext := FollowReturn | FollowAgain (fromRev : Z).

Definition followRound (now fromRev : Z) (acksOk : bool) (attempts : list attempt) : LM followNext :=
  '(fromRev, e) ← follow fromRev acksOk attempts;
  l ← get_st;
  if lf_canceled l then mret FollowReturn
  else if bool_decide (e = ErrResyncRequired) then
    r ← try resyncFromCheckpoint;
    match r with
    | Err _ => modify set_canceled;; mret FollowReturn
    | Ok _ =>
        db ← the_db;
        r ← try (on_replay (replayRemote (st_lastSeq db)));
        match r with
        | Err _ => sleep;; mret (FollowAgain fromRev)
        | Ok _ => on_st NotifyRevision;; db ← the_db; mret (FollowAgain (i64 (st_lastSeq db + 1)))
        end
    end
  else if bool_decide (e = ErrLeaderUnreachable) || bool_decide (e = ErrLeaderShutdown) then
    '(newCli, promoted) ← attemptPromotion now (bool_decide (e = ErrLeaderShutdown));
    if promoted : bool then mret FollowReturn
    else
      match newCli with Some a => modify (set_leaderCli (Some a)) | None => mret tt end;;
      mret (FollowAgain fromRev)
  else sleep;; mret (FollowAgain fromRev).

(** The rounds end when the context is cancelled. *)
Fixpoint followRounds (rounds : list (Z * bool * list attempt)) (fromRev : Z) : LM () :=
  match rounds with
  | [] => mret tt
  | (now, acksOk, attempts) :: rounds' =>
      next ← followRound now fromRev acksOk attempts;
      match next with FollowReturn => mret tt | FollowAgain fromRev => followRounds rounds' fromRev end
  end.

Definition followLoop (rounds : list (Z * bool * list attempt)) : LM () :=
  db ← the_db; followRounds rounds (i64 (st_lastSeq db + 1)).

(** ** Shutting down (node.go) *)

Definition gracefulLeaderShutdown (now : Z) : LM () :=
  _ ← try (on_log (WalClose leaderUploader));
  l ← get_st;
  _ ← try (on_os (Touch node_lock now (n_term (lf_node l)) (cf_AdvertisePeerAddr cfg) (st_currentRev (n_db (lf_node l)))));
  upd_node (λ n, set_peerSrv (option_map (λ p, mkEnv (BroadcastShutdown (pe_srv p)) (pe_mode p) (pe_ctxErr p) (pe_events p)) (n_peerSrv n)) n).

(** [Close], once: [up] is the uploader of the node's log, [GoodBye] of a
    follower concerns the leader only. *)
Definition Close (now : Z) (up : option (bytes → bytes → ST (world S) ())) : LM () :=
  upd_node (set_n_closed true);;
  l ← get_st;
  (if bool_decide (n_role (lf_node l) = roleLeader) then gracefulLeaderShutdown now else mret tt);;
  modify set_canceled;;
  on_st SignalClose;;
  modify (set_serving false);;
  w ← try (on_log (WalClose up));
  db ← the_db;
  d ← try (on_wd (pebble_Close (st_db db)));
  match d, w with
  | Err e, _ => throw e
  | Ok _, Err e => throw e
  | Ok _, Ok _ => mret tt
  end.
End Lifecycle.
