(* ===== verification/Startup.v ===== *)
(** * Starting a node

    [Open] of node.go: the database is restored from a restore point, from a
    branch point or from the checkpoint of the node's own object store, then
    the local and the remote log are replayed, the gap that a concurrent
    garbage collection can leave is closed, and the role of the node is
    decided.  The state is the [Life] of the node with the object stores of
    the branch and of the restore point.  Directories are not part of the
    world: whether the database directory exists, which [Open] asks once, is an
    argument.  The expert hooks [cfg.WAL] and [cfg.PebbleOptions] are unset. *)

From S2P Require Import Prelude Bytes Decimal WalEntry Os WalSegment Json Object Wal WalRecovery Pebble StoreKeys Store Peer Node Server Follower WalReplay Election Sha256 Checkpoint SstUploader Lifecycle.

(** ** Restore and branch points (restore.go) *)

Record PinnedObject := mkPinned { po_Key : bytes; po_VersionID : bytes }.

Record RestorePoint := mkRestorePoint {
  rp_CheckpointArchive : PinnedObject;
  rp_CheckpointFiles : list PinnedObject;
  rp_WALSegments : list PinnedObject }.

Record BranchPoint := mkBranchPoint { bp_CheckpointKey : bytes }.

Definition errPinnedEmpty : err := ErrText "t4: RestorePoint.CheckpointFiles has empty Key or VersionID".
Definition errPinnedConflict : err := ErrText "t4: RestorePoint.CheckpointFiles has conflicting versions for key".
Definition errManifestNil : err := ErrText "t4: re-read manifest after GC".

(** The versions of the files of a restore point. *)
Fixpoint pinnedVersions (objs : list PinnedObject) (acc : gmap bytes bytes) : result (gmap bytes bytes) :=
  match objs with
  | [] => Ok acc
  | obj :: objs' =>
      if bool_decide (po_Key obj = []) || bool_decide (po_VersionID obj = []) then Err errPinnedEmpty
      else
        match acc !! po_Key obj with
        | Some existing =>
            if negb (bool_decide (existing = po_VersionID obj)) then Err errPinnedConflict
            else pinnedVersions objs' (<[po_Key obj := po_VersionID obj]> acc)
        | None => pinnedVersions objs' (<[po_Key obj := po_VersionID obj]> acc)
        end
  end.

(** The SSTs of the ancestor by file name. *)
Definition inheritedOf (keys : list bytes) : gmap bytes bytes :=
  fold_left (λ m key, <[base_name key := key]> m) keys ∅.

(** ** The start-up state *)

Record Boot (S T B V DB : Type) := mkBoot {
  bo_life : Life S T DB;
  bo_src : B;          (* [cfg.BranchPoint.SourceStore] *)
  bo_ver : V }.        (* [cfg.RestorePoint.Store] *)
Arguments mkBoot {S T B V DB} _ _ _.
Arguments bo_life {S T B V DB} _.
Arguments bo_src {S T B V DB} _.
Arguments bo_ver {S T B V DB} _.

Section Startup.
Context {S T B V DB : Type} `{OI : ObjectStore S} `{CI : !ConditionalStore S} `{AI : ObjectStore T}.
Context `{BI : ObjectStore B} `{VI : ObjectStore V} `{PI : Pebble DB}.
Local Notation Life := (Life S T DB).
Local Notation Boot := (Boot S T B V DB).
Notation LM := (ST Life).
Notation BM := (ST Boot).

Context (cfg : Config) (hasStore : bool) (restorePoint : option RestorePoint) (branchPoint : option BranchPoint).
Context (getVersioned : bytes → bytes → ST V reader).
Context (pebble_Open : bytes → ST (world S) DB) (pebble_Close : DB → ST (world S) ()).
Context (others : S → S) (lockRetries : nat).

Local Notation walDir := (walDir cfg).
Local Notation pebbleDir := (pebbleDir cfg).
Local Notation storeOpen := (storeOpen pebble_Open pebble_Close others lockRetries).

Definition on_life {A} (m : LM A) : BM A := zoom bo_life (λ l b, mkBoot l (bo_src b) (bo_ver b)) m.

(** A store other than the node's own, with the node's disk. *)
Definition foreign {X} (x : X) (w : world S) : world X := mkWorld (w_files w) x (w_faults w).
Definition home {X} (w' : world X) (w : world S) : world S := mkWorld (w_files w') (w_obj w) (w_faults w').

Definition on_src {A} (m : ST (world B * option T) A) : BM A :=
  zoom (λ b, (foreign (bo_src b) (l_world (bo_life b)), None))
    (λ x b, mkBoot (set_world (home x.1 (l_world (bo_life b))) (bo_life b)) (w_obj x.1) (bo_ver b)) m.
Definition on_ver {A} (m : ST (world V * option T) A) : BM A :=
  zoom (λ b, (foreign (bo_ver b) (l_world (bo_life b)), None))
    (λ x b, mkBoot (set_world (home x.1 (l_world (bo_life b))) (bo_life b)) (bo_src b) (w_obj x.1)) m.

(** ** Restoring the checkpoint *)

(** The retry loop on the node's own store; the term stays 1 when the manifest
    disappears. *)
Fixpoint restoreOwn (left : nat) (manifest : Manifest) : LM Z :=
  r ← try (on_cp (Restore (mf_CheckpointKey manifest) pebbleDir));
  match r with
  | Ok (t, _) => mret t
  | Err e =>
      if negb (bool_decide (e = ErrNotFound)) then throw e
      else match left with
           | O => throw e
           | Datatypes.S left' =>
               sleep others;;
               m ← on_os ReadManifest;
               match m with None => mret 1 | Some m => restoreOwn left' m end
           end
  end.

Definition restoreFromPoint (rp : RestorePoint) : BM Z :=
  if bool_decide (po_Key (rp_CheckpointArchive rp) = []) then mret 1
  else
    versions ← from_result (pinnedVersions (rp_CheckpointFiles rp) ∅);
    '(t, _) ← on_ver (RestoreVersioned getVersioned (po_Key (rp_CheckpointArchive rp))
                        (po_VersionID (rp_CheckpointArchive rp)) versions pebbleDir);
    mret t.

Definition restoreFromBranch (bp : BranchPoint) : BM (Z * gmap bytes bytes) :=
  '(t, _) ← on_src (RestoreBranch (bp_CheckpointKey bp) pebbleDir);
  if negb hasStore then mret (t, ∅)
  else
    idx ← try (on_src (on_store (ReadCheckpointIndex (bp_CheckpointKey bp))));
    mret (t, match idx with Ok idx => inheritedOf (ix_SSTFiles idx) | Err _ => ∅ end).

(** The first [switch]: the term and the inherited SSTs. *)
Definition restorePhase (hasDir : bool) : BM (Z * gmap bytes bytes) :=
  match restorePoint, branchPoint with
  | Some rp, _ => if hasDir then mret (1, ∅) else t ← restoreFromPoint rp; mret (t, ∅)
  | None, Some bp => if hasDir then mret (1, ∅) else restoreFromBranch bp
  | None, None =>
      if negb hasStore then mret (1, ∅)
      else
        manifest ← on_life (on_os ReadManifest);
        match manifest with
        | Some m => if hasDir then mret (1, ∅) else t ← on_life (restoreOwn 4 m); mret (t, ∅)
        | None => mret (1, ∅)
        end
  end.

(** ** Opening the store and the log *)

Definition reconcile : LM () :=
  l ← get_st;
  match lf_uploader l with
  | Some u => let '(_, (w, u)) := Reconcile (l_world l, u) in modify (λ l, set_uploader (Some u) (set_world w l))
  | None => mret tt
  end.

Definition openStore (inherited : gmap bytes bytes) : LM () :=
  db ← on_wd (storeOpen pebbleDir);
  upd_node (set_n_db db);;
  modify (set_uploader (if hasStore then
    Some (if bool_decide (inherited = ∅) then NewSSTUploader pebbleDir
          else SetInherited inherited (NewSSTUploader pebbleDir))
    else None));;
  reconcile.

(** The uploader of the node's log: not in a cluster. *)
Definition nodeUploader : option (bytes → bytes → ST (world S) ()) :=
  if hasStore && bool_decide (cf_PeerListenAddr cfg = []) then Some makeUploader else None.

Definition newWAL : WAL := New (cf_SegmentMaxSize cfg) (hasStore && default true (cf_WALSyncUpload cfg)).

Definition closeStore : LM () := db ← the_db; _ ← try (on_wd (pebble_Close (st_db db))); mret tt.
Definition closeLog : LM () := _ ← try (on_log (WalClose nodeUploader)); mret tt.

(** After the failure of [m] the log and the store are closed. *)
Definition or_close {A} (m : LM A) : LM A :=
  r ← try m;
  match r with Ok a => mret a | Err e => closeLog;; closeStore;; throw e end.

Definition maxSeqLocal : LM Z :=
  db ← the_db;
  m ← on_wd (maxSeqOf walDir);
  mret (if st_lastSeq db <? m then m else st_lastSeq db).

Definition openWAL (term : Z) : LM Z :=
  nextSeq ← maxSeqLocal;
  upd_node (λ n, set_n_wal (newWAL, (n_wal n).2) n);;
  r ← try (on_log (Wal.Open walDir term (i64 (nextSeq + 1))));
  match r with Ok _ => mret nextSeq | Err e => closeStore;; throw e end.

Definition replayLocal : LM () :=
  db ← the_db;
  or_close (zoom (λ l, (l_world l, n_db (lf_node l)))
              (λ x l, set_node (set_n_db x.2 (lf_node l)) (set_world x.1 l))
              (ReplayLocal Recover walDir (st_lastSeq db))).

(** ** Closing the gap of a concurrent garbage collection *)

Fixpoint reRestore (left : nat) (manifest : Manifest) : LM Z :=
  r ← try (on_cp (Restore (mf_CheckpointKey manifest) pebbleDir));
  match r with
  | Ok (t, _) => mret t
  | Err e =>
      if negb (bool_decide (e = ErrNotFound)) then closeLog;; throw e
      else match left with
           | O => closeLog;; throw e
           | Datatypes.S left' =>
               sleep others;;
               m ← try (on_os ReadManifest);
               match m with
               | Err e => closeLog;; throw e
               | Ok None => closeLog;; throw errManifestNil
               | Ok (Some m) => reRestore left' m
               end
           end
  end.

(** The store and the log are replaced by those of a fresher checkpoint. *)
Definition refresh (manifest : Manifest) : LM (Z * Z) :=
  closeStore;;
  r ← try (on_wd (os_removeall pebbleDir));
  match r with Err e => closeLog;; throw e | Ok _ => mret tt end;;
  newTerm ← reRestore 4 manifest;
  o ← try (on_wd (storeOpen pebbleDir));
  match o with
  | Err e => closeLog;; throw e
  | Ok freshDB =>
      upd_node (set_n_db freshDB);;
      reconcile;;
      closeLog;;
      reopenSeq ← maxSeqLocal;
      r ← try (on_log (Wal.Open walDir newTerm (i64 (reopenSeq + 1))));
      match r with Ok _ => mret (newTerm, reopenSeq) | Err e => closeStore;; throw e end
  end.

(** At most [fuel] rounds, ten in [Open]; the term and the sequence. *)
Fixpoint gapLoop (fuel : nat) (term nextSeq : Z) : LM (Z * Z) :=
  match fuel with
  | O => mret (term, nextSeq)
  | Datatypes.S fuel' =>
      before ← the_db;
      replayErr ← try (on_replay (replayRemote (st_lastSeq before)));
      fresh ← try (on_os ReadManifest);
      db ← the_db;
      let newer rev := match fresh with
                       | Ok (Some m) => if rev <? mf_Revision m then Some m else None
                       | _ => None
                       end in
      match replayErr with
      | Err e =>
          match newer (st_currentRev before) with
          | None => closeLog;; closeStore;; throw e
          | Some m => '(term, nextSeq) ← refresh m; gapLoop fuel' term nextSeq
          end
      | Ok _ =>
          match newer (st_currentRev db) with
          | None => mret (term, nextSeq)
          | Some m => '(term, nextSeq) ← refresh m; gapLoop fuel' term nextSeq
          end
      end
  end.

(** The second [switch]. *)
Definition replayPhase (term nextSeq : Z) : BM (Z * Z) :=
  db ← on_life the_db;
  match restorePoint, branchPoint with
  | Some rp, _ =>
      r ← try (zoom (λ b, (bo_ver b, n_db (lf_node (bo_life b))))
                 (λ x b, mkBoot (set_node (set_n_db x.2 (lf_node (bo_life b))) (bo_life b)) (bo_src b) x.1)
                 (replayPinned getVersioned (map (λ o, (po_Key o, po_VersionID o)) (rp_WALSegments rp)) (st_lastSeq db)));
      match r with Ok _ => mret (term, nextSeq) | Err e => on_life (closeLog;; closeStore);; throw e end
  | None, Some _ =>
      if negb hasStore then mret (term, nextSeq)
      else on_life (or_close (on_replay (replayRemote (st_lastSeq db))));; mret (term, nextSeq)
  | None, None =>
      if negb hasStore then mret (term, nextSeq) else on_life (gapLoop 10 term nextSeq)
  end.

(** ** The role *)

(** The node as [Open] builds it. *)
Definition newNode (term nextSeq : Z) : LM () :=
  upd_node (λ n,
    let db := n_db n in
    mkNode db (n_wal n) None term roleSingle false (st_currentRev db)
      (if nextSeq <? st_lastSeq db then st_lastSeq db else nextSeq) ∅ []);;
  modify (set_leaderCli None);;
  modify (set_entriesSince 0);;
  modify (go GoWAL).

(** A failed election closes the log and the store it started with. *)
Definition startRole (now : Z) : LM () :=
  if bool_decide (cf_PeerListenAddr cfg = []) || negb hasStore then upd_node (set_role roleSingle)
  else
    db ← the_db;
    r ← try (electAndStart cfg pebble_Open pebble_Close others lockRetries now);
    match r with
    | Ok _ => mret tt
    | Err e =>
        modify set_canceled;; closeLog;; _ ← try (on_wd (pebble_Close (st_db db))); throw e
    end.

Definition startJobs : LM () :=
  l ← get_st;
  if bool_decide (n_role (lf_node l) = roleFollower) then modify (go GoFollowLoop)
  else
    modify (go GoCommitLoop);;
    (if hasStore && (0 <? cf_CheckpointInterval cfg) then modify (go GoCheckpointLoop) else mret tt);;
    (if bool_decide (is_Some (lf_uploader l)) then modify (go GoUploader) else mret tt).

Definition Open (now : Z) (hasDir : bool) : BM () :=
  '(term, inherited) ← restorePhase hasDir;
  on_life (openStore inherited);;
  nextSeq ← on_life (openWAL term);
  on_life replayLocal;;
  '(term, nextSeq) ← replayPhase term nextSeq;
  on_life (newNode term nextSeq);;
  on_life (startRole now);;
  on_life startJobs.
End Startup.
