(* ===== verification/NodeReads.v ===== *)
(** * Reads of a node

    The read path of node.go.  Reads run on the store of the node, whatever its
    role; the linearizable ones first ask the leader for its newest assigned
    revision and wait until the local store has reached it.  A read that waits
    is evaluated once: [None] means that it goes on waiting. *)

From S2P Require Import Prelude Bytes WalEntry Os WalSegment Object Wal Pebble StoreKeys Store Peer Node Server Lifecycle.

(** ** Options *)

Record readOpts := mkReadOpts { rd_revision : Z; rd_fromKey : bytes; rd_limit : Z }.

Definition hasRevision (o : readOpts) : bool := 0 <? rd_revision o.
Definition storeOptions (o : readOpts) : ReadOptions := mkOpts (rd_revision o) (rd_fromKey o) (rd_limit o).

Definition ReadOption : Type := readOpts → readOpts.
Definition applyReadOpts (opts : list ReadOption) : readOpts := fold_left (λ o fn, fn o) opts (mkReadOpts 0 [] 0).

Definition WithRevision (rev : Z) : ReadOption := λ o, mkReadOpts rev (rd_fromKey o) (rd_limit o).
Definition WithFromKey (k : bytes) : ReadOption := λ o, mkReadOpts (rd_revision o) k (rd_limit o).
Definition WithLimit (n : Z) : ReadOption := λ o, mkReadOpts (rd_revision o) (rd_fromKey o) n.

(** ** Local reads *)

Section Reads.
Context {DB L R : Type} `{PI : Pebble DB}.
Local Notation Node := (Node DB L R).
Implicit Types n : Node.

Definition unless_closed {A} n (r : result A) : result A := if n_closed n then Err ErrClosed else r.

Definition nodeGet n (key : bytes) (opts : list ReadOption) : result (option KeyValue) :=
  unless_closed n (
    let o := applyReadOpts opts in
    if hasRevision o then GetAt (n_db n) key (rd_revision o) else Get (n_db n) key).

Definition nodeExists n (key : bytes) (opts : list ReadOption) : result bool :=
  unless_closed n (
    let o := applyReadOpts opts in
    if hasRevision o then ExistsAt (n_db n) key (rd_revision o) else Exists (n_db n) key).

Definition nodeList n (prefix : bytes) (opts : list ReadOption) : result (list KeyValue) :=
  unless_closed n (ListRange (n_db n) prefix (storeOptions (applyReadOpts opts))).

Definition nodeCount n (prefix : bytes) (opts : list ReadOption) : result Z :=
  unless_closed n (CountRange (n_db n) prefix (storeOptions (applyReadOpts opts))).

Definition CurrentRevision n : Z := st_currentRev (n_db n).
Definition CompactRevision n : Z := st_compactRev (n_db n).
Definition IsLeader n : bool := negb (bool_decide (n_role n = roleFollower)).

Definition nodeWaitForRevision n (ctxErr : option err) (rev : Z) : option (result ()) :=
  if n_closed n then Some (Err ErrClosed) else WaitForRevision (n_db n) ctxErr rev.

(** The revision from which the store's watch loop sends; registration as in
    the store. *)
Definition nodeWatch (prefix : bytes) (startRev : Z) : ST Node Z :=
  n ← get_st;
  if n_closed n then throw ErrClosed
  else if (0 <? startRev) && (startRev <=? st_compactRev (n_db n)) then throw ErrCompacted
  else
    let storeStartRev := if startRev =? 0 then st_currentRev (n_db n) else i64 (startRev - 1) in
    zoom n_db set_n_db (Watch prefix storeStartRev).
End Reads.

(** ** Linearizable reads *)

Section Linearizable.
Context {S T DB : Type} `{PI : Pebble DB}.
Local Notation Life := (Life S T DB).
Implicit Types l : Life.

(** The answer of the leader at an address to a forwarded request. *)
Context (forward : bytes → ForwardRequest → result ForwardResponse).

Definition getRevisionReq : ForwardRequest := mkFwd ForwardGetRevision [] [] 0 0 None.

(** [codes.Unavailable]: both errors of the peer package have this code. *)
Definition errUnavailable : err := ErrText "leader not ready".
Definition isLeaderUnavailable (e : err) : bool :=
  bool_decide (e = ErrLeaderUnreachable) || bool_decide (e = ErrLeaderShutdown) || bool_decide (e = errUnavailable).

Definition forwardWrite l (req : ForwardRequest) : result ForwardResponse :=
  match lf_leaderCli l with
  | None => Err ErrNoLeader
  | Some addr =>
      match forward addr req with
      | Err e => Err (if isLeaderUnavailable e then ErrNoLeader else e)
      | Ok resp => Ok resp
      end
  end.

Definition syncWithLeader l (ctxErr : option err) : option (result ()) :=
  match lf_leaderCli l with
  | None =>
      Some (if lf_canceled l then Err ErrClosed
            else if bool_decide (n_role (lf_node l) = roleFollower) then Err ErrNoLeader
            else Ok tt)
  | Some addr =>
      match forward addr getRevisionReq with
      | Err e => Some (Err (if isLeaderUnavailable e then ErrNoLeader else e))
      | Ok resp => nodeWaitForRevision (lf_node l) ctxErr (fp_Revision resp)
      end
  end.

Definition linearizable {A} l (ctxErr : option err) (read : result A) : option (result A) :=
  match syncWithLeader l ctxErr with
  | None => None
  | Some (Err e) => Some (Err e)
  | Some (Ok _) => Some read
  end.

Definition LinearizableGet l ctxErr (key : bytes) (opts : list ReadOption) : option (result (option KeyValue)) :=
  linearizable l ctxErr (nodeGet (lf_node l) key opts).
Definition LinearizableExists l ctxErr (key : bytes) (opts : list ReadOption) : option (result bool) :=
  linearizable l ctxErr (nodeExists (lf_node l) key opts).
Definition LinearizableList l ctxErr (prefix : bytes) (opts : list ReadOption) : option (result (list KeyValue)) :=
  linearizable l ctxErr (nodeList (lf_node l) prefix opts).
Definition LinearizableCount l ctxErr (prefix : bytes) (opts : list ReadOption) : option (result Z) :=
  linearizable l ctxErr (nodeCount (lf_node l) prefix opts).

(** ** Flush *)

Context (uploader : option (bytes → bytes → ST (world S) ())) (pebble_Flush : DB → ST (world S) ()).

Definition Flush : ST Life () :=
  l ← get_st;
  if n_closed (lf_node l) then throw ErrClosed
  else
    let db := n_db (lf_node l) in
    on_log (SealAndFlush uploader (i64 (st_lastSeq db + 1)));;
    on_wd (pebble_Flush (st_db db)).
End Linearizable.
