(* ===== verification/Cluster.v ===== *)
(** * A leader with its followers

    The node of [NodeSteps] together with the peer server and its streams of
    [Replication]: client operations, commits and the goroutines of the server
    in any order.  The entries the server has committed are those the leader
    applies, so what a follower applies is a prefix of the leader's history;
    with the revision the leader hands out, reads of a follower are
    linearizable. *)

From S2P Require Import Prelude Bytes WalEntry Os Object Wal Pebble StoreKeys Store StoreSpec StoreInv StoreApply StoreRead StoreRefine StoreProps Peer Node NodeSpec NodeInv NodeProps NodeSteps Server Follower Replication ReplicationProps NodeClaims Lifecycle NodeReads.

(** ** The server with its streams *)

(** An event of the server, with what the streams send. *)
Definition lev (s : lsys) (ev : peerEvent) : lsys :=
  match ev with
  | EvOpen req =>
      match followOpen req (ls_srv s) with
      | (Ok (se, snap), srv') => mkSys srv' (ls_committed s) (ls_batch s) (ls_hi s)
                                   (<[se_ch se := snapshotMsgs snap]> (ls_out s))
      | (Err _, _) => s
      end
  | EvStep se =>
      match followStep se (ls_srv s) with
      | Some (Ok (se', ms), srv') => mkSys srv' (ls_committed s) (ls_batch s) (ls_hi s) (send (se_ch se) ms s)
      | _ => s
      end
  | ev => mkSys (peerStep ev (ls_srv s)) (ls_committed s) (ls_batch s) (ls_hi s) (ls_out s)
  end.

Lemma lev_steps s ev : rtc lstep s (lev s ev).
Proof.
  destruct ev; cbn [lev]; try (by apply rtc_once, L_event).
  - destruct (followOpen req (ls_srv s)) as [[[se snap]|e] srv'] eqn:E; [|done]. by eapply rtc_once, L_open.
  - destruct (followStep se (ls_srv s)) as [[[[se' ms]|e] srv']|] eqn:E; [|done..]. by eapply rtc_once, L_stream.
Qed.

Lemma lev_srv s ev : ls_srv (lev s ev) = peerStep ev (ls_srv s).
Proof.
  destruct ev; try done; cbn [lev peerStep].
  - destruct (followOpen req (ls_srv s)) as [[[se snap]|e] srv'] eqn:E; [done|]. revert E. unfold followOpen.
    case_match; [by intros [= _ <-]|]. destruct (since _ _) as [snap ok]. case_match; by intros [= _ <-].
  - destruct (followStep se (ls_srv s)) as [[[[se' ms]|e] srv']|] eqn:E; [done| |done]. revert E. unfold followStep.
    destruct (sv_chans (ls_srv s) !! se_ch se) as [ch|]; [|done]. cbn.
    destruct (ch_msgs ch); repeat case_match; intros; simplify_eq; done.
Qed.

Lemma lev_frame s ev :
  ls_committed (lev s ev) = ls_committed s ∧ ls_batch (lev s ev) = ls_batch s ∧ ls_hi (lev s ev) = ls_hi s.
Proof. destruct ev; cbn [lev]; repeat case_match; done. Qed.

(** [waitLoop] with the streams. *)
Fixpoint lwaitLoop (required : gset bytes) (target : nat) (rev : Z) (ctxErr : err) (evs : list peerEvent) (s : lsys)
    : result () * lsys * list peerEvent :=
  let s1 := if sv_ackNotify (ls_srv s) then lev s EvWake else s in
  if sv_ackNotify (ls_srv s) && waitCheck required target rev (ls_srv s1) then (Ok tt, s1, evs)
  else
    match evs with
    | [] => (Err ctxErr, s1, [])
    | ev :: evs' => lwaitLoop required target rev ctxErr evs' (lev s1 ev)
    end.

Definition lwait (mode : WaitMode) (rev : Z) (ctxErr : err) (evs : list peerEvent) (s : lsys)
    : result () * lsys * list peerEvent :=
  let srv := ls_srv s in
  if bool_decide (sv_followers srv = ∅) then (Ok tt, s, evs)
  else
    let target := requiredFollowerACKs (size (sv_followers srv)) mode in
    let required := dom (sv_followers srv) in
    if bool_decide (target = 0%nat) then (Ok tt, s, evs)
    else if waitCheck required target rev srv then (Ok tt, s, evs)
    else lwaitLoop required target rev ctxErr evs s.

Definition over_srv (x : result () * lsys * list peerEvent) : result () * Server * list peerEvent :=
  let '(r, s, evs) := x in (r, ls_srv s, evs).

Lemma lwaitLoop_srv required target rev ctxErr evs : ∀ s,
  over_srv (lwaitLoop required target rev ctxErr evs s) = waitLoop required target rev ctxErr evs (ls_srv s).
Proof.
  induction evs as [|ev evs IH]; intros s; cbn [lwaitLoop waitLoop];
    destruct (sv_ackNotify (ls_srv s)); cbn [andb]; rewrite ?IH, ?lev_srv; try done;
    cbn [peerStep]; destruct (waitCheck _ _ _ _); rewrite ?IH, ?lev_srv; try done; cbn; by rewrite ?lev_srv.
Qed.

(** The wait is the one of the server. *)
Lemma lwait_srv mode rev ctxErr evs s :
  over_srv (lwait mode rev ctxErr evs s) = WaitForFollowers mode rev ctxErr evs (ls_srv s).
Proof. unfold lwait, WaitForFollowers. repeat case_match; try done. apply lwaitLoop_srv. Qed.

Definition same_log (s s' : lsys) : Prop :=
  rtc lstep s s' ∧ ls_committed s' = ls_committed s ∧ ls_batch s' = ls_batch s ∧ ls_hi s' = ls_hi s.

Lemma same_log_refl s : same_log s s.
Proof. done. Qed.
Lemma same_log_trans s1 s2 s3 : same_log s1 s2 → same_log s2 s3 → same_log s1 s3.
Proof. intros (H1 & H2 & H3 & H4) (K1 & K2 & K3 & K4). split; [by etrans|]. by rewrite K2, K3, K4. Qed.
Lemma same_log_lev s ev : same_log s (lev s ev).
Proof. split; [apply lev_steps|apply lev_frame]. Qed.

Lemma lwaitLoop_log required target rev ctxErr evs : ∀ s r s' evs',
  lwaitLoop required target rev ctxErr evs s = (r, s', evs') →
  same_log s s' ∧ (∀ e, r = Err e → e = ctxErr).
Proof.
  assert (∀ s : lsys, same_log s (if sv_ackNotify (ls_srv s) then lev s EvWake else s)) as Hw.
  { intros s. case_match; [apply same_log_lev|apply same_log_refl]. }
  induction evs as [|ev evs IH]; intros s r s' evs'; cbn [lwaitLoop]; destruct (_ && _);
    intros E; try (by injection E as <- <- <-; split; [apply Hw|congruence]).
  apply IH in E as [H1 H2]. split; [|done]. eapply same_log_trans; [apply Hw|].
  eapply same_log_trans; [apply same_log_lev|exact H1].
Qed.

Lemma lwait_log mode rev ctxErr evs s r s' evs' :
  lwait mode rev ctxErr evs s = (r, s', evs') → same_log s s' ∧ (∀ e, r = Err e → e = ctxErr).
Proof.
  unfold lwait. repeat case_match; try (by intros [= <- <- <-]; split; [apply same_log_refl|done]). apply lwaitLoop_log.
Qed.

(** The server as the commit loop uses it. *)
Record lenv := mkLenv { le_sys : lsys; le_mode : WaitMode; le_ctxErr : err; le_events : list peerEvent }.

Definition commitAll (startRev rev : Z) (s : lsys) : lsys :=
  mkSys (BroadcastCommit startRev rev (ls_srv s)) (ls_committed s ++ ls_batch s) [] (ls_hi s) (ls_out s).

#[global] Instance lenv_server : PeerServer lenv := {|
  ps_Broadcast e p := mkLenv (do_broadcast (le_sys p) e) (le_mode p) (le_ctxErr p) (le_events p);
  ps_BroadcastCommit startRev rev p :=
    mkLenv (commitAll startRev rev (le_sys p)) (le_mode p) (le_ctxErr p) (le_events p);
  ps_WaitForFollowers rev p :=
    let '(r, s, evs) := lwait (le_mode p) rev (le_ctxErr p) (le_events p) (le_sys p) in
    (r, mkLenv s (le_mode p) (le_ctxErr p) evs) |}.

(** ** The node and its server *)

Section Cluster.
Context {DB L : Type} `{PI : Pebble DB} `{POk : !PebbleOk DB} `{WI : WALWriter L}.
Local Notation Node := (Node DB L lenv).
Local Notation state := (state (DB := DB) (L := L) (R := lenv)).
Implicit Types n : Node.

(** An operation queues at most one entry, with the next sequence. *)
Lemma run_queue op n o n' :
  room n → run op n = (Ok o, n') →
  n_peerSrv n' = n_peerSrv n ∧ n_nextSeq n ≤ n_nextSeq n' ∧
  (n_writeC n' = n_writeC n ∨
   ∃ e, n_writeC n' = n_writeC n ++ [e] ∧ e_ID e = n_nextSeq n + 1 ∧ n_nextSeq n' = n_nextSeq n + 1).
Proof using.
  intros [Hr1 Hr2].
  assert (i64 (n_nextRev n + 1) = n_nextRev n + 1) as Er by (apply i64_id; unfold valid_rev, is_i64 in *; lia).
  assert (i64 (n_nextSeq n + 1) = n_nextSeq n + 1) as Es by (apply i64_id; unfold valid_rev, is_i64 in *; lia).
  assert (∀ rev rs (m : Node), ∃ p, addPendings rev rs m = (Ok tt, set_pending p m)) as Hadd.
  { intros rev rs. induction rs as [|x rs IH]; intros m; cbn.
    - exists (n_pending m). by destruct m.
    - unfold mbind, ST_bind, addPending, modify. destruct (IH (set_pending (<[ro_key x := pendingOf rev x]> (n_pending m)) m)) as [p ->].
      exists p. by destruct m. }
  destruct op; unfold run, Put, Create, Update, Delete, DeleteIfRevision, Txn, Compact, preparePut, prepareDelete,
    prepareTxn, nextIds, enqueueReq, addPending, modify, throw, from_result, mbind, ST_bind, get_st, try, mret, ST_ret;
    rewrite ?Er, ?Es;
    try (repeat case_match; intros; simplify_eq; cbn; (split_and!; [done|lia|first [by left|right; by eexists]])).
  destruct (n_closed n) eqn:Ec; [intros [= <- <-]; by (split_and!; [done|lia|by left])|].
  case_bool_decide; [intros [= <- <-]; by (split_and!; [done|lia|by left])|].
  destruct (evalConds n _) as [ok|]; [|intros [= <- <-]; by (split_and!; [done|lia|by left])].
  destruct (if ok then _ else _) as [|op0 ops]; [intros [= <- <-]; by (split_and!; [done|lia|by left])|].
  destruct (resolveOps n _) as [[|r rs]|]; [intros [= <- <-]; by (split_and!; [done|lia|by left])| |intros [= <- <-]; by (split_and!; [done|lia|by left])].
  destruct (_ <? _); [intros [= <- <-]; by (split_and!; [done|lia|by left])|]. destruct (negb _); [intros [= <- <-]; by (split_and!; [done|lia|by left])|].
  destruct (Hadd (i64 (n_nextRev n + 1)) (r :: rs)
    (set_counters (i64 (n_nextRev n + 1)) (i64 (n_nextSeq n + 1)) n)) as [p ->].
  intros [= <- <-]. cbn. rewrite Es. split_and!; [done|lia|]. right. by eexists.
Qed.

Lemma do_broadcasts es : ∀ s,
  let s' := fold_left do_broadcast es s in
  ls_committed s' = ls_committed s ∧ ls_batch s' = ls_batch s ++ es ∧
  (ls_hi s' = ls_hi s ∨ ∃ e, e ∈ es ∧ ls_hi s' = Sequence e).
Proof using.
  induction es as [|e es IH]; intros s; cbn; [by rewrite app_nil_r; auto|].
  destruct (IH (do_broadcast s e)) as (H1 & H2 & H3). rewrite H1, H2. cbn. rewrite <- app_assoc. split_and!; [done..|].
  right. destruct H3 as [->|(x & Hx & ->)]; [exists e|exists x]; split; try done; [by left|by right].
Qed.

Lemma fold_lenv es : ∀ p,
  fold_left (λ s e, ps_Broadcast e s) es p =
  mkLenv (fold_left do_broadcast es (le_sys p)) (le_mode p) (le_ctxErr p) (le_events p).
Proof using. induction es as [|e es IH]; intros p; cbn; [by destruct p|]. by rewrite IH. Qed.

(** What a batch does to the server: it is committed there when the log has
    it, and then only the wait can fail. *)
Lemma replicate_sys ctxErr B n p r n' :
  n_peerSrv n = Some p → ls_batch (le_sys p) = [] →
  StronglySorted seq_lt B → (∀ e, e ∈ B → ls_hi (le_sys p) < Sequence e) →
  replicateBatch ctxErr B n = (r, n') →
  ∃ p', n_peerSrv n' = Some p' ∧ rtc lstep (le_sys p) (le_sys p') ∧
    (ls_hi (le_sys p') = ls_hi (le_sys p) ∨ ∃ e, e ∈ B ∧ ls_hi (le_sys p') = Sequence e) ∧
    match r with
    | Ok _ => ls_committed (le_sys p') = ls_committed (le_sys p) ++ B ∧ ls_batch (le_sys p') = []
    | Err e => ls_committed (le_sys p') = ls_committed (le_sys p) ∨ e = le_ctxErr p
    end.
Proof using.
  intros Hp Hb Hs Hlt. unfold replicateBatch, mbind, ST_bind, get_st, try, zoom, from_result, modify.
  destruct (wal_AppendBatch ctxErr B (n_wal n)) as [r1 l]. cbn. rewrite Hp, fold_lenv.
  pose proof (do_broadcast_steps (le_sys p) B Hs Hlt) as Hst. destruct (do_broadcasts B (le_sys p)) as (H1 & H2 & H3).
  set (s1 := fold_left do_broadcast B (le_sys p)) in *. rewrite Hb in H2. cbn in H2. clearbody s1.
  destruct r1 as [[]|e]; [destruct B as [|e0 B']|]; cbn [le_sys].
  - intros [= <- <-]. eexists. split; [done|]. cbn. by rewrite app_nil_r, H1, H2.
  - set (s2 := commitAll _ _ s1). assert (rtc lstep (le_sys p) s2) as Hst2.
    { eapply rtc_r; [exact Hst|]. unfold s2, commitAll. rewrite H2. by apply L_commit. }
    cbn. destruct (lwait _ _ _ _ _) as [[w s3] evs] eqn:Ew. apply lwait_log in Ew as [(Hs3 & Hc & Hba & Hh) He].
    intros [= <- <-]. eexists. split; [done|]. cbn. split; [by etrans|]. rewrite Hh, Hc, Hba. cbn. split; [done|].
    rewrite H1, H2. destruct w; [done|]. right. by apply He.
  - intros E. assert ((r, n') = (Err e, set_peerSrv (Some (mkLenv s1 (le_mode p) (le_ctxErr p) (le_events p))) (set_n_wal l n))) as [= -> ->]
      by (rewrite <- E; by destruct B).
    eexists. split; [done|]. cbn. by split_and!; [| |left].
Qed.

(** Steps of a running leader: of the node alone, a batch committed, a batch
    whose callers gave up before it was in the log, and the goroutines of the
    server.  [gs_forget] drops the ghost record of a batch that failed. *)
Inductive gstep : state → state → Prop :=
  | gs_node st l st' :
      nstep st l st' → running st' → n_peerSrv st'.1.1 = n_peerSrv st.1.1 → st'.1.2 = st.1.2 → gstep st st'
  | gs_persist n H B ctxErr n' p :
      n_peerSrv n = Some p → ls_batch (le_sys p) = [] → persist ctxErr B n = (Ok tt, n') →
      gstep (n, H, Taken B) (n', H ++ batch_log B, Applied B)
  | gs_cancel n H B ctxErr e n' p :
      n_peerSrv n = Some p → ls_batch (le_sys p) = [] → isCancellation (le_ctxErr p) = false →
      replicateBatch ctxErr B n = (Err e, n') → isCancellation e = true → n_writeC n = [] → Forall keyed B →
      gstep (n, H, Taken B) ((clearPendingBatch B n').2, H, Idle)
  | gs_event n H ph p ev mode ctxErr evs :
      n_peerSrv n = Some p →
      gstep (n, H, ph) (set_peerSrv (Some (mkLenv (lev (le_sys p) ev) mode ctxErr evs)) n, H, ph)
  | gs_forget n H ph p s :
      n_peerSrv n = Some p → s = le_sys p →
      gstep (n, H, ph) (set_peerSrv (Some (mkLenv (mkSys (ls_srv s) (ls_committed s) [] (ls_hi s) (ls_out s))
                                             (le_mode p) (le_ctxErr p) (le_events p))) n, H, ph).

Context (cap : nat) (hi startRev : Z) (Hi : hist).

(** A node that has just become leader. *)
Definition g_init (st : state) : Prop :=
  initial st ∧ st.1.2 = Hi ∧ hi ≤ n_nextSeq st.1.1 ∧
  ∃ p, n_peerSrv st.1.1 = Some p ∧ le_sys p = lsys_init cap hi startRev.

Definition ginv (st : state) : Prop :=
  reachable st ∧ running st ∧ ∃ p, n_peerSrv st.1.1 = Some p ∧
    rtc lstep (lsys_init cap hi startRev) (le_sys p) ∧ ls_hi (le_sys p) ≤ n_nextSeq st.1.1 ∧
    (∀ e, e ∈ unapplied st.1.1 (taken st.2) → ls_hi (le_sys p) < Sequence e) ∧
    st.1.2 = Hi ++ batch_log (ls_committed (le_sys p)).

Lemma running_NI st : reachable st → running st → NI st.1.1 st.1.2 (taken st.2).
Proof using All.
  intros Hr Hrun. apply reachable_inv in Hr. destruct st as [[n H] ph]. apply (inv_open _ _ _ Hr).
  destruct ph; cbn in Hr; try done; apply Hr.
Qed.

Lemma ginv_init st : g_init st → ginv st.
Proof using All.
  destruct st as [[n H] ph]. intros (Hinit & Hh & Hhi & p & Hp & Hs). cbn in *. pose proof Hinit as (-> & _ & _ & _ & Hq & _).
  split; [by apply reach_init|]. split; [done|]. exists p. rewrite Hs. cbn. split_and!; try done.
  - unfold unapplied. rewrite Hq. by intros e ?%not_elem_of_nil.
  - by rewrite app_nil_r.
Qed.

(** A step of the node alone queues only entries above [nextSeq]. *)
Lemma node_step_queue st l st' :
  reachable st → running st → nstep st l st' → running st' →
  n_nextSeq st.1.1 ≤ n_nextSeq st'.1.1 ∧
  ∀ e, e ∈ unapplied st'.1.1 (taken st'.2) → e ∈ unapplied st.1.1 (taken st.2) ∨ n_nextSeq st.1.1 < Sequence e.
Proof using All.
  intros Hr Hrun Hs Hrun'. pose proof (running_NI _ Hr Hrun) as HN.
  destruct Hs as [n H ph op o n' Hro Hroom Hok Hop|n H k|n H B ctxErr n' Hp|n H A n' Hclr
    |n H B ctxErr e n' Hrep He Hq Hkey|n H B ctxErr e n' Hp He|n H|n H ph l p]; cbn in *; try done; unfold unapplied in *.
  - apply run_queue in Hop as (_ & Hle & Hq); [|done]. split; [done|]. intros e. destruct Hq as [->|(x & -> & Hid & _)]; [by left|].
    rewrite app_assoc. intros [He|He%list_elem_of_singleton]%elem_of_app; [by left|]. subst e. right.
    unfold Sequence. rewrite Hid. pose proof (ni_nonneg _ _ _ HN) as Hnn. cbn in Hnn. case_match; lia.
  - rewrite take_drop. split; [lia|by left].
  - apply persist_run in Hp as (n1 & [[]|e] & Hrep & Hap); [|by destruct Hap]. destruct Hap as (s' & _ & ->).
    apply replicate_frame in Hrep as (_ & _ & Hq & _ & Hs & _). cbn. rewrite Hq, Hs. split; [done|].
    intros e He. left. by apply elem_of_app; right.
  - injection Hclr as <-. cbn. split; [done|by left].
  - apply replicate_frame in Hrep as (_ & _ & Hq' & _ & Hs & _). cbn. rewrite Hq', Hs. split; [done|].
    intros x Hx. left. by apply elem_of_app; right.
  - split; [done|by left].
Qed.

Lemma batch_end_seq es : ∀ rev seq c e, batch_ok rev seq c es → e ∈ es → Sequence e ≤ end_seq seq es.
Proof using.
  induction es as [|x es IH]; intros rev seq c e Hb; [by intros ?%not_elem_of_nil|]. destruct Hb as (_ & _ & Hb).
  assert (∃ r' c', batch_ok r' (Sequence x) c' es) as (r' & c' & Hb') by (destruct (e_Op x =? OpCompact); naive_solver).
  intros [->|He]%elem_of_cons; cbn; [by apply (batch_log_le _ _ _ _ Hb')|by apply (IH r' _ c')].
Qed.

Lemma unapplied_sorted n H B :
  NI n H B → StronglySorted seq_lt (unapplied n B) ∧ ∀ e, e ∈ unapplied n B → Sequence e ≤ n_nextSeq n.
Proof using All.
  intros HN. pose proof (ni_ok _ _ _ HN) as Hok. split; [by apply (batch_ok_seq _ _ _ _ Hok)|].
  intros e He. pose proof (ni_seq _ _ _ HN) as Hsq. etrans; [by apply (batch_end_seq _ _ _ _ _ Hok)|done].
Qed.

Lemma sorted_split (l1 l2 : list Entry) x y :
  StronglySorted seq_lt (l1 ++ l2) → x ∈ l1 → y ∈ l2 → Sequence x < Sequence y.
Proof using.
  induction l1 as [|z l1 IH]; intros Hs Hx Hy; [by apply not_elem_of_nil in Hx|]. cbn in Hs. inversion_clear Hs as [|? ? Hs' Hf].
  apply elem_of_cons in Hx as [->|Hx]; [|by apply IH]. apply (proj1 (Forall_forall _ _) Hf). apply elem_of_app. by right.
Qed.

Lemma ginv_step st st' : ginv st → gstep st st' → ginv st'.
Proof using All.
  intros (Hr & Hrun & p & Hp & Hst & Hhi & Hun & Hh) Hs. pose proof (running_NI _ Hr Hrun) as HN.
  destruct Hs as [st l st' Hs Hrun' Hp' Hh'|n H B ctxErr n' p1 Hp1 Hb Hper|n H B ctxErr e n' p1 Hp1 Hb Hcx Hrep He Hq Hkey
    |n H ph p1 ev mode ctxErr evs Hp1|n H ph p1 s Hp1 Hs].
  - destruct (node_step_queue _ _ _ Hr Hrun Hs Hrun') as [Hle Hq]. split; [by eapply reach_step|]. split; [done|].
    exists p. split_and!; [congruence|done|lia| |congruence]. intros e [He|He]%Hq; [by apply Hun|lia].
  - cbn in *. rewrite Hp in Hp1. injection Hp1 as <-. split; [by eapply reach_step; [|by eapply ns_persist]|]. split; [done|].
    destruct (unapplied_sorted _ _ _ HN) as [Hsort Hseq]. unfold unapplied in *.
    apply persist_run in Hper as (n1 & [[]|e] & Hrep & Hap); [|by destruct Hap]. destruct Hap as (s' & _ & ->).
    pose proof (replicate_frame _ _ _ _ _ Hrep) as (_ & _ & Hq & _ & Hsq & _).
    apply (replicate_sys _ _ _ p) in Hrep as (p' & Hp' & Hst' & Hhi' & Hc & Hba); [|done..| |].
    2:{ by apply (StronglySorted_app_1_l _ B (n_writeC n)). }
    2:{ intros e He. apply Hun, elem_of_app. by left. }
    exists p'. cbn. rewrite Hq, Hsq. split_and!; [done|by etrans| | |by rewrite Hc, batch_log_app, Hh, app_assoc].
    + destruct Hhi' as [->|(e & He & ->)]; [done|]. apply Hseq, elem_of_app. by left.
    + intros x Hx. destruct Hhi' as [->|(e & He & ->)]; [apply Hun, elem_of_app; by right|].
      by apply (sorted_split B (n_writeC n)).
  - cbn in *. rewrite Hp in Hp1. injection Hp1 as <-. split; [by eapply reach_step; [|by eapply ns_cancel]|]. split; [done|].
    destruct (unapplied_sorted _ _ _ HN) as [Hsort Hseq]. unfold unapplied in *. rewrite Hq, app_nil_r in *.
    pose proof (replicate_frame _ _ _ _ _ Hrep) as (_ & _ & Hq' & _ & Hsq & _).
    apply (replicate_sys _ _ _ p) in Hrep as (p' & Hp' & Hst' & Hhi' & Hc); [|done..].
    exists p'. cbn. rewrite Hq', Hq, Hsq. split_and!; [done|by etrans| |by intros x ?%not_elem_of_nil|].
    + destruct Hhi' as [->|(x & Hx & ->)]; [done|]. by apply Hseq.
    + destruct Hc as [-> | ->]; [done|congruence].
  - cbn in *. rewrite Hp in Hp1. injection Hp1 as <-. split.
    { eapply reach_step; [exact Hr|]. pose proof (ns_background n H ph (n_wal n) (Some (mkLenv (lev (le_sys p) ev) mode ctxErr evs))) as Hb.
      by destruct n. }
    split; [done|]. destruct (lev_frame (le_sys p) ev) as (Hc & _ & Hh'). eexists. split; [done|]. cbn. rewrite Hc, Hh'.
    split_and!; [|done..]. etrans; [exact Hst|apply lev_steps].
  - cbn in *. rewrite Hp in Hp1. injection Hp1 as <-. split.
    { eapply reach_step; [exact Hr|].
      pose proof (ns_background n H ph (n_wal n) (Some (mkLenv (mkSys (ls_srv s) (ls_committed s) [] (ls_hi s) (ls_out s)) (le_mode p) (le_ctxErr p) (le_events p)))) as Hb.
      by destruct n. }
    split; [done|]. eexists. split; [done|]. cbn. subst s. split_and!; [|done..]. eapply rtc_r; [exact Hst|apply L_abandon].
Qed.

Lemma ginv_reach st0 st : g_init st0 → rtc gstep st0 st → ginv st.
Proof using All.
  intros H0%ginv_init Hr. induction Hr as [|a b c Hs _ IH]; [done|]. apply IH. by apply (ginv_step a).
Qed.

Lemma committed_mono s s' : rtc lstep s s' → ls_committed s `prefix_of` ls_committed s'.
Proof using.
  induction 1 as [|a b c Hs _ IH]; [done|]. etrans; [|exact IH]. destruct Hs; cbn; try done. by apply prefix_app_r.
Qed.

(** What a follower that has reached the revision of the leader's answer holds. *)
Lemma synced_prefix {L2 : Type} st0 n H ph p s1 (f : Follower DB L2) :
  g_init st0 → rtc gstep st0 (n, H, ph) → n_peerSrv n = Some p → rtc lstep (le_sys p) s1 →
  in_step Hi (ls_committed s1) f → n_nextRev n ≤ st_currentRev (fl_db f) →
  ∃ Hf, Rel (fl_db f) Hf ∧ H `prefix_of` Hf ∧ Hf `prefix_of` Hi ++ batch_log (ls_committed s1).
Proof using All.
  intros H0 Hr Hp Hs1 (k & Hrel & _ & Hok & _) Hrev.
  destruct (ginv_reach _ _ H0 Hr) as (Hre & Hrun & p1 & Hp1 & _ & _ & _ & Hh). cbn in *. rewrite Hp in Hp1. injection Hp1 as <-.
  pose proof (running_NI _ Hre Hrun) as HN. cbn in HN. pose proof (ni_rev _ _ _ HN) as [Hrv _].
  pose proof (batch_log_le _ _ _ _ (ni_ok _ _ _ HN)) as (Hcur & _ & _).
  exists (upto Hi (ls_committed s1) k). split; [done|]. destruct (committed_mono _ _ Hs1) as [C Hc].
  unfold upto. split.
  2:{ exists (batch_log (drop k (ls_committed s1))). by rewrite <- app_assoc, <- batch_log_app, take_drop. }
  rewrite Hh, Hc. destruct (decide (length (ls_committed (le_sys p)) ≤ k)%nat) as [Hk|Hk].
  { rewrite take_app_ge by done. rewrite batch_log_app, app_assoc. by apply prefix_app_r. }
  rewrite take_app_le by lia. rewrite <- (take_drop k (ls_committed (le_sys p))) at 1. rewrite batch_log_app, app_assoc.
  destruct (batch_log (drop k (ls_committed (le_sys p)))) as [|x l] eqn:E; [by rewrite app_nil_r|]. exfalso.
  assert (x ∈ batch_log (drop k (ls_committed (le_sys p)))) as Hx by (rewrite E; by left).
  assert (x ∈ H) as HxH.
  { rewrite Hh, <- (take_drop k (ls_committed (le_sys p))), batch_log_app. rewrite !elem_of_app. by right; right. }
  apply (re_cur _ _ (ni_rel _ _ _ HN)) in HxH.
  assert (st_currentRev (fl_db f) < x.1); [|lia]. apply (batch_log_above _ _ _ _ Hok).
  rewrite Hc, drop_app_le, batch_log_app by lia. apply elem_of_app. by left.
Qed.

End Cluster.

(** ** A run *)

(** A leader over an empty store serves one write, then a follower connects. *)
Definition lead0 : Node (gmap bytes bytes) (list Entry) lenv :=
  mkNode empty_store [] (Some (mkLenv (lsys_init 4 0 1) WaitQuorum ErrCanceled [])) 1 roleLeader false 0 0 ∅ [].
Definition lead1 := (run put_a lead0).2.
Definition lead2 := set_writeC [] lead1.
Definition lead3 := (persist None [entry_a] lead2).2.

Lemma lead0_init : g_init 4 0 1 [] (lead0, [], Idle).
Proof.
  split; [|by split_and!; [| |eexists]]. split_and!; try done. exact empty_rel. by intros x ?%not_elem_of_nil.
Qed.

Lemma lead_run : run put_a lead0 = (Ok (Wait entry_a (λ r, rev ← r; Ok (mkAns rev None true []))), lead1).
Proof. reflexivity. Qed.

Lemma lead_put : gstep (lead0, [], Idle) (lead1, [], Idle).
Proof.
  eapply gs_node; [|done..]. eapply (ns_op lead0 [] Idle put_a _ lead1); [done|split; unfold valid_rev; cbn; lia| |exact lead_run].
  split_and!; unfold is_u32, is_i64; vm_compute; done.
Qed.

Lemma lead_take : gstep (lead1, [], Idle) (lead2, [], Taken [entry_a]).
Proof.
  eapply gs_node; [|done..]. assert (n_writeC lead1 = [entry_a]) as Hq by reflexivity.
  pose proof (ns_take (WI := mem_wal) lead1 [] 1) as Ht. rewrite Hq in Ht. exact Ht.
Qed.

Lemma lead_persist : gstep (lead2, [], Taken [entry_a]) (lead3, [] ++ batch_log [entry_a], Applied [entry_a]).
Proof.
  eapply (gs_persist lead2 [] [entry_a] None lead3); [reflexivity|reflexivity|].
  unfold lead3. rewrite (surjective_pairing (persist None [entry_a] lead2)) at 1. by f_equal.
Qed.

Lemma lead_reach : rtc gstep (lead0, [], Idle) (lead3, [] ++ batch_log [entry_a], Applied [entry_a]).
Proof.
  eapply rtc_l; [exact lead_put|]. eapply rtc_l; [exact lead_take|]. apply rtc_once, lead_persist.
Qed.

(** The follower has applied the entry and asks for the next. *)
Definition reader_db : Store (gmap bytes bytes) := (Apply [entry_a] empty_store).2.
Definition reader_f : Follower (gmap bytes bytes) (list Entry) := mkFollower 2 [entry_a] reader_db 1 [1].
Definition reader : Life Mem Mem (gmap bytes bytes) :=
  mkLife (mkNode reader_db (New 100 false, mkWorld ∅ ∅ []) None 1 roleFollower false 0 0 ∅ [])
    (Some (str "leader")) false false None None 0 [].
Definition leader_answers (_ : bytes) (_ : ForwardRequest) : result ForwardResponse :=
  Ok (mkResp (n_nextRev lead3) None true [] "" []).

Lemma reader_in_step p : n_peerSrv lead3 = Some p → in_step [] (ls_committed (le_sys p)) reader_f.
Proof.
  intros Hp. assert (ls_committed (le_sys p) = [entry_a]) as ->.
  { assert (option_map (λ p, ls_committed (le_sys p)) (n_peerSrv lead3) = Some [entry_a]) as E by by vm_compute.
    rewrite Hp in E. by injection E. }
  assert (batch_ok 0 0 0 [entry_a]) as Hok by (apply (bool_decide_unpack _); by vm_compute).
  exists 1%nat. split.
  - assert (Apply [entry_a] empty_store = (Ok tt, reader_db)) as Ha.
    { unfold reader_db. rewrite (surjective_pairing (Apply [entry_a] empty_store)) at 1. by f_equal. }
    by apply (Apply_refines empty_store [] [entry_a] _ _ empty_rel Hok) in Ha.
  - split; [by vm_compute|]. split; [done|]. intros e He. apply list_elem_of_singleton in He as ->. by vm_compute.
Qed.

