(* ===== verification/Failover.v ===== *)
(** * Failover runs

    Concrete runs of whole nodes over one object store, with the definitions of
    [Startup], [Lifecycle], [Node], [Server] and [Follower]: what happens to an
    acknowledged write when the leader crashes, to a leader that cannot reach
    the object store, to reads behind a cancelled write, and to a node whose
    first boot failed. *)

From S2P Require Import Prelude Bytes Decimal WalEntry Os WalSegment Json Object Wal WalRecovery Pebble StoreKeys Store StoreProps Peer Node NodeSpec Server Follower WalReplay Election Sha256 Checkpoint CheckpointClaims SstUploader Lifecycle Startup NodeReads.

(** ** Nodes over the in-memory object store *)

Notation MapDB := (gmap bytes bytes).
Notation CLife := (Life Mem Mem MapDB).

(** Pebble of the runs: a database is created empty; flush and close succeed. *)
Definition run_open (_ : bytes) : ST (world Mem) MapDB := mret ∅.
Definition run_close (_ : MapDB) : ST (world Mem) () := mret tt.
Definition run_checkpoint (_ : MapDB) (_ : bytes) : ST (world Mem) () := mret tt.
Definition run_settle (x : world Mem * SSTUploader) : world Mem * SSTUploader := x.
Definition no_versions (_ _ : bytes) : ST Mem reader := throw ErrNotFound.

Definition conf (id : bytes) : Config :=
  setDefaults (Ok id) (mkConfig (str "data") 0 None 0 [] (id ++ str ":3380") [] 0 0 None 0).

(** A machine with an empty disk. *)
Definition blank (o : Mem) : Boot Mem Mem Mem Mem MapDB :=
  mkBoot (mkLife (mkNode empty_store (New 0 false, mkWorld ∅ o []) None 0 roleSingle false 0 0 ∅ []) None false false None None 0 [])
    ∅ ∅.

Definition open_node (id : bytes) (now : Z) (b : Boot Mem Mem Mem Mem MapDB) :=
  Startup.Open (conf id) true None None no_versions run_open run_close (λ o, o) 0 now false b.

Definition bucket (l : CLife) : Mem := w_obj (l_world l).
Definition with_bucket (o : Mem) (l : CLife) : CLife := set_world (set_obj o (l_world l)) l.

(** A put and its commit, with what the followers do meanwhile. *)
Definition on_node {A} (m : ST (Node MapDB (WAL * world Mem) peerEnv) A) (l : CLife) : result A * CLife :=
  let '(r, n) := m (lf_node l) in (r, set_node n l).

Definition put (key value : bytes) (evs : list peerEvent) (l : CLife) : result (list Entry * result () * list Entry) * CLife :=
  let '(_, l1) := on_node (Put key value 0) l in
  on_node (fun n =>
    commitStep (WI := wal_writer leaderUploader) 1 None
      (set_peerSrv (option_map (λ p, mkEnv (pe_srv p) (pe_mode p) (pe_ctxErr p) evs) (n_peerSrv n)) n)) l1.

(** A follower registers with a leader: its session and the catch-up entries. *)
Definition register (id : bytes) (from : Z) (l : CLife) : option (session * list Entry) * CLife :=
  match n_peerSrv (lf_node l) with
  | Some p =>
      match followOpen (mkFollow from id) (pe_srv p) with
      | (Ok x, srv) => (Some x, set_node (set_peerSrv (Some (mkEnv srv (pe_mode p) (pe_ctxErr p) (pe_events p))) (lf_node l)) l)
      | (Err _, _) => (None, l)
      end
  | None => (None, l)
  end.

(** What its stream then sends, [k] messages of its channel. *)
Fixpoint stream_of (k : nat) (se : session) (srv : Server) : list WalEntryMsg :=
  match k with
  | O => []
  | Datatypes.S k' =>
      match followStep se srv with Some (Ok (se', ms), srv') => ms ++ stream_of k' se' srv' | _ => [] end
  end.

Definition sent_to (k : nat) (se : session) (l : CLife) : list WalEntryMsg :=
  match n_peerSrv (lf_node l) with Some p => stream_of k se (pe_srv p) | None => [] end.

Definition receive (id : bytes) (from : Z) (msgs : list WalEntryMsg) (l : CLife) : result (Z * err) * CLife :=
  follow (conf id) from true [λ _, (msgs, ErrText "stream closed")] l.

(** ** The leader crashes *)

Definition key_x : bytes := str "x".
Definition idA : bytes := str "a".
Definition idB : bytes := str "b".
Definition idC : bytes := str "c".

(** Three nodes start, [a] leads; [b] and [c] register with it. *)
Definition a0 : CLife := bo_life (open_node idA (10 * second) (blank ∅)).2.
Definition b0 : CLife := bo_life (open_node idB (11 * second) (blank (bucket a0))).2.
Definition c0 : CLife := bo_life (open_node idC (12 * second) (blank (bucket b0))).2.
Definition reg_b := register idB 1 a0.
Definition sess_b : session := match reg_b.1 with Some (se, _) => se | None => mkSess [] 0 0 end.
Definition a1 : CLife := (register idC 1 reg_b.2).2.

(** [a] commits a write that [b] acknowledges, two nodes of three; [c] has not
    received it when [a] crashes. *)
Definition write1 := put key_x (str "v") [EvAck sess_b 1] a1.
Definition b1 := receive idB 1 (sent_to 2 sess_b write1.2) b0.

(** [c] takes over. *)
Definition promotion_c :=
  attemptPromotion (conf idC) run_open run_close run_close run_checkpoint (λ o, o) 0 run_settle (str "tmp")
    (30 * second) false (with_bucket (bucket write1.2) c0).
Definition c1 : CLife := promotion_c.2.

(** [c] commits a write of its own, then [b] connects to it and follows. *)
Definition write2 := put key_x (str "w") [] c1.
Definition reg_b2 := register idB 2 write2.2.
Definition sess_b2 : session := match reg_b2.1 with Some (se, _) => se | None => mkSess [] 0 0 end.
Definition write3 := put (str "y") (str "z") [EvAck sess_b2 2] reg_b2.2.
Definition b2 := receive idB 2 (sent_to 2 sess_b2 write3.2) b1.2.

Definition value_of (l : CLife) : result (option bytes) :=
  match nodeGet (lf_node l) key_x [] with Ok kv => Ok (option_map kv_Value kv) | Err e => Err e end.


(** ** The leader cannot reach the object store *)

Definition unreachable : err := ErrText "object store unreachable".
Definition down_store : ObjectStore Mem :=
  {| obj_Put _ _ := throw unreachable; obj_Get _ := throw unreachable; obj_Delete _ := throw unreachable;
     obj_DeleteMany _ := throw unreachable; obj_List _ := throw unreachable |}.
Definition down_cond : ConditionalStore Mem (H := down_store) :=
  {| obj_GetETag _ := throw unreachable; obj_PutIfAbsent _ _ := throw unreachable; obj_PutIfMatch _ _ _ := throw unreachable |}.

(** [a] is cut off from its followers and from the store; [c] has taken over.
    The watch loop of [a] wakes up, then a client writes to it. *)
Definition drop_followers (l : CLife) : CLife :=
  set_node (set_peerSrv (option_map (λ p, mkEnv (set_chans ∅ ∅ (pe_srv p)) (pe_mode p) (pe_ctxErr p) (pe_events p))
                                    (n_peerSrv (lf_node l))) (lf_node l)) l.
Definition watch_a :=
  watchStep (OI := down_store) (CI := down_cond) (conf idA) 2 true (WPoll (40 * second)) (drop_followers write1.2).
Definition write_a := put key_x (str "old") [] watch_a.2.
Definition no_forward (_ : bytes) (_ : ForwardRequest) : result ForwardResponse := Err ErrLeaderUnreachable.
Definition linear_value (l : CLife) : option (result (option bytes)) :=
  option_map (λ r, match r with Ok kv => Ok (option_map kv_Value kv) | Err e => Err e end)
    (LinearizableGet no_forward l None key_x []).

(** The superseded leader goes on: its write is acknowledged and its
    linearizable reads answer, while the new leader answers differently. *)
Theorem partitioned_leader_serves :
  watch_a.1 = Ok (Some true) ∧ n_term (lf_node c1) = 3 ∧ n_term (lf_node write_a.2) = 2 ∧
  (match write_a.1 with Ok (_, r, _) => r | Err e => Err e end) = Ok tt ∧
  linear_value write_a.2 = Some (Ok (Some (str "old"))) ∧ linear_value write2.2 = Some (Ok (Some (str "w"))).
Proof. by vm_compute. Qed.

(** ** Reads behind a cancelled write *)

(** The caller of a write on [a] gives up before the log has it. *)
Definition cancelled : CLife :=
  (on_node (commitStep (WI := wal_writer leaderUploader) 1 (Some ErrCanceled)) (on_node (Put key_x (str "v") 0) a1).2).2.
Definition answer_of (l : CLife) (_ : bytes) (req : ForwardRequest) : result ForwardResponse :=
  match (HandleForward req (lf_node l)).1 with Ok (Done r) => r | _ => Err ErrLeaderUnreachable end.

(** Nothing is in flight, but the leader answers with the revision the write
    had been given, and a read of a follower that has everything waits for it
    until its deadline. *)
Theorem cancelled_write_blocks_reads :
  n_writeC (lf_node cancelled) = [] ∧ n_closed (lf_node cancelled) = false ∧
  CurrentRevision (lf_node cancelled) = 0 ∧ CurrentRevision (lf_node b0) = 0 ∧
  LinearizableGet (answer_of cancelled) b0 None key_x [] = None ∧
  LinearizableGet (answer_of cancelled) b0 (Some ErrDeadlineExceeded) key_x [] = Some (Err ErrDeadlineExceeded).
Proof. by vm_compute. Qed.

(** ** A branch whose first boot failed *)

Definition branch_key : bytes := CheckpointIndexKey 1 1.
Definition branch_index : bytes := print (index_json (mkIndex CheckpointFormatVersion 1 1 1 [str "sst/1.sst"] [] [str "CURRENT"])).
Definition source (files : list (bytes * bytes)) : Mem :=
  mem_of ([(branch_key, branch_index); (str "sst/1.sst", str "s")] ++ files).
Definition current_file : bytes * bytes := (trim_suffix (str "manifest.json") branch_key ++ str "CURRENT", str "c").

(** Pebble: the database of the checkpoint when its CURRENT file is there, and
    a new one otherwise. *)
Definition branch_db : MapDB := st_db (Apply [mkEntry 1 1 1 OpCreate key_x (str "v") 0 1 0 1] empty_store).2.
Definition branch_open (dir : bytes) : ST (world Mem) MapDB :=
  w ← get_st; mret (if bool_decide (is_Some (w_files w !! path_join dir (str "CURRENT"))) then branch_db else ∅).

Definition single : Config := setDefaults (Ok idA) (mkConfig (str "data") 0 None 0 [] [] [] 0 0 None 0).
Definition open_branch (src : Mem) (hasDir : bool) (b : Boot Mem Mem Mem Mem MapDB) :=
  Startup.Open single false None (Some (mkBranchPoint branch_key)) no_versions branch_open run_close (λ o, o) 0 0 hasDir
    (mkBoot (bo_life b) src (bo_ver b)).
Definition first_boot := open_branch (source []) false (blank ∅).

(** The first boot fails while it downloads the checkpoint; the second, with
    the source complete, finds the directory, skips the restore and starts an
    empty branch, without an error.  A first boot from the complete source has
    the data. *)
Theorem failed_branch_boot_loses_data :
  first_boot.1 = Err ErrNotFound ∧
  (open_branch (source [current_file]) true first_boot.2).1 = Ok tt ∧
  value_of (bo_life (open_branch (source [current_file]) true first_boot.2).2) = Ok None ∧
  value_of (bo_life (open_branch (source [current_file]) false (blank ∅)).2) = Ok (Some (str "v")).
Proof. by vm_compute. Qed.

(** ** A promotion that fails *)

(** An uploaded segment that cannot be read makes the replay of the new leader
    fail after it has won the lock. *)
Definition junk_segment : bytes * bytes := (ObjectKey 2 1, str "junk").
Definition bad_bucket : Mem := <[junk_segment.1 := mkMemObj junk_segment.2 []]> (bucket write1.2).
Definition failed_promotion :=
  attemptPromotion (conf idC) run_open run_close run_close run_checkpoint (λ o, o) 0 run_settle (str "tmp")
    (30 * second) false (with_bucket bad_bucket c0).
Definition holder (l : CLife) : result (option bytes) :=
  match (Read (node_lock (conf idC)) (bucket l)).1 with Ok r => Ok (option_map lk_NodeID r) | Err e => Err e end.
Definition retried_promotion :=
  attemptPromotion (conf idC) run_open run_close run_close run_checkpoint (λ o, o) 0 run_settle (str "tmp")
    (31 * second) false failed_promotion.2.
Definition first_entry : Entry := mkEntry 1 1 2 OpCreate key_x (str "v") 0 1 0 1.
Definition after_failure := receive idC 1 [EntryToMsg first_entry; commitMsg 1 1] failed_promotion.2.

(** The node holds the lock and does not lead: its log is closed, so it cannot
    append what it follows, and the next attempt makes it follow itself. *)
Theorem failed_promotion_stuck :
  failed_promotion.1 = Ok (None, false) ∧ holder failed_promotion.2 = Ok (Some idC) ∧
  n_role (lf_node failed_promotion.2) = roleFollower ∧ wal_closed (n_wal (lf_node failed_promotion.2)).1 = true ∧
  value_of after_failure.2 = Ok None ∧
  retried_promotion.1 = Ok (Some (idC ++ str ":3380"), false).
Proof. by vm_compute. Qed.

(** ** A resync that is half done *)

(** The checkpoint of the leader: two writes of the key. *)
Definition second_entry : Entry := mkEntry 2 2 2 OpUpdate key_x (str "v2") 0 1 1 2.
Definition resync_db : MapDB := st_db (Apply [first_entry; second_entry] empty_store).2.
Definition resync_open (dir : bytes) : ST (world Mem) MapDB :=
  w ← get_st; mret (if bool_decide (is_Some (w_files w !! path_join dir (str "CURRENT"))) then resync_db else ∅).
Definition resync_key : bytes := CheckpointIndexKey 2 2.
Definition resync_bucket : Mem :=
  mem_of [(resync_key, print (index_json (mkIndex CheckpointFormatVersion 2 2 2 [] [] [str "CURRENT"])));
          (trim_suffix (str "manifest.json") resync_key ++ str "CURRENT", str "c");
          (ManifestKey, print (manifest_json (mkManifest CheckpointFormatVersion resync_key 2 2 2 [])));
          junk_segment].

Definition resync_round (fromRev : Z) (msgs : list WalEntryMsg) (l : CLife) :=
  followRound (conf idB) resync_open run_close run_close run_checkpoint (λ o, o) 0 run_settle (str "tmp")
    (20 * second) fromRev true [λ _, (msgs, ErrText "stream closed")] l.

(** [b] gets a commit whose entries it was not sent and resyncs; the replay
    after the restore fails.  The leader still has all entries and [b] follows
    it again. *)
Definition round1 := resync_round 1 [commitMsg 1 2] (with_bucket resync_bucket b0).
Definition round2 := resync_round 1 [EntryToMsg first_entry; commitMsg 1 1] round1.2.

(** The loop goes on from the old position over the restored database: old
    entries are applied again, and a read at revision 2 returns the value of
    revision 1. *)
Theorem half_resync_regresses :
  round1.1 = Ok (FollowAgain 1) ∧
  value_of round1.2 = Ok (Some (str "v2")) ∧ CurrentRevision (lf_node round1.2) = 2 ∧
  value_of round2.2 = Ok (Some (str "v")) ∧ CurrentRevision (lf_node round2.2) = 2.
Proof. by vm_compute. Qed.
