(* ===== verification/NodeApi.v ===== *)
(** * The node as its clients use it

    The operations that the etcd surface and the auth store call on a node, as
    a class with laws.  Other clients use the node at the same time: between
    two calls the history can grow, so every law says what a call returns on
    the history it finds, and that nothing is ever taken away.  A leader or a
    single node shared by several clients is an instance: before each call the
    operations of a schedule are served, and an operation is served by queueing
    it and running the commit loop. *)

From S2P Require Import Prelude Bytes WalEntry Os Wal Pebble StoreKeys Store StoreSpec StoreInv StoreApply StoreRead StoreRefine StoreProps Peer Node NodeSpec NodeInv NodeProps NodeSteps Server NodeReads NodeClaims.

(** ** The interface *)

(** The flag of a read says whether it is linearizable. *)
Class T4Node (N : Type) : Type := {
  t4_op : cop → ST N answer;
  t4_Get : bool → bytes → list ReadOption → ST N (option KeyValue);
  t4_Exists : bool → bytes → list ReadOption → ST N bool;
  t4_List : bool → bytes → list ReadOption → ST N (list KeyValue);
  t4_Count : bool → bytes → list ReadOption → ST N Z;
  t4_CurrentRevision : ST N Z;
  t4_CompactRevision : ST N Z;
  t4_IsLeader : ST N bool }.

Section Methods.
Context {N : Type} `{NI : T4Node N}.

Definition t4_Put (key value : bytes) (lease : Z) : ST N Z := a ← t4_op (CPut key value lease); mret (an_Revision a).
Definition t4_Create (key value : bytes) (lease : Z) : ST N Z := a ← t4_op (CCreate key value lease); mret (an_Revision a).
Definition t4_Delete (key : bytes) : ST N Z := a ← t4_op (CDelete key); mret (an_Revision a).
Definition t4_Txn (req : TxnRequest) : ST N TxnResponse :=
  a ← t4_op (CTxn req); mret (mkTxnResp (an_Succeeded a) (an_Revision a) (an_DeletedKeys a)).
Definition t4_Compact (revision : Z) : ST N () := _ ← t4_op (CCompact revision); mret tt.
End Methods.

(** A read at a revision of a history, 0 for the current one. *)
Definition at_revision {A} (cur compact rev : Z) (f : Z → A) : result A :=
  if rev <=? 0 then Ok (f cur)
  else if rev <? compact then Err ErrCompacted
  else if cur <? rev then Err ErrFutureRevision
  else Ok (f rev).

(** The read gives that answer, or the database failed. *)
Definition answers {A} (unwell : Prop) (r spec : result A) : Prop := r = spec ∨ unwell ∧ ∃ e, r = Err e.

(** Operations within the widths of the format; compaction targets do not go
    down. *)
Definition op_fits (compact : Z) (op : cop) : Prop :=
  match op with
  | CPut key value lease | CCreate key value lease | CUpdate key value _ lease => fits key value lease
  | CDelete key | CDeleteIfRevision key _ => key ≠ [] ∧ is_u32 (zlen key)
  | CTxn req => Forall (λ o, fits (to_Key o) (to_Value o) (to_Lease o)) (tr_Success req ++ tr_Failure req)
  | CCompact c => compact ≤ c ∧ valid_rev (c + 1)
  end.

Definition keys_fit (H : hist) : Prop := Forall (λ x, is_u32 (zlen (rc_key x.2))) H.

(** What the laws speak of.  [t4_hist n H]: the committed history of the node
    is [H].  [t4_spare n k]: its counters have room for [k] more operations of
    this client.  [t4_up n]: no commit has failed.  [t4_ours n key]: the other
    clients do not write [key]. *)
Class T4View (N : Type) : Type := {
  t4_hist : N → hist → Prop;
  t4_cur : N → Z;
  t4_compact : N → Z;
  t4_spare : N → nat → Prop;
  t4_healthy : N → Prop;
  t4_up : N → Prop;
  t4_ours : N → bytes → Prop }.

(** A failed commit is not forgotten. *)
Class Sticky {N A : Type} `{NV : T4View N} (call : ST N A) : Prop :=
  sticky : ∀ n r n', call n = (r, n') → t4_up n' → t4_up n.

Section Laws.
Context {N : Type} `{NV : T4View N}.

(** The history grew by [K]. *)
Definition t4_grows (n : N) (H K : hist) (n' : N) : Prop :=
  t4_hist n' (H ++ K) ∧ t4_cur n ≤ t4_cur n' ∧ t4_compact n ≤ t4_compact n' ∧
  ∀ x, x ∈ K → t4_cur n < x.1.

(** The others wrote [K]. *)
Definition t4_foreign (n : N) (K : hist) (n' : N) : Prop :=
  (∀ x, x ∈ K → ¬ t4_ours n (rc_key x.2)) ∧ ∀ key, t4_ours n key → t4_ours n' key.

Definition t4_reads {A} (call : ST N A) (spec : hist → N → result A) : Prop :=
  ∀ n H r n', t4_hist n H → call n = (r, n') → t4_up n' →
  ∃ K, t4_grows n H K n' ∧ t4_foreign n K n' ∧ (∀ k, t4_spare n k → t4_spare n' k) ∧
    answers (¬ t4_healthy n') r (spec (H ++ K) n').

(** The operation is decided on [H ++ K]; [K] is what the others did before. *)
Definition t4_writes (call : cop → ST N answer) : Prop :=
  ∀ n H k op r n', t4_hist n H → op_fits (t4_compact n) op → t4_spare n (S k) → call op n = (r, n') → t4_up n' →
  ∃ K recs cur rev, t4_grows n H (K ++ recs) n' ∧ t4_foreign n K n' ∧ t4_spare n' k ∧ t4_cur n ≤ cur < rev ∧
    (∀ x, x ∈ H ++ K → x.1 ≤ cur) ∧ cur ≤ t4_cur n' ∧ (recs ≠ [] → t4_cur n' = rev) ∧
    (spec_op (H ++ K) cur rev op = (recs, r) ∨ recs = [] ∧ ¬ t4_healthy n' ∧ ∃ e, r = Err e).
End Laws.

Class T4NodeOk (N : Type) `{NI : T4Node N} `{NV : T4View N} : Prop := {
  t4_hist_le (n : N) H : t4_hist n H → 0 ≤ t4_cur n ∧ valid_rev (t4_cur n + 1) ∧ ∀ x, x ∈ H → 0 < x.1 ≤ t4_cur n;
  t4_hist_ok (n : N) H : t4_hist n H → VInv H;
  t4_hist_sorted (n : N) H : t4_hist n H → StronglySorted rev_le H;
  t4_hist_keys (n : N) H : t4_hist n H → keys_fit H;
  t4_spare_le (n : N) H k j : t4_hist n H → (j ≤ k)%nat → t4_spare n k → t4_spare n j;
  #[global] t4_op_sticky op :: Sticky (N := N) (t4_op op);
  #[global] t4_Get_sticky lin key opts :: Sticky (N := N) (t4_Get lin key opts);
  #[global] t4_Exists_sticky lin key opts :: Sticky (N := N) (t4_Exists lin key opts);
  #[global] t4_List_sticky lin prefix opts :: Sticky (N := N) (t4_List lin prefix opts);
  #[global] t4_Count_sticky lin prefix opts :: Sticky (N := N) (t4_Count lin prefix opts);
  #[global] t4_CurrentRevision_sticky :: Sticky (N := N) t4_CurrentRevision;
  #[global] t4_CompactRevision_sticky :: Sticky (N := N) t4_CompactRevision;
  #[global] t4_IsLeader_sticky :: Sticky (N := N) t4_IsLeader;
  t4_op_law : t4_writes (N := N) t4_op;
  t4_Get_law lin key opts : 0 ≤ rd_revision (applyReadOpts opts) →
    t4_reads (N := N) (t4_Get lin key opts) (λ H n,
      at_revision (t4_cur n) (t4_compact n) (rd_revision (applyReadOpts opts)) (value_at H key));
  t4_Exists_law lin key opts : 0 ≤ rd_revision (applyReadOpts opts) →
    t4_reads (N := N) (t4_Exists lin key opts) (λ H n,
      at_revision (t4_cur n) (t4_compact n) (rd_revision (applyReadOpts opts))
        (λ rev, bool_decide (is_Some (value_at H key rev))));
  t4_List_law lin prefix opts : 0 ≤ rd_revision (applyReadOpts opts) →
    t4_reads (N := N) (t4_List lin prefix opts) (λ H n,
      at_revision (t4_cur n) (t4_compact n) (rd_revision (applyReadOpts opts))
        (λ rev, take_limit (rd_limit (applyReadOpts opts)) (list_at H prefix (rd_fromKey (applyReadOpts opts)) rev)));
  t4_Count_law lin prefix opts : 0 ≤ rd_revision (applyReadOpts opts) →
    t4_reads (N := N) (t4_Count lin prefix opts) (λ H n,
      at_revision (t4_cur n) (t4_compact n) (rd_revision (applyReadOpts opts))
        (λ rev, zlen (list_at H prefix (rd_fromKey (applyReadOpts opts)) rev)));
  t4_CurrentRevision_law : t4_reads (N := N) t4_CurrentRevision (λ _ n, Ok (t4_cur n));
  t4_CompactRevision_law : t4_reads (N := N) t4_CompactRevision (λ _ n, Ok (t4_compact n));
  t4_IsLeader_law : t4_reads (N := N) t4_IsLeader (λ _ _, Ok true) }.

(** ** Reasoning about clients *)

(** A later state of the node, with the history it has then. *)
Record later {N : Type} `{NV : T4View N} (n : N) (H : hist) (n' : N) (H' : hist) : Prop := {
  la_hist : t4_hist n' H';
  la_cur : t4_cur n ≤ t4_cur n';
  la_compact : t4_compact n ≤ t4_compact n';
  la_ext : ∃ K, H' = H ++ K ∧ ∀ x, x ∈ K → t4_cur n < x.1 }.

(** Prove [Sticky] of a handler by its structure. *)
Ltac solve_sticky := repeat first [progress intros|progress apply _|case_match].

(** The laws of the monad at a state. *)
Lemma st_bind_ret {S A B} (a : A) (f : A → ST S B) s : ((mret a : ST S A) ≫= f) s = f a s.
Proof. done. Qed.
Lemma st_bind_throw {S A B} e (f : A → ST S B) s : ((throw e : ST S A) ≫= f) s = (Err e, s).
Proof. done. Qed.
Lemma st_bind_assoc {S A B C} (m : ST S A) (g : A → ST S B) (f : B → ST S C) s :
  ((m ≫= g) ≫= f) s = (m ≫= λ a, g a ≫= f) s.
Proof. unfold mbind, ST_bind. by destruct (m s) as [[a|e] s']. Qed.

(** A program that writes nothing. *)
Class Reader {N A : Type} `{NV : T4View N} (m : ST N A) : Prop :=
  reader : Sticky m ∧ ∀ n H r n', t4_hist n H → m n = (r, n') → t4_up n' →
    ∃ H', later n H n' H' ∧ ∀ k, t4_spare n k → t4_spare n' k.

Section Client.
Context {N : Type} `{NV : T4View N}.

#[global] Instance sticky_ret {A} (a : A) : Sticky (N := N) (mret a).
Proof using. by intros n r n' [= <- <-]. Qed.
#[global] Instance sticky_throw {A} e : Sticky (N := N) (throw (A := A) e).
Proof using. by intros n r n' [= <- <-]. Qed.
#[global] Instance sticky_bind {A B} (m : ST N A) (f : A → ST N B) :
  Sticky m → (∀ a, Sticky (f a)) → Sticky (m ≫= f).
Proof using.
  intros Hm Hf n r n'. unfold mbind, ST_bind. destruct (m n) as [[a|e] n1] eqn:Em.
  - intros Hr Hup. by eapply Hm, Hf.
  - intros [= <- <-] Hup. by eapply Hm.
Qed.

#[global] Instance sticky_if {A} (b : bool) (m1 m2 : ST N A) : Sticky m1 → Sticky m2 → Sticky (if b then m1 else m2).
Proof using. by destruct b. Qed.

Lemma later_refl (n : N) H : t4_hist n H → later n H n H.
Proof using. intros Hh. split; [done|lia|lia|]. exists []. rewrite app_nil_r. split; [done|]. by intros x ?%not_elem_of_nil. Qed.

Lemma later_trans (n1 n2 n3 : N) H1 H2 H3 : later n1 H1 n2 H2 → later n2 H2 n3 H3 → later n1 H1 n3 H3.
Proof using.
  intros [Ha1 Ha2 Ha3 (K1 & -> & HK1)] [Hb1 Hb2 Hb3 (K2 & -> & HK2)]. split; [done|lia|lia|].
  exists (K1 ++ K2). rewrite app_assoc. split; [done|].
  intros x [Hx|Hx]%elem_of_app; [by apply HK1|apply HK2 in Hx; lia].
Qed.

(** The past does not change. *)
Lemma later_value (n n' : N) H H' key rev :
  later n H n' H' → rev ≤ t4_cur n → value_at H' key rev = value_at H key rev.
Proof using.
  intros [_ _ _ (K & -> & HK)] Hr. unfold value_at, last_at. rewrite filter_app.
  rewrite (filter_nil_in _ K), app_nil_r; [done|]. intros x Hx Hle. apply HK in Hx. destruct Hle. lia.
Qed.

Lemma later_list (n n' : N) H H' prefix fromKey rev :
  later n H n' H' → rev ≤ t4_cur n → list_at H' prefix fromKey rev = list_at H prefix fromKey rev.
Proof using.
  intros Hl Hr. apply (kv_listing_unique H' prefix fromKey rev); [apply list_at_listing|].
  destruct (list_at_listing H prefix fromKey rev) as [Hs Hi]. split; [done|].
  intros kv. by rewrite Hi, (later_value n n' H H').
Qed.

(** A call and what follows it. *)
Lemma reads_inv {A B} (m : ST N A) spec (f : A → ST N B) n H r n' :
  t4_reads m spec → t4_hist n H → (m ≫= f) n = (r, n') → t4_up n' → (∀ a, Sticky (f a)) →
  ∃ n1 H1, later n H n1 H1 ∧ (∀ k, t4_spare n k → t4_spare n1 k) ∧
    ((∃ a, spec H1 n1 = Ok a ∧ f a n1 = (r, n')) ∨
     (∃ e, r = Err e ∧ n' = n1 ∧ (spec H1 n1 = Err e ∨ ¬ t4_healthy n1))).
Proof using.
  intros Hm Hh Hr Hup Hf. unfold mbind, ST_bind in Hr. destruct (m n) as [ra n1] eqn:Em.
  assert (t4_up n1) as Hup1 by (destruct ra as [a|e]; [by eapply Hf|by injection Hr as _ <-]).
  destruct (Hm n H ra n1 Hh Em Hup1) as (K & (Hh1 & Hc & Hk & HK) & _ & Hsp & Ha).
  exists n1, (H ++ K). split; [split; [done..|by exists K]|]. split; [done|].
  destruct ra as [a|e]; [left|right].
  - exists a. destruct Ha as [Ha|(_ & e & ?)]; [by rewrite Ha|done].
  - injection Hr as <- <-. exists e. destruct Ha as [Ha|[Hw _]]; auto.
Qed.

Lemma reads_fmap {A B} (g : A → B) (m : ST N A) spec :
  t4_reads m spec → t4_reads (a ← m; mret (g a)) (λ H n, g <$> spec H n).
Proof using.
  intros Hm n H r n' Hh Hr Hup. unfold mbind, ST_bind in Hr. destruct (m n) as [ra n1] eqn:E.
  assert (n' = n1 ∧ r = g <$> ra) as [-> ->] by (by destruct ra; injection Hr as <- <-).
  destruct (Hm n H ra n1 Hh E Hup) as (K & Hg & Hf & Hs & Ha). exists K. split; [done|]. split; [done|]. split; [done|].
  destruct Ha as [->|(Hw & e & ->)]; [by left|right]. split; [done|by eexists].
Qed.

Definition reader_sticky {A} (m : ST N A) (Hm : Reader m) : Sticky m := proj1 Hm.

#[global] Instance reader_ret {A} (a : A) : Reader (N := N) (mret a).
Proof using. split; [apply _|]. intros n H r n' Hh [= <- <-] _. exists H. split; [by apply later_refl|done]. Qed.
#[global] Instance reader_throw {A} e : Reader (N := N) (throw (A := A) e).
Proof using. split; [apply _|]. intros n H r n' Hh [= <- <-] _. exists H. split; [by apply later_refl|done]. Qed.
#[global] Instance reader_result {A} (x : result A) : Reader (N := N) (from_result x).
Proof using. split; [by intros n r n' [= <- <-]|]. intros n H r n' Hh [= <- <-] _. exists H. split; [by apply later_refl|done]. Qed.
#[global] Instance reader_if {A} (b : bool) (m1 m2 : ST N A) : Reader m1 → Reader m2 → Reader (if b then m1 else m2).
Proof using. by destruct b. Qed.
#[global] Instance reader_bind {A B} (m : ST N A) (f : A → ST N B) : Reader m → (∀ a, Reader (f a)) → Reader (m ≫= f).
Proof using.
  intros [Hs Hm] Hf. assert (∀ a, Sticky (f a)) as Hfs by (intros a; apply reader_sticky, Hf). split; [apply _|].
  intros n H r n' Hh Hr Hup. unfold mbind, ST_bind in Hr. destruct (m n) as [[a|e] n1] eqn:Em.
  - destruct (Hm n H _ n1 Hh Em) as (H1 & Hl1 & Hk1); [by eapply Hfs|].
    destruct (proj2 (Hf a) n1 H1 r n' (la_hist _ _ _ _ Hl1) Hr Hup) as (H2 & Hl2 & Hk2).
    exists H2. split; [by eapply later_trans|by auto].
  - injection Hr as <- <-. by apply (Hm n H _ n1 Hh Em).
Qed.
Lemma reads_reader {A} (m : ST N A) spec : Sticky m → t4_reads m spec → Reader m.
Proof using.
  intros Hs Hm. split; [done|]. intros n H r n' Hh Hr Hup.
  destruct (Hm n H r n' Hh Hr Hup) as (K & (Hh1 & Hc & Hk & HK) & _ & Hsp & _).
  exists (H ++ K). split; [|done]. split; [done..|by exists K].
Qed.

(** A step of a program that succeeds. *)
Lemma bind_ok_inv {A B} (m : ST N A) (f : A → ST N B) n b n' :
  (m ≫= f) n = (Ok b, n') → ∃ a n1, m n = (Ok a, n1) ∧ f a n1 = (Ok b, n').
Proof using. unfold mbind, ST_bind. destruct (m n) as [[a|e] n1]; [|done]. intros Hf. by exists a, n1. Qed.

#[global] Instance sticky_result {A} (x : result A) : Sticky (N := N) (from_result x).
Proof using. by intros n r n' [= <- <-]. Qed.
#[global] Instance sticky_try {A} (m : ST N A) : Sticky m → Sticky (try m).
Proof using. intros Hm n r n'. unfold try. destruct (m n) as [r0 n1] eqn:E. intros [= <- <-]. by eapply Hm. Qed.
#[global] Instance reader_try {A} (m : ST N A) : Reader m → Reader (try m).
Proof using.
  intros [Hs Hm]. split; [apply _|]. intros n H r n' Hh Hr Hup. unfold try in Hr. destruct (m n) as [r0 n1] eqn:E.
  injection Hr as <- <-. by eapply Hm.
Qed.

#[global] Instance sticky_map_err {A} g (m : ST N A) : Sticky m → Sticky (st_map_err g m).
Proof using. intros Hm n r n'. unfold st_map_err. destruct (m n) as [r0 n1] eqn:E. intros [= <- <-]. by eapply Hm. Qed.

#[global] Instance reader_map_err {A} g (m : ST N A) : Reader m → Reader (st_map_err g m).
Proof using.
  intros [Hs Hm]. split; [apply _|]. intros n H r n' Hh Hr Hup. unfold st_map_err in Hr. destruct (m n) as [r0 n1] eqn:E.
  injection Hr as <- <-. by eapply Hm.
Qed.

Lemma reads_map_err {A} g (m : ST N A) spec :
  t4_reads m spec → t4_reads (st_map_err g m) (λ H n, map_err g (spec H n)).
Proof using.
  intros Hm n H r n' Hh Hr Hup. unfold st_map_err in Hr. destruct (m n) as [r0 n1] eqn:E. injection Hr as <- <-.
  destruct (Hm n H r0 n1 Hh E Hup) as (K & Hg & Hf & Hs & Ha). exists K. split; [done|]. split; [done|]. split; [done|].
  destruct Ha as [->|(Hw & e & ->)]; [by left|right]. split; [done|by eexists].
Qed.
End Client.

Section Readers.
Context {N : Type} `{NI : T4Node N} `{NV : T4View N} `{NOk : !T4NodeOk N}.

#[global] Instance CurrentRevision_reader : Reader (N := N) t4_CurrentRevision.
Proof using NOk. eapply reads_reader; [apply _|apply t4_CurrentRevision_law]. Qed.
#[global] Instance CompactRevision_reader : Reader (N := N) t4_CompactRevision.
Proof using NOk. eapply reads_reader; [apply _|apply t4_CompactRevision_law]. Qed.
#[global] Instance IsLeader_reader : Reader (N := N) t4_IsLeader.
Proof using NOk. eapply reads_reader; [apply _|apply t4_IsLeader_law]. Qed.
#[global] Instance Get_reader lin key : Reader (N := N) (t4_Get lin key []).
Proof using NOk. eapply reads_reader; [apply _|by apply t4_Get_law]. Qed.
#[global] Instance List_reader lin prefix : Reader (N := N) (t4_List lin prefix []).
Proof using NOk. eapply reads_reader; [apply _|by apply t4_List_law]. Qed.
#[global] Instance Put_sticky key value lease : Sticky (N := N) (t4_Put key value lease).
Proof using NOk. unfold t4_Put. apply _. Qed.
#[global] Instance Create_sticky key value lease : Sticky (N := N) (t4_Create key value lease).
Proof using NOk. unfold t4_Create. apply _. Qed.
#[global] Instance Delete_sticky key : Sticky (N := N) (t4_Delete key).
Proof using NOk. unfold t4_Delete. apply _. Qed.
#[global] Instance Txn_sticky req : Sticky (N := N) (t4_Txn req).
Proof using NOk. unfold t4_Txn. apply _. Qed.
#[global] Instance Compact_sticky rev : Sticky (N := N) (t4_Compact rev).
Proof using NOk. unfold t4_Compact. apply _. Qed.
End Readers.

(** ** A node that serves several clients *)

Section Shared.
Context {DB L R : Type} `{PI : Pebble DB} `{POk : !PebbleOk DB} `{WI : WALWriter L} `{RI : PeerServer R}.
Local Notation Node := (Node DB L R).
Implicit Types n : Node.

(** One operation and the iteration of the commit loop that answers it; the
    flag says that the commit failed. *)
Definition serve (op : cop) (n : Node) : result answer * Node * bool :=
  match run op n with
  | (Err e, n1) => (Err e, n1, false)
  | (Ok (Done r), n1) => (r, n1, false)
  | (Ok (Forwarded _ k), n1) => (k (Err ErrNoLeader), n1, false)
  | (Ok (Wait e k), n1) =>
      match commitStep 1 None n1 with
      | (Ok (_, Ok _, _), n2) => (k (Ok (e_Revision e)), n2, false)
      | (Ok (_, Err e', _), n2) | (Err e', n2) => (k (Err e'), n2, true)
      end
  end.

(** The node, what other clients do before each of the next calls, and
    whether a commit has failed. *)
Record Shared := mkShared { sh_node : Node; sh_others : list (list cop); sh_failed : bool }.

Definition serve_all (ops : list cop) (n : Node) (failed : bool) : Node * bool :=
  fold_left (λ '(n, failed) op, let '(_, n', bad) := serve op n in (n', failed || bad)) ops (n, failed).

(** A call after the others had their turn. *)
Definition shared {A} (f : Node → result A * Node * bool) : ST Shared A := λ s,
  let '(n1, failed) := serve_all (hd [] (sh_others s)) (sh_node s) (sh_failed s) in
  let '(r, n2, bad) := f n1 in
  (r, mkShared n2 (tl (sh_others s)) (failed || bad)).

Definition look {A} (f : Node → result A) : ST Shared A := shared (λ n, (f n, n, false)).

#[global] Instance shared_node : T4Node Shared := {|
  t4_op op := shared (serve op);
  t4_Get _ key opts := look (λ n, nodeGet n key opts);
  t4_Exists _ key opts := look (λ n, nodeExists n key opts);
  t4_List _ prefix opts := look (λ n, nodeList n prefix opts);
  t4_Count _ prefix opts := look (λ n, nodeCount n prefix opts);
  t4_CurrentRevision := look (λ n, Ok (CurrentRevision n));
  t4_CompactRevision := look (λ n, Ok (CompactRevision n));
  t4_IsLeader := look (λ n, Ok (IsLeader n)) |}.

(** The keys an operation writes. *)
Definition op_keys (op : cop) : list bytes :=
  match op with
  | CPut key _ _ | CCreate key _ _ | CUpdate key _ _ _ | CDelete key | CDeleteIfRevision key _ => [key]
  | CTxn req => map to_Key (tr_Success req ++ tr_Failure req)
  | CCompact _ => []
  end.

(** Nothing is in flight between two operations. *)
Definition quiet n (H : hist) : Prop := reachable (n, H, Idle) ∧ n_writeC n = [] ∧ n_role n ≠ roleFollower.

Definition not_compact (op : cop) : Prop := match op with CCompact _ => False | _ => True end.

(** The others write within the widths of the format and do not compact. *)
Definition others_fit (s : Shared) : Prop := Forall (λ op, not_compact op ∧ op_fits 0 op) (concat (sh_others s)).

Definition spare n (k : nat) : Prop := valid_rev (n_nextSeq n + 1 + Z.of_nat k).

#[global] Instance shared_view : T4View Shared := {|
  t4_hist s H := (quiet (sh_node s) H ∧ keys_fit H) ∧ others_fit s ∧ spare (sh_node s) (length (concat (sh_others s)));
  t4_cur s := st_currentRev (n_db (sh_node s));
  t4_compact s := st_compactRev (n_db (sh_node s));
  t4_spare s k := spare (sh_node s) (k + length (concat (sh_others s)));
  t4_healthy s := healthy (st_db (n_db (sh_node s)));
  t4_up s := sh_failed s = false;
  t4_ours s key := Forall (λ op, key ∉ op_keys op) (concat (sh_others s)) |}.

Lemma quiet_NI n H : quiet n H → n_closed n = false ∧ NI n H [].
Proof using All. intros (Hr & _). by apply reachable_inv in Hr. Qed.

Lemma put_record_key V rev key value lease : rc_key (put_record V rev key value lease) = key.
Proof using. unfold put_record. by destruct (vlive V key). Qed.

Lemma spec_op_keys V cur rev op recs ans c :
  spec_op V cur rev op = (recs, ans) → op_fits c op → keys_fit recs.
Proof using.
  intros Hs Hf. assert (∀ rs, Forall (λ r, is_u32 (zlen (rc_key r))) rs → keys_fit (at_rev rev rs)) as Hat.
  { intros rs Hrs. unfold keys_fit, at_rev. change (map ?f ?l) with (f <$> l). by apply Forall_fmap. }
  assert (∀ ops, Forall (λ o, fits (to_Key o) (to_Value o) (to_Lease o)) ops → keys_fit (at_rev rev (omap (op_record V rev) ops))) as Hops.
  { intros ops Ho. apply Hat, Forall_forall. intros r (o & Hin & Hr)%list_elem_of_omap.
    apply (proj1 (Forall_forall _ _) Ho) in Hin as [Hk _]. unfold op_record in Hr.
    destruct (to_Type o =? TxnPut); [injection Hr as <-; by rewrite put_record_key|]. destruct (to_Type o =? TxnDelete); [|done].
    destruct (vlive V (to_Key o)); [injection Hr as <-; exact Hk|done]. }
  destruct op; cbn [spec_op op_fits] in *; repeat case_match; injection Hs as <- <-;
    try (by constructor); try (by constructor; [cbn; rewrite ?put_record_key; apply Hf|constructor]); apply Forall_app in Hf as [Hf1 Hf2]; by apply Hops.
Qed.

Lemma spec_op_written V cur rev op recs ans :
  spec_op V cur rev op = (recs, ans) → ∀ x, x ∈ recs → rc_key x.2 ∈ op_keys op.
Proof using.
  assert (∀ ops x, x ∈ at_rev rev (omap (op_record V rev) ops) → rc_key x.2 ∈ map to_Key ops) as Hops.
  { intros ops x Hx. unfold at_rev in Hx. apply (list_elem_of_fmap_1 (λ r, (rev, r))) in Hx as (r & -> & Hr).
    apply list_elem_of_omap in Hr as (o & Ho & Hr). change (map to_Key ops) with (to_Key <$> ops). apply list_elem_of_fmap. exists o. split; [|done].
    unfold op_record in Hr. destruct (to_Type o =? TxnPut); [injection Hr as <-; apply put_record_key|].
    destruct (to_Type o =? TxnDelete); [|done]. destruct (vlive V (to_Key o)); [by injection Hr as <-|done]. }
  destruct op; cbn [spec_op op_keys]; repeat case_match; intros [= <- <-] x Hx;
    try (by apply not_elem_of_nil in Hx);
    try (apply list_elem_of_singleton in Hx as ->; cbn; rewrite ?put_record_key; by apply list_elem_of_singleton).
  all: apply Hops in Hx; rewrite map_app; apply elem_of_app; auto.
Qed.

Lemma spec_op_rev V cur rev op recs ans :
  spec_op V cur rev op = (recs, ans) → ∀ x, x ∈ recs → x.1 = rev.
Proof using.
  assert (∀ rs x, x ∈ at_rev rev rs → x.1 = rev) as Hat.
  { intros rs x Hx. unfold at_rev in Hx. by apply (list_elem_of_fmap_1 (λ r, (rev, r))) in Hx as (r & -> & _). }
  destruct op; cbn [spec_op]; repeat case_match; intros [= <- <-] x Hx;
    try (by apply not_elem_of_nil in Hx); try (by apply list_elem_of_singleton in Hx as ->); by eapply Hat.
Qed.

Lemma entry_log_rev e x : x ∈ batch_log [e] → x.1 = e_Revision e ∧ (e_Op e =? OpCompact) = false.
Proof using.
  cbn. rewrite app_nil_r. unfold entry_log. destruct (e_Op e =? OpCompact); [by intros ?%not_elem_of_nil|].
  repeat case_match; try (by intros ?%not_elem_of_nil).
  - intros Hx. by apply (list_elem_of_fmap_1 (λ o, (e_Revision e, subop_record o))) in Hx as (o & -> & _).
  - by intros ->%list_elem_of_singleton.
Qed.

(** An operation that fails after it is queued answers an error, and none
    changes the role or the counter by more than one; only a compaction
    queues a compaction. *)
Local Ltac framed := intros [= <- <-]; split; [split; [done|by auto]|intros ? ? ? Hw; cbn in Hw; simplify_eq; (split; [by eexists|done])].

Lemma run_frame op n o n' :
  run op n = (Ok o, n') →
  (n_role n' = n_role n ∧ (n_nextSeq n' = n_nextSeq n ∨ n_nextSeq n' = i64 (n_nextSeq n + 1))) ∧ ∀ e k er, o = Wait e k → (∃ e', k (Err er) = Err e') ∧ (not_compact op → (e_Op e =? OpCompact) = false).
Proof using.
  assert (∀ rev rs (m : Node), ∃ p, addPendings rev rs m = (Ok tt, set_pending p m)) as Hadd.
  { intros rev rs. induction rs as [|x rs IH]; intros m; cbn.
    - exists (n_pending m). by destruct m.
    - unfold mbind, ST_bind, addPending, modify.
      destruct (IH (set_pending (<[ro_key x := pendingOf rev x]> (n_pending m)) m)) as [p ->].
      exists p. by destruct m. }
  destruct op; unfold run, Put, Create, Update, Delete, DeleteIfRevision, Txn, Compact, preparePut, prepareDelete,
    prepareTxn, nextIds, enqueueReq, addPending, modify, throw, from_result, mbind, ST_bind, get_st, try, mret, ST_ret.
  6: { destruct (n_closed n); [framed|]. case_bool_decide; [framed|].
    destruct (evalConds n _) as [ok|]; [|framed].
    destruct (if ok then _ else _) as [|op0 ops]; [framed|].
    destruct (resolveOps n _) as [[|r rs]|]; [framed| |framed].
    destruct (_ <? _); [framed|]. destruct (negb _); [framed|].
    destruct (Hadd (i64 (n_nextRev n + 1)) (r :: rs)
      (set_counters (i64 (n_nextRev n + 1)) (i64 (n_nextSeq n + 1)) n)) as [p ->]. framed. }
  all: repeat case_match; intros; simplify_eq; (split; [split; [done|by auto]|intros ? ? ? Hw; cbn in Hw; simplify_eq; (split; [by eexists|done])]).
Qed.

(** One entry queued and committed. *)
Lemma commit_one n H e B res dr n' :
  n_writeC n = [e] → reachable (n, H, Idle) → commitStep 1 None n = (Ok (B, res, dr), n') →
  match res with
  | Ok _ => reachable (n', H ++ batch_log [e], Idle) ∧ n_writeC n' = [] ∧ n_role n' = n_role n ∧
            n_nextSeq n' = n_nextSeq n ∧
            st_currentRev (n_db n') = end_rev (st_currentRev (n_db n)) [e] ∧
            st_currentRev (n_db n) ≤ st_currentRev (n_db n') ∧ st_compactRev (n_db n) ≤ st_compactRev (n_db n') ∧
            ((e_Op e =? OpCompact) = false → st_compactRev (n_db n') = st_compactRev (n_db n))
  | Err _ => True
  end.
Proof using All.
  intros Hq Hr Hc. apply commitStep_unfold in Hc as (res1 & n3 & Hp & Hres). rewrite Hq in Hp, Hres. cbn [take drop] in *.
  destruct res1 as [[]|e1]; [|by destruct (isCancellation e1); destruct Hres as [[= -> -> ->] _]].
  destruct Hres as [[= -> -> ->] ->].
  assert (reachable (set_writeC [] n, H, Taken [e])) as Hr1.
  { eapply reach_step; [exact Hr|]. pose proof (ns_take n H 1) as Ht. by rewrite Hq in Ht. }
  split; [eapply reach_step; [eapply reach_step; [exact Hr1|by eapply ns_persist]|by apply ns_clear]|].
  pose proof (reachable_inv _ Hr1) as [_ HN]. apply persist_run in Hp as (n4 & [[]|e4] & Hrep & Hap); [|by destruct Hap].
  destruct Hap as (s' & Hap & ->). apply replicate_frame in Hrep as (Hd & _ & Hq4 & _ & Hs4 & _ & Hro & _). cbn in *.
  split; [done|]. split; [done|]. split; [done|]. rewrite Hd in Hap. pose proof (ni_ok _ _ _ HN) as Hok.
  pose proof (re_bound _ _ (ni_rel _ _ _ HN)) as [Hb0 Hb1]. cbn in *.
  unfold unapplied in Hok. cbn [app set_writeC n_writeC n_db] in Hok.
  destruct (Apply_counters (n_db n) [e] s' Hok ltac:(lia) ltac:(lia) Hap) as (-> & _ & ->). split; [done|].
  destruct Hok as (_ & _ & Hok). cbn. destruct (e_Op e =? OpCompact); destruct Hok; split_and!; try done; lia.
Qed.

Lemma spare_room n k : 0 ≤ n_nextRev n ≤ n_nextSeq n → spare n (Datatypes.S k) → room n.
Proof using. unfold spare, room, valid_rev. lia. Qed.

Lemma op_fits_ok n op : n_writeC n = [] → op_fits (st_compactRev (n_db n)) op → op_ok n [] op.
Proof using. intros Hq. destruct op; cbn; try done. unfold unapplied. by rewrite Hq. Qed.

(** One operation on a quiet node. *)
Lemma serve_law n H k op r n' :
  quiet n H → op_fits (st_compactRev (n_db n)) op → spare n (Datatypes.S k) → serve op n = (r, n', false) →
  ∃ recs rev, quiet n' (H ++ recs) ∧ keys_fit recs ∧ spare n' k ∧ st_currentRev (n_db n) < rev ∧
    st_currentRev (n_db n) ≤ st_currentRev (n_db n') ∧ st_compactRev (n_db n) ≤ st_compactRev (n_db n') ∧
    (not_compact op → st_compactRev (n_db n') = st_compactRev (n_db n)) ∧
    (recs ≠ [] → st_currentRev (n_db n') = rev) ∧
    (spec_op H (st_currentRev (n_db n)) rev op = (recs, r) ∨
     recs = [] ∧ ¬ healthy (st_db (n_db n')) ∧ ∃ e, r = Err e).
Proof using All.
  intros Hs Hfit Hsp Hop. pose proof (quiet_NI n H Hs) as [Hcl HN]. destruct Hs as (Hr & Hq & Hro).
  pose proof (ni_rev _ _ _ HN) as [Hrv Hrs]. unfold unapplied in Hrv. rewrite Hq in Hrv. cbn in Hrv.
  pose proof (re_bound _ _ (ni_rel _ _ _ HN)) as [_ Hb].
  assert (room n) as Hroom by (apply (spare_room n k); [lia|done]). pose proof (op_fits_ok n op Hq Hfit) as Hok.
  destruct (run_refines n H [] HN Hcl Hro op Hroom Hok) as (o & n1 & Hrun & Href).
  pose proof (run_db op n o n1 Hrun) as [Hdb _]. pose proof (run_frame op n o n1 Hrun) as [[Hro1 Hsq] Hk0].
  assert (accepted n H [] = H) as HV by (unfold accepted, unapplied; rewrite Hq; cbn; by rewrite app_nil_r).
  assert (reachable (n1, H, Idle)) as Hr1 by (eapply reach_step; [exact Hr|by eapply ns_op]).
  assert (spare n1 k) as Hsp1.
  { destruct Hroom as [_ Hrm]. unfold spare, valid_rev in *. rewrite i64_id in Hsq by (unfold is_i64; lia). lia. }
  unfold serve in Hop. rewrite Hrun in Hop.
  destruct Href as [Href|(Hh & -> & e & ->)].
  2:{ injection Hop as <- <-. exists [], (st_currentRev (n_db n) + 1). rewrite app_nil_r.
      split_and!; [done|constructor|done|lia|lia|lia|done|done|]. right. split_and!; [done..|by eexists]. }
  unfold refines_op in Href. rewrite HV in Href.
  destruct (spec_op H (st_currentRev (n_db n)) (n_nextRev n + 1) op) as [recs a] eqn:Es.
  destruct Href as (HN1 & HV1 & Ho). exists recs, (n_nextRev n + 1).
  destruct o as [r0|e k0|req k0]; [| |done].
  - destruct Ho as (-> & Hq1 & ->). injection Hop as <- <-. rewrite app_nil_r, Hdb.
    split_and!; [|constructor|done|lia|lia|lia|done|done|by left]. split_and!; [done|congruence|congruence].
  - destruct Ho as (Hq1 & Hlog & Hk). rewrite Hq in Hq1. cbn in Hq1.
    destruct (commitStep 1 None n1) as [[[[B [[]|er]] dr]|ec] n2] eqn:Ec; [|done..].
    destruct (commit_one n1 H e B _ dr n2 Hq1 Hr1 Ec) as (Hr2 & Hq2 & Hro2 & Hs2 & Hcur & Hle & Hle' & Hcc).
    injection Hop as <- <-. rewrite Hk. rewrite Hdb in Hcur, Hle, Hle', Hcc. subst recs.
    split_and!; [|by eapply spec_op_keys|unfold spare in *; congruence|lia|done|done| | |by left]; [split_and!; [done|done|congruence]| |].
    { intros Hnc. apply Hcc. by apply (Hk0 e k0 ErrClosed). }
    intros Hne. rewrite Hcur. cbn [end_rev].
    destruct (batch_log [e]) as [|x recs'] eqn:El; [done|]. rewrite <- El in Es.
    pose proof (spec_op_rev _ _ _ _ _ _ Es x ltac:(rewrite El; left)) as Hx.
    destruct (entry_log_rev e x ltac:(rewrite El; left)) as [Hx' ->]. congruence.
Qed.

(** A failed commit is not forgotten. *)
Lemma serve_all_failed ops : ∀ n failed n', serve_all ops n failed = (n', false) → failed = false.
Proof using.
  induction ops as [|op ops IH]; intros n failed n' Hs; [by injection Hs|].
  unfold serve_all in Hs. cbn [fold_left] in Hs. destruct (serve op n) as [[r n1] bad].
  apply IH in Hs. by apply orb_false_iff in Hs as [-> _].
Qed.

Lemma spare_quiet n H k j : quiet n H → spare n (k + j) → spare n j.
Proof using All.
  intros [_ HN]%quiet_NI. pose proof (ni_nonneg n H [] HN).
  unfold spare, valid_rev. lia.
Qed.

(** What the others do before a call. *)
Lemma serve_all_law ops : ∀ n H k failed n',
  quiet n H → Forall (λ op, not_compact op ∧ op_fits 0 op) ops → spare n (k + length ops) →
  serve_all ops n failed = (n', false) →
  failed = false ∧ ∃ K, quiet n' (H ++ K) ∧ keys_fit K ∧ spare n' k ∧
    st_currentRev (n_db n) ≤ st_currentRev (n_db n') ∧ st_compactRev (n_db n') = st_compactRev (n_db n) ∧
    ∀ x, x ∈ K → st_currentRev (n_db n) < x.1 ∧ ∃ op, op ∈ ops ∧ rc_key x.2 ∈ op_keys op.
Proof using All.
  induction ops as [|op ops IH]; intros n H k failed n' Hq Hf Hsp Hs.
  - injection Hs as <- <-. split; [done|]. exists []. rewrite app_nil_r. rewrite Nat.add_0_r in Hsp.
    split_and!; [done|constructor|done..|]. by intros x ?%not_elem_of_nil.
  - apply Forall_cons in Hf as [[Hnc Hfit] Hf]. unfold serve_all in Hs. cbn [fold_left] in Hs.
    destruct (serve op n) as [[r n1] bad] eqn:Es. fold (serve_all ops n1 (failed || bad)) in Hs.
    pose proof (serve_all_failed ops n1 (failed || bad) n' Hs) as [-> ->]%orb_false_iff.
    rewrite Nat.add_comm in Hsp. cbn [length] in Hsp. rewrite Nat.add_succ_l, Nat.add_comm in Hsp.
    destruct (serve_law n H (k + length ops)%nat op r n1 Hq) as (recs & rev & Hq1 & Hkr & Hsp1 & Hrev & Hle & _ & Hcl & Hcur & Hspec);
      [by destruct op|done|done|].
    destruct (IH n1 (H ++ recs) k false n' Hq1 Hf Hsp1 Hs) as (_ & K & Hq' & Hkf' & Hsp' & Hle' & Hcl' & HK).
    split; [done|]. exists (recs ++ K). rewrite app_assoc. specialize (Hcl Hnc). split_and!; [done|by apply Forall_app|done|lia|lia|].
    intros x [Hx|Hx]%elem_of_app.
    + destruct Hspec as [Hspec|[-> _]]; [|by apply not_elem_of_nil in Hx].
      rewrite (spec_op_rev _ _ _ _ _ _ Hspec x Hx). split; [done|]. exists op. split; [by left|by eapply spec_op_written].
    + apply HK in Hx as (Hx & op' & Hop & Hin). split; [lia|]. exists op'. by split; [right|].
Qed.

Lemma reads_answers {A} n (r : result A) (f : Z → A) (rev : Z) : 0 ≤ rev →
  (if rev =? 0 then reads (n_db n) r (f (st_currentRev (n_db n))) else reads_at (n_db n) rev r (f rev)) →
  answers (¬ healthy (st_db (n_db n))) r
    (at_revision (st_currentRev (n_db n)) (st_compactRev (n_db n)) rev f).
Proof using.
  intros H0. unfold at_revision. destruct (Z.eqb_spec rev 0) as [->|Hne].
  - intros Hr. cbn. destruct r as [x|e]; [left; by rewrite Hr|right; split; [done|by eexists]].
  - rewrite (proj2 (Z.leb_gt rev 0)) by lia. unfold reads_at.
    destruct (Z.ltb_spec rev (st_compactRev (n_db n))), (Z.ltb_spec (st_currentRev (n_db n)) rev);
      repeat case_decide; try lia; try (by left).
    intros Hr. destruct r as [x|e]; [left; by rewrite Hr|right; split; [done|by eexists]].
Qed.


Lemma others_fit_tl (s : Shared) n failed : others_fit s → others_fit (mkShared n (tl (sh_others s)) failed).
Proof using. unfold others_fit. cbn. destruct (sh_others s); cbn; [done|]. by intros [_ ?]%Forall_app. Qed.

Lemma others_hd (s : Shared) : others_fit s → Forall (λ op, not_compact op ∧ op_fits 0 op) (hd [] (sh_others s)).
Proof using. unfold others_fit. destruct (sh_others s); cbn; [done|]. by intros [? _]%Forall_app. Qed.

Lemma others_length (s : Shared) :
  length (concat (sh_others s)) = (length (hd [] (sh_others s)) + length (concat (tl (sh_others s))))%nat.
Proof using. destruct (sh_others s); [done|]. cbn. by rewrite length_app. Qed.

(** A call finds the node with what the others did. *)
Lemma shared_turn {A} (f : Node → result A * Node * bool) (s : Shared) H r s' :
  t4_hist s H → shared f s = (r, s') → t4_up s' →
  ∃ n1 n2 K, f n1 = (r, n2, false) ∧ s' = mkShared n2 (tl (sh_others s)) false ∧
    quiet n1 (H ++ K) ∧ keys_fit (H ++ K) ∧ (∀ k, t4_spare s k → spare n1 (k + length (concat (tl (sh_others s))))) ∧
    others_fit s' ∧ spare n1 (length (concat (tl (sh_others s)))) ∧
    t4_cur s ≤ st_currentRev (n_db n1) ∧ st_compactRev (n_db n1) = t4_compact s ∧ (∀ x, x ∈ K → t4_cur s < x.1) ∧ t4_foreign s K s'.
Proof using All.
  intros ([Hq Hkf] & Hf & Hsp) Hs Hup. unfold shared in Hs.
  destruct (serve_all _ _ _) as [n1 failed] eqn:Ea. destruct (f n1) as [[r0 n2] bad] eqn:Ef.
  injection Hs as <- <-. cbn in Hup. apply orb_false_iff in Hup as [-> ->].
  rewrite others_length in Hsp. rewrite Nat.add_comm in Hsp.
  destruct (serve_all_law _ _ H _ _ n1 Hq (others_hd s Hf) Hsp Ea) as (_ & K & Hq1 & Hk1 & Hsp1 & Hle & Hcl & HK).
  exists n1, n2, K. split_and!; [done|done|done|by apply Forall_app| |by apply others_fit_tl|done|done|done|intros x Hx; by apply HK|].
  2:{ split.
      { intros x (_ & op & Hop & Hin)%HK Hours. unfold t4_ours in Hours. cbn in Hours. destruct (sh_others s) as [|ops rest]; [by apply not_elem_of_nil in Hop|].
      apply Forall_app in Hours as [Ho _]. by apply (proj1 (Forall_forall _ _) Ho op Hop). }
      intros key. unfold t4_ours. cbn. destruct (sh_others s) as [|ops rest]; [done|]. by intros [_ ?]%Forall_app. }
  intros k Hk. cbn in Hk. rewrite others_length in Hk.
  destruct (serve_all_law (hd [] (sh_others s)) (sh_node s) H (k + length (concat (tl (sh_others s))))%nat (sh_failed s) n1)
    as (_ & _ & _ & _ & ? & _); [done|by apply others_hd| |done|done].
  by rewrite <- Nat.add_assoc, (Nat.add_comm (length _)).
Qed.

Lemma look_reads {A} (f : Node → result A) (spec : hist → Shared → result A) :
  (∀ n H s, sh_node s = n → quiet n H → answers (¬ healthy (st_db (n_db n))) (f n) (spec H s)) →
  t4_reads (look f) spec.
Proof using All.
  intros Hf s H r s' Hh Hs Hup.
  destruct (shared_turn _ s H r s' Hh Hs Hup) as (n1 & n2 & K & [= <- <-] & -> & Hq & Hkf & Hk & Ho & Hsp & Hle & Hcl & HK & Hfo).
  exists K. split; [|split; [done|split; [done|by apply Hf]]]. split_and!; [done..| |done]. cbn in *. lia.
Qed.

Lemma shared_sticky {A} (f : Node → result A * Node * bool) : Sticky (shared f).
Proof using.
  intros s r s'. unfold shared. destruct (serve_all _ _ _) as [n1 failed] eqn:Ea.
  destruct (f n1) as [[r0 n2] bad]. intros [= <- <-]. cbn. intros [-> _]%orb_false_iff.
  by apply serve_all_failed in Ea.
Qed.

#[global] Instance shared_node_ok : T4NodeOk Shared.
Proof using All.
  split; try (intros; apply shared_sticky).
  - intros s H ([Hq _] & _). apply quiet_NI in Hq as [_ HN]. pose proof (ni_rel _ _ _ HN) as HR. cbn.
    split; [apply (re_bound _ _ HR)|]. split; [apply (re_bound _ _ HR)|]. apply (re_cur _ _ HR).
  - intros s H ([Hq _] & _). apply quiet_NI in Hq as [_ HN]. intros x Hx. apply (ni_ver _ _ _ HN), elem_of_app. by left.
  - intros s H ([Hq _] & _). apply quiet_NI in Hq as [_ HN]. apply (mi_sorted _ _ _ (re_mi _ _ (ni_rel _ _ _ HN))).
  - by intros s H ([_ ?] & _).
  - intros s H k j ([Hq _] & _) Hj Hk. eapply (spare_quiet _ _ (k - j)); [done|]. cbn in *. by replace (k - j + (j + length (concat (sh_others s))))%nat with (k + length (concat (sh_others s)))%nat by lia.
  - intros s H k op r s' Hh Hfit Hk Hs Hup.
    destruct (shared_turn _ s H r s' Hh Hs Hup) as (n1 & n2 & K & Hop & -> & Hq & Hkf & Hks & Ho & Hsp & Hle & Hcl & HK & Hfo).
    apply Hks in Hk. rewrite <- Hcl in Hfit.
    destruct (serve_law n1 (H ++ K) _ op r n2 Hq Hfit Hk Hop) as (recs & rev & Hq2 & Hkf2 & Hsp2 & Hrev & Hle2 & Hcl2 & _ & Hcur & Hspec).
    pose proof (quiet_NI n1 _ Hq) as [_ HN]. rewrite <- app_assoc in Hq2. change (t4_cur s) with (st_currentRev (n_db (sh_node s))) in *.
    change (t4_compact s) with (st_compactRev (n_db (sh_node s))) in *.
    exists K, recs, (st_currentRev (n_db n1)), rev. split.
    { split_and!; [split_and!; [done|rewrite app_assoc; by apply Forall_app|done|by eapply spare_quiet]|cbn; lia|cbn; lia|].
      intros x [Hx|Hx]%elem_of_app; [by apply HK|]. destruct Hspec as [Hspec|[-> _]]; [|by apply not_elem_of_nil in Hx].
      rewrite (spec_op_rev _ _ _ _ _ _ Hspec x Hx). cbn. lia. }
    split; [done|]. split; [done|]. split; [lia|]. split_and!; [|done..]. intros x Hx. by apply (re_cur _ _ (ni_rel _ _ _ HN)).
  - intros lin key opts Ho. apply look_reads. intros n H s <- Hq. apply quiet_NI in Hq as [Hcl HN].
    pose proof (ni_rel _ _ _ HN) as HR. apply reads_answers; [done|]. unfold nodeGet, unless_closed, hasRevision. rewrite Hcl.
    destruct (Z.eqb_spec (rd_revision (applyReadOpts opts)) 0) as [E|E]; [rewrite E; by apply Get_reads|].
    rewrite (proj2 (Z.ltb_lt _ _)) by lia. apply GetAt_reads; [done|lia].
  - intros lin key opts Ho. apply look_reads. intros n H s <- Hq. apply quiet_NI in Hq as [Hcl HN].
    pose proof (ni_rel _ _ _ HN) as HR.
    apply (reads_answers _ _ (λ rev, bool_decide (is_Some (value_at H key rev)))); [done|].
    unfold nodeExists, unless_closed, hasRevision. rewrite Hcl.
    destruct (Z.eqb_spec (rd_revision (applyReadOpts opts)) 0) as [E|E]; [rewrite E; by apply Exists_reads|].
    rewrite (proj2 (Z.ltb_lt _ _)) by lia. apply ExistsAt_reads; [done|lia].
  - intros lin prefix opts Ho. apply look_reads. intros n H s <- Hq. apply quiet_NI in Hq as [Hcl HN].
    pose proof (ni_rel _ _ _ HN) as HR. unfold nodeList, unless_closed. rewrite Hcl. set (o := applyReadOpts opts) in *.
    apply (reads_answers _ _ (λ rev, take_limit (rd_limit o) (list_at H prefix (rd_fromKey o) rev))); [done|].
    apply (ListRange_reads _ _ prefix (storeOptions o)); done.
  - intros lin prefix opts Ho. apply look_reads. intros n H s <- Hq. apply quiet_NI in Hq as [Hcl HN].
    pose proof (ni_rel _ _ _ HN) as HR. unfold nodeCount, unless_closed. rewrite Hcl. set (o := applyReadOpts opts) in *.
    apply (reads_answers _ _ (λ rev, zlen (list_at H prefix (rd_fromKey o) rev))); [done|].
    apply (CountRange_reads _ _ prefix (storeOptions o)); done.
  - apply look_reads. intros n H s <- _. by left.
  - apply look_reads. intros n H s <- _. by left.
  - apply look_reads. intros n H s <- (_ & _ & Hro). left. unfold IsLeader. by rewrite bool_decide_false.
Qed.
End Shared.
