(* ===== verification/EtcdKv.v ===== *)
(** * The etcd key-value service

    The KV handlers of etcd/kv.go and the conversions of etcd/server.go on a
    node: Range, DeleteRange and Compact, with the wire messages as records of
    the fields the handlers read.  Handlers are programs over the interface
    [T4Node]; other clients can write between two of their calls. *)

From S2P Require Import Prelude Bytes WalEntry Os Wal Pebble StoreKeys Store StoreSpec StoreRead StoreRefine Node NodeSpec NodeInv NodeReads NodeApi.

(** ** Messages *)

Record ResponseHeader := mkHeader { rh_ClusterId : Z; rh_MemberId : Z; rh_Revision : Z; rh_RaftTerm : Z }.

(** [mvccpb.KeyValue] and [mvccpb.Event]. *)
Record pbKeyValue := mkPbKV {
  pk_Key : bytes; pk_Value : bytes; pk_ModRevision : Z; pk_CreateRevision : Z; pk_Lease : Z; pk_Version : Z }.

Inductive pbEventType := PUT | DELETE.

Record pbEvent := mkPbEvent { pe_Type : pbEventType; pe_Kv : pbKeyValue; pe_PrevKv : option pbKeyValue }.

Record RangeRequest := mkRangeReq {
  rq_Key : bytes; rq_RangeEnd : bytes; rq_Limit : Z; rq_Revision : Z;
  rq_Serializable : bool; rq_KeysOnly : bool; rq_CountOnly : bool }.

Record RangeResponse := mkRangeResp {
  rp_Header : ResponseHeader; rp_Kvs : list pbKeyValue; rp_Count : Z; rp_More : bool }.

Record DeleteRangeRequest := mkDelReq { dq_Key : bytes; dq_RangeEnd : bytes; dq_PrevKv : bool }.

Record DeleteRangeResponse := mkDelResp {
  dr_Header : ResponseHeader; dr_Deleted : Z; dr_PrevKvs : list pbKeyValue }.

(** ** Revisions *)

Definition toEtcdRevision (rev : Z) : Z := i64 (rev + 1).
Definition fromEtcdRevision (rev : Z) : Z := if rev <=? 0 then 0 else rev - 1.

Definition headerAt (rev : Z) : ResponseHeader := mkHeader 1 1 (toEtcdRevision rev) 1.

Definition kvToProto (kv : KeyValue) : pbKeyValue :=
  let version := if kv_Version kv <=? 0 then 1 else kv_Version kv in
  mkPbKV (kv_Key kv) (kv_Value kv) (toEtcdRevision (kv_Revision kv)) (toEtcdRevision (kv_CreateRevision kv))
    (kv_Lease kv) version.

Definition kvToProtoForRange (kv : KeyValue) (keysOnly : bool) : pbKeyValue :=
  let pb := kvToProto kv in
  if keysOnly
  then mkPbKV (pk_Key pb) [] (pk_ModRevision pb) (pk_CreateRevision pb) (pk_Lease pb) (pk_Version pb)
  else pb.

Definition eventToProto (e : Event) : pbEvent :=
  mkPbEvent (match ev_Type e with EventDelete => DELETE | EventPut => PUT end) (kvToProto (ev_KV e)) (kvToProto <$> ev_PrevKV e).

(** ** Keys and ranges *)

Definition internalPrefix : bytes := x00 :: str "t4/".
Definition isInternalKey (key : bytes) : bool := has_prefix internalPrefix key.

Definition errReservedKey : err := ErrStatus InvalidArgument "key uses reserved internal prefix".
Definition validateUserKey (key : bytes) : result () := if isInternalKey key then Err errReservedKey else Ok tt.

(** The prefix without its trailing 0xff bytes, its last byte incremented. *)
Fixpoint prefix_succ (b : bytes) : option bytes :=
  match b with
  | [] => None
  | c :: b' =>
      match prefix_succ b' with
      | Some u => Some (c :: u)
      | None => if byte_val c <? 0xff then Some [byte_of (byte_val c + 1)] else None
      end
  end.
Definition prefixRangeEnd (prefix : bytes) : bytes :=
  match prefix_succ prefix with Some u => u | None => [x00] end.

Definition isPrefixRangeEnd (prefix rangeEnd : bytes) : bool := bool_decide (prefixRangeEnd prefix = rangeEnd).

Definition isExactPrefixRange (key rangeEnd : bytes) : bool :=
  match key with
  | [] => false
  | c :: _ => if bool_decide (c = x00) then false else isPrefixRangeEnd key rangeEnd
  end.

Definition rangeScanPrefix (key rangeEnd : bytes) : bytes := if isPrefixRangeEnd key rangeEnd then key else [].

Definition matchRange (kv : KeyValue) (key rangeEnd : bytes) : bool :=
  if isInternalKey (kv_Key kv) then false
  else if bool_decide (rangeEnd = [x00]) then bytes_leb key (kv_Key kv)
  else bytes_leb key (kv_Key kv) && bytes_ltb (kv_Key kv) rangeEnd.

Definition kvError (e : err) : err :=
  if bool_decide (e = ErrNoLeader) then ErrGRPCNoLeader
  else if bool_decide (e = ErrCompacted) then ErrGRPCCompacted
  else if bool_decide (e = ErrFutureRevision) then ErrGRPCFutureRev
  else e.

(** ** Handlers *)

(** The pairs in the range: how many, and the first ones up to the limit. *)
Fixpoint range_loop (r : RangeRequest) (all : list KeyValue) (total : Z) (kvs : list pbKeyValue)
    : Z * list pbKeyValue :=
  match all with
  | [] => (total, kvs)
  | kv :: all' =>
      if negb (matchRange kv (rq_Key r) (rq_RangeEnd r)) then range_loop r all' total kvs
      else if (0 <? rq_Limit r) && (rq_Limit r <=? zlen kvs) then range_loop r all' (total + 1) kvs
      else range_loop r all' (total + 1) (kvs ++ [kvToProtoForRange kv (rq_KeysOnly r)])
  end.

Fixpoint count_loop (key rangeEnd : bytes) (all : list KeyValue) (count : Z) : Z :=
  match all with
  | [] => count
  | kv :: all' =>
      if negb (matchRange kv key rangeEnd) then count_loop key rangeEnd all' count
      else count_loop key rangeEnd all' (count + 1)
  end.

Section Handlers.
Context {N : Type} `{NI : T4Node N}.

(** [cfg.ReadConsistency] is serializable. *)
Context (serializableOnly : bool).

Definition header : ST N ResponseHeader := rev ← t4_CurrentRevision; mret (headerAt rev).

Definition rangeHeader (readRev : Z) : ST N ResponseHeader :=
  if 0 <? readRev then mret (headerAt readRev) else header.

Definition rangeOne (lin : bool) (readRev : Z) (r : RangeRequest) : ST N RangeResponse :=
  if isInternalKey (rq_Key r) then h ← rangeHeader readRev; mret (mkRangeResp h [] 0 false)
  else if rq_CountOnly r then
    exists_ ← st_map_err kvError (t4_Exists lin (rq_Key r) [WithRevision readRev]);
    h ← rangeHeader readRev;
    mret (mkRangeResp h [] (if exists_ : bool then 1 else 0) false)
  else
    kv ← st_map_err kvError (t4_Get lin (rq_Key r) [WithRevision readRev]);
    h ← rangeHeader readRev;
    mret (match kv with
          | Some kv => mkRangeResp h [kvToProtoForRange kv (rq_KeysOnly r)] 1 false
          | None => mkRangeResp h [] 0 false
          end).

Definition rangeCountOnly (lin : bool) (readRev : Z) (r : RangeRequest) : ST N RangeResponse :=
  let scanPrefix := rangeScanPrefix (rq_Key r) (rq_RangeEnd r) in
  if isExactPrefixRange (rq_Key r) (rq_RangeEnd r) then
    count ← st_map_err kvError (t4_Count lin scanPrefix [WithRevision readRev]);
    h ← rangeHeader readRev;
    mret (mkRangeResp h [] count false)
  else
    all ← st_map_err kvError (t4_List lin scanPrefix [WithRevision readRev]);
    h ← rangeHeader readRev;
    mret (mkRangeResp h [] (count_loop (rq_Key r) (rq_RangeEnd r) all 0) false).

Definition rangeScan (lin : bool) (readRev : Z) (r : RangeRequest) : ST N RangeResponse :=
  let scanPrefix := rangeScanPrefix (rq_Key r) (rq_RangeEnd r) in
  if isExactPrefixRange (rq_Key r) (rq_RangeEnd r) && (0 <? rq_Limit r) then
    total ← st_map_err kvError (t4_Count lin scanPrefix [WithRevision readRev]);
    all ← st_map_err kvError (t4_List lin scanPrefix [WithLimit (rq_Limit r); WithRevision readRev]);
    h ← rangeHeader readRev;
    mret (mkRangeResp h (map (λ kv, kvToProtoForRange kv (rq_KeysOnly r)) all) total (rq_Limit r <? total))
  else
    all ← st_map_err kvError (t4_List lin scanPrefix [WithRevision readRev]);
    h ← rangeHeader readRev;
    mret (let '(total, kvs) := range_loop r all 0 [] in
          mkRangeResp h kvs total ((0 <? rq_Limit r) && (rq_Limit r <? total))).

Definition Range (r : RangeRequest) : ST N RangeResponse :=
  let readRev := fromEtcdRevision (rq_Revision r) in
  early ← (if 0 <? rq_Revision r then
             compactRev ← t4_CompactRevision;
             if (0 <? compactRev) && (readRev <? compactRev) then throw ErrGRPCCompacted
             else mret (readRev =? 0)
           else mret false);
  if early : bool then mret (mkRangeResp (headerAt 0) [] 0 false)
  else
    let lin := negb (rq_Serializable r) && negb serializableOnly in
    if bool_decide (rq_RangeEnd r = []) then rangeOne lin readRev r
    else if rq_CountOnly r then rangeCountOnly lin readRev r
    else rangeScan lin readRev r.

(** ** Deletes *)

Definition deleteOne (r : DeleteRangeRequest) : ST N DeleteRangeResponse :=
  _ ← from_result (validateUserKey (dq_Key r));
  prev ← (if dq_PrevKv r then t4_Get false (dq_Key r) [] else mret None);
  newRev ← st_map_err kvError (t4_Delete (dq_Key r));
  let prevKvs := match prev with Some kv => [kvToProto kv] | None => [] end in
  if 0 <? newRev then mret (mkDelResp (headerAt newRev) 1 prevKvs)
  else h ← header; mret (mkDelResp h 0 prevKvs).

Definition maxTxnOps : nat := 65535.

(** The deleted pairs of a batch. *)
Definition deletedOf (chunk : list KeyValue) (deletedKeys : list bytes) : list KeyValue :=
  filter (λ kv, kv_Key kv ∈ deletedKeys) chunk.

(** Batches of at most [maxTxnOps] deletes, each one transaction. *)
Fixpoint delete_chunks (fuel : nat) (prevKv : bool) (matched : list KeyValue) (lastCommitRev deleted : Z)
    (prevKvs : list pbKeyValue) : ST N (Z * Z * list pbKeyValue) :=
  match matched, fuel with
  | [], _ | _, O => mret (lastCommitRev, deleted, prevKvs)
  | _ :: _, Datatypes.S fuel =>
      let chunk := take maxTxnOps matched in
      resp ← st_map_err kvError (t4_Txn (mkTxn [] (map (λ kv, mkOp TxnDelete (kv_Key kv) [] 0) chunk) []));
      let gone := deletedOf chunk (tp_DeletedKeys resp) in
      delete_chunks fuel prevKv (drop maxTxnOps matched) (tp_Revision resp) (deleted + zlen gone)
        (prevKvs ++ (if prevKv then map kvToProto gone else []))
  end.

Definition DeleteRange (r : DeleteRangeRequest) : ST N DeleteRangeResponse :=
  if bool_decide (dq_RangeEnd r = []) then deleteOne r
  else
    all ← t4_List false (rangeScanPrefix (dq_Key r) (dq_RangeEnd r)) [];
    let matched := filter (λ kv, matchRange kv (dq_Key r) (dq_RangeEnd r) = true) all in
    h ← header;
    if bool_decide (matched = []) then mret (mkDelResp h 0 [])
    else
      '(lastCommitRev, deleted, prevKvs) ← delete_chunks (length matched) (dq_PrevKv r) matched 0 0 [];
      mret (mkDelResp (if 0 <? lastCommitRev then headerAt lastCommitRev else h) deleted prevKvs).

Definition Compact (revision : Z) : ST N ResponseHeader :=
  _ ← st_map_err kvError (t4_Compact (fromEtcdRevision revision));
  header.
End Handlers.
