(* ===== verification/EtcdKvProps.v ===== *)
(** * Correctness of the etcd key-value service

    Range against the listing of a range on the history of the node: all code
    paths (single key, count, prefix scan with and without a limit, general
    range) give the same answer, on a node that others write to. *)

From S2P Require Import Prelude Bytes WalEntry Os Wal Pebble StoreKeys Store StoreSpec StoreRead StoreRefine Node NodeSpec NodeInv NodeReads NodeApi EtcdKv.

(** ** Ranges *)

(** The keys of an etcd range: one key, all from a key on, or an interval. *)
Definition in_range (key rangeEnd k : bytes) : bool :=
  if bool_decide (rangeEnd = []) then bool_decide (k = key)
  else if bool_decide (rangeEnd = [x00]) then bytes_leb key k
  else bytes_leb key k && bytes_ltb k rangeEnd.

(** The user pairs of a range at a revision, in key order. *)
Definition user_range (H : hist) (key rangeEnd : bytes) (rev : Z) : list KeyValue :=
  filter (λ kv, isInternalKey (kv_Key kv) = false ∧ in_range key rangeEnd (kv_Key kv) = true) (list_at H [] [] rev).

Lemma prefix_succ_upper p : prefix_succ p = upperBound p.
Proof.
  induction p as [|c p IH]; [done|]. cbn [prefix_succ upperBound]. rewrite IH. destruct (upperBound p); [done|].
  by destruct c.
Qed.

Lemma upperBound_end p u : upperBound p = Some u → u ≠ [] ∧ u ≠ [x00].
Proof.
  revert u. induction p as [|c p IH]; intros u; [done|]. cbn [upperBound].
  destruct (upperBound p) as [q|].
  - intros [= <-]. destruct (IH q eq_refl) as [Hq _]. split; [done|]. by destruct q.
  - case_bool_decide as Hc; [done|]. intros [= <-]. split; [done|]. congruence.
Qed.

Lemma bytes_lebP a b : bytes_leb a b = true ↔ bytes_le a b.
Proof. unfold bytes_leb, bytes_le. by destruct (bytes_cmp a b). Qed.

Lemma bytes_ltbP a b : bytes_ltb a b = true ↔ bytes_lt a b.
Proof. unfold bytes_ltb, bytes_lt. by destruct (bytes_cmp a b). Qed.

(** The end of a prefix range selects exactly the keys with the prefix. *)
Lemma prefix_range_exact p k :
  prefixRangeEnd p ≠ [] ∧ (has_prefix p k = true ↔ in_range p (prefixRangeEnd p) k = true).
Proof.
  unfold prefixRangeEnd, in_range. rewrite prefix_succ_upper, upperBound_spec.
  destruct (upperBound p) as [u|] eqn:E.
  - destruct (upperBound_end p u E) as [H1 H2]. split; [done|].
    rewrite !bool_decide_false by done. by rewrite andb_true_iff, bytes_lebP, bytes_ltbP.
  - split; [done|]. rewrite bool_decide_false by done. rewrite bool_decide_true by done. rewrite bytes_lebP. tauto.
Qed.

Lemma matchRange_spec kv key rangeEnd : rangeEnd ≠ [] →
  matchRange kv key rangeEnd = negb (isInternalKey (kv_Key kv)) && in_range key rangeEnd (kv_Key kv).
Proof.
  intros Hne. unfold matchRange, in_range. rewrite (bool_decide_false (rangeEnd = [])) by done.
  destruct (isInternalKey _); [done|]. by repeat case_bool_decide.
Qed.

(** A range is the filtered scan of its prefix. *)
Lemma user_range_scan H key rangeEnd rev : rangeEnd ≠ [] →
  user_range H key rangeEnd rev =
  filter (λ kv, matchRange kv key rangeEnd = true) (list_at H (rangeScanPrefix key rangeEnd) [] rev).
Proof.
  intros Hne. unfold user_range.
  destruct (list_at_listing H [] [] rev) as [Hs Hi], (list_at_listing H (rangeScanPrefix key rangeEnd) [] rev) as [Hs' Hi'].
  apply (StronglySorted_ext (λ a b, bytes_lt (kv_Key a) (kv_Key b))).
  - intros x Hx. by apply bytes_lt_irrefl in Hx.
  - intros x y z. apply bytes_lt_trans.
  - by apply StronglySorted_filter.
  - by apply StronglySorted_filter.
  - intros kv. rewrite !list_elem_of_filter, matchRange_spec, andb_true_iff, negb_true_iff by done. rewrite Hi, Hi'.
    unfold rangeScanPrefix, isPrefixRangeEnd. case_bool_decide as He; [|tauto].
    destruct (prefix_range_exact key (kv_Key kv)) as [_ Hp]. rewrite He in Hp. rewrite Hp. tauto.
Qed.

Lemma exact_prefix key rangeEnd : isExactPrefixRange key rangeEnd = true →
  rangeEnd = prefixRangeEnd key ∧ ∀ k, has_prefix key k = true → isInternalKey k = false.
Proof.
  unfold isExactPrefixRange. destruct key as [|c key]; [done|]. case_bool_decide as Hc; [done|].
  unfold isPrefixRangeEnd. rewrite bool_decide_eq_true. intros <-. split; [done|].
  intros [|d k]; [done|]. cbn. rewrite andb_true_iff, bool_decide_eq_true. intros [<- _].
  apply andb_false_iff. left. by apply bool_decide_eq_false.
Qed.

(** Every pair under an exact prefix is in the range. *)
Lemma user_range_prefix H key rangeEnd rev : isExactPrefixRange key rangeEnd = true →
  user_range H key rangeEnd rev = list_at H (rangeScanPrefix key rangeEnd) [] rev.
Proof.
  intros He. destruct (exact_prefix key rangeEnd He) as [-> Hk].
  rewrite user_range_scan by apply (prefix_range_exact key []). unfold rangeScanPrefix, isPrefixRangeEnd.
  rewrite bool_decide_true by done. apply filter_all_in. intros kv Hkv.
  apply (list_at_listing H key [] rev) in Hkv as (Hp & _).
  rewrite matchRange_spec by apply (prefix_range_exact key []). rewrite (Hk _ Hp). by apply prefix_range_exact.
Qed.

Lemma user_range_one H key rev :
  user_range H key [] rev =
  if isInternalKey key then [] else match value_at H key rev with Some kv => [kv] | None => [] end.
Proof.
  unfold user_range, in_range. destruct (list_at_listing H [] [] rev) as [Hs Hi].
  apply (StronglySorted_ext (λ a b, bytes_lt (kv_Key a) (kv_Key b))).
  - intros x Hx. by apply bytes_lt_irrefl in Hx.
  - intros x y z. apply bytes_lt_trans.
  - by apply StronglySorted_filter.
  - destruct (isInternalKey key), (value_at H key rev); repeat constructor.
  - intros kv. rewrite list_elem_of_filter, Hi. rewrite (bool_decide_true ([] = [])), bool_decide_eq_true by done.
    destruct (isInternalKey key) eqn:E.
    { split; [|by intros ?%not_elem_of_nil]. intros [[Hn <-] _]. congruence. }
    destruct (value_at H key rev) as [kv'|] eqn:Ev; split.
    + intros [[_ <-] (_ & _ & Hv)]. rewrite Ev in Hv. injection Hv as ->. by left.
    + intros ->%list_elem_of_singleton. pose proof (value_at_key _ _ _ _ Ev) as <-. split; [done|].
      split; [done|]. split; [by destruct (kv_Key kv')|done].
    + intros [[_ <-] (_ & _ & Hv)]. congruence.
    + by intros ?%not_elem_of_nil.
Qed.

(** ** Loops *)

Lemma count_loop_spec key rangeEnd all : ∀ count,
  count_loop key rangeEnd all count = count + zlen (filter (λ kv, matchRange kv key rangeEnd = true) all).
Proof.
  induction all as [|kv all IH]; intros count; cbn [count_loop]; [unfold zlen; cbn; lia|].
  rewrite filter_cons. case_decide as Hm; [|apply not_true_is_false in Hm]; rewrite Hm; cbn [negb];
    rewrite IH; [rewrite zlen_cons; lia|done].
Qed.

Lemma range_loop_spec r all : ∀ total kvs,
  range_loop r all total kvs =
  let F := filter (λ kv, matchRange kv (rq_Key r) (rq_RangeEnd r) = true) all in
  (total + zlen F,
   kvs ++ map (λ kv, kvToProtoForRange kv (rq_KeysOnly r))
     (if 0 <? rq_Limit r then take (Z.to_nat (rq_Limit r - zlen kvs)) F else F)).
Proof.
  induction all as [|kv all IH]; intros total kvs; cbn [range_loop].
  { cbn. rewrite Z.add_0_r. destruct (0 <? rq_Limit r); rewrite ?take_nil; cbn; by rewrite app_nil_r. }
  rewrite filter_cons. case_decide as Hm; [|apply not_true_is_false in Hm]; rewrite Hm; cbn [negb]; [|by rewrite IH].
  cbv zeta. rewrite zlen_cons. destruct (Z.ltb_spec 0 (rq_Limit r)) as [Hl|Hl]; cbn [andb].
  - destruct (Z.leb_spec (rq_Limit r) (zlen kvs)) as [Hf|Hf]; rewrite IH; cbv zeta; rewrite ?(proj2 (Z.ltb_lt 0 (rq_Limit r))) by done.
    + f_equal; [lia|]. replace (Z.to_nat (rq_Limit r - zlen kvs)) with 0%nat by lia. done.
    + f_equal; [lia|]. rewrite zlen_app. rewrite <- app_assoc. f_equal.
      replace (Z.to_nat (rq_Limit r - zlen kvs)) with (Datatypes.S (Z.to_nat (rq_Limit r - (zlen kvs + zlen [kvToProtoForRange kv (rq_KeysOnly r)]))))
        by (unfold zlen in *; cbn; lia).
      done.
  - rewrite IH. cbv zeta. rewrite ?(proj2 (Z.ltb_ge 0 (rq_Limit r))) by done. f_equal; [lia|]. by rewrite <- app_assoc.
Qed.

(** ** Range *)

Section RangeProps.
Context {N : Type} `{NI : T4Node N} `{NV : T4View N} `{NOk : !T4NodeOk N}.

(** The data is that of the revision [rv], the header that of [hdr]: both the
    revision asked for, or a current one. *)
Definition window (readRev : Z) (n : N) (rv hdr : Z) (n' : N) : Prop :=
  if 0 <? readRev then rv = readRev ∧ hdr = readRev
  else t4_cur n ≤ rv ∧ rv ≤ hdr ∧ hdr ≤ t4_cur n'.

(** Why a read fails. *)
Definition range_err (readRev : Z) (n : N) (H : hist) (e : err) : Prop :=
  ∃ n1 H1, later n H n1 H1 ∧
    (e = ErrGRPCCompacted ∧ readRev < t4_compact n1 ∨ e = ErrGRPCFutureRev ∧ t4_cur n1 < readRev ∨ ¬ t4_healthy n1).

#[global] Instance header_sticky : Sticky (N := N) header.
Proof using NOk. unfold header. solve_sticky. Qed.
#[global] Instance rangeHeader_sticky readRev : Sticky (N := N) (rangeHeader readRev).
Proof using NOk. unfold rangeHeader. solve_sticky. Qed.

#[global] Instance rangeOne_sticky lin readRev r : Sticky (N := N) (rangeOne lin readRev r).
Proof using NOk. unfold rangeOne. solve_sticky. Qed.
#[global] Instance rangeCountOnly_sticky lin readRev r : Sticky (N := N) (rangeCountOnly lin readRev r).
Proof using NOk. unfold rangeCountOnly. solve_sticky. Qed.
#[global] Instance rangeScan_sticky lin readRev r : Sticky (N := N) (rangeScan lin readRev r).
Proof using NOk. unfold rangeScan. solve_sticky. Qed.
#[global] Instance Range_sticky serializableOnly r : Sticky (N := N) (Range serializableOnly r).
Proof using NOk. unfold Range. solve_sticky. Qed.

Lemma header_inv {A} (f : ResponseHeader → A) readRev n H res n' :
  0 ≤ readRev → t4_hist n H → (h ← rangeHeader readRev; mret (f h)) n = (res, n') → t4_up n' →
  ∃ H', later n H n' H' ∧
    (res = Ok (f (headerAt (if 0 <? readRev then readRev else t4_cur n'))) ∨ ¬ t4_healthy n' ∧ ∃ e, res = Err e).
Proof using NOk.
  intros Hr Hh Hres Hup. unfold rangeHeader, header in Hres. destruct (0 <? readRev).
  { injection Hres as <- <-. exists H. split; [by apply later_refl|by left]. }
  destruct (reads_inv _ _ (λ h, mret (f h)) n H res n' (reads_fmap headerAt _ _ t4_CurrentRevision_law) Hh Hres Hup ltac:(solve_sticky))
    as (n2 & H2 & Hl & _ & [(a & Ha & Hf)|(e & -> & -> & [?|Hw])]); [|done|].
  - injection Hf as <- <-. injection Ha as <-. exists H2. split; [done|by left].
  - exists H2. split; [done|]. right. split; [done|by eexists].
Qed.

(** A value read at a revision and the header of the answer. *)
Definition stable_spec {A} (spec : hist → Z → A) : Prop :=
  ∀ (n n' : N) H H' rev, later n H n' H' → rev ≤ t4_cur n → spec H' rev = spec H rev.

Lemma at_revision_inv {A} (n : N) readRev (f : Z → A) : 0 ≤ readRev →
  match map_err kvError (at_revision (t4_cur n) (t4_compact n) readRev f) with
  | Ok a => ∃ rv, a = f rv ∧ rv ≤ t4_cur n ∧ rv = (if 0 <? readRev then readRev else t4_cur n)
  | Err e => e = ErrGRPCCompacted ∧ readRev < t4_compact n ∨ e = ErrGRPCFutureRev ∧ t4_cur n < readRev
  end.
Proof using.
  intros Hr. unfold at_revision. destruct (Z.leb_spec readRev 0) as [H0|H0]; cbn.
  { eexists. split; [done|]. rewrite (proj2 (Z.ltb_ge _ _)) by lia. done. }
  destruct (Z.ltb_spec readRev (t4_compact n)); cbn; [by left|].
  destruct (Z.ltb_spec (t4_cur n) readRev); cbn; [by right|].
  eexists. split; [done|]. rewrite (proj2 (Z.ltb_lt _ _)) by lia. by split.
Qed.

Lemma read_then_header {A B} (m : ST N A) (spec : hist → Z → A) (f : ResponseHeader → A → B) readRev n H res n' :
  t4_reads m (λ H n, at_revision (t4_cur n) (t4_compact n) readRev (spec H)) → stable_spec spec →
  0 ≤ readRev → t4_hist n H →
  (a ← st_map_err kvError m; h ← rangeHeader readRev; mret (f h a)) n = (res, n') → t4_up n' →
  match res with
  | Ok resp => ∃ H' rv hdr, later n H n' H' ∧ window readRev n rv hdr n' ∧ rv ≤ t4_cur n' ∧ resp = f (headerAt hdr) (spec H' rv)
  | Err e => range_err readRev n H e
  end.
Proof using NOk.
  intros Hm Hst Hr Hh Hres Hup.
  destruct (reads_inv _ _ _ n H res n' (reads_map_err kvError m _ Hm) Hh Hres Hup ltac:(solve_sticky))
    as (n1 & H1 & Hl1 & _ & [(a & Ha & Hf)|(e & -> & -> & He)]).
  - pose proof (at_revision_inv n1 readRev (spec H1) Hr) as Hinv. rewrite Ha in Hinv. destruct Hinv as (rv & -> & Hle & Hrv).
    destruct (header_inv (λ h, f h (spec H1 rv)) readRev n1 H1 res n' Hr (la_hist _ _ _ _ Hl1) Hf Hup) as (H2 & Hl2 & [->|(Hw & e & ->)]).
    + exists H2, rv, (if 0 <? readRev then readRev else t4_cur n'). split; [by eapply later_trans|].
      pose proof (la_cur _ _ _ _ Hl1). pose proof (la_cur _ _ _ _ Hl2).
      split_and!; [|lia|by rewrite (Hst _ _ _ _ _ Hl2 Hle)]. unfold window. destruct (0 <? readRev); lia.
    + exists n', H2. split; [by eapply later_trans|by auto].
  - exists n1, H1. split; [done|]. destruct He as [He|He]; [|by auto].
    pose proof (at_revision_inv n1 readRev (spec H1) Hr) as Hinv. rewrite He in Hinv. tauto.
Qed.

Lemma stable_value key : stable_spec (λ H, value_at H key).
Proof using. intros n n' H H' rev Hl Hr. by apply (later_value n n'). Qed.
Lemma stable_exists key : stable_spec (λ H rev, bool_decide (is_Some (value_at H key rev))).
Proof using. intros n n' H H' rev Hl Hr. by rewrite (later_value n n' H H'). Qed.
Lemma stable_list prefix fromKey : stable_spec (λ H, list_at H prefix fromKey).
Proof using. intros n n' H H' rev Hl Hr. by apply (later_list n n'). Qed.
Lemma stable_comp {A B} (g : A → B) (spec : hist → Z → A) : stable_spec spec → stable_spec (λ H rev, g (spec H rev)).
Proof using. intros Hs n n' H H' rev Hl Hr. by rewrite (Hs n n' H H'). Qed.
Lemma stable_range key rangeEnd : stable_spec (λ H, user_range H key rangeEnd).
Proof using. apply (stable_comp (filter _) (λ H, list_at H [] [])), stable_list. Qed.

(** The answer for a history: the count at a revision [rv1], the pairs at
    [rv2], and the header. *)
Definition range_ok (r : RangeRequest) (H : hist) (rv1 rv2 hdr : Z) (resp : RangeResponse) : Prop :=
  let all rv := user_range H (rq_Key r) (rq_RangeEnd r) rv in
  rp_Header resp = headerAt hdr ∧ rp_Count resp = zlen (all rv1) ∧
  rp_Kvs resp = (if rq_CountOnly r then []
                 else map (λ kv, kvToProtoForRange kv (rq_KeysOnly r)) (take_limit (rq_Limit r) (all rv2))) ∧
  rp_More resp = negb (rq_CountOnly r) && (0 <? rq_Limit r) && (rq_Limit r <? zlen (all rv1)).

(** Count and pairs are of one revision, but for a prefix scan with a limit,
    which reads twice. *)
Definition range_post (readRev : Z) (r : RangeRequest) (n : N) (H : hist) (res : result RangeResponse) (n' : N) : Prop :=
  match res with
  | Ok resp => ∃ H' rv1 rv2 hdr, later n H n' H' ∧ range_ok r H' rv1 rv2 hdr resp ∧
      window readRev n rv1 hdr n' ∧ window readRev n rv2 hdr n' ∧ rv1 ≤ rv2 ∧
      (rv1 = rv2 ∨ isExactPrefixRange (rq_Key r) (rq_RangeEnd r) = true ∧ 0 < rq_Limit r) ∧
      (rv2 ≤ t4_cur n' ∨ rq_RangeEnd r = [] ∧ isInternalKey (rq_Key r) = true)
  | Err e => range_err readRev n H e
  end.

Lemma range_single readRev r n H H' rv hdr n' resp :
  later n H n' H' → window readRev n rv hdr n' → rv ≤ t4_cur n' → range_ok r H' rv rv hdr resp →
  range_post readRev r n H (Ok resp) n'.
Proof using. intros. exists H', rv, rv, hdr. split_and!; by auto. Qed.

Lemma applyReadOpts_rev rev : applyReadOpts [WithRevision rev] = mkReadOpts rev [] 0.
Proof using. done. Qed.

(** At most one pair: no limit cuts it, and there are no more. *)
Lemma range_ok_short r H rv hdr F : user_range H (rq_Key r) (rq_RangeEnd r) rv = F → (length F ≤ 1)%nat →
  range_ok r H rv rv hdr (mkRangeResp (headerAt hdr)
    (if rq_CountOnly r then [] else map (λ kv, kvToProtoForRange kv (rq_KeysOnly r)) F) (zlen F) false).
Proof using.
  intros HF Hlen. unfold range_ok. cbv zeta. rewrite HF. cbn. split_and!; [done..| |].
  - destruct (rq_CountOnly r); [done|]. unfold take_limit. destruct (Z.ltb_spec 0 (rq_Limit r)); [|done].
    rewrite take_ge by lia. done.
  - destruct (rq_CountOnly r); [done|]. cbn. symmetry. apply andb_false_iff. unfold zlen.
    destruct (Z.ltb_spec 0 (rq_Limit r)); [right; apply Z.ltb_ge; lia|by left].
Qed.

Lemma rangeOne_post lin readRev r n H res n' :
  0 ≤ readRev → rq_RangeEnd r = [] → t4_hist n H → rangeOne lin readRev r n = (res, n') → t4_up n' →
  range_post readRev r n H res n'.
Proof using NOk.
  intros Hr He Hh Hres Hup. unfold rangeOne in Hres. destruct (isInternalKey (rq_Key r)) eqn:Ei.
  { destruct (header_inv (λ h, mkRangeResp h [] 0 false) readRev n H res n' Hr Hh Hres Hup) as (H2 & Hl & [->|(Hw & e & ->)]).
    2:{ exists n', H2. by auto. }
    set (rv := if 0 <? readRev then readRev else t4_cur n). exists H2, rv, rv, (if 0 <? readRev then readRev else t4_cur n').
    split; [done|]. pose proof (la_cur _ _ _ _ Hl).
    split; [|unfold window, rv; destruct (0 <? readRev); split_and!; auto; lia].
    pose proof (range_ok_short r H2 rv (if 0 <? readRev then readRev else t4_cur n') []) as Hok.
    rewrite He, user_range_one, Ei in Hok. specialize (Hok eq_refl ltac:(cbn; lia)). by destruct (rq_CountOnly r). }
  destruct (rq_CountOnly r) eqn:Ec.
  - eapply (read_then_header _ (λ H rev, bool_decide (is_Some (value_at H (rq_Key r) rev)))
      (λ h (b : bool), mkRangeResp h [] (if b then 1 else 0) false)) in Hres; [|by apply (t4_Exists_law lin _ [WithRevision readRev])|apply stable_exists|done..].
    destruct res as [resp|e]; [|done]. destruct Hres as (H' & rv & hdr & Hl & Hw & Hle & ->).
    eapply range_single; [done..|].
    pose proof (range_ok_short r H' rv hdr _ eq_refl) as Hok. rewrite Ec, He, user_range_one, Ei in Hok.
    destruct (value_at H' (rq_Key r) rv); apply Hok; cbn; lia.
  - eapply (read_then_header _ (λ H, value_at H (rq_Key r))
      (λ h kv, match kv with
               | Some kv => mkRangeResp h [kvToProtoForRange kv (rq_KeysOnly r)] 1 false
               | None => mkRangeResp h [] 0 false
               end)) in Hres; [|by apply (t4_Get_law lin _ [WithRevision readRev])|apply stable_value|done..].
    destruct res as [resp|e]; [|done]. destruct Hres as (H' & rv & hdr & Hl & Hw & Hle & ->).
    eapply range_single; [done..|].
    pose proof (range_ok_short r H' rv hdr _ eq_refl) as Hok. rewrite Ec, He, user_range_one, Ei in Hok.
    destruct (value_at H' (rq_Key r) rv); apply Hok; cbn; lia.
Qed.

Lemma rangeCountOnly_post lin readRev r n H res n' :
  0 ≤ readRev → rq_RangeEnd r ≠ [] → rq_CountOnly r = true → t4_hist n H →
  rangeCountOnly lin readRev r n = (res, n') → t4_up n' → range_post readRev r n H res n'.
Proof using NOk.
  intros Hr He Hc Hh Hres Hup. unfold rangeCountOnly in Hres.
  assert (∀ H' rv hdr, range_ok r H' rv rv hdr (mkRangeResp (headerAt hdr) []
    (zlen (user_range H' (rq_Key r) (rq_RangeEnd r) rv)) false)) as Hok.
  { intros. unfold range_ok. cbv zeta. by rewrite Hc. }
  destruct (isExactPrefixRange _ _) eqn:Ee.
  - eapply (read_then_header _ (λ H rev, zlen (list_at H (rangeScanPrefix (rq_Key r) (rq_RangeEnd r)) [] rev))
      (λ h c, mkRangeResp h [] c false)) in Hres;
      [|by apply (t4_Count_law lin _ [WithRevision readRev])|apply (stable_comp zlen (λ H, list_at H _ [])), stable_list|done..].
    destruct res as [resp|e]; [|done]. destruct Hres as (H' & rv & hdr & Hl & Hw & Hle & ->).
    eapply range_single; [done..|]. rewrite <- user_range_prefix by done. apply Hok.
  - eapply (read_then_header _ (λ H, list_at H (rangeScanPrefix (rq_Key r) (rq_RangeEnd r)) [])
      (λ h all, mkRangeResp h [] (count_loop (rq_Key r) (rq_RangeEnd r) all 0) false)) in Hres;
      [|by apply (t4_List_law lin _ [WithRevision readRev])|apply stable_list|done..].
    destruct res as [resp|e]; [|done]. destruct Hres as (H' & rv & hdr & Hl & Hw & Hle & ->).
    eapply range_single; [done..|]. rewrite count_loop_spec, <- user_range_scan by done. apply Hok.
Qed.

Lemma rangeScan_post lin readRev r n H res n' :
  0 ≤ readRev → rq_RangeEnd r ≠ [] → rq_CountOnly r = false → t4_hist n H →
  rangeScan lin readRev r n = (res, n') → t4_up n' → range_post readRev r n H res n'.
Proof using NOk.
  intros Hr He Hc Hh Hres Hup. unfold rangeScan in Hres.
  destruct (isExactPrefixRange _ _ && _) eqn:Ee.
  - apply andb_true_iff in Ee as [Ee El]. pose proof (proj1 (Z.ltb_lt _ _) El) as El'.
    set (all := λ H, list_at H (rangeScanPrefix (rq_Key r) (rq_RangeEnd r)) []).
    destruct (reads_inv _ _ _ n H res n' (reads_map_err kvError _ _ (t4_Count_law lin _ [WithRevision readRev] Hr)) Hh Hres Hup
      ltac:(solve_sticky)) as (n1 & H1 & Hl1 & _ & [(a & Ha & Hf)|(e & -> & -> & He1)]).
    2:{ exists n1, H1. split; [done|]. destruct He1 as [He1|He1]; [|by auto].
        pose proof (at_revision_inv n1 readRev (λ rev, zlen (all H1 rev)) Hr) as Hinv. cbn in He1. unfold all in Hinv.
        rewrite He1 in Hinv. tauto. }
    pose proof (at_revision_inv n1 readRev (λ rev, zlen (all H1 rev)) Hr) as Hinv. cbn in Ha. unfold all in Hinv.
    rewrite Ha in Hinv. destruct Hinv as (rv1 & -> & Hle1 & Hrv1). pose proof (la_cur _ _ _ _ Hl1).
    eapply (read_then_header _ (λ H rev, take_limit (rq_Limit r) (all H rev)) (λ h l, mkRangeResp h (map (λ kv, kvToProtoForRange kv (rq_KeysOnly r)) l) _ (rq_Limit r <? _))) in Hf;
      [|by apply (t4_List_law lin _ [WithLimit (rq_Limit r); WithRevision readRev])|apply (stable_comp (take_limit _) all), stable_list|done|apply Hl1|done].
    destruct res as [resp|e].
    + destruct Hf as (H' & rv2 & hdr & Hl2 & Hw & Hle2 & ->).
      exists H', rv1, rv2, hdr. pose proof (later_trans _ _ _ _ _ _ Hl1 Hl2) as Hl. split; [done|].
      pose proof (la_cur _ _ _ _ Hl2). split.
      * unfold range_ok, all. cbv zeta. rewrite Hc, !user_range_prefix, El by done. cbn.
        by rewrite (stable_list _ _ _ _ _ _ _ Hl2 Hle1).
      * unfold window in *. destruct (0 <? readRev); split_and!; auto; lia.
    + destruct Hf as (n2 & H2 & Hl2 & He2). exists n2, H2. split; [by eapply later_trans|done].
  - eapply (read_then_header _ (λ H, list_at H (rangeScanPrefix (rq_Key r) (rq_RangeEnd r)) [])
      (λ h all, let '(total, kvs) := range_loop r all 0 [] in
                mkRangeResp h kvs total ((0 <? rq_Limit r) && (rq_Limit r <? total)))) in Hres;
      [|by apply (t4_List_law lin _ [WithRevision readRev])|apply stable_list|done..].
    destruct res as [resp|e]; [|done]. destruct Hres as (H' & rv & hdr & Hl & Hw & Hle & ->).
    eapply range_single; [done..|]. rewrite range_loop_spec, <- user_range_scan by done. cbv zeta.
    unfold range_ok. cbv zeta. rewrite Hc. cbn. unfold take_limit, zlen at 3. cbn. by rewrite Z.sub_0_r.
Qed.

(** Nothing was there before the first write. *)
Lemma user_range_zero (H : hist) key rangeEnd : (∀ x, x ∈ H → 0 < x.1) → user_range H key rangeEnd 0 = [].
Proof using.
  intros HH. unfold user_range. apply filter_nil_in. intros kv Hkv. apply list_at_listing in Hkv as (_ & _ & Hv).
  unfold value_at, last_at in Hv. rewrite filter_nil_in in Hv; [done|]. intros x Hx [Hle _]. apply HH in Hx. lia.
Qed.

Context (serializableOnly : bool).

Lemma rangePaths_post readRev r n H res n' :
  0 ≤ readRev → t4_hist n H →
  (let lin := negb (rq_Serializable r) && negb serializableOnly in
   if bool_decide (rq_RangeEnd r = []) then rangeOne lin readRev r
   else if rq_CountOnly r then rangeCountOnly lin readRev r
   else rangeScan lin readRev r) n = (res, n') → t4_up n' → range_post readRev r n H res n'.
Proof using NOk.
  intros Hr Hh Hres Hup. cbv zeta in Hres. case_bool_decide.
  - by eapply rangeOne_post.
  - destruct (rq_CountOnly r) eqn:Ec; [by eapply rangeCountOnly_post|by eapply rangeScan_post].
Qed.

(** What Range promises: the count and the pairs of the range at the revision
    asked for, or at the current one; the limit cuts the pairs and not the
    count. *)
Definition range_result (r : RangeRequest) (n : N) (H : hist) (res : result RangeResponse) (n' : N) : Prop :=
  let rev := rq_Revision r in
  match res with
  | Ok resp => ∃ H' rv1 rv2 hdr, later n H n' H' ∧ range_ok r H' rv1 rv2 hdr resp ∧
      (if 0 <? rev then rv1 = rev - 1 ∧ rv2 = rev - 1 ∧ hdr = rev - 1 ∧ t4_compact n ≤ rev - 1
       else t4_cur n ≤ rv1 ∧ rv1 ≤ rv2 ∧ rv2 ≤ hdr ∧ hdr ≤ t4_cur n') ∧
      (rv1 = rv2 ∨ isExactPrefixRange (rq_Key r) (rq_RangeEnd r) = true ∧ 0 < rq_Limit r) ∧
      (rv2 ≤ t4_cur n' ∨ rq_RangeEnd r = [] ∧ isInternalKey (rq_Key r) = true)
  | Err e => range_err (fromEtcdRevision rev) n H e
  end.

Lemma Range_result r n H res n' :
  t4_hist n H → Range serializableOnly r n = (res, n') → t4_up n' → range_result r n H res n'.
Proof using NOk.
  intros Hh Hres Hup. unfold Range in Hres. unfold range_result. cbv zeta in *.
  destruct (Z.ltb_spec 0 (rq_Revision r)) as [Hr|Hr].
  - assert (fromEtcdRevision (rq_Revision r) = rq_Revision r - 1) as Hf.
    { unfold fromEtcdRevision. by rewrite (proj2 (Z.leb_gt _ _)) by lia. }
    rewrite Hf in *. set (rev := rq_Revision r - 1) in *.
    rewrite st_bind_assoc in Hres.
    destruct (reads_inv _ _ _ n H res n' t4_CompactRevision_law Hh Hres Hup ltac:(solve_sticky))
      as (n1 & H1 & Hl1 & _ & [(c & [= <-] & Hc)|(e & -> & -> & [?|Hw])]); [|done|].
    2:{ exists n1, H1. by auto. }
    destruct ((0 <? t4_compact n1) && (rev <? t4_compact n1)) eqn:Ecmp.
    { rewrite st_bind_throw in Hc. injection Hc as <- <-. apply andb_true_iff in Ecmp as [_ Ecmp%Z.ltb_lt].
      exists n1, H1. by auto. }
    assert (t4_compact n ≤ rev) as Hcmp.
    { pose proof (la_compact _ _ _ _ Hl1). apply andb_false_iff in Ecmp as [Ecmp%Z.ltb_ge|Ecmp%Z.ltb_ge]; lia. }
    rewrite st_bind_ret in Hc. destruct (Z.eqb_spec rev 0) as [E0|E0].
    + injection Hc as <- <-. exists H1, 0, 0, 0. rewrite E0 in *.
      pose proof (t4_hist_le n1 H1 (la_hist _ _ _ _ Hl1)) as (Hc0 & _ & Hpos).
      split_and!; [done| |done..|by left|by left].
      assert (user_range H1 (rq_Key r) (rq_RangeEnd r) 0 = []) as Hz by (apply user_range_zero; intros x Hx; by apply Hpos).
      pose proof (range_ok_short r H1 0 0 [] Hz ltac:(cbn; lia)) as Hok. by destruct (rq_CountOnly r).
    + apply (rangePaths_post rev r n1 H1) in Hc; [|lia|apply Hl1|done]. destruct res as [resp|e].
      * destruct Hc as (H' & rv1 & rv2 & hdr & Hl & Hok & Hw1 & Hw2 & H12 & Hone & Hle).
        unfold window in Hw1, Hw2. rewrite (proj2 (Z.ltb_lt 0 rev)) in * by lia. destruct Hw1 as [-> ->], Hw2 as [-> _].
        exists H', rev, rev, rev. split; [by eapply later_trans|]. by split_and!.
      * destruct Hc as (n2 & H2 & Hl2 & He2). exists n2, H2. split; [by eapply later_trans|done].
  - assert (fromEtcdRevision (rq_Revision r) = 0) as Hf.
    { unfold fromEtcdRevision. by rewrite (proj2 (Z.leb_le _ _)) by lia. }
    rewrite Hf in *. rewrite st_bind_ret in Hres.
    apply (rangePaths_post 0 r n H) in Hres; [|done..]. destruct res as [resp|e]; [|done].
    destruct Hres as (H' & rv1 & rv2 & hdr & Hl & Hok & Hw1 & Hw2 & H12 & Hone & Hle).
    exists H', rv1, rv2, hdr. unfold window in *. cbn in Hw1, Hw2. split_and!; try done; lia.
Qed.
End RangeProps.
