(* ===== verification/EtcdLease.v ===== *)
(** * Leases of the etcd surface

    etcd/lease.go and etcd/lease_state.go: a lease is a record under the
    internal prefix of the key space, keys are attached by the lease field of
    their pairs, and an expired or revoked lease takes its keys with it in one
    transaction.  The server runs on a host with a clock and a source of random
    numbers, whose next values are lists. *)

From Stdlib Require Import Floats.SpecFloat.
From S2P Require Import Prelude Bytes Decimal WalEntry Os Json Wal Pebble StoreKeys Store StoreSpec Node NodeSpec NodeReads NodeApi EtcdKv.

(** ** The host *)

Record Host (N : Type) := mkHost { h_node : N; h_clock : list Z; h_rand : list (result Z) }.
Arguments mkHost {N} _ _ _.
Arguments h_node {N} _.
Arguments h_clock {N} _.
Arguments h_rand {N} _.

Definition set_h_node {N} (n : N) (h : Host N) : Host N := mkHost n (h_clock h) (h_rand h).
Definition on_node {N A} (m : ST N A) : ST (Host N) A := zoom h_node set_h_node m.

(** [time.Now().UnixNano()]: the next reading; the last one repeats. *)
Definition timeNow {N} : ST (Host N) Z := λ h,
  match h_clock h with
  | [] => (Ok 0, h)
  | [t] => (Ok t, h)
  | t :: ts => (Ok t, mkHost (h_node h) ts (h_rand h))
  end.

(** Eight bytes of [crypto/rand] as a big-endian number. *)
Definition randRead {N} : ST (Host N) Z := λ h,
  match h_rand h with
  | [] => (Err (ErrText "rand"), h)
  | r :: rs => (r, mkHost (h_node h) (h_clock h) rs)
  end.

(** ** Lease records *)

Definition leasePrefix : bytes := internalPrefix ++ str "lease/".

Record leaseRecord := mkLease { ls_ID : Z; ls_GrantedTTL : Z; ls_ExpiryUnixNs : Z }.

Definition leaseJSON (rec : leaseRecord) : jval :=
  JObj [(str "id", jint (ls_ID rec)); (str "granted_ttl", jint (ls_GrantedTTL rec));
        (str "expiry_unix_ns", jint (ls_ExpiryUnixNs rec))].

Definition leaseFields : list (field leaseRecord) :=
  [ mk_field "id" as_int (λ x r, mkLease x (ls_GrantedTTL r) (ls_ExpiryUnixNs r));
    mk_field "granted_ttl" as_int (λ x r, mkLease (ls_ID r) x (ls_ExpiryUnixNs r));
    mk_field "expiry_unix_ns" as_int (λ x r, mkLease (ls_ID r) (ls_GrantedTTL r) x) ].

Definition marshalLease (rec : leaseRecord) : bytes := print (leaseJSON rec).

Definition errDecodeLease : err := ErrStatus Internal "decode lease".
Definition decodeLease (kv : option KeyValue) : result (option leaseRecord) :=
  match kv with
  | None => Ok None
  | Some kv =>
      match Unmarshal leaseFields (mkLease 0 0 0) (kv_Value kv) with
      | Ok rec => Ok (Some rec)
      | Err _ => Err errDecodeLease
      end
  end.

Definition leaseKey (id : Z) : bytes := leasePrefix ++ fmt_pad 20 id.

Definition errLeaseID : err := ErrStatus InvalidArgument "lease ID must be positive".
Definition errLeaseNotFound : err := ErrStatus NotFound "lease not found".
Definition errLeaseTTL : err := ErrStatus InvalidArgument "lease TTL must be positive".

Definition validateLeaseID (id : Z) : result () := if id <=? 0 then Err errLeaseID else Ok tt.

(** ** Time *)

Definition Second : Z := 10 ^ 9.
Definition maxDuration : Z := 2 ^ 63 - 1.
Definition minDuration : Z := - 2 ^ 63.

(** [time.Now().Add(time.Duration(ttl) * time.Second).UnixNano()] *)
Definition expiryAfter (now ttl : Z) : Z := i64 (now + i64 (i64 ttl * Second)).

(** [t.Sub(u)] saturates. *)
Definition timeSub (t u : Z) : Z := Z.max minDuration (Z.min maxDuration (t - u)).

(** [float64(z)] *)
Definition float64 (z : Z) : spec_float := binary_normalize 53 1024 z 0 false.

(** [d.Seconds()] of a duration that is not negative. *)
Definition Seconds (d : Z) : spec_float :=
  SFadd 53 1024 (float64 (d / Second)) (SFdiv 53 1024 (float64 (d mod Second)) (float64 Second)).

(** [int64(math.Ceil(f))] of a float that is not negative. *)
Definition ceilInt (f : spec_float) : Z :=
  match f with
  | S754_finite false m e => if 0 <=? e then Zpos m * 2 ^ e else (Zpos m + 2 ^ (- e) - 1) / 2 ^ (- e)
  | _ => 0
  end.

Definition ttlRemaining (rec : leaseRecord) (now : Z) : Z :=
  let remaining := timeSub (ls_ExpiryUnixNs rec) now in
  if remaining <=? 0 then 0
  else
    let secs := ceilInt (Seconds remaining) in
    if secs <? 1 then 1 else secs.

(** ** Operations *)

Section Leases.
Context {N : Type} `{NI : T4Node N}.
Local Notation Host := (Host N).

Definition getLease (id : Z) (linearizable : bool) : ST Host leaseRecord :=
  _ ← from_result (validateLeaseID id);
  kv ← on_node (t4_Get linearizable (leaseKey id) []);
  rec ← from_result (decodeLease kv);
  match rec with
  | None => throw errLeaseNotFound
  | Some rec =>
      now ← timeNow;
      if ls_ExpiryUnixNs rec <=? now then throw errLeaseNotFound else mret rec
  end.

Definition putLease (rec : leaseRecord) : ST Host () :=
  _ ← on_node (t4_Put (leaseKey (ls_ID rec)) (marshalLease rec) 0);
  mret tt.

(** The decoded records, in key order. *)
Fixpoint decode_all (kvs : list KeyValue) (out : list leaseRecord) : result (list leaseRecord) :=
  match kvs with
  | [] => Ok out
  | kv :: kvs' =>
      rec ← decodeLease (Some kv);
      decode_all kvs' (match rec with Some rec => out ++ [rec] | None => out end)
  end.

Definition listLeases (linearizable : bool) : ST Host (list leaseRecord) :=
  kvs ← on_node (t4_List linearizable leasePrefix []);
  from_result (decode_all kvs []).

Definition newLeaseID : ST Host Z :=
  buf ← randRead;
  let id := Z.land buf max_int64 in
  mret (if id =? 0 then 1 else id).

Definition collectLeaseKeys (leaseID : Z) (linearizable : bool) : ST Host (list bytes) :=
  kvs ← on_node (t4_List linearizable [] []);
  mret (map kv_Key (filter (λ kv, isInternalKey (kv_Key kv) = false ∧ kv_Lease kv = leaseID) kvs)).

Definition revokeLease (leaseID : Z) : ST Host () :=
  keys ← collectLeaseKeys leaseID true;
  let ops := map (λ key, mkOp TxnDelete key [] 0) keys ++ [mkOp TxnDelete (leaseKey leaseID) [] 0] in
  _ ← on_node (t4_Txn (mkTxn [] ops []));
  mret tt.

Definition errLeaseExists : err := ErrStatus AlreadyExists "lease already exists".
Definition createLease (rec : leaseRecord) : ST Host () :=
  r ← try (on_node (t4_Create (leaseKey (ls_ID rec)) (marshalLease rec) 0));
  match r with
  | Ok _ => mret tt
  | Err e =>
      if bool_decide (e = ErrKeyExists) then throw errLeaseExists
      else throw (ErrStatus Internal "create lease")
  end.

(** [status.Code(err) != codes.AlreadyExists] negated. *)
Definition is_already_exists (e : err) : bool :=
  match e with ErrStatus AlreadyExists _ => true | _ => false end.

(** Up to [attempts] fresh identifiers. *)
Fixpoint grantFresh (attempts : nat) (ttl : Z) : ST Host leaseRecord :=
  match attempts with
  | O => throw (ErrStatus Internal "failed to allocate unique lease ID")
  | Datatypes.S k =>
      r ← try newLeaseID;
      match r with
      | Err _ => throw (ErrStatus Internal "generate lease ID")
      | Ok newID =>
          now ← timeNow;
          let rec := mkLease newID ttl (expiryAfter now ttl) in
          r ← try (createLease rec);
          match r with
          | Ok _ => mret rec
          | Err e => if is_already_exists e then grantFresh k ttl else throw e
          end
      end
  end.

(** The answers hold the header, the identifier and the time to live. *)
Definition LeaseGrant (id ttl : Z) : ST Host (ResponseHeader * Z * Z) :=
  if ttl <=? 0 then throw errLeaseTTL
  else
    rec ← (if id =? 0 then grantFresh 16 ttl
           else
             _ ← from_result (validateLeaseID id);
             now ← timeNow;
             let rec := mkLease id ttl (expiryAfter now ttl) in
             _ ← createLease rec;
             mret rec);
    h ← on_node header;
    mret (h, ls_ID rec, ls_GrantedTTL rec).

Definition LeaseRevoke (id : Z) : ST Host ResponseHeader :=
  _ ← getLease id true;
  _ ← revokeLease id;
  on_node header.

(** One request of the stream. *)
Definition keepAlive (id : Z) : ST Host (ResponseHeader * Z * Z) :=
  rec ← getLease id true;
  now ← timeNow;
  let rec' := mkLease (ls_ID rec) (ls_GrantedTTL rec) (expiryAfter now (ls_GrantedTTL rec)) in
  _ ← putLease rec';
  h ← on_node header;
  mret (h, ls_ID rec', ls_GrantedTTL rec').

(** The requests of the stream in turn, until one fails. *)
Fixpoint LeaseKeepAlive (ids : list Z) : ST Host (list (ResponseHeader * Z * Z)) :=
  match ids with
  | [] => mret []
  | id :: ids' => resp ← keepAlive id; resps ← LeaseKeepAlive ids'; mret (resp :: resps)
  end.

Definition LeaseTimeToLive (id : Z) (wantKeys : bool) : ST Host (ResponseHeader * Z * Z * Z * list bytes) :=
  rec ← getLease id true;
  h ← on_node header;
  now ← timeNow;
  keys ← (if wantKeys then collectLeaseKeys id true else mret []);
  mret (h, ls_ID rec, ttlRemaining rec now, ls_GrantedTTL rec, keys).

Definition LeaseLeases : ST Host (ResponseHeader * list Z) :=
  leases ← listLeases true;
  h ← on_node header;
  now ← timeNow;
  mret (h, map ls_ID (filter (λ rec, 0 < ttlRemaining rec now) leases)).

(** The expired leases of a listing, revoked one after the other; a failure is
    ignored. *)
Fixpoint revoke_expired (now : Z) (leases : list leaseRecord) : ST Host () :=
  match leases with
  | [] => mret tt
  | rec :: leases' =>
      (if ttlRemaining rec now =? 0 then (_ ← try (revokeLease (ls_ID rec)); mret tt) else mret tt);;
      revoke_expired now leases'
  end.

(** One tick of the loop; [false] when it ends. *)
Definition leaseTick : ST Host bool :=
  leader ← on_node t4_IsLeader;
  if negb leader then mret true
  else
    r ← try (listLeases false);
    match r with
    | Err e => mret (negb (bool_decide (e = ErrClosed)))
    | Ok leases =>
        now ← timeNow;
        revoke_expired now leases;;
        mret true
    end.
End Leases.
