(* ===== verification/EtcdTxn.v ===== *)
(** * Puts and transactions of the etcd surface

    Put and Txn of etcd/kv.go: the conversion of comparisons and operations to
    those of the node, the check of the leases they name, the transaction, and
    the answers of the branch that was taken. *)

From S2P Require Import Prelude Bytes WalEntry Os Wal Pebble StoreKeys Store StoreSpec Peer Node NodeSpec NodeReads NodeApi EtcdKv EtcdLease.

(** ** Messages *)

Record PutRequest := mkPutReq { pq_Key : bytes; pq_Value : bytes; pq_Lease : Z; pq_PrevKv : bool }.
Record PutResponse := mkPutResp { pp_Header : ResponseHeader; pp_PrevKv : option pbKeyValue }.

(** [Compare.Result] and [Compare.Target] of the etcd API. *)
Inductive CompareResult := Compare_EQUAL | Compare_GREATER | Compare_LESS | Compare_NOT_EQUAL | CompareResult_other (z : Z).
Inductive CompareTarget :=
  | Compare_VERSION | Compare_CREATE | Compare_MOD | Compare_VALUE | Compare_LEASE | CompareTarget_other (z : Z).

(** The [TargetUnion] of a comparison. *)
Inductive TargetUnion :=
  | TU_None | TU_Version (z : Z) | TU_CreateRevision (z : Z) | TU_ModRevision (z : Z) | TU_Value (v : bytes) | TU_Lease (z : Z).

Record Compare := mkCompare {
  cp_Result : CompareResult; cp_Target : CompareTarget; cp_Key : bytes; cp_Union : TargetUnion }.

(** The getters of the generated code give the zero value of another member. *)
Definition GetVersion (c : Compare) : Z := match cp_Union c with TU_Version z => z | _ => 0 end.
Definition GetCreateRevision (c : Compare) : Z := match cp_Union c with TU_CreateRevision z => z | _ => 0 end.
Definition GetModRevision (c : Compare) : Z := match cp_Union c with TU_ModRevision z => z | _ => 0 end.
Definition GetValue (c : Compare) : bytes := match cp_Union c with TU_Value v => v | _ => [] end.
Definition GetLease (c : Compare) : Z := match cp_Union c with TU_Lease z => z | _ => 0 end.

(** A nested transaction is refused whatever it holds. *)
Inductive RequestOp :=
  | RequestRange (r : RangeRequest)
  | RequestPut (r : PutRequest)
  | RequestDeleteRange (r : DeleteRangeRequest)
  | RequestTxn
  | RequestNone.

Inductive ResponseOp :=
  | ResponseRange (r : RangeResponse)
  | ResponsePut (r : PutResponse)
  | ResponseDeleteRange (r : DeleteRangeResponse).

Record pbTxnRequest := mkPbTxn { pt_Compare : list Compare; pt_Success : list RequestOp; pt_Failure : list RequestOp }.
Record pbTxnResponse := mkPbTxnResp { px_Header : ResponseHeader; px_Succeeded : bool; px_Responses : list ResponseOp }.

(** ** Conversions *)

Definition errCompareResult : err := ErrStatus Unimplemented "unsupported compare result".
Definition errCompareTarget : err := ErrStatus Unimplemented "unsupported compare target".
Definition errRangeDelete : err := ErrStatus Unimplemented "range deletes are not supported in transaction branches".
Definition errNestedTxn : err := ErrStatus Unimplemented "nested transactions are not supported".

Definition convertResult (r : CompareResult) : result Z :=
  match r with
  | Compare_EQUAL => Ok TxnCondEqual
  | Compare_NOT_EQUAL => Ok TxnCondNotEqual
  | Compare_GREATER => Ok TxnCondGreater
  | Compare_LESS => Ok TxnCondLess
  | CompareResult_other _ => Err errCompareResult
  end.

Definition convertCompare (cmp : Compare) : result TxnCondition :=
  _ ← validateUserKey (cp_Key cmp);
  res ← convertResult (cp_Result cmp);
  let key := cp_Key cmp in
  match cp_Target cmp with
  | Compare_MOD => Ok (mkCond key TxnCondMod res (fromEtcdRevision (GetModRevision cmp)) 0 0 [] 0)
  | Compare_VERSION => Ok (mkCond key TxnCondVersion res 0 0 (GetVersion cmp) [] 0)
  | Compare_CREATE => Ok (mkCond key TxnCondCreate res 0 (fromEtcdRevision (GetCreateRevision cmp)) 0 [] 0)
  | Compare_VALUE => Ok (mkCond key TxnCondValue res 0 0 0 (GetValue cmp) 0)
  | Compare_LEASE => Ok (mkCond key TxnCondLease res 0 0 0 [] (GetLease cmp))
  | CompareTarget_other _ => Err errCompareTarget
  end.

Fixpoint convertCompares (cmps : list Compare) (conds : list TxnCondition) : result (list TxnCondition) :=
  match cmps with
  | [] => Ok conds
  | cmp :: cmps' => cond ← convertCompare cmp; convertCompares cmps' (conds ++ [cond])
  end.

Fixpoint convertWriteOps (ops : list RequestOp) (acc : list TxnOp) : result (list TxnOp) :=
  match ops with
  | [] => Ok acc
  | RequestPut p :: ops' =>
      _ ← validateUserKey (pq_Key p);
      convertWriteOps ops' (acc ++ [mkOp TxnPut (pq_Key p) (pq_Value p) (pq_Lease p)])
  | RequestDeleteRange d :: ops' =>
      _ ← validateUserKey (dq_Key d);
      if 0 <? zlen (dq_RangeEnd d) then Err errRangeDelete
      else convertWriteOps ops' (acc ++ [mkOp TxnDelete (dq_Key d) [] 0])
  | RequestRange _ :: ops' => convertWriteOps ops' acc
  | RequestTxn :: _ => Err errNestedTxn
  | RequestNone :: ops' => convertWriteOps ops' acc
  end.

(** ** Handlers *)

Section Txn.
Context {N : Type} `{NI : T4Node N}.
Context (serializableOnly : bool).
Local Notation Host := (Host N).

Fixpoint validateTxnOpLeases (ops : list RequestOp) : ST Host () :=
  match ops with
  | [] => mret tt
  | RequestPut p :: ops' =>
      (if negb (pq_Lease p =? 0) then (_ ← getLease (pq_Lease p) true; mret tt) else mret tt);;
      validateTxnOpLeases ops'
  | _ :: ops' => validateTxnOpLeases ops'
  end.

Definition Put (r : PutRequest) : ST Host PutResponse :=
  _ ← from_result (validateUserKey (pq_Key r));
  (if negb (pq_Lease r =? 0) then (_ ← getLease (pq_Lease r) true; mret tt) else mret tt);;
  prev ← (if pq_PrevKv r then on_node (t4_Get false (pq_Key r) []) else mret None);
  commitRev ← on_node (st_map_err kvError (t4_Put (pq_Key r) (pq_Value r) (pq_Lease r)));
  mret (mkPutResp (headerAt commitRev) (kvToProto <$> prev)).

Fixpoint buildTxnResponses (ops : list RequestOp) (deletedKeys : list bytes) (commitRev : Z)
    (responses : list ResponseOp) : ST Host (list ResponseOp) :=
  match ops with
  | [] => mret responses
  | RequestPut _ :: ops' =>
      buildTxnResponses ops' deletedKeys commitRev (responses ++ [ResponsePut (mkPutResp (headerAt commitRev) None)])
  | RequestDeleteRange d :: ops' =>
      let deleted := if bool_decide (dq_Key d ∈ deletedKeys) then 1 else 0 in
      buildTxnResponses ops' deletedKeys commitRev
        (responses ++ [ResponseDeleteRange (mkDelResp (headerAt commitRev) deleted [])])
  | RequestRange r :: ops' =>
      resp ← on_node (Range serializableOnly r);
      buildTxnResponses ops' deletedKeys commitRev (responses ++ [ResponseRange resp])
  | RequestTxn :: _ => throw errNestedTxn
  | RequestNone :: ops' => buildTxnResponses ops' deletedKeys commitRev responses
  end.

Definition Txn (r : pbTxnRequest) : ST Host pbTxnResponse :=
  conds ← from_result (convertCompares (pt_Compare r) []);
  successOps ← from_result (map_err kvError (convertWriteOps (pt_Success r) []));
  failureOps ← from_result (convertWriteOps (pt_Failure r) []);
  validateTxnOpLeases (pt_Success r);;
  validateTxnOpLeases (pt_Failure r);;
  txnResp ← on_node (t4_Txn (mkTxn conds successOps failureOps));
  let selectedBranch := if tp_Succeeded txnResp then pt_Success r else pt_Failure r in
  responses ← buildTxnResponses selectedBranch (tp_DeletedKeys txnResp) (tp_Revision txnResp) [];
  mret (mkPbTxnResp (headerAt (tp_Revision txnResp)) (tp_Succeeded txnResp) responses).
End Txn.
