(* ===== verification/EtcdTxnProps.v ===== *)
(** * Correctness of puts, transactions and leases

    The handlers that write, on a node that others write to: a put and a
    transaction are decided on the history they find and commit at one
    revision, comparisons mean what they mean on the wire, and revoking a lease
    deletes its keys and its record together. *)

From S2P Require Import Prelude Bytes Decimal WalEntry Os Json JsonProps Wal Pebble StoreKeys Store StoreSpec StoreRead StoreRefine Peer Node NodeSpec NodeInv NodeReads NodeApi EtcdKv EtcdKvProps EtcdLease EtcdTxn.

(** ** The host *)

Section HostLaws.
Context {N : Type} `{NI : T4Node N} `{NV : T4View N} `{NOk : !T4NodeOk N}.
Local Notation Host := (Host N).
Implicit Types h : Host.

#[global] Instance host_view : T4View Host := {|
  t4_hist h H := t4_hist (h_node h) H;
  t4_cur h := t4_cur (h_node h);
  t4_compact h := t4_compact (h_node h);
  t4_spare h k := t4_spare (h_node h) k;
  t4_healthy h := t4_healthy (h_node h);
  t4_up h := t4_up (h_node h);
  t4_ours h key := t4_ours (h_node h) key |}.

Lemma host_later h H h' H' : later h H h' H' ↔ later (h_node h) H (h_node h') H'.
Proof using. by split; intros [? ? ? ?]; split. Qed.

Lemma on_node_inv {A} (m : ST N A) h r h' :
  on_node m h = (r, h') → m (h_node h) = (r, h_node h') ∧ h_clock h' = h_clock h ∧ h_rand h' = h_rand h.
Proof using. unfold on_node, zoom. destruct (m (h_node h)) as [r0 n1]. by intros [= <- <-]. Qed.

#[global] Instance on_node_sticky {A} (m : ST N A) : Sticky m → Sticky (on_node m).
Proof using. intros Hm h r h' (Hr & _)%on_node_inv Hup. by eapply Hm. Qed.

#[global] Instance on_node_reader {A} (m : ST N A) : Reader m → Reader (on_node m).
Proof using.
  intros [Hs Hm]. split; [apply _|]. intros h H r h' Hh (Hr & _)%on_node_inv Hup.
  destruct (Hm _ H _ _ Hh Hr Hup) as (H' & Hl & Hk). exists H'. by rewrite host_later.
Qed.

#[global] Instance timeNow_reader : Reader (N := Host) timeNow.
Proof using.
  split.
  - intros h r h'. unfold timeNow. destruct (h_clock h) as [|t [|]]; by intros [= <- <-].
  - intros h H r h' Hh Hr _. exists H. unfold timeNow in Hr.
    destruct (h_clock h) as [|t [|]]; injection Hr as <- <-; (split; [by apply host_later, later_refl|done]).
Qed.

#[global] Instance header_reader : Reader (N := N) header.
Proof using NOk. unfold header. apply _. Qed.

#[global] Instance getLease_reader id lin : Reader (N := Host) (getLease id lin).
Proof using NOk.
  unfold getLease. apply reader_bind; [apply _|intros _]. apply reader_bind; [apply _|intros kv].
  apply reader_bind; [apply _|intros [rec|]]; apply _.
Qed.

#[global] Instance validateTxnOpLeases_reader ops : Reader (N := Host) (validateTxnOpLeases ops).
Proof using NOk. induction ops as [|[| | | |] ops IH]; cbn [validateTxnOpLeases]; apply _. Qed.

#[global] Instance collectLeaseKeys_reader id lin : Reader (N := Host) (collectLeaseKeys id lin).
Proof using NOk. unfold collectLeaseKeys. apply _. Qed.

(** ** Writes *)

(** The operation was decided on [H ++ K] and its records joined the history. *)
Definition wrote (n : N) (H : hist) (op : cop) (ans : answer) (n' : N) (H' : hist) : Prop :=
  ∃ K recs cur rev, H' = (H ++ K) ++ recs ∧ later n H n' H' ∧ t4_cur n ≤ cur < rev ∧
    (∀ x, x ∈ H ++ K → x.1 ≤ cur) ∧ (recs ≠ [] → t4_cur n' = rev) ∧ cur ≤ t4_cur n' ∧
    spec_op (H ++ K) cur rev op = (recs, Ok ans).

Lemma op_wrote n H k op ans n' :
  t4_hist n H → op_fits (t4_compact n) op → t4_spare n (S k) → t4_op op n = (Ok ans, n') → t4_up n' →
  ∃ H', wrote n H op ans n' H' ∧ t4_spare n' k.
Proof using NOk.
  intros Hh Hf Hk Hr Hup.
  destruct (t4_op_law n H k op _ n' Hh Hf Hk Hr Hup) as (K & recs & cur & rev & Hg & _ & Hk' & Hc & Hle & Hc' & Hrev & Hs).
  exists ((H ++ K) ++ recs). split; [|done]. exists K, recs, cur, rev. split; [done|].
  destruct Hg as (Hh' & H1 & H2 & H3). rewrite <- app_assoc. split; [split; [done..|by exists (K ++ recs)]|].
  split_and!; try done; try lia. destruct Hs as [Hs|(_ & _ & e & ?)]; done.
Qed.

(** A read of the current value. *)
Lemma get_inv lin key n H o n' :
  t4_hist n H → t4_Get lin key [] n = (Ok o, n') → t4_up n' →
  ∃ H', later n H n' H' ∧ (∀ k, t4_spare n k → t4_spare n' k) ∧ o = value_at H' key (t4_cur n').
Proof using NOk.
  intros Hh Hr Hup. destruct (t4_Get_law lin key [] ltac:(done) n H _ n' Hh Hr Hup) as (K & (Hg & H1 & H2 & H3) & _ & Hk & Ha).
  exists (H ++ K). split; [split; [done..|by exists K]|]. split; [done|].
  destruct Ha as [Ha|(_ & e & ?)]; [|done]. by injection Ha.
Qed.

Lemma list_inv lin prefix n H l n' :
  t4_hist n H → t4_List lin prefix [] n = (Ok l, n') → t4_up n' →
  ∃ H', later n H n' H' ∧ (∀ k, t4_spare n k → t4_spare n' k) ∧ l = list_at H' prefix [] (t4_cur n').
Proof using NOk.
  intros Hh Hr Hup. destruct (t4_List_law lin prefix [] ltac:(done) n H _ n' Hh Hr Hup) as (K & (Hg & H1 & H2 & H3) & _ & Hk & Ha).
  exists (H ++ K). split; [split; [done..|by exists K]|]. split; [done|].
  destruct Ha as [Ha|(_ & e & ?)]; [|done]. by injection Ha.
Qed.
End HostLaws.

(** ** Deletes in a transaction *)

Definition del_op (key : bytes) : TxnOp := mkOp TxnDelete key [] 0.

Lemma deletes_record V rev keys r :
  r ∈ omap (op_record V rev) (map del_op keys) →
  rc_key r ∈ keys ∧ rc_delete r = true ∧ is_Some (vlive V (rc_key r)).
Proof.
  intros (o & Ho & Hr)%list_elem_of_omap. apply list_elem_of_In, in_map_iff in Ho as (key & <- & Hk%list_elem_of_In).
  cbn in Hr. destruct (vlive V key) as [kv|] eqn:E; [|done]. injection Hr as <-. cbn. by rewrite E.
Qed.

Lemma deletes_live V rev keys key kv :
  key ∈ keys → vlive V key = Some kv → delete_record key kv ∈ omap (op_record V rev) (map del_op keys).
Proof.
  intros Hk Hv. apply list_elem_of_omap. exists (del_op key). split.
  - apply list_elem_of_In, in_map_iff. exists key. by rewrite <- list_elem_of_In.
  - cbn. by rewrite Hv.
Qed.

(** Deletes leave the other keys, and none of theirs. *)
Lemma deletes_effect V rev keys key :
  vlive (V ++ at_rev rev (omap (op_record V rev) (map del_op keys))) key =
  if bool_decide (key ∈ keys) then None else vlive V key.
Proof.
  set (R := omap _ _). unfold vlive. rewrite newest_app.
  destruct (newest (at_rev rev R) key) as [[q r]|] eqn:E.
  - apply newest_elem in E as [Hin Hk]. cbn in Hk. unfold at_rev in Hin.
    apply list_elem_of_In, in_map_iff in Hin as (r' & [= <- <-] & Hin%list_elem_of_In).
    destruct (deletes_record V rev keys r' Hin) as (Hkeys & Hd & _). rewrite Hk in Hkeys.
    rewrite bool_decide_true by done. cbn. by rewrite Hd.
  - case_bool_decide as Hk; [|done]. destruct (vlive V key) as [kv|] eqn:Ev; [|done].
    exfalso. pose proof (deletes_live V rev keys key kv Hk Ev) as Hin.
    assert ((rev, delete_record key kv) ∈ filter (of_key key) (at_rev rev R)) as Hf.
    { apply list_elem_of_filter. split; [done|]. apply list_elem_of_In, in_map_iff. eexists. by rewrite <- list_elem_of_In. }
    unfold newest in E. apply last_None in E. rewrite E in Hf. by apply not_elem_of_nil in Hf.
Qed.

(** A transaction of deletes that succeeds. *)
Lemma deletes_spec V cur rev keys recs ans :
  spec_op V cur rev (CTxn (mkTxn [] (map del_op keys) [])) = (recs, Ok ans) →
  (∀ key, vlive (V ++ recs) key = if bool_decide (key ∈ keys) then None else vlive V key) ∧
  recs = at_rev rev (omap (op_record V rev) (map del_op keys)) ∧ zlen recs ≤ 65535 ∧
  an_DeletedKeys ans = map (λ x, rc_key x.2) recs ∧ an_Revision ans = (if bool_decide (recs = []) then cur else rev).
Proof.
  cbn [spec_op forallb tr_Conditions tr_Success]. set (R := omap _ _).
  assert (∀ key, vlive (V ++ at_rev rev R) key = if bool_decide (key ∈ keys) then None else vlive V key) as HR.
  { intros key. apply deletes_effect. }
  case_bool_decide as HE.
  - intros [= <- <-]. rewrite HE in *. done.
  - destruct (Z.ltb_spec 65535 (zlen R)) as [|Hlen]; [done|]. case_bool_decide; [|done]. cbn [negb]. intros [= <- <-].
    split; [done|]. split; [done|]. split; [unfold zlen, at_rev in *; by rewrite length_map|].
    split; [|by rewrite bool_decide_false by (unfold at_rev; intros ?%map_eq_nil; done)].
    cbn. unfold at_rev. rewrite map_map. cbn. f_equal. apply filter_all_in. intros r Hr.
    by destruct (deletes_record V rev keys r Hr) as (_ & ? & _).
Qed.

(** ** Leases *)

(** The user keys attached to a lease. *)
Definition attached (H : hist) (id rev : Z) : list bytes :=
  map kv_Key (filter (λ kv, isInternalKey (kv_Key kv) = false ∧ kv_Lease kv = id) (list_at H [] [] rev)).

Lemma lease_roundtrip_aux rec :
  is_i64 (ls_ID rec) → is_i64 (ls_GrantedTTL rec) → is_i64 (ls_ExpiryUnixNs rec) →
  Unmarshal leaseFields (mkLease 0 0 0) (marshalLease rec) = Ok rec.
Proof.
  intros H1 H2 H3. unfold marshalLease. apply Unmarshal_print.
  - unfold leaseJSON. solve_jwf.
  - unfold decode_val, leaseJSON. store_fields. by destruct rec.
Qed.

Lemma ndigits_at_most f z : (ndigits f z ≤ Datatypes.S f)%nat.
Proof. revert z. induction f as [|f IH]; intros z; cbn; [lia|]. destruct (z <? 10); [lia|]. specialize (IH (z / 10)). lia. Qed.

Lemma leaseKey_fits id : is_u32 (zlen (leaseKey id)).
Proof.
  unfold leaseKey, is_u32, zlen. rewrite length_app.
  assert (length (fmt_pad 20 id) ≤ 60)%nat as Hl; [|change (length leasePrefix) with 10%nat; lia].
  assert (∀ w z, (w ≤ 20 → length (pad0 w (dec z)) ≤ 40)%nat) as Hp.
  { intros w z Hw. unfold pad0, dec. rewrite length_app, length_replicate, !length_digits. pose proof (ndigits_at_most 19 z). lia. }
  unfold fmt_pad. destruct (id <? 0); [rewrite length_app|].
  - specialize (Hp 19%nat (- id) ltac:(lia)). change (20 - 1)%nat with 19%nat. change (length (str "-")) with 1%nat. lia.
  - specialize (Hp 20%nat id ltac:(lia)). lia.
Qed.

Section LeaseProps.
Context {N : Type} `{NI : T4Node N} `{NV : T4View N} `{NOk : !T4NodeOk N}.
Local Notation Host := (Host N).
Implicit Types h : Host.

Lemma attached_fits (n : N) H id rev : t4_hist n H →
  Forall (λ o, fits (to_Key o) (to_Value o) (to_Lease o)) (map del_op (attached H id rev ++ [leaseKey id])).
Proof using NOk.
  intros Hh. apply Forall_forall. intros o Ho. apply list_elem_of_In, in_map_iff in Ho as (key & <- & Hk%list_elem_of_In).
  unfold fits. cbn. split; [|split; [by vm_compute|by vm_compute]].
  apply elem_of_app in Hk as [Hk| ->%list_elem_of_singleton]; [|apply leaseKey_fits].
  unfold attached in Hk. apply list_elem_of_In, in_map_iff in Hk as (kv & <- & Hk%list_elem_of_In).
  apply list_elem_of_filter in Hk as [_ Hk]. apply list_at_listing in Hk as (_ & _ & Hv).
  pose proof (t4_hist_keys n H Hh) as Hf. unfold value_at in Hv.
  destruct (last_at H (kv_Key kv) rev) as [[q r]|] eqn:E; [|done].
  apply last_at_elem in E as (Hin & _ & <-). by apply (proj1 (Forall_forall _ _) Hf) in Hin.
Qed.

Lemma revokeLease_correct id h H h' :
  t4_hist h H → t4_spare h 1 → revokeLease id h = (Ok tt, h') → t4_up h' →
  ∃ hl Hl Hd recs rev, later h H hl Hl ∧ later h H h' (Hd ++ recs) ∧ Hl `prefix_of` Hd ∧
    (∀ x, x ∈ recs → x.1 = rev) ∧
    let doomed := attached Hl id (t4_cur hl) ++ [leaseKey id] in
    ∀ key, vlive (Hd ++ recs) key = if bool_decide (key ∈ doomed) then None else vlive Hd key.
Proof using NOk.
  intros Hh Hsp Hr Hup. unfold revokeLease in Hr.
  apply bind_ok_inv in Hr as (keys & h1 & Hc & Hr). apply bind_ok_inv in Hr as (resp & h2 & Ht & [= ->]).
  unfold collectLeaseKeys in Hc. apply bind_ok_inv in Hc as (kvs & h1' & Hc & [= <- <-]).
  apply on_node_inv in Hc as (Hc & _). apply on_node_inv in Ht as (Ht & _).
  unfold t4_Txn in Ht. apply bind_ok_inv in Ht as (ans & n2 & Ht & [= <- ->]).
  assert (t4_up (h_node h1')) as Hup1 by (by eapply (t4_op_sticky (N := N))).
  destruct (list_inv _ _ (h_node h) H _ _ Hh Hc Hup1) as (Hl & Hll & Hk & ->).
  set (doomed := attached Hl id (t4_cur (h_node h1')) ++ [leaseKey id]).
  match type of Ht with t4_op (CTxn (mkTxn _ ?ops _)) _ = _ =>
    assert (ops = map del_op doomed) as Hops by (unfold doomed; by rewrite map_app) end.
  rewrite Hops in Ht.
  assert (op_fits (t4_compact (h_node h1')) (CTxn (mkTxn [] (map del_op doomed) []))) as Hfit.
  { cbn. rewrite app_nil_r. apply (attached_fits (h_node h1')), Hll. }
  destruct (op_wrote _ Hl 0 _ _ _ (la_hist _ _ _ _ Hll) Hfit (Hk _ Hsp) Ht Hup)
    as (H' & (K & recs & cur & rev & -> & Hl2 & _ & _ & _ & _ & Hs) & _).
  destruct (deletes_spec _ _ _ _ _ _ Hs) as (Hv & -> & _).
  exists h1', Hl, (Hl ++ K), (at_rev rev (omap (op_record (Hl ++ K) rev) (map del_op doomed))), rev.
  split; [by apply host_later|]. split; [apply host_later; by eapply later_trans|].
  split; [by apply prefix_app_r|]. split; [|done].
  intros x Hx. apply list_elem_of_In, in_map_iff in Hx as (r & <- & _). done.
Qed.
End LeaseProps.

(** ** Comparisons *)

Definition wire_compare (r : CompareResult) (a b : Z) : bool :=
  match r with
  | Compare_EQUAL => a =? b
  | Compare_NOT_EQUAL => negb (a =? b)
  | Compare_GREATER => b <? a
  | Compare_LESS => a <? b
  | CompareResult_other _ => false
  end.

(** A comparison of the pair as it is seen on the wire; the numbers of an
    absent key are 0 and its value is empty. *)
Definition compare_holds (cmp : Compare) (o : option pbKeyValue) : bool :=
  let num (f : pbKeyValue → Z) := match o with Some kv => f kv | None => 0 end in
  match cp_Target cmp with
  | Compare_MOD => wire_compare (cp_Result cmp) (num pk_ModRevision) (GetModRevision cmp)
  | Compare_CREATE => wire_compare (cp_Result cmp) (num pk_CreateRevision) (GetCreateRevision cmp)
  | Compare_VERSION => wire_compare (cp_Result cmp) (num pk_Version) (GetVersion cmp)
  | Compare_LEASE => wire_compare (cp_Result cmp) (num pk_Lease) (GetLease cmp)
  | Compare_VALUE =>
      let v := match o with Some kv => pk_Value kv | None => [] end in
      match cp_Result cmp with
      | Compare_EQUAL => bool_decide (v = GetValue cmp)
      | Compare_NOT_EQUAL => negb (bool_decide (v = GetValue cmp))
      | _ => false
      end
  | CompareTarget_other _ => false
  end.

(** Wire revisions a comparison can name: 0 for an absent key, or one that a
    pair can have. *)
Definition plain_compare (cmp : Compare) : Prop :=
  match cp_Target cmp with
  | Compare_MOD => 0 ≤ GetModRevision cmp ∧ GetModRevision cmp ≠ 1
  | Compare_CREATE => 0 ≤ GetCreateRevision cmp ∧ GetCreateRevision cmp ≠ 1
  | _ => True
  end.

Definition pair_ok (kv : KeyValue) : Prop :=
  0 < kv_CreateRevision kv ≤ kv_Revision kv ∧ valid_rev (kv_Revision kv + 1) ∧ 0 < kv_Version kv.

Lemma toEtcd_id rev : 0 ≤ rev → valid_rev (rev + 1) → toEtcdRevision rev = rev + 1.
Proof. intros H0 Hv. unfold toEtcdRevision, valid_rev in *. apply i64_id. unfold is_i64. lia. Qed.

Local Ltac zbool :=
  repeat match goal with
    | |- context [?a =? ?b] => destruct (Z.eqb_spec a b); try lia
    | |- context [?a <? ?b] => destruct (Z.ltb_spec a b); try lia
    end; try done; lia.

Lemma shifted_compare r (a : option Z) v c :
  convertResult r = Ok c → 0 ≤ v → v ≠ 1 → (∀ x, a = Some x → 0 < x) →
  wire_compare r (match a with Some x => x + 1 | None => 0 end) v =
  wire_compare r (match a with Some x => x | None => 0 end) (fromEtcdRevision v).
Proof.
  intros _ Hv H1 Ha. unfold fromEtcdRevision. destruct (Z.leb_spec v 0).
  - replace v with 0 by lia. destruct a as [x|]; [|done]. specialize (Ha x eq_refl). destruct r; cbn [wire_compare]; zbool.
  - destruct a as [x|]; [specialize (Ha x eq_refl)|]; destruct r; cbn [wire_compare]; zbool.
Qed.

Lemma compare_converted cmp c o :
  convertCompare cmp = Ok c → plain_compare cmp → (∀ kv, o = Some kv → pair_ok kv) →
  tc_Key c = cp_Key cmp ∧ txnCondMatches c o = compare_holds cmp (kvToProto <$> o).
Proof.
  intros Hc Hp Ho. unfold convertCompare in Hc. destruct (validateUserKey _); [|done]. cbn in Hc.
  destruct (convertResult (cp_Result cmp)) as [res|] eqn:Er; [|done]. cbn in Hc.
  assert (∀ a b, (if res =? TxnCondEqual then a =? b
    else if res =? TxnCondNotEqual then negb (a =? b)
    else if res =? TxnCondGreater then b <? a
    else if res =? TxnCondLess then a <? b
    else false) = wire_compare (cp_Result cmp) a b) as Hw.
  { intros x y. destruct (cp_Result cmp); cbn in Er; simplify_eq; done. }
  unfold plain_compare in Hp. unfold compare_holds, txnCondMatches.
  destruct (cp_Target cmp); [injection Hc as <-; cbn; (split; [done|]); rewrite ?Hw; clear Hw..|done].
  - destruct o as [kv|]; [|done]. cbn. destruct (Ho kv eq_refl) as (_ & _ & Hver).
    rewrite (proj2 (Z.ltb_lt 0 _)) by lia. by rewrite (proj2 (Z.leb_gt _ _)) by lia.
  - destruct o as [kv|]; [destruct (Ho kv eq_refl) as (Hcr & Hv & _)|]; cbn.
    + rewrite toEtcd_id by (unfold valid_rev in *; lia). symmetry.
      apply (shifted_compare _ (Some (kv_CreateRevision kv)) _ res Er); [lia|lia|]. intros x [= <-]. lia.
    + symmetry. apply (shifted_compare _ None _ res Er); [lia|lia|done].
  - destruct o as [kv|]; [destruct (Ho kv eq_refl) as (Hcr & Hv & _)|]; cbn.
    + rewrite toEtcd_id by (done || lia). symmetry.
      apply (shifted_compare _ (Some (kv_Revision kv)) _ res Er); [lia|lia|]. intros x [= <-]. lia.
    + symmetry. apply (shifted_compare _ None _ res Er); [lia|lia|done].
  - destruct (cp_Result cmp); cbn in Er; simplify_eq; by destruct o.
  - by destruct o.
Qed.

(** ** Transactions *)

(** The write of a request, none for a read. *)
Definition write_op (op : RequestOp) : option TxnOp :=
  match op with
  | RequestPut p => Some (mkOp TxnPut (pq_Key p) (pq_Value p) (pq_Lease p))
  | RequestDeleteRange d => Some (mkOp TxnDelete (dq_Key d) [] 0)
  | _ => None
  end.

Definition op_allowed (op : RequestOp) : Prop :=
  match op with
  | RequestPut p => isInternalKey (pq_Key p) = false
  | RequestDeleteRange d => isInternalKey (dq_Key d) = false ∧ dq_RangeEnd d = []
  | RequestTxn => False
  | _ => True
  end.

Lemma validate_inv key u : validateUserKey key = Ok u → isInternalKey key = false.
Proof. unfold validateUserKey. by destruct (isInternalKey key). Qed.

Lemma convertWriteOps_spec ops : ∀ acc res,
  convertWriteOps ops acc = Ok res → res = acc ++ omap write_op ops ∧ Forall op_allowed ops.
Proof.
  induction ops as [|op ops IH]; intros acc res; cbn [convertWriteOps].
  { intros [= <-]. by rewrite app_nil_r. }
  destruct op as [q|p|d| |]; [| | |done|].
  - intros [-> Hf]%IH. split; [done|by constructor].
  - destruct (validateUserKey (pq_Key p)) eqn:Ev; [|done]. intros [-> Hf]%IH. rewrite <- app_assoc.
    split; [done|]. constructor; [by eapply validate_inv|done].
  - destruct (validateUserKey (dq_Key d)) eqn:Ev; [|done]. cbn. destruct (Z.ltb_spec 0 (zlen (dq_RangeEnd d))) as [|Hz]; [done|].
    intros [-> Hf]%IH. rewrite <- app_assoc. split; [done|]. constructor; [|done].
    split; [by eapply validate_inv|]. destruct (dq_RangeEnd d); [done|]. rewrite zlen_cons in Hz.
    pose proof (zlen_nonneg l). lia.
  - intros [-> Hf]%IH. split; [done|by constructor].
Qed.

Lemma convertCompares_spec cmps : ∀ acc conds,
  convertCompares cmps acc = Ok conds →
  ∃ cs, conds = acc ++ cs ∧ Forall2 (λ cmp c, convertCompare cmp = Ok c) cmps cs.
Proof.
  induction cmps as [|cmp cmps IH]; intros acc conds; cbn [convertCompares].
  { intros [= <-]. exists []. by rewrite app_nil_r. }
  destruct (convertCompare cmp) as [c|] eqn:Ec; [|done]. intros (cs & -> & Hf)%IH.
  exists (c :: cs). rewrite <- app_assoc. split; [done|by constructor].
Qed.

Lemma vlive_pair_ok V cur key kv :
  VInv V → (∀ x, x ∈ V → x.1 ≤ cur) → valid_rev (cur + 1) → vlive V key = Some kv → pair_ok kv.
Proof.
  intros HV Hle Hv Hk. destruct (vlive_inv V key kv HV Hk) as (rev & r & _ & _ & -> & Hin & _ & Hc & Hver).
  apply Hle in Hin. cbn in *. unfold pair_ok, valid_rev in *. cbn. lia.
Qed.

(** The comparisons of a request hold on the wire image of the history. *)
Definition compares_hold (cmps : list Compare) (V : hist) : bool :=
  forallb (λ cmp, compare_holds cmp (kvToProto <$> vlive V (cp_Key cmp))) cmps.

Lemma compares_spec cmps cs V cur :
  Forall2 (λ cmp c, convertCompare cmp = Ok c) cmps cs → Forall plain_compare cmps →
  VInv V → (∀ x, x ∈ V → x.1 ≤ cur) → valid_rev (cur + 1) →
  forallb (λ c, txnCondMatches c (vlive V (tc_Key c))) cs = compares_hold cmps V.
Proof.
  intros Hf Hp HV Hle Hv. induction Hf as [|cmp c cmps cs Hc Hf IH]; [done|].
  apply Forall_cons in Hp as [Hp Hps]. unfold compares_hold in *. cbn [forallb]. rewrite IH by done. f_equal.
  destruct (compare_converted cmp c None Hc Hp ltac:(done)) as [-> _].
  apply (compare_converted cmp c); [done..|]. intros kv. by apply (vlive_pair_ok V cur).
Qed.

Definition txn_fits (r : pbTxnRequest) : Prop :=
  Forall (λ o, fits (to_Key o) (to_Value o) (to_Lease o)) (omap write_op (pt_Success r) ++ omap write_op (pt_Failure r)).

(** What a transaction of the node commits. *)
Lemma txn_spec_inv V cur rev req recs ans :
  spec_op V cur rev (CTxn req) = (recs, Ok ans) →
  an_Succeeded ans = forallb (λ c, txnCondMatches c (vlive V (tc_Key c))) (tr_Conditions req) ∧
  recs = at_rev rev (omap (op_record V rev) (if an_Succeeded ans then tr_Success req else tr_Failure req)) ∧
  NoDup (map (λ x, rc_key x.2) recs) ∧
  an_DeletedKeys ans = map (λ x, rc_key x.2) (filter (λ x, rc_delete x.2 = true) recs) ∧
  an_Revision ans = (if bool_decide (recs = []) then cur else rev).
Proof.
  cbn [spec_op]. set (ok := forallb _ _). set (R := omap _ _).
  case_bool_decide as HE.
  { intros [= <- <-]. cbn. fold R. rewrite HE. split_and!; try done. constructor. }
  destruct (Z.ltb_spec 65535 (zlen R)); [done|]. case_bool_decide as Hnd; [|done]. cbn [negb]. intros [= <- <-]. cbn.
  split; [done|]. split; [done|]. unfold at_rev. rewrite map_map. cbn. split; [done|].
  split; [|by rewrite bool_decide_false by (by intros ?%map_eq_nil)].
  rewrite map_filter_comm, map_map. done.
Qed.

Definition is_request (op : RequestOp) : Prop := match op with RequestNone => False | _ => True end.
#[global] Instance is_request_dec op : Decision (is_request op).
Proof. destruct op; apply _. Defined.

Section TxnProps.
Context {N : Type} `{NI : T4Node N} `{NV : T4View N} `{NOk : !T4NodeOk N}.
Context (serializableOnly : bool).
Local Notation Host := (Host N).
Implicit Types h : Host.

(** The answer to an operation of the branch, on a history that extends [H]. *)
Definition op_answer (deletedKeys : list bytes) (rev : Z) (H : hist) (op : RequestOp) (resp : ResponseOp) : Prop :=
  match op, resp with
  | RequestPut _, ResponsePut p => p = mkPutResp (headerAt rev) None
  | RequestDeleteRange d, ResponseDeleteRange x =>
      x = mkDelResp (headerAt rev) (if bool_decide (dq_Key d ∈ deletedKeys) then 1 else 0) []
  | RequestRange q, ResponseRange y => ∃ (n1 n2 : N) H1, H `prefix_of` H1 ∧ range_result q n1 H1 (Ok y) n2
  | _, _ => False
  end.

Lemma build_sticky dk rev ops : ∀ acc, Sticky (N := Host) (buildTxnResponses serializableOnly ops dk rev acc).
Proof using NOk.
  induction ops as [|[| | | |] ops IH]; intros acc; cbn [buildTxnResponses]; apply _.
Qed.

Lemma build_spec dk rev H0 ops : ∀ acc h H resps h',
  Forall op_allowed ops → t4_hist h H → H0 `prefix_of` H →
  buildTxnResponses serializableOnly ops dk rev acc h = (Ok resps, h') → t4_up h' →
  ∃ H' rs, later h H h' H' ∧ resps = acc ++ rs ∧ Forall2 (op_answer dk rev H0) (filter is_request ops) rs.
Proof using NOk.
  induction ops as [|op ops IH]; intros acc h H resps h' Hal Hh Hpre Hr Hup; cbn [buildTxnResponses] in Hr.
  { injection Hr as <- <-. exists H, []. rewrite app_nil_r. split; [by apply later_refl|done]. }
  apply Forall_cons in Hal as [Ha Hal]. rewrite filter_cons.
  destruct op as [q|p|d| |]; cbn [is_request]; [| | |done|].
  2,3: rewrite decide_True by done; destruct (IH _ _ _ _ _ Hal Hh Hpre Hr Hup) as (H' & rs & Hl & -> & Hf);
    exists H'; eexists (_ :: rs); rewrite <- app_assoc; (split; [done|]); (split; [done|]); by constructor.
  - rewrite decide_True by done. apply bind_ok_inv in Hr as (y & h1 & Hy & Hr). apply on_node_inv in Hy as (Hy & _).
    assert (t4_up (h_node h1)) as Hup1 by (by eapply build_sticky).
    pose proof (Range_result serializableOnly q (h_node h) H (Ok y) (h_node h1) Hh Hy Hup1) as Hres.
    pose proof Hres as (H1 & _ & _ & _ & Hl1 & _).
    destruct (IH (acc ++ [ResponseRange y]) h1 H1 resps h' Hal) as (H' & rs & Hl & -> & Hf); [apply Hl1| |done..|].
    { destruct Hl1 as [_ _ _ (K & -> & _)]. by apply prefix_app_r. }
    exists H', (ResponseRange y :: rs). split; [eapply later_trans; [by apply host_later|done]|].
    split; [by rewrite <- app_assoc|]. constructor; [|done]. cbn. by exists (h_node h), (h_node h1), H.
  - rewrite decide_False by (by intros []). by apply (IH acc h H).
Qed.

(** The result of a transaction: decided on the history [Hd], its writes the
    records [recs] of one revision. *)
Definition txn_result (r : pbTxnRequest) (resp : pbTxnResponse) (Hd recs : hist) (cur rev : Z) : Prop :=
  let branch := if px_Succeeded resp then pt_Success r else pt_Failure r in
  let commit := if bool_decide (recs = []) then cur else rev in
  let deleted := map (λ x, rc_key x.2) (filter (λ x, rc_delete x.2 = true) recs) in
  (∀ x, x ∈ Hd → x.1 ≤ cur) ∧ cur < rev ∧
  px_Succeeded resp = compares_hold (pt_Compare r) Hd ∧
  recs = at_rev rev (omap (op_record Hd rev) (omap write_op branch)) ∧
  NoDup (map (λ x, rc_key x.2) recs) ∧ Forall op_allowed branch ∧
  px_Header resp = headerAt commit ∧
  Forall2 (op_answer deleted commit (Hd ++ recs)) (filter is_request branch) (px_Responses resp).

Lemma later_prefix {M} `{MV : T4View M} (n n' : M) H H' : later n H n' H' → H `prefix_of` H'.
Proof using. intros [_ _ _ (K & -> & _)]. by apply prefix_app_r. Qed.

Lemma Txn_result r h H resp h' :
  t4_hist h H → t4_spare h 1 → txn_fits r → Forall plain_compare (pt_Compare r) →
  Txn serializableOnly r h = (Ok resp, h') → t4_up h' →
  ∃ Hd recs cur rev H', H `prefix_of` Hd ∧ (Hd ++ recs) `prefix_of` H' ∧ later h H h' H' ∧
    txn_result r resp Hd recs cur rev.
Proof using NOk.
  intros Hh Hsp Hfit Hplain Hr Hup. unfold Txn in Hr.
  apply bind_ok_inv in Hr as (conds & h1 & Hr1 & Hr). unfold from_result in Hr1. injection Hr1 as Hc <-.
  apply bind_ok_inv in Hr as (sops & h1 & Hr1 & Hr). unfold from_result in Hr1. injection Hr1 as Hs <-.
  apply bind_ok_inv in Hr as (fops & h1 & Hr1 & Hr). unfold from_result in Hr1. injection Hr1 as Hf <-.
  apply bind_ok_inv in Hr as ([] & h1 & Hv1 & Hr). apply bind_ok_inv in Hr as ([] & h2 & Hv2 & Hr).
  apply bind_ok_inv in Hr as (tr & h3 & Ht & Hr). apply bind_ok_inv in Hr as (resps & h4 & Hb & [= <- ->]).
  apply on_node_inv in Ht as (Ht & _). unfold t4_Txn in Ht. apply bind_ok_inv in Ht as (ans & n3 & Ht & [= <- ->]).
  cbn [tp_Succeeded tp_Revision tp_DeletedKeys] in *.
  assert (t4_up (h_node h3)) as Hup3 by (by eapply (build_sticky _ _ _ _ h3)).
  assert (t4_up (h_node h2)) as Hup2 by (by eapply (t4_op_sticky (N := N))).
  assert (t4_up h1) as Hup1 by (by eapply (reader_sticky _ (validateTxnOpLeases_reader (pt_Failure r)))).
  destruct (proj2 (validateTxnOpLeases_reader (pt_Success r)) h H _ h1 Hh Hv1 Hup1) as (H1 & Hl1 & Hk1).
  destruct (proj2 (validateTxnOpLeases_reader (pt_Failure r)) h1 H1 _ h2 (la_hist _ _ _ _ Hl1) Hv2 Hup2) as (H2 & Hl2 & Hk2).
  apply convertCompares_spec in Hc as (cs & -> & Hc). cbn [app] in Hc.
  assert (convertWriteOps (pt_Success r) [] = Ok sops) as Hs' by (by destruct (convertWriteOps (pt_Success r) [])).
  apply convertWriteOps_spec in Hs' as [-> Has]. apply convertWriteOps_spec in Hf as [-> Haf]. cbn [app] in Ht.
  assert (op_fits (t4_compact (h_node h2)) (CTxn (mkTxn cs (omap write_op (pt_Success r)) (omap write_op (pt_Failure r))))) as Hfit' by done.
  destruct (op_wrote (h_node h2) H2 0 _ _ (h_node h3) (la_hist _ _ _ _ Hl2) Hfit' (Hk2 _ (Hk1 _ Hsp)) Ht Hup3)
    as (H3 & (K & recs & cur & rev & -> & Hl3 & Hcr & Hle & Hrev & Hcur & Hspec) & _).
  destruct (txn_spec_inv _ _ _ _ _ _ Hspec) as (Hsucc & Hrecs & Hnd & Hdel & Hans). cbn [tr_Conditions tr_Success tr_Failure] in *.
  assert (Forall op_allowed (if an_Succeeded ans then pt_Success r else pt_Failure r)) as Hal by (by destruct (an_Succeeded ans)).
  destruct (build_spec (an_DeletedKeys ans) (an_Revision ans) ((H2 ++ K) ++ recs) _ [] h3 _ resps h' Hal (la_hist _ _ _ _ Hl3)
    ltac:(done) Hb Hup) as (H4 & rs & Hl4 & -> & Hf2).
  pose proof (t4_hist_le (h_node h3) _ (la_hist _ _ _ _ Hl3)) as (H0 & Hval & _).
  pose proof (t4_hist_le (h_node h2) _ (la_hist _ _ _ _ Hl2)) as (H0' & _ & _).
  pose proof (t4_hist_ok (h_node h3) _ (la_hist _ _ _ _ Hl3)) as HVI.
  exists (H2 ++ K), recs, cur, rev, H4.
  split; [apply prefix_app_r; transitivity H1; [by apply (later_prefix h h1)|by apply (later_prefix h1 h2)]|].
  split; [by apply (later_prefix h3 h')|].
  split.
  { eapply later_trans; [exact Hl1|]. eapply later_trans; [exact Hl2|]. eapply later_trans; [by apply host_later|exact Hl4]. }
  unfold txn_result. cbn [px_Succeeded px_Header px_Responses]. rewrite <- Hdel, <- Hans.
  split_and!; try done; [lia| |].
  - rewrite Hsucc. apply (compares_spec _ _ _ cur); [done..| |done|unfold valid_rev in *; lia].
    intros x Hx. apply HVI, elem_of_app. by left.
  - rewrite Hrecs at 1. by destruct (an_Succeeded ans).
Qed.
End TxnProps.
