(* ===== verification/EtcdClaims.v ===== *)
(** * The theorems on the etcd surface

    Puts, lease revocation and range deletes on top of the laws of the
    handlers, the theorems on ranges, comparisons, transactions and leases,
    and runs that show where the surface departs from its own comments. *)

From S2P Require Import Prelude Bytes Decimal WalEntry Os Json JsonProps Wal Pebble StoreKeys Store StoreSpec StoreRead StoreRefine StoreProps Peer Node NodeSpec NodeInv NodeSteps Server NodeClaims NodeReads NodeApi EtcdKv EtcdKvProps EtcdLease EtcdTxn EtcdTxnProps.

Section Writes.
Context {N : Type} `{NI : T4Node N} `{NV : T4View N} `{NOk : !T4NodeOk N}.
Local Notation Host := (Host N).
Implicit Types h : Host.

(** ** Leases that are found *)

(** The lease was in the key space and had not expired at a reading of the
    clock. *)
Definition lease_alive (h : Host) (H : hist) (id : Z) (rec : leaseRecord) : Prop :=
  0 < id ∧ ∃ h1 H1 kv now, later h H h1 H1 ∧ value_at H1 (leaseKey id) (t4_cur h1) = Some kv ∧
    decodeLease (Some kv) = Ok (Some rec) ∧ now ∈ 0 :: h_clock h ∧ now < ls_ExpiryUnixNs rec.

Lemma timeNow_inv h now h' : timeNow h = (Ok now, h') → now ∈ 0 :: h_clock h.
Proof using.
  unfold timeNow. destruct (h_clock h) as [|t [|t' ts]]; intros [= <- <-]; [left|right; left..].
Qed.

Lemma getLease_inv id lin h H rec h' :
  t4_hist h H → getLease id lin h = (Ok rec, h') → t4_up h' → lease_alive h H id rec.
Proof using NOk.
  intros Hh Hr Hup. unfold getLease in Hr.
  apply bind_ok_inv in Hr as (u & h1 & Hr1 & Hr). unfold from_result in Hr1. injection Hr1 as Hid <-.
  apply bind_ok_inv in Hr as (kv & h2 & Hg & Hr). apply bind_ok_inv in Hr as (o & h3 & Hd & Hr).
  unfold from_result in Hd. injection Hd as Hd <-. destruct o as [rec'|]; [|done].
  apply bind_ok_inv in Hr as (now & h4 & Hn & Hr). apply on_node_inv in Hg as (Hg & Hclk & _).
  destruct (Z.leb_spec (ls_ExpiryUnixNs rec') now) as [|Hlt]; [done|]. injection Hr as <- <-.
  assert (t4_up (h_node h2)) as Hup2 by (by eapply (reader_sticky _ (timeNow_reader (N := N)))).
  destruct (get_inv lin (leaseKey id) (h_node h) H kv (h_node h2) Hh Hg Hup2) as (H2 & Hl & _ & ->).
  unfold validateLeaseID in Hid. destruct (Z.leb_spec id 0); [done|]. split; [lia|].
  destruct (value_at H2 (leaseKey id) (t4_cur (h_node h2))) as [kv|] eqn:Ev; [|done].
  exists h2, H2, kv, now. split_and!; [by apply host_later|done..| |done].
  apply timeNow_inv in Hn. by rewrite <- Hclk.
Qed.

(** The previous pair of a write, read before it. *)
Lemma prev_inv (b : bool) key h H prev h' :
  t4_hist h H → (if b then on_node (t4_Get false key []) else mret None) h = (Ok prev, h') → t4_up h' →
  ∃ H', later h H h' H' ∧ (∀ k, t4_spare h k → t4_spare h' k) ∧
    prev = if b then value_at H' key (t4_cur h') else None.
Proof using NOk.
  intros Hh Hr Hup. destruct b.
  - apply on_node_inv in Hr as (Hr & _).
    destruct (get_inv false key (h_node h) H prev (h_node h') Hh Hr Hup) as (H' & Hl & Hk & ->).
    exists H'. by rewrite host_later.
  - injection Hr as <- <-. exists H. split; [by apply later_refl|done].
Qed.

Lemma Put_result r h H resp h' :
  t4_hist h H → t4_spare h 1 → fits (pq_Key r) (pq_Value r) (pq_Lease r) → Put r h = (Ok resp, h') → t4_up h' →
  ∃ Hp hp Hd rev, later h H hp Hp ∧ Hp `prefix_of` Hd ∧
    later h H h' (Hd ++ [(rev, put_record Hd rev (pq_Key r) (pq_Value r) (pq_Lease r))]) ∧
    (∀ x, x ∈ Hd → x.1 < rev) ∧ isInternalKey (pq_Key r) = false ∧
    resp = mkPutResp (headerAt rev) (if pq_PrevKv r then kvToProto <$> value_at Hp (pq_Key r) (t4_cur hp) else None) ∧
    (pq_Lease r ≠ 0 → ∃ rec, lease_alive h H (pq_Lease r) rec).
Proof using NOk.
  intros Hh Hsp Hfit Hr Hup. unfold Put in Hr.
  apply bind_ok_inv in Hr as (u & h1 & Hr1 & Hr). unfold from_result in Hr1. injection Hr1 as Hk%validate_inv <-.
  apply bind_ok_inv in Hr as ([] & h1 & Hls & Hr). apply bind_ok_inv in Hr as (prev & h2 & Hg & Hr).
  apply bind_ok_inv in Hr as (rv & h3 & Hp & [= <- ->]). apply on_node_inv in Hp as (Hp & _).
  unfold st_map_err in Hp. destruct (t4_Put _ _ _ (h_node h2)) as [[rv'|] n3] eqn:Ep; [|done]. injection Hp as <- ->.
  unfold t4_Put in Ep. apply bind_ok_inv in Ep as (ans & n3 & Ep & [= <- ->]).
  assert (t4_up h2) as Hup2 by (by eapply (t4_op_sticky (N := N))).
  assert (t4_up h1) as Hup1.
  { eapply reader_sticky; [|exact Hg|exact Hup2]. apply _. }
  match type of Hls with ?m _ = _ => assert (Reader m) as Hml by apply _ end.
  destruct (proj2 Hml h H _ h1 Hh Hls Hup1) as (H1 & Hl1 & Hs1).
  destruct (prev_inv _ _ h1 H1 prev h2 (la_hist _ _ _ _ Hl1) Hg Hup2) as (H2 & Hl2 & Hs2 & ->).
  destruct (op_wrote (h_node h2) H2 0 (CPut (pq_Key r) (pq_Value r) (pq_Lease r)) _ _ (la_hist _ _ _ _ Hl2) Hfit (Hs2 _ (Hs1 _ Hsp)) Ep Hup)
    as (H3 & (K & recs & cur & rev & -> & Hl3 & Hcr & Hle & _ & _ & Hspec) & _).
  cbn [spec_op] in Hspec. injection Hspec as <- <-. cbn [an_Revision].
  exists H2, h2, (H2 ++ K), rev. split; [by eapply later_trans|]. split; [by apply prefix_app_r|].
  split; [eapply later_trans; [exact Hl1|]; eapply later_trans; [exact Hl2|by apply host_later]|].
  split; [intros x Hx%Hle; lia|]. split; [done|]. split.
  - f_equal. by destruct (pq_PrevKv r).
  - intros Hne. destruct (Z.eqb_spec (pq_Lease r) 0); [done|]. cbn [negb] in Hls.
    apply bind_ok_inv in Hls as (rec & h1' & Hls & [= ->]). exists rec. by eapply getLease_inv.
Qed.

(** ** Revoking a lease *)

(** The keys of the lease that were listed and its record are gone together,
    at one revision, and nothing else changed. *)
Definition revoked (id : Z) (Hl : hist) (cur : Z) (Hd recs : hist) (rev : Z) : Prop :=
  let doomed := attached Hl id cur ++ [leaseKey id] in
  Hl `prefix_of` Hd ∧ (∀ x, x ∈ recs → x.1 = rev) ∧
  ∀ key, vlive (Hd ++ recs) key = if bool_decide (key ∈ doomed) then None else vlive Hd key.

#[global] Instance revokeLease_sticky id : Sticky (N := Host) (revokeLease id).
Proof using NOk.
  unfold revokeLease. apply sticky_bind; [apply reader_sticky, _|intros keys; apply _].
Qed.

Lemma LeaseRevoke_result id h H hd h' :
  t4_hist h H → t4_spare h 1 → LeaseRevoke id h = (Ok hd, h') → t4_up h' →
  ∃ hl Hl Hd recs rev H', later h H hl Hl ∧ revoked id Hl (t4_cur hl) Hd recs rev ∧
    (Hd ++ recs) `prefix_of` H' ∧ later h H h' H' ∧ hd = headerAt (t4_cur h').
Proof using NOk.
  intros Hh Hsp Hr Hup. unfold LeaseRevoke in Hr.
  apply bind_ok_inv in Hr as (rec & h1 & Hg & Hr). apply bind_ok_inv in Hr as ([] & h2 & Hrev & Hr).
  apply on_node_inv in Hr as (Hr & _).
  assert (t4_up h2) as Hup2 by (by eapply (reader_sticky _ (header_reader (N := N)))).
  assert (t4_up h1) as Hup1 by (by eapply (revokeLease_sticky id)).
  destruct (proj2 (getLease_reader id true) h H _ h1 Hh Hg Hup1) as (H1 & Hl1 & Hk1).
  destruct (revokeLease_correct id h1 H1 h2 (la_hist _ _ _ _ Hl1) (Hk1 _ Hsp) Hrev Hup2)
    as (hl & Hl & Hd & recs & rev & Hll & Hl2 & Hpre & Hone & Heff).
  destruct (reads_fmap headerAt _ _ (t4_CurrentRevision_law (N := N)) (h_node h2) (Hd ++ recs) (Ok hd) (h_node h')
    (la_hist _ _ _ _ Hl2) Hr Hup) as (K & (Hg1 & Hg2 & Hg3 & Hg4) & _ & _ & [Ha|(_ & e & ?)]); [|done].
  injection Ha as ->. exists hl, Hl, Hd, recs, rev, ((Hd ++ recs) ++ K).
  split; [by eapply later_trans|]. split; [by split|]. split; [by apply prefix_app_r|].
  split; [|done]. eapply later_trans; [exact Hl1|]. eapply later_trans; [exact Hl2|].
  split; [done..|by exists K].
Qed.

(** ** Deleting a range *)

Lemma value_fits (n : N) H key rev kv : t4_hist n H → value_at H key rev = Some kv → is_u32 (zlen key).
Proof using NOk.
  intros Hh Hv. pose proof (t4_hist_keys n H Hh) as Hf. unfold value_at in Hv.
  destruct (last_at H key rev) as [[q r]|] eqn:E; [|done].
  apply last_at_elem in E as (Hin & _ & <-). by apply (proj1 (Forall_forall _ _) Hf) in Hin.
Qed.

(** A batch of deletes. *)
Lemma chunk_inv (n : N) H k (chunk : list KeyValue) resp n' :
  t4_hist n H → t4_spare n (S k) → Forall (λ kv, is_u32 (zlen (kv_Key kv))) chunk →
  st_map_err kvError (t4_Txn (mkTxn [] (map (λ kv, mkOp TxnDelete (kv_Key kv) [] 0) chunk) [])) n = (Ok resp, n') → t4_up n' →
  ∃ Hd recs rev, H `prefix_of` Hd ∧ later n H n' (Hd ++ recs) ∧ t4_spare n' k ∧
    (∀ x, x ∈ recs → x.1 = rev ∧ rc_delete x.2 = true ∧ is_Some (vlive Hd (rc_key x.2))) ∧
    (∀ kv, kv ∈ chunk → vlive (Hd ++ recs) (kv_Key kv) = None) ∧ tp_DeletedKeys resp = map (λ x, rc_key x.2) recs.
Proof using NOk.
  intros Hh Hsp Hf Hr Hup. unfold st_map_err in Hr. destruct (t4_Txn _ n) as [[r0|e] n1] eqn:Et; [|done]. injection Hr as -> ->.
  unfold t4_Txn in Et. apply bind_ok_inv in Et as (ans & n2 & Et & [= <- ->]).
  assert (map (λ kv, mkOp TxnDelete (kv_Key kv) [] 0) chunk = map del_op (map kv_Key chunk)) as Hops by (by rewrite map_map).
  rewrite Hops in Et.
  assert (op_fits (t4_compact n) (CTxn (mkTxn [] (map del_op (map kv_Key chunk)) []))) as Hfit.
  { cbn. rewrite app_nil_r, map_map. change (map ?f ?l) with (f <$> l). apply Forall_fmap. eapply Forall_impl; [exact Hf|].
    intros kv Hk. cbn. split; [done|]. split; by vm_compute. }
  destruct (op_wrote n H k _ _ _ Hh Hfit Hsp Et Hup) as (H' & (K & recs & cur & rev & -> & Hl & _ & _ & _ & _ & Hs) & Hk).
  destruct (deletes_spec _ _ _ _ _ _ Hs) as (Hv & Hrecs & _ & Hdel & _).
  exists (H ++ K), recs, rev. split; [by apply prefix_app_r|]. split; [done|]. split; [done|]. split_and!; [| |done].
  - intros x Hx. rewrite Hrecs in Hx. apply list_elem_of_In, in_map_iff in Hx as (r & <- & Hr%list_elem_of_In).
    by destruct (deletes_record _ _ _ _ Hr) as (_ & ? & ?).
  - intros kv Hkv. rewrite Hv, bool_decide_true; [done|].
    apply list_elem_of_In, in_map_iff. exists kv. by rewrite <- list_elem_of_In.
Qed.

(** What the batches did: [gone] are the pairs deleted by this request, each by
    a record of its own, and every pair that was to be deleted is dead in a
    history on the way. *)
Definition deleted_range (n : N) (H H' : hist) (matched gone : list KeyValue) : Prop :=
  gone `sublist_of` matched ∧
  (∀ kv, kv ∈ matched → ∃ Hx, H `prefix_of` Hx ∧ Hx `prefix_of` H' ∧ vlive Hx (kv_Key kv) = None) ∧
  (∀ kv, kv ∈ gone → ∃ x, x ∈ H' ∧ t4_cur n < x.1 ∧ rc_key x.2 = kv_Key kv ∧ rc_delete x.2 = true).

Lemma deletedOf_records chunk recs kv :
  kv ∈ deletedOf chunk (map (λ x : Z * record, rc_key x.2) recs) →
  kv ∈ chunk ∧ ∃ x, x ∈ recs ∧ rc_key x.2 = kv_Key kv.
Proof using.
  unfold deletedOf. intros [Hk Hin]%list_elem_of_filter. split; [done|].
  apply list_elem_of_In, in_map_iff in Hk as (x & Hx & Hin'). exists x. by rewrite list_elem_of_In.
Qed.

Lemma delete_chunks_sticky prevKv fuel : ∀ matched rev deleted pks,
  Sticky (N := N) (delete_chunks fuel prevKv matched rev deleted pks).
Proof using NOk.
  induction fuel as [|fuel IH]; intros [|kv rest] rev deleted pks; cbn [delete_chunks]; apply _.
Qed.

(** Records that were added after a state are above its revision. *)
Lemma later_above (n n' : N) H Hd recs x :
  later n H n' (Hd ++ recs) → H `prefix_of` Hd → x ∈ recs → t4_cur n < x.1.
Proof using.
  intros [_ _ _ (K & HK & Habove)] [K0 ->] Hx. apply Habove. rewrite <- app_assoc in HK. apply app_inv_head in HK as <-.
  apply elem_of_app. by right.
Qed.

Lemma delete_chunks_spec prevKv fuel : ∀ (n : N) H matched rev deleted pks r n',
  (length matched ≤ fuel)%nat → t4_hist n H → t4_spare n fuel → Forall (λ kv, is_u32 (zlen (kv_Key kv))) matched →
  delete_chunks fuel prevKv matched rev deleted pks n = (Ok r, n') → t4_up n' →
  ∃ H' gone rev', later n H n' H' ∧ deleted_range n H H' matched gone ∧
    r = (rev', deleted + zlen gone, pks ++ (if prevKv then map kvToProto gone else [])).
Proof using NOk.
  induction fuel as [|fuel IH]; intros n H matched rev deleted pks r n' Hlen Hh Hsp Hf Hr Hup.
  { destruct matched; [|cbn in Hlen; lia]. injection Hr as <- <-. exists H, [], rev. split; [by apply later_refl|].
    split; [by split_and!; [constructor|intros kv ?%not_elem_of_nil..]|]. rewrite Z.add_0_r. by destruct prevKv; rewrite app_nil_r. }
  destruct matched as [|kv0 rest] eqn:Em.
  { injection Hr as <- <-. exists H, [], rev. split; [by apply later_refl|].
    split; [by split_and!; [constructor|intros kv ?%not_elem_of_nil..]|]. rewrite Z.add_0_r. by destruct prevKv; rewrite app_nil_r. }
  rewrite <- Em in *. assert (matched ≠ []) as Hne by (by rewrite Em).
  assert (delete_chunks (Datatypes.S fuel) prevKv matched rev deleted pks =
    let chunk := take maxTxnOps matched in
      resp ← st_map_err kvError (t4_Txn (mkTxn [] (map (λ kv, mkOp TxnDelete (kv_Key kv) [] 0) chunk) []));
      let gone := deletedOf chunk (tp_DeletedKeys resp) in
      delete_chunks fuel prevKv (drop maxTxnOps matched) (tp_Revision resp) (deleted + zlen gone)
        (pks ++ (if prevKv then map kvToProto gone else []))) as Hdef by (by rewrite Em).
  rewrite Hdef in Hr. clear Hdef Em. set (chunk := take maxTxnOps matched) in *. cbv zeta in Hr.
  apply bind_ok_inv in Hr as (resp & n1 & Ht & Hr).
  assert (t4_up n1) as Hup1 by (by eapply delete_chunks_sticky).
  assert (Forall (λ kv, is_u32 (zlen (kv_Key kv))) chunk) as Hfc by (by apply Forall_take).
  destruct (chunk_inv n H fuel chunk resp n1 Hh Hsp Hfc Ht Hup1) as (Hd & recs & rv & Hpre & Hl1 & Hsp1 & Hrecs & Hdead & Hdel).
  rewrite Hdel in Hr.
  assert (length (drop maxTxnOps matched) ≤ fuel)%nat as Hlen'.
  { rewrite length_drop. assert (1 ≤ maxTxnOps)%nat by (by apply Nat.leb_le; vm_compute). destruct matched; [done|].
    cbn [length] in *. lia. }
  destruct (IH n1 (Hd ++ recs) _ _ _ _ r n' Hlen' (la_hist _ _ _ _ Hl1) Hsp1 ltac:(by apply Forall_drop) Hr Hup)
    as (H' & gone & rev' & Hl2 & (Hsub & Hd2 & Hg2) & ->).
  set (g1 := deletedOf chunk _). exists H', (g1 ++ gone), rev'. split; [by eapply later_trans|].
  pose proof (later_prefix _ _ _ _ Hl2) as Hpre2. pose proof (later_prefix _ _ _ _ Hl1) as Hpre1.
  split.
  - split_and!.
    + rewrite <- (take_drop maxTxnOps matched). apply sublist_app; [|done]. apply sublist_filter.
    + intros kv Hkv. rewrite <- (take_drop maxTxnOps matched) in Hkv. apply elem_of_app in Hkv as [Hkv|Hkv].
      * exists (Hd ++ recs). by auto.
      * destruct (Hd2 kv Hkv) as (Hx & H1 & H2 & H3). exists Hx. split; [by etrans|done].
    + intros kv [Hkv|Hkv]%elem_of_app.
      * apply deletedOf_records in Hkv as (_ & x & Hx & Hkey). exists x. destruct (Hrecs x Hx) as (_ & Hdl & _).
        split; [|split; [|done]].
        -- destruct Hpre2 as [K ->]. apply elem_of_app. left. apply elem_of_app. by right.
        -- by eapply (later_above n n1 H Hd recs).
      * destruct (Hg2 kv Hkv) as (x & H1 & H2 & H3). exists x. split; [done|].
        split; [|done]. pose proof (la_cur _ _ _ _ Hl1). lia.
  - rewrite zlen_app, Z.add_assoc, <- app_assoc. f_equal. f_equal.
    destruct prevKv; [by rewrite map_app|done].
Qed.

Lemma DeleteRange_result r (n : N) H k resp n' :
  dq_RangeEnd r ≠ [] → t4_hist n H → t4_spare n k → DeleteRange r n = (Ok resp, n') → t4_up n' →
  ∃ nl Hl, later n H nl Hl ∧
    let matched := user_range Hl (dq_Key r) (dq_RangeEnd r) (t4_cur nl) in
    (length matched ≤ k)%nat → ∃ H' gone, later n H n' H' ∧ deleted_range nl Hl H' matched gone ∧
      dr_Deleted resp = zlen gone ∧ dr_PrevKvs resp = (if dq_PrevKv r then map kvToProto gone else []).
Proof using NOk.
  intros He Hh Hsp Hr Hup. unfold DeleteRange in Hr. rewrite bool_decide_false in Hr by done.
  apply bind_ok_inv in Hr as (all & nl & Hls & Hr). set (matched := filter _ all) in Hr. cbv zeta in Hr.
  apply bind_ok_inv in Hr as (h & n2 & Hh2 & Hr).
  assert (t4_up n2) as Hup2.
  { destruct (bool_decide (matched = [])); [by injection Hr as _ <-|].
    apply bind_ok_inv in Hr as (x & n3 & Hc & Hr). destruct x as [[? ?] ?]. injection Hr as _ <-. by eapply delete_chunks_sticky. }
  assert (t4_up nl) as Hupl by (by eapply (reader_sticky _ (header_reader (N := N)))).
  destruct (list_inv false _ n H all nl Hh Hls Hupl) as (Hl & Hll & Hkl & ->).
  destruct (proj2 (header_reader (N := N)) nl Hl _ n2 (la_hist _ _ _ _ Hll) Hh2 Hup2) as (H2 & Hl2 & Hk2).
  exists nl, Hl. split; [done|]. rewrite user_range_scan by done. fold matched. cbv zeta. intros Hlen.
  assert (Forall (λ kv, is_u32 (zlen (kv_Key kv))) matched) as Hf.
  { apply Forall_forall. intros kv Hkv. apply list_elem_of_filter in Hkv as [_ Hkv].
    apply list_at_listing in Hkv as (_ & _ & Hv). eapply (value_fits nl Hl); [apply Hll|exact Hv]. }
  case_bool_decide as Hm.
  { injection Hr as <- <-. exists H2, []. split; [by eapply later_trans|]. rewrite Hm.
    split; [by split_and!; [constructor|intros kv ?%not_elem_of_nil..]|]. by destruct (dq_PrevKv r). }
  apply bind_ok_inv in Hr as (x & n3 & Hc & Hr).
  assert (n3 = n') as -> by (destruct x as [[? ?] ?]; by injection Hr).
  destruct (delete_chunks_spec (dq_PrevKv r) (length matched) n2 H2 matched 0 0 [] x n') as (H' & gone & rev' & Hl3 & Hdel & ->);
    [done|apply Hl2|eapply t4_spare_le; [apply Hl2|exact Hlen|auto]|done|done|done|].
  injection Hr as <-. exists H', gone. split; [eapply later_trans; [exact Hll|by eapply later_trans]|].
  split; [|done]. destruct Hdel as (Hd1 & Hd2 & Hd3). split; [done|]. split.
  - intros kv Hkv. destruct (Hd2 kv Hkv) as (Hx & ? & ? & ?). exists Hx. split; [|done].
    etrans; [by eapply later_prefix|done].
  - intros kv Hkv. destruct (Hd3 kv Hkv) as (x & ? & ? & ?). exists x. split; [done|]. split; [|done].
    pose proof (la_cur _ _ _ _ Hl2). lia.
Qed.
End Writes.

(** ** Theorems *)

Section Theorems.
Context {N : Type} `{NI : T4Node N} `{NV : T4View N} `{NOk : !T4NodeOk N}.

(** C7. Range answers what its range holds, on every code path (one key, count
    only, prefix with a limit, any interval) and whatever others write
    meanwhile: the count, and the pairs in key order up to the limit, of the
    revision asked for or, without one, of a current revision that the header
    is not behind; count and pairs are of one revision, but for a prefix scan
    with a limit, which reads twice.  It fails only for a compacted or future
    revision or when the database fails. *)
Theorem range_correct so r (n : N) H res n' :
  t4_hist n H → Range so r n = (res, n') → t4_up n' → range_result r n H res n'.
Proof using NOk. apply Range_result. Qed.

(** A pair of the wire that belongs in the answer to a request. *)
Definition pb_ok (r : RangeRequest) (hdr : Z) (kv : pbKeyValue) : Prop :=
  2 ≤ pk_CreateRevision kv ≤ pk_ModRevision kv ∧ pk_ModRevision kv ≤ hdr ∧
  1 ≤ pk_Version kv ≤ pk_ModRevision kv - pk_CreateRevision kv + 1 ∧
  isInternalKey (pk_Key kv) = false ∧ in_range (rq_Key r) (rq_RangeEnd r) (pk_Key kv) = true ∧
  (rq_KeysOnly r = true → pk_Value kv = []).

Lemma value_at_inv H key rev kv : VInv H → value_at H key rev = Some kv →
  0 < kv_CreateRevision kv ≤ kv_Revision kv ∧ kv_Revision kv ≤ rev ∧
  1 ≤ kv_Version kv ≤ kv_Revision kv - kv_CreateRevision kv + 1 ∧ kv_Key kv = key.
Proof using.
  intros HV Hv. pose proof (value_at_key _ _ _ _ Hv) as Hk. unfold value_at in Hv.
  destruct (last_at H key rev) as [[q r]|] eqn:E; [|done]. cbn in Hv. destruct (rc_delete r) eqn:Ed; [done|].
  injection Hv as <-. apply last_at_elem in E as (Hin & Hle & _). destruct (HV _ Hin Ed) as (? & ?). cbn in *. split_and!; try done; lia.
Qed.

Lemma pb_of_pair r kv hdr :
  0 < kv_CreateRevision kv ≤ kv_Revision kv → kv_Revision kv ≤ hdr → valid_rev (hdr + 1) →
  1 ≤ kv_Version kv ≤ kv_Revision kv - kv_CreateRevision kv + 1 →
  isInternalKey (kv_Key kv) = false → in_range (rq_Key r) (rq_RangeEnd r) (kv_Key kv) = true →
  pb_ok r (hdr + 1) (kvToProtoForRange kv (rq_KeysOnly r)) ∧ pk_Key (kvToProtoForRange kv (rq_KeysOnly r)) = kv_Key kv.
Proof using.
  intros Hc Hle Hv Hver Hi Hr. unfold valid_rev in Hv.
  assert (toEtcdRevision (kv_Revision kv) = kv_Revision kv + 1) as E1 by (apply toEtcd_id; unfold valid_rev; lia).
  assert (toEtcdRevision (kv_CreateRevision kv) = kv_CreateRevision kv + 1) as E2 by (apply toEtcd_id; unfold valid_rev; lia).
  unfold kvToProtoForRange, pb_ok. destruct (rq_KeysOnly r); cbn; rewrite E1, E2, (proj2 (Z.leb_gt _ _)) by lia;
    split_and!; try done; lia.
Qed.

(** C34. What Range puts on the wire is well formed: keys strictly ascending,
    in the range and not internal, revisions between 2 and the header's with
    the create revision not above the mod revision, a version that fits
    between them, no more pairs than the limit, and no values when only keys
    are asked for. *)
Theorem range_well_formed so r (n : N) H resp n' :
  t4_hist n H → is_i64 (rq_Revision r) → Range so r n = (Ok resp, n') → t4_up n' →
  StronglySorted (λ a b, bytes_lt (pk_Key a) (pk_Key b)) (rp_Kvs resp) ∧
  Forall (pb_ok r (rh_Revision (rp_Header resp))) (rp_Kvs resp) ∧
  (0 < rq_Limit r → zlen (rp_Kvs resp) ≤ rq_Limit r).
Proof using NOk.
  intros Hh Hi Hr Hup. destruct (Range_result so r n H _ n' Hh Hr Hup)
    as (H' & rv1 & rv2 & hdr & Hl & (Hhd & _ & Hkvs & _) & Hw & _ & _).
  pose proof (t4_hist_ok n' H' (la_hist _ _ _ _ Hl)) as HV. pose proof (t4_hist_le n' H' (la_hist _ _ _ _ Hl)) as (H0 & Hv & _).
  assert (rv2 ≤ hdr ∧ 0 ≤ hdr ∧ valid_rev (hdr + 1)) as (Hle & H0h & Hhdr).
  { pose proof (t4_hist_le n H Hh) as (? & _). unfold is_i64, valid_rev in *. destruct (Z.ltb_spec 0 (rq_Revision r)); lia. }
  rewrite Hhd. cbn [rh_Revision headerAt]. rewrite toEtcd_id by (unfold valid_rev in *; lia).
  rewrite Hkvs. destruct (rq_CountOnly r); [split; [apply SSorted_nil|split; [apply Forall_nil_2|intros ?; unfold zlen; cbn; lia]]|].
  set (F := user_range _ _ _ _).
  assert (∀ kv, kv ∈ F → pb_ok r (hdr + 1) (kvToProtoForRange kv (rq_KeysOnly r)) ∧
    pk_Key (kvToProtoForRange kv (rq_KeysOnly r)) = kv_Key kv) as HF.
  { intros kv [[Hint Hin] Hkv]%list_elem_of_filter. apply list_at_listing in Hkv as (_ & _ & Hval).
    destruct (value_at_inv _ _ _ _ HV Hval) as (? & ? & ? & _). apply pb_of_pair; try done; lia. }
  assert (∀ kv, kv ∈ take_limit (rq_Limit r) F → kv ∈ F) as Htl.
  { intros kv. unfold take_limit. destruct (0 <? rq_Limit r); [apply elem_of_take_in|done]. }
  assert (StronglySorted (λ a b, bytes_lt (kv_Key a) (kv_Key b)) (take_limit (rq_Limit r) F)) as Hs.
  { assert (StronglySorted (λ a b, bytes_lt (kv_Key a) (kv_Key b)) F) as HsF by apply StronglySorted_filter, list_at_listing.
    unfold take_limit. destruct (0 <? rq_Limit r); [|done]. rewrite <- (take_drop (Z.to_nat (rq_Limit r)) F) in HsF.
    by apply StronglySorted_app_1_l in HsF. }
  split_and!.
  - apply (StronglySorted_map (λ a b, bytes_lt (kv_Key a) (kv_Key b))); [|done].
    intros x y Hx%Htl Hy%Htl. by rewrite (proj2 (HF x Hx)), (proj2 (HF y Hy)).
  - change (map ?f ?l) with (f <$> l). apply Forall_fmap, Forall_forall. intros kv Hkv%Htl. by apply HF.
  - intros Hlim. unfold zlen, take_limit. rewrite (proj2 (Z.ltb_lt _ _)) by done. rewrite length_map, length_take. lia.
Qed.


(** C28. Revoking a lease removes the keys attached to it when it was listed
    and its record in one revision, and touches no other key. *)
Theorem lease_revoke_atomic id (h : Host N) H hd h' :
  t4_hist h H → t4_spare h 1 → LeaseRevoke id h = (Ok hd, h') → t4_up h' →
  ∃ hl Hl Hd recs rev H', later h H hl Hl ∧ revoked id Hl (t4_cur hl) Hd recs rev ∧
    (Hd ++ recs) `prefix_of` H' ∧ later h H h' H' ∧ hd = headerAt (t4_cur h').
Proof using NOk. apply LeaseRevoke_result. Qed.
End Theorems.

(** ** Runs *)

Section Runs.
#[local] Notation Shared := (Shared (DB := gmap bytes bytes) (L := list Entry) (R := peerEnv)).

(** A fresh node that others use too, on a host with a clock. *)
Definition shared0 (others : list (list cop)) : Shared := mkShared node0 others false.
Definition host0 (others : list (list cop)) (clock : list Z) : Host Shared := mkHost (shared0 others) clock [].

Lemma shared0_hist others :
  Forall (λ op, not_compact op ∧ op_fits 0 op) (concat others) → (length (concat others) ≤ 1000)%nat →
  t4_hist (shared0 others) [] ∧ t4_spare (shared0 others) 1000.
Proof.
  intros Hf Hl. split.
  - split; [split; [|constructor]|split; [done|unfold spare, valid_rev; cbn; lia]].
    split_and!; [apply reach_init, first_initial|done|done].
  - unfold t4_spare. cbn. unfold spare, valid_rev. cbn. lia.
Qed.

Definition put_op (key value : string) (lease : Z) : cop := CPut (str key) (str value) lease.

Lemma put_op_fits key value lease :
  is_u32 (zlen (str key)) → is_u32 (zlen (str value)) → is_i64 lease → not_compact (put_op key value lease) ∧ op_fits 0 (put_op key value lease).
Proof. by split. Qed.

Definition others1 : list (list cop) := [[put_op "a" "1" 0; put_op "b" "2" 0]; [put_op "c" "3" 0]].

Lemma others1_ok : Forall (λ op, not_compact op ∧ op_fits 0 op) (concat others1).
Proof. repeat constructor; by vm_compute. Qed.

(** All keys from "a" on, at most one. *)
Definition range1 : RangeRequest := mkRangeReq (str "a") [x00] 1 0 false false false.
Definition range1_resp : RangeResponse := mkRangeResp (headerAt 3) [mkPbKV (str "a") (str "1") 2 2 0 1] 2 true.

Lemma range1_run : (Range false range1 (shared0 others1)).1 = Ok range1_resp.
Proof. by vm_compute. Qed.

Lemma range_correct_witness :
  range_result range1 (shared0 others1) [] (Ok range1_resp) (Range false range1 (shared0 others1)).2.
Proof.
  apply (range_correct false range1 (shared0 others1) []);
    [apply shared0_hist; [apply others1_ok|cbn; lia]|apply run_pair, range1_run|by vm_compute].
Defined.

Lemma range_well_formed_witness :
  Forall (pb_ok range1 4) [mkPbKV (str "a") (str "1") 2 2 0 1].
Proof.
  destruct (range_well_formed false range1 (shared0 others1) [] range1_resp (Range false range1 (shared0 others1)).2)
    as (_ & Hf & _); [apply shared0_hist; [apply others1_ok|cbn; lia]|by vm_compute|apply run_pair, range1_run|by vm_compute|].
  exact Hf.
Defined.

(** If "a" was last written at the first revision, put "b", delete "a" and
    list everything. *)
Definition txn1 : pbTxnRequest :=
  mkPbTxn [mkCompare Compare_EQUAL Compare_MOD (str "a") (TU_ModRevision 2)]
    [RequestPut (mkPutReq (str "b") (str "9") 0 false); RequestDeleteRange (mkDelReq (str "a") [] false);
     RequestRange (mkRangeReq [] [x00] 0 0 false true false)]
    [].
Definition txn1_resp : pbTxnResponse :=
  mkPbTxnResp (headerAt 3) true
    [ResponsePut (mkPutResp (headerAt 3) None); ResponseDeleteRange (mkDelResp (headerAt 3) 1 []);
     ResponseRange (mkRangeResp (headerAt 4) [mkPbKV (str "b") [] 4 3 0 2; mkPbKV (str "c") [] 5 5 0 1] 2 false)].

Lemma txn1_run : (Txn false txn1 (host0 others1 [])).1 = Ok txn1_resp.
Proof. by vm_compute. Qed.

Lemma host0_hist others clock :
  Forall (λ op, not_compact op ∧ op_fits 0 op) (concat others) → (length (concat others) ≤ 1000)%nat →
  t4_hist (host0 others clock) [] ∧ t4_spare (host0 others clock) 1.
Proof.
  intros Hf Hl. destruct (shared0_hist others Hf Hl) as [Hh Hs]. split; [done|].
  by apply (t4_spare_le (shared0 others) [] 1000 1 Hh ltac:(lia)).
Qed.


Definition lease7 : leaseRecord := mkLease 7 60 1000.
Definition others_lease : list (list cop) := [[CPut (leaseKey 7) (marshalLease lease7) 0; put_op "k" "v" 7; put_op "l" "w" 0]].

Lemma others_lease_ok : Forall (λ op, not_compact op ∧ op_fits 0 op) (concat others_lease).
Proof. repeat constructor; by vm_compute. Qed.

Lemma revoke_run : (LeaseRevoke 7 (host0 others_lease [999])).1 = Ok (headerAt 4).
Proof. by vm_compute. Qed.

Lemma lease_revoke_atomic_witness :
  ∃ hl Hl Hd recs rev H', later (host0 others_lease [999]) [] hl Hl ∧ revoked 7 Hl (t4_cur hl) Hd recs rev ∧
    (Hd ++ recs) `prefix_of` H' ∧
    later (host0 others_lease [999]) [] (LeaseRevoke 7 (host0 others_lease [999])).2 H' ∧
    headerAt 4 = headerAt (t4_cur (LeaseRevoke 7 (host0 others_lease [999])).2).
Proof.
  destruct (host0_hist others_lease [999] others_lease_ok ltac:(cbn; lia)) as [Hh Hs].
  apply (lease_revoke_atomic 7 (host0 others_lease [999]) []); [done|done|apply run_pair, revoke_run|by vm_compute].
Defined.

(** ** Departures *)

(** A listing and its header are read at two moments: here another client puts
    "b" between them.  The header names the revision of "b", the listing does
    not hold "b", and a watch from the revision after the header never sees
    it. *)
Lemma list_header_ahead :
  let others := [[put_op "a" "1" 0]; [put_op "b" "2" 0]] in
  let all := mkRangeReq [] [x00] 0 0 false false false in
  (Range false all (shared0 others)).1 = Ok (mkRangeResp (headerAt 2) [mkPbKV (str "a") (str "1") 2 2 0 1] 1 false) ∧
  (t4_Get false (str "b") [WithRevision 2] (Range false all (shared0 others)).2).1 =
    Ok (Some (mkKV (str "b") (str "2") 2 2 0 1 0)).
Proof. by vm_compute. Qed.

(** Wire revision 1 is converted to the 0 that stands for an absent key: the
    comparison "mod revision = 1" holds for a key that does not exist. *)
Lemma compare_revision_one :
  let cmp := mkCompare Compare_EQUAL Compare_MOD (str "x") (TU_ModRevision 1) in
  convertCompare cmp = Ok (mkCond (str "x") TxnCondMod TxnCondEqual 0 0 0 [] 0) ∧
  compare_holds cmp None = false ∧
  px_Succeeded <$> (Txn false (mkPbTxn [cmp] [] []) (host0 [] [])).1 = Ok true.
Proof. by vm_compute. Qed.

(** A lease of more than 292 years expires before it is granted: the product
    with the number of nanoseconds overflows. *)
Lemma lease_ttl_overflow :
  let now := 1700000000000000000 in
  let h := (LeaseGrant 5 9223372037 (host0 [] [now])).2 in
  (LeaseGrant 5 9223372037 (host0 [] [now])).1 = Ok (headerAt 1, 5, 9223372037) ∧
  (LeaseTimeToLive 5 false h).1 = Err errLeaseNotFound.
Proof. by vm_compute. Qed.

(** A lease that is renewed after the expiry loop listed it is revoked all the
    same, with its keys: the transaction does not compare the record. *)
Lemma renewed_lease_revoked :
  let renew := CPut (leaseKey 7) (marshalLease (mkLease 7 60 60000)) 0 in
  let h := host0 ([] :: others_lease ++ [[renew]]) [2000] in
  (leaseTick h).1 = Ok true ∧
  (t4_Get false (str "k") [] (h_node (leaseTick h).2)).1 = Ok None ∧
  (t4_Get false (leaseKey 7) [WithRevision 4] (h_node (leaseTick h).2)).1 =
    Ok (Some (mkKV (leaseKey 7) (marshalLease (mkLease 7 60 60000)) 4 1 1 2 0)).
Proof. by vm_compute. Qed.

(** The previous pair that a put returns is read before the write: here
    another client writes in between, and the answer is not the pair that was
    replaced. *)
Lemma put_prev_stale :
  let others := [[put_op "a" "1" 0]; [put_op "a" "2" 0]] in
  pp_PrevKv <$> (Put (mkPutReq (str "a") (str "3") 0 true) (host0 others [])).1 =
    Ok (Some (mkPbKV (str "a") (str "1") 2 2 0 1)).
Proof. by vm_compute. Qed.
End Runs.
