(* ===== verification/EtcdWatch.v ===== *)
(** * Watches of the etcd surface

    etcd/watch.go: one stream multiplexes many watches.  The stream handler
    creates and cancels them; each watch has a goroutine that coalesces the
    events of the node into frames, splits large frames into fragments and
    sends progress notifications. *)

From S2P Require Import Prelude Bytes WalEntry Os Wal Pebble StoreKeys Store StoreSpec Node NodeSpec NodeReads NodeApi EtcdKv EtcdLease.

(** ** Messages *)

Record WatchCreateRequest := mkWatchCreate {
  wc_Key : bytes; wc_RangeEnd : bytes; wc_StartRevision : Z;
  wc_PrevKv : bool; wc_ProgressNotify : bool; wc_Fragment : bool }.

Inductive WatchRequest :=
  | CreateRequest (cr : WatchCreateRequest)
  | CancelRequest (id : Z)
  | ProgressRequest.

Record WatchResponse := mkWatchResp {
  wr_Header : ResponseHeader; wr_WatchId : Z; wr_Created : bool; wr_Canceled : bool;
  wr_CancelReason : string; wr_CompactRevision : Z; wr_Fragment : bool; wr_Events : list pbEvent }.

(** A response with no events. *)
Definition notice (h : ResponseHeader) (id : Z) (created canceled : bool) (reason : string) (compact : Z) : WatchResponse :=
  mkWatchResp h id created canceled reason compact false [].

(** Frames that are sent without another one between them. *)
Definition watchRun : Type := list WatchResponse.

(** ** Keys of a watch *)

(** The prefix to subscribe to, and the keys the watch is for. *)
Definition watchScan (cr : WatchCreateRequest) : bytes * (bytes → bool) :=
  let key := wc_Key cr in
  let rangeEnd := wc_RangeEnd cr in
  if bool_decide (rangeEnd = []) then (key, λ candidate, bool_decide (candidate = key))
  else
    let matches candidate :=
      if bool_decide (rangeEnd = [x00]) then bytes_leb key candidate
      else bytes_leb key candidate && bytes_ltb candidate rangeEnd in
    if isPrefixRangeEnd key rangeEnd then (key, matches) else ([], matches).

(** [userEvent]: events of internal keys are not for clients. *)
Definition userEvent (e : Event) : option Event := if isInternalKey (kv_Key (ev_KV e)) then None else Some e.

(** ** Fragments *)

Definition kvSize (kv : pbKeyValue) : Z := 48 + zlen (pk_Key kv) + zlen (pk_Value kv).
Definition estimateEventSize (e : pbEvent) : Z :=
  32 + kvSize (pe_Kv e) + match pe_PrevKv e with Some kv => kvSize kv | None => 0 end.

Fixpoint estimateEventsSize (events : list pbEvent) : Z :=
  match events with [] => 0 | e :: events' => estimateEventSize e + estimateEventsSize events' end.

Fixpoint split_loop (maxBytes : Z) (events : list pbEvent) (chunks : list (list pbEvent)) (current : list pbEvent)
    (currentSize : Z) : list (list pbEvent) :=
  match events with
  | [] => if bool_decide (current = []) then chunks else chunks ++ [current]
  | e :: events' =>
      let size := estimateEventSize e in
      if (0 <? currentSize) && (maxBytes <? currentSize + size)
      then split_loop maxBytes events' (chunks ++ [current]) [e] size
      else split_loop maxBytes events' chunks (current ++ [e]) (currentSize + size)
  end.
Definition splitEventsBySize (events : list pbEvent) (maxBytes : Z) : list (list pbEvent) :=
  split_loop maxBytes events [] [] 0.

(** The frames of a batch; all but the last are marked. *)
Fixpoint fragment_run (h : ResponseHeader) (id : Z) (chunks : list (list pbEvent)) : watchRun :=
  match chunks with
  | [] => []
  | chunk :: rest =>
      mkWatchResp h id false false "" 0 (negb (bool_decide (rest = []))) chunk :: fragment_run h id rest
  end.

Definition watchMaxBatch : nat := 64.

Section Drain.
(** [watchFragmentBytes] is a variable. *)
Context (watchFragmentBytes : Z).

Definition eventsRun (id : Z) (batch : list pbEvent) (rev : Z) (fragment : bool) : watchRun :=
  let h := headerAt rev in
  if negb fragment || (estimateEventsSize batch <=? watchFragmentBytes)
  then [mkWatchResp h id false false "" 0 false batch]
  else fragment_run h id (splitEventsBySize batch watchFragmentBytes).

(** ** Sending *)

(** What the select of [sendOrCancelSlow] does: the run is queued, the watch
    is cancelled, or the queue stays full; then the notice of the cancellation,
    with the header of the moment, is queued or lost. *)
Inductive sendOutcome := Sent | Gone | Slow (current : Z) (delivered : bool).

(** The runs that were queued, and whether the watch goes on. *)
Definition sendOrCancelSlow (id : Z) (run : watchRun) (o : sendOutcome) : list watchRun * bool :=
  match o with
  | Sent => ([run], true)
  | Gone => ([], false)
  | Slow current true => ([[notice (headerAt current) id false true "mvcc: watcher is slow" 0]], false)
  | Slow _ false => ([], false)
  end.

(** ** The goroutine of a watch *)

Record drain := mkDrain { dn_batch : list pbEvent; dn_batchMaxRev : Z; dn_progressRev : Z }.

Definition appendEvent (matches : bytes → bool) (e : Event) (d : drain) : drain :=
  let rev := if dn_batchMaxRev d <? kv_Revision (ev_KV e) then kv_Revision (ev_KV e) else dn_batchMaxRev d in
  if negb (matches (kv_Key (ev_KV e))) then mkDrain (dn_batch d) rev (dn_progressRev d)
  else
    match userEvent e with
    | None => mkDrain (dn_batch d) rev (dn_progressRev d)
    | Some e' => mkDrain (dn_batch d ++ [eventToProto e']) rev (dn_progressRev d)
    end.

(** The inner loop: what is immediately available, until the batch is full; the
    rest stays in the channel. *)
Fixpoint drain_loop (matches : bytes → bool) (avail : list Event) (d : drain) : drain * list Event :=
  match avail with
  | [] => (d, [])
  | e :: avail' =>
      if (length (dn_batch d) <? watchMaxBatch)%nat then drain_loop matches avail' (appendEvent matches e d)
      else (d, avail)
  end.

Definition flush (id : Z) (fragment : bool) (d : drain) (o : sendOutcome) : list watchRun * drain * bool :=
  match dn_batch d with
  | [] =>
      let rev := if dn_progressRev d <? dn_batchMaxRev d then dn_batchMaxRev d else dn_progressRev d in
      ([], mkDrain [] 0 rev, true)
  | _ =>
      let rev := dn_batchMaxRev d in
      let '(runs, ok) := sendOrCancelSlow id (eventsRun id (dn_batch d) rev fragment) o in
      (runs, mkDrain [] 0 rev, ok)
  end.

(** What the goroutine selects: an event, with those behind it in the channel
    at the moment and whether it is closed after them, or the ticker. *)
Inductive drainInput := DEvents (e : Event) (avail : list Event) (closed : bool) | DTick | DClosed.

(** One turn, with the outcomes of its sends: the runs queued, the new state,
    the events left in the channel, and whether the goroutine goes on. *)
Definition drainStep (id : Z) (fragment : bool) (matches : bytes → bool) (i : drainInput) (o1 o2 : sendOutcome)
    (d : drain) : list watchRun * drain * list Event * bool :=
  match i with
  | DClosed => let '(runs, d', _) := flush id fragment d o1 in (runs, d', [], false)
  | DEvents e avail closed =>
      let '(d1, rest) := drain_loop matches avail (appendEvent matches e d) in
      let '(runs, d2, ok) := flush id fragment d1 o1 in
      (* the loop sees that the channel is closed when it has room left *)
      let ended := closed && (length (dn_batch d1) <? watchMaxBatch)%nat in
      (runs, d2, rest, ok && negb ended)
  | DTick =>
      let '(runs, d1, ok) := flush id fragment d o1 in
      if negb ok then (runs, d1, [], false)
      else
        let '(runs', ok') := sendOrCancelSlow id [notice (headerAt (dn_progressRev d1)) id false false "" 0] o2 in
        (runs ++ runs', d1, [], ok')
  end.

(** The goroutine starts with the current revision of the node. *)
Definition drain0 (current : Z) : drain := mkDrain [] 0 current.
End Drain.

(** ** The stream *)

(** The channel of events is the prefix, the first revision and the option of
    the subscription it comes from. *)
Record watchSubscription := mkSub {
  sb_start : Z; sb_prefix : bytes; sb_prevKV : bool;
  sb_match : bytes → bool; sb_progressNotify : bool; sb_fragment : bool }.
Record stream := mkStream { sm_nextID : Z; sm_watches : gmap Z watchSubscription; sm_sendCh : list watchRun }.

Definition send (run : watchRun) (s : stream) : stream := mkStream (sm_nextID s) (sm_watches s) (sm_sendCh s ++ [run]).

Section Stream.
Context {N : Type} `{NI : T4Node N}.

(** [s.node.Watch(ctx, prefix, startRev)], with or without [WithPrevKV]: the
    revision from which events are sent. *)
Context (nodeWatch : bytes → Z → bool → ST N Z).

Definition subscribeWatch (cr : WatchCreateRequest) : ST N watchSubscription :=
  let '(scanPrefix, matches) := watchScan cr in
  start ← nodeWatch scanPrefix (fromEtcdRevision (wc_StartRevision cr)) (wc_PrevKv cr);
  mret (mkSub start scanPrefix (wc_PrevKv cr) matches (wc_ProgressNotify cr) (wc_Fragment cr)).

Definition createWatch (cr : WatchCreateRequest) (s : stream) : ST N stream :=
  if isInternalKey (wc_Key cr) then
    h ← header;
    mret (send [notice h (-1) false true "reserved internal prefix is not watchable" 0] s)
  else
    let id := sm_nextID s in
    let s1 := mkStream (i64 (id + 1)) (sm_watches s) (sm_sendCh s) in
    r ← try (subscribeWatch cr);
    match r with
    | Ok sub =>
        h ← header;
        mret (send [notice h id true false "" 0] (mkStream (sm_nextID s1) (<[id := sub]> (sm_watches s1)) (sm_sendCh s1)))
    | Err e =>
        if bool_decide (e = ErrCompacted) then
          h ← header;
          compactRev ← t4_CompactRevision;
          mret (send [notice h id true true "mvcc: required revision has been compacted" (toEtcdRevision compactRev)] s1)
        else mret s1
    end.

Definition cancelWatch (id : Z) (s : stream) : ST N stream :=
  match sm_watches s !! id with
  | None => mret s
  | Some _ =>
      h ← header;
      mret (send [notice h id false true "" 0] (mkStream (sm_nextID s) (delete id (sm_watches s)) (sm_sendCh s)))
  end.

(** A notice for every watch; the order is that of the map. *)
Fixpoint progressAll (ids : list Z) (s : stream) : ST N stream :=
  match ids with
  | [] => mret s
  | id :: ids' => h ← header; progressAll ids' (send [notice h id false false "" 0] s)
  end.

Definition watchRequest (req : WatchRequest) (s : stream) : ST N stream :=
  match req with
  | CreateRequest cr => createWatch cr s
  | CancelRequest id => cancelWatch id s
  | ProgressRequest => progressAll (map fst (map_to_list (sm_watches s))) s
  end.
End Stream.
