(* ===== verification/EtcdWatchProps.v ===== *)
(** * Correctness of the etcd watches

    Fragments put together again are the batch; the frames of a watch deliver
    the events of its keys once and in order; and no header runs ahead of an
    event that is still to come. *)

From S2P Require Import Prelude Bytes WalEntry Os Wal Pebble StoreKeys Store StoreSpec StoreRead Peer Node NodeSpec NodeSteps Server NodeClaims NodeReads NodeApi EtcdKv EtcdKvProps EtcdLease EtcdTxnProps EtcdWatch.

(** ** Keys *)

(** A watch sees the keys of its range, and its subscription covers them. *)
Lemma watchScan_covers cr k :
  let '(prefix, matches) := watchScan cr in
  matches k = in_range (wc_Key cr) (wc_RangeEnd cr) k ∧ (matches k = true → has_prefix prefix k = true).
Proof.
  unfold watchScan, in_range. case_bool_decide as He.
  - split; [done|]. intros ->%bool_decide_eq_true. clear. induction (wc_Key cr) as [|b l IH]; [done|].
    cbn. by rewrite bool_decide_true, IH.
  - unfold isPrefixRangeEnd. case_bool_decide as Hp; cbn; (split; [done|]); [|done].
    intros Hm. apply (prefix_range_exact (wc_Key cr) k). rewrite Hp. unfold in_range. by rewrite bool_decide_false.
Qed.

(** ** Fragments *)

Lemma estimate_pos e : 80 ≤ estimateEventSize e.
Proof.
  unfold estimateEventSize, kvSize. pose proof (zlen_nonneg (pk_Key (pe_Kv e))). pose proof (zlen_nonneg (pk_Value (pe_Kv e))).
  destruct (pe_PrevKv e) as [kv|]; [|lia]. pose proof (zlen_nonneg (pk_Key kv)). pose proof (zlen_nonneg (pk_Value kv)). lia.
Qed.

Lemma estimates_app l k : estimateEventsSize (l ++ k) = estimateEventsSize l + estimateEventsSize k.
Proof. induction l as [|e l IH]; cbn; lia. Qed.

Lemma estimates_pos l : 0 ≤ estimateEventsSize l ∧ (0 < estimateEventsSize l ↔ l ≠ []).
Proof.
  induction l as [|e l [IH _]]; cbn; [split; [lia|split; [lia|done]]|]. pose proof (estimate_pos e).
  split; [lia|split; [done|lia]].
Qed.

(** A chunk that fits, or one event that does not. *)
Definition chunk_ok (maxBytes : Z) (chunk : list pbEvent) : Prop :=
  chunk ≠ [] ∧ (estimateEventsSize chunk ≤ maxBytes ∨ length chunk = 1%nat).

Lemma split_loop_spec m events : ∀ chunks current,
  Forall (chunk_ok m) chunks → (current = [] ∨ chunk_ok m current) →
  let out := split_loop m events chunks current (estimateEventsSize current) in
  concat out = concat chunks ++ current ++ events ∧ Forall (chunk_ok m) out.
Proof.
  induction events as [|e events IH]; intros chunks current Hch Hcur; cbn [split_loop]; cbv zeta.
  - case_bool_decide as Hc.
    + subst current. by rewrite !app_nil_r.
    + rewrite concat_app. cbn. rewrite !app_nil_r. split; [done|]. apply Forall_app. split; [done|].
      constructor; [|constructor]. by destruct Hcur.
  - pose proof (estimates_pos current) as [Hp Hne]. pose proof (estimate_pos e).
    destruct (Z.ltb_spec 0 (estimateEventsSize current)) as [H1|H1]; cbn [andb].
    + assert (chunk_ok m current) as Hck by (destruct Hcur as [->|?]; [cbn in H1; lia|done]).
      destruct (Z.ltb_spec m (estimateEventsSize current + estimateEventSize e)).
      * replace (estimateEventSize e) with (estimateEventsSize [e]) by (cbn; lia).
        destruct (IH (chunks ++ [current]) [e]) as [HA HB].
        { apply Forall_app. split; [done|]. by constructor; [|constructor]. }
        { right. split; [done|by right]. }
        split; [|done]. cbv zeta in HA. rewrite HA, concat_app. cbn. by rewrite app_nil_r, <- !app_assoc.
      * replace (estimateEventsSize current + estimateEventSize e) with (estimateEventsSize (current ++ [e]))
          by (rewrite estimates_app; cbn; lia).
        destruct (IH chunks (current ++ [e])) as [HA HB]; [done| |].
        { right. split; [by destruct current|]. left. rewrite estimates_app. cbn. lia. }
        split; [|done]. cbv zeta in HA. by rewrite HA, <- app_assoc.
    + assert (current = []) as -> by (destruct current; [done|]; exfalso; assert (p :: current ≠ []) as Hx by done; apply Hne in Hx; lia).
      replace (estimateEventsSize [] + estimateEventSize e) with (estimateEventsSize [e]) by (cbn; lia).
      destruct (IH chunks [e]) as [HA HB]; [done| |by split].
      right. split; [done|by right].
Qed.

Lemma fragment_run_spec h id chunks :
  concat (map wr_Events (fragment_run h id chunks)) = concat chunks ∧
  Forall (λ f, wr_Header f = h ∧ wr_WatchId f = id ∧ wr_Canceled f = false) (fragment_run h id chunks) ∧
  map wr_Fragment (fragment_run h id chunks) = match length chunks with O => [] | Datatypes.S k => replicate k true ++ [false] end.
Proof.
  induction chunks as [|c chunks (IH1 & IH2 & IH3)]; [done|]. cbn [fragment_run map concat wr_Events length].
  split; [by rewrite IH1|]. split; [by constructor|]. rewrite IH3. by destruct chunks.
Qed.

(** ** The frames of a watch *)

Section Frames.
Context (watchFragmentBytes : Z) (id : Z) (fragment : bool) (matches : bytes → bool).

(** The events a client of the watch is to see. *)
Definition wanted (e : Event) : Prop := matches (kv_Key (ev_KV e)) = true ∧ isInternalKey (kv_Key (ev_KV e)) = false.
#[global] Instance wanted_dec e : Decision (wanted e).
Proof using. unfold wanted. apply _. Defined.

Definition revOf (e : Event) : Z := kv_Revision (ev_KV e).
Definition maxRev (rev : Z) (es : list Event) : Z := fold_left (λ m e, Z.max m (revOf e)) es rev.

Lemma appendEvent_spec e d :
  appendEvent matches e d =
  mkDrain (dn_batch d ++ map eventToProto (filter wanted [e])) (Z.max (dn_batchMaxRev d) (revOf e)) (dn_progressRev d).
Proof using.
  unfold appendEvent, userEvent, revOf. rewrite filter_cons, filter_nil.
  assert ((if dn_batchMaxRev d <? kv_Revision (ev_KV e) then kv_Revision (ev_KV e) else dn_batchMaxRev d) =
    Z.max (dn_batchMaxRev d) (kv_Revision (ev_KV e))) as -> by (destruct (Z.ltb_spec (dn_batchMaxRev d) (kv_Revision (ev_KV e))); lia).
  case_decide as Hd.
  - destruct Hd as [-> ->]. done.
  - cbn [map]. rewrite app_nil_r. destruct (matches (kv_Key (ev_KV e))) eqn:Em; [|done].
    destruct (isInternalKey (kv_Key (ev_KV e))) eqn:Ei; [done|]. by destruct Hd.
Qed.

Lemma drain_loop_spec avail : ∀ d, ∃ C rest,
  avail = C ++ rest ∧ drain_loop matches avail d =
  (mkDrain (dn_batch d ++ map eventToProto (filter wanted C)) (maxRev (dn_batchMaxRev d) C) (dn_progressRev d), rest).
Proof using.
  induction avail as [|e avail IH]; intros d; cbn [drain_loop].
  { exists [], []. split; [done|]. cbn. rewrite app_nil_r. by destruct d. }
  destruct (_ <? _)%nat.
  - destruct (IH (appendEvent matches e d)) as (C & rest & -> & ->). exists (e :: C), rest. split; [done|].
    rewrite appendEvent_spec. cbn [dn_batch dn_batchMaxRev dn_progressRev]. rewrite <- app_assoc, <- map_app, <- filter_app. done.
  - exists [], (e :: avail). split; [done|]. cbn. rewrite app_nil_r. by destruct d.
Qed.

(** The channel of the node and the goroutine: in a turn it takes the first
    event and up to [k] more that are there, or its ticker fires. *)
Inductive turn := Take (k : nat) (o : sendOutcome) | Tick (o1 o2 : sendOutcome).

Definition drainTurn (t : turn) (d : drain) (chan : list Event) : list watchRun * drain * list Event * bool :=
  match t, chan with
  | Take k o, [] => ([], d, [], true)
  | Take k o, e :: c =>
      let '(runs, d', rest, ok) := drainStep watchFragmentBytes id fragment matches (DEvents e (take k c) false) o o d in
      (runs, d', rest ++ drop k c, ok)
  | Tick o1 o2, _ =>
      let '(runs, d', _, ok) := drainStep watchFragmentBytes id fragment matches DTick o1 o2 d in
      (runs, d', chan, ok)
  end.

Fixpoint drainRun (ts : list turn) (d : drain) (chan : list Event) : list watchRun * list Event * bool :=
  match ts with
  | [] => ([], chan, true)
  | t :: ts' =>
      let '(runs, d', chan', ok) := drainTurn t d chan in
      if ok then let '(runs', chan'', ok') := drainRun ts' d' chan' in (runs ++ runs', chan'', ok')
      else (runs, chan', false)
  end.

Definition run_events (run : watchRun) : list pbEvent := concat (map wr_Events run).

Lemma eventsRun_spec batch rev :
  run_events (eventsRun watchFragmentBytes id batch rev fragment) = batch ∧
  Forall (λ f, wr_Header f = headerAt rev ∧ wr_WatchId f = id ∧ wr_Canceled f = false)
    (eventsRun watchFragmentBytes id batch rev fragment).
Proof using.
  unfold eventsRun, run_events. destruct (negb fragment || _).
  - cbn. rewrite app_nil_r. split; [done|]. by constructor; [|constructor].
  - destruct (fragment_run_spec (headerAt rev) id (splitEventsBySize batch watchFragmentBytes)) as (-> & HF & _).
    split; [|done]. unfold splitEventsBySize.
    by destruct (split_loop_spec watchFragmentBytes batch [] [] ltac:(constructor) ltac:(by left)) as [Hc _].
Qed.

(** What a flush of a batch queues. *)
Lemma flush_spec d o runs d' ok :
  flush watchFragmentBytes id fragment d o = (runs, d', ok) →
  dn_batch d' = [] ∧ dn_batchMaxRev d' = 0 ∧
  (dn_batch d = [] → runs = [] ∧ ok = true ∧ dn_progressRev d' = Z.max (dn_progressRev d) (dn_batchMaxRev d)) ∧
  (dn_batch d ≠ [] → dn_progressRev d' = dn_batchMaxRev d ∧
    (ok = true → runs = [eventsRun watchFragmentBytes id (dn_batch d) (dn_batchMaxRev d) fragment]) ∧
    (ok = false → Forall (Forall (λ f, wr_Canceled f = true ∧ wr_Events f = [])) runs)).
Proof using.
  unfold flush. destruct (dn_batch d) as [|b bs] eqn:E.
  - intros [= <- <- <-]. split; [done|]. split; [done|]. split; [|done]. intros _. split; [done|]. split; [done|]. cbn.
    destruct (Z.ltb_spec (dn_progressRev d) (dn_batchMaxRev d)); lia.
  - rewrite <- E. destruct o as [| |cur [|]]; intros [= <- <- <-]; (split; [done|]); (split; [done|]); (split; [congruence|]);
      intros _; (split; [done|]); (split; [done|]); intros; try done; repeat constructor.
Qed.

(** Between two turns nothing is held back. *)
Definition idle (d : drain) : Prop := dn_batch d = [] ∧ dn_batchMaxRev d = 0 ∧ 0 ≤ dn_progressRev d.

Lemma maxRev_ge rev es : rev ≤ maxRev rev es.
Proof using. revert rev. induction es as [|e es IH]; intros rev; cbn; [lia|]. specialize (IH (Z.max rev (revOf e))). unfold maxRev in IH. lia. Qed.

Definition sent_of (C : list Event) : list pbEvent := map eventToProto (filter wanted C).

Lemma turn_spec t d chan runs d' chan' ok :
  idle d → drainTurn t d chan = (runs, d', chan', ok) →
  idle d' ∧ ∃ C, chan = C ++ chan' ∧
  (ok = true → concat (map run_events runs) = sent_of C ∧
     (dn_progressRev d' = maxRev 0 C ∧ C ≠ [] ∨ dn_progressRev d' = Z.max (dn_progressRev d) (maxRev 0 C)) ∧
     Forall (Forall (λ f, wr_Canceled f = false ∧
       (wr_Header f = headerAt (maxRev 0 C) ∧ C ≠ [] ∨ wr_Header f = headerAt (dn_progressRev d') ∧ wr_Events f = []))) runs ∧
     (length runs ≤ 1)%nat) ∧
  (ok = false → Forall (Forall (λ f, wr_Canceled f = true ∧ wr_Events f = [])) runs).
Proof using.
  intros (Hb & Hm & H0) Ht. destruct t as [k o|o1 o2]; cbn [drainTurn] in Ht.
  - destruct chan as [|e c].
    { injection Ht as <- <- <- <-. split; [done|]. exists []. split; [done|]. split; [|done]. intros _.
      split_and!; [done| |constructor|cbn; lia]. right. cbn. lia. }
    unfold drainStep in Ht. rewrite appendEvent_spec, Hb, Hm in Ht. cbn [app dn_batch dn_batchMaxRev dn_progressRev] in Ht.
    destruct (drain_loop_spec (take k c) (mkDrain (map eventToProto (filter wanted [e])) (Z.max 0 (revOf e)) (dn_progressRev d)))
      as (C & rest & Hc & Hl). rewrite Hl in Ht. clear Hl. cbn [dn_batch dn_batchMaxRev dn_progressRev] in Ht.
    rewrite <- map_app, <- filter_app in Ht. cbn [app] in Ht.
    change (maxRev (Z.max 0 (revOf e)) C) with (maxRev 0 (e :: C)) in Ht.
    change (map eventToProto (filter wanted (e :: C))) with (sent_of (e :: C)) in Ht.
    destruct (flush _ _ _ _ _) as [[runs0 d0] ok0] eqn:Ef. cbn [andb negb] in Ht. rewrite andb_true_r in Ht. injection Ht as <- <- <- <-.
    destruct (flush_spec _ _ _ _ _ Ef) as (H1 & H2 & H3 & H4). cbn [dn_batch dn_batchMaxRev dn_progressRev] in *.
    split.
    { split; [done|]. split; [done|]. pose proof (maxRev_ge 0 (e :: C)).
      destruct (decide (sent_of (e :: C) = [])) as [E|E]; [destruct (H3 E) as (_ & _ & ->)|destruct (H4 E) as (-> & _)]; lia. }
    exists (e :: C). split; [cbn; by rewrite app_assoc, <- Hc, take_drop|].
    destruct (decide (sent_of (e :: C) = [])) as [E|E].
    + destruct (H3 E) as (-> & -> & Hp). split; [|done]. intros _. split_and!; [done|by right|constructor|cbn; lia].
    + destruct (H4 E) as (Hp & Hok & Hbad). split; [|done]. intros Ht. rewrite (Hok Ht).
      destruct (eventsRun_spec (sent_of (e :: C)) (maxRev 0 (e :: C))) as [He HF].
      split_and!; [cbn [map concat]; by rewrite He, app_nil_r|by left| |cbn; lia].
      constructor; [|constructor]. eapply Forall_impl; [exact HF|]. intros f (-> & _ & ?). split; [done|]. by left.
  - unfold drainStep in Ht. destruct (flush _ _ _ _ _) as [[runs0 d0] ok0] eqn:Ef.
    destruct (flush_spec _ _ _ _ _ Ef) as (H1 & H2 & H3 & _). destruct (H3 Hb) as (-> & -> & Hp). rewrite Hm in Hp. cbn [negb] in Ht.
    destruct (sendOrCancelSlow _ _ _) as [runs1 ok1] eqn:Es. injection Ht as <- <- <- <-.
    split; [split_and!; [done|done|lia]|]. exists []. split; [done|].
    destruct o2 as [| |cur [|]]; injection Es as <- <-; (split; [|intros; try done; repeat constructor]); intros; try done.
    split_and!; [done|by right| |cbn; lia]. constructor; [|constructor]. constructor; [|constructor]. split; [done|]. by right.
Qed.

Lemma canceled_events runs :
  Forall (Forall (λ f, wr_Canceled f = true ∧ wr_Events f = [])) runs → concat (map run_events runs) = [].
Proof using.
  induction 1 as [|run runs Hr _ IH]; [done|]. cbn. rewrite IH, app_nil_r. unfold run_events.
  induction Hr as [|f run [_ Hf] _ IHr]; [done|]. cbn. by rewrite Hf.
Qed.

Lemma drainRun_delivers ts : ∀ d chan runs rest ok,
  idle d → drainRun ts d chan = (runs, rest, ok) →
  ∃ C, chan = C ++ rest ∧ concat (map run_events runs) `prefix_of` sent_of C ∧
    (ok = true → concat (map run_events runs) = sent_of C).
Proof using.
  induction ts as [|t ts IH]; intros d chan runs rest ok Hd; cbn [drainRun].
  { intros [= <- <- <-]. exists []. by split_and!. }
  destruct (drainTurn t d chan) as [[[runs1 d1] chan1] ok1] eqn:Et.
  destruct (turn_spec _ _ _ _ _ _ _ Hd Et) as (Hd1 & C1 & -> & Hok & Hbad). destruct ok1.
  - destruct (drainRun ts d1 chan1) as [[runs2 chan2] ok2] eqn:Er. intros [= <- <- <-].
    destruct (IH _ _ _ _ _ Hd1 Er) as (C2 & -> & Hp & He). destruct (Hok eq_refl) as (Hs & _).
    exists (C1 ++ C2). rewrite app_assoc. split; [done|]. unfold sent_of in *. rewrite map_app, concat_app, Hs, filter_app, map_app.
    split; [by apply prefix_app|]. intros ->. by rewrite He.
  - intros [= <- <- <-]. exists C1. split; [done|]. rewrite canceled_events by (by apply Hbad). split; [by apply prefix_nil|done].
Qed.

(** ** Headers *)

Definition hdr (f : WatchResponse) : Z := rh_Revision (wr_Header f).
Definition modOf (ev : pbEvent) : Z := pk_ModRevision (pe_Kv ev).

(** No frame claims a revision above an event of a later run. *)
Definition runs_before (r1 r2 : watchRun) : Prop :=
  ∀ f g ev, f ∈ r1 → wr_Canceled f = false → g ∈ r2 → ev ∈ wr_Events g → hdr f ≤ modOf ev.

(** The events of the node arrive in the order of their revisions. *)
Definition arriving (prog : Z) (chan : list Event) : Prop :=
  StronglySorted (λ a b, revOf a ≤ revOf b) chan ∧
  Forall (λ e, prog ≤ revOf e ∧ 0 < revOf e ∧ valid_rev (revOf e + 1)) chan ∧ 0 ≤ prog ∧ valid_rev (prog + 1).

Lemma maxRev_in rev es : maxRev rev es = rev ∨ ∃ e, e ∈ es ∧ maxRev rev es = revOf e.
Proof using.
  revert rev. induction es as [|e es IH]; intros rev; cbn; [by left|].
  change (fold_left _ es ?r) with (maxRev r es). destruct (IH (Z.max rev (revOf e))) as [->|(e' & He' & ->)].
  - destruct (Z.max_spec rev (revOf e)) as [[_ ->]|[_ ->]]; [right|by left]. exists e. split; [left|done].
  - right. exists e'. split; [by right|done].
Qed.

Lemma maxRev_bound rev es e : e ∈ es → revOf e ≤ maxRev rev es.
Proof using.
  revert rev. induction es as [|x es IH]; intros rev; [by intros ?%not_elem_of_nil|]. cbn.
  change (fold_left _ es ?r) with (maxRev r es). intros [->|He]%elem_of_cons; [|by apply IH].
  pose proof (maxRev_ge (Z.max rev (revOf x)) es). lia.
Qed.

Lemma modOf_proto e : 0 < revOf e → valid_rev (revOf e + 1) → modOf (eventToProto e) = revOf e + 1.
Proof using. intros H0 Hv. unfold modOf, eventToProto, kvToProto. cbn. apply toEtcd_id; [unfold revOf in *; lia|done]. Qed.

(** What a header can be after consuming [C]. *)
Lemma progress_next prog C chan : arriving prog (C ++ chan) →
  ∀ p, p = maxRev 0 C ∧ C ≠ [] ∨ p = Z.max prog (maxRev 0 C) → arriving p chan.
Proof using.
  intros (Hs & Hf & H0 & Hv) p Hp. apply Forall_app in Hf as [HfC Hf].
  assert (0 ≤ maxRev 0 C ∧ valid_rev (maxRev 0 C + 1) ∧ ∀ e, e ∈ chan → maxRev 0 C ≤ revOf e) as (M0 & Mv & Mc).
  { destruct (maxRev_in 0 C) as [->|(c & Hc & ->)].
    - split; [lia|]. split; [unfold valid_rev; lia|]. intros e He. apply (proj1 (Forall_forall _ _) Hf) in He. lia.
    - pose proof (proj1 (Forall_forall _ _) HfC c Hc) as (_ & ? & ?). split; [lia|]. split; [done|]. intros e He.
      by apply (StronglySorted_app_1_elem_of _ C chan c e Hs). }
  split; [by apply StronglySorted_app_1_r in Hs|]. split.
  - apply Forall_forall. intros e He. pose proof (proj1 (Forall_forall _ _) Hf e He) as (? & ? & ?). specialize (Mc e He).
    split_and!; [|done..]. destruct Hp as [[-> _]| ->]; lia.
  - unfold valid_rev in *. destruct Hp as [[-> _]| ->]; lia.
Qed.

Lemma in_runs runs run f ev : run ∈ runs → f ∈ run → ev ∈ wr_Events f → ev ∈ concat (map run_events runs).
Proof using.
  rewrite !list_elem_of_In. intros Hr Hf He. apply in_concat. exists (run_events run). split; [by apply in_map|].
  apply in_concat. exists (wr_Events f). split; [by apply in_map|done].
Qed.

Lemma sent_of_in C ev : ev ∈ sent_of C → ∃ e, e ∈ C ∧ ev = eventToProto e.
Proof using.
  intros (e & <- & Hin%list_elem_of_In)%list_elem_of_In%in_map_iff. apply list_elem_of_filter in Hin as [_ Hin]. by exists e.
Qed.

(** The frames of one turn, and the events still to come. *)
Lemma turn_headers t d chan runs d' chan' :
  idle d → arriving (dn_progressRev d) chan → drainTurn t d chan = (runs, d', chan', true) →
  arriving (dn_progressRev d') chan' ∧
  ∀ run f, run ∈ runs → f ∈ run →
    (∀ ev, ev ∈ wr_Events f → modOf ev ≤ hdr f) ∧ ∀ e, e ∈ chan' → hdr f ≤ revOf e + 1.
Proof using.
  intros Hd Ha Ht. destruct (turn_spec _ _ _ _ _ _ _ Hd Ht) as (Hd1 & C & -> & Hok & _).
  destruct (Hok eq_refl) as (Hs & Hp & HF & _). pose proof (progress_next _ _ _ Ha _ Hp) as Ha'. split; [done|].
  intros run f Hrun Hf. pose proof (proj1 (Forall_forall _ _) HF run Hrun) as HFr.
  pose proof (proj1 (Forall_forall _ _) HFr f Hf) as (_ & Hh).
  destruct Ha' as (_ & Hf' & H0' & Hv'). pose proof Ha as (_ & HfC & _). apply Forall_app in HfC as [HfC _].
  destruct Hh as [[Hh HC]|[Hh Hev]].
  - pose proof (progress_next _ _ _ Ha (maxRev 0 C) ltac:(by left)) as (_ & Hfm & H0m & Hvm).
    assert (hdr f = maxRev 0 C + 1) as -> by (unfold hdr; rewrite Hh; by apply toEtcd_id).
    split.
    + intros ev Hev. assert (ev ∈ sent_of C) as Hin.
      { rewrite <- Hs. by eapply in_runs. }
      apply sent_of_in in Hin as (e & Hin & ->).
      pose proof (proj1 (Forall_forall _ _) HfC e Hin) as (_ & ? & ?). rewrite modOf_proto by done.
      pose proof (maxRev_bound 0 C e Hin). lia.
    + intros e He. apply (proj1 (Forall_forall _ _) Hfm) in He. lia.
  - assert (hdr f = dn_progressRev d' + 1) as -> by (unfold hdr; rewrite Hh; by apply toEtcd_id).
    rewrite Hev. split; [by intros ev ?%not_elem_of_nil|].
    intros e He. apply (proj1 (Forall_forall _ _) Hf') in He. lia.
Qed.

Lemma drainRun_headers ts : ∀ d chan runs rest ok,
  idle d → arriving (dn_progressRev d) chan → drainRun ts d chan = (runs, rest, ok) →
  StronglySorted runs_before runs ∧
  ∀ run f, run ∈ runs → f ∈ run → wr_Canceled f = false →
    (∀ ev, ev ∈ wr_Events f → modOf ev ≤ hdr f) ∧ ∀ e, e ∈ rest → hdr f ≤ revOf e + 1.
Proof using.
  induction ts as [|t ts IH]; intros d chan runs rest ok Hd Ha; cbn [drainRun].
  { intros [= <- <- <-]. split; [constructor|]. by intros run f ?%not_elem_of_nil. }
  destruct (drainTurn t d chan) as [[[runs1 d1] chan1] ok1] eqn:Et.
  destruct (turn_spec _ _ _ _ _ _ _ Hd Et) as (Hd1 & C1 & -> & Hok & Hbad). destruct ok1.
  - destruct (drainRun ts d1 chan1) as [[runs2 chan2] ok2] eqn:Er. intros [= <- <- <-].
    destruct (turn_headers _ _ _ _ _ _ Hd Ha Et) as [Ha1 Hh1]. destruct (IH _ _ _ _ _ Hd1 Ha1 Er) as [Hs2 Hh2].
    destruct (drainRun_delivers _ _ _ _ _ _ Hd1 Er) as (C2 & -> & Hpre & _).
    destruct (Hok eq_refl) as (_ & _ & _ & Hlen).
    destruct Ha1 as (_ & Hf1 & _). apply Forall_app in Hf1 as [Hf1 _]. split.
    + destruct runs1 as [|r1 [|]]; [done| |cbn in Hlen; lia]. constructor; [done|]. apply Forall_forall.
      intros run2 Hr2 f g ev Hf _ Hg Hev. pose proof (in_runs _ _ _ _ Hr2 Hg Hev) as Hin.
      assert (ev ∈ sent_of C2) as (e & He & ->)%sent_of_in by (destruct Hpre as [K ->]; apply elem_of_app; by left).
      pose proof (proj1 (Forall_forall _ _) Hf1 e He) as (_ & ? & ?). rewrite modOf_proto by done.
      apply (Hh1 r1 f); [left|done|]. apply elem_of_app. by left.
    + intros run f [Hr|Hr]%elem_of_app Hf Hc; [|by apply (Hh2 run)].
      destruct (Hh1 run f Hr Hf) as [HA HB]. split; [done|]. intros e He. apply HB, elem_of_app. by right.
  - intros [= <- <- <-]. specialize (Hbad eq_refl). rewrite Forall_forall in Hbad. split.
    + clear Et Hok. induction runs1 as [|r runs1 IHr]; [constructor|].
      constructor; [apply IHr; intros x Hx; apply Hbad; by right|].
      apply Forall_forall. intros r2 _ f g ev Hf Hc. specialize (Hbad r ltac:(left)). rewrite Forall_forall in Hbad.
      destruct (Hbad f Hf). congruence.
    + intros run f Hr Hf Hc. specialize (Hbad run Hr). rewrite Forall_forall in Hbad. destruct (Hbad f Hf). congruence.
Qed.
End Frames.

(** ** Theorems *)


(** Fragments put together are the batch, every one fits the limit or holds
    one event, and all but the last are marked. *)
Theorem watch_fragments events maxBytes h id :
  let chunks := splitEventsBySize events maxBytes in
  concat (map wr_Events (fragment_run h id chunks)) = events ∧
  Forall (λ f, wr_Events f ≠ [] ∧ (estimateEventsSize (wr_Events f) ≤ maxBytes ∨ length (wr_Events f) = 1%nat))
    (fragment_run h id chunks) ∧
  (events ≠ [] → map wr_Fragment (fragment_run h id chunks) = replicate (length chunks - 1) true ++ [false]).
Proof.
  cbv zeta. destruct (split_loop_spec maxBytes events [] [] ltac:(constructor) ltac:(by left)) as [Hc Hf].
  change (split_loop maxBytes events [] [] (estimateEventsSize [])) with (splitEventsBySize events maxBytes) in *.
  destruct (fragment_run_spec h id (splitEventsBySize events maxBytes)) as (H1 & _ & H3).
  split; [by rewrite H1|]. split.
  - clear H1 H3 Hc. induction Hf as [|c chunks Hc Hf IH]; constructor; done.
  - intros Hne. rewrite H3. destruct (splitEventsBySize events maxBytes); [by destruct Hne|].
    cbn [length]. by rewrite Nat.sub_1_r.
Qed.

(** ** Runs *)

Definition ev (key : string) (rev : Z) : Event :=
  mkEvent EventPut (mkKV (str key) (str "v") rev rev 0 1 0) None.

Definition chan1 : list Event := [ev "a" 3; ev "b" 4; ev "a" 4; ev "a" 6].
Definition watch_a (k : bytes) : bool := bool_decide (k = str "a").
Definition turns1 : list turn := [Take 1 Sent; Tick Sent Sent; Take 5 Sent].


(** The first progress notification of a watch that replays from an old
    revision claims the current one (here 6, on the wire 7) before anything
    was delivered. *)
Lemma progress_before_replay :
  drainRun 1000 1 false watch_a [Tick Sent Sent; Take 5 Sent] (drain0 6) chan1 =
  ([[notice (headerAt 6) 1 false false "" 0];
    [mkWatchResp (headerAt 6) 1 false false "" 0 false
       [eventToProto (ev "a" 3); eventToProto (ev "a" 4); eventToProto (ev "a" 6)]]], [], true).
Proof. by vm_compute. Qed.

Section StartRuns.
#[local] Notation Shared := (Shared (DB := gmap bytes bytes) (L := list Entry) (R := peerEnv)).

Definition sharedWatch (prefix : bytes) (startRev : Z) (_ : bool) : ST Shared Z :=
  shared (λ n, let '(r, n') := nodeWatch prefix startRev n in (r, n', false)).

(** At revision 2, a watch from wire revision 1 starts with revision 3: the
    history is not replayed.  From wire revision 2 it is. *)
Lemma watch_from_revision_one :
  let s := mkShared node0 [[CPut (str "a") (str "1") 0; CPut (str "a") (str "2") 0]] false in
  let from rev := mkWatchCreate (str "a") [] rev false false false in
  sb_start <$> (subscribeWatch sharedWatch (from 1) s).1 = Ok 3 ∧
  sb_start <$> (subscribeWatch sharedWatch (from 2) s).1 = Ok 1.
Proof. by vm_compute. Qed.
End StartRuns.
