(* ===== verification/Rfc3339.v ===== *)
(** * Times in JSON

    [time.Time] is written in JSON as RFC 3339 with nanoseconds and read back by
    a strict parser.  A time is its distance from 1970 in nanoseconds, the zone
    of the host an offset in minutes.  The theorem is that a time that can be
    written is read back. *)

From S2P Require Import Prelude Bytes Decimal Json.

(** ** Days *)

(** Years start in March here, so that a leap day is the last of its year. *)
Definition month_of (doy : Z) : Z := let mp := (5 * doy + 2) / 153 in if mp <? 10 then mp + 3 else mp - 9.
Definition day_of (doy : Z) : Z := doy - (153 * ((5 * doy + 2) / 153) + 2) / 5 + 1.
Definition doy_of (m d : Z) : Z := (153 * (if 2 <? m then m - 3 else m + 9) + 2) / 5 + d - 1.

(** Year, month and day of a day since 1970: four centuries have 146097 days. *)
Definition date_of (days : Z) : Z * Z * Z :=
  let z := days + 719468 in
  let doe := z mod 146097 in
  let c := Z.min (doe / 36524) 3 in
  let doc := doe - c * 36524 in
  let doq := doc mod 1461 in
  let y1 := Z.min (doq / 365) 3 in
  let doy := doq - 365 * y1 in
  let m := month_of doy in
  (400 * (z / 146097) + 100 * c + 4 * (doc / 1461) + y1 + (if m <=? 2 then 1 else 0), m, day_of doy).

Definition days_of (y m d : Z) : Z :=
  let y' := if m <=? 2 then y - 1 else y in
  let yoe := y' mod 400 in
  146097 * (y' / 400) + 365 * yoe + yoe / 4 - yoe / 100 + doy_of m d - 719468.

Definition isLeap (y : Z) : bool := (y mod 4 =? 0) && (negb (y mod 100 =? 0) || (y mod 400 =? 0)).
Definition daysIn (m y : Z) : Z :=
  if m =? 2 then (if isLeap y then 29 else 28)
  else if (m =? 4) || (m =? 6) || (m =? 9) || (m =? 11) then 30 else 31.

(** ** Writing *)

Definition nanos : Z := 10 ^ 9.
Definition daySecs : Z := 86400.

Definition trim_right (s : bytes) : bytes := rev (trim_zeros (rev s)).

Definition fmtFrac (ns : Z) : bytes :=
  match trim_right (digits 9 ns) with [] => [] | d => str "." ++ d end.

Definition fmtZone (tz : Z) : bytes :=
  if tz =? 0 then str "Z"
  else str (if tz <? 0 then "-" else "+") ++ digits 2 (Z.abs tz / 60) ++ str ":" ++ digits 2 (Z.abs tz mod 60).

(** [Time.MarshalJSON] without the quotes. *)
Definition formatTime (tz t : Z) : option bytes :=
  let local := t + tz * 60 * nanos in
  let secs := local / nanos in
  let sod := secs mod daySecs in
  let '(y, m, d) := date_of (secs / daySecs) in
  if (y <? 0) || (9999 <? y) || (1440 <=? Z.abs tz) then None
  else Some (digits 4 y ++ str "-" ++ digits 2 m ++ str "-" ++ digits 2 d ++ str "T" ++
    digits 2 (sod / 3600) ++ str ":" ++ digits 2 (sod / 60 mod 60) ++ str ":" ++ digits 2 (sod mod 60) ++
    fmtFrac (local mod nanos) ++ fmtZone tz).

(** ** Reading *)

(** A number of [n] digits between bounds, and what follows it. *)
Definition parse_part (n : nat) (lo hi : Z) (s : bytes) : option (Z * bytes) :=
  if (length s <? n)%nat then None
  else
    match ParseUint (take n s) with
    | (z, None) => if (lo <=? z) && (z <=? hi) then Some (z, drop n s) else None
    | _ => None
    end.

Definition expect (b : byte) (s : bytes) : option bytes :=
  match s with c :: s' => if bool_decide (c = b) then Some s' else None | [] => None end.

(** [parseNanoseconds] keeps nine digits. *)
Definition parse_frac_ns (s : bytes) : option (Z * bytes) :=
  match s with
  | b :: s' =>
      if bool_decide (b = x2e) then
        match span_digits s' with
        | ([], _) => Some (0, s)
        | (ds, rest) =>
            let ds' := take 9 ds in
            match ParseUint ds' with
            | (z, None) => Some (z * 10 ^ (9 - zlen ds'), rest)
            | _ => None
            end
        end
      else Some (0, s)
  | [] => Some (0, s)
  end.

(** The offset in minutes. *)
Definition parse_zone (s : bytes) : option Z :=
  match s with
  | [b] => if bool_decide (b = x5a) then Some 0 else None
  | sg :: s1 =>
      '(hr, s2) ← parse_part 2 0 23 s1;
      s3 ← expect x3a s2;
      '(mm, s4) ← parse_part 2 0 59 s3;
      match s4 with
      | [] =>
          if bool_decide (sg = x2d) then Some (- (hr * 60 + mm))
          else if bool_decide (sg = x2b) then Some (hr * 60 + mm)
          else None
      | _ => None
      end
  | [] => None
  end.

(** [parseRFC3339]; what its caller falls back on accepts nothing more. *)
Definition parseTime (s : bytes) : option Z :=
  '(y, s) ← parse_part 4 0 9999 s; s ← expect x2d s;
  '(m, s) ← parse_part 2 1 12 s; s ← expect x2d s;
  '(d, s) ← parse_part 2 1 (daysIn m y) s; s ← expect x54 s;
  '(hh, s) ← parse_part 2 0 23 s; s ← expect x3a s;
  '(mi, s) ← parse_part 2 0 59 s; s ← expect x3a s;
  '(ss, s) ← parse_part 2 0 59 s;
  '(ns, s) ← parse_frac_ns s;
  tz ← parse_zone s;
  Some ((days_of y m d * daySecs + hh * 3600 + mi * 60 + ss - tz * 60) * nanos + ns).

(** ** The calendar *)

Definition doy_check (doy : Z) : bool :=
  let m := month_of doy in
  let d := day_of doy in
  (1 <=? m) && (m <=? 12) && (1 <=? d) && (doy_of m d =? doy) &&
  ((d <=? daysIn m 1) || (doy =? 365) && (m =? 2) && (d =? 29)).

Lemma doy_checked doy : 0 ≤ doy ≤ 365 → doy_check doy = true.
Proof.
  intros Hd. assert (forallb doy_check (seqZ 0 366) = true) as Ha by (by vm_compute).
  rewrite forallb_forall in Ha. apply Ha. apply list_elem_of_In, elem_of_seqZ. lia.
Qed.

Lemma daysIn_common m y : daysIn m 1 ≤ daysIn m y.
Proof. unfold daysIn. destruct (m =? 2); [by destruct (isLeap y); vm_compute|].
  by destruct ((m =? 4) || _ || _ || _). Qed.

Lemma isLeap_cycle y k : isLeap (y + 400 * k) = isLeap y.
Proof.
  assert (∀ n j, n ≠ 0 → j * n = 400 → (y + 400 * k) mod n = y mod n) as Hm.
  { intros n j Hn Hj. rewrite <- Hj. replace (j * n * k) with ((j * k) * n) by lia. by apply Z.mod_add. }
  unfold isLeap. by rewrite (Hm 4 100), (Hm 100 4), (Hm 400 1).
Qed.

Lemma leap_100 y : y mod 4 = 0 → y mod 100 ≠ 0 ∨ y mod 400 = 0 → isLeap y = true.
Proof.
  intros H4 H. unfold isLeap. rewrite (proj2 (Z.eqb_eq _ _) H4). cbn [andb].
  destruct H as [H|H]; [by rewrite (proj2 (Z.eqb_neq _ _) H)|]. by rewrite (proj2 (Z.eqb_eq _ _) H), orb_true_r.
Qed.

Lemma date_roundtrip days y m d : date_of days = (y, m, d) →
  days_of y m d = days ∧ 1 ≤ m ≤ 12 ∧ 1 ≤ d ≤ daysIn m y.
Proof.
  unfold date_of, days_of. set (z := days + 719468). cbv zeta.
  pose proof (Z.div_mod z 146097 ltac:(lia)) as Hz. pose proof (Z.mod_pos_bound z 146097 ltac:(lia)) as Hb.
  set (doe := z mod 146097) in *. set (era := z / 146097) in *.
  pose proof (Z.div_mod doe 36524 ltac:(lia)). pose proof (Z.mod_pos_bound doe 36524 ltac:(lia)).
  set (c := Z.min (doe / 36524) 3). assert (0 ≤ c ≤ 3) by (subst c; lia).
  assert (0 ≤ doe - c * 36524 ≤ 36524 ∧ (c < 3 → doe - c * 36524 < 36524)) as (Hc & Hc3) by (subst c; lia).
  set (doc := doe - c * 36524) in *. pose proof (Z.div_mod doc 1461 ltac:(lia)) as Hd.
  pose proof (Z.mod_pos_bound doc 1461 ltac:(lia)) as Hdq. set (q := doc / 1461) in *. set (doq := doc mod 1461) in *.
  pose proof (Z.div_mod doq 365 ltac:(lia)). pose proof (Z.mod_pos_bound doq 365 ltac:(lia)).
  assert (0 ≤ q ≤ 24) by lia. set (y1 := Z.min (doq / 365) 3). assert (0 ≤ y1 ≤ 3) by (subst y1; lia).
  assert (0 ≤ doq - 365 * y1 ≤ 365 ∧ (y1 < 3 → doq - 365 * y1 < 365)) as (Hy & Hy3) by (subst y1; lia).
  set (doy := doq - 365 * y1) in *. pose proof (doy_checked doy Hy) as Hk. unfold doy_check in Hk.
  set (mm := month_of doy) in *. set (dd := day_of doy) in *.
  rewrite !andb_true_iff, orb_true_iff, !andb_true_iff, !Z.leb_le, !Z.eqb_eq in Hk.
  destruct Hk as ((((Hm1 & Hm2) & Hd1) & Hdoy) & Hday).
  intros [= <- <- <-]. set (yoe := 100 * c + 4 * q + y1).
  assert ((if mm <=? 2 then 400 * era + 100 * c + 4 * q + y1 + (if mm <=? 2 then 1 else 0) - 1
           else 400 * era + 100 * c + 4 * q + y1 + (if mm <=? 2 then 1 else 0)) = yoe + era * 400) as ->.
  { unfold yoe. destruct (mm <=? 2); lia. }
  rewrite Z.mod_add, Z.div_add by lia. assert (0 ≤ yoe < 400) as Hyoe by (unfold yoe; lia).
  rewrite (Z.mod_small yoe 400), (Z.div_small yoe 400) by done.
  assert (yoe / 4 = 25 * c + q) as -> by (unfold yoe; symmetry; apply (Z.div_unique _ 4 _ y1); lia).
  assert (yoe / 100 = c) as -> by (unfold yoe; symmetry; apply (Z.div_unique _ 100 _ (4 * q + y1)); lia).
  rewrite Hdoy. split; [unfold yoe; lia|]. split; [lia|]. split; [lia|].
  destruct Hday as [Hday|((H365 & Hm) & H29)]; [pose proof (daysIn_common mm (400 * era + 100 * c + 4 * q + y1 + (if mm <=? 2 then 1 else 0))); lia|].
  rewrite Hm, H29. assert (y1 = 3) as Hy1 by lia. unfold daysIn.
  change (2 <=? 2) with true. change (2 =? 2) with true. cbv iota. assert (isLeap (400 * era + 100 * c + 4 * q + y1 + 1) = true) as ->; [|done].
  replace (400 * era + 100 * c + 4 * q + y1 + 1) with ((100 * c + 4 * q + 4) + 400 * era) by lia. rewrite isLeap_cycle.
  apply leap_100; [symmetry; apply (Z.mod_unique _ 4 (25 * c + q + 1)); lia|].
  destruct (decide (q = 24)) as [Hq|Hq].
  - right. assert (c = 3) as -> by lia. by rewrite Hq.
  - left. assert ((100 * c + 4 * q + 4) mod 100 = 4 * q + 4) as ->; [|lia].
    symmetry. apply (Z.mod_unique _ 100 c); lia.
Qed.

(** ** Digits *)

Lemma parse_part_digits n lo hi z rest : (0 < n ≤ 9)%nat → 0 ≤ z < 10 ^ Z.of_nat n → lo ≤ z ≤ hi →
  parse_part n lo hi (digits n z ++ rest) = Some (z, rest).
Proof.
  intros Hn Hz Hlh. unfold parse_part. rewrite length_app, length_digits.
  rewrite (proj2 (Nat.ltb_ge _ _)) by lia.
  rewrite take_app_length', drop_app_length' by (by rewrite length_digits).
  assert (10 ^ Z.of_nat n ≤ 10 ^ 9) by (apply Z.pow_le_mono_r; lia).
  rewrite ParseUint_digits by (unfold max_uint64; lia).
  by rewrite (proj2 (Z.leb_le lo z)), (proj2 (Z.leb_le z hi)) by lia.
Qed.

Lemma expect_head b s : expect b ([b] ++ s) = Some s.
Proof. cbn. by rewrite bool_decide_eq_true_2. Qed.

Lemma parse_digits_app a b : ∀ n, parse_digits (a ++ b) n =
  match parse_digits a n with (m, None) => parse_digits b m | r => r end.
Proof.
  induction a as [|c a IH]; intros n; [done|]. cbn. destruct (is_digit c); [|done]. cbn [negb].
  destruct (max_uint64 <? _); [done|]. apply IH.
Qed.

Lemma parse_digits_zeros k : ∀ n m, parse_digits (replicate k (digit 0)) n = (m, None) → m = n * 10 ^ Z.of_nat k.
Proof.
  induction k as [|k IH]; intros n m; [intros [= <-]; cbn; lia|].
  change (parse_digits (replicate (S k) (digit 0)) n) with
    (if max_uint64 <? n * 10 + 0 then (max_uint64, Some ErrRange) else parse_digits (replicate k (digit 0)) (n * 10 + 0)).
  destruct (max_uint64 <? n * 10 + 0); [done|]. intros ->%IH. rewrite Nat2Z.inj_succ, Z.pow_succ_r by lia. lia.
Qed.

Lemma trim_zeros_app s : ∃ k, s = replicate k (digit 0) ++ trim_zeros s.
Proof.
  induction s as [|b s [k IH]]; [by exists O|]. cbn. case_bool_decide as Hb; [|by exists O].
  exists (S k). cbn. by rewrite Hb, <- IH.
Qed.

Lemma trim_right_app s : ∃ k, s = trim_right s ++ replicate k (digit 0).
Proof.
  destruct (trim_zeros_app (rev s)) as [k Hk]. exists k. apply (f_equal (@rev byte)) in Hk.
  rewrite rev_involutive, rev_app_distr in Hk. rewrite Hk at 1. unfold trim_right. f_equal.
  clear Hk. induction k as [|k IH]; [done|]. cbn [replicate rev]. rewrite IH. symmetry. apply replicate_cons_app.
Qed.

(** What follows a fraction does not continue it. *)
Definition frac_end (s : bytes) : Prop := match s with b :: _ => is_digit b = false ∧ b ≠ x2e | [] => True end.

Lemma span_digits_end l r : Forall (λ b, is_digit b = true) l → frac_end r → span_digits (l ++ r) = (l, r).
Proof.
  intros Hl Hr. induction Hl as [|b l Hb Hl IH]; cbn; [|by rewrite Hb, IH].
  destruct r as [|b r]; [done|]. destruct Hr as [Hd _]. cbn. by rewrite Hd.
Qed.

Lemma parse_frac_fmt ns rest : 0 ≤ ns < nanos → frac_end rest → parse_frac_ns (fmtFrac ns ++ rest) = Some (ns, rest).
Proof.
  intros Hns Hr. destruct (trim_right_app (digits 9 ns)) as [k Hk].
  pose proof (parse_digits_digits 9 ns 0 ltac:(lia) ltac:(done) ltac:(unfold max_uint64, nanos in *; lia)) as Hp.
  rewrite Hk, parse_digits_app in Hp. cbn [Z.mul Z.add] in Hp.
  pose proof (digits_all 9 ns) as Hall. rewrite Hk in Hall. apply Forall_app in Hall as [Hall _].
  pose proof (length_digits 9 ns) as Hlen. rewrite Hk, length_app, length_replicate in Hlen.
  unfold fmtFrac. destruct (trim_right (digits 9 ns)) as [|d ds] eqn:Et.
  { cbn in Hp. apply parse_digits_zeros in Hp. assert (ns = 0) as -> by lia. cbn [app].
    destruct rest as [|b rest]; [done|]. destruct Hr as [_ Hb]. cbn. by rewrite bool_decide_eq_false_2. }
  destruct (parse_digits (d :: ds) 0) as [v [e|]] eqn:Ev; [done|]. apply parse_digits_zeros in Hp.
  rewrite <- app_assoc. change (str "." ++ (d :: ds) ++ rest) with (x2e :: (d :: ds) ++ rest).
  unfold parse_frac_ns. rewrite bool_decide_eq_true_2 by done. rewrite span_digits_end by done.
  rewrite take_ge by lia. change (ParseUint (d :: ds)) with (parse_digits (d :: ds) 0). rewrite Ev. do 2 f_equal.
  assert (9 - zlen (d :: ds) = Z.of_nat k) as -> by (unfold zlen; lia). lia.
Qed.

Lemma parse_zone_fmt tz : Z.abs tz < 1440 → parse_zone (fmtZone tz) = Some tz ∧ frac_end (fmtZone tz).
Proof.
  intros Htz. unfold fmtZone. destruct (Z.eqb_spec tz 0) as [->|Hne]; [done|].
  pose proof (Z.div_mod (Z.abs tz) 60 ltac:(lia)) as Hd. pose proof (Z.mod_pos_bound (Z.abs tz) 60 ltac:(lia)).
  assert (0 ≤ Z.abs tz / 60 < 24) by (split; [apply Z.div_pos|apply Z.div_lt_upper_bound]; lia).
  set (h := Z.abs tz / 60) in *. set (mi := Z.abs tz mod 60) in *.
  assert (∀ sg, parse_zone (sg :: digits 2 h ++ str ":" ++ digits 2 mi) =
    if bool_decide (sg = x2d) then Some (- (h * 60 + mi)) else if bool_decide (sg = x2b) then Some (h * 60 + mi) else None) as Hp.
  { intros sg. unfold parse_zone. destruct (digits 2 h ++ _) eqn:E; [by cbn in E|]. rewrite <- E. clear E.
    rewrite parse_part_digits by (cbn; lia). cbn [mbind option_bind].
    change (expect x3a (str ":" ++ digits 2 mi)) with (Some (digits 2 mi)). cbn [mbind option_bind].
    rewrite <- (app_nil_r (digits 2 mi)), parse_part_digits by (cbn; lia). done. }
  destruct (Z.ltb_spec tz 0).
  - change (str "-") with [x2d]. cbn [app]. rewrite Hp. cbn. split; [f_equal; lia|done].
  - change (str "+") with [x2b]. cbn [app]. rewrite Hp. cbn. split; [f_equal; lia|done].
Qed.

(** A time written in a zone is read back. *)
Lemma time_roundtrip tz t s : formatTime tz t = Some s → parseTime s = Some t.
Proof.
  unfold formatTime. cbv zeta. set (local := t + tz * 60 * nanos). set (secs := local / nanos).
  pose proof (Z.div_mod local nanos ltac:(done)) as Hl. pose proof (Z.mod_pos_bound local nanos ltac:(done)) as Hn.
  pose proof (Z.div_mod secs daySecs ltac:(done)) as Hs. pose proof (Z.mod_pos_bound secs daySecs ltac:(done)) as Hsod.
  set (sod := secs mod daySecs) in *. destruct (date_of (secs / daySecs)) as [[y m] d] eqn:Ed.
  apply date_roundtrip in Ed as (Hdays & Hm & Hd).
  destruct (Z.ltb_spec y 0); [done|]. destruct (Z.ltb_spec 9999 y); [done|].
  destruct (Z.leb_spec 1440 (Z.abs tz)); [done|]. intros Hf%(inj Some). rewrite <- Hf. clear Hf.
  destruct (parse_zone_fmt tz ltac:(done)) as [Hz Hend]. unfold daySecs in *.
  assert (daysIn m y ≤ 31) by (unfold daysIn; repeat case_match; lia).
  pose proof (Z.div_mod sod 3600 ltac:(lia)). pose proof (Z.mod_pos_bound sod 3600 ltac:(lia)).
  pose proof (Z.div_mod sod 60 ltac:(lia)). pose proof (Z.mod_pos_bound sod 60 ltac:(lia)).
  pose proof (Z.div_mod (sod / 60) 60 ltac:(lia)). pose proof (Z.mod_pos_bound (sod / 60) 60 ltac:(lia)).
  assert (sod / 60 / 60 = sod / 3600) by (rewrite Z.div_div by lia; done).
  assert (0 ≤ sod / 3600 ≤ 23) by lia.
  unfold parseTime. change (str "-") with [x2d]. change (str ":") with [x3a]. change (str "T") with [x54].
  do 5 (rewrite parse_part_digits by (cbn; lia); cbn [mbind option_bind]; rewrite expect_head; cbn [mbind option_bind]).
  rewrite parse_part_digits by (cbn; lia). cbn [mbind option_bind].
  rewrite parse_frac_fmt by done. cbn [mbind option_bind]. rewrite Hz. cbn [mbind option_bind].
  rewrite Hdays. f_equal. unfold daySecs. fold secs in Hl. change nanos with 1000000000 in *. lia.
Qed.
