(* ===== verification/AuthStore.v ===== *)
(** * Users, roles and permissions

    etcd/auth/types.go, ratelimit.go and store.go: what a permission covers, the
    limiter of failed logins, and the store that keeps users and roles in maps
    and in the reserved key space of the node.  bcrypt is a parameter; the host
    gives its salts and the clock. *)

From S2P Require Import Prelude Bytes Decimal WalEntry Os Json Wal Pebble StoreKeys Store Node NodeSpec NodeReads NodeApi EtcdKv EtcdLease.

(** ** Permissions *)

(** The enum of the etcd API. *)
Definition READ : Z := 0.
Definition WRITE : Z := 1.
Definition READWRITE : Z := 2.

Definition RootRole : bytes := str "root".
Definition RootUser : bytes := str "root".

Record Permission := mkPerm { pm_Key : bytes; pm_RangeEnd : bytes; pm_PermType : Z }.
Record Role := mkRole { ro_Name : bytes; ro_Permissions : list Permission }.
Record User := mkUser { us_Name : bytes; us_PasswordHash : bytes; us_Roles : list bytes }.

Definition permIncludes (have want : Z) : bool := (have =? READWRITE) || (have =? want).

Definition covers (p : Permission) (key : bytes) (pt : Z) : bool :=
  if negb (permIncludes (pm_PermType p) pt) then false
  else if bool_decide (pm_RangeEnd p = []) then bool_decide (key = pm_Key p)
  else if bool_decide (pm_RangeEnd p = [x00]) then bytes_leb (pm_Key p) key
  else bytes_leb (pm_Key p) key && bytes_ltb key (pm_RangeEnd p).

Definition HasPermission (r : Role) (key : bytes) (pt : Z) : bool :=
  if bool_decide (ro_Name r = RootRole) then true else existsb (λ p, covers p key pt) (ro_Permissions r).

Definition HasRole (u : User) (roleName : bytes) : bool := existsb (λ r, bool_decide (r = roleName)) (us_Roles u).

(** ** Their JSON *)

Definition permJSON (p : Permission) : jval :=
  JObj ([(str "key", JStr (pm_Key p))] ++
        omitempty "rangeEnd" (bool_decide (pm_RangeEnd p = [])) (JStr (pm_RangeEnd p)) ++
        [(str "permType", jint (pm_PermType p))]).

Definition roleJSON (r : Role) : jval :=
  JObj ([(str "name", JStr (ro_Name r))] ++
        omitempty "permissions" (bool_decide (length (ro_Permissions r) = 0%nat)) (JArr (map permJSON (ro_Permissions r)))).

Definition userJSON (u : User) : jval :=
  JObj ([(str "name", JStr (us_Name u)); (str "passwordHash", JStr (us_PasswordHash u))] ++
        omitempty "roles" (bool_decide (us_Roles u = [])) (JArr (map JStr (us_Roles u)))).

(** An int32. *)
Definition as_int32 (v : jval) : option (option Z) :=
  o ← as_int v;
  match o with
  | Some z => if (- 2 ^ 31 <=? z) && (z <? 2 ^ 31) then Some (Some z) else None
  | None => Some None
  end.

Definition permFields : list (field Permission) :=
  [ mk_field "key" as_string (λ x p, mkPerm x (pm_RangeEnd p) (pm_PermType p));
    mk_field "rangeEnd" as_string (λ x p, mkPerm (pm_Key p) x (pm_PermType p));
    mk_field "permType" as_int32 (λ x p, mkPerm (pm_Key p) (pm_RangeEnd p) x) ].

Definition roleFields : list (field Role) :=
  [ mk_field "name" as_string (λ x r, mkRole x (ro_Permissions r));
    mk_field "permissions" (as_records permFields (mkPerm [] [] 0)) (λ x r, mkRole (ro_Name r) x) ].

Definition userFields : list (field User) :=
  [ mk_field "name" as_string (λ x u, mkUser x (us_PasswordHash u) (us_Roles u));
    mk_field "passwordHash" as_string (λ x u, mkUser (us_Name u) x (us_Roles u));
    mk_field "roles" as_strings (λ x u, mkUser (us_Name u) (us_PasswordHash u) x) ].

Definition decodeUser (data : bytes) : result User := Unmarshal userFields (mkUser [] [] []) data.
Definition decodeRole (data : bytes) : result Role := Unmarshal roleFields (mkRole [] []) data.

(** ** Reserved keys *)

Definition authPrefix : bytes := x00 :: str "auth/".
Definition enabledKey : bytes := authPrefix ++ str "enabled".
Definition usersPrefix : bytes := authPrefix ++ str "users/".
Definition rolesPrefix : bytes := authPrefix ++ str "roles/".
Definition tokensPrefix : bytes := authPrefix ++ str "tokens/".

Definition IsAuthPrefix (key : bytes) : bool := has_prefix authPrefix key.

(** ** State *)

(** A time that was never set is [None]. *)
Record authAttempt := mkAttempt { at_failures : Z; at_firstFail : Z; at_lockedUntil : option Z }.
Notation rateLimiter := (gmap bytes authAttempt).

Record AuthStore := mkAuthStore {
  as_enabled : bool; as_users : gmap bytes User; as_roles : gmap bytes Role; as_rateLim : rateLimiter }.

Record tokenEntry := mkToken { te_username : bytes; te_expiry : Z }.

(** [tk_n]: the token store has a node. *)
Record TokenStore := mkTokenStore { tk_tokens : gmap bytes tokenEntry; tk_ttl : Z; tk_n : bool }.

Record Auth (N : Type) := mkAuth { au_host : Host N; au_store : AuthStore; au_tokens : TokenStore }.
Arguments mkAuth {N} _ _ _.
Arguments au_host {N} _.
Arguments au_store {N} _.
Arguments au_tokens {N} _.

Definition set_host {N} (h : Host N) (a : Auth N) : Auth N := mkAuth h (au_store a) (au_tokens a).
Definition set_store {N} (s : AuthStore) (a : Auth N) : Auth N := mkAuth (au_host a) s (au_tokens a).
Definition set_tokens {N} (t : TokenStore) (a : Auth N) : Auth N := mkAuth (au_host a) (au_store a) t.
Definition on_host {N A} (m : ST (Host N) A) : ST (Auth N) A := zoom au_host set_host m.

Definition set_enabled (b : bool) (s : AuthStore) : AuthStore := mkAuthStore b (as_users s) (as_roles s) (as_rateLim s).
Definition set_users (m : gmap bytes User) (s : AuthStore) : AuthStore := mkAuthStore (as_enabled s) m (as_roles s) (as_rateLim s).
Definition set_roles (m : gmap bytes Role) (s : AuthStore) : AuthStore := mkAuthStore (as_enabled s) (as_users s) m (as_rateLim s).
Definition set_rateLim (m : rateLimiter) (s : AuthStore) : AuthStore := mkAuthStore (as_enabled s) (as_users s) (as_roles s) m.

Definition get_store {N} : ST (Auth N) AuthStore := a ← get_st; mret (au_store a).
Definition mod_store {N} (f : AuthStore → AuthStore) : ST (Auth N) () := modify (λ a, set_store (f (au_store a)) a).
Definition authNow {N} : ST (Auth N) Z := on_host timeNow.

(** ** The limiter *)

Definition maxFailures : Z := 5.
Definition failureWindow : Z := 5 * 60 * Second.
Definition lockoutDuration : Z := 15 * 60 * Second.

Section Limiter.
Context {N : Type}.
Local Notation Auth := (Auth N).

Definition set_attempt (username : bytes) (a : authAttempt) : ST Auth () :=
  mod_store (λ s, set_rateLim (<[username := a]> (as_rateLim s)) s).

Definition IsLocked (username : bytes) : ST Auth bool :=
  s ← get_store;
  match as_rateLim s !! username with
  | None => mret false
  | Some a =>
      now ← authNow;
      match at_lockedUntil a with
      | None => mret false
      | Some t =>
          if now <? t then mret true
          else mod_store (λ s, set_rateLim (delete username (as_rateLim s)) s);; mret false
      end
  end.

Definition RecordFailure (username : bytes) : ST Auth () :=
  s ← get_store;
  match as_rateLim s !! username with
  | None => now ← authNow; set_attempt username (mkAttempt 1 now None)
  | Some a =>
      since ← authNow;
      if failureWindow <? timeSub since (at_firstFail a) then
        now ← authNow; set_attempt username (mkAttempt 1 now None)
      else
        let failures := i64 (at_failures a + 1) in
        if maxFailures <=? failures then
          now ← authNow; set_attempt username (mkAttempt failures (at_firstFail a) (Some (now + lockoutDuration)))
        else set_attempt username (mkAttempt failures (at_firstFail a) (at_lockedUntil a))
  end.

Definition RecordSuccess (username : bytes) : ST Auth () :=
  mod_store (λ s, set_rateLim (delete username (as_rateLim s)) s).
End Limiter.

(** ** The store *)

Section Store.
Context {N : Type} `{NI : T4Node N}.
Local Notation Auth := (Auth N).

(** [bcrypt.GenerateFromPassword] with a salt, and
    [bcrypt.CompareHashAndPassword]. *)
Context (bcryptGenerate : Z → bytes → result bytes) (bcryptCompare : bytes → bytes → bool).

Definition authPut (key value : bytes) : ST Auth () := _ ← on_host (on_node (t4_Put key value 0)); mret tt.
Definition authDelete (key : bytes) : ST Auth () := _ ← on_host (on_node (t4_Delete key)); mret tt.
Definition authList (prefix : bytes) : ST Auth (list KeyValue) := on_host (on_node (t4_List false prefix [])).

Definition errUserNotFound : err := ErrText "user not found".
Definition errRoleNotFound : err := ErrText "role not found".

Definition getUser (name : bytes) : ST Auth User :=
  s ← get_store;
  match as_users s !! name with Some u => mret u | None => throw errUserNotFound end.

Definition getRole (name : bytes) : ST Auth Role :=
  s ← get_store;
  match as_roles s !! name with Some r => mret r | None => throw errRoleNotFound end.

Definition putUser (u : User) : ST Auth () :=
  authPut (usersPrefix ++ us_Name u) (print (userJSON u));;
  mod_store (λ s, set_users (<[us_Name u := u]> (as_users s)) s).

Definition putRole (r : Role) : ST Auth () :=
  authPut (rolesPrefix ++ ro_Name r) (print (roleJSON r));;
  mod_store (λ s, set_roles (<[ro_Name r := r]> (as_roles s)) s).

Definition setEnabled (on : bool) : ST Auth () :=
  authPut enabledKey (if on then str "1" else str "0");;
  mod_store (set_enabled on).

(** [load], and the state of a new store. *)
Fixpoint load_users (kvs : list KeyValue) : ST Auth () :=
  match kvs with
  | [] => mret tt
  | kv :: kvs' =>
      match decodeUser (kv_Value kv) with
      | Err _ => throw (ErrText "decode user")
      | Ok u => mod_store (λ s, set_users (<[us_Name u := u]> (as_users s)) s);; load_users kvs'
      end
  end.

Fixpoint load_roles (kvs : list KeyValue) : ST Auth () :=
  match kvs with
  | [] => mret tt
  | kv :: kvs' =>
      match decodeRole (kv_Value kv) with
      | Err _ => throw (ErrText "decode role")
      | Ok r => mod_store (λ s, set_roles (<[ro_Name r := r]> (as_roles s)) s);; load_roles kvs'
      end
  end.

Definition load : ST Auth () :=
  kv ← st_map_err (λ _, ErrText "load auth state") (on_host (on_node (t4_Get false enabledKey [])));
  (match kv with
   | Some kv => mod_store (set_enabled (bool_decide (kv_Value kv = str "1")))
   | None => mret tt
   end);;
  userKVs ← st_map_err (λ _, ErrText "load users") (authList usersPrefix);
  load_users userKVs;;
  roleKVs ← st_map_err (λ _, ErrText "load roles") (authList rolesPrefix);
  load_roles roleKVs.

Definition NewStore : ST Auth () :=
  mod_store (λ _, mkAuthStore false ∅ ∅ ∅);; load.

Definition IsEnabled : ST Auth bool := s ← get_store; mret (as_enabled s).

Definition errRootUser : err := ErrText "root user must exist before enabling auth".
Definition Enable : ST Auth () :=
  s ← get_store;
  if as_enabled s then mret tt
  else
    st_map_err (λ _, errRootUser) (getUser RootUser);;
    r ← try (getRole RootRole);
    (match r with
     | Ok _ => mret tt
     | Err _ => st_map_err (λ _, ErrText "create root role") (putRole (mkRole RootRole []))
     end);;
    setEnabled true.

Definition Disable : ST Auth () :=
  s ← get_store;
  if negb (as_enabled s) then mret tt else setEnabled false.

Definition GetUser : bytes → ST Auth User := getUser.
Definition GetRole : bytes → ST Auth Role := getRole.
Definition PutRole : Role → ST Auth () := putRole.

(** An empty password keeps the hash of [u]. *)
Definition PutUser (u : User) (plainPassword : bytes) : ST Auth () :=
  if bool_decide (plainPassword = []) then putUser u
  else
    h ← st_map_err (λ _, ErrText "hash password")
          (salt ← on_host randRead; from_result (bcryptGenerate salt plainPassword));
    putUser (mkUser (us_Name u) h (us_Roles u)).

Definition errDeleteRootUser : err := ErrText "cannot delete root user while auth is enabled".
Definition DeleteUser (name : bytes) : ST Auth () :=
  s ← get_store;
  if as_enabled s && bool_decide (name = RootUser) then throw errDeleteRootUser
  else
    getUser name;;
    authDelete (usersPrefix ++ name);;
    mod_store (λ s, set_users (delete name (as_users s)) s).

Definition errDeleteRootRole : err := ErrText "cannot delete root role while auth is enabled".
Definition DeleteRole (name : bytes) : ST Auth () :=
  s ← get_store;
  if as_enabled s && bool_decide (name = RootRole) then throw errDeleteRootRole
  else
    getRole name;;
    authDelete (rolesPrefix ++ name);;
    mod_store (λ s, set_roles (delete name (as_roles s)) s).

(** In the order of the map. *)
Definition ListUsers : ST Auth (list User) := s ← get_store; mret (map snd (map_to_list (as_users s))).
Definition ListRoles : ST Auth (list Role) := s ← get_store; mret (map snd (map_to_list (as_roles s))).

Definition errLocked : err := ErrText "authentication failed: too many attempts, try again later".
Definition errAuthFailed : err := ErrText "authentication failed".
Definition CheckPassword (name password : bytes) : ST Auth () :=
  locked ← IsLocked name;
  if (locked : bool) then throw errLocked
  else
    r ← try (getUser name);
    match r with
    | Err _ => RecordFailure name;; throw errAuthFailed
    | Ok u =>
        if bcryptCompare (us_PasswordHash u) password then RecordSuccess name
        else RecordFailure name;; throw errAuthFailed
    end.

Definition GrantRole (userName roleName : bytes) : ST Auth () :=
  u ← getUser userName;
  _ ← getRole roleName;
  if HasRole u roleName then mret tt
  else putUser (mkUser (us_Name u) (us_PasswordHash u) (us_Roles u ++ [roleName])).

(** [x := s[:0]] followed by appends writes into the array of [s]: what [s]
    reads afterwards, and [x]. *)
Definition filter_in_place {A} (keep : A → bool) (s : list A) : list A * list A :=
  let x := List.filter keep s in (x ++ drop (length x) s, x).

(** The slice of the map is written before the user is stored. *)
Definition RevokeRole (userName roleName : bytes) : ST Auth () :=
  u ← getUser userName;
  let '(old, roles) := filter_in_place (λ r, negb (bool_decide (r = roleName))) (us_Roles u) in
  mod_store (λ s, set_users (<[userName := mkUser (us_Name u) (us_PasswordHash u) old]> (as_users s)) s);;
  putUser (mkUser (us_Name u) (us_PasswordHash u) roles).

(** The first permission for the range replaced, if there is one. *)
Fixpoint replace_perm (perms : list Permission) (p : Permission) : option (list Permission) :=
  match perms with
  | [] => None
  | existing :: perms' =>
      if bool_decide (pm_Key existing = pm_Key p) && bool_decide (pm_RangeEnd existing = pm_RangeEnd p)
      then Some (p :: perms')
      else cons existing <$> replace_perm perms' p
  end.

(** A permission is replaced in the slice of the map. *)
Definition GrantPermission (roleName : bytes) (p : Permission) : ST Auth () :=
  r ← getRole roleName;
  match replace_perm (ro_Permissions r) p with
  | Some perms =>
      mod_store (λ s, set_roles (<[roleName := mkRole (ro_Name r) perms]> (as_roles s)) s);;
      putRole (mkRole (ro_Name r) perms)
  | None => putRole (mkRole (ro_Name r) (ro_Permissions r ++ [p]))
  end.

Definition RevokePermission (roleName key rangeEnd : bytes) : ST Auth () :=
  r ← getRole roleName;
  let '(old, perms) := filter_in_place
    (λ p, negb (bool_decide (pm_Key p = key)) || negb (bool_decide (pm_RangeEnd p = rangeEnd))) (ro_Permissions r) in
  mod_store (λ s, set_roles (<[roleName := mkRole (ro_Name r) old]> (as_roles s)) s);;
  putRole (mkRole (ro_Name r) perms).

Definition errDenied : err := ErrText "permission denied".
Definition CheckPermission (userName key : bytes) (pt : Z) : ST Auth () :=
  s ← get_store;
  if negb (as_enabled s) then mret tt
  else
    u ← getUser userName;
    if existsb (λ roleName, match as_roles s !! roleName with Some r => HasPermission r key pt | None => false end)
         (us_Roles u)
    then mret tt
    else throw errDenied.
End Store.
