(* ===== verification/AuthService.v ===== *)
(** * Tokens, the interceptor and the Auth service

    etcd/auth/tokens.go, interceptor.go and service.go: bearer tokens with a
    lifetime, kept in a map and in the reserved key space of the node; the check
    of the token and of the permissions that precedes every handler; and the
    methods of the Auth service. *)

From S2P Require Import Prelude Bytes Decimal WalEntry Os Md5 Json Wal Pebble StoreKeys Store StoreSpec Peer Node NodeSpec NodeReads NodeApi EtcdKv EtcdLease EtcdTxn EtcdWatch Rfc3339 AuthStore.

Section Auth.
Context {N : Type} `{NI : T4Node N}.
Local Notation Auth := (Auth N).
Context (bcryptGenerate : Z → bytes → result bytes) (bcryptCompare : bytes → bytes → bool).

(** The zone of the host. *)
Context (tz : Z).

(** ** Tokens *)

Definition get_tokens : ST Auth TokenStore := a ← get_st; mret (au_tokens a).
Definition mod_tokens (f : gmap bytes tokenEntry → gmap bytes tokenEntry) : ST Auth () :=
  modify (λ a, let ts := au_tokens a in set_tokens (mkTokenStore (f (tk_tokens ts)) (tk_ttl ts) (tk_n ts)) a).

(** [json.Marshal] fails for a time outside the years of four digits. *)
Definition marshalToken (e : tokenEntry) : option bytes :=
  s ← formatTime tz (te_expiry e);
  Some (print (JObj [(str "username", JStr (te_username e)); (str "expiry", JStr s)])).

(** A stored time has no escapes. *)
Definition as_time (v : jval) : option (option Z) :=
  match v with JNull => Some None | JStr s => Some <$> parseTime s | _ => None end.

(** The zero [time.Time] is the first of January of the year 1. *)
Definition zeroTime : Z := days_of 1 1 1 * daySecs * nanos.
Definition tokenFields : list (field tokenEntry) :=
  [ mk_field "username" as_string (λ x e, mkToken x (te_expiry e));
    mk_field "expiry" as_time (λ x e, mkToken (te_username e) x) ].

Definition decodeToken (data : bytes) : result tokenEntry := Unmarshal tokenFields (mkToken [] zeroTime) data.

Definition trim_prefix (prefix s : bytes) : bytes := if has_prefix prefix s then drop (length prefix) s else s.

(** The tokens of a listing that have not expired, and the keys of the others;
    malformed ones are skipped. *)
Fixpoint load_loop (now : Z) (kvs : list KeyValue) (expired : list bytes) : ST Auth (list bytes) :=
  match kvs with
  | [] => mret expired
  | kv :: kvs' =>
      let tok := trim_prefix tokensPrefix (kv_Key kv) in
      match decodeToken (kv_Value kv) with
      | Err _ => load_loop now kvs' expired
      | Ok st =>
          if te_expiry st <? now then load_loop now kvs' (expired ++ [tok])
          else mod_tokens (<[tok := st]>);; load_loop now kvs' expired
      end
  end.

Fixpoint delete_tokens (toks : list bytes) : ST Auth () :=
  match toks with
  | [] => mret tt
  | tok :: toks' => try (authDelete (tokensPrefix ++ tok));; delete_tokens toks'
  end.

(** The deletions run in the background; here they follow. *)
Definition loadTokens : ST Auth () :=
  r ← try (authList tokensPrefix);
  match r with
  | Err _ => mret tt
  | Ok kvs => now ← authNow; expired ← load_loop now kvs []; delete_tokens expired
  end.

Definition NewTokenStore (ttl : Z) (n : bool) : ST Auth () :=
  modify (set_tokens (mkTokenStore ∅ ttl n));;
  if n then loadTokens else mret tt.

Definition Generate (username : bytes) : ST Auth bytes :=
  raw ← on_host randRead;
  let tok := hex (be 32 raw) in
  now ← authNow;
  ts ← get_tokens;
  let entry := mkToken username (now + tk_ttl ts) in
  mod_tokens (<[tok := entry]>);;
  (if tk_n ts then
     match marshalToken entry with
     | Some data => try (authPut (tokensPrefix ++ tok) data);; mret tt
     | None => mret tt
     end
   else mret tt);;
  mret tok.

Definition Lookup (token : bytes) : ST Auth (option bytes) :=
  ts ← get_tokens;
  match tk_tokens ts !! token with
  | None => mret None
  | Some e => now ← authNow; mret (if te_expiry e <? now then None else Some (te_username e))
  end.

Definition Revoke (token : bytes) : ST Auth () :=
  mod_tokens (delete token);;
  ts ← get_tokens;
  if tk_n ts then try (authDelete (tokensPrefix ++ token));; mret tt else mret tt.

(** One tick of [evictLoop]. *)
Definition evict : ST Auth () :=
  now ← authNow;
  ts ← get_tokens;
  let expired := filter (λ p, te_expiry p.2 < now) (tk_tokens ts) in
  mod_tokens (filter (λ p, ¬ te_expiry p.2 < now));;
  if tk_n ts then delete_tokens (map fst (map_to_list expired)) else mret tt.

(** ** The interceptor *)

(** Requests as the interceptor sees them; [None] is [nil], which is what a
    stream is checked with. *)
Inductive Request :=
  | RqRange (r : RangeRequest)
  | RqPut (r : PutRequest)
  | RqDeleteRange (r : DeleteRangeRequest)
  | RqTxn (r : pbTxnRequest)
  | RqWatch (r : WatchRequest)
  | RqOther.

Definition mRange : bytes := str "/etcdserverpb.KV/Range".
Definition mPut : bytes := str "/etcdserverpb.KV/Put".
Definition mDeleteRange : bytes := str "/etcdserverpb.KV/DeleteRange".
Definition mTxn : bytes := str "/etcdserverpb.KV/Txn".
Definition mCompact : bytes := str "/etcdserverpb.KV/Compact".
Definition mWatch : bytes := str "/etcdserverpb.Watch/Watch".

Definition methodPerm (method : bytes) : option Z :=
  if bool_decide (method = mRange) then Some READ
  else if bool_decide (method = mPut) then Some WRITE
  else if bool_decide (method = mDeleteRange) then Some WRITE
  else if bool_decide (method = mTxn) then Some WRITE
  else if bool_decide (method = mWatch) then Some READ
  else None.

Definition openMethods : list bytes :=
  [str "/etcdserverpb.Auth/Authenticate"; str "/etcdserverpb.Auth/AuthEnable"; str "/etcdserverpb.Auth/AuthDisable";
   str "/etcdserverpb.Auth/AuthStatus"; str "/grpc.health.v1.Health/Check"; str "/grpc.health.v1.Health/Watch"].

Definition opKeys (op : RequestOp) : list bytes :=
  match op with
  | RequestRange r => [rq_Key r]
  | RequestPut r => [pq_Key r]
  | RequestDeleteRange r => [dq_Key r]
  | RequestTxn | RequestNone => []
  end.

(** In the order of their first occurrence. *)
Fixpoint add_keys (ks keys : list bytes) : list bytes :=
  match ks with
  | [] => keys
  | k :: ks' => add_keys ks' (if bool_decide (k ∈ keys) then keys else keys ++ [k])
  end.

Definition txnKeys (r : pbTxnRequest) : list bytes :=
  add_keys (map cp_Key (pt_Compare r) ++ concat (map opKeys (pt_Success r)) ++ concat (map opKeys (pt_Failure r))) [].

Definition extractKeys (method : bytes) (req : option Request) : list bytes :=
  match req with
  | Some (RqRange r) => if bool_decide (method = mRange) then [rq_Key r] else []
  | Some (RqPut r) => if bool_decide (method = mPut) then [pq_Key r] else []
  | Some (RqDeleteRange r) => if bool_decide (method = mDeleteRange) then [dq_Key r] else []
  | Some (RqTxn r) => if bool_decide (method = mTxn) then txnKeys r else []
  | Some (RqWatch (CreateRequest cr)) => if bool_decide (method = mWatch) then [wc_Key cr] else []
  | _ => []
  end.

Definition errReserved : err := ErrStatus PermissionDenied "access to internal auth namespace is not allowed".
Definition checkAuthKeyAccess (method : bytes) (req : option Request) : result () :=
  match req with
  | None => Ok tt
  | Some _ =>
      if negb (has_prefix (str "/etcdserverpb.KV/") method) then Ok tt
      else if existsb IsAuthPrefix (extractKeys method req) then Err errReserved else Ok tt
  end.

(** The values of the key [token] in the metadata of the call, if it has any. *)
Definition tokenFromCtx (md : option (list bytes)) : ST Auth bytes :=
  match md with
  | None => throw (ErrStatus Unauthenticated "missing metadata")
  | Some [] => throw (ErrStatus Unauthenticated "missing token")
  | Some (tok :: _) =>
      u ← Lookup tok;
      match u with Some username => mret username | None => throw (ErrStatus Unauthenticated "invalid or expired token") end
  end.

Fixpoint check_keys (username : bytes) (pt : Z) (keys : list bytes) : ST Auth () :=
  match keys with
  | [] => mret tt
  | key :: keys' =>
      st_map_err (λ _, ErrStatus PermissionDenied "permission denied on key") (CheckPermission username key pt);;
      check_keys username pt keys'
  end.

Definition checkAuth (md : option (list bytes)) (method : bytes) (req : option Request) : ST Auth () :=
  if bool_decide (method ∈ openMethods) then mret tt
  else
    enabled ← IsEnabled;
    if negb enabled then from_result (checkAuthKeyAccess method req)
    else
      username ← tokenFromCtx md;
      from_result (checkAuthKeyAccess method req);;
      match methodPerm method with
      | None => mret tt
      | Some pt => check_keys username pt (extractKeys method req)
      end.

Definition unaryInterceptor {A} (md : option (list bytes)) (method : bytes) (req : Request) (handler : ST Auth A) : ST Auth A :=
  checkAuth md method (Some req);; handler.
Definition streamInterceptor {A} (md : option (list bytes)) (method : bytes) (handler : ST Auth A) : ST Auth A :=
  checkAuth md method None;; handler.

(** The KV service behind the interceptor. *)
Inductive KVRequest :=
  | KRange (r : RangeRequest)
  | KPut (r : PutRequest)
  | KDeleteRange (r : DeleteRangeRequest)
  | KTxn (r : pbTxnRequest)
  | KCompact (rev : Z).

Inductive KVResponse :=
  | KRangeResp (r : RangeResponse)
  | KPutResp (r : PutResponse)
  | KDeleteRangeResp (r : DeleteRangeResponse)
  | KTxnResp (r : pbTxnResponse)
  | KCompactResp (h : ResponseHeader).

Definition kvMethod (req : KVRequest) : bytes :=
  match req with
  | KRange _ => mRange | KPut _ => mPut | KDeleteRange _ => mDeleteRange | KTxn _ => mTxn | KCompact _ => mCompact
  end.

Definition kvRequest (req : KVRequest) : Request :=
  match req with
  | KRange r => RqRange r | KPut r => RqPut r | KDeleteRange r => RqDeleteRange r | KTxn r => RqTxn r | KCompact _ => RqOther
  end.

Definition kvHandler (serializableOnly : bool) (req : KVRequest) : ST (Host N) KVResponse :=
  match req with
  | KRange r => resp ← on_node (Range serializableOnly r); mret (KRangeResp resp)
  | KPut r => resp ← Put r; mret (KPutResp resp)
  | KDeleteRange r => resp ← on_node (DeleteRange r); mret (KDeleteRangeResp resp)
  | KTxn r => resp ← Txn serializableOnly r; mret (KTxnResp resp)
  | KCompact rev => resp ← on_node (Compact rev); mret (KCompactResp resp)
  end.

Definition serveKV (serializableOnly : bool) (md : option (list bytes)) (req : KVRequest) : ST Auth KVResponse :=
  unaryInterceptor md (kvMethod req) (kvRequest req) (on_host (kvHandler serializableOnly req)).

(** ** The Auth service *)

Definition AuthEnable : ST Auth () := st_map_err (λ _, ErrStatus FailedPrecondition "auth enable") Enable.
Definition AuthDisable : ST Auth () := st_map_err (λ _, ErrStatus Internal "auth disable") Disable.
Definition AuthStatus : ST Auth bool := IsEnabled.

Definition Authenticate (name password : bytes) : ST Auth bytes :=
  enabled ← IsEnabled;
  if negb enabled then throw (ErrStatus FailedPrecondition "auth is not enabled")
  else
    st_map_err (λ _, ErrStatus Unauthenticated "authentication failed") (CheckPassword bcryptCompare name password);;
    st_map_err (λ _, ErrStatus Internal "generate token") (Generate name).

Definition UserAdd (name password : bytes) (noPassword : bool) : ST Auth () :=
  if bool_decide (name = []) then throw (ErrStatus InvalidArgument "user name is empty")
  else
    r ← try (GetUser name);
    match r with
    | Ok _ => throw (ErrStatus AlreadyExists "user already exists")
    | Err _ =>
        st_map_err (λ _, ErrStatus Internal "add user")
          (PutUser bcryptGenerate (mkUser name [] []) (if noPassword then [] else password))
    end.

Definition UserGet (name : bytes) : ST Auth (list bytes) :=
  u ← st_map_err (λ _, ErrStatus NotFound "user not found") (GetUser name);
  mret (us_Roles u).

Definition UserList : ST Auth (list bytes) := users ← ListUsers; mret (map us_Name users).

Definition UserDelete (name : bytes) : ST Auth () :=
  st_map_err (λ _, ErrStatus FailedPrecondition "delete user") (DeleteUser name).

Definition UserChangePassword (name password : bytes) : ST Auth () :=
  u ← st_map_err (λ _, ErrStatus NotFound "user not found") (GetUser name);
  st_map_err (λ _, ErrStatus Internal "change password") (PutUser bcryptGenerate u password).

Definition UserGrantRole (user role : bytes) : ST Auth () :=
  st_map_err (λ _, ErrStatus FailedPrecondition "grant role") (GrantRole user role).
Definition UserRevokeRole (user role : bytes) : ST Auth () :=
  st_map_err (λ _, ErrStatus FailedPrecondition "revoke role") (RevokeRole user role).

Definition RoleAdd (name : bytes) : ST Auth () :=
  if bool_decide (name = []) then throw (ErrStatus InvalidArgument "role name is empty")
  else
    r ← try (GetRole name);
    match r with
    | Ok _ => throw (ErrStatus AlreadyExists "role already exists")
    | Err _ => st_map_err (λ _, ErrStatus Internal "add role") (PutRole (mkRole name []))
    end.

Definition RoleGet (role : bytes) : ST Auth (list Permission) :=
  r ← st_map_err (λ _, ErrStatus NotFound "role not found") (GetRole role);
  mret (ro_Permissions r).

Definition RoleList : ST Auth (list bytes) := roles ← ListRoles; mret (map ro_Name roles).

Definition RoleDelete (role : bytes) : ST Auth () :=
  st_map_err (λ _, ErrStatus FailedPrecondition "delete role") (DeleteRole role).

Definition RoleGrantPermission (name : bytes) (perm : option Permission) : ST Auth () :=
  match perm with
  | None => throw (ErrStatus InvalidArgument "permission is nil")
  | Some p => st_map_err (λ _, ErrStatus FailedPrecondition "grant permission") (GrantPermission name p)
  end.

Definition RoleRevokePermission (role key rangeEnd : bytes) : ST Auth () :=
  st_map_err (λ _, ErrStatus FailedPrecondition "revoke permission") (RevokePermission role key rangeEnd).
End Auth.
