(* ===== verification/AuthGate.v ===== *)
(** * The interceptor keeps its promise

    With authentication on, a request of the KV service reaches its handler
    exactly when it carries a token that has not expired, of a user whose roles
    cover every key the request names; otherwise it is refused with the node
    untouched.  The runs at the end show what the check of single keys lets
    through. *)

From S2P Require Import Prelude Bytes Decimal WalEntry Os Json JsonProps Wal Pebble StoreKeys Store StoreSpec StoreRead StoreRefine StoreProps Peer Node NodeSpec NodeInv NodeSteps Server NodeClaims NodeReads NodeApi EtcdKv EtcdKvProps EtcdLease EtcdTxn EtcdTxnProps EtcdClaims EtcdWatch Rfc3339 AuthStore AuthService.

Section Gate.
Context {N : Type} `{NI : T4Node N}.
Local Notation Auth := (Auth N).
Implicit Types a : Auth.

(** The next reading of the clock, and the state after it. *)
Definition clock_of a : Z := match h_clock (au_host a) with [] => 0 | t :: _ => t end.
Definition tick a : Auth := (authNow a).2.

Lemma authNow_run a : authNow a = (Ok (clock_of a), tick a).
Proof.
  unfold tick, clock_of, authNow, on_host, zoom, timeNow. by destruct (h_clock (au_host a)) as [|t [|t' ts]].
Qed.

Lemma tick_store a : au_store (tick a) = au_store a ∧ au_tokens (tick a) = au_tokens a ∧
  h_node (au_host (tick a)) = h_node (au_host a).
Proof.
  unfold tick, authNow, on_host, zoom, timeNow. by destruct (h_clock (au_host a)) as [|t [|t' ts]].
Qed.

(** ** Who may do what *)

(** The user of a token that has not expired. *)
Definition token_user a (tok username : bytes) : Prop :=
  ∃ e, tk_tokens (au_tokens a) !! tok = Some e ∧ clock_of a ≤ te_expiry e ∧ te_username e = username.

(** A role of the user covers the key, or is the root role. *)
Definition may (s : AuthStore) (username key : bytes) (pt : Z) : Prop :=
  ∃ u roleName role, as_users s !! username = Some u ∧ roleName ∈ us_Roles u ∧ as_roles s !! roleName = Some role ∧
    (ro_Name role = RootRole ∨ ∃ p, p ∈ ro_Permissions role ∧ covers p key pt = true).

(** The keys a request names and the permission it needs on them. *)
Definition request_keys (req : KVRequest) : list bytes :=
  match req with
  | KRange r => [rq_Key r]
  | KPut r => [pq_Key r]
  | KDeleteRange r => [dq_Key r]
  | KTxn r => map cp_Key (pt_Compare r) ++ concat (map opKeys (pt_Success r)) ++ concat (map opKeys (pt_Failure r))
  | KCompact _ => []
  end.
Definition request_perm (req : KVRequest) : Z := match req with KRange _ => READ | _ => WRITE end.

Definition authorised a (md : option (list bytes)) (req : KVRequest) : Prop :=
  ∃ tok rest username, md = Some (tok :: rest) ∧ token_user a tok username ∧
    ∀ key, key ∈ request_keys req → IsAuthPrefix key = false ∧ may (au_store a) username key (request_perm req).

(** ** The checks *)

Lemma HasPermission_may role key pt :
  HasPermission role key pt = true ↔ ro_Name role = RootRole ∨ ∃ p, p ∈ ro_Permissions role ∧ covers p key pt = true.
Proof.
  unfold HasPermission. case_bool_decide as Hr; [naive_solver|]. rewrite existsb_exists. split.
  - intros (p & Hp & Hc). right. exists p. by rewrite list_elem_of_In.
  - intros [?|(p & Hp & Hc)]; [done|]. exists p. by rewrite <- list_elem_of_In.
Qed.

Lemma CheckPermission_run username key pt a : as_enabled (au_store a) = true →
  ∃ r, CheckPermission username key pt a = (r, a) ∧ (r = Ok tt ↔ may (au_store a) username key pt).
Proof.
  intros He. unfold CheckPermission, get_store, getUser, get_store, get_st, mbind, ST_bind, mret, ST_ret. cbn. rewrite He.
  cbn [negb]. destruct (as_users (au_store a) !! username) as [u|] eqn:Eu; cbn.
  2:{ eexists. split; [done|]. split; [done|]. intros (u & ? & ? & Hu & _). congruence. }
  destruct (existsb _ (us_Roles u)) eqn:Ex; cbn; (eexists; split; [done|]); split; try done.
  - intros _. apply existsb_exists in Ex as (rn & Hin & Hm). destruct (as_roles (au_store a) !! rn) as [role|] eqn:Er; [|done].
    exists u, rn, role. rewrite list_elem_of_In. by rewrite <- HasPermission_may.
  - intros (u' & rn & role & Hu & Hin & Hr & Hc). rewrite Eu in Hu. injection Hu as <-.
    assert (existsb (λ roleName, match as_roles (au_store a) !! roleName with
      | Some r => HasPermission r key pt | None => false end) (us_Roles u) = true); [|congruence].
    apply existsb_exists. exists rn. rewrite <- list_elem_of_In, Hr. by rewrite HasPermission_may.
Qed.

Definition errKey : err := ErrStatus PermissionDenied "permission denied on key".

Lemma check_keys_run username pt keys a : as_enabled (au_store a) = true →
  ∃ r, check_keys username pt keys a = (r, a) ∧ (r = Ok tt ∨ r = Err errKey) ∧
    (r = Ok tt ↔ ∀ key, key ∈ keys → may (au_store a) username key pt).
Proof.
  intros He. induction keys as [|key keys IH].
  { exists (Ok tt). split; [done|]. split; [by left|]. split; [|done]. intros _ key Hk. by apply not_elem_of_nil in Hk. }
  destruct IH as (r & Er & Hr & Hm). destruct (CheckPermission_run username key pt a He) as (r1 & E1 & H1).
  cbn [check_keys]. unfold st_map_err, mbind, ST_bind. rewrite E1. destruct r1 as [[]|e]; cbn.
  - exists r. split; [done|]. split; [done|]. rewrite Hm. split.
    + intros Hk k Hin. apply elem_of_cons in Hin as [->|Hin]; [by apply H1|by apply Hk].
    + intros Hk k Hin. apply Hk. by apply elem_of_cons; right.
  - exists (Err errKey). split; [done|]. split; [by right|]. split; [done|]. intros Hk.
    assert (Err (A := ()) e = Ok tt); [|done]. apply H1, Hk, elem_of_cons. by left.
Qed.

Lemma add_keys_elem ks : ∀ keys k, k ∈ add_keys ks keys ↔ k ∈ ks ∨ k ∈ keys.
Proof.
  induction ks as [|x ks IH]; intros keys k; cbn [add_keys]; [set_solver|].
  rewrite IH. case_bool_decide; set_solver.
Qed.

Lemma extractKeys_elem req k : k ∈ extractKeys (kvMethod req) (Some (kvRequest req)) ↔ k ∈ request_keys req.
Proof.
  destruct req as [r|r|r|r|rev]; try done.
  change (extractKeys (kvMethod (KTxn r)) (Some (kvRequest (KTxn r)))) with (txnKeys r).
  unfold txnKeys, request_keys. rewrite add_keys_elem, elem_of_nil. tauto.
Qed.

Lemma checkAuthKeyAccess_kv req :
  (checkAuthKeyAccess (kvMethod req) (Some (kvRequest req)) = Ok tt ∧ ∀ key, key ∈ request_keys req → IsAuthPrefix key = false) ∨
  (checkAuthKeyAccess (kvMethod req) (Some (kvRequest req)) = Err errReserved ∧ ∃ key, key ∈ request_keys req ∧ IsAuthPrefix key = true).
Proof.
  assert (has_prefix (str "/etcdserverpb.KV/") (kvMethod req) = true) as Hp by (by destruct req).
  unfold checkAuthKeyAccess. rewrite Hp. cbn [negb].
  destruct (existsb IsAuthPrefix _) eqn:E; [right|left]; (split; [done|]).
  - apply existsb_exists in E as (key & Hin & Hk). exists key. by rewrite <- extractKeys_elem, list_elem_of_In.
  - intros key Hin. apply extractKeys_elem in Hin. destruct (IsAuthPrefix key) eqn:Ek; [|done].
    rewrite <- E. symmetry. apply existsb_exists. exists key. by rewrite <- list_elem_of_In.
Qed.

Lemma methodPerm_kv req : request_keys req ≠ [] → methodPerm (kvMethod req) = Some (request_perm req).
Proof. by destruct req. Qed.

Lemma Lookup_run tok a : Lookup tok a =
  match tk_tokens (au_tokens a) !! tok with
  | None => (Ok None, a)
  | Some e => (Ok (if te_expiry e <? clock_of a then None else Some (te_username e)), tick a)
  end.
Proof.
  unfold Lookup, get_tokens, get_st, mbind, ST_bind, mret, ST_ret. cbn.
  destruct (tk_tokens (au_tokens a) !! tok); [|done]. by rewrite authNow_run.
Qed.

(** What the token of a call says, with the clock read when there is one to
    look up. *)
Lemma tokenFromCtx_run md a :
  (∃ tok rest username, md = Some (tok :: rest) ∧ token_user a tok username ∧ tokenFromCtx md a = (Ok username, tick a)) ∨
  ((∀ tok rest username, md = Some (tok :: rest) → ¬ token_user a tok username) ∧
   ∃ msg a', tokenFromCtx md a = (Err (ErrStatus Unauthenticated msg), a') ∧ h_node (au_host a') = h_node (au_host a)).
Proof.
  destruct md as [[|tok rest]|]; [right; split; [done|]; by eexists _, _| |right; split; [done|]; by eexists _, _].
  unfold tokenFromCtx, mbind, ST_bind. rewrite Lookup_run.
  destruct (tk_tokens (au_tokens a) !! tok) as [e|] eqn:Et.
  2:{ right. split; [intros tok' r' u [= <- <-] (e & He & _); congruence|]. by eexists _, _. }
  destruct (Z.ltb_spec (te_expiry e) (clock_of a)) as [Hlt|Hge].
  - right. split; [intros tok' r' u [= <- <-] (e' & He & Hle & _)|].
    + rewrite Et in He. injection He as <-. lia.
    + eexists _, _. split; [done|]. apply tick_store.
  - left. exists tok, rest, (te_username e). split; [done|]. split; [by exists e|done].
Qed.

(** What the interceptor decides on a request of the KV service. *)
Lemma checkAuth_kv_run md req a : as_enabled (au_store a) = true →
  (authorised a md req ∧ checkAuth md (kvMethod req) (Some (kvRequest req)) a = (Ok tt, tick a)) ∨
  (¬ authorised a md req ∧ ∃ c msg a', checkAuth md (kvMethod req) (Some (kvRequest req)) a = (Err (ErrStatus c msg), a') ∧
     (c = Unauthenticated ∨ c = PermissionDenied) ∧ h_node (au_host a') = h_node (au_host a)).
Proof.
  intros He. destruct (tick_store a) as (Hs & _ & Hn).
  assert (bool_decide (kvMethod req ∈ openMethods) = false) as Hop by (by destruct req; vm_compute).
  assert (IsEnabled a = (Ok true, a)) as HE
    by (unfold IsEnabled, get_store, get_st, mbind, ST_bind, mret, ST_ret; cbn; by rewrite He).
  unfold checkAuth. rewrite Hop, (ST_bind_ok _ _ _ _ _ HE). cbn [negb].
  destruct (tokenFromCtx_run md a) as [(tok & rest & u & -> & Hu & Ht)|(Hno & msg & a' & Ht & Ha')].
  2:{ right. rewrite (ST_bind_err _ _ _ _ _ Ht). split; [|by eexists _, _, _; auto].
      intros (tok & rest & u & Hmd & Hu & _). by destruct (Hno tok rest u Hmd). }
  rewrite (ST_bind_ok _ _ _ _ _ Ht).
  destruct (checkAuthKeyAccess_kv req) as [(-> & Hfree)|(-> & key & Hkey & Hk)].
  2:{ right. split; [intros (? & ? & ? & _ & _ & Hall); destruct (Hall key Hkey); congruence|].
      eexists _, _, _. split; [done|]. auto. }
  rewrite (ST_bind_ok (from_result (Ok tt)) _ (tick a) tt (tick a)) by done.
  destruct (decide (request_keys req = [])) as [Hnil|Hne].
  { left. split.
    - exists tok, rest, u. split; [done|]. split; [done|]. rewrite Hnil. intros key Hin. by apply not_elem_of_nil in Hin.
    - destruct (methodPerm (kvMethod req)); [|done].
      replace (extractKeys (kvMethod req) (Some (kvRequest req))) with (@nil bytes); [done|].
      symmetry. apply elem_of_nil_inv. intros k Hk. apply extractKeys_elem in Hk. rewrite Hnil in Hk. by apply not_elem_of_nil in Hk. }
  rewrite methodPerm_kv by done.
  destruct (check_keys_run u (request_perm req) (extractKeys (kvMethod req) (Some (kvRequest req))) (tick a))
    as (r & Er & [-> | ->] & Hr); [by rewrite Hs|left|right]; rewrite Er, Hs in *.
  - split; [|done]. exists tok, rest, u. split; [done|]. split; [done|]. intros key Hin. split; [by apply Hfree|].
    apply Hr; [done|]. by apply extractKeys_elem.
  - split; [|by eexists _, _, _; auto]. intros (tok' & rest' & u' & [= <- <-] & (e' & He' & _ & <-) & Hall).
    destruct Hu as (e & Hte & _ & <-). rewrite Hte in He'. injection He' as <-.
    assert (Err (A := ()) errKey = Ok tt); [|done]. apply Hr. intros key Hin. by apply Hall, extractKeys_elem.
Qed.

End Gate.

(** ** Runs *)

Section Runs.
#[local] Notation Shared := (Shared (DB := gmap bytes bytes) (L := list Entry) (R := peerEnv)).

Definition carol : bytes := str "carol".
Definition tok : option (list bytes) := Some [str "t"].

(** Authentication is on.  Carol may read and write the key "a" and nothing
    else, and has a token for ten more nanoseconds. *)
Definition gate0 (others : list (list cop)) : Auth Shared :=
  mkAuth (host0 others [100])
    (mkAuthStore true
       {[ carol := mkUser carol [] [str "r"]; RootUser := mkUser RootUser [] [RootRole] ]}
       {[ str "r" := mkRole (str "r") [mkPerm (str "a") [] READWRITE]; RootRole := mkRole RootRole [] ]} ∅)
    (mkTokenStore {[ str "t" := mkToken carol 110 ]} 60 true).

Definition put_key (key : bytes) : KVRequest := KPut (mkPutReq key (str "9") 0 false).


(** Only the first key of a range is checked: with a permission for "a" alone,
    Carol lists every key from "a" on and deletes them all. *)
Lemma range_beyond_permission :
  let everything := KRange (mkRangeReq (str "a") [x00] 0 0 false true false) in
  let deletion := KDeleteRange (mkDelReq (str "a") [x00] false) in
  (CheckPermission carol (str "b") READ (gate0 others1)).1 = Err errDenied ∧
  match (serveKV false tok everything (gate0 others1)).1 with
  | Ok (KRangeResp resp) => map pk_Key (rp_Kvs resp) = [str "a"; str "b"]
  | _ => False
  end ∧
  match (serveKV false tok deletion (gate0 others1)).1 with
  | Ok (KDeleteRangeResp resp) => dr_Deleted resp = 2
  | _ => False
  end.
Proof. by vm_compute. Qed.

(** A transaction needs a write permission for the keys it reads, and no read
    permission. *)
Lemma txn_reads_unchecked :
  let role := mkRole (str "r") [mkPerm (str "a") [] WRITE] in
  let a := set_store (set_roles {[ str "r" := role ]} (au_store (gate0 others1))) (gate0 others1) in
  let get := mkRangeReq (str "a") [] 0 0 false false false in
  is_ok (serveKV false tok (KRange get) a).1 = false ∧
  match (serveKV false tok (KTxn (mkPbTxn [] [RequestRange get] [])) a).1 with
  | Ok (KTxnResp resp) =>
      match px_Responses resp with [ResponseRange x] => map pk_Value (rp_Kvs x) = [str "1"] | _ => False end
  | _ => False
  end.
Proof. by vm_compute. Qed.

(** Everyone may switch authentication off, without a token. *)
Lemma anyone_disables_auth :
  let call := unaryInterceptor None (str "/etcdserverpb.Auth/AuthDisable") RqOther AuthDisable in
  as_enabled (au_store (call (gate0 [])).2) = false.
Proof. by vm_compute. Qed.

(** Every user may give themselves the root role. *)
Lemma any_user_becomes_root :
  let call := unaryInterceptor tok (str "/etcdserverpb.Auth/UserGrantRole") RqOther (UserGrantRole carol RootRole) in
  (CheckPermission carol (str "z") WRITE (gate0 [])).1 = Err errDenied ∧
  (CheckPermission carol (str "z") WRITE (call (gate0 [])).2).1 = Ok tt.
Proof. by vm_compute. Qed.

(** A stream is checked before its first message, so a watch needs a token but
    no permission. *)
Lemma watch_unchecked (a : Auth Shared) : as_enabled (au_store a) = true → (∃ u, token_user a (str "t") u) →
  (checkAuth tok mWatch None a).1 = Ok tt.
Proof.
  intros He (u & Hu). unfold checkAuth. rewrite bool_decide_eq_false_2 by (by apply (bool_decide_eq_false _); vm_compute).
  assert (IsEnabled a = (Ok true, a)) as HE
    by (unfold IsEnabled, get_store, get_st, mbind, ST_bind, mret, ST_ret; cbn; by rewrite He).
  rewrite (ST_bind_ok _ _ _ _ _ HE). cbn [negb].
  destruct (tokenFromCtx_run tok a) as [(t & rest & v & _ & _ & Ht)|(Hno & _)]; [by rewrite (ST_bind_ok _ _ _ _ _ Ht)|].
  by destruct (Hno (str "t") [] u).
Qed.

(** With authentication off, a range over the reserved names of the store
    deletes its users. *)
Lemma auth_records_deleted :
  let a := set_store (set_enabled false (au_store (gate0 [[CPut (usersPrefix ++ RootUser) (str "{}") 0]])))
             (gate0 [[CPut (usersPrefix ++ RootUser) (str "{}") 0]]) in
  match (serveKV false None (KDeleteRange (mkDelReq [x00] [x01] false)) a).1 with
  | Ok (KDeleteRangeResp resp) => dr_Deleted resp = 1
  | _ => False
  end.
Proof. by vm_compute. Qed.
End Runs.
