(* ===== verification/AuthLimiter.v ===== *)
(** * Guessing a password is slow

    The limiter of failed logins: over any run of attempts on a clock that does
    not go back, the number of passwords that are compared for a user and
    rejected is bounded by the time that passes.  The runs at the end show two
    ways around what the comments promise. *)

From S2P Require Import Prelude Bytes Decimal WalEntry Os Json Wal Pebble StoreKeys Store StoreSpec Peer Node NodeSpec NodeReads NodeApi EtcdKv EtcdLease AuthStore.

Section Limiter.
Context {N : Type} (bcryptCompare : bytes → bytes → bool).
Local Notation Auth := (Auth N).
Implicit Types a : Auth.

(** ** Time *)

(** The clock gives times between [lo] and [hi] that do not go back. *)
Definition clock_in (lo hi : Z) a : Prop :=
  h_clock (au_host a) ≠ [] ∧ StronglySorted Z.le (h_clock (au_host a)) ∧ ∀ t, t ∈ h_clock (au_host a) → lo ≤ t ≤ hi.

Lemma clock_in_weaken lo lo' hi a : lo' ≤ lo → clock_in lo hi a → clock_in lo' hi a.
Proof. intros Hle (Hn & Hs & Hb). split; [done|]. split; [done|]. intros t Ht. specialize (Hb t Ht). lia. Qed.

Lemma authNow_in lo hi a : clock_in lo hi a →
  ∃ t a', authNow a = (Ok t, a') ∧ lo ≤ t ≤ hi ∧ clock_in t hi a' ∧ au_store a' = au_store a.
Proof.
  intros (Hn & Hs & Hb). unfold authNow, on_host, zoom, timeNow. destruct (h_clock (au_host a)) as [|t ts] eqn:E; [done|].
  assert (lo ≤ t ≤ hi) by (apply Hb; set_solver). apply StronglySorted_inv in Hs as [Hs Hall].
  destruct ts as [|t' ts]; (eexists t, _; split; [done|]; split; [done|]; split; [|done]); unfold clock_in; cbn.
  - rewrite E. split; [done|]. split; [repeat constructor|]. intros u Hu. apply list_elem_of_singleton in Hu as ->. lia.
  - split; [done|]. split; [done|]. intros u Hu. split; [by apply (proj1 (Forall_forall _ _) Hall)|].
    apply Hb. by apply elem_of_cons; right.
Qed.

Lemma window_passed since first : failureWindow <? timeSub since first = true ↔ failureWindow < since - first.
Proof.
  rewrite Z.ltb_lt. unfold timeSub, minDuration, maxDuration, failureWindow, Second. lia.
Qed.

(** ** The state of one user *)

(** After [F] rejected passwords and [W] windows since [t0], at [now]. *)
Definition counted (t0 now F W : Z) (o : option authAttempt) : Prop :=
  0 ≤ W ∧ (0 < W → (W - 1) * failureWindow ≤ now - t0) ∧
  match o with
  | None => F ≤ maxFailures * W ∧ (0 < W → W * failureWindow ≤ now - t0)
  | Some a =>
      0 < W ∧ F ≤ maxFailures * (W - 1) + at_failures a ∧ (W - 1) * failureWindow ≤ at_firstFail a - t0 ∧
      at_firstFail a ≤ now ∧
      match at_lockedUntil a with
      | None => 1 ≤ at_failures a < maxFailures
      | Some t => at_failures a = maxFailures ∧ at_firstFail a + lockoutDuration ≤ t
      end
  end.

Definition attempt_of (name : bytes) a : option authAttempt := as_rateLim (au_store a) !! name.

Lemma counted_later t0 now now' F W o : now ≤ now' → counted t0 now F W o → counted t0 now' F W o.
Proof.
  intros Hle (H0 & Hw & Ho). split; [done|]. split; [lia|]. destruct o as [x|]; [|lia].
  destruct Ho as (? & ? & ? & ? & ?). repeat split; done || lia.
Qed.

(** A step of the limiter: time passes, only the entry of [name] changes. *)
Record limiter_step (name : bytes) (lo hi : Z) a a' (lo' : Z) : Prop := {
  lm_time : lo ≤ lo';
  lm_clock : clock_in lo' hi a';
  lm_users : as_users (au_store a') = as_users (au_store a);
  lm_other other : other ≠ name → attempt_of other a' = attempt_of other a }.

Lemma set_attempt_run name x a : ∃ a', set_attempt name x a = (Ok tt, a') ∧ au_host a' = au_host a ∧
  as_users (au_store a') = as_users (au_store a) ∧ attempt_of name a' = Some x ∧
  ∀ other, other ≠ name → attempt_of other a' = attempt_of other a.
Proof.
  eexists. split; [done|]. split; [done|]. split; [done|]. unfold attempt_of. cbn.
  split; [apply lookup_insert_eq|]. intros other Ho. by apply lookup_insert_ne.
Qed.

(** The entry is deleted. *)
Lemma forget_run name a : ∃ a', mod_store (λ s, set_rateLim (delete name (as_rateLim s)) s) a = (Ok tt, a') ∧
  au_host a' = au_host a ∧ as_users (au_store a') = as_users (au_store a) ∧ attempt_of name a' = None ∧
  ∀ other, other ≠ name → attempt_of other a' = attempt_of other a.
Proof.
  eexists. split; [done|]. split; [done|]. split; [done|]. unfold attempt_of. cbn.
  split; [apply lookup_delete_eq|]. intros other Ho. by apply lookup_delete_ne.
Qed.

Lemma clock_in_host lo hi a a' : au_host a' = au_host a → clock_in lo hi a → clock_in lo hi a'.
Proof. unfold clock_in. by intros ->. Qed.

(** Not locked, so no lockout is pending. *)
Definition unlocked (o : option authAttempt) : Prop := match o with Some x => at_lockedUntil x = None | None => True end.

Ltac limits := unfold maxFailures, failureWindow, lockoutDuration, Second in *.

Lemma IsLocked_run name lo hi t0 F W a : t0 ≤ lo → clock_in lo hi a → counted t0 lo F W (attempt_of name a) →
  ∃ r a' lo', IsLocked name a = (Ok r, a') ∧ limiter_step name lo hi a a' lo' ∧
    counted t0 lo' F W (attempt_of name a') ∧ (r = false → unlocked (attempt_of name a')).
Proof.
  intros Ht0 Hc Hn. unfold IsLocked. rewrite (ST_bind_ok get_store _ a (au_store a) a) by done.
  fold (attempt_of name a). destruct (attempt_of name a) as [x|] eqn:Ex.
  2:{ exists false, a, lo. split; [done|]. split; [by split; [lia|..]|]. by rewrite Ex. }
  destruct (authNow_in lo hi a Hc) as (t & a1 & E1 & Ht & Hc1 & Hs1). rewrite (ST_bind_ok _ _ _ _ _ E1).
  assert (∀ o, attempt_of o a1 = attempt_of o a) as Ho1 by (intros o; unfold attempt_of; by rewrite Hs1).
  destruct (at_lockedUntil x) as [u|] eqn:El.
  2:{ exists false, a1, t. split; [done|]. split; [split; [lia|done|by rewrite Hs1|done]|]. rewrite Ho1, Ex.
      split; [by eapply counted_later; [|done]; lia|]. by intros _. }
  destruct (Z.ltb_spec t u) as [Hlt|Hge].
  { exists true, a1, t. split; [done|]. split; [split; [lia|done|by rewrite Hs1|done]|]. rewrite Ho1, Ex.
    split; [by eapply counted_later; [|done]; lia|done]. }
  destruct (forget_run name a1) as (a2 & E2 & Hh2 & Hu2 & Hn2 & Ho2). rewrite (ST_bind_ok _ _ _ _ _ E2).
  exists false, a2, t. split; [done|]. rewrite Hn2.
  split; [split; [lia|by eapply clock_in_host|by rewrite Hu2, Hs1|intros o Ho; by rewrite Ho2, Ho1]|].
  split; [|by intros _]. destruct Hn as (H0 & Hw & Hp & HF & Hf & Hfn & Hl). rewrite El in Hl. destruct Hl as [Hl1 Hl2].
  unfold counted. limits. lia.
Qed.

Lemma RecordFailure_run name lo hi t0 F W a : t0 ≤ lo → clock_in lo hi a → counted t0 lo F W (attempt_of name a) →
  unlocked (attempt_of name a) →
  ∃ a' lo' W', RecordFailure name a = (Ok tt, a') ∧ limiter_step name lo hi a a' lo' ∧
    counted t0 lo' (F + 1) W' (attempt_of name a').
Proof.
  intros Ht0 Hc Hn Hu. unfold RecordFailure. rewrite (ST_bind_ok get_store _ a (au_store a) a) by done.
  fold (attempt_of name a). destruct (authNow_in lo hi a Hc) as (t & a1 & E1 & Ht & Hc1 & Hs1).
  assert (∀ o, attempt_of o a1 = attempt_of o a) as Ho1 by (intros o; unfold attempt_of; by rewrite Hs1).
  (* the end of every branch *)
  assert (∀ t2 a2 x W', lo ≤ t2 → clock_in t2 hi a2 → au_store a2 = au_store a → counted t0 t2 (F + 1) W' (Some x) →
    ∃ a' lo' W', set_attempt name x a2 = (Ok tt, a') ∧ limiter_step name lo hi a a' lo' ∧
      counted t0 lo' (F + 1) W' (attempt_of name a')) as Hend.
  { intros t2 a2 x W' Ht2 Hc2 Hs2 Hx. destruct (set_attempt_run name x a2) as (a3 & E3 & Hh3 & Hu3 & Hn3 & Ho3).
    exists a3, t2, W'. split; [done|]. rewrite Hn3. split; [|done]. split; [done|by eapply clock_in_host|by rewrite Hu3, Hs2|].
    intros o Ho. rewrite Ho3 by done. unfold attempt_of. by rewrite Hs2. }
  destruct (attempt_of name a) as [x|] eqn:Ex; rewrite (ST_bind_ok _ _ _ _ _ E1).
  2:{ apply (Hend t a1 _ (W + 1)); [lia|done|done|]. destruct Hn as (H0 & Hw & HF & HW). unfold counted. cbn. limits. lia. }
  destruct Hn as (H0 & Hw & Hp & HF & Hf & Hfn & Hl). cbn in Hu. rewrite Hu in Hl.
  destruct (authNow_in t hi a1 Hc1) as (t2 & a2 & E2 & Ht2 & Hc2 & Hs2).
  destruct (failureWindow <? timeSub t (at_firstFail x)) eqn:Ew.
  { apply window_passed in Ew. rewrite (ST_bind_ok _ _ _ _ _ E2). apply (Hend t2 a2 _ (W + 1)); [lia|done|congruence|].
    unfold counted. cbn. limits. lia. }
  rewrite i64_id by (unfold is_i64; limits; lia). destruct (Z.leb_spec maxFailures (at_failures x + 1)).
  - rewrite (ST_bind_ok _ _ _ _ _ E2). apply (Hend t2 a2 _ W); [lia|done|congruence|]. unfold counted. cbn. limits. lia.
  - apply (Hend t a1 _ W); [lia|done|done|]. unfold counted. cbn. rewrite Hu. limits. lia.
Qed.

(** ** Attempts *)

#[local] Instance result_unit_dec : EqDecision (result ()).
Proof. solve_decision. Defined.

Definition rejected (r : result ()) : Z := if bool_decide (r = Err errAuthFailed) then 1 else 0.

Lemma CheckPassword_run name password lo hi t0 F W a : t0 ≤ lo → clock_in lo hi a → counted t0 lo F W (attempt_of name a) →
  ∃ r a' lo', CheckPassword bcryptCompare name password a = (r, a') ∧ limiter_step name lo hi a a' lo' ∧
    ∃ F' W', counted t0 lo' F' W' (attempt_of name a') ∧ (r ≠ Ok tt → F' = F + rejected r).
Proof.
  intros Ht0 Hc Hn. destruct (IsLocked_run name lo hi t0 F W a Ht0 Hc Hn) as (b & a1 & lo1 & E1 & Hs1 & Hn1 & Hu1).
  unfold CheckPassword. rewrite (ST_bind_ok _ _ _ _ _ E1). destruct b.
  { exists (Err errLocked), a1, lo1. split; [done|]. split; [done|]. exists F, W. split; [done|].
    intros _. unfold rejected. rewrite bool_decide_eq_false_2 by done. lia. }
  assert (∃ r0, getUser name a1 = (r0, a1)) as (r0 & Eg).
  { unfold getUser, get_store, get_st, mbind, ST_bind, mret, ST_ret. cbn. destruct (as_users _ !! name); by eexists. }
  rewrite (try_bind _ _ _ _ _ Eg).
  destruct (RecordFailure_run name lo1 hi t0 F W a1) as (a2 & lo2 & W2 & E2 & Hs2 & Hn2);
    [pose proof (lm_time _ _ _ _ _ _ Hs1); lia|apply Hs1|done|by apply Hu1|].
  assert (limiter_step name lo hi a a2 lo2) as Hs.
  { split; [pose proof (lm_time _ _ _ _ _ _ Hs1); pose proof (lm_time _ _ _ _ _ _ Hs2); lia|apply Hs2|
      rewrite (lm_users _ _ _ _ _ _ Hs2); apply Hs1|intros o Ho; rewrite (lm_other _ _ _ _ _ _ Hs2) by done; by apply Hs1]. }
  assert ((RecordFailure name;; throw (A := ()) errAuthFailed) a1 = (Err errAuthFailed, a2)) as Ef
    by (by rewrite (ST_bind_ok _ _ _ _ _ E2)).
  assert (∃ r a' lo', (RecordFailure name;; throw (A := ()) errAuthFailed) a1 = (r, a') ∧ limiter_step name lo hi a a' lo' ∧
    ∃ F' W', counted t0 lo' F' W' (attempt_of name a') ∧ (r ≠ Ok tt → F' = F + rejected r)) as Hfail.
  { exists (Err errAuthFailed), a2, lo2. split; [done|]. split; [done|]. exists (F + 1), W2. split; [done|].
    intros _. unfold rejected. by rewrite bool_decide_eq_true_2. }
  destruct r0 as [u|e]; [|done]. destruct (bcryptCompare (us_PasswordHash u) password); [|done].
  destruct (forget_run name a1) as (a3 & E3 & Hh3 & Hu3 & Hn3 & Ho3). exists (Ok tt), a3, lo1. split; [done|]. split.
  - split; [apply Hs1|eapply clock_in_host; [done|]; apply Hs1|rewrite Hu3; apply Hs1|].
    intros o Ho. rewrite Ho3 by done. by apply Hs1.
  - exists 0, 0. rewrite Hn3. split; [|done]. unfold counted. limits. lia.
Qed.

(** Logins one after the other, with their outcomes. *)
Fixpoint logins (l : list (bytes * bytes)) a : list (bytes * result ()) * Auth :=
  match l with
  | [] => ([], a)
  | (name, password) :: l' =>
      let '(r, a1) := CheckPassword bcryptCompare name password a in
      let '(rs, a2) := logins l' a1 in
      ((name, r) :: rs, a2)
  end.

Definition rejections (name : bytes) (rs : list (bytes * result ())) : Z :=
  zlen (filter (λ x, x = (name, Err errAuthFailed)) rs).

Lemma logins_counted name hi t0 l : ∀ lo F W a, t0 ≤ lo → clock_in lo hi a →
  (∀ o, ∃ F W, counted t0 lo F W (attempt_of o a)) → counted t0 lo F W (attempt_of name a) →
  (name, Ok tt) ∉ (logins l a).1 →
  ∃ lo' W' a', lo' ≤ hi ∧ counted t0 lo' (F + rejections name (logins l a).1) W' (attempt_of name a').
Proof.
  induction l as [|[other password] l IH]; intros lo F W a Ht0 Hc Hall Hn Hok.
  { exists lo, W, a. destruct Hc as (Hne & _ & Hb). destruct (h_clock (au_host a)) as [|t ts]; [done|].
    specialize (Hb t ltac:(set_solver)). split; [lia|]. cbn. by rewrite Z.add_0_r. }
  assert (∃ F1 W1, counted t0 lo F1 W1 (attempt_of other a) ∧ (other = name → F1 = F)) as (F1 & W1 & Hn1 & HF1).
  { destruct (decide (other = name)) as [->|Hne]; [by exists F, W|]. destruct (Hall other) as (F1 & W1 & ?). by exists F1, W1. }
  destruct (CheckPassword_run other password lo hi t0 F1 W1 a Ht0 Hc Hn1) as (r & a1 & lo1 & E1 & Hs & F2 & W2 & Hn2 & HF2).
  cbn [logins] in *. rewrite E1 in *. destruct (logins l a1) as [rs a2] eqn:El. cbn [fst] in *.
  apply not_elem_of_cons in Hok as [Hr1 Hok]. pose proof (lm_time _ _ _ _ _ _ Hs) as Hlo.
  assert (∀ o, ∃ F W, counted t0 lo1 F W (attempt_of o a1)) as Hall1.
  { intros o. destruct (decide (o = other)) as [->|Ho]; [by exists F2, W2|]. rewrite (lm_other _ _ _ _ _ _ Hs) by done.
    destruct (Hall o) as (F3 & W3 & H3). exists F3, W3. by eapply counted_later. }
  set (k := if bool_decide (other = name) then rejected r else 0).
  assert (∃ W3, counted t0 lo1 (F + k) W3 (attempt_of name a1)) as (W3 & Hn3).
  { unfold k. case_bool_decide as Hb; [subst other; exists W2; rewrite <- (HF1 eq_refl), <- HF2; [done|congruence]|].
    exists W. rewrite (lm_other _ _ _ _ _ _ Hs) by done. rewrite Z.add_0_r. by eapply counted_later. }
  specialize (IH lo1 (F + k) W3 a1). rewrite El in IH. destruct IH as (lo' & W' & a' & Hlo' & Hc'); [lia|apply Hs|done..|].
  exists lo', W', a'. split; [done|]. replace (F + rejections name ((other, r) :: rs)) with (F + k + rejections name rs); [done|].
  unfold rejections. rewrite filter_cons. unfold k, rejected.
  destruct (decide _) as [[= -> ->]|Hd]; [rewrite !bool_decide_eq_true_2, zlen_cons by done; lia|].
  case_bool_decide; [|lia]. rewrite bool_decide_eq_false_2 by congruence. lia.
Qed.

(** C33. Passwords are guessed slowly: from the start of the store, whatever
    logins of whatever users follow each other, while a user has not logged in
    at most five passwords are compared with theirs and rejected per five
    minutes that pass, and five more. *)
Theorem guess_bound name l t0 T a :
  as_rateLim (au_store a) = ∅ → clock_in t0 (t0 + T) a → (name, Ok tt) ∉ (logins l a).1 →
  rejections name (logins l a).1 ≤ 5 * (T / failureWindow + 1).
Proof.
  intros He Hc Hok.
  assert (∀ o, counted t0 t0 0 0 (attempt_of o a)) as Hz by (intros o; unfold attempt_of; rewrite He, lookup_empty; unfold counted; limits; lia).
  destruct (logins_counted name (t0 + T) t0 l t0 0 0 a) as (lo & W & a' & Hlo & H0 & Hw & Hn); [lia|done|eauto|apply Hz|done|].
  assert (rejections name (logins l a).1 ≤ maxFailures * W).
  { destruct (attempt_of name a') as [x|]; [|lia]. destruct Hn as (? & ? & ? & ? & Hl).
    destruct (at_lockedUntil x); limits; lia. }
  assert (0 ≤ T) by (destruct Hc as (Hne & _ & Hb); destruct (h_clock (au_host a)) as [|t ts]; [done|];
    specialize (Hb t ltac:(set_solver)); lia).
  assert (W - 1 ≤ T / failureWindow); [|limits; lia].
  destruct (decide (0 < W)); [|pose proof (Z.div_pos T failureWindow ltac:(done) ltac:(done)); lia].
  apply Z.div_le_lower_bound; [done|]. specialize (Hw ltac:(done)). lia.
Qed.
End Limiter.

(** ** Runs *)

Section Runs.
Definition secs (l : list Z) : list Z := map (λ s, s * Second) l.

(** A store with one user, whose hash is the password, and nothing else. *)
Definition bob : bytes := str "bob".
Definition plain (hash password : bytes) : bool := bool_decide (hash = password).
Definition login0 (clock : list Z) : Auth () :=
  mkAuth (mkHost tt (secs clock) []) (mkAuthStore true {[ bob := mkUser bob (str "s") [] ]} ∅ ∅) (mkTokenStore ∅ 0 false).
Definition wrong : bytes * bytes := (bob, str "x").

Lemma guess_bound_witness :
  let rs := (logins plain (replicate 7 wrong) (login0 [0; 1; 2; 3; 4; 5; 6; 7; 8; 9; 10])).1 in
  rejections bob rs = 5 ∧ rejections bob rs ≤ 5 * (10 * Second / failureWindow + 1).
Proof.
  cbv zeta. split; [by vm_compute|]. apply (guess_bound plain bob (replicate 7 wrong) 0 (10 * Second)); [done| |].
  - split; [done|]. split; [repeat constructor; by vm_compute|].
    apply Forall_forall. repeat constructor; by vm_compute.
  - vm_compute. intros Hin. repeat (apply elem_of_cons in Hin as [?|Hin]; [done|]). by apply not_elem_of_nil in Hin.
Defined.

(** The window does not roll: it starts with the first failure.  Three
    failures at its end and four at the start of the next one are seven within
    two seconds, and nobody is locked out. *)
Lemma window_not_rolling :
  let '(rs, a) := logins plain (replicate 8 wrong)
    (login0 [0; 299; 299; 299; 299; 299; 299; 301; 301; 301; 301; 301; 301; 301; 301; 301]) in
  rejections bob rs = 8 ∧ (IsLocked bob a).1 = Ok false.
Proof. by vm_compute. Qed.

(** The check, the comparison and the count are separate steps.  A login that
    was checked before the lockout and is counted after the window has passed
    lifts the lockout. *)
Lemma late_failure_unlocks :
  let a := (RecordFailure bob ;; RecordFailure bob ;; RecordFailure bob ;; RecordFailure bob ;; RecordFailure bob)
             (login0 [0; 298; 298; 298; 299; 299; 301; 301; 302]) in
  (IsLocked bob a.2).1 = Ok true ∧ (IsLocked bob (RecordFailure bob a.2).2).1 = Ok false.
Proof. by vm_compute. Qed.
End Runs.
