(* ===== verification/AuthAdmin.v ===== *)
(** * Users and roles in memory and in the node

    The store keeps users and roles twice: in maps that every check reads, and
    in the node.  Each administrative operation is refused or has the effect of
    a pure function on the maps, and the node holds the same users and roles
    afterwards, so that a restart loads what was in memory. *)

From S2P Require Import Prelude Bytes Decimal WalEntry Os Json JsonProps Wal Pebble StoreKeys Store StoreSpec StoreRead StoreRefine StoreProps Peer Node NodeSpec NodeInv NodeSteps Server NodeClaims NodeReads NodeApi EtcdKv EtcdKvProps EtcdLease EtcdTxn EtcdTxnProps EtcdClaims AuthStore.

(** ** Records *)

Definition wf_perm (p : Permission) : Prop :=
  valid_utf8 (pm_Key p) = true ∧ valid_utf8 (pm_RangeEnd p) = true ∧ - 2 ^ 31 ≤ pm_PermType p < 2 ^ 31.
Definition wf_role (r : Role) : Prop := valid_utf8 (ro_Name r) = true ∧ Forall wf_perm (ro_Permissions r).
Definition wf_user (u : User) : Prop :=
  valid_utf8 (us_Name u) = true ∧ valid_utf8 (us_PasswordHash u) = true ∧ Forall (λ r, valid_utf8 r = true) (us_Roles u).

Lemma as_strings_arr l : as_strings (JArr (map JStr l)) = Some (Some l).
Proof. destruct l as [|x l]; [done|]. apply (as_strings_jstrings (x :: l)). Qed.

Lemma as_int32_jint z : - 2 ^ 31 ≤ z < 2 ^ 31 → as_int32 (jint z) = Some (Some z).
Proof.
  intros Hz. unfold as_int32. rewrite as_int_jint by (unfold is_i64; lia). cbn [mbind option_bind].
  by rewrite (proj2 (Z.leb_le _ _)), (proj2 (Z.ltb_lt _ _)) by lia.
Qed.

Lemma user_roundtrip u : wf_user u → decodeUser (print (userJSON u)) = Ok u.
Proof.
  intros (Hn & Hh & Hr). unfold decodeUser. apply Unmarshal_print.
  - unfold userJSON, omitempty. case_bool_decide; cbn [app]; solve_jwf. constructor; [done|].
    change (map JStr (us_Roles u)) with (JStr <$> us_Roles u). apply Forall_fmap. eapply Forall_impl; [exact Hr|]. intros x Hx. by constructor.
  - unfold decode_val, userJSON, omitempty. case_bool_decide as Hb; cbn [app].
    + store_fields. cbn. destruct u as [n h r]. cbn in *. by subst.
    + store_fields. erewrite store_field; [|reflexivity|apply as_strings_arr]. by destruct u.
Qed.

Lemma perm_roundtrip p : wf_perm p → decode_val permFields (mkPerm [] [] 0) (permJSON p) = Some p.
Proof.
  intros (Hk & He & Ht). unfold decode_val, permJSON, omitempty. case_bool_decide as Hb; cbn [app].
  - store_fields. erewrite store_field; [|reflexivity|by apply as_int32_jint]. destruct p. cbn in *. by subst.
  - store_fields. erewrite store_field; [|reflexivity|by apply as_int32_jint]. by destruct p.
Qed.

Lemma perms_roundtrip l : Forall wf_perm l → as_records permFields (mkPerm [] [] 0) (JArr (map permJSON l)) = Some (Some l).
Proof.
  intros Hl. unfold as_records. assert (mapM (decode_val permFields (mkPerm [] [] 0)) (map permJSON l) = Some l) as ->; [|done].
  apply mapM_Some. induction Hl as [|p l Hp Hl IH]; [constructor|]. constructor; [by apply perm_roundtrip|done].
Qed.

Lemma permJSON_wf d p : 0 < d → wf_perm p → jwf d (permJSON p).
Proof.
  intros Hd (Hk & He & Ht). unfold permJSON, omitempty.
  case_bool_decide; cbn [app]; (apply wf_obj; [done|]); solve_jwf; left; unfold is_i64; lia.
Qed.

Lemma role_roundtrip r : wf_role r → decodeRole (print (roleJSON r)) = Ok r.
Proof.
  intros (Hn & Hp). unfold decodeRole. apply Unmarshal_print.
  - unfold roleJSON, omitempty. case_bool_decide; cbn [app]; solve_jwf. constructor; [done|].
    change (map permJSON (ro_Permissions r)) with (permJSON <$> ro_Permissions r). apply Forall_fmap. eapply Forall_impl; [exact Hp|]. intros p. by apply permJSON_wf.
  - unfold decode_val, roleJSON, omitempty. case_bool_decide as Hb; cbn [app].
    + store_fields. cbn. destruct r as [n l]. cbn in *. by destruct l.
    + store_fields. erewrite store_field; [|reflexivity|by apply perms_roundtrip]. by destruct r.
Qed.

(** ** Keys *)

Lemma prefixes_apart x y : usersPrefix ++ x ≠ rolesPrefix ++ y ∧ usersPrefix ++ x ≠ enabledKey ∧ rolesPrefix ++ y ≠ enabledKey.
Proof. by split_and!. Qed.

Definition auth_key (key : bytes) : Prop := IsAuthPrefix key = true.

Lemma auth_keys name : auth_key (usersPrefix ++ name) ∧ auth_key (rolesPrefix ++ name) ∧ auth_key enabledKey.
Proof. by split_and!. Qed.

(** ** What the node holds *)

Definition vval (H : hist) (key : bytes) : option bytes := kv_Value <$> vlive H key.

Lemma vval_put V rev key value lease x :
  vval (V ++ at_rev rev [put_record V rev key value lease]) x = if bool_decide (x = key) then Some value else vval V x.
Proof.
  assert (rc_key (put_record V rev key value lease) = key ∧ rc_value (put_record V rev key value lease) = value ∧
    rc_delete (put_record V rev key value lease) = false) as (Hk & Hv & Hd) by (unfold put_record; by destruct (vlive V key)).
  unfold vval, vlive. cbn [at_rev map]. rewrite newest_snoc. cbn [snd]. case_bool_decide as H1.
  - rewrite bool_decide_eq_true_2 by congruence. cbn. rewrite Hd. cbn. by rewrite Hv.
  - by rewrite bool_decide_eq_false_2 by congruence.
Qed.

Lemma vval_delete V rev key kv x :
  vval (V ++ at_rev rev [delete_record key kv]) x = if bool_decide (x = key) then None else vval V x.
Proof.
  unfold vval, vlive. cbn [at_rev map]. rewrite newest_snoc. cbn [snd]. case_bool_decide as H1; cbn in H1.
  - by rewrite bool_decide_eq_true_2.
  - by rewrite bool_decide_eq_false_2 by congruence.
Qed.

Section Effects.
Context {N : Type} `{NI : T4Node N} `{NV : T4View N} `{NOk : !T4NodeOk N}.
Implicit Types n : N.

Lemma vval_foreign n K n' H key : t4_foreign n K n' → t4_ours n key → vval (H ++ K) key = vval H key.
Proof using.
  intros [Hf _] Ho. unfold vval, vlive. rewrite newest_app, newest_None; [done|]. intros x Hx <-. by apply (Hf x).
Qed.

Lemma vlive_current n H key : t4_hist n H → value_at H key (t4_cur n) = vlive H key.
Proof using NOk.
  intros Hh. unfold value_at, vlive. rewrite last_at_newest; [done|]. intros x Hx. by apply (t4_hist_le n H Hh).
Qed.

(** After a call: the history, and room for [k] more operations.  Only the
    keys in [changed] are different. *)
Record after (n : N) (H : hist) (changed : bytes → option (option bytes)) (n' : N) (H' : hist) (k : nat) : Prop := {
  af_hist : t4_hist n' H';
  af_spare : t4_spare n' k;
  af_ours key : t4_ours n key → t4_ours n' key;
  af_val key : t4_ours n key → vval H' key = default (vval H key) (changed key) }.

Definition changes (key : bytes) (v : option bytes) : bytes → option (option bytes) :=
  λ x, if bool_decide (x = key) then Some v else None.
Definition nothing : bytes → option (option bytes) := λ _, None.

Lemma put_effect n H k key value r n' :
  t4_hist n H → fits key value 0 → t4_spare n (S k) → t4_Put key value 0 n = (r, n') → t4_up n' →
  ∃ H', match r with
        | Ok _ => after n H (changes key (Some value)) n' H' k
        | Err _ => after n H nothing n' H' k ∧ ¬ t4_healthy n'
        end.
Proof using NOk.
  intros Hh Hf Hk Hr Hup. unfold t4_Put, mbind, ST_bind in Hr. destruct (t4_op (CPut key value 0) n) as [ra n1] eqn:E.
  assert (n1 = n' ∧ is_ok ra = is_ok r) as [-> Hok] by (by destruct ra; injection Hr as <- <-).
  destruct (t4_op_law n H k (CPut key value 0) ra n' Hh Hf Hk E Hup)
    as (K & recs & cur & rev & (Hh' & _ & _ & _) & Hfo & Hk' & _ & _ & _ & _ & Hs).
  exists (H ++ K ++ recs). rewrite app_assoc in *. destruct Hs as [Hs|(-> & Hw & e & ->)].
  - cbn [spec_op] in Hs. apply pair_equal_spec in Hs as [<- <-]. destruct r as [z|]; [|done]. split; [done|done|apply Hfo|].
    intros x Hx. rewrite vval_put. unfold changes. case_bool_decide; [done|]. cbn. by eapply vval_foreign.
  - destruct r as [z|]; [done|]. rewrite app_nil_r in *. split; [|done]. split; [done|done|apply Hfo|].
    intros x Hx. by eapply vval_foreign.
Qed.

Lemma delete_effect n H k key r n' :
  t4_hist n H → key ≠ [] → is_u32 (zlen key) → t4_spare n (S k) → t4_Delete key n = (r, n') → t4_up n' → t4_ours n key →
  ∃ H', match r with
        | Ok _ => after n H (changes key None) n' H' k
        | Err _ => after n H nothing n' H' k ∧ ¬ t4_healthy n'
        end.
Proof using NOk.
  intros Hh Hne Hf Hk Hr Hup Hours. unfold t4_Delete, mbind, ST_bind in Hr. destruct (t4_op (CDelete key) n) as [ra n1] eqn:E.
  assert (n1 = n' ∧ is_ok ra = is_ok r) as [-> Hok] by (by destruct ra; injection Hr as <- <-).
  destruct (t4_op_law n H k (CDelete key) ra n' Hh (conj Hne Hf) Hk E Hup)
    as (K & recs & cur & rev & (Hh' & _ & _ & _) & Hfo & Hk' & _ & _ & _ & _ & Hs).
  exists (H ++ K ++ recs). rewrite app_assoc in *. destruct Hs as [Hs|(-> & Hw & e & ->)].
  - cbn [spec_op] in Hs. destruct r as [z|].
    2:{ destruct (vlive (H ++ K) key); apply pair_equal_spec in Hs as [<- <-]; done. }
    split; [done|done|apply Hfo|]. intros x Hx. unfold changes. destruct (vlive (H ++ K) key) as [kv|] eqn:Ev; apply pair_equal_spec in Hs as [<- <-].
    + rewrite vval_delete. case_bool_decide; [done|]. cbn. by eapply vval_foreign.
    + rewrite app_nil_r. case_bool_decide as Hx'; [subst x|]; cbn; [|by eapply vval_foreign]. unfold vval. by rewrite Ev.
  - destruct r as [z|]; [done|]. rewrite app_nil_r in *. split; [|done]. split; [done|done|apply Hfo|].
    intros x Hx. by eapply vval_foreign.
Qed.

(** Reads change nothing. *)
Lemma reads_effect {A} (m : ST N A) spec n H r n' k :
  t4_reads m spec → t4_hist n H → t4_spare n k → m n = (r, n') → t4_up n' →
  ∃ H', after n H nothing n' H' k ∧ answers (¬ t4_healthy n') r (spec H' n').
Proof using.
  intros Hm Hh Hk Hr Hup. destruct (Hm n H r n' Hh Hr Hup) as (K & (Hh' & _ & _ & _) & Hfo & Hsp & Ha).
  exists (H ++ K). split; [|done]. split; [done|by apply Hsp|apply Hfo|]. intros x Hx. by eapply vval_foreign.
Qed.

Lemma get_effect n H key r n' k :
  t4_hist n H → t4_spare n k → t4_ours n key → t4_Get false key [] n = (r, n') → t4_up n' →
  ∃ H', after n H nothing n' H' k ∧
    match r with Ok o => kv_Value <$> o = vval H key | Err _ => ¬ t4_healthy n' end.
Proof using NOk.
  intros Hh Hk Ho Hr Hup.
  destruct (reads_effect _ _ n H r n' k (t4_Get_law false key [] ltac:(done)) Hh Hk Hr Hup) as (H' & Ha & Hans).
  exists H'. split; [done|]. destruct Hans as [->|(Hw & e & ->)]; [|done]. cbn.
  rewrite vlive_current by apply Ha. fold (vval H' key). by rewrite (af_val _ _ _ _ _ _ Ha).
Qed.

Lemma list_effect n H prefix r n' k :
  t4_hist n H → t4_spare n k → (∀ key, has_prefix prefix key = true → t4_ours n key) →
  t4_List false prefix [] n = (r, n') → t4_up n' →
  ∃ H', after n H nothing n' H' k ∧
    match r with
    | Ok kvs =>
        (∀ kv, kv ∈ kvs → has_prefix prefix (kv_Key kv) = true ∧ vval H (kv_Key kv) = Some (kv_Value kv)) ∧
        (∀ key v, has_prefix prefix key = true → vval H key = Some v → ∃ kv, kv ∈ kvs ∧ kv_Key kv = key)
    | Err _ => ¬ t4_healthy n'
    end.
Proof using NOk.
  intros Hh Hk Ho Hr Hup.
  destruct (reads_effect _ _ n H r n' k (t4_List_law false prefix [] ltac:(done)) Hh Hk Hr Hup) as (H' & Ha & Hans).
  exists H'. split; [done|]. destruct Hans as [->|(Hw & e & ->)]; [|done]. cbn [at_revision].
  change (rd_revision (applyReadOpts [])) with 0. change (rd_fromKey (applyReadOpts [])) with (@nil byte).
  change (take_limit (rd_limit (applyReadOpts [])) ?l) with l. cbn.
  destruct (list_at_listing H' prefix [] (t4_cur n')) as [_ Hi].
  assert (∀ key, has_prefix prefix key = true → vval H' key = vval H key) as Hv
    by (intros key Hp; by rewrite (af_val _ _ _ _ _ _ Ha) by (by apply Ho)).
  split.
  - intros kv (Hp & _ & Hval)%Hi. rewrite (vlive_current n') in Hval by apply Ha. split; [done|].
    rewrite <- Hv by done. unfold vval. by rewrite Hval.
  - intros key v Hp Hval. rewrite <- Hv in Hval by done. unfold vval in Hval. destruct (vlive H' key) as [kv|] eqn:E; [|done].
    rewrite <- (vlive_current n') in E by apply Ha. pose proof (value_at_key _ _ _ _ E) as Hkey. exists kv. split; [|done].
    apply Hi. rewrite Hkey. split; [done|]. split; [by destruct key|done].
Qed.
End Effects.

(** ** The store as a function *)

Inductive AuthOp :=
  | OEnable | ODisable
  | OPutUser (u : User) (password : bytes) | ODeleteUser (name : bytes)
  | OGrantRole (user role : bytes) | ORevokeRole (user role : bytes)
  | OPutRole (r : Role) | ODeleteRole (name : bytes)
  | OGrantPermission (role : bytes) (p : Permission) | ORevokePermission (role key rangeEnd : bytes).

Definition put_user (u : User) (s : AuthStore) : AuthStore := set_users (<[us_Name u := u]> (as_users s)) s.
Definition put_role (r : Role) (s : AuthStore) : AuthStore := set_roles (<[ro_Name r := r]> (as_roles s)) s.

Section Spec.
Context (bcryptGenerate : Z → bytes → result bytes).

(** The store after the operation, or nothing when it is refused; [rnd] is the
    next salt. *)
Definition auth_spec (rnd : result Z) (op : AuthOp) (s : AuthStore) : option AuthStore :=
  match op with
  | OEnable =>
      if as_enabled s then Some s
      else
        _ ← as_users s !! RootUser;
        Some (set_enabled true (match as_roles s !! RootRole with Some _ => s | None => put_role (mkRole RootRole []) s end))
  | ODisable => Some (set_enabled false s)
  | OPutUser u password =>
      if bool_decide (password = []) then Some (put_user u s)
      else
        match rnd with
        | Ok salt =>
            match bcryptGenerate salt password with
            | Ok h => Some (put_user (mkUser (us_Name u) h (us_Roles u)) s)
            | Err _ => None
            end
        | Err _ => None
        end
  | ODeleteUser name =>
      if as_enabled s && bool_decide (name = RootUser) then None
      else _ ← as_users s !! name; Some (set_users (delete name (as_users s)) s)
  | OGrantRole user role =>
      u ← as_users s !! user;
      _ ← as_roles s !! role;
      Some (if bool_decide (role ∈ us_Roles u) then s
            else put_user (mkUser (us_Name u) (us_PasswordHash u) (us_Roles u ++ [role])) s)
  | ORevokeRole user role =>
      u ← as_users s !! user;
      Some (put_user (mkUser (us_Name u) (us_PasswordHash u) (filter (λ r, r ≠ role) (us_Roles u))) s)
  | OPutRole r => Some (put_role r s)
  | ODeleteRole name =>
      if as_enabled s && bool_decide (name = RootRole) then None
      else _ ← as_roles s !! name; Some (set_roles (delete name (as_roles s)) s)
  | OGrantPermission role p =>
      r ← as_roles s !! role;
      Some (put_role (mkRole (ro_Name r) (default (ro_Permissions r ++ [p]) (replace_perm (ro_Permissions r) p))) s)
  | ORevokePermission role key rangeEnd =>
      r ← as_roles s !! role;
      Some (put_role (mkRole (ro_Name r)
        (filter (λ p, ¬ (pm_Key p = key ∧ pm_RangeEnd p = rangeEnd)) (ro_Permissions r))) s)
  end.

(** The node holds what is in memory. *)
Record coherent (s : AuthStore) (H : hist) : Prop := {
  co_enabled : as_enabled s = bool_decide (vval H enabledKey = Some (str "1"));
  co_users name : vval H (usersPrefix ++ name) = (λ u, print (userJSON u)) <$> as_users s !! name;
  co_roles name : vval H (rolesPrefix ++ name) = (λ r, print (roleJSON r)) <$> as_roles s !! name }.

(** Users and roles are filed under their names, and their records can be
    written and read back. *)
Definition user_fits (u : User) : Prop := wf_user u ∧ fits (usersPrefix ++ us_Name u) (print (userJSON u)) 0.
Definition role_fits (r : Role) : Prop := wf_role r ∧ fits (rolesPrefix ++ ro_Name r) (print (roleJSON r)) 0.
Definition sound (s : AuthStore) : Prop :=
  (∀ name u, as_users s !! name = Some u → us_Name u = name ∧ user_fits u) ∧
  (∀ name r, as_roles s !! name = Some r → ro_Name r = name ∧ role_fits r).

Section Ops.
Context {N : Type} `{NI : T4Node N} `{NV : T4View N} `{NOk : !T4NodeOk N}.
Local Notation Auth := (Auth N).
Implicit Types a : Auth.

Definition node_of a : N := h_node (au_host a).

Definition run_auth (op : AuthOp) : ST Auth () :=
  match op with
  | OEnable => Enable
  | ODisable => Disable
  | OPutUser u password => PutUser bcryptGenerate u password
  | ODeleteUser name => DeleteUser name
  | OGrantRole user role => GrantRole user role
  | ORevokeRole user role => RevokeRole user role
  | OPutRole r => PutRole r
  | ODeleteRole name => DeleteRole name
  | OGrantPermission role p => GrantPermission role p
  | ORevokePermission role key rangeEnd => RevokePermission role key rangeEnd
  end.

(** The auth name space is written by nobody else. *)
Definition reserved (n : N) : Prop := ∀ key, auth_key key → t4_ours n key.

(** A state with the users and roles of [s], in memory and in the node. *)
Record consistent a (s : AuthStore) (H : hist) (k : nat) : Prop := {
  cs_store : au_store a = s;
  cs_hist : t4_hist (node_of a) H;
  cs_spare : t4_spare (node_of a) k;
  cs_reserved : reserved (node_of a);
  cs_coherent : coherent s H }.

(** ** Writing a record *)

Lemma authPut_run key value a r a' : authPut key value a = (r, a') →
  ∃ rz n', t4_Put key value 0 (node_of a) = (rz, n') ∧ r = (λ _, tt) <$> rz ∧ node_of a' = n' ∧
    au_store a' = au_store a ∧ au_tokens a' = au_tokens a.
Proof using.
  unfold authPut, on_host, on_node, zoom, mbind, ST_bind, node_of. destruct (t4_Put key value 0 (h_node (au_host a))) as [rz n'].
  destruct rz as [z|e]; intros [= <- <-]; by eexists _, _.
Qed.

Lemma authDelete_run key a r a' : authDelete key a = (r, a') →
  ∃ rz n', t4_Delete key (node_of a) = (rz, n') ∧ r = (λ _, tt) <$> rz ∧ node_of a' = n' ∧
    au_store a' = au_store a ∧ au_tokens a' = au_tokens a.
Proof using.
  unfold authDelete, on_host, on_node, zoom, mbind, ST_bind, node_of. destruct (t4_Delete key (h_node (au_host a))) as [rz n'].
  destruct rz as [z|e]; intros [= <- <-]; by eexists _, _.
Qed.

Lemma getUser_run name a :
  getUser name a = (match as_users (au_store a) !! name with Some u => Ok u | None => Err errUserNotFound end, a).
Proof using. unfold getUser, get_store, get_st, mbind, ST_bind, mret, ST_ret. cbn. by destruct (as_users _ !! name). Qed.

Lemma getRole_run name a :
  getRole name a = (match as_roles (au_store a) !! name with Some r => Ok r | None => Err errRoleNotFound end, a).
Proof using. unfold getRole, get_store, get_st, mbind, ST_bind, mret, ST_ret. cbn. by destruct (as_roles _ !! name). Qed.

(** The outcome of an operation that should lead to [s]: it does, or the
    database failed. *)
Definition leads (r : result ()) a' (s : AuthStore) (k : nat) : Prop :=
  (∃ H', r = Ok tt ∧ consistent a' s H' k) ∨ ((∃ e, r = Err e) ∧ ¬ t4_healthy (node_of a')).

(** A record is written and the maps follow. *)
Lemma put_then f key value a H k r a' s2 :
  t4_hist (node_of a) H → t4_spare (node_of a) (S k) → reserved (node_of a) → fits key value 0 → f (au_store a) = s2 →
  (∀ H', (∀ x, auth_key x → vval H' x = default (vval H x) (changes key (Some value) x)) → coherent s2 H') →
  (authPut key value;; mod_store f) a = (r, a') → t4_up (node_of a') → leads r a' s2 k.
Proof using NOk.
  intros Hh Hk Hres Hf Hs2 Hco Hr Hup. unfold mbind, ST_bind in Hr. destruct (authPut key value a) as [r1 a1] eqn:E1.
  apply authPut_run in E1 as (rz & n' & Ep & -> & Hn & Hst & _).
  assert (node_of a' = n') as Hn' by (destruct rz; injection Hr as <- <-; done). rewrite <- Hn' in *.
  destruct (put_effect _ H k key value rz _ Hh Hf Hk Ep Hup) as [H' Ha]. destruct rz as [z|e]; cbn in Hr.
  - left. exists H'. injection Hr as <- <-. split; [done|]. split.
    + cbn. by rewrite Hst.
    + apply Ha.
    + apply Ha.
    + intros x Hx. by apply Ha, Hres.
    + apply Hco. intros x Hx. by apply Ha, Hres.
  - right. injection Hr as <- <-. destruct Ha as [_ Hw]. split; [by eexists|done].
Qed.

Lemma delete_then f key a H k r a' s2 :
  t4_hist (node_of a) H → t4_spare (node_of a) (S k) → reserved (node_of a) → auth_key key → is_u32 (zlen key) →
  f (au_store a) = s2 →
  (∀ H', (∀ x, auth_key x → vval H' x = default (vval H x) (changes key None x)) → coherent s2 H') →
  (authDelete key;; mod_store f) a = (r, a') → t4_up (node_of a') → leads r a' s2 k.
Proof using NOk.
  intros Hh Hk Hres Hak Hf Hs2 Hco Hr Hup. unfold mbind, ST_bind in Hr. destruct (authDelete key a) as [r1 a1] eqn:E1.
  apply authDelete_run in E1 as (rz & n' & Ep & -> & Hn & Hst & _).
  assert (node_of a' = n') as Hn' by (destruct rz; injection Hr as <- <-; done). rewrite <- Hn' in *.
  destruct (delete_effect _ H k key rz _ Hh ltac:(by intros ->) Hf Hk Ep Hup (Hres _ Hak)) as [H' Ha]. destruct rz as [z|e]; cbn in Hr.
  - left. exists H'. injection Hr as <- <-. split; [done|]. split.
    + cbn. by rewrite Hst.
    + apply Ha.
    + apply Ha.
    + intros x Hx. by apply Ha, Hres.
    + apply Hco. intros x Hx. by apply Ha, Hres.
  - right. injection Hr as <- <-. destruct Ha as [_ Hw]. split; [by eexists|done].
Qed.

(** ** The maps and the node together *)

Lemma changes_ne key v x d : x ≠ key → default d (changes key v x) = d.
Proof using. intros Hx. unfold changes. by rewrite bool_decide_eq_false_2. Qed.
Lemma changes_eq key v d : default d (changes key v key) = v.
Proof using. unfold changes. by rewrite bool_decide_eq_true_2. Qed.

Lemma coherent_user s H H' name v o : coherent s H →
  (∀ x, auth_key x → vval H' x = default (vval H x) (changes (usersPrefix ++ name) v x)) →
  v = (λ u, print (userJSON u)) <$> o →
  coherent (set_users (match o with Some u => <[name := u]> (as_users s) | None => delete name (as_users s) end) s) H'.
Proof using.
  intros [He Hu Hr] Hv ->. split; cbn [set_users set_roles as_enabled as_users as_roles].
  - rewrite Hv, changes_ne; [done|apply not_eq_sym, (prefixes_apart name [])|apply (auth_keys [])].
  - intros x. rewrite Hv by apply (auth_keys x). destruct (decide (x = name)) as [->|Hx].
    + rewrite changes_eq. destruct o; [by rewrite lookup_insert_eq|by rewrite lookup_delete_eq].
    + rewrite changes_ne by (by intros Hx'%app_inv_head). rewrite Hu.
      destruct o; [by rewrite lookup_insert_ne|by rewrite lookup_delete_ne].
  - intros x. rewrite Hv, changes_ne; [done|apply not_eq_sym, (prefixes_apart name x)|apply (auth_keys x)].
Qed.

Lemma coherent_role s H H' name v o : coherent s H →
  (∀ x, auth_key x → vval H' x = default (vval H x) (changes (rolesPrefix ++ name) v x)) →
  v = (λ r, print (roleJSON r)) <$> o →
  coherent (set_roles (match o with Some r => <[name := r]> (as_roles s) | None => delete name (as_roles s) end) s) H'.
Proof using.
  intros [He Hu Hr] Hv ->. split; cbn [set_users set_roles as_enabled as_users as_roles].
  - rewrite Hv, changes_ne; [done|apply not_eq_sym, (prefixes_apart [] name)|apply (auth_keys [])].
  - intros x. rewrite Hv, changes_ne; [done|apply (prefixes_apart x name)|apply (auth_keys x)].
  - intros x. rewrite Hv by apply (auth_keys x). destruct (decide (x = name)) as [->|Hx].
    + rewrite changes_eq. destruct o; [by rewrite lookup_insert_eq|by rewrite lookup_delete_eq].
    + rewrite changes_ne by (by intros Hx'%app_inv_head). rewrite Hr.
      destruct o; [by rewrite lookup_insert_ne|by rewrite lookup_delete_ne].
Qed.

Lemma coherent_enabled s H H' (b : bool) : coherent s H →
  (∀ x, auth_key x → vval H' x = default (vval H x) (changes enabledKey (Some (if b then str "1" else str "0")) x)) →
  coherent (set_enabled b s) H'.
Proof using.
  intros [He Hu Hr] Hv. split; cbn [set_enabled as_enabled as_users as_roles].
  - rewrite Hv, changes_eq by apply (auth_keys []). by destruct b.
  - intros x. rewrite Hv, changes_ne; [done|apply (prefixes_apart x [])|apply (auth_keys x)].
  - intros x. rewrite Hv, changes_ne; [done|apply (prefixes_apart [] x)|apply (auth_keys x)].
Qed.

(** The slice of the map may have been written before. *)
Lemma putUser_leads u a s H k r a' :
  (as_users (au_store a) = as_users s ∨ ∃ x, as_users (au_store a) = <[us_Name u := x]> (as_users s)) →
  set_users (as_users s) (au_store a) = s →
  t4_hist (node_of a) H → t4_spare (node_of a) (S k) → reserved (node_of a) → coherent s H → user_fits u →
  putUser u a = (r, a') → t4_up (node_of a') → leads r a' (put_user u s) k.
Proof using NOk.
  intros Hus Hst Hh Hk Hres Hco [_ Hf] Hr Hup. eapply put_then; [done|done|done|exact Hf| | |exact Hr|done].
  - cbn. unfold put_user. rewrite <- Hst at 1 2. cbn. destruct (au_store a) as [en us ro rl]. cbn in *. unfold set_users. cbn.
    destruct Hus as [->|[x ->]]; [by rewrite <- Hst|]. rewrite insert_insert_eq. by rewrite <- Hst.
  - intros H' Hv. by apply (coherent_user s H H' (us_Name u) (Some (print (userJSON u))) (Some u)).
Qed.

Lemma putRole_leads ro a s H k r a' :
  (as_roles (au_store a) = as_roles s ∨ ∃ x, as_roles (au_store a) = <[ro_Name ro := x]> (as_roles s)) →
  set_roles (as_roles s) (au_store a) = s →
  t4_hist (node_of a) H → t4_spare (node_of a) (S k) → reserved (node_of a) → coherent s H → role_fits ro →
  putRole ro a = (r, a') → t4_up (node_of a') → leads r a' (put_role ro s) k.
Proof using NOk.
  intros Hus Hst Hh Hk Hres Hco [_ Hf] Hr Hup. eapply put_then; [done|done|done|exact Hf| | |exact Hr|done].
  - cbn. unfold put_role. destruct (au_store a) as [en us rs rl]. cbn in *. unfold set_roles in *. cbn in *.
    destruct Hus as [->|[x ->]]; [by rewrite <- Hst|]. rewrite insert_insert_eq. by rewrite <- Hst.
  - intros H' Hv. by apply (coherent_role s H H' (ro_Name ro) (Some (print (roleJSON ro))) (Some ro)).
Qed.

(** ** The operations *)

Definition next_rand a : result Z := match h_rand (au_host a) with [] => Err (ErrText "rand") | r :: _ => r end.

(** What an operation that should lead to [o] does; [None] is a refusal. *)
Definition outcome (r : result ()) a' (s : AuthStore) (H : hist) (o : option AuthStore) (k : nat) : Prop :=
  match o with
  | Some s' => leads r a' s' k
  | None => (∃ e, r = Err e) ∧ consistent a' s H k
  end.

Lemma consistent_less a s H k j : (j ≤ k)%nat → consistent a s H k → consistent a s H j.
Proof using NOk.
  intros Hj [Hs Hh Hk Hr Hc]. split; try done. by eapply t4_spare_le.
Qed.

Lemma leads_less r a' s k j : (j ≤ k)%nat → leads r a' s k → leads r a' s j.
Proof using NOk. intros Hj [(H' & Hr & Hc)|Hw]; [left|by right]. exists H'. split; [done|]. by eapply consistent_less. Qed.

Lemma putUser_step u a s H k r a' : consistent a s H (S k) → user_fits u →
  putUser u a = (r, a') → t4_up (node_of a') → leads r a' (put_user u s) k.
Proof using NOk.
  intros [<- Hh Hk Hres Hc] Hf Hr Hup. eapply putUser_leads; [by left| |done..]. by destruct (au_store a).
Qed.

Lemma putRole_step ro a s H k r a' : consistent a s H (S k) → role_fits ro →
  putRole ro a = (r, a') → t4_up (node_of a') → leads r a' (put_role ro s) k.
Proof using NOk.
  intros [<- Hh Hk Hres Hc] Hf Hr Hup. eapply putRole_leads; [by left| |done..]. by destruct (au_store a).
Qed.

(** The slice in the map is overwritten first. *)
Lemma putUser_in_place u x a s H k r a' : consistent a s H (S k) → user_fits u →
  (mod_store (λ s, set_users (<[us_Name u := x]> (as_users s)) s);; putUser u) a = (r, a') → t4_up (node_of a') →
  leads r a' (put_user u s) k.
Proof using NOk.
  intros [<- Hh Hk Hres Hc] Hf Hr Hup. unfold mbind at 1, ST_bind at 1, mod_store, modify in Hr. cbn in Hr.
  eapply (putUser_leads u (set_store (set_users (<[us_Name u := x]> (as_users (au_store a))) (au_store a)) a));
    [right; by exists x| |done..]. by destruct (au_store a).
Qed.

Lemma putRole_in_place ro x a s H k r a' : consistent a s H (S k) → role_fits ro →
  (mod_store (λ s, set_roles (<[ro_Name ro := x]> (as_roles s)) s);; putRole ro) a = (r, a') → t4_up (node_of a') →
  leads r a' (put_role ro s) k.
Proof using NOk.
  intros [<- Hh Hk Hres Hc] Hf Hr Hup. unfold mbind at 1, ST_bind at 1, mod_store, modify in Hr. cbn in Hr.
  eapply (putRole_leads ro (set_store (set_roles (<[ro_Name ro := x]> (as_roles (au_store a))) (au_store a)) a));
    [right; by exists x| |done..]. by destruct (au_store a).
Qed.

Lemma setEnabled_step b a s H k r a' : consistent a s H (S k) →
  setEnabled b a = (r, a') → t4_up (node_of a') → leads r a' (set_enabled b s) k.
Proof using NOk.
  intros [<- Hh Hk Hres Hc] Hr Hup. eapply put_then; [done|done|done| |done| |exact Hr|done].
  - by destruct b.
  - intros H' Hv. by eapply coherent_enabled.
Qed.

Lemma filter_keep {A} (P : A → Prop) `{∀ x, Decision (P x)} (b : A → bool) l :
  (∀ x, b x = true ↔ P x) → List.filter b l = filter P l.
Proof using.
  intros Hb. induction l as [|x l IH]; [done|]. cbn [List.filter]. rewrite filter_cons, IH.
  destruct (b x) eqn:E; [rewrite decide_True by (by apply Hb)|rewrite decide_False by (rewrite <- Hb; congruence)]; done.
Qed.

Lemma HasRole_spec u role : HasRole u role = bool_decide (role ∈ us_Roles u).
Proof using.
  unfold HasRole. destruct (existsb _ _) eqn:E; symmetry.
  - apply bool_decide_eq_true_2. apply existsb_exists in E as (x & Hx & ->%bool_decide_eq_true). by apply list_elem_of_In.
  - apply bool_decide_eq_false_2. intros Hin. assert (existsb (λ r, bool_decide (r = role)) (us_Roles u) = true); [|congruence].
    apply existsb_exists. exists role. split; [by apply list_elem_of_In|by apply bool_decide_eq_true_2].
Qed.

Lemma setEnabled_up b a r a' : setEnabled b a = (r, a') → t4_up (node_of a') → t4_up (node_of a).
Proof using NOk.
  unfold setEnabled, mbind, ST_bind. destruct (authPut enabledKey _ a) as [r1 a1] eqn:E1. intros Hr Hup.
  apply authPut_run in E1 as (rz & n' & Ep & -> & Hn & _). eapply Put_sticky; [exact Ep|]. rewrite <- Hn.
  destruct rz; injection Hr as <- <-; done.
Qed.

Lemma Enable_outcome a s H k r a' : consistent a s H (2 + k) →
  Enable a = (r, a') → t4_up (node_of a') → outcome r a' s H (auth_spec (next_rand a) OEnable s) k.
Proof using NOk.
  intros Hc Hr Hup. pose proof (cs_store _ _ _ _ Hc) as Hs. unfold Enable in Hr.
  rewrite (ST_bind_ok get_store _ a (au_store a) a), Hs in Hr by done. cbn [auth_spec].
  destruct (as_enabled s) eqn:He.
  { injection Hr as <- <-. left. exists H. split; [done|]. eapply consistent_less; [|exact Hc]. lia. }
  destruct (as_users s !! RootUser) as [u|] eqn:Eu; cbn [mbind option_bind outcome].
  2:{ rewrite (ST_bind_err _ _ a errRootUser a) in Hr by (unfold st_map_err; by rewrite getUser_run, Hs, Eu).
      injection Hr as <- <-. split; [by eexists|]. eapply consistent_less; [|exact Hc]. lia. }
  rewrite (ST_bind_ok (st_map_err (λ _, errRootUser) (getUser RootUser)) _ a u a) in Hr
    by (unfold st_map_err; by rewrite getUser_run, Hs, Eu).
  rewrite (try_bind _ _ _ _ _ (getRole_run RootRole a)), Hs in Hr.
  destruct (as_roles s !! RootRole) as [ro|] eqn:Er.
  { rewrite (ST_bind_ok (mret tt) _ a tt a) in Hr by done.
    eapply leads_less; [|eapply (setEnabled_step true a s H (1 + k)); done]. lia. }
  unfold mbind, ST_bind, st_map_err in Hr. destruct (putRole (mkRole RootRole []) a) as [r1 a1] eqn:E1.
  assert (role_fits (mkRole RootRole [])) as Hf by (split; [by split; [vm_compute|constructor]|by split_and!; vm_compute]).
  destruct r1 as [[]|e1].
  - change (setEnabled true a1 = (r, a')) in Hr. pose proof (setEnabled_up _ _ _ _ Hr Hup) as Hup1.
    destruct (putRole_step _ a s H (1 + k) _ a1 Hc Hf E1 Hup1) as [(H1 & _ & Hc1)|((e & ?) & _)]; [|done].
    by eapply setEnabled_step.
  - injection Hr as <- <-.
    destruct (putRole_step _ a s H (1 + k) _ a1 Hc Hf E1 Hup) as [(H1 & ? & _)|(_ & Hw)]; [done|]. right. split; [by eexists|done].
Qed.

Lemma Disable_outcome a s H k r a' : consistent a s H (2 + k) →
  Disable a = (r, a') → t4_up (node_of a') → outcome r a' s H (auth_spec (next_rand a) ODisable s) k.
Proof using NOk.
  intros Hc Hr Hup. pose proof (cs_store _ _ _ _ Hc) as Hs. unfold Disable in Hr.
  rewrite (ST_bind_ok get_store _ a (au_store a) a), Hs in Hr by done. cbn [auth_spec].
  destruct (as_enabled s) eqn:He; cbn [negb] in Hr.
  - eapply leads_less; [|eapply (setEnabled_step false a s H (1 + k)); done]. lia.
  - injection Hr as <- <-. left. exists H. split; [done|].
    assert (set_enabled false s = s) as -> by (destruct s; cbn in *; by subst). eapply consistent_less; [|exact Hc]. lia.
Qed.

(** An operation that is refused without a change. *)
Lemma refused a s H k (r : result ()) a' e : consistent a s H (2 + k) → (Err e, a) = (r, a') → (∃ e, r = Err e) ∧ consistent a' s H k.
Proof using NOk. intros Hc [= <- <-]. split; [by eexists|]. eapply consistent_less; [|exact Hc]. lia. Qed.

Lemma PutUser_outcome u password a s H k r a' : consistent a s H (2 + k) →
  (∀ s', auth_spec (next_rand a) (OPutUser u password) s = Some s' → sound s') →
  PutUser bcryptGenerate u password a = (r, a') → t4_up (node_of a') →
  outcome r a' s H (auth_spec (next_rand a) (OPutUser u password) s) k.
Proof using NOk.
  intros Hc Hsound Hr Hup. unfold PutUser in Hr. cbn [auth_spec] in *.
  assert (∀ u s', s' = put_user u s → sound s' → user_fits u) as Hfit.
  { intros u0 s' -> [Hu _]. eapply (Hu (us_Name u0)). cbn. apply lookup_insert_eq. }
  case_bool_decide as Hp.
  { eapply leads_less; [|eapply (putUser_step u a s H (1 + k)); [done| |done|done]]; [lia|]. eapply Hfit; [done|]. by apply Hsound. }
  set (h := st_map_err _ _) in Hr.
  assert (∃ a1, h a = (match next_rand a with
      | Ok salt => match bcryptGenerate salt password with Ok x => Ok x | Err _ => Err (ErrText "hash password") end
      | Err _ => Err (ErrText "hash password") end, a1) ∧ au_store a1 = au_store a ∧ node_of a1 = node_of a) as (a1 & E1 & Hs1 & Hn1).
  { unfold h, st_map_err, mbind, ST_bind, on_host, zoom, randRead, next_rand, from_result, node_of.
    destruct (h_rand (au_host a)) as [|[salt|e] rs]; cbn; [by eexists| |by eexists].
    destruct (bcryptGenerate salt password); cbn; by eexists. }
  assert (consistent a1 s H (2 + k)) as Hc1 by (destruct Hc; split; rewrite ?Hn1, ?Hs1; done).
  unfold mbind, ST_bind in Hr. rewrite E1 in Hr.
  destruct (next_rand a) as [salt|e]; [|by eapply refused]. destruct (bcryptGenerate salt password) as [x|e]; [|by eapply refused].
  eapply leads_less; [|eapply (putUser_step _ a1 s H (1 + k)); [done| |done|done]]; [lia|]. eapply Hfit; [done|]. by apply Hsound.
Qed.

Lemma DeleteUser_outcome name a s H k r a' : consistent a s H (2 + k) → sound s →
  DeleteUser name a = (r, a') → t4_up (node_of a') → outcome r a' s H (auth_spec (next_rand a) (ODeleteUser name) s) k.
Proof using NOk.
  intros Hc Hsound Hr Hup. pose proof (cs_store _ _ _ _ Hc) as Hs. unfold DeleteUser in Hr.
  rewrite (ST_bind_ok get_store _ a (au_store a) a), Hs in Hr by done. cbn [auth_spec].
  destruct (as_enabled s && bool_decide (name = RootUser)); [by eapply refused|]. unfold mbind at 1, ST_bind at 1 in Hr.
  rewrite getUser_run, Hs in Hr. destruct (as_users s !! name) as [u|] eqn:Eu; [|by eapply refused].
  destruct (proj1 Hsound name u Eu) as (<- & _ & Hk & _). destruct Hc as [_ Hh Hsp Hres Hco].
  eapply (leads_less _ _ _ (1 + k)); [lia|]. eapply delete_then; [done|done|done|exact (proj1 (auth_keys (us_Name u)))|exact Hk| | |exact Hr|done].
  - cbn. by rewrite Hs.
  - intros H' Hv. by apply (coherent_user s H H' (us_Name u) None None).
Qed.

Lemma DeleteRole_outcome name a s H k r a' : consistent a s H (2 + k) → sound s →
  DeleteRole name a = (r, a') → t4_up (node_of a') → outcome r a' s H (auth_spec (next_rand a) (ODeleteRole name) s) k.
Proof using NOk.
  intros Hc Hsound Hr Hup. pose proof (cs_store _ _ _ _ Hc) as Hs. unfold DeleteRole in Hr.
  rewrite (ST_bind_ok get_store _ a (au_store a) a), Hs in Hr by done. cbn [auth_spec].
  destruct (as_enabled s && bool_decide (name = RootRole)); [by eapply refused|]. unfold mbind at 1, ST_bind at 1 in Hr.
  rewrite getRole_run, Hs in Hr. destruct (as_roles s !! name) as [ro|] eqn:Er; [|by eapply refused].
  destruct (proj2 Hsound name ro Er) as (<- & _ & Hk & _). destruct Hc as [_ Hh Hsp Hres Hco].
  eapply (leads_less _ _ _ (1 + k)); [lia|]. eapply delete_then; [done|done|done|exact (proj1 (proj2 (auth_keys (ro_Name ro))))|exact Hk| | |exact Hr|done].
  - cbn. by rewrite Hs.
  - intros H' Hv. by apply (coherent_role s H H' (ro_Name ro) None None).
Qed.

Lemma sound_user s u : sound (put_user u s) → user_fits u.
Proof using. intros [Hu _]. eapply (Hu (us_Name u)). cbn. apply lookup_insert_eq. Qed.
Lemma sound_role s ro : sound (put_role ro s) → role_fits ro.
Proof using. intros [_ Hr]. eapply (Hr (ro_Name ro)). cbn. apply lookup_insert_eq. Qed.

Lemma GrantRole_outcome user role a s H k r a' : consistent a s H (2 + k) →
  (∀ s', auth_spec (next_rand a) (OGrantRole user role) s = Some s' → sound s') →
  GrantRole user role a = (r, a') → t4_up (node_of a') → outcome r a' s H (auth_spec (next_rand a) (OGrantRole user role) s) k.
Proof using NOk.
  intros Hc Hsound Hr Hup. pose proof (cs_store _ _ _ _ Hc) as Hs. unfold GrantRole in Hr. cbn [auth_spec] in *.
  unfold mbind at 1, ST_bind at 1 in Hr. rewrite getUser_run, Hs in Hr.
  destruct (as_users s !! user) as [u|] eqn:Eu; [|by eapply refused]. unfold mbind at 1, ST_bind at 1 in Hr.
  rewrite getRole_run, Hs in Hr. destruct (as_roles s !! role) as [ro|] eqn:Er; [|by eapply refused].
  cbn [mbind option_bind outcome] in *. rewrite HasRole_spec in Hr. specialize (Hsound _ eq_refl). case_bool_decide as Hin.
  - injection Hr as <- <-. left. exists H. split; [done|]. eapply consistent_less; [|exact Hc]. lia.
  - eapply leads_less; [|eapply (putUser_step _ a s H (1 + k)); [done|by eapply sound_user|done|done]]. lia.
Qed.

Lemma RevokeRole_outcome user role a s H k r a' : consistent a s H (2 + k) → sound s →
  (∀ s', auth_spec (next_rand a) (ORevokeRole user role) s = Some s' → sound s') →
  RevokeRole user role a = (r, a') → t4_up (node_of a') → outcome r a' s H (auth_spec (next_rand a) (ORevokeRole user role) s) k.
Proof using NOk.
  intros Hc Hsnd Hsound Hr Hup. pose proof (cs_store _ _ _ _ Hc) as Hs. unfold RevokeRole in Hr. cbn [auth_spec] in *.
  unfold mbind at 1, ST_bind at 1 in Hr. rewrite getUser_run, Hs in Hr.
  destruct (as_users s !! user) as [u|] eqn:Eu; [|by eapply refused]. cbn [mbind option_bind outcome filter_in_place] in *.
  rewrite (filter_keep (λ r, r ≠ role)) in Hr.
  2:{ intros x. rewrite negb_true_iff. by rewrite bool_decide_eq_false. }
  specialize (Hsound _ eq_refl). destruct (proj1 Hsnd user u Eu) as (<- & _).
  eapply leads_less; [|eapply (putUser_in_place _ _ a s H (1 + k)); [done|by eapply sound_user|exact Hr|done]]. lia.
Qed.

Lemma GrantPermission_outcome role p a s H k r a' : consistent a s H (2 + k) → sound s →
  (∀ s', auth_spec (next_rand a) (OGrantPermission role p) s = Some s' → sound s') →
  GrantPermission role p a = (r, a') → t4_up (node_of a') →
  outcome r a' s H (auth_spec (next_rand a) (OGrantPermission role p) s) k.
Proof using NOk.
  intros Hc Hsnd Hsound Hr Hup. pose proof (cs_store _ _ _ _ Hc) as Hs. unfold GrantPermission in Hr. cbn [auth_spec] in *.
  unfold mbind at 1, ST_bind at 1 in Hr. rewrite getRole_run, Hs in Hr.
  destruct (as_roles s !! role) as [ro|] eqn:Er; [|by eapply refused]. cbn [mbind option_bind outcome] in *.
  specialize (Hsound _ eq_refl). destruct (proj2 Hsnd role ro Er) as (<- & _).
  destruct (replace_perm (ro_Permissions ro) p) as [perms|] eqn:Ep; cbn [default] in *.
  - eapply leads_less; [|eapply (putRole_in_place _ _ a s H (1 + k)); [done|by eapply sound_role|exact Hr|done]]. lia.
  - eapply leads_less; [|eapply (putRole_step _ a s H (1 + k)); [done|by eapply sound_role|exact Hr|done]]. lia.
Qed.

Lemma RevokePermission_outcome role key rangeEnd a s H k r a' : consistent a s H (2 + k) → sound s →
  (∀ s', auth_spec (next_rand a) (ORevokePermission role key rangeEnd) s = Some s' → sound s') →
  RevokePermission role key rangeEnd a = (r, a') → t4_up (node_of a') →
  outcome r a' s H (auth_spec (next_rand a) (ORevokePermission role key rangeEnd) s) k.
Proof using NOk.
  intros Hc Hsnd Hsound Hr Hup. pose proof (cs_store _ _ _ _ Hc) as Hs. unfold RevokePermission in Hr. cbn [auth_spec] in *.
  unfold mbind at 1, ST_bind at 1 in Hr. rewrite getRole_run, Hs in Hr.
  destruct (as_roles s !! role) as [ro|] eqn:Er; [|by eapply refused]. cbn [mbind option_bind outcome filter_in_place] in *.
  rewrite (filter_keep (λ p, ¬ (pm_Key p = key ∧ pm_RangeEnd p = rangeEnd))) in Hr.
  2:{ intros x. rewrite orb_true_iff, !negb_true_iff, !bool_decide_eq_false.
      destruct (decide (pm_Key x = key)), (decide (pm_RangeEnd x = rangeEnd)); tauto. }
  specialize (Hsound _ eq_refl). destruct (proj2 Hsnd role ro Er) as (<- & _).
  eapply leads_less; [|eapply (putRole_in_place _ _ a s H (1 + k)); [done|by eapply sound_role|exact Hr|done]]. lia.
Qed.


(** ** Restart *)

Definition put_node (n : N) a : Auth := set_host (set_h_node n (au_host a)) a.

Lemma on_node_run {A} (m : ST N A) a r n' : m (node_of a) = (r, n') → on_host (on_node m) a = (r, put_node n' a).
Proof using. unfold on_host, on_node, zoom, node_of. by intros ->. Qed.

Lemma coherent_after s n H n' H' k : reserved n → after n H nothing n' H' k → coherent s H → coherent s H' ∧ reserved n'.
Proof using.
  intros Hres Ha [He Hu Hr].
  assert (∀ key, auth_key key → vval H' key = vval H key) as Hv by (intros key Hk; by apply Ha, Hres).
  split; [|intros key Hk; by apply Ha, Hres]. split.
  - by rewrite Hv.
  - intros name. by rewrite Hv.
  - intros name. by rewrite Hv.
Qed.

Lemma load_users_run s kvs : sound s →
  (∀ kv, kv ∈ kvs → ∃ name, kv_Key kv = usersPrefix ++ name ∧ Some (kv_Value kv) = (λ u, print (userJSON u)) <$> as_users s !! name) →
  ∀ a, ∃ m, load_users kvs a = (Ok tt, set_store (set_users m (au_store a)) a) ∧
    ∀ name, m !! name = if bool_decide (usersPrefix ++ name ∈ map kv_Key kvs) then as_users s !! name else as_users (au_store a) !! name.
Proof using.
  intros Hs Hk. induction kvs as [|kv kvs IH]; intros a.
  { exists (as_users (au_store a)). split; [by destruct a as [h [? ? ? ?] t]|]. intros name. by rewrite bool_decide_eq_false_2 by apply not_elem_of_nil. }
  destruct (Hk kv) as (name & Hkey & Hval); [by left|]. destruct (as_users s !! name) as [u|] eqn:Eu; [|done].
  assert (kv_Value kv = print (userJSON u)) as Hval' by (by apply (inj Some)). clear Hval.
  destruct (proj1 Hs name u Eu) as (Hname & Hwf & _). cbn [load_users]. rewrite Hval', user_roundtrip by done.
  unfold mbind, ST_bind, mod_store, modify.
  destruct (IH ltac:(intros kv' Hin; apply Hk; by right) (set_store (set_users (<[us_Name u := u]> (as_users (au_store a))) (au_store a)) a))
    as (m & -> & Hm). exists m. split; [done|]. intros x. rewrite Hm. cbn [map au_store set_store set_users as_users].
  destruct (decide (x = name)) as [->|Hx].
  - rewrite (bool_decide_eq_true_2 (_ ∈ kv_Key kv :: _)) by (rewrite Hkey; by left). case_bool_decide; [done|].
    by rewrite Hname, lookup_insert_eq.
  - rewrite lookup_insert_ne by congruence. assert (usersPrefix ++ x ∈ kv_Key kv :: map kv_Key kvs ↔ usersPrefix ++ x ∈ map kv_Key kvs) as Hin.
    { rewrite elem_of_cons, Hkey. split; [intros [Heq%app_inv_head|?]; done|by right]. }
    by rewrite (bool_decide_ext _ _ Hin).
Qed.
Lemma load_roles_run s kvs : sound s →
  (∀ kv, kv ∈ kvs → ∃ name, kv_Key kv = rolesPrefix ++ name ∧ Some (kv_Value kv) = (λ r, print (roleJSON r)) <$> as_roles s !! name) →
  ∀ a, ∃ m, load_roles kvs a = (Ok tt, set_store (set_roles m (au_store a)) a) ∧
    ∀ name, m !! name = if bool_decide (rolesPrefix ++ name ∈ map kv_Key kvs) then as_roles s !! name else as_roles (au_store a) !! name.
Proof using.
  intros Hs Hk. induction kvs as [|kv kvs IH]; intros a.
  { exists (as_roles (au_store a)). split; [by destruct a as [h [? ? ? ?] t]|]. intros name. by rewrite bool_decide_eq_false_2 by apply not_elem_of_nil. }
  destruct (Hk kv) as (name & Hkey & Hval); [by left|]. destruct (as_roles s !! name) as [u|] eqn:Eu; [|done].
  assert (kv_Value kv = print (roleJSON u)) as Hval' by (by apply (inj Some)). clear Hval.
  destruct (proj2 Hs name u Eu) as (Hname & Hwf & _). cbn [load_roles]. rewrite Hval', role_roundtrip by done.
  unfold mbind, ST_bind, mod_store, modify.
  destruct (IH ltac:(intros kv' Hin; apply Hk; by right) (set_store (set_roles (<[ro_Name u := u]> (as_roles (au_store a))) (au_store a)) a))
    as (m & -> & Hm). exists m. split; [done|]. intros x. rewrite Hm. cbn [map au_store set_store set_roles as_roles].
  destruct (decide (x = name)) as [->|Hx].
  - rewrite (bool_decide_eq_true_2 (_ ∈ kv_Key kv :: _)) by (rewrite Hkey; by left). case_bool_decide; [done|].
    by rewrite Hname, lookup_insert_eq.
  - rewrite lookup_insert_ne by congruence. assert (rolesPrefix ++ x ∈ kv_Key kv :: map kv_Key kvs ↔ rolesPrefix ++ x ∈ map kv_Key kvs) as Hin.
    { rewrite elem_of_cons, Hkey. split; [intros [Heq%app_inv_head|?]; done|by right]. }
    by rewrite (bool_decide_ext _ _ Hin).
Qed.

Lemma prefix_name prefix key : has_prefix prefix key = true → ∃ name, key = prefix ++ name.
Proof using. apply has_prefix_spec. Qed.

Lemma prefix_auth key : has_prefix usersPrefix key = true ∨ has_prefix rolesPrefix key = true → auth_key key.
Proof using. intros [[name ->]%has_prefix_spec|[name ->]%has_prefix_spec]; apply (auth_keys name). Qed.

(** What a listing of the users gives. *)
Lemma users_listed s H (kvs : list KeyValue) : coherent s H →
  (∀ kv, kv ∈ kvs → has_prefix usersPrefix (kv_Key kv) = true ∧ vval H (kv_Key kv) = Some (kv_Value kv)) →
  ∀ kv, kv ∈ kvs → ∃ name, kv_Key kv = usersPrefix ++ name ∧ Some (kv_Value kv) = (λ u, print (userJSON u)) <$> as_users s !! name.
Proof using.
  intros Hco Hl kv Hin. destruct (Hl kv Hin) as [[name Hn]%has_prefix_spec Hv]. exists name. split; [done|].
  rewrite <- (co_users _ _ Hco), <- Hn. done.
Qed.
Lemma roles_listed s H (kvs : list KeyValue) : coherent s H →
  (∀ kv, kv ∈ kvs → has_prefix rolesPrefix (kv_Key kv) = true ∧ vval H (kv_Key kv) = Some (kv_Value kv)) →
  ∀ kv, kv ∈ kvs → ∃ name, kv_Key kv = rolesPrefix ++ name ∧ Some (kv_Value kv) = (λ r, print (roleJSON r)) <$> as_roles s !! name.
Proof using.
  intros Hco Hl kv Hin. destruct (Hl kv Hin) as [[name Hn]%has_prefix_spec Hv]. exists name. split; [done|].
  rewrite <- (co_roles _ _ Hco), <- Hn. done.
Qed.

(** All of them are listed, so the loaded map is the old one. *)
Lemma users_loaded s H (kvs : list KeyValue) m : coherent s H →
  (∀ key v, has_prefix usersPrefix key = true → vval H key = Some v → ∃ kv, kv ∈ kvs ∧ kv_Key kv = key) →
  (∀ name, m !! name = if bool_decide (usersPrefix ++ name ∈ map kv_Key kvs) then as_users s !! name else (∅ : gmap bytes User) !! name) →
  m = as_users s.
Proof using.
  intros Hco Hall Hm. apply map_eq. intros name. rewrite Hm. case_bool_decide as Hin; [done|]. rewrite lookup_empty.
  destruct (as_users s !! name) as [u|] eqn:Eu; [|done]. destruct Hin.
  destruct (Hall (usersPrefix ++ name) (print (userJSON u))) as (kv & Hkv & <-); [by apply has_prefix_spec; exists name| |].
  - by rewrite (co_users _ _ Hco), Eu.
  - change (map kv_Key kvs) with (kv_Key <$> kvs). by apply list_elem_of_fmap_2.
Qed.
Lemma roles_loaded s H (kvs : list KeyValue) m : coherent s H →
  (∀ key v, has_prefix rolesPrefix key = true → vval H key = Some v → ∃ kv, kv ∈ kvs ∧ kv_Key kv = key) →
  (∀ name, m !! name = if bool_decide (rolesPrefix ++ name ∈ map kv_Key kvs) then as_roles s !! name else (∅ : gmap bytes Role) !! name) →
  m = as_roles s.
Proof using.
  intros Hco Hall Hm. apply map_eq. intros name. rewrite Hm. case_bool_decide as Hin; [done|]. rewrite lookup_empty.
  destruct (as_roles s !! name) as [u|] eqn:Eu; [|done]. destruct Hin.
  destruct (Hall (rolesPrefix ++ name) (print (roleJSON u))) as (kv & Hkv & <-); [by apply has_prefix_spec; exists name| |].
  - by rewrite (co_roles _ _ Hco), Eu.
  - change (map kv_Key kvs) with (kv_Key <$> kvs). by apply list_elem_of_fmap_2.
Qed.

(** ** A failed commit is not forgotten *)

#[local] Instance auth_view : T4View Auth := {|
  t4_hist a H := t4_hist (node_of a) H;
  t4_cur a := t4_cur (node_of a);
  t4_compact a := t4_compact (node_of a);
  t4_spare a k := t4_spare (node_of a) k;
  t4_healthy a := t4_healthy (node_of a);
  t4_up a := t4_up (node_of a);
  t4_ours a key := t4_ours (node_of a) key |}.

#[local] Instance on_host_sticky {A} (m : ST (Host N) A) : Sticky m → Sticky (on_host m).
Proof using. intros Hm a r a'. unfold on_host, zoom. destruct (m (au_host a)) as [r0 h1] eqn:E. intros [= <- <-] Hup. by eapply Hm. Qed.
#[local] Instance mod_store_sticky f : Sticky (N := Auth) (mod_store f).
Proof using. by intros a r a' [= <- <-]. Qed.
#[local] Instance load_users_sticky kvs : Sticky (N := Auth) (load_users kvs).
Proof using. induction kvs as [|kv kvs IH]; cbn [load_users]; [apply _|]. destruct (decodeUser _); apply _. Qed.
#[local] Instance load_roles_sticky kvs : Sticky (N := Auth) (load_roles kvs).
Proof using. induction kvs as [|kv kvs IH]; cbn [load_roles]; [apply _|]. destruct (decodeRole _); apply _. Qed.
#[local] Instance authList_sticky prefix : Sticky (N := Auth) (authList prefix).
Proof using NOk. unfold authList. apply _. Qed.

(** A read of the node and what follows it. *)
Lemma node_read_run {A B} g (m : ST N A) (f : A → ST Auth B) a r a' :
  (st_map_err g (on_host (on_node m)) ≫= f) a = (r, a') → (∀ x, Sticky (f x)) → t4_up (node_of a') →
  ∃ rm n', m (node_of a) = (rm, n') ∧ t4_up n' ∧
    match rm with Ok x => f x (put_node n' a) = (r, a') | Err e => r = Err (g e) ∧ a' = put_node n' a end.
Proof using.
  unfold mbind, ST_bind, st_map_err. destruct (m (node_of a)) as [rm n'] eqn:E. rewrite (on_node_run m a rm n' E).
  intros Hr Hf Hup. exists rm, n'. split; [done|]. destruct rm as [x|e].
  - split; [|done]. by apply (Hf x (put_node n' a) r a').
  - injection Hr as <- <-. by split.
Qed.

End Ops.
End Spec.

(** ** Runs *)

Section Runs.
#[local] Notation Shared := (Shared (DB := gmap bytes bytes) (L := list Entry) (R := peerEnv)).

Definition as_is (salt : Z) (password : bytes) : result bytes := Ok password.
Definition empty_store : AuthStore := mkAuthStore false ∅ ∅ ∅.
Definition root_user : User := mkUser RootUser [] [].

(** A new store over a node on which others write "a", "b" and "c". *)
Definition admin0 : Auth Shared := mkAuth (mkHost (shared0 others1) [] [Ok 7]) empty_store (mkTokenStore ∅ 60 true).

Lemma admin0_consistent : consistent admin0 empty_store [] 1000.
Proof.
  destruct (shared0_hist others1 others1_ok ltac:(cbn; lia)) as [Hh Hs]. split; [done|exact Hh|exact Hs| |].
  - intros key Hk. unfold t4_ours. cbn. repeat constructor; intros Hin%list_elem_of_singleton; subst key; done.
  - split; [by vm_compute|intros name; cbn; by rewrite lookup_empty|intros name; cbn; by rewrite lookup_empty].
Qed.

Definition with_root : AuthStore := put_user (mkUser RootUser (str "pw") []) empty_store.

Lemma with_root_sound : sound with_root.
Proof.
  split; [|intros name ro Hr; cbn in Hr; by rewrite lookup_empty in Hr].
  intros name u Hu. cbn in Hu. apply lookup_insert_Some in Hu as [[<- <-]|[_ Hu]]; [|by rewrite lookup_empty in Hu].
  split; [done|]. split; [split; [by vm_compute|split; [by vm_compute|constructor]]|split_and!; by vm_compute].
Qed.

Lemma empty_sound : sound empty_store.
Proof. split; intros name x Hx; cbn in Hx; by rewrite lookup_empty in Hx. Qed.


Definition admin1 : Auth Shared := (PutUser as_is root_user (str "pw") admin0).2.

Lemma admin1_run : run_auth as_is (OPutUser root_user (str "pw")) admin0 = (Ok tt, admin1).
Proof.
  assert ((PutUser as_is root_user (str "pw") admin0).1 = Ok tt) as Hr by (by vm_compute).
  unfold admin1, run_auth. by rewrite <- Hr, <- surjective_pairing.
Qed.

Lemma admin1_up : t4_up (node_of admin1) ∧ t4_up (node_of (NewStore admin1).2).
Proof. by vm_compute. Qed.

Lemma admin1_consistent : ∃ H, consistent admin1 with_root H 998.
Proof.
  destruct (PutUser_outcome as_is root_user (str "pw") admin0 empty_store [] 998 (Ok tt) admin1) as [(H1 & _ & Hc)|((e & He) & _)].
  - apply admin0_consistent.
  - intros s' Hs'. injection Hs' as <-. apply with_root_sound.
  - exact admin1_run.
  - exact (proj1 admin1_up).
  - by exists H1.
  - discriminate He.
Qed.


(** ** Departures *)

Definition closed0 : Auth Shared :=
  mkAuth (mkHost (mkShared (set_n_closed true node0) [] false) [] [])
    (mkAuthStore true {[ str "u" := mkUser (str "u") [] [str "r"; str "s"; str "t"] ]} ∅ ∅) (mkTokenStore ∅ 60 true).

(** A revocation that fails changes the roles in memory all the same: the
    slice of the map was compacted in place. *)
Lemma failed_revoke_applies :
  (RevokeRole (str "u") (str "r") closed0).1 = Err ErrClosed ∧
  us_Roles <$> as_users (au_store (RevokeRole (str "u") (str "r") closed0).2) !! str "u" = Some [str "s"; str "t"; str "t"].
Proof. by vm_compute. Qed.

(** A permission for a key that is not valid UTF-8 covers another key after a
    restart. *)
Lemma permission_not_preserved :
  let p := mkPerm [xff] [] READ in
  decodeRole (print (roleJSON (mkRole (str "r") [p]))) = Ok (mkRole (str "r") [mkPerm [xef; xbf; xbd] [] READ]) ∧
  covers p [xff] READ = true ∧ covers (mkPerm [xef; xbf; xbd] [] READ) [xff] READ = false.
Proof. by vm_compute. Qed.
End Runs.
