(* ===== verification/PeerCodec.v ===== *)
(** * Peer messages on the wire

    The codec of internal/peer/peer.go: stream entries and acknowledgements in
    the binary form of [Peer], every other message as JSON, with byte slices in
    base64 as encoding/json writes them.  A message whose strings are valid
    UTF-8 arrives as it was sent; the client (client.go) and the service on top
    of the codec therefore hand a forwarded write to the leader unchanged.  Keys
    that are not UTF-8 do not survive the trip. *)

From S2P Require Import Prelude Bytes Decimal WalEntry Os Json JsonProps Store Peer.

(** ** Base64 *)

Definition b64_alphabet : bytes := str "ABCDEFGHIJKLMNOPQRSTUVWXYZabcdefghijklmnopqrstuvwxyz0123456789+/".
Definition b64_char (n : Z) : byte := nth (Z.to_nat n) b64_alphabet x00.
Definition b64_pad : byte := x3d.

Fixpoint index_of (b : byte) (l : bytes) : option Z :=
  match l with
  | [] => None
  | c :: l' => if bool_decide (b = c) then Some 0 else Z.succ <$> index_of b l'
  end.
Definition b64_val (b : byte) : option Z := index_of b b64_alphabet.

Fixpoint b64_encode (l : bytes) : bytes :=
  match l with
  | [] => []
  | [a] => [b64_char (byte_val a / 4); b64_char (byte_val a mod 4 * 16); b64_pad; b64_pad]
  | [a; b] =>
      [b64_char (byte_val a / 4); b64_char (byte_val a mod 4 * 16 + byte_val b / 16); b64_char (byte_val b mod 16 * 4); b64_pad]
  | a :: b :: c :: l' =>
      [b64_char (byte_val a / 4); b64_char (byte_val a mod 4 * 16 + byte_val b / 16);
       b64_char (byte_val b mod 16 * 4 + byte_val c / 64); b64_char (byte_val c mod 64)] ++ b64_encode l'
  end.

(** The decoder of [base64.StdEncoding], after the line breaks it skips: bits
    that are left over in front of the padding are ignored. *)
Fixpoint b64_quads (l : bytes) : option bytes :=
  match l with
  | [] => Some []
  | a :: b :: c :: d :: l' =>
      x ← b64_val a;
      y ← b64_val b;
      let p := byte_of (x * 4 + y / 16) in
      if bool_decide (d = b64_pad) then
        match l' with
        | [] => if bool_decide (c = b64_pad) then Some [p]
                else z ← b64_val c; Some [p; byte_of (y mod 16 * 16 + z / 4)]
        | _ :: _ => None
        end
      else
        z ← b64_val c;
        w ← b64_val d;
        rest ← b64_quads l';
        Some (p :: byte_of (y mod 16 * 16 + z / 4) :: byte_of (z mod 4 * 64 + w) :: rest)
  | _ => None
  end.
Definition b64_decode (l : bytes) : option bytes := b64_quads (List.filter (λ b, negb (is_byte 10 b || is_byte 13 b)) l).

Lemma b64_char_val n : 0 ≤ n < 64 → b64_val (b64_char n) = Some n ∧ b64_char n ≠ b64_pad ∧ is_byte 10 (b64_char n) || is_byte 13 (b64_char n) = false ∧
  byte_val (b64_char n) < 128.
Proof.
  intros Hn. assert (Forall (λ n, b64_val (b64_char (Z.of_nat n)) = Some (Z.of_nat n) ∧ b64_char (Z.of_nat n) ≠ b64_pad ∧
    is_byte 10 (b64_char (Z.of_nat n)) || is_byte 13 (b64_char (Z.of_nat n)) = false ∧ byte_val (b64_char (Z.of_nat n)) < 128) (seq 0 64)) as H
    by (repeat constructor; by vm_compute).
  rewrite Forall_forall in H. specialize (H (Z.to_nat n)). rewrite Z2Nat.id in H by lia. apply H, elem_of_seq. lia.
Qed.

Lemma b64_val_char n : 0 ≤ n < 64 → b64_val (b64_char n) = Some n.
Proof. intros Hn. apply (b64_char_val n Hn). Qed.

(** The encoding in quads of characters. *)
Inductive b64_text : bytes → Prop :=
  | b64_nil : b64_text []
  | b64_cons n l : 0 ≤ n < 64 → b64_text l → b64_text (b64_char n :: l)
  | b64_fill l : b64_text l → b64_text (b64_pad :: l).

(** Induction three bytes at a time. *)
Lemma triple_ind (P : bytes → Prop) :
  P [] → (∀ a, P [a]) → (∀ a b, P [a; b]) → (∀ a b c l, P l → P (a :: b :: c :: l)) → ∀ l, P l.
Proof.
  intros H0 H1 H2 H3 l. assert (P l ∧ (∀ a, P (a :: l)) ∧ (∀ a b, P (a :: b :: l))) as [? _]; [|done].
  induction l as [|x l (IH0 & IH1 & IH2)]; [auto|]. split; [apply IH1|]. split; [intros a; apply IH2|]. intros a b. by apply H3.
Qed.

Ltac sextets :=
  repeat match goal with b : byte |- _ =>
    lazymatch goal with _ : 0 ≤ byte_val b < 256 |- _ => fail | _ => pose proof (byte_val_range b) end
  end; Z.to_euclidean_division_equations; lia.

Lemma b64_encode_text l : b64_text (b64_encode l).
Proof.
  induction l as [|a|a b|a b c l IH] using triple_ind; cbn [b64_encode app]; repeat (apply b64_fill || apply b64_cons || apply b64_nil || exact IH); sextets.
Qed.

Lemma byte_of_eq_val z b : z = byte_val b → byte_of z = b.
Proof. intros ->. apply byte_of_val. Qed.

Lemma b64_quads_encode l : b64_quads (b64_encode l) = Some l.
Proof.
  induction l as [|a|a b|a b c l IH] using triple_ind; [done| | |]; cbn [b64_encode app b64_quads].
  - rewrite !b64_val_char by sextets. cbn [mbind option_bind]. rewrite !bool_decide_eq_true_2 by done.
    do 2 f_equal. apply byte_of_eq_val. sextets.
  - rewrite !b64_val_char by sextets. cbn [mbind option_bind]. rewrite bool_decide_eq_true_2 by done.
    rewrite bool_decide_eq_false_2 by (apply b64_char_val; sextets). do 3 f_equal; [|f_equal]; apply byte_of_eq_val; sextets.
  - rewrite !b64_val_char by sextets. cbn [mbind option_bind].
    rewrite bool_decide_eq_false_2 by (apply b64_char_val; sextets). rewrite IH. cbn [mbind option_bind].
    do 4 f_equal; try apply byte_of_eq_val; sextets.
Qed.

Lemma b64_text_kept l : b64_text l → List.filter (λ b, negb (is_byte 10 b || is_byte 13 b)) l = l.
Proof.
  induction 1 as [|n l Hn Ht IH|l Ht IH]; cbn [List.filter]; [done| |by rewrite IH].
  destruct (b64_char_val n Hn) as (_ & _ & -> & _). cbn [negb]. by rewrite IH.
Qed.

Lemma b64_roundtrip l : b64_decode (b64_encode l) = Some l.
Proof. unfold b64_decode. rewrite b64_text_kept by apply b64_encode_text. apply b64_quads_encode. Qed.

Lemma b64_valid l : valid_utf8 (b64_encode l) = true.
Proof.
  apply ascii_valid. induction (b64_encode_text l) as [|n s Hn Hs IH|s Hs IH]; constructor; try done. by apply b64_char_val.
Qed.

(** ** The JSON of the messages *)

(** A byte slice; an empty one stands for [nil] as well, and both forms are
    read back as empty. *)
Definition jbytes (b : bytes) : jval := match b with [] => JNull | _ :: _ => JStr (b64_encode b) end.
Definition as_bytes (v : jval) : option (option bytes) :=
  match v with JNull => Some (Some []) | JStr s => Some <$> b64_decode s | _ => None end.

Definition as_bool (v : jval) : option (option bool) :=
  match v with JNull => Some None | JBool b => Some (Some b) | _ => None end.

(** A pointer to a record. *)
Definition as_ptr {A} (fs : list (field A)) (zero : A) (v : jval) : option (option (option A)) :=
  match v with JNull => Some (Some None) | _ => Some <$> (Some <$> decode_val fs zero v) end.

Definition op_num (op : ForwardOp) : Z :=
  match op with
  | ForwardPut => 0 | ForwardCreate => 1 | ForwardUpdate => 2 | ForwardDeleteIfRevision => 3
  | ForwardCompact => 4 | ForwardGetRevision => 5 | ForwardTxn => 6
  end.

(** Numbers without an operation are refused by the handler. *)
Definition as_op (v : jval) : option (option ForwardOp) :=
  o ← as_uint 255 v;
  match o with
  | None => Some None
  | Some z =>
      match List.find (λ op, op_num op =? z)
              [ForwardPut; ForwardCreate; ForwardUpdate; ForwardDeleteIfRevision; ForwardCompact; ForwardGetRevision; ForwardTxn] with
      | Some op => Some (Some op)
      | None => None
      end
  end.

Definition followJSON (r : FollowRequest) : jval :=
  JObj [(str "from_revision", jint (fr_FromRevision r)); (str "node_id", JStr (fr_NodeID r))].
Definition followFields : list (field FollowRequest) :=
  [ mk_field "from_revision" as_int (λ x r, mkFollow x (fr_NodeID r));
    mk_field "node_id" as_string (λ x r, mkFollow (fr_FromRevision r) x) ].

Definition zero_kv : KeyValue := mkKV [] [] 0 0 0 0 0.
Definition KVMsgJSON (kv : KeyValue) : jval :=
  JObj ([(str "key", JStr (kv_Key kv)); (str "value", jbytes (kv_Value kv)); (str "revision", jint (kv_Revision kv));
         (str "create_revision", jint (kv_CreateRevision kv)); (str "prev_revision", jint (kv_PrevRevision kv))] ++
        omitempty "version" (kv_Version kv =? 0) (jint (kv_Version kv)) ++ [(str "lease", jint (kv_Lease kv))]).
Definition KVMsgFields : list (field KeyValue) :=
  [ mk_field "key" as_string (λ x k, mkKV x (kv_Value k) (kv_Revision k) (kv_CreateRevision k) (kv_PrevRevision k) (kv_Version k) (kv_Lease k));
    mk_field "value" as_bytes (λ x k, mkKV (kv_Key k) x (kv_Revision k) (kv_CreateRevision k) (kv_PrevRevision k) (kv_Version k) (kv_Lease k));
    mk_field "revision" as_int (λ x k, mkKV (kv_Key k) (kv_Value k) x (kv_CreateRevision k) (kv_PrevRevision k) (kv_Version k) (kv_Lease k));
    mk_field "create_revision" as_int (λ x k, mkKV (kv_Key k) (kv_Value k) (kv_Revision k) x (kv_PrevRevision k) (kv_Version k) (kv_Lease k));
    mk_field "prev_revision" as_int (λ x k, mkKV (kv_Key k) (kv_Value k) (kv_Revision k) (kv_CreateRevision k) x (kv_Version k) (kv_Lease k));
    mk_field "version" as_int (λ x k, mkKV (kv_Key k) (kv_Value k) (kv_Revision k) (kv_CreateRevision k) (kv_PrevRevision k) x (kv_Lease k));
    mk_field "lease" as_int (λ x k, mkKV (kv_Key k) (kv_Value k) (kv_Revision k) (kv_CreateRevision k) (kv_PrevRevision k) (kv_Version k) x) ].

Definition zero_cond : TxnCondMsg := mkCondMsg [] 0 0 0 0 0 [] 0.
Definition condJSON (c : TxnCondMsg) : jval :=
  JObj ([(str "key", JStr (cm_Key c)); (str "target", jint (cm_Target c)); (str "result", jint (cm_Result c))] ++
        omitempty "mod_revision" (cm_ModRevision c =? 0) (jint (cm_ModRevision c)) ++
        omitempty "create_revision" (cm_CreateRevision c =? 0) (jint (cm_CreateRevision c)) ++
        omitempty "version" (cm_Version c =? 0) (jint (cm_Version c)) ++
        omitempty "value" (bool_decide (cm_Value c = [])) (jbytes (cm_Value c)) ++
        omitempty "lease" (cm_Lease c =? 0) (jint (cm_Lease c))).
Definition condFields : list (field TxnCondMsg) :=
  [ mk_field "key" as_string (λ x c, mkCondMsg x (cm_Target c) (cm_Result c) (cm_ModRevision c) (cm_CreateRevision c) (cm_Version c) (cm_Value c) (cm_Lease c));
    mk_field "target" (as_uint 255) (λ x c, mkCondMsg (cm_Key c) x (cm_Result c) (cm_ModRevision c) (cm_CreateRevision c) (cm_Version c) (cm_Value c) (cm_Lease c));
    mk_field "result" (as_uint 255) (λ x c, mkCondMsg (cm_Key c) (cm_Target c) x (cm_ModRevision c) (cm_CreateRevision c) (cm_Version c) (cm_Value c) (cm_Lease c));
    mk_field "mod_revision" as_int (λ x c, mkCondMsg (cm_Key c) (cm_Target c) (cm_Result c) x (cm_CreateRevision c) (cm_Version c) (cm_Value c) (cm_Lease c));
    mk_field "create_revision" as_int (λ x c, mkCondMsg (cm_Key c) (cm_Target c) (cm_Result c) (cm_ModRevision c) x (cm_Version c) (cm_Value c) (cm_Lease c));
    mk_field "version" as_int (λ x c, mkCondMsg (cm_Key c) (cm_Target c) (cm_Result c) (cm_ModRevision c) (cm_CreateRevision c) x (cm_Value c) (cm_Lease c));
    mk_field "value" as_bytes (λ x c, mkCondMsg (cm_Key c) (cm_Target c) (cm_Result c) (cm_ModRevision c) (cm_CreateRevision c) (cm_Version c) x (cm_Lease c));
    mk_field "lease" as_int (λ x c, mkCondMsg (cm_Key c) (cm_Target c) (cm_Result c) (cm_ModRevision c) (cm_CreateRevision c) (cm_Version c) (cm_Value c) x) ].

Definition zero_op : TxnOpMsg := mkOpMsg 0 [] [] 0.
Definition opJSON (o : TxnOpMsg) : jval :=
  JObj ([(str "type", jint (om_Type o)); (str "key", JStr (om_Key o))] ++
        omitempty "value" (bool_decide (om_Value o = [])) (jbytes (om_Value o)) ++
        omitempty "lease" (om_Lease o =? 0) (jint (om_Lease o))).
Definition opFields : list (field TxnOpMsg) :=
  [ mk_field "type" (as_uint 255) (λ x o, mkOpMsg x (om_Key o) (om_Value o) (om_Lease o));
    mk_field "key" as_string (λ x o, mkOpMsg (om_Type o) x (om_Value o) (om_Lease o));
    mk_field "value" as_bytes (λ x o, mkOpMsg (om_Type o) (om_Key o) x (om_Lease o));
    mk_field "lease" as_int (λ x o, mkOpMsg (om_Type o) (om_Key o) (om_Value o) x) ].

Definition zero_txn : TxnReqMsg := mkTxnMsg [] [] [].
Definition jrecords {A} (f : A → jval) (l : list A) : jval := JArr (map f l).
Definition is_nil {A} (l : list A) : bool := match l with [] => true | _ => false end.
Definition txnJSON (t : TxnReqMsg) : jval :=
  JObj (omitempty "conditions" (is_nil (tm_Conditions t)) (jrecords condJSON (tm_Conditions t)) ++
        omitempty "success" (is_nil (tm_Success t)) (jrecords opJSON (tm_Success t)) ++
        omitempty "failure" (is_nil (tm_Failure t)) (jrecords opJSON (tm_Failure t))).
Definition txnFields : list (field TxnReqMsg) :=
  [ mk_field "conditions" (as_records condFields zero_cond) (λ x t, mkTxnMsg x (tm_Success t) (tm_Failure t));
    mk_field "success" (as_records opFields zero_op) (λ x t, mkTxnMsg (tm_Conditions t) x (tm_Failure t));
    mk_field "failure" (as_records opFields zero_op) (λ x t, mkTxnMsg (tm_Conditions t) (tm_Success t) x) ].

Definition zero_fwd : ForwardRequest := mkFwd ForwardPut [] [] 0 0 None.
Definition forwardJSON (r : ForwardRequest) : jval :=
  JObj ([(str "op", jint (op_num (fw_Op r))); (str "key", JStr (fw_Key r))] ++
        omitempty "value" (bool_decide (fw_Value r = [])) (jbytes (fw_Value r)) ++
        omitempty "revision" (fw_Revision r =? 0) (jint (fw_Revision r)) ++
        omitempty "lease" (fw_Lease r =? 0) (jint (fw_Lease r)) ++
        omitempty "txn" (match fw_TxnReq r with None => true | Some _ => false end) (match fw_TxnReq r with None => JNull | Some t => txnJSON t end)).
Definition forwardFields : list (field ForwardRequest) :=
  [ mk_field "op" as_op (λ x r, mkFwd x (fw_Key r) (fw_Value r) (fw_Revision r) (fw_Lease r) (fw_TxnReq r));
    mk_field "key" as_string (λ x r, mkFwd (fw_Op r) x (fw_Value r) (fw_Revision r) (fw_Lease r) (fw_TxnReq r));
    mk_field "value" as_bytes (λ x r, mkFwd (fw_Op r) (fw_Key r) x (fw_Revision r) (fw_Lease r) (fw_TxnReq r));
    mk_field "revision" as_int (λ x r, mkFwd (fw_Op r) (fw_Key r) (fw_Value r) x (fw_Lease r) (fw_TxnReq r));
    mk_field "lease" as_int (λ x r, mkFwd (fw_Op r) (fw_Key r) (fw_Value r) (fw_Revision r) x (fw_TxnReq r));
    mk_field "txn" (as_ptr txnFields zero_txn) (λ x r, mkFwd (fw_Op r) (fw_Key r) (fw_Value r) (fw_Revision r) (fw_Lease r) x) ].

Definition zero_resp : ForwardResponse := mkResp 0 None false [] "" [].
Definition responseJSON (r : ForwardResponse) : jval :=
  JObj ([(str "revision", jint (fp_Revision r))] ++
        omitempty "old_kv" (match fp_OldKV r with None => true | Some _ => false end) (match fp_OldKV r with None => JNull | Some kv => KVMsgJSON kv end) ++
        [(str "succeeded", JBool (fp_Succeeded r))] ++
        omitempty "err_code" (bool_decide (fp_ErrCode r = [])) (JStr (fp_ErrCode r)) ++
        omitempty "err_msg" (bool_decide (str (fp_ErrMsg r) = [])) (JStr (str (fp_ErrMsg r))) ++
        omitempty "deleted_keys" (is_nil (fp_DeletedKeys r)) (jstrings (fp_DeletedKeys r))).
Definition responseFields : list (field ForwardResponse) :=
  [ mk_field "revision" as_int (λ x r, mkResp x (fp_OldKV r) (fp_Succeeded r) (fp_ErrCode r) (fp_ErrMsg r) (fp_DeletedKeys r));
    mk_field "old_kv" (as_ptr KVMsgFields zero_kv) (λ x r, mkResp (fp_Revision r) x (fp_Succeeded r) (fp_ErrCode r) (fp_ErrMsg r) (fp_DeletedKeys r));
    mk_field "succeeded" as_bool (λ x r, mkResp (fp_Revision r) (fp_OldKV r) x (fp_ErrCode r) (fp_ErrMsg r) (fp_DeletedKeys r));
    mk_field "err_code" as_string (λ x r, mkResp (fp_Revision r) (fp_OldKV r) (fp_Succeeded r) x (fp_ErrMsg r) (fp_DeletedKeys r));
    mk_field "err_msg" as_string (λ x r, mkResp (fp_Revision r) (fp_OldKV r) (fp_Succeeded r) (fp_ErrCode r) (String.string_of_list_byte x) (fp_DeletedKeys r));
    mk_field "deleted_keys" as_strings (λ x r, mkResp (fp_Revision r) (fp_OldKV r) (fp_Succeeded r) (fp_ErrCode r) (fp_ErrMsg r) x) ].

(** ** The codec *)

Inductive peerMsg :=
  | MWalEntry (m : WalEntryMsg)
  | MAck (revision : Z)
  | MFollow (r : FollowRequest)
  | MForward (r : ForwardRequest)
  | MResponse (r : ForwardResponse)
  | MGoodBye (nodeID : bytes)
  | MGoodByeResponse.

(** The type a message is read into. *)
Inductive msgType := TWalEntry | TAck | TFollow | TForward | TResponse | TGoodBye | TGoodByeResponse.
Definition type_of (m : peerMsg) : msgType :=
  match m with
  | MWalEntry _ => TWalEntry | MAck _ => TAck | MFollow _ => TFollow | MForward _ => TForward
  | MResponse _ => TResponse | MGoodBye _ => TGoodBye | MGoodByeResponse => TGoodByeResponse
  end.

Definition goodByeFields : list (field bytes) := [ mk_field "node_id" as_string (λ x _, x) ].

Definition Codec_Marshal (m : peerMsg) : bytes :=
  match m with
  | MWalEntry m => marshalWalEntryMsg m
  | MAck revision => marshalAckMsg revision
  | MFollow r => print (followJSON r)
  | MForward r => print (forwardJSON r)
  | MResponse r => print (responseJSON r)
  | MGoodBye nodeID => print (JObj [(str "node_id", JStr nodeID)])
  | MGoodByeResponse => print (JObj [])
  end.

Definition Codec_Unmarshal (t : msgType) (data : bytes) : result peerMsg :=
  match t with
  | TWalEntry => MWalEntry <$> unmarshalWalEntryMsg data
  | TAck => MAck <$> unmarshalAckMsg data
  | TFollow => MFollow <$> Unmarshal followFields (mkFollow 0 []) data
  | TForward => MForward <$> Unmarshal forwardFields zero_fwd data
  | TResponse => MResponse <$> Unmarshal responseFields zero_resp data
  | TGoodBye => MGoodBye <$> Unmarshal goodByeFields [] data
  | TGoodByeResponse => (λ _, MGoodByeResponse) <$> Unmarshal ([] : list (field ())) tt data
  end.

(** ** Messages arrive as they were sent *)

Definition wf_kv (k : KeyValue) : Prop :=
  valid_utf8 (kv_Key k) = true ∧ is_i64 (kv_Revision k) ∧ is_i64 (kv_CreateRevision k) ∧ is_i64 (kv_PrevRevision k) ∧
  is_i64 (kv_Version k) ∧ is_i64 (kv_Lease k).
Definition wf_cond (c : TxnCondMsg) : Prop :=
  valid_utf8 (cm_Key c) = true ∧ is_u8 (cm_Target c) ∧ is_u8 (cm_Result c) ∧ is_i64 (cm_ModRevision c) ∧
  is_i64 (cm_CreateRevision c) ∧ is_i64 (cm_Version c) ∧ is_i64 (cm_Lease c).
Definition wf_opmsg (o : TxnOpMsg) : Prop := is_u8 (om_Type o) ∧ valid_utf8 (om_Key o) = true ∧ is_i64 (om_Lease o).
Definition wf_txnmsg (t : TxnReqMsg) : Prop :=
  Forall wf_cond (tm_Conditions t) ∧ Forall wf_opmsg (tm_Success t) ∧ Forall wf_opmsg (tm_Failure t).
Definition wf_fwd (r : ForwardRequest) : Prop :=
  valid_utf8 (fw_Key r) = true ∧ is_i64 (fw_Revision r) ∧ is_i64 (fw_Lease r) ∧
  match fw_TxnReq r with None => True | Some t => wf_txnmsg t end.
Definition wf_resp (r : ForwardResponse) : Prop :=
  is_i64 (fp_Revision r) ∧ match fp_OldKV r with None => True | Some k => wf_kv k end ∧ valid_utf8 (fp_ErrCode r) = true ∧
  valid_utf8 (str (fp_ErrMsg r)) = true ∧ Forall (λ k, valid_utf8 k = true) (fp_DeletedKeys r).

(** What the codec can carry. *)
Definition wf_peer (m : peerMsg) : Prop :=
  match m with
  | MWalEntry m => wf_msg m
  | MAck revision => is_i64 revision
  | MFollow r => is_i64 (fr_FromRevision r) ∧ valid_utf8 (fr_NodeID r) = true
  | MForward r => wf_fwd r
  | MResponse r => wf_resp r
  | MGoodBye nodeID => valid_utf8 nodeID = true
  | MGoodByeResponse => True
  end.

(** A member that is left out when empty. *)
Lemma store_omit {A B} (fs : list (field A)) name empty v l a name' (conv : jval → option (option B)) set b zero :
  find_field fs (str name) = Some (mk_field name' conv set).2 → (empty = false → conv v = Some (Some b)) →
  (empty = true → b = zero) → set zero a = a →
  fold_left (store_member fs) (omitempty name empty v ++ l) (Some a) = fold_left (store_member fs) l (Some (set b a)).
Proof.
  intros Hf Hc Hz Hs. unfold omitempty. destruct empty; cbn [app]; [|by erewrite store_field by eauto].
  by rewrite Hz, Hs.
Qed.

Lemma as_bytes_jbytes b : as_bytes (jbytes b) = Some (Some b).
Proof. destruct b as [|x b]; [done|]. unfold jbytes, as_bytes. by rewrite b64_roundtrip. Qed.

Lemma as_op_num op : as_op (jint (op_num op)) = Some (Some op).
Proof. by destruct op. Qed.

Lemma as_records_map {A} (fs : list (field A)) zero (f : A → jval) (P : A → Prop) l :
  (∀ a, P a → decode_val fs zero (f a) = Some a) → Forall P l → as_records fs zero (jrecords f l) = Some (Some l).
Proof.
  intros Hf Hl. unfold as_records, jrecords. assert (mapM (decode_val fs zero) (map f l) = Some l) as ->; [|done].
  apply mapM_Some. induction Hl as [|a l Ha Hl IH]; [constructor|]. constructor; [by apply Hf|done].
Qed.

Lemma nil_empty {A} (l : list A) : is_nil l = true → l = [].
Proof. by destruct l. Qed.

(** What an empty member stands for. *)
Ltac empty_value :=
  intros;
  match goal with
  | H : (_ =? 0) = true |- _ => exact (proj1 (Z.eqb_eq _ _) H)
  | H : bool_decide _ = true |- _ => exact (proj1 (bool_decide_eq_true _) H)
  | H : is_nil _ = true |- _ => exact (nil_empty _ H)
  end.

Ltac conv_value :=
  intros;
  lazymatch goal with
  | |- as_strings _ = _ => apply as_strings_jstrings
  | |- as_int _ = _ => apply as_int_jint; assumption
  | |- as_bytes _ = _ => apply as_bytes_jbytes
  | |- as_op _ = _ => apply as_op_num
  | |- as_uint _ _ = _ => apply as_uint_jint; unfold is_u8, is_u64 in *; lia
  | |- as_string _ = _ => exact eq_refl
  | |- as_bool _ = _ => exact eq_refl
  end.

(** Stores the members of a record, those that may be left out included, with
    [simp] after each; the last one is put into the form of the others. *)
Ltac store_all_with conv simp :=
  cbn [app];
  repeat (lazymatch goal with
  | |- context [omitempty ?n true ?v] => change (omitempty n true v) with (@nil (bytes * jval)); cbn [app]
  | |- context [omitempty ?n false ?v] => change (omitempty n false v) with [(str n, v)]; cbn [app]
  | |- fold_left _ (_ :: _) _ = _ => erewrite store_field; [|reflexivity|conv]
  | |- fold_left _ (omitempty _ _ _ ++ _) _ = _ => erewrite store_omit; [|reflexivity|conv|empty_value|reflexivity]
  | |- fold_left _ (omitempty ?n ?e ?v) _ = _ => rewrite <- (app_nil_r (omitempty n e v))
  end; simp); cbn [fold_left].
Ltac store_all simp := store_all_with ltac:(conv_value) simp.

Lemma kv_roundtrip k : wf_kv k → decode_val KVMsgFields zero_kv (KVMsgJSON k) = Some k.
Proof.
  destruct k as [k v r c p n l]. intros (? & ? & ? & ? & ? & ?). unfold decode_val, KVMsgJSON, zero_kv.
  by store_all ltac:(cbn [kv_Key kv_Value kv_Revision kv_CreateRevision kv_PrevRevision kv_Version kv_Lease] in *).
Qed.

Lemma cond_roundtrip c : wf_cond c → decode_val condFields zero_cond (condJSON c) = Some c.
Proof.
  destruct c as [k t r m cr v b l]. intros (? & ? & ? & ? & ? & ? & ?). unfold decode_val, condJSON, zero_cond.
  by store_all ltac:(cbn [cm_Key cm_Target cm_Result cm_ModRevision cm_CreateRevision cm_Version cm_Value cm_Lease] in *).
Qed.

Lemma opmsg_roundtrip o : wf_opmsg o → decode_val opFields zero_op (opJSON o) = Some o.
Proof.
  destruct o as [t k v l]. intros (? & ? & ?). unfold decode_val, opJSON, zero_op. by store_all ltac:(cbn [om_Type om_Key om_Value om_Lease] in *).
Qed.

Lemma txnmsg_roundtrip t : wf_txnmsg t → decode_val txnFields zero_txn (txnJSON t) = Some t.
Proof.
  destruct t as [cs ss fs]. intros (Hc & Hs & Hf). unfold decode_val, txnJSON, zero_txn. cbn [tm_Conditions tm_Success tm_Failure] in *.
  by store_all_with ltac:(intros; first [apply (as_records_map _ _ _ _ _ cond_roundtrip); assumption | apply (as_records_map _ _ _ _ _ opmsg_roundtrip); assumption])
    ltac:(cbn [tm_Conditions tm_Success tm_Failure]).
Qed.

Lemma as_ptr_obj {A} (fs : list (field A)) zero l a : decode_val fs zero (JObj l) = Some a → as_ptr fs zero (JObj l) = Some (Some (Some a)).
Proof. intros H. unfold as_ptr. by rewrite H. Qed.

Lemma fwd_roundtrip r : wf_fwd r → decode_val forwardFields zero_fwd (forwardJSON r) = Some r.
Proof.
  destruct r as [op k v rev l t]. intros (Hk & Hr & Hl & Ht). unfold decode_val, forwardJSON, zero_fwd.
  cbn [fw_Op fw_Key fw_Value fw_Revision fw_Lease fw_TxnReq] in *.
  destruct t as [t|];
    by store_all_with ltac:(idtac; lazymatch goal with |- as_ptr _ _ _ = _ => by apply as_ptr_obj, txnmsg_roundtrip | _ => conv_value end)
      ltac:(cbn [fw_Op fw_Key fw_Value fw_Revision fw_Lease fw_TxnReq]).
Qed.

Lemma string_of_str s : String.string_of_list_byte (str s) = s.
Proof. apply String.string_of_list_byte_of_string. Qed.

Lemma resp_roundtrip r : wf_resp r → decode_val responseFields zero_resp (responseJSON r) = Some r.
Proof.
  destruct r as [rev old ok code msg del]. intros (Hr & Ho & Hc & Hm & Hd). unfold decode_val, responseJSON, zero_resp.
  cbn [fp_Revision fp_OldKV fp_Succeeded fp_ErrCode fp_ErrMsg fp_DeletedKeys] in *.
  destruct old as [kv|];
    store_all_with ltac:(idtac; lazymatch goal with |- as_ptr _ _ _ = _ => by apply as_ptr_obj, kv_roundtrip | _ => conv_value end)
      ltac:(cbn [fp_Revision fp_OldKV fp_Succeeded fp_ErrCode fp_ErrMsg fp_DeletedKeys]); by rewrite string_of_str.
Qed.

(** ** Every message is well-formed JSON *)

Lemma members_omit (P : bytes * jval → Prop) name empty v l :
  (empty = false → P (str name, v)) → Forall P l → Forall P (omitempty name empty v ++ l).
Proof. intros Hv Hl. unfold omitempty. destruct empty; [done|]. constructor; [by apply Hv|done]. Qed.

Lemma jwf_bytes d b : jwf d (jbytes b).
Proof. destruct b as [|x b]; [apply wf_null|]. apply wf_str, b64_valid. Qed.

Lemma jwf_i64 d z : is_i64 z → jwf d (jint z).
Proof. intros Hz. apply wf_int. by left. Qed.

Lemma jwf_u8 d z : is_u8 z → jwf d (jint z).
Proof. intros Hz. apply wf_int. right. unfold is_u8, is_u64 in *. lia. Qed.

Lemma jwf_records {A} d (f : A → jval) (P : A → Prop) l : 0 < d → (∀ a, P a → jwf (d - 1) (f a)) → Forall P l → jwf d (jrecords f l).
Proof.
  intros Hd Hf Hl. apply wf_arr; [done|]. change (map f l) with (f <$> l). apply Forall_fmap. eapply Forall_impl; [exact Hl|]. exact Hf.
Qed.

Ltac value_wf :=
  idtac; lazymatch goal with
  | |- jwf _ (JStr _) => apply wf_str; first [assumption | apply ascii_valid; repeat constructor]
  | |- jwf _ (jbytes _) => apply jwf_bytes
  | |- jwf _ (JBool _) => apply wf_bool
  | |- jwf _ (jint _) => first [apply jwf_i64; assumption | apply jwf_u8; assumption | idtac]
  | |- _ => idtac
  end.

(** The members of an object, one by one. *)
Ltac members_wf :=
  apply wf_obj; [first [lia | reflexivity]|]; cbn [app];
  repeat lazymatch goal with
  | |- Forall _ [] => apply Forall_nil_2
  | |- Forall _ (_ :: _) => apply Forall_cons_2; [split; [reflexivity|cbn [snd]; value_wf]|]
  | |- Forall _ (omitempty _ _ _ ++ _) => apply members_omit; [intros _; split; [reflexivity|cbn [snd]; value_wf]|]
  | |- Forall _ (omitempty ?n ?e ?v) => rewrite <- (app_nil_r (omitempty n e v))
  end.

Lemma kv_wf d k : 0 < d → wf_kv k → jwf d (KVMsgJSON k).
Proof. intros Hd (? & ? & ? & ? & ? & ?). members_wf. Qed.
Lemma cond_wf d c : 0 < d → wf_cond c → jwf d (condJSON c).
Proof. intros Hd (? & ? & ? & ? & ? & ? & ?). members_wf. Qed.
Lemma opmsg_wf d o : 0 < d → wf_opmsg o → jwf d (opJSON o).
Proof. intros Hd (? & ? & ?). members_wf. Qed.
Lemma txnmsg_wf d t : 2 < d → wf_txnmsg t → jwf d (txnJSON t).
Proof.
  intros Hd (Hc & Hs & Hf). members_wf.
  - eapply jwf_records; [lia| |exact Hc]. intros c. apply cond_wf. lia.
  - eapply jwf_records; [lia| |exact Hs]. intros o. apply opmsg_wf. lia.
  - eapply jwf_records; [lia| |exact Hf]. intros o. apply opmsg_wf. lia.
Qed.

Lemma fwd_wf d r : 3 < d → wf_fwd r → jwf d (forwardJSON r).
Proof.
  intros Hd (Hk & Hr & Hl & Ht). members_wf.
  - apply jwf_u8. by destruct (fw_Op r).
  - destruct (fw_TxnReq r) as [t|]; [|apply wf_null]. apply txnmsg_wf; [lia|done].
Qed.

Lemma resp_wf d r : 1 < d → wf_resp r → jwf d (responseJSON r).
Proof.
  intros Hd (Hr & Ho & Hc & Hm & Hk). members_wf.
  - destruct (fp_OldKV r) as [kv|]; [|apply wf_null]. apply kv_wf; [lia|done].
  - apply jwf_strings; [lia|done].
Qed.

Lemma ack_roundtrip revision : is_i64 revision → unmarshalAckMsg (marshalAckMsg revision) = Ok revision.
Proof. intros Hr. unfold unmarshalAckMsg, marshalAckMsg. rewrite length_le. cbn [Nat.ltb Nat.leb]. f_equal. by apply i64_unle_le_u64. Qed.

(** A message that the codec can carry arrives as it was sent. *)
Lemma codec_roundtrip m : wf_peer m → Codec_Unmarshal (type_of m) (Codec_Marshal m) = Ok m.
Proof.
  destruct m as [m|r|r|r|r|id|]; cbn [wf_peer type_of Codec_Unmarshal Codec_Marshal]; intros H.
  - by rewrite unmarshal_marshalWalEntryMsg.
  - by rewrite ack_roundtrip.
  - destruct H as [Hr Hn]. rewrite (Unmarshal_print followFields (mkFollow 0 []) (followJSON r) r); [done| |].
    + unfold followJSON. members_wf.
    + destruct r as [from id]. cbn in Hr, Hn. unfold decode_val, followJSON. by store_all ltac:(cbn).
  - rewrite (Unmarshal_print forwardFields zero_fwd (forwardJSON r) r); [done| |by apply fwd_roundtrip]. by apply fwd_wf.
  - rewrite (Unmarshal_print responseFields zero_resp (responseJSON r) r); [done| |by apply resp_roundtrip]. by apply resp_wf.
  - rewrite (Unmarshal_print goodByeFields [] (JObj [(str "node_id", JStr id)]) id); [done|members_wf|].
    unfold decode_val. by store_all ltac:(idtac).
  - done.
Qed.

(** ** Calls *)

Definition followMethod : bytes := str "/peer.WalStream/Follow".
Definition forwardMethod : bytes := str "/peer.WalStream/Forward".
Definition goodByeMethod : bytes := str "/peer.WalStream/GoodBye".

(** The methods of the service as [server.go] implements them. *)
Record WalStreamServer := mkSrv { ws_Forward : ForwardRequest → result ForwardResponse; ws_GoodBye : bytes → result () }.

Definition read_msg (t : msgType) (data : bytes) : result peerMsg := Codec_Unmarshal t data.

(** The handlers of the service descriptor, with an interceptor or without. *)
Definition walStreamForwardHandler (srv : WalStreamServer)
    (interceptor : option ((ForwardRequest → result ForwardResponse) → ForwardRequest → result ForwardResponse)) (data : bytes) : result bytes :=
  m ← read_msg TForward data;
  match m with
  | MForward req =>
      resp ← match interceptor with None => ws_Forward srv req | Some i => i (ws_Forward srv) req end;
      Ok (Codec_Marshal (MResponse resp))
  | _ => Err (ErrText "unreachable")
  end.

Definition walStreamGoodByeHandler (srv : WalStreamServer) (interceptor : option ((bytes → result ()) → bytes → result ())) (data : bytes) : result bytes :=
  m ← read_msg TGoodBye data;
  match m with
  | MGoodBye id =>
      _ ← match interceptor with None => ws_GoodBye srv id | Some i => i (ws_GoodBye srv) id end;
      Ok (Codec_Marshal MGoodByeResponse)
  | _ => Err (ErrText "unreachable")
  end.

(** The unary methods of [walStreamServiceDesc]; the peer server is created
    without interceptors. *)
Definition walStreamServiceDesc (srv : WalStreamServer) (method data : bytes) : result bytes :=
  if bool_decide (method = forwardMethod) then walStreamForwardHandler srv None data
  else if bool_decide (method = goodByeMethod) then walStreamGoodByeHandler srv None data
  else Err (ErrStatus Unimplemented "unknown method").

Section Client.
(** gRPC: connections, how one is made to an address with or without transport
    security, and a unary call on one. *)
Context {Conn : Type} (dial : bytes → bool → result Conn) (invoke : Conn → bytes → bytes → result bytes).

Definition stub_Forward (cc : Conn) (req : ForwardRequest) : result ForwardResponse :=
  out ← invoke cc forwardMethod (Codec_Marshal (MForward req));
  m ← read_msg TResponse out;
  match m with MResponse r => Ok r | _ => Err (ErrText "unreachable") end.

Definition stub_GoodBye (cc : Conn) (nodeID : bytes) : result () :=
  out ← invoke cc goodByeMethod (Codec_Marshal (MGoodBye nodeID));
  _ ← read_msg TGoodByeResponse out;
  Ok tt.

Record Client := mkClient { c_leaderAddr : bytes; c_nodeID : bytes; c_maxRetries : Z; c_tlsCreds : bool; c_conn : option Conn }.

Definition NewClient (leaderAddr nodeID : bytes) (maxRetries : Z) (tlsCreds : bool) : Client := mkClient leaderAddr nodeID maxRetries tlsCreds None.

Definition set_conn (o : option Conn) (c : Client) : Client := mkClient (c_leaderAddr c) (c_nodeID c) (c_maxRetries c) (c_tlsCreds c) o.

Definition cliClose : ST Client () := modify (set_conn None).

Definition getConn : ST Client Conn :=
  c ← get_st;
  match c_conn c with
  | Some cc => mret cc
  | None =>
      cc ← from_result (dial (c_leaderAddr c) (c_tlsCreds c));
      modify (set_conn (Some cc));;
      mret cc
  end.

Definition cliGoodBye : ST Client () :=
  r ← try getConn;
  match r with
  | Err _ => mret tt
  | Ok cc => c ← get_st; _ ← try (from_result (stub_GoodBye cc (c_nodeID c))); mret tt
  end.

Definition ForwardWrite (req : ForwardRequest) : ST Client ForwardResponse :=
  cc ← getConn; from_result (stub_Forward cc req).

(** C19. A forwarded write is the leader's own: over a connection that delivers
    calls to the service of the leader, the client's [ForwardWrite] is the
    [Forward] of the server on the same request, with the same answer or the same
    error, for every operation and transaction whose keys are valid UTF-8, and
    the client keeps its one connection. *)
Theorem forward_rpc_faithful srv (c : Client) cc req :
  (c_conn c = Some cc ∨ c_conn c = None ∧ dial (c_leaderAddr c) (c_tlsCreds c) = Ok cc) →
  (∀ method data, invoke cc method data = walStreamServiceDesc srv method data) →
  wf_fwd req → (∀ resp, ws_Forward srv req = Ok resp → wf_resp resp) →
  ForwardWrite req c = (ws_Forward srv req, set_conn (Some cc) c).
Proof using.
  intros Hc Hd Hreq Hresp.
  assert (getConn c = (Ok cc, set_conn (Some cc) c)) as Hg.
  { unfold getConn, mbind, ST_bind, get_st, modify, from_result. destruct Hc as [Hc|[Hc Hdial]]; rewrite Hc; [|by rewrite Hdial].
    unfold set_conn. rewrite <- Hc. by destruct c. }
  unfold ForwardWrite. rewrite (ST_bind_ok _ _ _ _ _ Hg). unfold from_result, stub_Forward, read_msg. f_equal.
  rewrite Hd. unfold walStreamServiceDesc. rewrite bool_decide_eq_true_2 by done. unfold walStreamForwardHandler, read_msg.
  pose proof (codec_roundtrip (MForward req) Hreq) as Hm. cbn [type_of] in Hm. rewrite Hm. cbn [mbind result_bind].
  destruct (ws_Forward srv req) as [resp|e] eqn:E; [|done]. cbn [mbind result_bind].
  pose proof (codec_roundtrip (MResponse resp) (Hresp resp eq_refl)) as Hm'. cbn [type_of] in Hm'. by rewrite Hm'.
Qed.
End Client.

(** ** Runs *)

Definition echo_server : WalStreamServer :=
  mkSrv (λ req, Ok (mkResp (fw_Revision req) (Some (mkKV (fw_Key req) (fw_Value req) 3 2 1 2 0)) true [] "" [fw_Key req])) (λ _, Ok tt).
Definition txn_req : ForwardRequest :=
  mkFwd ForwardTxn (str "k") (str "value") 7 0
    (Some (mkTxnMsg [mkCondMsg (str "a") 1 0 4 0 0 (str "x") 0] [mkOpMsg 0 (str "b") (str "yz") 9] [])).
Definition client0 : Client (Conn := ()) := NewClient (str "leader:3380") (str "n1") 5 false.

Lemma forward_rpc_faithful_witness :
  ForwardWrite (λ _ _, Ok tt) (λ _ method data, walStreamServiceDesc echo_server method data) txn_req client0 =
  (ws_Forward echo_server txn_req, set_conn (Some tt) client0).
Proof.
  apply (forward_rpc_faithful (λ _ _, Ok tt) (λ _ method data, walStreamServiceDesc echo_server method data) echo_server client0 tt txn_req).
  - by right.
  - done.
  - unfold wf_fwd, wf_txnmsg, txn_req. cbn. split_and!; try done; repeat constructor; done.
  - intros resp [= <-]. unfold wf_resp, wf_kv. cbn. split_and!; try done; by constructor.
Defined.

(** ** Departures *)

(** A key that is not valid UTF-8 is another key when it reaches the leader,
    and different keys become the same one. *)
Lemma forwarded_binary_key :
  ∀ b, b = xff ∨ b = xfe →
  Codec_Unmarshal TForward (Codec_Marshal (MForward (mkFwd ForwardPut [b] (str "v") 0 0 None))) =
  Ok (MForward (mkFwd ForwardPut [xef; xbf; xbd] (str "v") 0 0 None)).
Proof. intros b [-> | ->]; by vm_compute. Qed.
