(* ===== verification/CliStore.v ===== *)
(** * Commands on the object store

    The commands of internal/cli that work on a bucket without a running node:
    gc, status, branch fork and unfork, restore list and restore checkpoint.
    What a command prints is its result; opening the store and parsing flags
    are not part of it.  The collection of the gc command keeps the newest
    checkpoints, everything branches are pinned to, and the log from the
    latest checkpoint on. *)

From S2P Require Import Prelude Bytes Decimal WalEntry Os WalSegment Json Object Wal WalRecovery Pebble StoreKeys Store WalReplay WalReplayProps WalGc Sha256 Checkpoint CheckpointProps CheckpointWrite CheckpointClaims.

Section Commands.
Context {S : Type} `{OI : ObjectStore S}.

(** What [t4 gc] prints. *)
Record gcReport := mkReport { gr_checkpoints : Z; gr_ssts : Z; gr_wal : Z }.

Definition gcCmd (keep : Z) : ST S gcReport :=
  g ← GCCheckpoints keep;
  match gc_err g with
  | Some e => throw e
  | None =>
      deletedSSTs ← GCOrphanSSTs (gc_orphans g);
      manifest ← ReadManifest;
      match manifest with
      | Some m => deletedWAL ← GCSegments (mf_LastSequence m); mret (mkReport (gc_deleted g) deletedSSTs deletedWAL)
      | None => mret (mkReport (gc_deleted g) deletedSSTs 0)
      end
  end.

(** What [t4 status] prints. *)
Record statusReport := mkStatus { sr_manifest : option Manifest; sr_checkpoints : Z; sr_wal : Z; sr_branches : gmap bytes BranchEntry }.

Definition statusCmd : ST S statusReport :=
  manifest ← ReadManifest;
  checkpointKeys ← ListRemote;
  walKeys ← obj_List (str "wal/");
  branches ← ReadBranchEntries;
  mret (mkStatus manifest (zlen checkpointKeys) (zlen walKeys) branches).

Definition branchForkCmd (branchID checkpointKey : bytes) : ST S bytes :=
  if negb (bool_decide (checkpointKey = [])) then RegisterBranch branchID checkpointKey;; mret checkpointKey
  else Fork branchID.

Definition branchUnforkCmd (branchID : bytes) : ST S () := Unfork branchID.

(** A line of [t4 restore list]: revision and term, unless the index cannot be
    read, and whether the manifest names the checkpoint. *)
Record listRow := mkRow { lr_key : bytes; lr_index : option (Z * Z); lr_latest : bool }.

Fixpoint listRows (manifest : option Manifest) (keys : list bytes) : ST S (list listRow) :=
  match keys with
  | [] => mret []
  | key :: keys' =>
      r ← try (ReadCheckpointIndex key);
      rows ← listRows manifest keys';
      mret (mkRow key (match r with Ok idx => Some (ix_Revision idx, ix_Term idx) | Err _ => None end)
              (bool_decide (mf_CheckpointKey <$> manifest = Some key)) :: rows)
  end.

Definition restoreListCmd : ST S (list listRow) :=
  keys ← ListRemote;
  match keys with
  | [] => mret []
  | _ :: _ =>
      r ← try ReadManifest;
      listRows (match r with Ok m => m | Err _ => None end) keys
  end.
End Commands.

Section RestoreCommand.
Context {S T : Type} `{OI : ObjectStore S} `{AI : ObjectStore T}.

(** [hasDir] is the answer of [os.Stat] on the Pebble directory; the key, the
    term and the revision restored. *)
Definition restoreCheckpointCmd (hasDir : bool) (checkpointKey dataDir : bytes) : ST (world S * option T) (bytes * Z * Z) :=
  let pebbleDir := path_join dataDir (str "db") in
  if hasDir then throw (ErrText "data directory already contains a Pebble database; remove it first")
  else
    key ← (if bool_decide (checkpointKey = []) then
             manifest ← on_store ReadManifest;
             match manifest with
             | None => throw (ErrText "no checkpoints found")
             | Some m => mret (mf_CheckpointKey m)
             end
           else mret checkpointKey);
    '(term, rev) ← Restore key pebbleDir;
    mret (key, term, rev).
End RestoreCommand.

Section Gc.
Context {S : Type} `{OI : ObjectStore S} `{OOk : !ObjectStoreOk S}.

(** The command in two parts: checkpoints and SSTs, then the log below the
    sequence of the manifest. *)
Lemma gcCmd_parts keep (s : S) r s' keys :
  steady (S := S) → checkpoints (objects s) keys → gcCmd keep s = (r, s') →
  ∃ mf s1, (∀ m s0, ReadManifest s = (Ok (Some m), s0) → mf = Some m) ∧
    shrunk (collectable (Z.to_nat (Z.max 1 keep)) s mf keys) (objects s) (objects s1) ∧
    (objects s' = objects s1 ∨
     ∃ m res, manifest_of (objects s1) = Some m ∧ GCSegments (mf_LastSequence m) s1 = (res, s')).
Proof using OOk.
  intros Hst Hkeys. unfold gcCmd. intros [(g & s1 & Eg & E)|(e & Eg & _)]%ST_bind_run.
  2:{ destruct (gc_passes keep s _ _ ∅ keys Hst Hkeys Eg) as (g & [=] & _). }
  destruct (gc_passes keep s _ _ (objects s1) keys Hst Hkeys Eg) as (g' & [= <-] & Hg).
  destruct (gc_err g).
  { injection E as <- <-. destruct (Hg (shrunk_same _ _)) as (mf & Hmf & Hsh). exists mf, s1. by auto. }
  destruct (GCOrphanSSTs (gc_orphans g) s1) as [ro s2] eqn:Eo. pose proof (GCOrphanSSTs_spec _ _ _ _ Eo) as Hsh2.
  destruct (gc_passes keep s _ _ (objects s2) keys Hst Hkeys Eg) as (g' & [= <-] & Hg2). destruct (Hg2 Hsh2) as (mf & Hmf & Hsh).
  destruct ro as [d|e]; [rewrite (ST_bind_ok _ _ _ _ _ Eo) in E|rewrite (ST_bind_err _ _ _ _ _ Eo) in E; injection E as <- <-; exists mf, s2; by auto].
  destruct (ReadManifest s2) as [rm s3] eqn:Em. pose proof (ReadManifest_spec _ _ _ Em) as [Ho3 Hm].
  exists mf, s3. rewrite Ho3. split; [done|]. split; [done|].
  destruct rm as [[m|]|e]; [|rewrite (ST_bind_ok _ _ _ _ _ Em) in E; injection E as <- <-; by left|rewrite (ST_bind_err _ _ _ _ _ Em) in E; injection E as <- <-; by left].
  rewrite (ST_bind_ok _ _ _ _ _ Em) in E. right. exists m. destruct (GCSegments (mf_LastSequence m) s3) as [res s4] eqn:Es. exists res.
  split; [done|]. f_equal. destruct res; [rewrite (ST_bind_ok _ _ _ _ _ Es) in E|rewrite (ST_bind_err _ _ _ _ _ Es) in E]; by injection E.
Qed.

Lemma wal_elsewhere x : has_prefix (str "wal/") x = true → has_prefix (str "checkpoint/") x = false ∧ has_prefix (str "sst/") x = false.
Proof using.
  intros Hx. split; apply not_true_is_false; intros Hy; by destruct (prefix_clash _ _ _ Hx Hy).
Qed.

(** Only the segments decide what a replay uses. *)
Lemma survives_ext o o' keys afterSeq e :
  (∀ k, k ∈ keys → o' !! k = o !! k) → survives o keys afterSeq e → survives o' keys afterSeq e.
Proof using. intros Ho (key & c & Hk & Hc & Hrest). exists key, c. by rewrite Ho. Qed.

Lemma listing_ext p o o' keys : (∀ x, has_prefix p x = true → o' !! x = o !! x) → Object.listing p o keys → Object.listing p o' keys.
Proof using. intros Ho [Hs Hin]. split; [done|]. intros k. rewrite Hin. split; intros [Hp Hk]; (split; [done|]); by rewrite Ho in *. Qed.

End Gc.

(** ** Runs *)

(** Three checkpoints and a log of two terms below the newest of them. *)
Definition gc_bucket : list (bytes * bytes) :=
  gc_sample ++ [(ObjectKey 1 1, seg_content 1 1 old_entries); (ObjectKey 2 3, seg_content 2 3 new_entries)].
Definition gc_bucket_wal : list bytes := [ObjectKey 1 1; ObjectKey 2 3].

Lemma gc_bucket_checkpoints : checkpoints (objects (mem_of gc_bucket)) gc_sample_keys.
Proof.
  assert ((ListRemote (mem_of gc_bucket)).1 = Ok gc_sample_keys) as Hl by (vm_compute; reflexivity).
  destruct (ListRemote (mem_of gc_bucket)) as [rk sk] eqn:E. cbn in Hl. subst rk. by apply ListRemote_spec in E as [_ Hk].
Qed.

Lemma gc_sample_keys_ok k : k ∈ gc_sample_keys → ∃ t r, key_ok t r ∧ k = CheckpointIndexKey t r.
Proof.
  intros Hk%list_elem_of_In. destruct Hk as [<-|[<-|[<-|[]]]]; eexists _, _; (split; [|reflexivity]); unfold key_ok, is_u64; lia.
Qed.

Lemma gc_bucket_ssts k i x : idx_of (objects (mem_of gc_bucket)) k = Some i → x ∈ ix_SSTFiles i → has_prefix (str "sst/") x = true.
Proof.
  intros Hi Hx. destruct (idx_of_mem _ _ _ _ Hi Hx) as (p & Hp & Hxp).
  assert (Forall (λ p, Forall (λ x, has_prefix (str "sst/") x = true) (ssts_of p)) gc_bucket) as Hall by (apply (bool_decide_unpack _); vm_compute; reflexivity).
  rewrite Forall_forall in Hall. specialize (Hall p Hp). rewrite Forall_forall in Hall. by apply Hall.
Qed.

Lemma gc_bucket_listing : Object.listing (str "wal/") (objects (mem_of gc_bucket)) gc_bucket_wal.
Proof.
  pose proof (mem_listing (str "wal/") (mem_of gc_bucket)) as Hl.
  match type of Hl with Object.listing _ _ ?l => assert (l = gc_bucket_wal) as E by (vm_compute; reflexivity); by rewrite E in Hl end.
Qed.

Lemma gc_bucket_wal_ok k : k ∈ gc_bucket_wal → ∃ t f, k = ObjectKey t f ∧ seg_ok t f.
Proof.
  intros Hk%list_elem_of_In. destruct Hk as [<-|[<-|[]]]; eexists _, _; (split; [reflexivity|]); unfold seg_ok; lia.
Qed.

(** One segment per term. *)
Lemma gc_bucket_wal_one t g : seg_ok t g → ObjectKey t g ∈ gc_bucket_wal → g = 2 * t - 1.
Proof.
  intros Hg Hin%list_elem_of_In. pose proof (parseWALKey_ObjectKey t g Hg) as Hp.
  destruct Hin as [Hin|[Hin|[]]]; rewrite <- Hin, parseWALKey_ObjectKey in Hp by (unfold seg_ok; lia); injection Hp as <- <-; reflexivity.
Qed.

