(* ===== verification/CliInspect.v ===== *)
(** * Offline inspection

    The inspect commands of internal/cli/inspect.go over a store opened
    read-only: metadata, single keys, listings, histories and the summary of
    the changes between two revisions.  Which characters are printable and how
    a string is quoted is a parameter (unicode.IsPrint and strconv.Quote). *)

From S2P Require Import Prelude Bytes WalEntry Os Md5 Json Pebble StoreKeys Store StoreSpec StoreInv StoreApply StoreRead StoreRefine StoreProps.

(** ** Values *)

Fixpoint runes_loop (fuel : nat) (s : bytes) : list Z :=
  match fuel, s with
  | S f, _ :: _ => let '(c, size) := DecodeRune s in c :: runes_loop f (drop size s)
  | _, _ => []
  end.
Definition runes (s : bytes) : list Z := runes_loop (length s) s.

(** [unicode.IsSpace]: the white space of Latin-1 and of Unicode. *)
Definition IsSpace (r : Z) : bool :=
  ((9 <=? r) && (r <=? 13)) || (r =? 0x20) || (r =? 0x85) || (r =? 0xA0) || (r =? 0x1680) ||
  ((0x2000 <=? r) && (r <=? 0x200a)) || (r =? 0x2028) || (r =? 0x2029) || (r =? 0x202f) || (r =? 0x205f) || (r =? 0x3000).

Section Format.
Context (IsPrint : Z → bool) (Quote : bytes → bytes).

Definition formatValue (v : bytes) : bytes :=
  if valid_utf8 v && forallb (λ r, IsPrint r || IsSpace r) (runes v) then Quote v
  else str "0x" ++ hex v.

Definition formatMaybeValue (kv : option KeyValue) : bytes :=
  match kv with None => str "(absent)" | Some kv => formatValue (kv_Value kv) end.

(** ** Summaries *)

Record inspectChange := mkChange {
  ic_Key : bytes;
  ic_Type : bytes;
  ic_FirstRevision : Z;
  ic_LastRevision : Z;
  ic_Operations : Z;
  ic_BeforeValue : bytes;
  ic_AfterValue : bytes }.

(** What is gathered per key. *)
Record agg := mkAgg { ag_first : Z; ag_last : Z; ag_ops : Z; ag_before : option KeyValue; ag_after : option KeyValue; ag_seen : bool }.

Definition sumEvent (byKey : gmap bytes agg) (ev : Event) : gmap bytes agg :=
  let rev := kv_Revision (ev_KV ev) in
  let cur := default (mkAgg rev rev 0 None None false) (byKey !! kv_Key (ev_KV ev)) in
  <[kv_Key (ev_KV ev) :=
      mkAgg (if rev <? ag_first cur then rev else ag_first cur)
            (if ag_last cur <? rev then rev else ag_last cur)
            (ag_ops cur + 1)
            (if ag_seen cur then ag_before cur else ev_PrevKV ev)
            (match ev_Type ev with EventDelete => None | EventPut => Some (ev_KV ev) end)
            true]> byKey.

Definition changeOf (key : bytes) (cur : agg) : inspectChange :=
  mkChange key
    (match ag_before cur, ag_after cur with
     | None, Some _ => str "created"
     | Some _, None => str "deleted"
     | _, _ => str "updated"
     end)
    (ag_first cur) (ag_last cur) (ag_ops cur) (formatMaybeValue (ag_before cur)) (formatMaybeValue (ag_after cur)).

Definition summarizeChanges (events : list Event) : list inspectChange :=
  let byKey := fold_left sumEvent events ∅ in
  omap (λ k, changeOf k <$> byKey !! k) (sort_bytes (map fst (map_to_list byKey))).

(** ** Commands *)

Definition resolveInspectPrefix (flagPrefix : bytes) (args : list bytes) : result bytes :=
  match args with
  | [] => Ok flagPrefix
  | a :: _ => if negb (bool_decide (flagPrefix = [])) then Err (ErrText "use either a positional prefix or --prefix, not both") else Ok a
  end.

Section Commands.
Context {DB : Type} `{PI : Pebble DB}.
Implicit Types s : Store DB.

(** [stat] and [db] are the answers of [os.Stat] and [pebble.Open] for the
    directory of the database. *)
Definition OpenReadOnly (db : result DB) : result (Store DB) := d ← db; loadMeta d.

Definition openInspectStore (dataDir : bytes) (stat : result ()) (db : result DB) : result (Store DB) :=
  if bool_decide (dataDir = []) then Err (ErrText "--data-dir is required")
  else match stat with
       | Err ErrNotExist => Err (ErrText "pebble database not found")
       | Err e => Err e
       | Ok _ => OpenReadOnly db
       end.

(** Current revision, compact revision and number of keys. *)
Definition inspectMeta s : result (Z * Z * Z) :=
  totalKeys ← Count s [];
  Ok (st_currentRev s, st_compactRev s, totalKeys).

Definition inspectGet s (key : bytes) : result KeyValue :=
  kv ← Get s key;
  match kv with None => Err (ErrText "key not found") | Some kv => Ok kv end.

Definition inspectList s (prefix : bytes) (args : list bytes) (limit : Z) : result (list KeyValue) :=
  effectivePrefix ← resolveInspectPrefix prefix args;
  kvs ← List s effectivePrefix;
  Ok (if (0 <? limit) && (limit <? zlen kvs) then take (Z.to_nat limit) kvs else kvs).

Definition inspectCount s (prefix : bytes) : result Z := Count s prefix.

Definition inspectHistory s (key : bytes) (limit : Z) : result (list Event) :=
  events ← History s key;
  Ok (if (0 <? limit) && (limit <? zlen events) then drop (Z.to_nat (zlen events - limit)) events else events).

Definition inspectDiff s (prefix : bytes) (fromRev toRev : Z) : result (list inspectChange) :=
  let toRev := if toRev =? 0 then st_currentRev s else toRev in
  events ← Changes s prefix fromRev toRev;
  Ok (summarizeChanges events).
End Commands.
End Format.

(** ** What a summary says *)

Definition ev_rev (ev : Event) : Z := kv_Revision (ev_KV ev).
Definition for_key (k : bytes) (evs : list Event) : list Event := filter (λ ev, kv_Key (ev_KV ev) = k) evs.
Definition ev_after (ev : Event) : option KeyValue := match ev_Type ev with EventDelete => None | EventPut => Some (ev_KV ev) end.

Definition agg_of (l : list Event) : option agg :=
  first ← head l; final ← last l;
  Some (mkAgg (ev_rev first) (ev_rev final) (zlen l) (ev_PrevKV first) (ev_after final) true).

Definition in_order (evs : list Event) : Prop := StronglySorted (λ a b, ev_rev a ≤ ev_rev b) evs.

Lemma in_order_snoc evs ev : in_order (evs ++ [ev]) → in_order evs ∧ ∀ e, e ∈ evs → ev_rev e ≤ ev_rev ev.
Proof.
  unfold in_order. induction evs as [|a evs IH]; cbn [app]; intros Hs; [split; [constructor|by intros e ?%not_elem_of_nil]|].
  inversion_clear Hs as [|? ? Hs' Hf]. apply IH in Hs' as [H1 H2]. rewrite Forall_app in Hf. destruct Hf as [Hf1 Hf2].
  inversion_clear Hf2 as [|? ? Hle _]. split; [by constructor|]. intros e [->|He]%elem_of_cons; [done|by apply H2].
Qed.

Lemma sum_fold evs : in_order evs → ∀ k, fold_left sumEvent evs ∅ !! k = agg_of (for_key k evs).
Proof.
  induction evs as [|ev evs IH] using rev_ind; intros Hs k; [done|]. apply in_order_snoc in Hs as [Hs Hle]. specialize (IH Hs).
  rewrite fold_left_app. cbn [fold_left]. unfold sumEvent at 1. unfold for_key. rewrite filter_app, filter_cons, filter_nil.
  destruct (decide (kv_Key (ev_KV ev) = k)) as [<-|Hne]; [|by rewrite lookup_insert_ne, app_nil_r, IH by done].
  rewrite lookup_insert_eq, IH. fold (for_key (kv_Key (ev_KV ev)) evs).
  assert (∀ e, e ∈ for_key (kv_Key (ev_KV ev)) evs → ev_rev e ≤ ev_rev ev) as Hk.
  { intros e [_ He]%list_elem_of_filter. by apply Hle. }
  fold (ev_rev ev) (ev_after ev). unfold agg_of. rewrite last_snoc.
  destruct (for_key _ evs) as [|e0 l] eqn:E; cbn [head app mbind option_bind default].
  - cbn [ag_first ag_last ag_ops ag_before ag_seen]. by rewrite Z.ltb_irrefl.
  - destruct (last (e0 :: l)) as [e1|] eqn:El; [|by apply last_None in El]. cbn [mbind option_bind default from_option id ag_first ag_last ag_ops ag_before ag_seen].
    pose proof (Hk e0 ltac:(by left)). pose proof (Hk e1 ltac:(by apply last_Some_elem_of)).
    assert (ev_rev ev <? ev_rev e0 = false) as -> by lia.
    assert ((if ev_rev e1 <? ev_rev ev then ev_rev ev else ev_rev e1) = ev_rev ev) as -> by (destruct (Z.ltb_spec (ev_rev e1) (ev_rev ev)); lia).
    do 2 f_equal. unfold zlen. rewrite !length_cons, length_app. cbn [length]. lia.
Qed.

Section Summary.
Context (IsPrint : Z → bool) (Quote : bytes → bytes).
Local Notation changeOf := (changeOf IsPrint Quote).
Local Notation summarizeChanges := (summarizeChanges IsPrint Quote).

(** One line per key that has events, in key order. *)
Lemma summarize_lines evs : in_order evs →
  let ks := map ic_Key (summarizeChanges evs) in
  StronglySorted bytes_lt ks ∧ (∀ k, k ∈ ks ↔ for_key k evs ≠ []) ∧
  ∀ c, c ∈ summarizeChanges evs → ∃ a, agg_of (for_key (ic_Key c) evs) = Some a ∧ c = changeOf (ic_Key c) a.
Proof using.
  intros Hs. unfold summarizeChanges. set (m := fold_left sumEvent evs ∅). set (sk := sort_bytes (map fst (map_to_list m))).
  assert (∀ k, k ∈ sk ↔ is_Some (m !! k)) as Hin.
  { intros k. unfold sk. rewrite sort_bytes_perm. change (map fst (map_to_list m)) with ((map_to_list m).*1). rewrite list_elem_of_fmap. split.
    - intros ([k' a] & -> & Ha%elem_of_map_to_list). by eexists.
    - intros [a Ha]. exists (k, a). split; [done|]. by apply elem_of_map_to_list. }
  assert (StronglySorted bytes_lt sk) as Hst by (apply sort_bytes_strict; apply NoDup_fst_map_to_list).
  assert (map ic_Key (omap (λ k, changeOf k <$> m !! k) sk) = sk) as ->.
  { assert (∀ k, k ∈ sk → is_Some (m !! k)) as H1 by (intros k; apply Hin). clear -H1. induction sk as [|k sk IH]; [done|].
    cbn [omap list_omap]. destruct (H1 k ltac:(by left)) as [a ->]. cbn [fmap option_fmap option_map map]. f_equal. apply IH. intros k' Hk'. apply H1. by right. }
  split; [done|]. split.
  - intros k. rewrite Hin. unfold m. rewrite sum_fold by done. unfold agg_of. destruct (for_key k evs) as [|e l] eqn:E; cbn [head mbind option_bind].
    + split; [by intros [? [=]]|done].
    + destruct (last (e :: l)) eqn:El; [|by apply last_None in El]. split; [done|]. intros _. by eexists.
  - intros c Hc. apply list_elem_of_omap in Hc as (k & Hk & Hc). apply fmap_Some in Hc as (a & Ha & ->).
    exists a. cbn [ic_Key changeOf]. split; [|done]. unfold m in Ha. by rewrite sum_fold in Ha.
Qed.
End Summary.

(** ** Summaries of the history *)

(** Every record names the revision of the pair it replaces, 0 if there is
    none, as the write path fills it in. *)
Definition linked (H : hist) : Prop :=
  ∀ H1 x H2, H = H1 ++ x :: H2 → rc_prevRevision x.2 = match live (newest H1 (rc_key x.2)) with Some kv => kv_Revision kv | None => 0 end.

Definition in_window (k : bytes) (a b : Z) (x : Z * record) : Prop := rc_key x.2 = k ∧ a ≤ x.1 ≤ b.
#[global] Instance in_window_dec k a b x : Decision (in_window k a b x).
Proof. unfold in_window. apply _. Defined.

(** The first match of a list, with what comes before it. *)
Lemma head_filter {A} (P : A → Prop) `{!∀ x, Decision (P x)} (l : list A) x :
  head (filter P l) = Some x → ∃ l1 l2, l = l1 ++ x :: l2 ∧ P x ∧ ∀ y, y ∈ l1 → ¬ P y.
Proof.
  induction l as [|y l IH]; [done|]. rewrite filter_cons. destruct (decide (P y)) as [Hy|Hy].
  - intros [= <-]. exists [], l. split; [done|]. split; [done|]. by intros z ?%not_elem_of_nil.
  - intros (l1 & l2 & -> & Hx & Hl1)%IH. exists (y :: l1), l2. split; [done|]. split; [done|].
    intros z [->|Hz]%elem_of_cons; [done|by apply Hl1].
Qed.

Section Diff.
Context {DB : Type} `{PI : Pebble DB} `{POk : !PebbleOk DB}.
Implicit Types (s : Store DB) (H : hist).

Lemma window_events s H prefix k a b : has_prefix prefix k = true →
  for_key k (map (event_of s true) (filter (StoreSpec.under prefix) (filter (λ x, a ≤ x.1 ≤ b) H))) =
  map (event_of s true) (filter (in_window k a b) H).
Proof using.
  intros Hp. unfold for_key. induction H as [|x H IH]; [done|]. rewrite !filter_cons.
  destruct (decide (in_window k a b x)) as [[Hk Hx]|Hn].
  - rewrite (decide_True (P := a ≤ x.1 ≤ b)) by done. rewrite filter_cons, decide_True by (unfold StoreSpec.under; by rewrite Hk).
    cbn [map]. rewrite filter_cons, decide_True by done. by rewrite IH.
  - rewrite <- IH. destruct (decide (a ≤ x.1 ≤ b)) as [Hx|Hx]; [|done]. rewrite filter_cons.
    destruct (decide (StoreSpec.under prefix x)); [|done]. cbn [map]. rewrite filter_cons, decide_False; [done|].
    intros Hk. by apply Hn.
Qed.

Lemma for_key_under s prefix k (xs : hist) e l :
  for_key k (map (event_of s true) (filter (StoreSpec.under prefix) xs)) = e :: l → has_prefix prefix k = true.
Proof using.
  intros E. assert (e ∈ e :: l) as He by by left. rewrite <- E in He. apply list_elem_of_filter in He as [<- He].
  apply list_elem_of_In, in_map_iff in He as (x & <- & Hx%list_elem_of_In). by apply list_elem_of_filter in Hx as [? _].
Qed.

Lemma history_in_order s H P `{!∀ x, Decision (P x)} : StronglySorted rev_le H → in_order (map (event_of s true) (filter P H)).
Proof using.
  unfold in_order. induction 1 as [|x H Hs IH Hf]; [constructor|]. rewrite filter_cons. destruct (decide (P x)); [|done].
  cbn [map]. constructor; [done|]. apply Forall_map, Forall_forall. intros y [_ Hy]%list_elem_of_filter. rewrite Forall_forall in Hf. by apply Hf.
Qed.

Lemma history_split H1 x H2 : StronglySorted rev_le (H1 ++ x :: H2) → (∀ y, y ∈ H1 → y.1 ≤ x.1) ∧ ∀ y, y ∈ x :: H2 → x.1 ≤ y.1.
Proof using.
  induction H1 as [|z H1 IH]; cbn [app]; intros Hs; inversion_clear Hs as [|? ? Hs' Hf].
  - split; [by intros y ?%not_elem_of_nil|]. intros y [->|Hy]%elem_of_cons; [lia|]. rewrite Forall_forall in Hf. by apply Hf.
  - destruct (IH Hs') as [Ha Hb]. split; [|done]. intros y [->|Hy]%elem_of_cons; [|by apply Ha].
    rewrite Forall_forall in Hf. apply Hf, elem_of_app. right. by left.
Qed.

(** The value before the first change of the window. *)
Lemma before_value s H k a b x :
  Rel s H → healthy (st_db s) → linked H → st_compactRev s < a → head (filter (in_window k a b) H) = Some x →
  ev_PrevKV (event_of s true x) = value_at H k (a - 1).
Proof using POk.
  intros HR Hh Hl Hc Hx. apply head_filter in Hx as (H1 & H2 & E & [Hk Hab] & Hno). pose proof (re_mi _ _ HR) as Hmi.
  destruct (history_split H1 x H2) as [Hlo Hhi]; [rewrite <- E; apply Hmi|].
  assert (last_at H k (a - 1) = newest H1 k) as Hlast.
  { rewrite E. unfold last_at, newest. rewrite filter_app.
    assert (filter (at_or_before k (a - 1)) (x :: H2) = []) as -> by (apply filter_nil_in; intros y Hy [? _]; specialize (Hhi y Hy); lia).
    rewrite app_nil_r. f_equal. apply filter_ext_in. intros y Hy. unfold at_or_before, of_key. specialize (Hno y Hy). specialize (Hlo y Hy).
    unfold in_window in Hno. split; [tauto|]. intros Hyk. split; [|done]. assert (¬ a ≤ y.1 ≤ b) by tauto. lia. }
  unfold value_at. rewrite Hlast. specialize (Hl H1 x H2 E). rewrite Hk in Hl. unfold event_of. cbn [ev_PrevKV andb]. rewrite Hl, Hk.
  destruct (newest H1 k) as [[rev r]|] eqn:En; [|done]. cbn [live]. destruct (rc_delete r) eqn:Ed; [done|]. cbn [recordToKV kv_Revision].
  rewrite <- (mi_last _ _ _ Hmi k (a - 1)) in Hlast by lia. apply last_at_elem in Hlast as (Hin & _ & Hrk). cbn [fst snd] in Hrk.
  pose proof (re_cur _ _ HR _ (mi_sub _ _ _ Hmi _ Hin)) as [Hpos _]. cbn [fst] in Hpos. rewrite (proj2 (Z.ltb_lt _ _)) by done.
  rewrite <- Hrk. by rewrite (reads_healthy _ _ _ (getLogEntry_reads _ _ HR _ _ Hin) Hh).
Qed.

(** The value after the last change of the window. *)
Lemma after_value s H k a b y :
  StronglySorted rev_le H → last (filter (in_window k a b) H) = Some y → ev_after (event_of s true y) = value_at H k b.
Proof using.
  intros Hs Hy. assert (last_at H k b = Some y) as Hl.
  { revert Hs Hy. unfold last_at. induction H as [|x H IH] using rev_ind; [done|]. intros Hs.
    destruct (history_split H x [] Hs) as [Hlo _]. rewrite !filter_app, !filter_cons, !filter_nil.
    destruct (decide (in_window k a b x)) as [[Hk Hx]|Hn].
    - rewrite decide_True by (split; [lia|done]). by rewrite !last_snoc.
    - rewrite app_nil_r. intros Hy. pose proof (last_Some_elem_of _ _ Hy) as [[_ Hw] Hin]%list_elem_of_filter.
      destruct (decide (at_or_before k b x)) as [[Hb Hk]|_].
      + exfalso. apply Hn. split; [done|]. specialize (Hlo y Hin). lia.
      + rewrite app_nil_r. apply IH; [|done]. clear -Hs. induction H as [|z H IH]; [constructor|]. inversion_clear Hs as [|? ? Hs' Hf].
        rewrite Forall_app in Hf. constructor; [by apply IH|]. by destruct Hf. }
  unfold value_at. rewrite Hl. destruct y as [rev r]. unfold live, ev_after, event_of. cbn [ev_Type ev_KV fst snd]. by destruct (rc_delete r).
Qed.

Context (IsPrint : Z → bool) (Quote : bytes → bytes).
Local Notation formatMaybeValue := (formatMaybeValue IsPrint Quote).
Local Notation inspectDiff := (inspectDiff IsPrint Quote).

(** C29. [t4 inspect diff] reports the difference between two revisions of the
    history: there is one line per key under the prefix that changed in the
    window, in key order; it counts the key's changes, gives their first and
    last revision, and its two values are those of the key just before the
    window and at its end, for every window above the compaction watermark. *)
Theorem inspect_diff_correct s H prefix a b :
  Rel s H → healthy (st_db s) → linked H → 0 < a → a ≤ b → st_compactRev s < a →
  ∃ lines, inspectDiff s prefix a b = Ok lines ∧ StronglySorted bytes_lt (map ic_Key lines) ∧
  (∀ k, k ∈ map ic_Key lines ↔ has_prefix prefix k = true ∧ filter (in_window k a b) H ≠ []) ∧
  ∀ c, c ∈ lines → let xs := filter (in_window (ic_Key c) a b) H in
    ic_Operations c = zlen xs ∧ head (map fst xs) = Some (ic_FirstRevision c) ∧ last (map fst xs) = Some (ic_LastRevision c) ∧
    ic_BeforeValue c = formatMaybeValue (value_at H (ic_Key c) (a - 1)) ∧
    ic_AfterValue c = formatMaybeValue (value_at H (ic_Key c) b).
Proof using POk.
  intros HR Hh Hl Ha Hab Hc. unfold inspectDiff. rewrite (proj2 (Z.eqb_neq b 0)) by lia.
  rewrite (reads_healthy s _ _ (Changes_reads s H HR prefix a b Ha Hab ltac:(lia)) Hh). cbn [mbind result_bind].
  set (evs := map (event_of s true) _). eexists. split; [reflexivity|].
  assert (in_order evs) as Ho.
  { unfold evs. rewrite list_filter_filter. apply history_in_order, (re_mi _ _ HR). }
  destruct (summarize_lines IsPrint Quote evs Ho) as (Hs & Hks & Hcs). split; [done|]. split.
  - intros k. rewrite Hks. split.
    + intros Hk. assert (has_prefix prefix k = true) as Hp.
      { destruct (for_key k evs) as [|e l] eqn:E; [done|]. by eapply for_key_under. }
      split; [done|]. intros E. apply Hk. unfold evs. by rewrite window_events, E.
    + intros [Hp Hne] E. unfold evs in E. rewrite window_events in E by done. by apply map_eq_nil in E.
  - intros c Hin. destruct (Hcs c Hin) as (g & Hg & Hcg). assert (has_prefix prefix (ic_Key c) = true) as Hp.
    { destruct (for_key (ic_Key c) evs) as [|e l] eqn:E; [done|]. by eapply for_key_under. }
    unfold evs in Hg. rewrite window_events in Hg by done. revert Hg. unfold agg_of.
    destruct (filter (in_window (ic_Key c) a b) H) as [|x xs] eqn:E; [done|]. cbn [map head mbind option_bind].
    change (event_of s true x :: map (event_of s true) xs) with (event_of s true <$> x :: xs). rewrite fmap_last.
    destruct (last (x :: xs)) as [y|] eqn:Ey; [|by apply last_None in Ey]. cbn [fmap option_fmap option_map option_bind]. intros [= <-].
    rewrite Hcg. cbn [changeOf ic_Key ic_Operations ic_FirstRevision ic_LastRevision ic_BeforeValue ic_AfterValue ag_ops ag_first ag_last ag_before ag_after].
    split; [unfold zlen; cbn [length]; by rewrite length_map|]. split; [done|]. split.
    { change (last (fst <$> x :: xs) = Some y.1). by rewrite fmap_last, Ey. }
    rewrite <- (before_value s H (ic_Key c) a b x) by (rewrite ?E; done).
    rewrite <- (after_value s H (ic_Key c) a b y) by (rewrite ?E; first [done|apply (re_mi _ _ HR)]). done.
Qed.
End Diff.

(** ** Runs *)

Definition two_batches : hist := batch_log batch1 ++ batch_log batch2.

Lemma two_batches_linked : linked two_batches.
Proof.
  intros H1 x H2 E. vm_compute in E.
  repeat (destruct H1 as [|? H1]; cbn [app] in E; [injection E as <- _; by vm_compute|injection E as <- E]).
  by destruct H1.
Qed.

Lemma inspect_diff_correct_witness :
  ∃ lines, inspectDiff (λ _, true) id store2 [] 3 3 = Ok lines ∧ map ic_Key lines = [key_b] ∧ map ic_Type lines = [str "deleted"] ∧
    ∀ c, c ∈ lines → ic_BeforeValue c = str "w1" ∧ ic_AfterValue c = str "(absent)".
Proof.
  destruct (inspect_diff_correct (λ _, true) id store2 two_batches [] 3 3 store2_rel (mem_healthy _) two_batches_linked
    ltac:(lia) ltac:(lia) ltac:(by vm_compute)) as (lines & E & _ & _ & Hc).
  assert (∃ c, inspectDiff (λ _, true) id store2 [] 3 3 = Ok [c] ∧ ic_Key c = key_b ∧ ic_Type c = str "deleted") as (c & Er & Hk & Ht)
    by (eexists; split; [vm_compute; reflexivity|by split]).
  rewrite Er in E. injection E as <-. exists [c]. split; [done|]. cbn [map]. rewrite Hk, Ht. split; [done|]. split; [done|].
  intros c' ->%list_elem_of_singleton. destruct (Hc c ltac:(by left)) as (_ & _ & _ & -> & ->). rewrite Hk. split; by vm_compute.
Defined.

(** ** Departures *)

(** A key that is created and deleted within the window is reported as updated
    from absent to absent. *)
Lemma created_and_deleted_updated :
  map (λ c, (ic_Type c, ic_BeforeValue c, ic_AfterValue c)) <$> inspectDiff (λ _, true) id store2 key_b 1 3 =
  Ok [(str "updated", str "(absent)", str "(absent)")].
Proof. by vm_compute. Qed.
